(* ===== verification/_CoqProject ===== *)
-Q . S2P
Prelude.v
Ids.v
GroupSettings.v
Events.v
Membership.v
MembershipSpec.v
MembershipInv.v
Fixtures.v
MembershipProps.v
RaftLog.v
RaftState.v
Follower.v
RaftFixtures.v
RaftProps.v
CoreGroup.v
CoreGroupProps.v
CoreGroupFixtures.v
Custody.v
CustodyFixtures.v
CustodyProps.v
Keeping.v
KeepingFixtures.v
KeepingProps.v
Settling.v
CustodyView.v
Pins.v
PinsProps.v
Emergency.v
Failures.v
Probes.v
Holders.v
Heartbeats.v
HeartbeatFixtures.v
Online.v
Directory.v
Statements.v
Listening.v
AvailabilityProps.v
ListeningProps.v
Gossip.v
Beating.v
Texts.v
Items.v
ItemsProps.v
TextFixtures.v
Held.v
Pacer.v
Hooks.v
Blobs.v
Storage.v
StorageProps.v
Links.v
RaftNetwork.v
Memberlog.v
MemberlogProps.v
Proposing.v
Roles.v
RolesProps.v
Enforcing.v
Coverage.v
Community.v
Catalogue.v
CatalogueProps.v
CatalogueFixtures.v
Changes.v
Sweep.v
ReadModel.v
Projecting.v
ReadModelProps.v
ProjectingProps.v
ReadModelFixtures.v
Tasks.v
Uploads.v
Api.v
Downloading.v
Adding.v
AddingProps.v
Requests.v
Saying.v
ApiFixtures.v
