(* ===== verification/Prelude.v ===== *)
(** * Verification of distlib

    distlib is a library shared by the members of a private group. Who the
    members are, and what they agreed on, is a log replicated by Raft among a
    core group and read by everybody else; the items are content-addressed
    blobs, and each member keeps the ones a deterministic placement gives it.
    This library models the logic those parts decide by, one file per source
    file, and proves what each part promises the next. Paths below are under
    [src/crates/].

    ** The parts

    - [Ids], [GroupSettings]: the vocabulary. [distlib-core/src/id.rs] and
      [group_settings.rs]; a 32-byte id is an integer below [2^256], which
      orders as its bytes do.
    - [Events]: what the log holds. [distlib-consensus/src/event.rs],
      [signed.rs] and [error.rs]. ed25519, blake3 and the postcard encoding
      of an event are the class [Crypto].
    - [Membership]: the fold of the log, [distlib-consensus/src/state.rs],
      every function of it. [MembershipState] and [Proposal] are its records;
      [Membership.apply] is [MembershipState::apply], a [fallible] function
      of the state, whose error path keeps what the code had written by then.
      [MembershipSpec] says as inference rules ([changes], [folds],
      [accepts]) what an entry may do; [MembershipInv] has the invariant [wf],
      proved by cases on the rules, [MembershipInv] attributes every
      decision to the signed entries that made it.
    - [RaftLog]: [distlib-consensus/src/raft/log_store.rs] and the page a
      member is served, [memberlog.rs]. [RaftState]: [state_machine.rs], the
      store with its memory, its disk and what it has announced. [Follower]:
      [follower.rs], a pass over the core nodes and what the loop does next.
      openraft's ids and postcard's encodings are the classes [Openraft] and
      [Postcard]. The three meet in one theorem: pages served by [RaftLog],
      read by a pass of [Follower] and folded by [RaftState] give the reader
      the core's membership.
    - [Custody]: who keeps an item, [distlib-core/src/custody.rs]. Scores are
      binary64 numbers to the bit; blake3 and [libm] are the class
      [Placement].
    - [Keeping]: why a blob is kept and what goes when space is short,
      [distlib-core/src/keeping.rs]. The hex text of an id is the class
      [Hex].
    - [Settling], [CustodyView]: the membership custody follows and what a
      node keeps under it, [distlib-custody/src/settling.rs], [view.rs] and
      [custody_group] of [service.rs].
    - [Pins]: the pin manager, [distlib-custody/src/pins.rs]. [Pins.Pins] is
      its task's state, [Pins.handle] one turn of its loop with a handler per
      branch, [World] what the turn finds outside. [Emergency]: the items down
      to one copy, [emergency.rs].
    - [Failures], [Probes]: [failed_copies.rs], [suspects.rs] and [probes.rs]:
      what a failed probe says, of whom, for how long, and what is recorded.
    - [Heartbeats], [Statements], [Holders], [Online], [Listening]: how
      members learn of each other, [distlib-core/src/availability.rs] and
      [distlib-sync/src/availability/]. A member states what it holds as a
      published list and a change since ([Statements]); a receiver keeps one
      inverted index of every member's holdings ([Holders]) and who is online
      ([Online]); [Listening.turn] is one turn of the loop that joins them.
      postcard's encoding of a beat is the class [HeartbeatCodec].
      [Held] is the set a member states, and [ask_order.rs].
    - [Directory]: the addresses members signed, [distlib-net/src/directory.rs]
      and [addresses.rs], over iroh's lookup service, the class [Lookup].
      [Hooks]: [hooks.rs] and [allowlist.rs], who may connect and who is cut
      off. [Blobs], [Pacer]: [blobs.rs] and [pacer.rs], the tags that keep a
      blob, fetching and serving. [Storage]: [storage.rs] and [serving.rs] of
      [distlib-custody], which join [Blobs] to [Keeping]. [Coverage]:
      [coverage.rs], which joins [Holders] to [Custody].
    - [Items], [Community]: the catalogue's keys and values,
      [distlib-core/src/catalogue.rs] and [community.rs], over the texts of
      ids and JSON ([Texts]). [Items.absorb] folds an entry into an
      item; [Community.resolve] resolves a wish.
    - [Catalogue]: the group's document, [distlib-sync/src/catalogue.rs], over
      iroh-docs, the class [Documents] ([DocumentsLaws] in [CatalogueProps]:
      what a write, which deletes its author's longer keys beneath it, leaves
      in the document, and what a query answers; [CatalogueFixtures] has a
      document that keeps them). Every read and write is an operation there.
      [Changes]: [changes.rs], what the read model is told to read again, with
      the interleavings of its writers and its reader as steps. [Sweep]: the
      tasks of [catalogue.rs] that open the document, offer its peers and
      fetch what nobody offered; the arm a [select!] takes is an argument.
    - [Gossip]: [distlib-consensus/src/gossip.rs], each loop a turn, and the
      group of them with what is on the way between them as a step relation.
    - [CoreGroup]: [raft/core_group.rs], how a leader moves Raft's voters to the
      core group the log lists, a change a pass ([CoreGroupProps]); openraft's
      membership and its changes are the classes [RaftConfig] and [Changes].
      [RaftNetwork]: [raft/network.rs] and [seat.rs], who is answered by Raft,
      and the client. [Memberlog]: the rest of [raft/memberlog.rs], proposals,
      the directory and the client that asks. [Links]: [connections.rs] of
      [distlib-net], which both clients share.
    - [Proposing], [Roles], [Enforcing]: the node, [distlib-consensus/src/
      node.rs]. [Proposing.propose_event] is a proposal from its signing to its
      being applied here, with what its attempts meet as arguments.
      [Roles.Role] is what a node votes and follows with, [Roles.role_move]
      what the task that changes it does between two waits, [Roles.role_turn]
      all of a turn, [Roles.role_step] that task among the others, failing
      writes, restarts, and what a follow loop that was stopped had given to
      the blocking pool, which goes on ([Roles.linger]); its [settled] runs are
      those with nothing between a batch's or a seat's waits. [Enforcing.enforce_turn] carries the
      log's membership to [Hooks] and the address book.
    - [Beating]: the beating half of [heartbeat.rs]; [Beating.beat_turn] a turn
      of its task, whose draws, time and sends are what each moment says.
    - [ReadModel]: [distlib-store/src/store.rs] and [schema.rs]; a table is a
      map from its primary key, a statement the function SQL documents it to
      be, and whether SQLite runs it an outcome ([Pool]). [Projecting]:
      [index.rs], documents by id with tantivy's ranking an argument, and
      [projection.rs], whose task is [Projecting.run_turn], one row written a
      turn. [ReadModelProps] relates the tables to the maps they stand for;
      [ProjectingProps] runs the task beside the document, the notes of
      [Changes], its members and the log ([node_step]).
    - [Tasks]: [distlib-api/src/tasks.rs], the downloads of a node;
      [Tasks.task_step] is a turn of one of them among the others, each lock of
      the registry a turn. [Uploads]: [uploads.rs], what a browser sends, over
      a map from the names of its directory; what the file system is at when a
      handler is dropped may come about afterwards. [Api]: what the methods of
      [methods.rs] share. [Downloading]: [library.download], from
      [download_request] to what [fetch_all] writes, with [Blobs::export],
      where nobody else writes meanwhile.
      [Adding], [AddingProps]: [library.add], which joins [Uploads],
      [Catalogue], [Keeping], [Storage] and [Held]; what others do to the
      library between its waits is an argument ([Adding.others]).
    - [Requests]: the [group.*] methods of [methods.rs] and [evidence_reason]
      of [suspects.rs], over what committing answers ([Proposing]),
      with what they tell related to what the fold did.
    - [Saying]: the [community.*] methods that write and
      [library.edit_metadata], over [Catalogue]; [Saying.view] is what each key
      says, the map every request updates in one place.

    Files ending in [Lemmas] (or the end of the part's own file) hold the lemmas of a part, [Props] its
    properties with the concrete runs that show their hypotheses can hold,
    [Fixtures] the instances those runs evaluate on.

    ** What the theorems show

    - Of the membership: that [apply] is the rules; that every log folds into
      a well-formed membership; that the core group, the roster and the
      pledges change only by the signed entries that may change them; that no
      entry is accepted twice; what founding, admission and expiry do.
    - Of the log: that the store has no hole, that a reader gets to the
      core's state, that what is announced is durable, that a late snapshot
      builder does no harm, when a follower takes itself for expelled, and
      what folding again over a finished fold does.
    - Of placement: that the short answer to whether a member is a custodian
      is the long one, that a departure moves one place, that every node
      ranks over the same group.
    - Of keeping: that eviction frees exactly what it says, in the order of
      use and no more than it takes, and never what must stay.
    - Of the custody service: when a settled membership is adopted; that the
      incremental view is the whole pass; that a whole copy is let go of only
      with enough real copies elsewhere, and nothing that is the node's to
      keep; that the pins, the running fetches and the
      queue agree in every run; when an emergency copy is due; who is suspect;
      and the cases where an error is forgotten.
    - Of availability: that a receiver knows exactly what the sender held,
      whatever is lost and reordered; that nobody is waited for in vain; that
      only signed beats count; how long one is believed.
    - Of the network: that the directory dials what was signed, that whoever
      is expelled is cut off, but for a connection between the halves of its
      handshake; that pacing
      keeps to its rate; that making room makes it, and says truly when it
      cannot; that a blob is served only to whom it may be; that coverage
      counts what it says.
    - Of the catalogue: that keys and values read back in one spelling, and no
      key hides another; that nobody speaks for another member; that an item
      says what was written of it last, field by field, and the second
      spelling of a file's key that is read too; whose a wish is; and
      that no change is missed by the read model; what the sweep asks for and
      when, how long peers go without an offer, and the change that is taken
      for news.
    - Of gossip: that the announcements everybody answers end.
    - Of the core group: that the voters become whom the log lists, in a
      bounded number of changes, and nobody loses a vote before everybody has
      one, while no change is under way; that Raft answers its voters alone; that a proposal takes one hop;
      that asking a core node for the directory brings one up to date.
    - Of the node: that a proposal answered was written and is applied here,
      and what a lost answer does; that one task at a time writes the log's
      state, but for the batch a stopped one had begun, and what that batch
      undoes; that a promotion holds and a retirement lasts, over restarts; that
      what is called the membership is what is enforced, and the race in which
      an old one is.
    - Of the read model: that the tables hold the maps they stand for, that the
      task brings them to what the document says of the current members in
      every interleaving, that a search of bookmarks finds what it asks for,
      and what a restart and an absurd number leave wrong; that a goodbye
      lasts.
    - Of the API: that a download ends once and the registry is bounded, what a
      download writes and what it never touches, what an upload leaves
      behind and until when, that an item is made of its contents, that an add
      keeps what it says within the limit, whatever others do meanwhile but to
      the room it found; and the names, the concurrent downloads and adds, and
      the long download for which the checks are not enough.
    - Of the requests about the group: that what is told of a proposal is what
      the fold made of it, that a core proposal changes one member, that an
      expulsion's evidence fits the log; and the two moments, a change before
      the signing and a withdrawal before the answer, they do not see.
    - Of what members ask to be said: that a request changes one thing its own
      member says, or nothing, that an edit writes the fields given and no
      others, that fulfilling keeps the wish.

    ** Numbers and bounds

    Unsigned integers are [N] ([nat] where they count elements of a list),
    with saturating and wrapping operations at their width; [+] and [-] on
    [u64] are [add64] and [sub64], [None] where a debug build panics. A loop
    of the code is structural recursion on the list it walks, except the pass
    of a follower, whose fuel is the 32 visits the code allows itself
    ([MAX_VISITED]). A hash map is iterated in an order the theorems quantify
    over.

    ** What is not modelled

    Network transport, tokio tasks and timers; redb, SQLite, tantivy, iroh,
    openraft and postcard themselves, beyond the documented behaviour the
    classes state; the rendering of answers as JSON, the command line and the
    user interface, which carry requests to the parts above. *)

From stdpp Require Export base tactics strings option numbers sorting gmap sets list.

(** ** Results and fallible state

    [result E A] is Rust's [Result<A, E>]; [fallible S E A] is a fallible
    method taking [&mut self]: the state is returned on the error path too,
    so that "a refused operation changes nothing" is a theorem and not a
    property of the encoding. *)

Inductive result (E A : Type) : Type :=
| Ok (a : A)
| Err (e : E).
Arguments Ok {E A} a.
Arguments Err {E A} e.

#[export] Instance result_eq_dec {E A} `{EqDecision E, EqDecision A} : EqDecision (result E A).
Proof. solve_decision. Defined.

Declare Scope rust_scope.
Delimit Scope rust_scope with rust.
Open Scope rust_scope.

Definition is_ok {E A} (r : result E A) : bool :=
  match r with Ok _ => true | Err _ => false end.
Lemma fmap_ok_inj {E A} (l k : list A) : (Ok <$> l : list (result E A)) = Ok <$> k → l = k.
Proof. apply list_fmap_eq_inj. by intros ? ? [= ->]. Qed.

Definition result_bind {E A B} (r : result E A) (k : A → result E B) : result E B :=
  match r with Ok a => k a | Err e => Err e end.

(** Rust's [?] on a [Result]. *)
Notation "x ←? r ;; k" := (result_bind r (λ x, k))
  (at level 100, r at next level, right associativity) : rust_scope.
Notation "r ;? k" := (result_bind r (λ _, k))
  (at level 100, k at level 200, right associativity) : rust_scope.

Definition fallible (S E A : Type) : Type := S → S * result E A.

Section fallible.
Context {S E : Type}.

Definition fret {A} (a : A) : fallible S E A := λ s, (s, Ok a).
Definition ferr {A} (e : E) : fallible S E A := λ s, (s, Err e).
Definition fbind {A B} (m : fallible S E A) (k : A → fallible S E B) : fallible S E B :=
  λ s, match m s with
       | (s', Ok a) => k a s'
       | (s', Err e) => (s', Err e)
       end.
(** Reading [self]. *)
Definition fget : fallible S E S := λ s, (s, Ok s).
(** An infallible assignment through [&mut self]. *)
Definition fmodify (f : S → S) : fallible S E unit := λ s, (f s, Ok tt).
(** A fallible call taking [&self]. *)
Definition fcheck {A} (f : S → result E A) : fallible S E A := λ s, (s, f s).
End fallible.

(** [clean m]: a failing [m] leaves the state as it found it. *)
Definition clean {S E A} (m : fallible S E A) : Prop := ∀ s s' e, m s = (s', Err e) → s' = s.
(** [sure m]: [m] does not fail. *)
Definition sure {S E A} (m : fallible S E A) : Prop := ∀ s s' e, m s ≠ (s', Err e).

Section clean.
Context {S E : Type}.
Implicit Types (m : fallible S E unit).

Lemma clean_ferr {A} e : clean (ferr (S := S) (E := E) (A := A) e).
Proof. by intros s s' e' [= <- <-]. Qed.
Lemma clean_fcheck {A} (f : S → result E A) : clean (fcheck f).
Proof. intros s s' e. unfold fcheck. by intros [= <- _]. Qed.
Lemma sure_fmodify (f : S → S) : sure (fmodify (E := E) f).
Proof. by intros s s' e. Qed.
Lemma sure_clean {A} (m : fallible S E A) : sure m → clean m.
Proof. intros Hs s s' e Hm. by apply Hs in Hm. Qed.

(** Reading first, then anything clean. *)
Lemma clean_fget_bind {B} (k : S → fallible S E B) :
  (∀ a, clean (k a)) → clean (fbind fget k).
Proof. intros Hk s s' e. by apply Hk. Qed.
Lemma clean_fcheck_bind {A B} (f : S → result E A) (k : A → fallible S E B) :
  (∀ a, clean (k a)) → clean (fbind (fcheck f) k).
Proof.
  intros Hk s s' e. unfold fbind, fcheck. destruct (f s); [apply Hk | by intros [= <- _]].
Qed.
(** Anything clean, then what cannot fail. *)
Lemma clean_then_sure {A B} (m : fallible S E A) (k : A → fallible S E B) :
  clean m → (∀ a, sure (k a)) → clean (fbind m k).
Proof.
  intros Hm Hk s s' e. unfold fbind. destruct (m s) as [s1 [a|e1]] eqn:E1.
  - by intros ?%Hk.
  - intros [= <- <-]. by eapply Hm.
Qed.
Lemma sure_then_sure {A B} (m : fallible S E A) (k : A → fallible S E B) :
  sure m → (∀ a, sure (k a)) → sure (fbind m k).
Proof.
  intros Hm Hk s s' e. unfold fbind. destruct (m s) as [s1 [a|e1]] eqn:E1.
  - by apply Hk.
  - by apply Hm in E1.
Qed.
End clean.

Notation "x ←! m ;; k" := (fbind m (λ x, k))
  (at level 100, m at next level, right associativity) : rust_scope.
Notation "m ;! k" := (fbind m (λ _, k))
  (at level 100, k at level 200, right associativity) : rust_scope.

(** ** Machine integers

    Unsigned Rust integers are [N]; [saturating_sub] is [N]'s own truncated
    subtraction, the other saturating and wrapping operations are written
    out at their width. *)

Definition u32_max : N := 2 ^ 32 - 1.
Definition u64_max : N := 2 ^ 64 - 1.

Definition wrap32 (n : N) : N := n `mod` 2 ^ 32.
Definition wrap64 (n : N) : N := n `mod` 2 ^ 64.

Definition saturating_mul64 (a b : N) : N := N.min (a * b) u64_max.
Definition saturating_add64 (a b : N) : N := N.min (a + b) u64_max.

(** [+], [-] and [+=] on [u64]: [None] is the panic of a debug build, or the
    wrap of a release one. *)
Definition add64 (a b : N) : option N := if bool_decide (a + b ≤ u64_max)%N then Some (a + b)%N else None.
Definition sub64 (a b : N) : option N := if bool_decide (b ≤ a)%N then Some (a - b)%N else None.

(** [Ordering::then_with]. *)
Definition then_with (c d : comparison) : comparison := match c with Eq => d | _ => c end.

(** A loop whose body can panic. *)
Fixpoint try_fold {A B} (f : B → A → option B) (acc : B) (l : list A) : option B :=
  match l with
  | [] => Some acc
  | x :: l => acc ← f acc x; try_fold f acc l
  end.

Lemma try_fold_app {A B} (f : B → A → option B) acc l k :
  try_fold f acc (l ++ k) = try_fold f acc l ≫= λ acc, try_fold f acc k.
Proof.
  revert acc. induction l as [|x l IH]; intros acc; [done|].
  simpl. destruct (f acc x); simpl; [apply IH|done].
Qed.

Lemma add64_some a b : (a + b ≤ u64_max)%N → add64 a b = Some (a + b)%N.
Proof. intros. unfold add64. by rewrite bool_decide_true. Qed.
Lemma sub64_some a b : (b ≤ a)%N → sub64 a b = Some (a - b)%N.
Proof. intros. unfold sub64. by rewrite bool_decide_true. Qed.

Lemma saturating_mul64_bound a b : (saturating_mul64 a b ≤ u64_max)%N.
Proof. unfold saturating_mul64. lia. Qed.

Lemma wrap32_small n : (n ≤ u32_max)%N → wrap32 n = n.
Proof. unfold wrap32, u32_max. intros. apply N.mod_small. lia. Qed.

(** [Iterator::sum] over a list. *)
Definition sumN (l : list N) : N := foldr N.add 0%N l.

Lemma sumN_cons n l : sumN (n :: l) = (n + sumN l)%N.
Proof. done. Qed.

Lemma sum_by_cons {A} (f : A → N) x (l : list A) :
  sumN (f <$> x :: l) = (f x + sumN (f <$> l))%N.
Proof. done. Qed.

Lemma sumN_app l k : sumN (l ++ k) = (sumN l + sumN k)%N.
Proof. induction l as [|x l IH]; simpl; [lia|]. rewrite IH. lia. Qed.

Lemma sumN_perm l k : l ≡ₚ k → sumN l = sumN k.
Proof. induction 1; simpl; lia. Qed.

(** ** Ordered keys and ordered iteration

    A [BTreeMap] is a [gmap] read in key order. Every key type of the
    program is ordered by an unsigned integer: a log index by itself, a
    32-byte id by its bytes, most significant first. *)

Class OrdKey (K : Type) := {
  ord_num : K → N;
  ord_num_inj : Inj (=) (=) ord_num;
}.
#[export] Existing Instance ord_num_inj.

#[export] Instance OrdKey_N : OrdKey N := {| ord_num := λ n, n; ord_num_inj := λ x y H, H |}.

Definition key_le {K} `{OrdKey K} (a b : K) : Prop := (ord_num a ≤ ord_num b)%N.
Definition key_lt {K} `{OrdKey K} (a b : K) : Prop := (ord_num a < ord_num b)%N.

Section key_order.
Context {K : Type} `{OrdKey K}.

#[export] Instance key_le_dec : RelDecision (key_le (K := K)).
Proof. intros a b. unfold key_le. apply _. Defined.
#[export] Instance key_lt_dec : RelDecision (key_lt (K := K)).
Proof. intros a b. unfold key_lt. apply _. Defined.
#[export] Instance key_le_refl : Reflexive (key_le (K := K)).
Proof. intros a. unfold key_le. lia. Qed.
#[export] Instance key_le_trans : Transitive (key_le (K := K)).
Proof. intros a b c. unfold key_le. lia. Qed.
#[export] Instance key_le_total : Total (key_le (K := K)).
Proof. intros a b. unfold key_le. lia. Qed.
#[export] Instance key_le_anti : AntiSymm (=) (key_le (K := K)).
Proof. intros a b ??. apply (inj ord_num). unfold key_le in *. lia. Qed.
End key_order.

(** [sort_unstable] on keys. *)
Definition sort_keys {K} `{OrdKey K} (l : list K) : list K := merge_sort key_le l.

Lemma sort_keys_perm {K} `{OrdKey K} (l : list K) : sort_keys l ≡ₚ l.
Proof. apply merge_sort_Permutation. Qed.

Lemma sort_keys_sorted {K} `{OrdKey K} (l : list K) : StronglySorted key_le (sort_keys l).
Proof. apply (StronglySorted_merge_sort _). Qed.

Lemma elem_of_sort_keys {K} `{OrdKey K} (l : list K) x : x ∈ sort_keys l ↔ x ∈ l.
Proof. by rewrite sort_keys_perm. Qed.

(** A set and a map in the order a [BTreeSet] and a [BTreeMap] iterate. *)
Definition set_entries {K} `{Countable K, OrdKey K} (s : gset K) : list K :=
  sort_keys (elements s).

Section map_entries.
Context {K : Type} `{Countable K, OrdKey K} {A : Type}.
Implicit Types (m : gmap K A).

Definition entry_le (x y : K * A) : Prop := key_le x.1 y.1.

#[export] Instance entry_le_dec : RelDecision entry_le.
Proof. intros x y. unfold entry_le. apply _. Defined.
#[export] Instance entry_le_total : Total entry_le.
Proof. intros x y. unfold entry_le. apply total, _. Qed.
#[export] Instance entry_le_trans : Transitive entry_le.
Proof. intros x y z. unfold entry_le. apply transitivity. Qed.

Definition map_entries m : list (K * A) := merge_sort entry_le (map_to_list m).
Definition map_keys m : list K := (map_entries m).*1.

Lemma map_entries_perm m : map_entries m ≡ₚ map_to_list m.
Proof. apply merge_sort_Permutation. Qed.

Lemma elem_of_map_entries m k a : (k, a) ∈ map_entries m ↔ m !! k = Some a.
Proof. by rewrite map_entries_perm, elem_of_map_to_list. Qed.

Lemma elem_of_map_keys m k : k ∈ map_keys m ↔ is_Some (m !! k).
Proof.
  unfold map_keys. rewrite list_elem_of_fmap. split.
  - intros ([k' a] & -> & Hin%elem_of_map_entries). by exists a.
  - intros [a Ha%elem_of_map_entries]. by exists (k, a).
Qed.

Lemma NoDup_map_keys m : NoDup (map_keys m).
Proof. unfold map_keys. rewrite map_entries_perm. apply NoDup_fst_map_to_list. Qed.

Lemma length_map_entries m : length (map_entries m) = size m.
Proof. rewrite map_entries_perm. apply length_map_to_list. Qed.

Lemma map_entries_sorted m : StronglySorted entry_le (map_entries m).
Proof. apply (StronglySorted_merge_sort _). Qed.

(** Keys do not repeat, so the order is strict. *)
Lemma map_entries_strict m : StronglySorted (λ x y, key_lt x.1 y.1) (map_entries m).
Proof.
  pose proof (map_entries_sorted m) as Hs. pose proof (NoDup_map_keys m) as Hnd.
  unfold map_keys in Hnd. induction Hs as [|x l Hs IH Hle]; [constructor|].
  simpl in Hnd. apply NoDup_cons in Hnd as [Hx Hnd]. constructor; [by apply IH|].
  rewrite Forall_forall in Hle |- *. intros y Hy. specialize (Hle y Hy).
  unfold entry_le, key_le, key_lt in *.
  assert (ord_num x.1 ≠ ord_num y.1); [|lia]. intros Heq%(inj ord_num). apply Hx.
  rewrite Heq. by apply list_elem_of_fmap_2.
Qed.
End map_entries.

(** [collect::<BTreeMap<_, _>>()]: a later entry replaces an earlier one. *)
Definition collect_map {K} `{Countable K} {A} (l : list (K * A)) : gmap K A :=
  foldl (λ m '(k, a), <[k := a]> m) ∅ l.

Section collect_map.
Context {K : Type} `{Countable K} {A : Type}.
Implicit Types (l : list (K * A)).

Lemma collect_map_snoc l k a : collect_map (l ++ [(k, a)]) = <[k := a]> (collect_map l).
Proof. unfold collect_map. by rewrite foldl_app. Qed.

Lemma collect_map_elem l k a : collect_map l !! k = Some a → (k, a) ∈ l.
Proof.
  induction l as [|[k' a'] l IH] using rev_ind; [by intros ?%(lookup_empty_Some k a)|].
  rewrite collect_map_snoc, lookup_insert, elem_of_app, list_elem_of_singleton.
  case_decide; naive_solver.
Qed.

Lemma dom_collect_map l : dom (collect_map l) = (list_to_set l.*1 : gset K).
Proof.
  induction l as [|[k a] l IH] using rev_ind; [apply dom_empty_L|].
  rewrite collect_map_snoc, dom_insert_L, IH, fmap_app, list_to_set_app_L. simpl.
  by rewrite (right_id_L ∅ (∪)), (comm_L (∪)).
Qed.

Lemma collect_map_is_Some l k : is_Some (collect_map l !! k) ↔ k ∈ l.*1.
Proof. by rewrite <-elem_of_dom, dom_collect_map, elem_of_list_to_set. Qed.

Lemma collect_map_nonempty l : l ≠ [] → collect_map l ≠ ∅.
Proof.
  destruct l as [|[k a] l _] using rev_ind; [done|]. intros _. rewrite collect_map_snoc.
  apply insert_non_empty.
Qed.

Lemma collect_map_nodup l k a :
  NoDup l.*1 → (k, a) ∈ l → collect_map l !! k = Some a.
Proof.
  induction l as [|[k' a'] l IH] using rev_ind; [by intros _ ?%elem_of_nil|].
  rewrite collect_map_snoc, fmap_app, lookup_insert. simpl.
  intros (Hnd & Hdisj & _)%NoDup_app [Hin|[= -> ->]%list_elem_of_singleton]%elem_of_app;
    [|by rewrite decide_True].
  rewrite decide_False; [by apply IH|].
  intros ->. apply (Hdisj k); [|by apply list_elem_of_singleton].
  apply list_elem_of_fmap. by exists (k, a).
Qed.

Lemma size_collect_map l : size (collect_map l) ≤ length l.
Proof.
  induction l as [|[k a] l IH] using rev_ind; [done|].
  rewrite collect_map_snoc, length_app, map_size_insert. simpl.
  destruct (collect_map l !! k); simpl; lia.
Qed.

(** A list folds into a map of its own length exactly when no key repeats. *)
Lemma size_collect_map_eq l : size (collect_map l) = length l ↔ NoDup l.*1.
Proof.
  induction l as [|[k a] l IH] using rev_ind.
  { split; [constructor | done]. }
  rewrite collect_map_snoc, length_app, map_size_insert, fmap_app, NoDup_app. simpl.
  pose proof (size_collect_map l).
  assert (is_Some (collect_map l !! k) ↔ k ∈ l.*1) as Hk by apply collect_map_is_Some.
  destruct (collect_map l !! k) as [b|] eqn:E; simpl; split.
  - lia.
  - intros (_ & Hd & _). exfalso. apply (Hd k); [apply Hk; eauto | by apply list_elem_of_singleton].
  - intros Hs. repeat split; [apply IH; lia | | apply NoDup_singleton].
    intros x Hx ->%list_elem_of_singleton. apply Hk in Hx as [? [=]].
  - intros (Hnd%IH & _ & _). lia.
Qed.
End collect_map.

(** ** Filtered lists *)

Section filter_lemmas.
Context {A : Type} (P : A → Prop) `{∀ x, Decision (P x)}.
Implicit Types (l : list A).

Lemma filter_none l : (∀ x, x ∈ l → ¬ P x) → filter P l = [].
Proof.
  induction l as [|x l IH]; [done|]. intros Hn. rewrite filter_cons_False.
  - apply IH. intros y Hy. apply Hn. by right.
  - apply Hn. by left.
Qed.

Lemma filter_all l : (∀ x, x ∈ l → P x) → filter P l = l.
Proof.
  induction l as [|x l IH]; [done|]. intros Hn. rewrite filter_cons_True.
  - f_equal. apply IH. intros y Hy. apply Hn. by right.
  - apply Hn. by left.
Qed.

Lemma StronglySorted_filter (R : A → A → Prop) l :
  StronglySorted R l → StronglySorted R (filter P l).
Proof.
  induction l as [|x l IH]; [done|]. intros [Hle Hs]%StronglySorted_cons.
  rewrite filter_cons. case_decide; [|by apply IH]. apply StronglySorted_cons.
  split; [|by apply IH]. apply Forall_forall. intros y [_ Hy]%list_elem_of_filter.
  rewrite Forall_forall in Hle. by apply Hle.
Qed.
End filter_lemmas.

Lemma filter_ext_in {A} (P Q : A → Prop) `{∀ x, Decision (P x), ∀ x, Decision (Q x)} (l : list A) :
  (∀ x, x ∈ l → P x ↔ Q x) → filter P l = filter Q l.
Proof.
  induction l as [|x l IH]; intros Hpq; [done|].
  rewrite !filter_cons, IH by (intros y Hy; apply Hpq; by right).
  by rewrite (decide_ext (P x) (Q x)) by (apply Hpq; by left).
Qed.

(** A list sorted by an order is the only one with its elements. *)
Lemma StronglySorted_unique_on {A} (R : A → A → Prop) l k :
  (∀ x y, x ∈ l → y ∈ l → R x y → R y x → x = y) →
  StronglySorted R l → StronglySorted R k → l ≡ₚ k → l = k.
Proof.
  revert k. induction l as [|x l IH]; intros k Hanti Hl Hk Hp.
  { by apply Permutation_nil_l in Hp. }
  destruct k as [|y k]; [by apply Permutation_nil_r in Hp|].
  apply StronglySorted_cons in Hl as [Hx Hl]. apply StronglySorted_cons in Hk as [Hy Hk].
  rewrite Forall_forall in Hx, Hy.
  assert (x = y) as ->.
  { assert (y ∈ x :: l) as Hyl by (rewrite Hp; by left).
    assert (x ∈ y :: k) as Hxk by (rewrite <-Hp; by left).
    apply elem_of_cons in Hyl as [->|Hyl]; [done|]. apply elem_of_cons in Hxk as [->|Hxk]; [done|].
    apply Hanti; [by left|by right|by apply Hx|by apply Hy]. }
  f_equal. apply IH; [|done|done|by apply Permutation_cons_inv in Hp].
  intros a b Ha Hb. apply Hanti; by right.
Qed.

Lemma omap_cons_eq {A B} (f : A → option B) x l :
  omap f (x :: l) = match f x with Some y => y :: omap f l | None => omap f l end.
Proof. done. Qed.

(** ** Maps and sets *)

Section size_lemmas.
Context {K : Type} `{Countable K}.
Implicit Types (s : gset K).

Lemma size_remove_elem s x : x ∈ s → size (s ∖ {[x]}) = pred (size s).
Proof.
  intros Hx. rewrite size_difference, size_singleton; [lia | by apply singleton_subseteq_l].
Qed.
End size_lemmas.

(** ** Automation *)

(** Runs the state and result monads on the goal and the hypotheses. *)
Ltac run := unfold fbind, fret, ferr, fget, fmodify, fcheck, result_bind in *; simpl in *.

(** Follows every branch of a run, using its equations and closing the
    branches that compute. *)
Ltac cases_run := repeat first [progress simplify_eq/= | case_match]; try done.

(** Closes a decidable statement about concrete values. *)
Ltac by_decision := refine (bool_decide_unpack _ _); vm_compute; exact I.

Create HintDb distlib.
Create Rewrite HintDb distlib.
#[export] Hint Resolve saturating_mul64_bound : distlib.
#[export] Hint Resolve clean_ferr clean_fcheck sure_fmodify clean_fget_bind clean_fcheck_bind
  clean_then_sure sure_then_sure : distlib.
#[export] Hint Rewrite @elem_of_map_entries @elem_of_map_keys @length_map_entries : distlib.
