(* ===== verification/Ids.v ===== *)
(** * The identifiers everything is keyed by

    [crates/distlib-core/src/id.rs]. A 32-byte id is the integer its bytes
    spell, most significant byte first, kept below [2^256] by its own type,
    so that [derive(PartialOrd, Ord)] on the byte array is the order of the
    integers. Each kind of id is a type of its own, as each newtype is. *)

From S2P Require Import Prelude.

Record Id32 : Type := MkId32 {
  id_num : N;
  id_num_bound : bool_decide (id_num < 2 ^ 256)%N;
}.

(** The id whose last byte is [n], padded with zeros: the shape test ids
    have. *)
Definition id32 (n : N) : Id32.
Proof.
  refine (MkId32 (n `mod` 2 ^ 256) _).
  apply bool_decide_pack, N.mod_lt. lia.
Defined.

Lemma Id32_eq (a b : Id32) : id_num a = id_num b → a = b.
Proof.
  destruct a as [a pa], b as [b pb]. simpl. intros ->.
  f_equal. apply proof_irrel.
Qed.

#[export] Instance Id32_eq_dec : EqDecision Id32.
Proof.
  refine (λ a b, cast_if (decide (id_num a = id_num b))).
  - by apply Id32_eq.
  - by intros ->.
Defined.

(** Read back from an integer; [None] outside [2^256]. *)
Definition Id32_of_num (n : N) : option Id32 :=
  match decide (bool_decide (n < 2 ^ 256)%N) with
  | left H => Some (MkId32 n H)
  | right _ => None
  end.

Lemma Id32_of_num_id a : Id32_of_num (id_num a) = Some a.
Proof.
  unfold Id32_of_num. destruct (decide _) as [Hd|Hn].
  - f_equal. by apply Id32_eq.
  - destruct Hn. apply id_num_bound.
Qed.

#[export] Instance Id32_countable : Countable Id32 :=
  inj_countable id_num Id32_of_num Id32_of_num_id.

(** [MemberId(PublicKey)]: an ed25519 public key. *)
Record MemberId : Type := MkMemberId { member_id32 : Id32 }.
(** [GroupId([u8; 32])]. *)
Record GroupId : Type := MkGroupId { group_id32 : Id32 }.
(** [ItemId([u8; 32])]. *)
Record ItemId : Type := MkItemId { item_id32 : Id32 }.
(** [ContentHash([u8; 32])]. *)
Record ContentHash : Type := MkContentHash { hash_id32 : Id32 }.

#[export] Instance MemberId_eq_dec : EqDecision MemberId.
Proof. solve_decision. Defined.
#[export] Instance GroupId_eq_dec : EqDecision GroupId.
Proof. solve_decision. Defined.
#[export] Instance ItemId_eq_dec : EqDecision ItemId.
Proof. solve_decision. Defined.
#[export] Instance ContentHash_eq_dec : EqDecision ContentHash.
Proof. solve_decision. Defined.

#[export] Instance MemberId_countable : Countable MemberId.
Proof. by apply (inj_countable' member_id32 MkMemberId); intros []. Defined.
#[export] Instance GroupId_countable : Countable GroupId.
Proof. by apply (inj_countable' group_id32 MkGroupId); intros []. Defined.
#[export] Instance ItemId_countable : Countable ItemId.
Proof. by apply (inj_countable' item_id32 MkItemId); intros []. Defined.
#[export] Instance ContentHash_countable : Countable ContentHash.
Proof. by apply (inj_countable' hash_id32 MkContentHash); intros []. Defined.

(** The derived order: by the bytes, which is by the integer they spell. *)
#[export] Program Instance MemberId_ord : OrdKey MemberId :=
  {| ord_num := λ m, id_num (member_id32 m) |}.
Next Obligation. intros [a] [b] Heq. simpl in Heq. f_equal. by apply Id32_eq. Qed.
#[export] Program Instance ItemId_ord : OrdKey ItemId :=
  {| ord_num := λ m, id_num (item_id32 m) |}.
Next Obligation. intros [a] [b] Heq. simpl in Heq. f_equal. by apply Id32_eq. Qed.
#[export] Program Instance ContentHash_ord : OrdKey ContentHash :=
  {| ord_num := λ m, id_num (hash_id32 m) |}.
Next Obligation. intros [a] [b] Heq. simpl in Heq. f_equal. by apply Id32_eq. Qed.

(** ** Bytes *)

(** The [k] bytes of [n], least significant first. *)
Fixpoint le_bytes (k : nat) (n : N) : list N :=
  match k with
  | O => []
  | S k => (n `mod` 256)%N :: le_bytes k (n / 256)
  end.

Fixpoint le_value (bs : list N) : N :=
  match bs with
  | [] => 0
  | b :: bs => b + 256 * le_value bs
  end.

(** [as_bytes] of an id. *)
Definition id_bytes (i : Id32) : list N := rev (le_bytes 32 (id_num i)).

(** [from_bytes]: [None] unless there are 32 bytes. *)
Definition id_from_bytes (bs : list N) : option Id32 :=
  if decide (length bs = 32) then Id32_of_num (le_value (rev bs)) else None.

Lemma length_le_bytes k n : length (le_bytes k n) = k.
Proof. revert n. induction k as [|k IH]; intros n; simpl; [done|by rewrite IH]. Qed.

Lemma le_value_bytes k n : (n < 256 ^ N.of_nat k)%N → le_value (le_bytes k n) = n.
Proof.
  revert n. induction k as [|k IH]; intros n Hn; [simpl in *; lia|].
  cbn [le_bytes le_value]. rewrite IH.
  - pose proof (N.div_mod n 256). lia.
  - rewrite Nat2N.inj_succ, N.pow_succ_r' in Hn.
    apply N.Div0.div_lt_upper_bound. lia.
Qed.

Lemma id_bytes_length i : length (id_bytes i) = 32.
Proof. unfold id_bytes. by rewrite length_rev, length_le_bytes. Qed.

Lemma id_from_bytes_bytes i : id_from_bytes (id_bytes i) = Some i.
Proof.
  unfold id_from_bytes.
  case_decide as Hd; [|by rewrite id_bytes_length in Hd].
  unfold id_bytes. rewrite rev_involutive, le_value_bytes; [apply Id32_of_num_id|].
  change (256 ^ N.of_nat 32)%N with (2 ^ 256)%N.
  exact (bool_decide_unpack _ (id_num_bound i)).
Qed.
