(* ===== verification/GroupSettings.v ===== *)
(** * What a group decides once, at founding

    [crates/distlib-core/src/group_settings.rs], with [WeightRule] of
    [crates/distlib-core/src/custody.rs], which the settings give. The
    [NonZero] integers are [positive]; every other field is an [N]. *)

From S2P Require Import Prelude.

Definition GB : N := 1000000000.
Definition HOUR : N := 60 * 60.
Definition DAY : N := 24 * HOUR.

Definition FAR_UNDER_FACTOR : N := 2.

Record GroupSettings : Type := {
  replicas : positive;
  cap_bytes : N;
  weight_step_bytes : positive;
  min_pledge_bytes : N;
  pending_expiry : positive;
  settle_secs : N;
  max_settle_secs : N;
  emergency_after_secs : N;
  min_transfer_rate : N;
  probes : bool;
  probe_every_secs : positive;
  failure_window_secs : N;
}.

#[export] Instance GroupSettings_eq_dec : EqDecision GroupSettings.
Proof. solve_decision. Defined.

(** [impl Default for GroupSettings]. *)
Definition default_settings : GroupSettings := {|
  replicas := 3;
  cap_bytes := 2000 * GB;
  weight_step_bytes := 10000000000;
  min_pledge_bytes := 100 * GB;
  pending_expiry := 128;
  settle_secs := HOUR;
  max_settle_secs := DAY;
  emergency_after_secs := DAY;
  min_transfer_rate := 1000000;
  probes := true;
  probe_every_secs := 300;
  failure_window_secs := 7 * DAY;
|}.

(** How a pledge becomes a weight. *)
Record WeightRule : Type := {
  rule_cap_bytes : N;
  rule_step_bytes : N;
  rule_min_bytes : N;
}.

Definition weight (rule : WeightRule) (pledge_bytes : N) : N :=
  if bool_decide (pledge_bytes < rule_min_bytes rule)%N then 0
  else
    let capped := N.min pledge_bytes (rule_cap_bytes rule) in
    match rule_step_bytes rule with
    | 0%N => capped
    | step => capped - capped `mod` step
    end.

Definition weight_rule (s : GroupSettings) : WeightRule := {|
  rule_cap_bytes := cap_bytes s;
  rule_step_bytes := Npos (weight_step_bytes s);
  rule_min_bytes := min_pledge_bytes s;
|}.

(** [NonZeroU64::new(n).unwrap_or(NonZeroU64::MIN)]. *)
Definition nonzero_or_min (n : N) : positive :=
  match n with N0 => 1%positive | Npos p => p end.

Definition at_least_the_minimum (s : GroupSettings) (limit : positive) : positive :=
  Pos.max limit (nonzero_or_min (min_transfer_rate s)).

Definition required_pledge (s : GroupSettings) (added_bytes : N) : N :=
  N.max (saturating_mul64 added_bytes (Npos (replicas s) - 1)) (min_pledge_bytes s).

Definition step_above_cap : string :=
  "weight_step_bytes is larger than cap_bytes, so every member weighs nothing".
Definition settle_above_max : string := "settle_secs is longer than max_settle_secs".

(** [GroupSettings::check]. *)
Definition check (s : GroupSettings) : result string unit :=
  if bool_decide (cap_bytes s < Npos (weight_step_bytes s))%N then Err step_above_cap
  else if bool_decide (max_settle_secs s < settle_secs s)%N then Err settle_above_max
  else Ok tt.

Inductive PledgeStanding : Type := Enough | Under | FarUnder.

Definition standing_of (pledge_bytes required_bytes : N) : PledgeStanding :=
  if bool_decide (saturating_mul64 pledge_bytes FAR_UNDER_FACTOR < required_bytes)%N
  then FarUnder
  else if bool_decide (pledge_bytes < required_bytes)%N then Under
  else Enough.

(** ** Lemmas *)

Lemma weight_le_pledge rule p : (weight rule p ≤ p)%N.
Proof.
  unfold weight. case_bool_decide; [lia|]. cbv zeta. destruct (rule_step_bytes rule); [lia|].
  etrans; [apply N.le_sub_l | lia].
Qed.

Lemma weight_le_cap rule p : (weight rule p ≤ rule_cap_bytes rule)%N.
Proof.
  unfold weight. case_bool_decide; [lia|]. cbv zeta. destruct (rule_step_bytes rule); [lia|].
  etrans; [apply N.le_sub_l | lia].
Qed.

Lemma weight_below_min rule p : (p < rule_min_bytes rule)%N → weight rule p = 0%N.
Proof. intros. unfold weight. by rewrite bool_decide_true. Qed.

Lemma weight_step rule p :
  rule_step_bytes rule ≠ 0%N → (weight rule p `mod` rule_step_bytes rule = 0)%N.
Proof.
  intros Hstep. unfold weight. case_bool_decide; [by apply N.Div0.mod_0_l|].
  destruct (rule_step_bytes rule) as [|step] eqn:E; [done|].
  set (c := N.min _ _).
  rewrite (N.div_mod c (Npos step)) at 1 by done.
  rewrite N.add_sub, N.mul_comm. apply N.Div0.mod_mul.
Qed.

(** The weight of a pledge, in closed form: what is checked to be a valid
    setting always gives it. *)
Lemma weight_eq rule p :
  rule_step_bytes rule ≠ 0%N → (rule_min_bytes rule ≤ p)%N →
  weight rule p =
    (rule_step_bytes rule * (N.min p (rule_cap_bytes rule) / rule_step_bytes rule))%N.
Proof.
  intros Hstep Hmin. unfold weight. rewrite bool_decide_false by lia.
  destruct (rule_step_bytes rule) as [|step] eqn:E; [done|].
  set (c := N.min _ _). pose proof (N.div_mod c (Npos step)) as Hdm.
  rewrite Hdm at 1 by done. apply N.add_sub.
Qed.

Lemma weight_monotone rule p q : (p ≤ q)%N → (weight rule p ≤ weight rule q)%N.
Proof.
  intros Hpq. destruct (decide (p < rule_min_bytes rule)%N) as [Hlt|Hge].
  { rewrite weight_below_min by done. lia. }
  destruct (decide (rule_step_bytes rule = 0%N)) as [Hz|Hnz].
  - unfold weight. rewrite !bool_decide_false, Hz by lia. lia.
  - rewrite !weight_eq by lia. apply N.mul_le_mono_l, N.Div0.div_le_mono. lia.
Qed.
