(* ===== verification/Events.v ===== *)
(** * The vocabulary of the membership log

    [crates/distlib-consensus/src/event.rs], [signed.rs] and [error.rs],
    and [NodeAddr] of [crates/distlib-core/src/addr.rs]. What the code gets
    from iroh, postcard and blake3 is the class [Crypto]. *)

From S2P Require Import Prelude Ids GroupSettings.

(** [std::net::SocketAddr]. *)
Inductive SocketAddr : Type :=
| SocketV4 (ip : N) (port : N)
| SocketV6 (ip : N) (port : N) (flowinfo : N) (scope_id : N).

#[export] Instance SocketAddr_eq_dec : EqDecision SocketAddr.
Proof. solve_decision. Defined.
#[export] Instance SocketAddr_countable : Countable SocketAddr.
Proof.
  apply (inj_countable'
    (λ a, match a with
          | SocketV4 ip port => inl (ip, port)
          | SocketV6 ip port f s => inr (ip, port, f, s)
          end)
    (λ x, match x with
          | inl (ip, port) => SocketV4 ip port
          | inr (ip, port, f, s) => SocketV6 ip port f s
          end)).
  by intros [].
Defined.

Record NodeAddr : Type := {
  relay : option string;
  direct : gset SocketAddr;
}.

#[export] Instance NodeAddr_eq_dec : EqDecision NodeAddr.
Proof. solve_decision. Defined.

(** [NodeAddr::is_empty]. *)
Definition addr_is_empty (a : NodeAddr) : bool :=
  bool_decide (relay a = None) && bool_decide (direct a = ∅).

(** [Timestamp(u64)]: advisory, never compared. *)
Record Timestamp : Type := MkTimestamp { as_millis : N }.

Record MemberProfile : Type := {
  profile_id : MemberId;
  profile_name : string;
}.

#[export] Instance MemberProfile_eq_dec : EqDecision MemberProfile.
Proof. solve_decision. Defined.

Inductive MembershipEvent : Type :=
| GroupFounded (group_id : GroupId) (founders : list (MemberProfile * NodeAddr))
    (settings : GroupSettings)
| MemberAdded (member : MemberProfile)
| MemberExpelled (member : MemberId) (reason : string)
| PledgeChanged (member : MemberId) (pledge_bytes : N)
| CoreGroupChanged (core : list (MemberId * NodeAddr))
| Approved (proposal : N)
| Withdrawn (proposal : N)
| ProtocolSupported (member : MemberId) (max : N)
| ProtocolRaised (to : N).

#[export] Instance MembershipEvent_eq_dec : EqDecision MembershipEvent.
Proof. solve_decision. Defined.

Inductive ConsensusError : Type :=
| BadSignature (proposer : MemberId)
| NotFounded
| AlreadyFounded
| FounderNotIncluded (proposer : MemberId)
| NoFounders
| DuplicateFounder (member : MemberId)
| ProposerNotAMember (proposer : MemberId)
| UnknownMember (member : MemberId)
| InvalidCoreGroup
| PledgeNotOwn (proposer member : MemberId)
| PledgeBelowMinimum (pledge_bytes min_pledge_bytes : N)
| NotCoreMember (proposer : MemberId)
| AlreadyPending (proposal : N)
| UnknownProposal (proposal : N)
| ProposalExpired (proposal index : N)
| ApproverNotCore (approver : MemberId)
| SelfApproval (member : MemberId)
| NotTheProposer (member : MemberId) (proposal : N)
| NotAMembershipChange
| StaleProposal (seen current : N)
| TooLong (field : string) (len limit : N)
| Encode (message : string)
| InvalidSettings (reason : string)
| ProtocolSupportNotOwn (proposer member : MemberId)
| ProtocolSupportBelowGroup (max protocol : N)
| ProtocolNotNext (to protocol : N)
| CoreLacksProtocol (member : MemberId) (protocol : N).

#[export] Instance ConsensusError_eq_dec : EqDecision ConsensusError.
Proof. solve_decision. Defined.

(** ** Limits on what the log is made to carry *)

Definition MAX_DISPLAY_NAME : N := 64.
Definition MAX_REASON : N := 512.

(** [str::len]: the bytes of UTF-8, which is what a [string] holds here. *)
Definition str_len (s : string) : N := N.of_nat (String.length s).

Definition within (field : string) (text : string) (limit : N) : result ConsensusError unit :=
  if bool_decide (limit < str_len text)%N
  then Err (TooLong field (str_len text) limit)
  else Ok tt.

(** [Iterator::try_for_each]. *)
Fixpoint try_for_each {E A} (f : A → result E unit) (l : list A) : result E unit :=
  match l with
  | [] => Ok tt
  | x :: l => f x ;? try_for_each f l
  end.

Definition within_limits (event : MembershipEvent) : result ConsensusError unit :=
  match event with
  | GroupFounded _ founders _ =>
      try_for_each (λ founder,
        within "display_name" (profile_name founder.1) MAX_DISPLAY_NAME) founders
  | MemberAdded member => within "display_name" (profile_name member) MAX_DISPLAY_NAME
  | MemberExpelled _ reason => within "reason" reason MAX_REASON
  | PledgeChanged _ _ | CoreGroupChanged _ | Approved _ | Withdrawn _
  | ProtocolSupported _ _ | ProtocolRaised _ => Ok tt
  end.

(** ** Founding *)

(** [settings.check()], as a [ConsensusError]. *)
Definition check_settings (settings : GroupSettings) : result ConsensusError unit :=
  match check settings with
  | Ok _ => Ok tt
  | Err reason => Err (InvalidSettings reason)
  end.

(** [ids.windows(2).find(|pair| pair[0] == pair[1])]. *)
Fixpoint adjacent_repeat {A} `{EqDecision A} (l : list A) : option A :=
  match l with
  | [] => None
  | x :: l' =>
      match l' with
      | [] => None
      | y :: _ => if decide (x = y) then Some x else adjacent_repeat l'
      end
  end.

(** The founders' ids, sorted, if there is at least one and none twice. *)
Definition checked_ids (founders : list (MemberProfile * NodeAddr))
  : result ConsensusError (list MemberId) :=
  match founders with
  | [] => Err NoFounders
  | _ =>
      let ids := sort_keys ((λ founder, profile_id founder.1) <$> founders) in
      match adjacent_repeat ids with
      | Some member => Err (DuplicateFounder member)
      | None => Ok ids
      end
  end.

Definition check_founders (founders : list (MemberProfile * NodeAddr))
  : result ConsensusError unit :=
  checked_ids founders ;? Ok tt.

(** ** What is read from other crates

    Signing and verifying are ed25519's, the encoding is postcard's and the
    hash is blake3's: the model is given them. *)

Class Crypto : Type := {
  SecretKey : Type;
  Signature : Type;
  (** [SecretKey::public], as the member it is. *)
  public : SecretKey → MemberId;
  (** [SecretKey::sign] and [PublicKey::verify]. *)
  sign_bytes : SecretKey → list N → Signature;
  verify_bytes : MemberId → list N → Signature → bool;
  (** [postcard::to_extend] of an event, who proposed it, when, and the
      membership it was proposed against; an error carries its message. *)
  postcard_event : MembershipEvent → MemberId → Timestamp → N → result string (list N);
  (** [blake3::hash]. *)
  blake3 : list N → Id32;
}.

Section founding.
Context `{Crypto}.

(** [b"distlib.group.v1"]. *)
Definition GROUP_ID_TAG : list N :=
  [100; 105; 115; 116; 108; 105; 98; 46; 103; 114; 111; 117; 112; 46; 118; 49]%N.

(** [MembershipEvent::found]. *)
Definition found_event (founders : list (MemberProfile * NodeAddr))
    (settings : GroupSettings) (at_ : Timestamp) : result ConsensusError MembershipEvent :=
  ids ←? checked_ids founders ;;
  check_settings settings ;?
  let payload := GROUP_ID_TAG
    ++ le_bytes 8 (N.of_nat (length ids))
    ++ (ids ≫= λ id, id_bytes (member_id32 id))
    ++ le_bytes 8 (as_millis at_) in
  Ok (GroupFounded (MkGroupId (blake3 payload)) founders settings).
End founding.

(** ** Attribution *)

Section signed.
Context `{Crypto}.

(** [b"distlib.membership.v2"]. *)
Definition SIGNING_DOMAIN : list N :=
  [100; 105; 115; 116; 108; 105; 98; 46; 109; 101; 109; 98; 101; 114; 115; 104; 105; 112;
   46; 118; 50]%N.

Record SignedEvent : Type := MkSignedEvent {
  signed_event : MembershipEvent;
  signed_proposer : MemberId;
  signed_at : Timestamp;
  signed_changed_at : N;
  signed_signature : Signature;
}.

Definition signing_payload (event : MembershipEvent) (proposer : MemberId)
    (at_ : Timestamp) (changed_at : N) : result ConsensusError (list N) :=
  match postcard_event event proposer at_ changed_at with
  | Ok encoded => Ok (SIGNING_DOMAIN ++ encoded)
  | Err message => Err (Encode message)
  end.

(** [SignedEvent::sign]. *)
Definition sign (secret_key : SecretKey) (event : MembershipEvent) (at_ : Timestamp)
    (changed_at : N) : result ConsensusError SignedEvent :=
  let proposer := public secret_key in
  payload ←? signing_payload event proposer at_ changed_at ;;
  Ok (MkSignedEvent event proposer at_ changed_at (sign_bytes secret_key payload)).

(** [SignedEvent::verify]. *)
Definition verify (signed : SignedEvent) : result ConsensusError unit :=
  payload ←? signing_payload (signed_event signed) (signed_proposer signed)
               (signed_at signed) (signed_changed_at signed) ;;
  if verify_bytes (signed_proposer signed) payload (signed_signature signed)
  then Ok tt
  else Err (BadSignature (signed_proposer signed)).

(** [SignedEvent::event]: the only way to the event. *)
Definition event (signed : SignedEvent) : result ConsensusError MembershipEvent :=
  verify signed ;? Ok (signed_event signed).
End signed.

(** ** Lemmas *)

Lemma adjacent_repeat_sorted (l : list MemberId) :
  StronglySorted key_le l → adjacent_repeat l = None → NoDup l.
Proof.
  induction l as [|x l IH]; [constructor|]. intros Hs Hn. apply StronglySorted_cons in Hs as [Hx Hs].
  cbn in Hn. destruct l as [|y l].
  { constructor; [by intros ?%elem_of_nil | constructor]. }
  destruct (decide (x = y)) as [|Hne]; [done|].
  constructor; [|by apply IH].
  intros Hin. apply Hne. apply (anti_symm key_le).
  - by apply (Forall_cons _ y l) in Hx as [? _].
  - apply StronglySorted_cons in Hs as [Hy _].
    apply elem_of_cons in Hin as [->|Hin]; [done|]. rewrite Forall_forall in Hy. by apply Hy.
Qed.

Lemma adjacent_repeat_some {A} `{EqDecision A} (l : list A) x :
  adjacent_repeat l = Some x → ¬ NoDup l.
Proof.
  induction l as [|y l IH]; [done|]. cbn. destruct l as [|z l]; [done|].
  destruct (decide (y = z)) as [->|]; intros Heq Hnd%NoDup_cons.
  - destruct Hnd as [Hz _]. apply Hz. by constructor.
  - by apply (IH Heq), Hnd.
Qed.

(** A founder set is accepted exactly when it is one: not empty, and naming
    nobody twice. *)
Lemma check_founders_ok founders :
  check_founders founders = Ok tt ↔
  founders ≠ [] ∧ NoDup ((λ f, profile_id f.1) <$> founders).
Proof.
  unfold check_founders, checked_ids. destruct founders as [|f fs]; [naive_solver|].
  set (ids := _ <$> _).
  destruct (adjacent_repeat (sort_keys ids)) as [x|] eqn:E; simpl; split; try done.
  - intros [_ Hnd]. by apply adjacent_repeat_some in E; rewrite sort_keys_perm in E.
  - intros _. split; [done|]. rewrite <-(sort_keys_perm ids).
    by apply adjacent_repeat_sorted; [apply sort_keys_sorted|].
Qed.

Lemma check_settings_ok settings : check_settings settings = Ok tt ↔ check settings = Ok tt.
Proof. unfold check_settings. destruct (check settings) as [[]|]; naive_solver. Qed.
