(* ===== verification/Membership.v ===== *)
(** * The projection: the log folded into who the group is

    [crates/distlib-consensus/src/state.rs]. [apply] is the whole fold, and
    each definition below is one function of that file. A method taking
    [&mut self] is a [fallible] computation over [MembershipState]: an error
    returns the state as the method leaves it. *)

From S2P Require Import Prelude Ids GroupSettings Events.

Definition FIRST_PROTOCOL : N := 1.
Definition PROTOCOL_MAX : N := 1.

Record MemberRecord : Type := {
  member_id : MemberId;
  display_name : string;
  pledge_bytes : N;
  protocol_max : N;
}.

#[export] Instance MemberRecord_eq_dec : EqDecision MemberRecord.
Proof. solve_decision. Defined.

(** [MemberRecord::of]. *)
Definition record_of (profile : MemberProfile) (pledge protocol : N) : MemberRecord := {|
  member_id := profile_id profile;
  display_name := profile_name profile;
  pledge_bytes := pledge;
  protocol_max := protocol;
|}.

Record Proposal : Type := {
  proposal_event : MembershipEvent;
  proposal_proposer : MemberId;
  proposal_approvals : gset MemberId;
}.

#[export] Instance Proposal_eq_dec : EqDecision Proposal.
Proof. solve_decision. Defined.

Record MembershipState : Type := {
  group : option GroupId;
  members : gmap MemberId MemberRecord;
  core : gmap MemberId NodeAddr;
  pending : gmap N Proposal;
  changed_at : N;
  settings : GroupSettings;
  protocol : N;
}.

#[export] Instance MembershipState_eq_dec : EqDecision MembershipState.
Proof. solve_decision. Defined.

(** [MembershipState::new], the derived default. *)
Definition new_state : MembershipState := {|
  group := None; members := ∅; core := ∅; pending := ∅; changed_at := 0;
  settings := default_settings; protocol := 0;
|}.

(** Assignments to one field of [self]. *)
Definition set_members (f : gmap MemberId MemberRecord → gmap MemberId MemberRecord)
    (s : MembershipState) : MembershipState :=
  {| group := group s; members := f (members s); core := core s; pending := pending s;
     changed_at := changed_at s; settings := settings s; protocol := protocol s |}.
Definition set_core (f : gmap MemberId NodeAddr → gmap MemberId NodeAddr)
    (s : MembershipState) : MembershipState :=
  {| group := group s; members := members s; core := f (core s); pending := pending s;
     changed_at := changed_at s; settings := settings s; protocol := protocol s |}.
Definition set_pending (f : gmap N Proposal → gmap N Proposal)
    (s : MembershipState) : MembershipState :=
  {| group := group s; members := members s; core := core s; pending := f (pending s);
     changed_at := changed_at s; settings := settings s; protocol := protocol s |}.
Definition set_changed_at (index : N) (s : MembershipState) : MembershipState :=
  {| group := group s; members := members s; core := core s; pending := pending s;
     changed_at := index; settings := settings s; protocol := protocol s |}.
Definition set_protocol (to : N) (s : MembershipState) : MembershipState :=
  {| group := group s; members := members s; core := core s; pending := pending s;
     changed_at := changed_at s; settings := settings s; protocol := to |}.

(** ** What an event is about *)

Definition target (event : MembershipEvent) : option MemberId :=
  match event with MemberExpelled member _ => Some member | _ => None end.

Inductive Subject : Type :=
| SubjectMember (member : MemberId)
| SubjectCoreGroup
| SubjectProtocol.

#[export] Instance Subject_eq_dec : EqDecision Subject.
Proof. solve_decision. Defined.

Definition subject (event : MembershipEvent) : option Subject :=
  match event with
  | MemberAdded member => Some (SubjectMember (profile_id member))
  | MemberExpelled member _ => Some (SubjectMember member)
  | CoreGroupChanged _ => Some SubjectCoreGroup
  | ProtocolRaised _ => Some SubjectProtocol
  | _ => None
  end.

Definition superseded_by (proposed : list (MemberId * NodeAddr))
    (before now : gmap MemberId NodeAddr) : bool :=
  let proposed := collect_map proposed in
  existsb (λ member,
    bool_decide (before !! member ≠ now !! member) &&
    match proposed !! member with
    | Some wants => bool_decide (Some wants ≠ now !! member)
    | None => false
    end) (map_keys before ++ map_keys now).

(** ** Questions about the state *)

Definition is_core (s : MembershipState) (member : MemberId) : bool :=
  bool_decide (is_Some (core s !! member)).

Definition is_member (s : MembershipState) (member : MemberId) : bool :=
  bool_decide (is_Some (members s !! member)).

Definition allowlist (s : MembershipState) : list MemberId := map_keys (members s).

(** [expires_after]: the outer subtraction saturates, the inner one too. *)
Definition expires_after (s : MembershipState) (proposal : N) : N :=
  Npos (pending_expiry (settings s)) - (changed_at s - proposal + 1).

Definition check_pledge (s : MembershipState) (pledge : N) : result ConsensusError unit :=
  let min_pledge := min_pledge_bytes (settings s) in
  if bool_decide (pledge < min_pledge)%N then Err (PledgeBelowMinimum pledge min_pledge)
  else Ok tt.

Definition speaks (s : MembershipState) (member : MemberId) (p : N) : bool :=
  match members s !! member with
  | Some record => bool_decide (p ≤ protocol_max record)%N
  | None => false
  end.

Definition core_not_speaking (s : MembershipState) (p : N) : list MemberId :=
  filter (λ member, negb (speaks s member p)) (map_keys (core s)).

Definition pledges_the_minimum (s : MembershipState) (member : MemberId) : bool :=
  match members s !! member with
  | Some record => bool_decide (min_pledge_bytes (settings s) ≤ pledge_bytes record)%N
  | None => false
  end.

Definition core_supports (s : MembershipState) (members : list MemberId) (p : N)
  : result ConsensusError unit :=
  match List.find (λ member, negb (speaks s member p)) members with
  | Some member => Err (CoreLacksProtocol member p)
  | None => Ok tt
  end.

(** [changes_the_voters]. *)
Definition changes_the_voters (s : MembershipState) (event : MembershipEvent) : bool :=
  match event with
  | MemberExpelled member _ => is_core s member
  | CoreGroupChanged proposed =>
      bool_decide (length proposed ≠ size (core s)) ||
      existsb (λ entry, negb (is_core s entry.1)) proposed
  | _ => false
  end.

Definition approvals_needed (s : MembershipState) (event : MembershipEvent) : nat :=
  match event with
  | PledgeChanged _ _ => 0
  | ProtocolSupported _ _ => 0
  | ProtocolRaised _ => Nat.div2 (size (core s)) + 1
  | _ => if changes_the_voters s event then Nat.div2 (size (core s)) + 1 else 1
  end.

(** Those of [approvals] given by members who are core now. *)
Definition counting (s : MembershipState) (approvals : gset MemberId) : gset MemberId :=
  filter (λ member, is_core s member) approvals.

Definition decided (s : MembershipState) (event : MembershipEvent)
    (approvals : gset MemberId) : bool :=
  bool_decide (approvals_needed s event ≤ size (counting s approvals)).

Definition expired (s : MembershipState) (proposal index : N) : bool :=
  bool_decide (Npos (pending_expiry (settings s)) < index - proposal)%N.

(** [self.protocol + 1], on a [u32] of a release build. *)
Definition next_protocol (s : MembershipState) : N := wrap32 (protocol s + 1).

Definition authorise (s : MembershipState) (proposer : MemberId) (event : MembershipEvent)
  : result ConsensusError unit :=
  match event with
  | PledgeChanged member pledge =>
      if bool_decide (member ≠ proposer) then Err (PledgeNotOwn proposer member)
      else check_pledge s pledge
  | CoreGroupChanged _ =>
      if is_core s proposer then Ok tt else Err (NotCoreMember proposer)
  | Approved _ =>
      if is_core s proposer then Ok tt else Err (ApproverNotCore proposer)
  | ProtocolSupported member max =>
      if bool_decide (member ≠ proposer) then Err (ProtocolSupportNotOwn proposer member)
      else if bool_decide (max < protocol s)%N then Err (ProtocolSupportBelowGroup max (protocol s))
      else Ok tt
  | ProtocolRaised to =>
      if bool_decide (to ≠ next_protocol s) then Err (ProtocolNotNext to (protocol s))
      else core_supports s (map_keys (core s)) to
  | _ => Ok tt
  end.

Definition still_allowed (s : MembershipState) (index proposal : N) (entry : Proposal)
    (approver : MemberId) : result ConsensusError unit :=
  if expired s proposal index then Err (ProposalExpired proposal index)
  else if bool_decide (target (proposal_event entry) = Some approver)
  then Err (SelfApproval approver)
  else if negb (is_member s (proposal_proposer entry))
  then Err (ProposerNotAMember (proposal_proposer entry))
  else authorise s (proposal_proposer entry) (proposal_event entry).

(** ** Changing the state *)

Definition fold_m : Type → Type := fallible MembershipState ConsensusError.

(** [found]. *)
Definition found (group_id : GroupId) (founders : list (MemberProfile * NodeAddr))
    (founding : GroupSettings) (proposer : MemberId) : fold_m unit :=
  s ←! fget ;;
  if bool_decide (is_Some (group s)) then ferr AlreadyFounded
  else
    fcheck (λ _, check_founders founders) ;!
    fcheck (λ _, check_settings founding) ;!
    if negb (existsb (λ founder, bool_decide (profile_id founder.1 = proposer)) founders)
    then ferr (FounderNotIncluded proposer)
    else fmodify (λ s, {|
      group := Some group_id;
      settings := founding;
      protocol := FIRST_PROTOCOL;
      members := collect_map
        ((λ founder, (profile_id founder.1, record_of founder.1 0 FIRST_PROTOCOL)) <$> founders);
      core := collect_map ((λ founder, (profile_id founder.1, founder.2)) <$> founders);
      pending := pending s;
      changed_at := changed_at s;
    |}).

(** [record.pledge_bytes = *pledge_bytes] and [record.protocol_max = *max]. *)
Definition with_pledge (pledge : N) (record : MemberRecord) : MemberRecord := {|
  member_id := member_id record; display_name := display_name record;
  pledge_bytes := pledge; protocol_max := protocol_max record |}.
Definition with_protocol (max : N) (record : MemberRecord) : MemberRecord := {|
  member_id := member_id record; display_name := display_name record;
  pledge_bytes := pledge_bytes record; protocol_max := max |}.

(** [apply_to_founded_group]. *)
Definition apply_to_founded_group (event : MembershipEvent) : fold_m unit :=
  s ←! fget ;;
  match event with
  | GroupFounded _ _ _ => ferr AlreadyFounded
  | MemberAdded member =>
      let '(pledge, p) :=
        match members s !! profile_id member with
        | Some had => (pledge_bytes had, protocol_max had)
        | None => (0, FIRST_PROTOCOL)%N
        end in
      fmodify (set_members <[profile_id member := record_of member pledge p]>)
  | MemberExpelled member _ =>
      match members s !! member with
      | None => ferr (UnknownMember member)
      | Some _ =>
          fmodify (set_members (delete member)) ;!
          fmodify (set_core (delete member))
      end
  | PledgeChanged member pledge =>
      match members s !! member with
      | None => ferr (UnknownMember member)
      | Some record => fmodify (set_members <[member := with_pledge pledge record]>)
      end
  | CoreGroupChanged proposed =>
      if bool_decide (proposed = [])
         || negb (forallb (λ entry, is_member s entry.1) proposed)
      then ferr InvalidCoreGroup
      else
        let folded := collect_map proposed in
        if bool_decide (size folded ≠ length proposed) then ferr InvalidCoreGroup
        else
          fcheck (λ s, core_supports s (map_keys folded) (protocol s)) ;!
          fmodify (set_core (λ _, folded))
  | ProtocolSupported member max =>
      match members s !! member with
      | None => ferr (UnknownMember member)
      | Some record => fmodify (set_members <[member := with_protocol max record]>)
      end
  | ProtocolRaised to => fmodify (set_protocol to)
  | Approved _ | Withdrawn _ => ferr NotAMembershipChange
  end.

(** Whether a pending proposal outlives the change [event] has just made,
    from the core group [before] it: the [retain] of [enact]. *)
Definition survives (event : MembershipEvent) (before now : gmap MemberId NodeAddr)
    (entry : Proposal) : bool :=
  match proposal_event entry with
  | CoreGroupChanged proposed => negb (superseded_by proposed before now)
  | other => bool_decide (subject other ≠ subject event)
  end.

(** [enact]. *)
Definition enact (event : MembershipEvent) : fold_m unit :=
  before ←! fcheck (λ s, Ok (core s)) ;;
  apply_to_founded_group event ;!
  fmodify (λ s, set_pending (filter (λ entry, survives event before (core s) entry.2)) s).

(** [submit]. *)
Definition submit (index : N) (proposer : MemberId) (event : MembershipEvent) : fold_m unit :=
  s ←! fget ;;
  let approvals : gset MemberId :=
    if is_core s proposer && bool_decide (target event ≠ Some proposer)
    then {[proposer]} else ∅ in
  if decided s event approvals then enact event
  else
    let waiting :=
      match subject event with
      | Some proposed_about =>
          List.find (λ entry : N * Proposal,
            negb (expired s entry.1 index) &&
            bool_decide (subject (proposal_event entry.2) = Some proposed_about))
            (map_entries (pending s))
      | None => None
      end in
    match waiting with
    | Some entry => ferr (AlreadyPending entry.1)
    | None =>
        fmodify (set_pending <[index := {|
          proposal_event := event; proposal_proposer := proposer;
          proposal_approvals := approvals |}]>)
    end.

(** [approve]: the entry is taken out, and put back on every path that does
    not enact it. *)
Definition approve (index proposal : N) (approver : MemberId) : fold_m unit :=
  s ←! fget ;;
  match pending s !! proposal with
  | None => ferr (UnknownProposal proposal)
  | Some entry =>
      fmodify (set_pending (delete proposal)) ;!
      s ←! fget ;;
      match still_allowed s index proposal entry approver with
      | Err error => fmodify (set_pending <[proposal := entry]>) ;! ferr error
      | Ok _ =>
          let approvals := {[approver]} ∪ proposal_approvals entry in
          if negb (decided s (proposal_event entry) approvals) then
            fmodify (set_pending <[proposal := {|
              proposal_event := proposal_event entry;
              proposal_proposer := proposal_proposer entry;
              proposal_approvals := approvals |}]>)
          else
            (λ s, match enact (proposal_event entry) s with
                  | (s', Ok _) => (s', Ok tt)
                  | (s', Err error) => (set_pending <[proposal := entry]> s', Err error)
                  end)
      end
  end.

(** [withdraw]. *)
Definition withdraw (proposal : N) (member : MemberId) : fold_m unit :=
  s ←! fget ;;
  match pending s !! proposal with
  | None => ferr (UnknownProposal proposal)
  | Some entry =>
      if bool_decide (proposal_proposer entry ≠ member)
      then ferr (NotTheProposer member proposal)
      else fmodify (set_pending (delete proposal))
  end.

(** The pending proposals [apply] keeps at [index]. *)
Definition not_left_behind (s : MembershipState) (index proposal : N) : bool :=
  bool_decide (index - proposal < Npos (pending_expiry (settings s)))%N.

Section apply.
Context `{Crypto}.

(** [apply]: verifies [signed] and folds it in, as the entry at [index]. *)
Definition apply (index : N) (signed : SignedEvent) : fold_m unit :=
  ev ←! fcheck (λ _, event signed) ;;
  s ←! fget ;;
  let proposer := signed_proposer signed in
  if bool_decide (signed_changed_at signed ≠ changed_at s)
  then ferr (StaleProposal (signed_changed_at signed) (changed_at s))
  else
    (match ev with
     | GroupFounded group_id founders founding => found group_id founders founding proposer
     | _ =>
         if bool_decide (group s = None) then ferr NotFounded
         else if negb (is_member s proposer) then ferr (ProposerNotAMember proposer)
         else
           fcheck (λ s, authorise s proposer ev) ;!
           match ev with
           | Approved proposal => approve index proposal proposer
           | Withdrawn proposal => withdraw proposal proposer
           | _ => submit index proposer ev
           end
     end) ;!
    fmodify (set_changed_at index) ;!
    fmodify (λ s, set_pending (filter (λ entry, not_left_behind s index entry.1)) s).

(** A committed entry, its verdict dropped: what a state machine does with
    each one. *)
Definition apply_entry (s : MembershipState) (entry : N * SignedEvent) : MembershipState :=
  (apply entry.1 entry.2 s).1.

Definition fold_log (log : list (N * SignedEvent)) : MembershipState :=
  foldl apply_entry new_state log.
End apply.

(** ** Lemmas of the projection, one operation at a time

    What each operation of [Membership] does when it succeeds and when it
    fails, and the quorum counting the invariants rest on. *)

Implicit Types (s : MembershipState) (m : MemberId) (ev : MembershipEvent).

(** ** Field updates *)

Lemma set_pending_restore s i p :
  pending s !! i = Some p → set_pending <[i := p]> (set_pending (delete i) s) = s.
Proof.
  intros Hp. destruct s as [g ms co pe ca se pr]. unfold set_pending. simpl in *.
  f_equal. rewrite insert_delete_eq. by apply insert_id.
Qed.

Lemma is_core_true s m : is_core s m = true ↔ is_Some (core s !! m).
Proof. unfold is_core. by rewrite bool_decide_eq_true. Qed.

Lemma is_member_true s m : is_member s m = true ↔ is_Some (members s !! m).
Proof. unfold is_member. by rewrite bool_decide_eq_true. Qed.

Lemma speaks_true s m p :
  speaks s m p = true ↔ ∃ r, members s !! m = Some r ∧ (p ≤ protocol_max r)%N.
Proof.
  unfold speaks. destruct (members s !! m) as [r|].
  - rewrite bool_decide_eq_true. naive_solver.
  - naive_solver.
Qed.

(** ** Core members that do not speak a protocol *)

Lemma find_none_forall {A} (f : A → bool) l :
  List.find f l = None ↔ ∀ x, x ∈ l → f x = false.
Proof.
  induction l as [|y l IH]; simpl.
  - split; [by intros _ x ?%elem_of_nil | done].
  - destruct (f y) eqn:E; split.
    + done.
    + intros Hall. specialize (Hall y (list_elem_of_here _ _)). congruence.
    + intros Hn x [->|Hx]%elem_of_cons; [done|]. by apply IH.
    + intros Hall. apply IH. intros x Hx. apply Hall. by constructor.
Qed.

Lemma find_some_elem {A} (f : A → bool) l x :
  List.find f l = Some x → x ∈ l ∧ f x = true.
Proof.
  intros Hf%List.find_some. by rewrite list_elem_of_In.
Qed.

Lemma core_supports_ok s l p :
  core_supports s l p = Ok tt ↔ ∀ m, m ∈ l → speaks s m p = true.
Proof.
  unfold core_supports. destruct (List.find _ _) as [m|] eqn:E.
  - apply find_some_elem in E as [Hin Hm]. split; [done|].
    intros Hall. rewrite (Hall m Hin) in Hm. done.
  - rewrite find_none_forall in E. split; [|done].
    intros _ m Hm. apply E in Hm. by destruct (speaks s m p).
Qed.

Lemma core_supports_cases s l p :
  core_supports s l p = Ok tt ∨ ∃ e, core_supports s l p = Err e.
Proof. destruct (core_supports s l p) as [[]|]; eauto. Qed.

(** ** Quorums *)

Lemma elem_of_counting s A m : m ∈ counting s A ↔ m ∈ A ∧ is_Some (core s !! m).
Proof.
  unfold counting. rewrite elem_of_filter, Is_true_true, is_core_true. naive_solver.
Qed.

Lemma counting_core s A : counting s A ⊆ dom (core s).
Proof. intros m [_ Hm]%elem_of_counting. by apply elem_of_dom. Qed.

Lemma decided_true s ev A :
  decided s ev A = true ↔ approvals_needed s ev ≤ size (counting s A).
Proof. unfold decided. by rewrite bool_decide_eq_true. Qed.

Lemma size_counting_le s A : size (counting s A) ≤ size (core s).
Proof. rewrite <-size_dom. apply subseteq_size, counting_core. Qed.

(** Whatever waits for approvals takes one at least. *)
Lemma approvals_needed_pos s ev : subject ev ≠ None → 1 ≤ approvals_needed s ev.
Proof.
  intros Hsub. unfold approvals_needed.
  destruct ev; try (by destruct Hsub); try destruct (changes_the_voters _ _);
    rewrite ?Nat.add_1_r; apply le_n_S, Nat.le_0_l.
Qed.

(** The counted approvals leave out whoever may not approve. *)
Lemma size_counting_without s A m :
  m ∉ A → is_Some (core s !! m) → S (size (counting s A)) ≤ size (core s).
Proof.
  intros HmA Hm. rewrite <-(size_dom (core s)).
  assert (counting s A ⊆ dom (core s) ∖ {[m]}) as Hsub.
  { intros x Hx. apply elem_of_difference. split; [by apply (counting_core s A)|].
    rewrite elem_of_singleton. intros ->. by apply elem_of_counting in Hx as [? _]. }
  apply subseteq_size in Hsub. rewrite size_remove_elem in Hsub by by apply elem_of_dom.
  assert (size (dom (core s)) ≠ 0); [|lia].
  apply elem_of_dom in Hm. intros ?%size_empty_inv. set_solver.
Qed.

(** Expelling a voter takes a majority it is not part of, so two voters are
    always left. *)
Lemma expel_core_leaves_two s m reason A :
  decided s (MemberExpelled m reason) A = true → m ∉ A → is_Some (core s !! m) →
  3 ≤ size (core s).
Proof.
  intros Hd HmA Hm. apply decided_true in Hd. simpl in Hd.
  rewrite (proj2 (is_core_true s m) Hm) in Hd.
  pose proof (size_counting_without s A m HmA Hm).
  pose proof (Nat.div2_odd (size (core s))) as Hodd.
  destruct (Nat.odd (size (core s))); simpl in Hodd; lia.
Qed.

(** ** Enacting a change *)

Definition founded s : Prop := is_Some (group s).

Lemma apply_to_founded_group_err ev s s' e :
  apply_to_founded_group ev s = (s', Err e) → s' = s.
Proof.
  destruct ev; unfold apply_to_founded_group; run; intros Heq;
    cases_run.
Qed.

Lemma enact_err ev s s' e : enact ev s = (s', Err e) → s' = s.
Proof.
  unfold enact. run. destruct (apply_to_founded_group ev s) as [s1 [[]|e1]] eqn:E; [done|].
  intros [= <- <-]. by eapply apply_to_founded_group_err.
Qed.

Lemma enact_ok ev s s' :
  enact ev s = (s', Ok tt) →
  ∃ s1, apply_to_founded_group ev s = (s1, Ok tt) ∧
        s' = set_pending (filter (λ entry, survives ev (core s) (core s1) entry.2)) s1.
Proof.
  unfold enact. run. destruct (apply_to_founded_group ev s) as [s1 [[]|e1]] eqn:E; [|done].
  intros [= <-]. eauto.
Qed.

Lemma submit_err i m ev s s' e : submit i m ev s = (s', Err e) → s' = s.
Proof.
  unfold submit. run. destruct (decided _ _ _); [by intros ?%enact_err|].
  destruct (match subject ev with Some _ => _ | None => _ end) as [[w p]|]; by intros [= <- <-].
Qed.

Lemma approve_err i p m s s' e : approve i p m s = (s', Err e) → s' = s.
Proof.
  unfold approve. run. destruct (pending s !! p) as [entry|] eqn:E; [|by intros [= <- <-]].
  destruct (still_allowed _ _ _ _ _) as [[]|err].
  2: { intros [= <- <-]. by apply set_pending_restore. }
  destruct (negb _); [done|].
  destruct (enact _ _) as [s1 [[]|err]] eqn:En; [done|].
  intros [= <- <-]. apply enact_err in En as ->. by apply set_pending_restore.
Qed.

Lemma withdraw_err p m s s' e : withdraw p m s = (s', Err e) → s' = s.
Proof.
  unfold withdraw. run. intros. cases_run.
Qed.

Lemma found_err g fs gs m s s' e : found g fs gs m s = (s', Err e) → s' = s.
Proof.
  unfold found. run. intros. cases_run.
Qed.

Lemma clean_enact ev : clean (enact ev).
Proof. intros s s' e. apply enact_err. Qed.
Lemma clean_found g fs gs m : clean (found g fs gs m).
Proof. intros s s' e. apply found_err. Qed.
Lemma clean_submit i m ev : clean (submit i m ev).
Proof. intros s s' e. apply submit_err. Qed.
Lemma clean_approve i p m : clean (approve i p m).
Proof. intros s s' e. apply approve_err. Qed.
Lemma clean_withdraw p m : clean (withdraw p m).
Proof. intros s s' e. apply withdraw_err. Qed.
#[export] Hint Resolve clean_enact clean_found clean_submit clean_approve clean_withdraw : distlib.

(** A refused entry leaves the membership exactly as it was, whatever part of
    [apply] refused it. *)
Lemma clean_apply `{Crypto} index signed : clean (apply index signed).
Proof.
  apply clean_fcheck_bind. intros ev. apply clean_fget_bind. intros s0.
  case_bool_decide; [auto with distlib|].
  apply clean_then_sure; [|intros _; auto using sure_then_sure, sure_fmodify].
  destruct ev; auto with distlib; (case_bool_decide; [auto with distlib|]);
    (destruct (negb _); auto with distlib).
Qed.
