(* ===== verification/MembershipSpec.v ===== *)
(** * What an entry of the log may do: the rules of the projection

    [changes], [folds] and [accepts] say as inference rules what
    [apply_to_founded_group], [apply] without its bookkeeping, and [apply] do
    when they succeed. The equivalences below make the rules the interface
    every invariant is proved against. *)

From S2P Require Import Prelude Ids GroupSettings Events Membership.

Implicit Types (s : MembershipState) (m : MemberId) (ev : MembershipEvent).

(** ** The changes a decided event makes *)

Inductive changes s : MembershipEvent → MembershipState → Prop :=
| Admits member :
    members s !! profile_id member = None →
    changes s (MemberAdded member)
      (set_members <[profile_id member := record_of member 0 FIRST_PROTOCOL]> s)
| Renames member had :
    members s !! profile_id member = Some had →
    changes s (MemberAdded member)
      (set_members <[profile_id member :=
         record_of member (pledge_bytes had) (protocol_max had)]> s)
| Expels m reason :
    is_Some (members s !! m) →
    changes s (MemberExpelled m reason) (set_core (delete m) (set_members (delete m) s))
| Pledges m pledge record :
    members s !! m = Some record →
    changes s (PledgeChanged m pledge) (set_members <[m := with_pledge pledge record]> s)
| Recores proposed :
    proposed ≠ [] →
    NoDup proposed.*1 →
    (∀ m, m ∈ proposed.*1 → is_Some (members s !! m)) →
    (∀ m, m ∈ proposed.*1 → speaks s m (protocol s) = true) →
    changes s (CoreGroupChanged proposed) (set_core (λ _, collect_map proposed) s)
| Supports m max record :
    members s !! m = Some record →
    changes s (ProtocolSupported m max) (set_members <[m := with_protocol max record]> s)
| Raises to :
    changes s (ProtocolRaised to) (set_protocol to s).

Lemma forallb_is_member s (l : list (MemberId * NodeAddr)) :
  forallb (λ entry, is_member s entry.1) l = true ↔
  ∀ m, m ∈ l.*1 → is_Some (members s !! m).
Proof.
  rewrite List.forallb_forall. setoid_rewrite is_member_true. split.
  - intros Hall m ([m' a] & -> & Hin)%list_elem_of_fmap. apply (Hall (m', a)).
    by apply list_elem_of_In.
  - intros Hall [m a] Hin. apply (Hall m), list_elem_of_fmap. exists (m, a).
    split; [done|]. by apply list_elem_of_In.
Qed.

Lemma elem_of_map_keys_collect (l : list (MemberId * NodeAddr)) m :
  m ∈ map_keys (collect_map l) ↔ m ∈ l.*1.
Proof. by rewrite elem_of_map_keys, collect_map_is_Some. Qed.

Lemma recore_ok s proposed s' :
  apply_to_founded_group (CoreGroupChanged proposed) s = (s', Ok tt) ↔
  changes s (CoreGroupChanged proposed) s'.
Proof.
  unfold apply_to_founded_group. run. split.
  - destruct (bool_decide (proposed = []) || _) eqn:E1; [done|].
    apply orb_false_iff in E1 as [Hne%bool_decide_eq_false Hmem%negb_false_iff].
    case_bool_decide as Hsz; [done|].
    destruct (core_supports_cases s (map_keys (collect_map proposed)) (protocol s))
      as [Hs | [e Hs]]; rewrite Hs; [|done].
    intros [= <-]. constructor; [done | by apply size_collect_map_eq | by apply forallb_is_member |].
    intros m Hm. eapply core_supports_ok; [done|]. by apply elem_of_map_keys_collect.
  - inversion 1 as [| | | |? Hne Hnd Hmem Hsp| |]; subst.
    rewrite bool_decide_false by done. rewrite (proj2 (forallb_is_member _ _) Hmem). simpl.
    rewrite bool_decide_false by (intros Hx; by apply Hx, size_collect_map_eq).
    rewrite (proj2 (core_supports_ok _ _ _)); [done|].
    intros m Hm. by apply Hsp, elem_of_map_keys_collect.
Qed.

Lemma changes_spec ev s s' :
  apply_to_founded_group ev s = (s', Ok tt) ↔ changes s ev s'.
Proof.
  destruct ev; [..|apply recore_ok| | | |]; unfold apply_to_founded_group; run;
    (split; [intros Heq; cases_run; econstructor; eauto | inversion 1; simplify_eq/=]);
    by repeat case_match; simplify_eq.
Qed.

(** ** Dropping what a change supersedes *)

Definition drop_superseded ev (before : gmap MemberId NodeAddr) s : MembershipState :=
  set_pending (filter (λ entry, survives ev before (core s) entry.2)) s.

Lemma enact_spec ev s s' :
  enact ev s = (s', Ok tt) ↔ ∃ s1, changes s ev s1 ∧ s' = drop_superseded ev (core s) s1.
Proof.
  split.
  - intros (s1 & Hc%changes_spec & ->)%enact_ok. eauto.
  - intros (s1 & Hc%changes_spec & ->). unfold enact. run. by rewrite Hc.
Qed.

(** ** What one attributed event does *)

(** The approvals a proposal starts with: its proposer's own, where that
    counts. *)
Definition own_approval s m ev : gset MemberId :=
  if is_core s m && bool_decide (target ev ≠ Some m) then {[m]} else ∅.

(** A decision that could still be taken about the same thing. *)
Definition waiting_about s (index : N) ev (p : N) : Prop :=
  ∃ entry, pending s !! p = Some entry ∧ expired s p index = false ∧
           is_Some (subject ev) ∧ subject (proposal_event entry) = subject ev.

(** The approval of [m] is one the log may record for the proposal [entry]. *)
Definition may_approve s (index p : N) (entry : Proposal) m : Prop :=
  expired s p index = false ∧
  target (proposal_event entry) ≠ Some m ∧
  is_Some (members s !! proposal_proposer entry) ∧
  authorise s (proposal_proposer entry) (proposal_event entry) = Ok tt.

Definition with_approval m (entry : Proposal) : Proposal := {|
  proposal_event := proposal_event entry; proposal_proposer := proposal_proposer entry;
  proposal_approvals := {[m]} ∪ proposal_approvals entry |}.

(** A member may speak: the group is founded and they are in it. *)
Definition may_speak s m ev : Prop :=
  is_Some (group s) ∧ is_Some (members s !! m) ∧ authorise s m ev = Ok tt.

(** What is put to the group, as opposed to said about a proposal. *)
Definition submitted ev : Prop :=
  match ev with GroupFounded _ _ _ | Approved _ | Withdrawn _ => False | _ => True end.

Definition founding_state (g : GroupId) (founders : list (MemberProfile * NodeAddr))
    (founding : GroupSettings) s : MembershipState := {|
  group := Some g;
  members := collect_map
    ((λ f, (profile_id f.1, record_of f.1 0 FIRST_PROTOCOL)) <$> founders);
  core := collect_map ((λ f, (profile_id f.1, f.2)) <$> founders);
  pending := pending s; changed_at := changed_at s;
  settings := founding; protocol := FIRST_PROTOCOL |}.

Inductive folds (index : N) m s : MembershipEvent → MembershipState → Prop :=
| Founds g founders founding :
    group s = None →
    founders ≠ [] →
    NoDup ((λ f, profile_id f.1) <$> founders) →
    m ∈ (λ f, profile_id f.1) <$> founders →
    check founding = Ok tt →
    folds index m s (GroupFounded g founders founding) (founding_state g founders founding s)
| Decides ev s1 :
    may_speak s m ev → submitted ev →
    decided s ev (own_approval s m ev) = true →
    changes s ev s1 →
    folds index m s ev (drop_superseded ev (core s) s1)
| Proposes ev :
    may_speak s m ev → submitted ev →
    decided s ev (own_approval s m ev) = false →
    (∀ p, ¬ waiting_about s index ev p) →
    folds index m s ev
      (set_pending <[index := {| proposal_event := ev; proposal_proposer := m;
                                 proposal_approvals := own_approval s m ev |}]> s)
| Approves p entry :
    may_speak s m (Approved p) →
    pending s !! p = Some entry → may_approve s index p entry m →
    decided s (proposal_event entry) ({[m]} ∪ proposal_approvals entry) = false →
    folds index m s (Approved p)
      (set_pending <[p := with_approval m entry]> s)
| Enacts p entry s1 :
    may_speak s m (Approved p) →
    pending s !! p = Some entry → may_approve s index p entry m →
    decided s (proposal_event entry) ({[m]} ∪ proposal_approvals entry) = true →
    changes (set_pending (delete p) s) (proposal_event entry) s1 →
    folds index m s (Approved p) (drop_superseded (proposal_event entry) (core s) s1)
| Withdraws p entry :
    may_speak s m (Withdrawn p) →
    pending s !! p = Some entry → proposal_proposer entry = m →
    folds index m s (Withdrawn p) (set_pending (delete p) s).

(** The rules that fit the event at hand. *)
Ltac inv_folds H := inversion H; subst; simpl submitted in *; try done; simplify_eq.

Lemma set_pending_delete_insert p (entry : Proposal) s :
  set_pending <[p := entry]> (set_pending (delete p) s) = set_pending <[p := entry]> s.
Proof. unfold set_pending; simpl. by rewrite insert_delete_eq. Qed.

Lemma found_spec g fs gs m s s' index :
  found g fs gs m s = (s', Ok tt) ↔ folds index m s (GroupFounded g fs gs) s'.
Proof.
  assert (existsb (λ founder : MemberProfile * NodeAddr, bool_decide (profile_id founder.1 = m)) fs = true
          ↔ m ∈ (λ f, profile_id f.1) <$> fs) as Hin.
  { rewrite List.existsb_exists, list_elem_of_fmap. setoid_rewrite bool_decide_eq_true.
    setoid_rewrite list_elem_of_In. naive_solver. }
  unfold found. run. split.
  - destruct (group s) eqn:Eg; simpl; [done|].
    destruct (check_founders fs) as [[]|] eqn:Ef; [|done].
    destruct (check_settings gs) as [[]|] eqn:Es; [|done].
    destruct (existsb _ _) eqn:Ee; [|done]. intros [= <-]. apply check_founders_ok in Ef as [??].
    constructor; [done..| by apply Hin | by apply check_settings_ok].
  - inversion 1 as [? ? ? Eg ? ? Hm ?| ? ? ? Hf| ? ? Hf | | |]; simplify_eq/=; [|done..].
    rewrite Eg. simpl.
    rewrite (proj2 (check_founders_ok fs)) by done. rewrite (proj2 (check_settings_ok gs)) by done.
    by rewrite (proj2 Hin Hm).
Qed.

Lemma find_waiting_none s index ev w :
  subject ev = Some w →
  List.find (λ entry : N * Proposal, negb (expired s entry.1 index) &&
    bool_decide (subject (proposal_event entry.2) = Some w)) (map_entries (pending s)) = None
  ↔ ∀ p, ¬ waiting_about s index ev p.
Proof.
  intros Hw. rewrite find_none_forall. split.
  - intros Hall p (entry & Hp & He & _ & Hs). apply elem_of_map_entries, Hall in Hp. simpl in Hp.
    rewrite He, bool_decide_true in Hp; [done | congruence].
  - intros Hall [p entry] Hp%elem_of_map_entries. simpl.
    destruct (expired s p index) eqn:He; [done|]. simpl. apply bool_decide_eq_false. intros Hs.
    apply (Hall p). exists entry. rewrite Hw. eauto.
Qed.

Lemma submit_spec index m ev s s' :
  submitted ev → may_speak s m ev →
  submit index m ev s = (s', Ok tt) ↔ folds index m s ev s'.
Proof.
  intros Hsub Hspeak. unfold submit. run. fold (own_approval s m ev).
  destruct (decided s ev (own_approval s m ev)) eqn:Hd.
  - rewrite enact_spec. split.
    + intros (s1 & Hc & ->). by constructor.
    + inversion 1; subst; try done; try congruence. eauto.
  - transitivity ((∀ p, ¬ waiting_about s index ev p) ∧
      s' = set_pending <[index := {| proposal_event := ev; proposal_proposer := m;
                                 proposal_approvals := own_approval s m ev |}]> s).
    + destruct (subject ev) as [w|] eqn:Hw.
      * rewrite <-(find_waiting_none s index ev w Hw).
        destruct (List.find _ _); [|naive_solver]. split; [done | by intros [? _]].
      * split; [intros [= <-]; split; [|done] | by intros [_ ->]].
        intros p (? & _ & _ & [? ?] & _). congruence.
    + split; [intros [? ->]; by constructor|]. inversion 1; subst; try done. congruence.
Qed.

Lemma still_allowed_ok s index p entry m :
  still_allowed s index p entry m = Ok tt ↔ may_approve s index p entry m.
Proof.
  unfold still_allowed, may_approve. rewrite <-is_member_true.
  destruct (expired s p index); [naive_solver|]. case_bool_decide; [naive_solver|].
  destruct (is_member _ _); simpl; naive_solver.
Qed.

(** The approval is judged with its proposal taken out, which changes
    nothing it depends on. *)
Lemma may_approve_without s f index p entry m :
  may_approve (set_pending f s) index p entry m ↔ may_approve s index p entry m.
Proof. done. Qed.

Lemma enact_iff ev s r :
  (∃ s1, changes s ev s1 ∧ r = drop_superseded ev (core s) s1) → enact ev s = (r, Ok tt).
Proof. by intros Hr%enact_spec. Qed.

Lemma approve_spec index p m s s' :
  may_speak s m (Approved p) →
  approve index p m s = (s', Ok tt) ↔ folds index m s (Approved p) s'.
Proof.
  intros Hspeak. unfold approve. run. destruct (pending s !! p) as [entry|] eqn:Hp.
  2: { split; [done|]. intros Hf. inv_folds Hf. }
  destruct (still_allowed _ _ _ _ _) as [[]|e] eqn:Ha.
  2: { split; [done|]. intros Hf.
       assert (may_approve (set_pending (delete p) s) index p entry m) as Hok%still_allowed_ok;
         [|congruence].
       apply may_approve_without. inv_folds Hf; done. }
  apply still_allowed_ok in Ha. change (may_approve s index p entry m) in Ha.
  change (decided (set_pending (delete p) s)) with (decided s).
  destruct (decided _ _ _) eqn:Hd; simpl; (split; [|intros Hf; inv_folds Hf; try congruence]).
  - destruct (enact _ _) as [s1 [[]|e]] eqn:He; [intros [= <-]|done].
    apply enact_spec in He as (s2 & Hc & ->). simpl. by eapply Enacts.
  - by erewrite (enact_iff _ (set_pending (delete p) s)) by (eexists; split; [eassumption | reflexivity]).
  - rewrite set_pending_delete_insert. intros [= <-]. by eapply Approves.
  - by rewrite set_pending_delete_insert.
Qed.

Lemma withdraw_spec index p m s s' :
  may_speak s m (Withdrawn p) →
  withdraw p m s = (s', Ok tt) ↔ folds index m s (Withdrawn p) s'.
Proof.
  intros Hspeak. unfold withdraw. run. destruct (pending s !! p) as [entry|] eqn:Hp.
  2: { split; [done|]. intros Hf. inv_folds Hf. }
  case_bool_decide as Hm.
  - split; [done|]. intros Hf. inv_folds Hf.
  - split; [intros [= <-]; by eapply Withdraws | intros Hf; by inv_folds Hf].
Qed.

(** ** The whole of [apply] *)

(** What [apply] does after the event has been folded: the membership is now
    the one changed at [index], and the proposals left behind are dropped. *)
Definition close (index : N) s : MembershipState :=
  set_pending (filter (λ entry, not_left_behind s index entry.1)) (set_changed_at index s).

Section accepts.
Context `{Crypto}.

Definition accepts (index : N) (signed : SignedEvent) s s' : Prop :=
  verify signed = Ok tt ∧ signed_changed_at signed = changed_at s ∧
  ∃ s1, folds index (signed_proposer signed) s (signed_event signed) s1 ∧ s' = close index s1.

#[local] Instance may_speak_dec s m ev : Decision (may_speak s m ev).
Proof.
  unfold may_speak.
  destruct (authorise s m ev) as [[]|]; [|right; by intros (_ & _ & ?)].
  destruct (decide (is_Some (group s))); [|right; by intros (? & _ & _)].
  destruct (decide (is_Some (members s !! m))); [by left | right; by intros (_ & ? & _)].
Qed.

Lemma folds_speaks index m s ev s1 :
  folds index m s ev s1 →
  (∃ g fs gs, ev = GroupFounded g fs gs) ∨ may_speak s m ev.
Proof. inversion 1; eauto. Qed.

(** What an entry does to a founded group, before [apply] closes it. *)
Lemma spoken_spec index m s ev s' :
  may_speak s m ev →
  match ev with
  | GroupFounded g fs gs => found g fs gs m
  | Approved p => approve index p m
  | Withdrawn p => withdraw p m
  | _ => submit index m ev
  end s = (s', Ok tt) ↔ folds index m s ev s'.
Proof.
  intros Hs. destruct ev;
    first [by apply submit_spec | apply found_spec | by apply approve_spec | by apply withdraw_spec].
Qed.

Lemma apply_spec index signed s s' :
  apply index signed s = (s', Ok tt) ↔ accepts index signed s s'.
Proof.
  unfold apply, event, accepts. destruct signed as [ev m at_ seen sig]. cbn [signed_event
    signed_proposer signed_changed_at]. set (signed := MkSignedEvent _ _ _ _ _).
  unfold fbind at 1, fcheck at 1. destruct (verify signed) as [[]|e]; simpl;
    [|split; [done | by intros [? _]]].
  unfold fbind at 1, fget at 1. cbn beta iota. case_bool_decide as Hseen.
  { split; [done | by intros (_ & ? & _)]. }
  transitivity (∃ s1, folds index m s ev s1 ∧ s' = close index s1).
  2: { split; [intros; split_and!; eauto | by intros (_ & _ & ?)]. }
  set (body := fbind _ _).
  match goal with body := fbind ?b _ |- _ => set (inner := b) in body end.
  assert (∀ s1, inner s = (s1, Ok tt) ↔ folds index m s ev s1) as Hinner.
  { intros s1. destruct (decide (may_speak s m ev)) as [Hsp|Hnot].
    - rewrite <-(spoken_spec index m s ev s1 Hsp). destruct Hsp as ([g Hg] & Hm & Ha).
      subst inner. unfold fbind, fcheck. rewrite Hg. apply is_member_true in Hm.
      rewrite Hm. simpl. destruct ev; by rewrite ?Ha.
    - split.
      + destruct ev; subst inner; [intros; by apply found_spec|..]; unfold fbind, fcheck;
          (case_bool_decide as Hg; [done|]);
          (destruct (is_member s m) eqn:Hm; [|done]); cbn [negb];
          (destruct (authorise s m _) as [[]|] eqn:Ha; [|done]); destruct Hnot;
          (split_and!; [by apply not_eq_None_Some | by apply is_member_true | done]).
      + intros Hf. destruct (folds_speaks _ _ _ _ _ Hf) as [(g & fs & gs & ->)|]; [|done].
        by apply found_spec in Hf. }
  unfold body, fbind, fmodify. split.
  - destruct (inner s) as [s1 [[]|]] eqn:E; [|done]. intros [= <-]. exists s1.
    split; [by apply Hinner | done].
  - intros (s1 & Hf%Hinner & ->). by rewrite Hf.
Qed.
End accepts.
