(* ===== verification/MembershipInv.v ===== *)
(** * What holds of every membership the log can fold into

    [wf] is the invariant of the projection. It is proved of each rule of
    [MembershipSpec], then of [apply], then of every log whose indexes
    increase, which is what a Raft log is. *)

From S2P Require Import Prelude Ids GroupSettings Events Membership MembershipSpec.

Implicit Types (s : MembershipState) (m : MemberId) (ev : MembershipEvent).

(** One waiting decision, in a membership last changed at [now]. *)
Record wf_proposal (now expiry p : N) (entry : Proposal) : Prop := {
  wfp_past : (p ≤ now)%N;
  wfp_live : (now - p < expiry)%N;
  wfp_subject : is_Some (subject (proposal_event entry));
  wfp_target : ∀ m, target (proposal_event entry) = Some m → m ∉ proposal_approvals entry;
}.

(** The records of the members, and the core group among them. *)
Record wf_roster (min protocol : N) (ms : gmap MemberId MemberRecord)
    (co : gmap MemberId NodeAddr) : Prop := {
  wfr_core : ∀ m, is_Some (co !! m) →
    ∃ r, ms !! m = Some r ∧ (protocol ≤ protocol_max r)%N;
  wfr_some_core : co ≠ ∅;
  wfr_ids : ∀ m r, ms !! m = Some r → member_id r = m;
  wfr_pledge : ∀ m r, ms !! m = Some r → pledge_bytes r = 0%N ∨ (min ≤ pledge_bytes r)%N;
}.

Definition distinct_subjects (pend : gmap N Proposal) : Prop :=
  ∀ p q e f, pend !! p = Some e → pend !! q = Some f →
    subject (proposal_event e) = subject (proposal_event f) → p = q.

Record wf_founded s : Prop := {
  wf_roster_ok : wf_roster (min_pledge_bytes (settings s)) (protocol s) (members s) (core s);
  wf_settings : check (settings s) = Ok tt;
  wf_pending : ∀ p entry, pending s !! p = Some entry →
    wf_proposal (changed_at s) (Npos (pending_expiry (settings s))) p entry;
  wf_subjects : distinct_subjects (pending s);
}.

(** Before founding nothing is held; after it, [wf_founded]. *)
Definition wf s : Prop :=
  match group s with None => s = new_state | Some _ => wf_founded s end.

(** What an entry is folded at comes after the change before it. *)
Definition fresh_index s (index : N) : Prop := group s = None ∨ (changed_at s < index)%N.

(** ** Changes keep the roster *)

Definition roster_of s : Prop :=
  wf_roster (min_pledge_bytes (settings s)) (protocol s) (members s) (core s).

(** What [authorise] adds to a change for the roster to survive it. *)
Definition authorised s ev : Prop :=
  match ev with
  | PledgeChanged _ pledge => (min_pledge_bytes (settings s) ≤ pledge)%N
  | ProtocolSupported _ max => (protocol s ≤ max)%N
  | ProtocolRaised to => ∀ m, is_Some (core s !! m) → speaks s m to = true
  | _ => True
  end.

Lemma authorise_authorised s m ev : authorise s m ev = Ok tt → authorised s ev.
Proof.
  destruct ev; simpl; try done.
  - unfold check_pledge. repeat case_bool_decide; try done. lia.
  - repeat case_bool_decide; try done. lia.
  - case_bool_decide; [done|]. rewrite core_supports_ok. intros Hall x Hx.
    by apply Hall, elem_of_map_keys.
Qed.

(** Changing one member's record keeps the roster when the new one is no
    worse at what the core is asked for. *)
Lemma wf_roster_insert min p ms co m r :
  wf_roster min p ms co → member_id r = m →
  pledge_bytes r = 0%N ∨ (min ≤ pledge_bytes r)%N →
  (is_Some (co !! m) → (p ≤ protocol_max r)%N) →
  wf_roster min p (<[m := r]> ms) co.
Proof.
  intros [Hc Hne Hi Hp] Hid Hpl Hco. split; [|done|..].
  - intros x Hx. destruct (decide (x = m)) as [->|Hxm].
    + rewrite lookup_insert_eq. eauto.
    + rewrite lookup_insert_ne by done. eauto.
  - intros x r' [[<- <-]|[_ ?]]%lookup_insert_Some; eauto.
  - intros x r' [[<- <-]|[_ ?]]%lookup_insert_Some; eauto.
Qed.

Lemma wf_roster_delete min p ms co m :
  wf_roster min p ms co → delete m co ≠ ∅ → wf_roster min p (delete m ms) (delete m co).
Proof.
  intros [Hc Hne Hi Hp] Hne'. split; [|done|..].
  - intros x [a [Hxm Hx]%lookup_delete_Some]. rewrite lookup_delete_ne by done. eauto.
  - intros x r [_ ?]%lookup_delete_Some. eauto.
  - intros x r [_ ?]%lookup_delete_Some. eauto.
Qed.

Lemma delete_core_nonempty s m reason A :
  core s ≠ ∅ →
  decided s (MemberExpelled m reason) A = true → m ∉ A → delete m (core s) ≠ ∅.
Proof.
  intros Hne Hd HmA. destruct (core s !! m) as [a|] eqn:Hm; [|by rewrite delete_id].
  assert (3 ≤ size (core s)) by (eapply expel_core_leaves_two; eauto).
  intros He%map_size_empty_iff. rewrite map_size_delete, Hm in He. simpl in He. lia.
Qed.

Lemma changes_roster s ev s' A :
  changes s ev s' → roster_of s → authorised s ev →
  decided s ev A = true → (∀ m, target ev = Some m → m ∉ A) →
  roster_of s'.
Proof.
  intros Hc Hr Ha Hd HA. unfold roster_of in *. pose proof Hr as [Hco Hne Hi Hp].
  destruct Hc as [member Hm | member had Hm | m reason Hm | m pledge r Hm
                 | proposed Hpne Hnd Hmem Hsp | m max r Hm | to]; simpl in *.
  - apply wf_roster_insert; simpl; eauto.
    intros (r & ? & _)%Hco. congruence.
  - apply wf_roster_insert; simpl; eauto.
    intros (r & ? & ?)%Hco. simplify_eq. done.
  - apply wf_roster_delete; [done|]. eapply delete_core_nonempty; eauto.
  - apply wf_roster_insert; simpl; eauto.
    intros (r' & ? & ?)%Hco. simplify_eq. done.
  - split; [|by apply collect_map_nonempty|done..].
    intros m Hm%collect_map_is_Some. by apply speaks_true, Hsp.
  - apply wf_roster_insert; simpl; eauto.
  - split; [|done..]. intros m Hm. apply speaks_true. auto.
Qed.

(** ** Pending proposals *)

(** [wf_founded] while an entry is folded at [index], before [close]: what is
    about to be dropped as expired may still be there, and [index] itself. *)
Record folding s0 (index : N) s : Prop := {
  fold_roster : roster_of s;
  fold_group : group s = group s0;
  fold_settings : settings s = settings s0;
  fold_changed : changed_at s = changed_at s0;
  fold_pending : ∀ p entry, pending s !! p = Some entry →
    (p ≤ index)%N ∧ is_Some (subject (proposal_event entry)) ∧
    (∀ m, target (proposal_event entry) = Some m → m ∉ proposal_approvals entry);
  fold_subjects : ∀ p q e f,
    pending s !! p = Some e → pending s !! q = Some f →
    expired s p index = false → expired s q index = false →
    subject (proposal_event e) = subject (proposal_event f) → p = q;
}.

Lemma changes_keep s ev s' :
  changes s ev s' →
  group s' = group s ∧ settings s' = settings s ∧ changed_at s' = changed_at s ∧
  pending s' = pending s.
Proof. by inversion 1. Qed.

Lemma folding_start s index :
  wf_founded s → (changed_at s < index)%N → folding s index s.
Proof.
  intros [Hr Hs Hp Hsub] Hi. split; [done..| |].
  - intros p entry Hpe. destruct (Hp p entry Hpe). split_and!; [lia|done|done].
  - intros p q e f Hpe Hqf _ _. by apply Hsub.
Qed.

(** Forgetting proposals never hurts. *)
Lemma folding_shrink s0 index s f :
  f (pending s) ⊆ pending s → folding s0 index s → folding s0 index (set_pending f s).
Proof.
  intros Hsub [Hr Hg Hs Hc Hp Hd]. split; [done..| |]; simpl.
  - intros p e Hpe. eapply Hp, lookup_weaken; eauto.
  - intros p q e e' Hpe Hqf. eapply Hd; eapply lookup_weaken; eauto.
Qed.

Lemma folding_change s0 index s ev s' A :
  folding s0 index s → changes s ev s' → authorised s ev →
  decided s ev A = true → (∀ m, target ev = Some m → m ∉ A) →
  folding s0 index s'.
Proof.
  intros [Hr Hg Hs Hc Hp Hd] Hch Ha Hdec HA.
  pose proof (changes_keep _ _ _ Hch) as (Hg' & Hs' & Hc' & Hp').
  assert (roster_of s') by by eapply changes_roster.
  split; [done|congruence..| |].
  - by rewrite Hp'.
  - unfold expired. rewrite Hs', Hp'. apply Hd.
Qed.

(** Putting an entry at [p], where no other waits about the same thing. *)
Lemma folding_insert s0 index s p entry :
  folding s0 index s → (p ≤ index)%N →
  is_Some (subject (proposal_event entry)) →
  (∀ m, target (proposal_event entry) = Some m → m ∉ proposal_approvals entry) →
  (∀ q f, pending s !! q = Some f → expired s q index = false →
    subject (proposal_event entry) = subject (proposal_event f) → p = q) →
  folding s0 index (set_pending <[p := entry]> s).
Proof.
  intros [Hr Hg Hs Hc Hp Hd] Hle Hsub Ht Hone. split; [done..| |]; simpl.
  - intros q e [[<- <-]|[_ Hq]]%lookup_insert_Some; eauto.
  - unfold expired in *. simpl.
    intros q r e f [[<- <-]|[_ Hq]]%lookup_insert_Some [[<- <-]|[_ Hr']]%lookup_insert_Some
      Hqi Hri Heq; eauto. symmetry. eauto.
Qed.

Lemma own_approval_target s m ev x : target ev = Some x → x ∉ own_approval s m ev.
Proof.
  unfold own_approval. intros Ht. case_match eqn:E; [|by apply not_elem_of_empty].
  apply andb_true_iff in E as [_ Hx%bool_decide_eq_true]. rewrite elem_of_singleton. congruence.
Qed.

Lemma undecided_subject s m ev :
  submitted ev → decided s ev (own_approval s m ev) = false → is_Some (subject ev).
Proof. destruct ev; simpl; try done; unfold decided, approvals_needed; simpl; eauto. Qed.

Lemma pending_waits s0 index s p entry :
  folding s0 index s → pending s !! p = Some entry → is_Some (subject (proposal_event entry)).
Proof. intros [_ _ _ _ Hp _] Hpe. by destruct (Hp p entry Hpe) as (_ & ? & _). Qed.

Lemma folding_folds s0 index m s ev s' :
  folding s0 index s → is_Some (group s) → folds index m s ev s' → folding s0 index s'.
Proof.
  intros Hf [g Hg] Hstep.
  destruct Hstep as [g' fs gs Hnone | ev s1 Hsp Hsub Hd Hc | ev Hsp Hsub Hd Hnw
    | p entry Hsp Hpe Hma Hd | p entry s1 Hsp Hpe Hma Hd Hc | p entry Hsp Hpe Hprop].
  - congruence.
  - destruct Hsp as (_ & _ & Ha%authorise_authorised).
    apply folding_shrink; [apply map_filter_subseteq|].
    eapply folding_change; eauto using own_approval_target.
  - apply folding_insert; [done..| | |]; simpl; eauto using undecided_subject, own_approval_target.
    intros q f Hq He Heq. destruct (Hnw q). exists f. split_and!; eauto using undecided_subject.
  - pose proof (fold_pending _ _ _ Hf p entry Hpe) as (Hle & Hsome & Ht).
    destruct Hma as (He & Htm & _ & _).
    apply folding_insert; simpl; [done..| |].
    + intros x Hx. rewrite elem_of_union, elem_of_singleton. intros [->|Hin]; [done|].
      by apply (Ht x).
    + intros q f Hq Hqe Heq. eapply (fold_subjects _ _ _ Hf); eauto.
  - pose proof (fold_pending _ _ _ Hf p entry Hpe) as (Hle & Hsome & Ht).
    destruct Hma as (He & Htm & _ & Ha%authorise_authorised).
    apply folding_shrink; [apply map_filter_subseteq|].
    eapply (folding_change _ _ (set_pending (delete p) s)); [|done|done|done|].
    + by apply folding_shrink; [apply delete_subseteq|].
    + intros x Hx. rewrite elem_of_union, elem_of_singleton. intros [->|Hin]; [done|].
      by apply (Ht x).
  - by apply folding_shrink; [apply delete_subseteq|].
Qed.

Lemma close_founded s0 index s :
  folding s0 index s → check (settings s0) = Ok tt → wf_founded (close index s).
Proof.
  intros [Hr Hg Hs Hc Hp Hd] Hck.
  assert (∀ p entry, pending (close index s) !! p = Some entry →
    pending s !! p = Some entry ∧ (index - p < Npos (pending_expiry (settings s)))%N) as Hin.
  { intros p entry [Hpe Hnl]%map_lookup_filter_Some. split; [done|].
    apply Is_true_true in Hnl. by apply bool_decide_eq_true in Hnl. }
  split; [done | by simpl; rewrite Hs | |].
  - intros p entry [Hpe Hlt]%Hin. destruct (Hp p entry Hpe) as (? & ? & ?). by split.
  - intros p q e f [Hpe Hpl]%Hin [Hqf Hql]%Hin.
    apply Hd; [done..| |]; unfold expired; apply bool_decide_eq_false; lia.
Qed.

(** ** Founding *)

Lemma founding_member founders m :
  is_Some (collect_map ((λ f : MemberProfile * NodeAddr,
    (profile_id f.1, record_of f.1 0 FIRST_PROTOCOL)) <$> founders) !! m) ↔
  is_Some (collect_map ((λ f : MemberProfile * NodeAddr, (profile_id f.1, f.2)) <$> founders) !! m).
Proof. rewrite !collect_map_is_Some, <-!list_fmap_compose. done. Qed.

Lemma founding_record founders m r :
  collect_map ((λ f : MemberProfile * NodeAddr,
    (profile_id f.1, record_of f.1 0 FIRST_PROTOCOL)) <$> founders) !! m = Some r →
  member_id r = m ∧ pledge_bytes r = 0%N ∧ protocol_max r = FIRST_PROTOCOL.
Proof. by intros (f & [= -> ->] & _)%collect_map_elem%list_elem_of_fmap. Qed.

Lemma founding_roster g founders founding s :
  founders ≠ [] → roster_of (founding_state g founders founding s).
Proof.
  intros Hne. split; simpl.
  - intros m Hm. apply founding_member in Hm as [r Hr]. exists r. split; [done|].
    apply founding_record in Hr as (_ & _ & ->). done.
  - apply collect_map_nonempty. by destruct founders.
  - intros m r Hr. by apply founding_record in Hr as [].
  - intros m r Hr. apply founding_record in Hr as (_ & ? & _). by left.
Qed.

Lemma founding_closed index g founders founding :
  founders ≠ [] → check founding = Ok tt →
  wf_founded (close index (founding_state g founders founding new_state)).
Proof.
  intros Hne Hck. split; [by apply (founding_roster g founders founding new_state)|done|..].
  - by intros p entry [Hp _]%map_lookup_filter_Some.
  - by intros p q e f [Hp _]%map_lookup_filter_Some.
Qed.

Lemma wf_new : wf new_state.
Proof. done. Qed.

(** ** Every entry keeps [wf] *)

Section wf.
Context `{Crypto}.

Lemma accepts_wf index signed s s' :
  wf s → fresh_index s index → accepts index signed s s' → wf s' ∧ is_Some (group s').
Proof.
  intros Hwf Hfresh (_ & _ & s1 & Hstep & ->). unfold wf in Hwf.
  destruct (group s) as [g|] eqn:Hg.
  - destruct Hfresh as [|Hlt]; [congruence|].
    assert (folding s index s1) as Hf by (eapply folding_folds; eauto using folding_start).
    assert (group s1 = Some g) as Hg1 by (rewrite (fold_group _ _ _ Hf); done).
    unfold wf. simpl. rewrite Hg1. split; [|done].
    apply (close_founded s); [done | apply Hwf].
  - destruct (folds_speaks _ _ _ _ _ Hstep) as [(g & fs & gs & Hev)|[[? ?] _]]; [|congruence].
    rewrite Hev in Hstep. inv_folds Hstep. unfold wf. simpl. split; [|done].
    by apply founding_closed.
Qed.

(** One entry of the log: accepted by a rule, or refused and without
    effect. *)
Lemma apply_entry_cases s index signed :
  (apply index signed s).2 = Ok tt ∧ accepts index signed s (apply_entry s (index, signed))
  ∨ is_ok (apply index signed s).2 = false ∧ apply_entry s (index, signed) = s.
Proof.
  unfold apply_entry. simpl. destruct (apply index signed s) as [s' [[]|e]] eqn:E.
  - left. split; [done|]. by apply apply_spec.
  - right. split; [done|]. by eapply clean_apply.
Qed.

Lemma apply_entry_wf s index signed :
  wf s → fresh_index s index → wf (apply_entry s (index, signed)).
Proof.
  intros Hwf Hi. destruct (apply_entry_cases s index signed) as [[_ Ha]|[_ ->]]; [|done].
  by eapply accepts_wf.
Qed.

(** ** Logs *)

(** What Raft guarantees of a log: its indexes strictly increase. *)
Definition indexed (log : list (N * SignedEvent)) : Prop := StronglySorted N.lt log.*1.

Lemma indexed_snoc log index signed :
  indexed (log ++ [(index, signed)]) ↔
  indexed log ∧ ∀ j, j ∈ log.*1 → (j < index)%N.
Proof.
  unfold indexed. rewrite fmap_app. simpl. split.
  - intros Hs. apply StronglySorted_app in Hs as (Hall & Hs & _). split; [done|].
    intros j Hj. apply (Hall j index); [done|]. by apply list_elem_of_singleton.
  - intros [Hs Hall]. apply StronglySorted_app. split_and!; [|done|repeat constructor].
    intros x y Hx ->%list_elem_of_singleton. by apply Hall.
Qed.

Lemma fold_log_snoc log index signed :
  fold_log (log ++ [(index, signed)]) = apply_entry (fold_log log) (index, signed).
Proof. unfold fold_log. by rewrite foldl_app. Qed.

Lemma apply_entry_changed_at s index signed :
  changed_at (apply_entry s (index, signed)) = index ∨ apply_entry s (index, signed) = s.
Proof.
  destruct (apply_entry_cases s index signed) as [[_ Ha]|[_ ->]]; [|auto].
  destruct Ha as (_ & _ & s1 & _ & Hs). left. by rewrite Hs.
Qed.

Lemma fold_log_changed_at log :
  fold_log log = new_state ∨ changed_at (fold_log log) ∈ log.*1.
Proof.
  induction log as [|[index signed] log IH] using rev_ind; [by left|].
  rewrite fold_log_snoc, fmap_app, elem_of_app.
  destruct (apply_entry_changed_at (fold_log log) index signed) as [-> | ->].
  - right. right. by apply list_elem_of_singleton.
  - destruct IH; auto.
Qed.

Lemma fold_log_fresh log index signed :
  indexed (log ++ [(index, signed)]) → fresh_index (fold_log log) index.
Proof.
  intros [_ Hlt]%indexed_snoc. unfold fresh_index.
  destruct (fold_log_changed_at log) as [->|Hin]; [by left | right; by apply Hlt].
Qed.

Lemma fold_log_wf log : indexed log → wf (fold_log log).
Proof.
  induction log as [|[index signed] log IH] using rev_ind; [done|].
  intros Hi. rewrite fold_log_snoc. apply apply_entry_wf; [|by eapply fold_log_fresh].
  apply IH. by apply indexed_snoc in Hi as [? _].
Qed.
End wf.

(** ** Who said what: every decision attributed to signed entries of the log

    A proposal's record names its proposer and the members that approved it.
    [attributed] says each of those is a signed entry of the log;
    [decision_attributed] that every change of the roster is a decision
    enough core members backed with entries of their own. *)

(** What a decision can change of the roster. *)
Definition same_roster s s' : Prop :=
  members s' = members s ∧ core s' = core s ∧ protocol s' = protocol s.

(** [ev] was decided by [A] in [s], which made the roster that of [s']. *)
Definition enacted s ev (A : gset MemberId) s' : Prop :=
  decided s ev A = true ∧ authorised s ev ∧ (∀ m, target ev = Some m → m ∉ A) ∧
  ∃ s1, changes s ev s1 ∧ same_roster s1 s'.

(** Changes read nothing of the pending proposals. *)
Lemma changes_set_pending f s ev s1 :
  changes (set_pending f s) ev s1 → ∃ s2, changes s ev s2 ∧ same_roster s2 s1.
Proof.
  inversion 1; simplify_eq/=;
    eexists; (split; [econstructor; eauto | by split_and!]).
Qed.

Lemma wf_own_target s p entry :
  wf_founded s → pending s !! p = Some entry →
  ∀ m, target (proposal_event entry) = Some m → m ∉ proposal_approvals entry.
Proof. intros Hwf Hp. by destruct (wf_pending _ Hwf _ _ Hp). Qed.

Lemma elem_of_with_approver m (A : gset MemberId) x : x ∈ {[m]} ∪ A ↔ x = m ∨ x ∈ A.
Proof. set_solver. Qed.

(** What one folded event does to the roster: nothing, or what a decision
    about it or about the proposal it approves does. *)
Lemma folds_roster index m s ev s' :
  wf_founded s → is_Some (group s) → folds index m s ev s' →
  same_roster s s' ∨
  (submitted ev ∧ enacted s ev (own_approval s m ev) s') ∨
  (∃ p entry, ev = Approved p ∧ pending s !! p = Some entry ∧ may_approve s index p entry m ∧
    enacted s (proposal_event entry) ({[m]} ∪ proposal_approvals entry) s').
Proof.
  intros Hwf [g Hg] Hstep.
  destruct Hstep as [g' fs gs Hnone | ev s1 Hsp Hsub Hd Hc | ev Hsp Hsub Hd Hnw
    | p entry Hsp Hpe Hma Hd | p entry s1 Hsp Hpe Hma Hd Hc | p entry Hsp Hpe Hprop];
    [congruence| | by left | by left | | by left]; right.
  - left. destruct Hsp as (_ & _ & Ha%authorise_authorised). split; [done|].
    split_and!; eauto using own_approval_target. exists s1. by split_and!.
  - right. exists p, entry. split_and!; [done..|].
    pose proof Hma as (_ & Ht & _ & Ha%authorise_authorised).
    split_and!; [done..| |].
    + intros x Hx [->|Hin]%elem_of_with_approver; [done|]. by eapply wf_own_target.
    + apply changes_set_pending in Hc as (s2 & Hc & Hsame). exists s2. split; [done|].
      unfold same_roster, drop_superseded in *. simpl. naive_solver.
Qed.

Section attribution.
Context `{Crypto}.
Implicit Types (log : list (N * SignedEvent)).

(** [m] signed [ev], and the log holds it at [index]. *)
Definition said log m (index : N) ev : Prop :=
  ∃ signed, (index, signed) ∈ log ∧ verify signed = Ok tt ∧
            signed_proposer signed = m ∧ signed_event signed = ev.

(** [m] is behind the proposal at [p]: they proposed it or approved it. *)
Definition backs log p ev m : Prop :=
  said log m p ev ∨ ∃ index, said log m index (Approved p).

Definition attributed log s : Prop :=
  ∀ p entry, pending s !! p = Some entry →
    said log (proposal_proposer entry) p (proposal_event entry) ∧
    ∀ m, m ∈ proposal_approvals entry → backs log p (proposal_event entry) m.

Lemma said_mono log log' m index ev : log ⊆ log' → said log m index ev → said log' m index ev.
Proof. intros Hsub (signed & Hin & ?). exists signed. split; [by apply Hsub | done]. Qed.

Lemma backs_mono log log' p ev m : log ⊆ log' → backs log p ev m → backs log' p ev m.
Proof. intros Hsub [?|[i ?]]; [left | right; exists i]; by eapply said_mono. Qed.

Lemma attributed_mono log log' s : log ⊆ log' → attributed log s → attributed log' s.
Proof.
  intros Hsub Ha p entry Hp. destruct (Ha p entry Hp).
  split; eauto using said_mono, backs_mono.
Qed.

Lemma attributed_shrink log s s' : pending s' ⊆ pending s → attributed log s → attributed log s'.
Proof. intros Hsub Ha p entry Hp. eapply Ha, lookup_weaken; eauto. Qed.

Lemma attributed_insert log s p entry :
  attributed log s →
  said log (proposal_proposer entry) p (proposal_event entry) →
  (∀ m, m ∈ proposal_approvals entry → backs log p (proposal_event entry) m) →
  attributed log (set_pending <[p := entry]> s).
Proof.
  intros Ha Hs Hb q e. simpl. intros [[<- <-]|[_ Hq]]%lookup_insert_Some; [done|].
  by apply Ha.
Qed.

Lemma folds_attributed log index signed s s' :
  attributed log s → (index, signed) ∈ log → verify signed = Ok tt →
  folds index (signed_proposer signed) s (signed_event signed) s' → attributed log s'.
Proof.
  intros Ha Hin Hv Hstep.
  assert (said log (signed_proposer signed) index (signed_event signed)) as Hsaid
    by (by exists signed).
  revert Hsaid. destruct Hstep as [g' fs gs Hnone | ev s1 Hsp Hsub Hd Hc | ev Hsp Hsub Hd Hnw
    | p entry Hsp Hpe Hma Hd | p entry s1 Hsp Hpe Hma Hd Hc | p entry Hsp Hpe Hprop];
    intros Hsaid.
  - done.
  - apply (attributed_shrink _ s); [|done]. simpl.
    etrans; [apply map_filter_subseteq|]. by destruct (changes_keep _ _ _ Hc) as (_ & _ & _ & ->).
  - apply attributed_insert; [done..|]. simpl. unfold own_approval. case_match; [|set_solver].
    intros m ->%elem_of_singleton. by left.
  - destruct (Ha p entry Hpe) as [Hs Hb]. apply attributed_insert; [done..|]. simpl.
    intros x [->|Hx]%elem_of_with_approver; [right; eauto | eauto].
  - apply (attributed_shrink _ s); [|done]. simpl.
    etrans; [apply map_filter_subseteq|]. destruct (changes_keep _ _ _ Hc) as (_ & _ & _ & ->).
    apply delete_subseteq.
  - apply (attributed_shrink _ s); [apply delete_subseteq | done].
Qed.

Lemma snoc_subset log e : log ⊆ log ++ [e].
Proof. set_solver. Qed.

Lemma fold_log_attributed log : attributed log (fold_log log).
Proof.
  induction log as [|[index signed] log IH] using rev_ind; [by intros ???|].
  rewrite fold_log_snoc. apply (attributed_mono log (log ++ [(index, signed)])) in IH; [|apply snoc_subset].
  destruct (apply_entry_cases (fold_log log) index signed) as [[_ Ha]|[_ ->]]; [|done].
  destruct Ha as (Hv & _ & s1 & Hstep & Hs). rewrite Hs.
  apply (attributed_shrink _ s1); [apply map_filter_subseteq|].
  eapply folds_attributed; [done| |done|done]. set_solver.
Qed.

(** The decision behind a change of the roster: what was decided, which
    entry put it to the group, and who is counted. *)
Record decision log s s' (p : N) ev (voters : gset MemberId) : Prop := {
  dec_enough : approvals_needed s ev ≤ size voters;
  dec_core : voters ⊆ dom (core s);
  dec_said : ∃ m, said log m p ev;
  dec_backs : ∀ m, m ∈ voters → backs log p ev m;
  dec_target : ∀ m, target ev = Some m → m ∉ voters;
  dec_authorised : authorised s ev;
  dec_changes : ∃ s1, changes s ev s1 ∧ same_roster s1 s';
}.

Lemma enacted_decision log s s' p ev A m0 :
  enacted s ev A s' → said log m0 p ev → (∀ m, m ∈ A → backs log p ev m) →
  decision log s s' p ev (counting s A).
Proof.
  intros (Hd%decided_true & Ha & Ht & Hc) Hs Hb. split; eauto using counting_core.
  - intros m [Hm _]%elem_of_counting. auto.
  - intros m Htm [Hm _]%elem_of_counting. by apply (Ht m).
Qed.

(** Every change of the roster of a founded group is such a decision. *)
Lemma roster_decided log index signed :
  indexed (log ++ [(index, signed)]) → is_Some (group (fold_log log)) →
  let s := fold_log log in
  let s' := fold_log (log ++ [(index, signed)]) in
  ¬ same_roster s s' →
  ∃ p ev voters, decision (log ++ [(index, signed)]) s s' p ev voters.
Proof.
  intros Hi [g Hg] s s' Hne. subst s'. rewrite fold_log_snoc in *. fold s in Hne |- *.
  destruct (apply_entry_cases s index signed) as [[_ Ha]|[_ Hs]];
    [|rewrite Hs in Hne; by destruct Hne].
  destruct Ha as (Hv & _ & s1 & Hstep & Hs). rewrite Hs in Hne |- *.
  assert (wf_founded s) as Hwf.
  { apply indexed_snoc in Hi as [Hi _]. apply fold_log_wf in Hi. unfold wf in Hi.
    by rewrite Hg in Hi. }
  assert (said (log ++ [(index, signed)]) (signed_proposer signed) index (signed_event signed))
    as Hsaid by (exists signed; set_solver).
  pose proof (folds_roster _ _ _ _ _ Hwf (mk_is_Some _ _ Hg) Hstep)
    as [Hsame | [[_ Hen] | (p & entry & Hev & Hpe & Hma & Hen)]]; [done| |].
  - exists index, (signed_event signed), (counting s (own_approval s (signed_proposer signed)
      (signed_event signed))).
    eapply enacted_decision; [exact Hen | done |].
    unfold own_approval. case_match; [|set_solver].
    intros m ->%elem_of_singleton. by left.
  - destruct (fold_log_attributed log p entry Hpe) as [Hs0 Hb].
    eexists p, (proposal_event entry), _. eapply enacted_decision; [exact Hen | |].
    + eapply said_mono; [apply snoc_subset | done].
    + intros x [->|Hx]%elem_of_with_approver; [right; exists index; by rewrite <-Hev|].
      eapply backs_mono; [apply snoc_subset | auto].
Qed.
End attribution.
