(* ===== verification/Fixtures.v ===== *)
(** * Concrete instances the witnesses evaluate on

    A toy signature scheme, in which a signature names its signer and carries
    what was signed, and a small group of members and their devices. *)

From S2P Require Import Prelude Ids GroupSettings Events Membership.

(** Who a number is, as a member. *)
Definition member (n : N) : MemberId := MkMemberId (id32 n).

#[export] Instance test_crypto : Crypto := {|
  SecretKey := N;
  Signature := MemberId * list N;
  public := member;
  sign_bytes k b := (member k, b);
  verify_bytes m b sig := bool_decide (sig = (m, b));
  postcard_event _ _ at_ changed_at := Ok [as_millis at_; changed_at];
  blake3 b := id32 (sumN b);
|}.

Definition profile (n : N) : MemberProfile := {| profile_id := member n; profile_name := "m" |}.
Definition addr : NodeAddr := {| relay := Some "https://relay.example"; direct := ∅ |}.
Definition founder (n : N) : MemberProfile * NodeAddr := (profile n, addr).

(** [n]'s signed entry, made against the membership changed at [seen]. *)
Definition signed_by (n seen : N) (ev : MembershipEvent) : SignedEvent :=
  match sign n ev (MkTimestamp 1) seen with
  | Ok signed => signed
  | Err _ => MkSignedEvent ev (member n) (MkTimestamp 1) seen (member n, [])
  end.

(** A group of the first [n] members, all core, its founding at index 1. *)
Definition the_group : GroupId := MkGroupId (id32 7).
Definition found_by (ns : list N) : SignedEvent :=
  signed_by 1 0 (GroupFounded the_group (founder <$> ns) default_settings).
Definition base_log (ns : list N) : list (N * SignedEvent) := [(1%N, found_by ns)].
