(* ===== verification/MembershipProps.v ===== *)
(** * The properties of the projection

    Each theorem is about [apply] or the fold of a whole log. The witnesses
    evaluate them on the logs of a small group. *)

From S2P Require Import Prelude Ids GroupSettings Events Membership MembershipSpec MembershipInv Fixtures.

Implicit Types (s : MembershipState) (m : MemberId) (ev : MembershipEvent).

(** ** Logs of a small group *)

(** Member 1 proposes expelling 2, and 3 approves. *)
Definition proposed_log : list (N * SignedEvent) :=
  base_log [1; 2; 3]%N ++ [(2%N, signed_by 1 1 (MemberExpelled (member 2) "spam"))].
Definition approval : SignedEvent := signed_by 3 2 (Approved 2).

(** Member 4 asks for 5 to be let in, being no core member. *)
Definition admitted_log : list (N * SignedEvent) :=
  base_log [1; 2; 3]%N ++ [(2%N, signed_by 1 1 (MemberAdded (profile 4)))].
Definition request_log : list (N * SignedEvent) :=
  admitted_log ++ [(3%N, signed_by 4 2 (MemberAdded (profile 5)))].
Definition pledged_log : list (N * SignedEvent) :=
  admitted_log ++ [(5%N, signed_by 4 2 (PledgeChanged (member 4) (200 * GB)))].

(** Closes [indexed log] for a concrete log. *)
Ltac prove_indexed := unfold indexed; cbn; repeat constructor; lia.

(** ** The properties *)

(** C1: folding an entry implements the rules of the membership exactly: an
    entry is accepted when some rule allows it, with the state that rule
    gives, and a refused entry is one no rule allows and leaves the state as
    it was. *)
Theorem apply_refines_rules `{Crypto} (index : N) (signed : SignedEvent) s :
  match apply index signed s with
  | (s', Ok _) => accepts index signed s s'
  | (s', Err _) => s' = s ∧ ∀ s'', ¬ accepts index signed s s''
  end.
Proof.
  destruct (apply index signed s) as [s' [[]|e]] eqn:E; [by apply apply_spec|].
  split; [by eapply clean_apply|]. intros s'' Ha%apply_spec. congruence.
Qed.

(** C2: every log whose indexes increase folds into a well-formed
    membership: nothing before founding, and after it a core group that is
    not empty, is made of members, and speaks the group's protocol, pledges
    that are none or at least the minimum, and waiting proposals that are
    not expired, are about different things, and are never approved by
    whoever they expel. *)
Theorem fold_log_invariant `{Crypto} (log : list (N * SignedEvent)) (Hi : indexed log) :
  wf (fold_log log).
Proof. by apply fold_log_wf. Qed.

Lemma fold_log_invariant_witness :
  wf (fold_log proposed_log) ∧ size (pending (fold_log proposed_log)) = 1.
Proof. split; [apply fold_log_invariant; prove_indexed | vm_compute; reflexivity]. Defined.

(** A change of who is in the core group is one of the voters. *)
Lemma changes_voters s ev s1 :
  changes s ev s1 → dom (core s1) ≠ dom (core s) → changes_the_voters s ev = true.
Proof.
  destruct 1 as [| | m reason Hm | | proposed Hne Hnd Hmem Hsp | |]; simpl; intros Hc;
    try done.
  - apply is_core_true. destruct (core s !! m) eqn:E; [done|]. by rewrite delete_id in Hc.
  - destruct (bool_decide (length proposed ≠ size (core s))) eqn:Hl; [done|]. simpl.
    apply bool_decide_eq_false, dec_stable in Hl. apply size_collect_map_eq in Hnd as Hsz.
    destruct (existsb _ _) eqn:Hex; [done|]. destruct Hc. apply set_eq_subseteq.
    assert (dom (collect_map proposed) ⊆ dom (core s)) as Hsub.
    { intros m Hm. rewrite elem_of_dom, collect_map_is_Some in Hm.
      apply list_elem_of_fmap in Hm as (e & -> & He). rewrite elem_of_dom. apply is_core_true.
      apply not_false_iff_true. intros Hf. apply not_true_iff_false in Hex. apply Hex.
      apply List.existsb_exists. exists e. split; [by apply list_elem_of_In|]. by rewrite Hf. }
    split; [done|]. apply set_subseteq_size_eq in Hsub; [by rewrite Hsub|].
    rewrite !size_dom. lia.
Qed.

(** C3: who is in the core group changes only by a majority of it: behind
    every such change there is a proposal on the log and distinct core
    members, more than half, each of whom signed an entry of the log
    proposing or approving it, none of them the one it expels. *)
Theorem core_changes_by_majority `{Crypto} (log : list (N * SignedEvent))
    (index : N) (signed : SignedEvent)
    (Hi : indexed (log ++ [(index, signed)])) (Hf : is_Some (group (fold_log log)))
    (Hc : dom (core (fold_log (log ++ [(index, signed)]))) ≠ dom (core (fold_log log))) :
  ∃ p ev voters,
    decision (log ++ [(index, signed)]) (fold_log log) (fold_log (log ++ [(index, signed)]))
      p ev voters ∧
    size (core (fold_log log)) < 2 * size voters.
Proof.
  destruct (roster_decided log index signed Hi Hf) as (p & ev & voters & Hd).
  { intros (_ & Heq & _). by rewrite Heq in Hc. }
  exists p, ev, voters. split; [done|]. destruct Hd as [Hn _ _ _ _ _ (s1 & Hch & _ & Hco & _)].
  rewrite Hco in Hc. apply (changes_voters _ _ _ Hch) in Hc.
  unfold approvals_needed in Hn. rewrite Hc in Hn.
  pose proof (Nat.div2_odd (size (core (fold_log log)))) as Hodd.
  destruct ev; simpl in Hc; try done; destruct (Nat.odd _); simpl in Hodd; lia.
Qed.

Lemma core_changes_by_majority_witness :
  ∃ p ev voters,
    decision (proposed_log ++ [(3%N, approval)]) (fold_log proposed_log)
      (fold_log (proposed_log ++ [(3%N, approval)])) p ev voters ∧
    size (core (fold_log proposed_log)) < 2 * size voters.
Proof.
  refine (core_changes_by_majority proposed_log 3 approval _ _ _);
    [prove_indexed | by_decision | by_decision].
Defined.

(** What an enacted change does to one member's record. *)
Lemma changes_member s ev s1 m :
  changes s ev s1 →
  (is_Some (members s1 !! m) ↔ is_Some (members s !! m)) ∨
  (∃ profile, ev = MemberAdded profile ∧ profile_id profile = m ∧
     members s1 !! m = Some (record_of profile 0 FIRST_PROTOCOL)) ∨
  (∃ reason, ev = MemberExpelled m reason ∧ members s1 !! m = None).
Proof.
  destruct 1 as [p Hm | p had Hm | m' reason Hm | m' pledge r Hm | proposed Hpne Hnd Hmem Hsp
    | m' max r Hm | to]; simpl; try by left.
  - destruct (decide (profile_id p = m)) as [<-|Hne].
    + right. left. exists p. by rewrite lookup_insert_eq.
    + left. by rewrite lookup_insert_ne.
  - left. rewrite lookup_insert_is_Some'. naive_solver.
  - destruct (decide (m' = m)) as [->|Hne].
    + right. right. exists reason. by rewrite lookup_delete_eq.
    + left. by rewrite lookup_delete_ne.
  - left. rewrite lookup_insert_is_Some'. naive_solver.
  - left. rewrite lookup_insert_is_Some'. naive_solver.
Qed.

Lemma decision_voter `{Crypto} log s s' p ev voters :
  decision log s s' p ev voters → subject ev ≠ None →
  ∃ voter, voter ∈ voters ∧ is_Some (core s !! voter) ∧ backs log p ev voter ∧
           target ev ≠ Some voter.
Proof.
  intros [Hn Hco _ Hb Ht _ _] Hsub.
  destruct (decide (voters = ∅)) as [->|[v Hv]%set_choose_L].
  - rewrite size_empty in Hn. pose proof (approvals_needed_pos s ev Hsub) as Hpos.
    by apply (Nat.le_trans _ _ _ Hpos), Nat.nle_succ_0 in Hn.
  - exists v. split_and!; [done | by apply elem_of_dom, Hco | auto|].
    intros Hx. by apply (Ht v).
Qed.

(** nobody becomes a member of a founded group but by being proposed on
    the log and backed there by a core member; they start with no pledge and
    outside the core group. *)
Theorem admission_backed_by_core `{Crypto} (log : list (N * SignedEvent))
    (index : N) (signed : SignedEvent) m (r : MemberRecord)
    (Hi : indexed (log ++ [(index, signed)])) (Hf : is_Some (group (fold_log log)))
    (Hwas : members (fold_log log) !! m = None)
    (Hnow : members (fold_log (log ++ [(index, signed)])) !! m = Some r) :
  pledge_bytes r = 0%N ∧ core (fold_log (log ++ [(index, signed)])) !! m = None ∧
  ∃ profile p voter, profile_id profile = m ∧ is_Some (core (fold_log log) !! voter) ∧
    backs (log ++ [(index, signed)]) p (MemberAdded profile) voter.
Proof.
  destruct (roster_decided log index signed Hi Hf) as (p & ev & voters & Hd).
  { intros (Heq & _). congruence. }
  pose proof Hd as [_ _ _ _ _ _ (s1 & Hch & Hms & Hco & _)].
  destruct (changes_member _ _ _ m Hch) as [[Hmem _] | [(pr & -> & <- & Hr) | (? & _ & Hr)]].
  - rewrite <-Hms, Hnow, Hwas in Hmem. destruct Hmem as [? [=]]. eauto.
  - rewrite <-Hms, Hnow in Hr. injection Hr as ->. split; [done|].
    destruct (decision_voter _ _ _ _ _ _ Hd) as (v & _ & Hv & Hb & _); [done|].
    split; [|by exists pr, p, v]. rewrite Hco. inversion Hch; subst; simpl.
    + apply eq_None_not_Some. intros Hin.
      apply indexed_snoc in Hi as [Hi _]. apply fold_log_wf in Hi. unfold wf in Hi.
      destruct Hf as [g Hg]. rewrite Hg in Hi.
      destruct (wfr_core _ _ _ _ (wf_roster_ok _ Hi) _ Hin) as (? & ? & _). congruence.
    + congruence.
  - congruence.
Qed.

Lemma admission_backed_by_core_witness :
  ∃ r, pledge_bytes r = 0%N ∧ 
  core (fold_log (request_log ++ [(4%N, signed_by 2 3 (Approved 3))])) !! member 5 = None ∧
  ∃ pr p voter, profile_id pr = member 5 ∧ is_Some (core (fold_log request_log) !! voter) ∧
    backs (request_log ++ [(4%N, signed_by 2 3 (Approved 3))]) p (MemberAdded pr) voter.
Proof.
  eexists.
  refine (admission_backed_by_core request_log 4 (signed_by 2 3 (Approved 3)) (member 5)
    (record_of (profile 5) 0 FIRST_PROTOCOL) _ _ _ _);
    [prove_indexed | by_decision | by_decision | by_decision].
Defined.

(** C4: nobody loses their membership but by an expulsion proposed on the
    log and backed there by a core member other than themselves; a voter is
    expelled only by a majority, and two voters are left. *)
Theorem expulsion_backed_by_others `{Crypto} (log : list (N * SignedEvent))
    (index : N) (signed : SignedEvent) m
    (Hi : indexed (log ++ [(index, signed)])) (Hf : is_Some (group (fold_log log)))
    (Hwas : is_Some (members (fold_log log) !! m))
    (Hnow : members (fold_log (log ++ [(index, signed)])) !! m = None) :
  ∃ reason p voters,
    decision (log ++ [(index, signed)]) (fold_log log) (fold_log (log ++ [(index, signed)]))
      p (MemberExpelled m reason) voters ∧
    m ∉ voters ∧ voters ≠ ∅ ∧
    (is_Some (core (fold_log log) !! m) →
     size (core (fold_log log)) < 2 * size voters ∧
     2 ≤ size (core (fold_log (log ++ [(index, signed)])))).
Proof.
  destruct (roster_decided log index signed Hi Hf) as (p & ev & voters & Hd).
  { intros (Heq & _). rewrite <-Heq, Hnow in Hwas. by destruct Hwas. }
  pose proof Hd as [Hn Hsub _ _ Ht _ (s1 & Hch & Hms & Hco & _)].
  destruct (changes_member _ _ _ m Hch) as [[_ Hmem] | [(pr & -> & <- & Hr) | (reason & -> & Hr)]].
  - destruct (Hmem Hwas) as [? Hx]. congruence.
  - congruence.
  - exists reason, p, voters. split; [done|]. specialize (Ht m eq_refl).
    split; [done|]. split.
    { destruct (decision_voter _ _ _ _ _ _ Hd) as (v & Hv & _); [done|]. set_solver. }
    simpl in Hn.
    intros Hcore. rewrite (proj2 (is_core_true _ _) Hcore) in Hn. rewrite Hco.
    assert (size (core s1) = pred (size (core (fold_log log)))) as ->.
    { inversion Hch; subst; simpl. rewrite map_size_delete. by destruct Hcore as [? ->]. }
    assert (S (size voters) ≤ size (core (fold_log log))) as Hlt.
    { rewrite <-(size_dom (core (fold_log log))).
      assert (voters ⊆ dom (core (fold_log log)) ∖ {[m]}) as Hle%subseteq_size by set_solver.
      rewrite size_remove_elem in Hle by by apply elem_of_dom.
      assert (size (dom (core (fold_log log))) ≠ 0); [|lia].
      apply elem_of_dom in Hcore. intros ?%size_empty_inv. set_solver. }
    pose proof (Nat.div2_odd (size (core (fold_log log)))) as Hodd.
    destruct (Nat.odd _); simpl in Hodd; lia.
Qed.

Lemma expulsion_backed_by_others_witness :
  ∃ reason p voters,
    decision (proposed_log ++ [(3%N, approval)]) (fold_log proposed_log)
      (fold_log (proposed_log ++ [(3%N, approval)])) p (MemberExpelled (member 2) reason) voters ∧
    member 2 ∉ voters ∧ voters ≠ ∅ ∧
    (is_Some (core (fold_log proposed_log) !! member 2) →
     size (core (fold_log proposed_log)) < 2 * size voters ∧
     2 ≤ size (core (fold_log (proposed_log ++ [(3%N, approval)])))).
Proof.
  refine (expulsion_backed_by_others proposed_log 3 approval (member 2) _ _ _ _);
    [prove_indexed | by_decision | by_decision | by_decision].
Defined.

Lemma fold_log_founded `{Crypto} log g :
  indexed log → group (fold_log log) = Some g → wf_founded (fold_log log).
Proof. intros Hi%fold_log_wf Hg. unfold wf in Hi. by rewrite Hg in Hi. Qed.

(** One accepted entry of a founded group, as the rule that allowed it. *)
Lemma apply_entry_folds `{Crypto} s index signed :
  is_Some (group s) →
  apply_entry s (index, signed) = s ∨
  ∃ s1, verify signed = Ok tt ∧ signed_changed_at signed = changed_at s ∧
        may_speak s (signed_proposer signed) (signed_event signed) ∧
        folds index (signed_proposer signed) s (signed_event signed) s1 ∧
        apply_entry s (index, signed) = close index s1.
Proof.
  intros [g Hg]. destruct (apply_entry_cases s index signed) as [[_ Ha]|[_ ->]]; [|by left].
  right. destruct Ha as (Hv & Hc & s1 & Hstep & Heq). exists s1. split_and!; try done.
  destruct (folds_speaks _ _ _ _ _ Hstep) as [(? & ? & ? & Hev)|]; [|done].
  rewrite Hev in Hstep. inv_folds Hstep; congruence.
Qed.

(** The pledge of a member who stays one is changed by [PledgeChanged] only. *)
Lemma changes_pledge s ev s1 m r r1 :
  changes s ev s1 → members s !! m = Some r → members s1 !! m = Some r1 →
  pledge_bytes r1 ≠ pledge_bytes r → ev = PledgeChanged m (pledge_bytes r1).
Proof.
  intros Hch Hr Hr1 Hne.
  destruct Hch as [p Hm | p had Hm | m' reason Hm | m' pledge r' Hm | proposed Hpne Hnd Hmem Hsp
    | m' max r' Hm | to]; simpl in *;
    rewrite ?lookup_insert, ?lookup_delete in Hr1; repeat case_decide; by simplify_eq/=.
Qed.

(** a member's pledge changes only by an entry they signed themselves,
    naming the new pledge, which is at least the group's minimum. *)
Theorem pledge_changed_by_owner `{Crypto} (log : list (N * SignedEvent))
    (index : N) (signed : SignedEvent) m (r r' : MemberRecord)
    (Hi : indexed (log ++ [(index, signed)]))
    (Hwas : members (fold_log log) !! m = Some r)
    (Hnow : members (fold_log (log ++ [(index, signed)])) !! m = Some r')
    (Hne : pledge_bytes r' ≠ pledge_bytes r) :
  signed_proposer signed = m ∧ signed_event signed = PledgeChanged m (pledge_bytes r') ∧
  verify signed = Ok tt ∧
  (min_pledge_bytes (settings (fold_log log)) ≤ pledge_bytes r')%N.
Proof.
  rewrite fold_log_snoc in Hnow. apply indexed_snoc in Hi as [Hwf%fold_log_wf _].
  revert Hwas Hnow Hwf. generalize (fold_log log). intros s Hwas Hnow Hwf. unfold wf in Hwf.
  destruct (group s) as [g|] eqn:Hg; [|by rewrite Hwf in Hwas].
  destruct (apply_entry_folds s index signed) as [Heq | (s1 & Hv & _ & Hsp & Hstep & Heq)];
    [done | rewrite Heq in Hnow; by simplify_eq|]. rewrite Heq in Hnow. simpl in Hnow.
  destruct (folds_roster _ _ _ _ _ Hwf (mk_is_Some _ _ Hg) Hstep) as [[Hsame _] | [(Hsub & Hen)
    | (p & entry & Hev & Hpe & _ & Hen)]]; [rewrite Hsame in Hnow; by simplify_eq|..];
    destruct Hen as (_ & Ha & _ & s2 & Hch & Hms & _); rewrite Hms in Hnow.
  - pose proof (changes_pledge _ _ _ _ _ _ Hch Hwas Hnow Hne) as Hev.
    rewrite Hev in Ha, Hsp. destruct Hsp as (_ & _ & Hau). simpl in Hau.
    case_bool_decide; [done|]. split_and!; [congruence|done..].
  - pose proof (changes_pledge _ _ _ _ _ _ Hch Hwas Hnow Hne) as He.
    destruct (wfp_subject _ _ _ _ (wf_pending _ Hwf _ _ Hpe)) as [? Hs]. by rewrite He in Hs.
Qed.

Lemma pledge_changed_by_owner_witness :
  let signed := signed_by 4 2 (PledgeChanged (member 4) (200 * GB)) in
  signed_proposer signed = member 4 ∧
  signed_event signed = PledgeChanged (member 4) (200 * GB) ∧ verify signed = Ok tt ∧
  (min_pledge_bytes (settings (fold_log admitted_log)) ≤ 200 * GB)%N.
Proof.
  refine (pledge_changed_by_owner admitted_log 5 (signed_by 4 2 (PledgeChanged (member 4) (200 * GB)))
    (member 4) (record_of (profile 4) 0 FIRST_PROTOCOL)
    (record_of (profile 4) (200 * GB) FIRST_PROTOCOL) _ _ _ _);
    [prove_indexed | by_decision | by_decision | by_decision].
Defined.

(** What an entry leaves as founding set it. *)
Lemma apply_entry_settled `{Crypto} s entry g :
  group s = Some g →
  group (apply_entry s entry) = Some g ∧ settings (apply_entry s entry) = settings s.
Proof.
  destruct entry as [index signed]. intros Hg.
  destruct (apply_entry_folds s index signed) as [-> | (s1 & _ & _ & _ & Hstep & ->)]; [done..|].
  simpl. destruct Hstep as [? ? ? Hn | ? s2 _ _ _ Hc | | | ? ? s2 _ _ _ _ Hc |];
    simpl; try done; [congruence|..];
    destruct (changes_keep _ _ _ Hc) as (-> & -> & _); done.
Qed.

(** A group is founded once: no later entry of the log changes which
    group it is or what it settled at founding. *)
Theorem founding_is_final `{Crypto} (log rest : list (N * SignedEvent)) (g : GroupId)
    (Hg : group (fold_log log) = Some g) :
  group (fold_log (log ++ rest)) = Some g ∧
  settings (fold_log (log ++ rest)) = settings (fold_log log).
Proof.
  induction rest as [|[index signed] rest IH] using rev_ind; [by rewrite app_nil_r|].
  rewrite (assoc_L (++)), fold_log_snoc. destruct IH as [IHg IHs].
  destruct (apply_entry_settled _ (index, signed) _ IHg) as [? ->]. by rewrite IHs.
Qed.

Lemma founding_is_final_witness :
  let log := base_log [1; 2; 3]%N in
  let rest := [(2%N, signed_by 2 1 (GroupFounded (MkGroupId (id32 9)) [founder 2] default_settings))] in
  group (fold_log (log ++ rest)) = Some the_group ∧
  settings (fold_log (log ++ rest)) = settings (fold_log log).
Proof. refine (founding_is_final _ _ the_group _). by_decision. Defined.

(** After an entry at [index], the membership is never again the one any
    earlier entry was made against. *)
Lemma apply_entry_changed_ge `{Crypto} s index signed n :
  (n ≤ changed_at s)%N → (n ≤ index)%N → (n ≤ changed_at (apply_entry s (index, signed)))%N.
Proof. intros. destruct (apply_entry_changed_at s index signed) as [-> | ->]; done. Qed.

Lemma foldl_changed_ge `{Crypto} log s n :
  (n ≤ changed_at s)%N → Forall (λ e, (n ≤ e.1)%N) log →
  (n ≤ changed_at (foldl apply_entry s log))%N.
Proof.
  revert s. induction log as [|[index signed] log IH]; [done|].
  intros s Hn [Hi Hf]%Forall_cons. simpl in *. apply IH; [|done].
  by apply apply_entry_changed_ge.
Qed.

(** an entry is folded in once: an accepted signed event committed again
    later, whatever comes in between, is refused as stale. *)
Theorem no_replay `{Crypto} (log mid : list (N * SignedEvent)) (i j : N) (signed : SignedEvent)
    (Hi : indexed (log ++ [(i, signed)] ++ mid ++ [(j, signed)]))
    (Hfounded : fold_log log ≠ new_state)
    (Hok : is_ok (apply i signed (fold_log log)).2 = true) :
  ∃ current, (apply j signed (fold_log (log ++ [(i, signed)] ++ mid))).2 =
    Err (StaleProposal (signed_changed_at signed) current).
Proof.
  assert (indexed (log ++ [(i, signed)])) as Hi1.
  { unfold indexed in *. rewrite (assoc_L (++)), fmap_app in Hi.
    by apply StronglySorted_app in Hi as (_ & ? & _). }
  pose proof (fold_log_fresh _ _ _ Hi1) as Hfresh.
  destruct (apply_entry_cases (fold_log log) i signed) as [[_ Ha]|[Hno _]]; [|congruence].
  destruct Ha as (Hv & Hseen & s1 & Hstep & Hs).
  assert (signed_changed_at signed < i)%N as Hlt.
  { apply indexed_snoc in Hi1 as [_ Hlt]. rewrite Hseen. apply Hlt.
    by destruct (fold_log_changed_at log). }
  assert (i ≤ changed_at (fold_log (log ++ [(i, signed)] ++ mid)))%N as Hge.
  { unfold fold_log. rewrite !foldl_app. fold (fold_log log). simpl. rewrite Hs.
    apply foldl_changed_ge; [done|]. unfold indexed in Hi.
    rewrite fmap_app in Hi. apply StronglySorted_app in Hi as (_ & _ & Hi). simpl in Hi.
    apply StronglySorted_cons in Hi as [Hi _]. rewrite fmap_app in Hi.
    apply Forall_app in Hi as [Hi _]. rewrite Forall_fmap in Hi.
    eapply Forall_impl; [exact Hi|]. intros e. unfold compose. apply N.lt_le_incl. }
  clear Hi. revert Hge. generalize (fold_log (log ++ [(i, signed)] ++ mid)). intros t Hge.
  exists (changed_at t). unfold apply, event. unfold fbind at 1, fcheck at 1. rewrite Hv. simpl.
  unfold fbind at 1, fget at 1. simpl. rewrite bool_decide_true; [done|lia].
Qed.

Lemma no_replay_witness :
  ∃ current, (apply 6 (signed_by 4 2 (PledgeChanged (member 4) (200 * GB)))
    (fold_log (admitted_log ++ [(5%N, signed_by 4 2 (PledgeChanged (member 4) (200 * GB)))] ++ []))).2
    = Err (StaleProposal 2 current).
Proof.
  refine (no_replay admitted_log [] 5 6 (signed_by 4 2 (PledgeChanged (member 4) (200 * GB))) _ _ _);
    [prove_indexed | by_decision | vm_compute; reflexivity].
Defined.

(** A founding made by [MembershipEvent::found] and signed by one of its
    founders is accepted by an empty log, and makes the group of exactly its
    founders, all of them core, with no pledges. *)
Theorem founding_accepted `{Crypto} (index : N) (key : SecretKey)
    (founders : list (MemberProfile * NodeAddr)) (founding : GroupSettings) (at_ : Timestamp)
    (ev : MembershipEvent) (signed : SignedEvent)
    (Hsig : ∀ k b, verify_bytes (public k) b (sign_bytes k b) = true)
    (Hev : found_event founders founding at_ = Ok ev)
    (Hsign : sign key ev at_ 0 = Ok signed)
    (Hin : public key ∈ (λ f, profile_id f.1) <$> founders) :
  let s := (apply index signed new_state).1 in
  (apply index signed new_state).2 = Ok tt ∧ is_Some (group s) ∧ settings s = founding ∧
  pending s = ∅ ∧ changed_at s = index ∧
  dom (core s) = list_to_set ((λ f, profile_id f.1) <$> founders) ∧
  dom (members s) = list_to_set ((λ f, profile_id f.1) <$> founders) ∧
  ∀ m r, members s !! m = Some r → pledge_bytes r = 0%N.
Proof.
  unfold found_event in Hev. destruct (checked_ids founders) as [ids|] eqn:Eids; [|done].
  simpl in Hev. destruct (check_settings founding) as [[]|] eqn:Es; [|done]. simpl in Hev.
  assert (check_founders founders = Ok tt) as Hf by (unfold check_founders; by rewrite Eids).
  apply check_founders_ok in Hf as [Hne Hnd]. apply check_settings_ok in Es.
  injection Hev as <-. unfold sign in Hsign.
  destruct (signing_payload _ _ _ _) as [payload|] eqn:Ep; [|done].
  simpl in Hsign. injection Hsign as <-. set (ev := GroupFounded _ _ _) in *.
  set (signed := MkSignedEvent _ _ _ _ _).
  assert (verify signed = Ok tt) as Hv.
  { unfold verify. simpl. rewrite Ep. simpl. by rewrite Hsig. }
  set (s1 := founding_state (MkGroupId (blake3 (GROUP_ID_TAG ++
    le_bytes 8 (N.of_nat (length ids)) ++ (ids ≫= λ id, id_bytes (member_id32 id)) ++
    le_bytes 8 (as_millis at_)))) founders founding new_state).
  assert (accepts index signed new_state (close index s1)) as Ha%apply_spec
    by (split_and!; [done..|]; exists s1; by split; [constructor|]).
  rewrite Ha. cbn [fst snd]. split_and!; try done; simpl.
  - by rewrite dom_collect_map, <-list_fmap_compose.
  - by rewrite dom_collect_map, <-list_fmap_compose.
  - intros m r Hr. by apply founding_record in Hr as (_ & ? & _).
Qed.

Lemma founding_accepted_witness :
  let ev := GroupFounded (MkGroupId (blake3 (GROUP_ID_TAG ++ le_bytes 8 2 ++
    id_bytes (id32 1) ++ id_bytes (id32 2) ++ le_bytes 8 5))) [founder 2; founder 1] default_settings in
  let signed := MkSignedEvent ev (member 1) (MkTimestamp 5) 0
    (member 1, SIGNING_DOMAIN ++ [5; 0]%N) in
  let s := (apply 1 signed new_state).1 in
  (apply 1 signed new_state).2 = Ok tt ∧ is_Some (group s) ∧ settings s = default_settings ∧
  pending s = ∅ ∧ changed_at s = 1%N ∧
  dom (core s) = list_to_set [member 2; member 1] ∧
  dom (members s) = list_to_set [member 2; member 1] ∧
  ∀ m r, members s !! m = Some r → pledge_bytes r = 0%N.
Proof.
  refine (founding_accepted 1 1%N [founder 2; founder 1] default_settings (MkTimestamp 5)
    _ _ _ _ _ _).
  - intros k b. apply bool_decide_eq_true. reflexivity.
  - vm_compute. reflexivity.
  - reflexivity.
  - right. left.
Defined.

(** one core member's approval, given against the membership as it is
    and no later than the proposal's expiry, lets a proposed member in, as
    long as whoever proposed them is still a member; the proposal is
    answered and waits no more. *)
Theorem approval_admits `{Crypto} (index p : N) (signed : SignedEvent) s
    (entry : Proposal) (newcomer : MemberProfile)
    (Hg : is_Some (group s))
    (Hp : pending s !! p = Some entry) (He : proposal_event entry = MemberAdded newcomer)
    (Hproposer : is_Some (members s !! proposal_proposer entry))
    (Hcore : is_Some (core s !! signed_proposer signed))
    (Hmember : is_Some (members s !! signed_proposer signed))
    (Hv : verify signed = Ok tt) (Hev : signed_event signed = Approved p)
    (Hseen : signed_changed_at signed = changed_at s)
    (Hindex : (index ≤ p + Npos (pending_expiry (settings s)))%N) :
  let s' := (apply index signed s).1 in
  (apply index signed s).2 = Ok tt ∧ is_Some (members s' !! profile_id newcomer) ∧
  pending s' !! p = None.
Proof.
  assert (∃ s1, changes (set_pending (delete p) s) (proposal_event entry) s1 ∧
    is_Some (members s1 !! profile_id newcomer)) as (s1 & Hch & Hin).
  { rewrite He. destruct (members s !! profile_id newcomer) as [had|] eqn:Hhad.
    - eexists. split; [by eapply Renames|]. simpl. rewrite lookup_insert_eq. eauto.
    - eexists. split; [by eapply Admits|]. simpl. rewrite lookup_insert_eq. eauto. }
  assert (accepts index signed s (close index
    (drop_superseded (proposal_event entry) (core s) s1))) as Ha.
  { split; [done|]. split; [done|]. eexists. split; [|done]. rewrite Hev.
    eapply Enacts; [|done| |..|done].
    - split_and!; [done..|]. simpl. by rewrite (proj2 (is_core_true _ _) Hcore).
    - split_and!; [|by rewrite He|done|by rewrite He].
      unfold expired. apply bool_decide_eq_false. lia.
    - apply decided_true. rewrite He. simpl. apply (Nat.le_trans _ (size ({[signed_proposer signed]} : gset MemberId))).
      { by rewrite size_singleton. }
      apply subseteq_size. intros x ->%elem_of_singleton. apply elem_of_counting. set_solver. }
  apply apply_spec in Ha. rewrite Ha. cbn [fst snd]. split_and!; [done|done|].
  simpl. destruct (changes_keep _ _ _ Hch) as (_ & _ & _ & ->). simpl.
  apply map_lookup_filter_None. left. apply map_lookup_filter_None. left. apply lookup_delete_eq.
Qed.

Lemma approval_admits_witness :
  let s := fold_log request_log in
  let signed := signed_by 2 3 (Approved 3) in
  let s' := (apply 131 signed s).1 in
  (apply 131 signed s).2 = Ok tt ∧ is_Some (members s' !! member 5) ∧ pending s' !! 3%N = None.
Proof.
  refine (approval_admits 131 3 (signed_by 2 3 (Approved 3)) (fold_log request_log)
    {| proposal_event := MemberAdded (profile 5); proposal_proposer := member 4;
       proposal_approvals := ∅ |} (profile 5) _ _ _ _ _ _ _ _ _ _);
    by_decision.
Defined.

(** [expires_after] is exact when every index from here on is a change:
    the proposal is kept by the entry at [index] if and only if at most
    [expires_after] indexes separate them, and may be approved for exactly
    one more. *)
Theorem expires_after_exact `{Crypto} (log : list (N * SignedEvent)) (p index : N)
    (entry : Proposal) (Hi : indexed log)
    (Hp : pending (fold_log log) !! p = Some entry) (Hlt : (changed_at (fold_log log) < index)%N) :
  let s := fold_log log in
  (not_left_behind s index p = true ↔ (index ≤ changed_at s + expires_after s p)%N) ∧
  (expired s p index = false ↔ (index ≤ changed_at s + expires_after s p + 1)%N).
Proof.
  apply fold_log_wf in Hi. cbv zeta. revert Hp Hlt Hi.
  generalize (fold_log log). intros s Hp Hlt Hwf.
  unfold wf in Hwf. destruct (group s); [|by rewrite Hwf in Hp].
  destruct (wf_pending _ Hwf _ _ Hp) as [Hpast Hlive _ _].
  unfold not_left_behind, expired, expires_after.
  rewrite bool_decide_eq_true, bool_decide_eq_false. lia.
Qed.

Lemma expires_after_exact_witness :
  let s := fold_log request_log in
  (not_left_behind s 130 3 = true ↔ (130 ≤ changed_at s + expires_after s 3)%N) ∧
  (expired s 3 130 = false ↔ (130 ≤ changed_at s + expires_after s 3 + 1)%N).
Proof.
  refine (expires_after_exact request_log 3 130
    {| proposal_event := MemberAdded (profile 5); proposal_proposer := member 4;
       proposal_approvals := ∅ |} _ _ _); [prove_indexed | by_decision | by_decision].
Defined.

(** The expiry is counted in log indexes, not in changes: one accepted
    entry drops every proposal [pending_expiry] indexes old, however few
    changes were made since and whatever [expires_after] answered. *)
Theorem expiry_counts_indexes `{Crypto} (index p : N) (signed : SignedEvent) s
    (Hg : is_Some (group s)) (Hok : (apply index signed s).2 = Ok tt)
    (Hold : (p + Npos (pending_expiry (settings s)) ≤ index)%N) :
  pending (apply index signed s).1 !! p = None.
Proof.
  destruct Hg as [g Hg]. destruct (apply_entry_settled s (index, signed) g Hg) as [_ Hset].
  destruct (apply_entry_cases s index signed) as [[_ Ha]|[Hno _]]; [|by rewrite Hok in Hno].
  unfold apply_entry in *. simpl in *. destruct Ha as (_ & _ & s1 & _ & Heq).
  rewrite Heq in Hset |- *. simpl in *. apply map_lookup_filter_None. right. intros x _.
  unfold not_left_behind. rewrite bool_decide_false; [by intros []|]. simpl. rewrite Hset. lia.
Qed.

Lemma expiry_counts_indexes_witness :
  let s := fold_log request_log in
  let signed := signed_by 4 3 (PledgeChanged (member 4) (200 * GB)) in
  expires_after s 3 = 127%N ∧ pending (apply 131 signed s).1 !! 3%N = None.
Proof.
  split; [vm_compute; reflexivity|].
  refine (expiry_counts_indexes 131 3 (signed_by 4 3 (PledgeChanged (member 4) (200 * GB)))
    (fold_log request_log) _ _ _); by_decision.
Defined.
