(* ===== verification/RaftLog.v ===== *)
(** * The Raft log, and the pages of it members are served

    [crates/distlib-consensus/src/raft/log_store.rs] and the serving half of
    [memberlog.rs]. A redb table is a [gmap] read in key order; a transaction
    is the function it applies. What openraft and postcard bring is the class
    [Openraft]. *)

From S2P Require Import Prelude Ids GroupSettings Events Membership.

(** What is read from openraft and postcard. *)
Class Openraft `{Crypto} : Type := {
  (** [CommittedLeaderId], its order and how it is displayed. *)
  LeaderId : Type;
  LeaderId_eq_dec :: EqDecision LeaderId;
  leader_lt : LeaderId → LeaderId → bool;
  show_leader : LeaderId → string;
  Vote : Type;
  (** [RawMemberId], and [MemberId::try_from] it. *)
  RawMemberId : Type;
  member_of_raw : RawMemberId → option MemberId;
  (** [Membership]: its voters and where each is. *)
  RaftMembership : Type;
  RaftMembership_eq_dec :: EqDecision RaftMembership;
  no_membership : RaftMembership;
  voter_ids : RaftMembership → list RawMemberId;
  get_node : RaftMembership → RawMemberId → option NodeAddr;
  (** The bytes an event's entry takes in postcard. *)
  stored_len : N → SignedEvent → N;
}.

Section log_store.
Context `{Openraft}.

(** [openraft::LogId]. *)
Record LogId : Type := { leader_id : LeaderId; log_index : N }.

#[export] Instance LogId_eq_dec : EqDecision LogId.
Proof. solve_decision. Defined.

Inductive EntryPayload : Type :=
| Blank
| Normal (event : SignedEvent)
| Reconfigured (membership : RaftMembership).

Record Entry : Type := { log_id : LogId; payload : EntryPayload }.

(** The tables [raft_log] and [raft_meta]. A key of [raft_meta] that is
    missing is [None]; [committed] and [last_purged] hold an [Option]. *)
Record LogStore : Type := {
  raft_log : gmap N Entry;
  meta_vote : option Vote;
  meta_committed : option (option LogId);
  meta_last_purged : option (option LogId);
}.

Definition empty_log_store : LogStore := {|
  raft_log := ∅; meta_vote := None; meta_committed := None; meta_last_purged := None |}.

Definition set_raft_log (f : gmap N Entry → gmap N Entry) (s : LogStore) : LogStore := {|
  raft_log := f (raft_log s); meta_vote := meta_vote s;
  meta_committed := meta_committed s; meta_last_purged := meta_last_purged s |}.

(** [Option::flatten]. *)
Definition flatten {A} (o : option (option A)) : option A := default None o.

(** [Bound] and [RangeBounds::contains]. *)
Inductive Bound : Type := Included (n : N) | Excluded (n : N) | Unbounded.
Definition in_range (lo hi : Bound) (n : N) : bool :=
  (match lo with
   | Included l => bool_decide (l ≤ n)%N | Excluded l => bool_decide (l < n)%N | Unbounded => true
   end) &&
  (match hi with
   | Included h => bool_decide (n ≤ h)%N | Excluded h => bool_decide (n < h)%N | Unbounded => true
   end).

(** [table.range(..)], in key order. *)
Definition range {A} (lo hi : Bound) (m : gmap N A) : list (N * A) :=
  filter (λ row, in_range lo hi row.1) (map_entries m).

(** [table.last()]. *)
Definition last_entry {A} (m : gmap N A) : option (N * A) := last (map_entries m).

Record LogPage : Type := { page_events : list (N * SignedEvent); cut_short : bool }.

(** The loop of [events_after], from the page and the bytes so far. *)
Fixpoint fill_page (at_most : nat) (at_most_bytes : N) (rows : list (N * Entry))
    (events : list (N * SignedEvent)) (bytes : N) : LogPage :=
  match rows with
  | [] => {| page_events := events; cut_short := false |}
  | (index, entry) :: rows =>
      match payload entry with
      | Normal event =>
          let bytes := (bytes + stored_len index event)%N in
          if bool_decide (length events = at_most) ||
             (bool_decide (events ≠ []) && bool_decide (at_most_bytes < bytes)%N)
          then {| page_events := events; cut_short := true |}
          else fill_page at_most at_most_bytes rows (events ++ [(index, event)]) bytes
      | _ => fill_page at_most at_most_bytes rows events bytes
      end
  end.

Definition events_after (s : LogStore) (after up_to : N) (at_most : nat) (at_most_bytes : N)
  : LogPage :=
  fill_page at_most at_most_bytes
    (range (Included (saturating_add64 after 1)) (Included up_to) (raft_log s)) [] 0.

Definition last_log_id (s : LogStore) : option LogId :=
  (λ row, log_id row.2) <$> last_entry (raft_log s).

Definition try_get_log_entries (s : LogStore) (lo hi : Bound) : list Entry :=
  (range lo hi (raft_log s)).*2.

Record LogState : Type := {
  state_last_purged : option LogId;
  state_last_log_id : option LogId;
}.

Definition get_log_state (s : LogStore) : LogState :=
  let purged := flatten (meta_last_purged s) in
  {| state_last_purged := purged;
     state_last_log_id := match last_log_id s with Some id => Some id | None => purged end |}.

Definition save_vote (vote : Vote) (s : LogStore) : LogStore := {|
  raft_log := raft_log s; meta_vote := Some vote;
  meta_committed := meta_committed s; meta_last_purged := meta_last_purged s |}.
Definition read_vote (s : LogStore) : option Vote := meta_vote s.

Definition save_committed (committed : option LogId) (s : LogStore) : LogStore := {|
  raft_log := raft_log s; meta_vote := meta_vote s;
  meta_committed := Some committed; meta_last_purged := meta_last_purged s |}.
Definition read_committed (s : LogStore) : option LogId := flatten (meta_committed s).

Definition append (entries : list Entry) (s : LogStore) : LogStore :=
  set_raft_log (λ log, foldl (λ log entry, <[log_index (log_id entry) := entry]> log) log entries) s.

(** Inclusive of [id]: the entry there is the one being replaced. *)
Definition truncate (id : LogId) (s : LogStore) : LogStore :=
  set_raft_log (filter (λ row, ¬ (log_index id ≤ row.1)%N)) s.

(** The entries and the watermark in one transaction. *)
Definition purge (id : LogId) (s : LogStore) : LogStore := {|
  raft_log := filter (λ row, ¬ (row.1 ≤ log_index id)%N) (raft_log s);
  meta_vote := meta_vote s; meta_committed := meta_committed s;
  meta_last_purged := Some (Some id) |}.

(** ** Serving a page to a follower *)

Definition EVENTS_PER_FETCH : nat := 1000.
Definition BYTES_PER_FETCH : N := 4 * 1024 * 1024.

Record Source : Type := {
  source_core : list (MemberId * NodeAddr);
  source_leader : option MemberId;
}.

Inductive Fetched : Type :=
| Entries (up_to : N) (events : list (N * SignedEvent)) (more : bool) (source : Source)
| NoGroup
| Redirect (source : Source).

(** The voters of a configuration that can be named and placed. *)
Definition placed_voters (membership : RaftMembership) : list (MemberId * NodeAddr) :=
  omap (λ id, m ← member_of_raw id; addr ← get_node membership id; Some (m, addr))
    (voter_ids membership).

(** [source]: from Raft's metrics. *)
Definition source (configured : RaftMembership) (current_leader : option RawMemberId) : Source :=
  {| source_core := placed_voters configured; source_leader := current_leader ≫= member_of_raw |}.

(** The page [fetch] answers with, for a node that applied [applied] and
    whose projection is [state]. *)
Definition fetch (s : LogStore) (state : MembershipState) (applied : N) (from : Source)
    (cursor : N) : Fetched :=
  if bool_decide (group state = None) then NoGroup
  else
    let page := events_after s cursor applied EVENTS_PER_FETCH BYTES_PER_FETCH in
    let up_to :=
      match last (page_events page) with
      | Some (last, _) => if cut_short page then last else applied
      | None => applied
      end in
    Entries up_to (page_events page) (bool_decide (up_to < applied)%N) from.
End log_store.

(** ** The log store: no holes, and pages that add up to the log *)

Section sorted_ranges.
Context {A : Type}.
Implicit Types (l : list (N * A)) (m : gmap N A).

(** The rows with keys in [(a, b]]. *)
Definition rows_between (a b : N) l : list (N * A) :=
  filter (λ row, (a < row.1)%N ∧ (row.1 ≤ b)%N) l.

Lemma rows_between_split a b c l :
  StronglySorted entry_le l → (a ≤ c)%N → (c ≤ b)%N →
  rows_between a b l = rows_between a c l ++ rows_between c b l.
Proof.
  intros Hs Hac Hcb. unfold rows_between.
  induction l as [|[k x] l IH]; [done|]. apply StronglySorted_cons in Hs as [Hle Hs].
  rewrite !filter_cons. simpl. specialize (IH Hs).
  destruct (decide (k ≤ c)%N) as [Hk|Hk].
  - rewrite (decide_False (P := (c < k)%N ∧ (k ≤ b)%N)) by lia.
    rewrite IH. repeat case_decide; try done; lia.
  - rewrite (decide_False (P := (a < k)%N ∧ (k ≤ c)%N)) by lia.
    assert (filter (λ row : N * A, (a < row.1)%N ∧ (row.1 ≤ c)%N) l = []) as Hnil.
    { apply filter_none. rewrite Forall_forall in Hle.
      intros [k' x'] Hin. specialize (Hle _ Hin). unfold entry_le, key_le in Hle. simpl in *. lia. }
    rewrite Hnil in IH |- *. simpl in *. rewrite IH. repeat case_decide; try done; lia.
Qed.

Lemma rows_between_empty a b l : (b ≤ a)%N → rows_between a b l = [].
Proof.
  intros Hab. apply filter_none. intros [k x] _. simpl. lia.
Qed.

Lemma elem_of_rows_between a b l k x :
  (k, x) ∈ rows_between a b l ↔ (k, x) ∈ l ∧ (a < k)%N ∧ (k ≤ b)%N.
Proof. unfold rows_between. rewrite list_elem_of_filter. simpl. naive_solver. Qed.

Lemma rows_between_sorted a b l : StronglySorted entry_le l → StronglySorted entry_le (rows_between a b l).
Proof. apply StronglySorted_filter. Qed.
End sorted_ranges.

Section log_lemmas.
Context `{Openraft}.
Implicit Types (s : LogStore).

Lemma range_rows s after up_to :
  (after < u64_max)%N →
  range (Included (saturating_add64 after 1)) (Included up_to) (raft_log s) =
  rows_between after up_to (map_entries (raft_log s)).
Proof.
  intros Hlt. unfold range, rows_between. apply list_filter_iff. intros [k x]. simpl.
  unfold in_range. rewrite Is_true_true, andb_true_iff, !bool_decide_eq_true.
  unfold saturating_add64. lia.
Qed.

(** The membership event of a row, if it carries one. *)
Definition event_of (row : N * Entry) : option (N * SignedEvent) :=
  match payload row.2 with Normal event => Some (row.1, event) | _ => None end.

(** The membership events the log holds in [(after, up_to]]. *)
Definition events_between s (after up_to : N) : list (N * SignedEvent) :=
  omap event_of (rows_between after up_to (map_entries (raft_log s))).

Definition page_bytes (events : list (N * SignedEvent)) : N :=
  sumN ((λ e, stored_len e.1 e.2) <$> events).

(** The loop takes a prefix of the events, stops short of the end only when
    a limit is reached, and then never empty-handed. *)
Lemma fill_page_spec at_most max rows events bytes :
  0 < at_most → length events ≤ at_most →
  (events = [] ∧ bytes = 0%N ∨ length events = 1 ∨ (bytes ≤ max)%N) →
  bytes = page_bytes events →
  ∃ taken rest,
    page_events (fill_page at_most max rows events bytes) = events ++ taken ∧
    omap event_of rows = taken ++ rest ∧
    (cut_short (fill_page at_most max rows events bytes) = true ↔ rest ≠ []) ∧
    length (events ++ taken) ≤ at_most ∧
    (rest ≠ [] → events ++ taken ≠ []) ∧
    (length (events ++ taken) ≤ 1 ∨ (page_bytes (events ++ taken) ≤ max)%N).
Proof.
  intros Hpos. revert events bytes. induction rows as [|[index entry] rows IH];
    intros events bytes Hlen Hb Hbytes; simpl.
  - exists [], []. rewrite app_nil_r. split_and!; try done.
    destruct Hb as [[-> _] | [Hb | Hb]]; [left; simpl; lia | left; lia | right; by rewrite <-Hbytes].
  - unfold event_of at 1. simpl. destruct (payload entry) as [|event|m]; [by apply IH| |by apply IH].
    destruct (bool_decide _ || _) eqn:Hcut.
    + exists [], ((index, event) :: omap event_of rows). rewrite app_nil_r.
      apply orb_true_iff in Hcut. rewrite andb_true_iff, !bool_decide_eq_true in Hcut.
      split_and!; try done.
      * intros _ ->. simpl in Hcut. destruct Hcut as [|[? _]]; [lia|done].
      * destruct Hb as [[-> _] | [Hb | Hb]]; [left; simpl; lia | left; lia | right; by rewrite <-Hbytes].
    + apply orb_false_iff in Hcut as [Hn%bool_decide_eq_false Hmax].
      destruct (IH (events ++ [(index, event)]) (bytes + stored_len index event)%N)
        as (taken & rest & Hp & Ho & Hc & Hl & Hne & Hsz).
      * rewrite length_app. simpl. lia.
      * apply andb_false_iff in Hmax as [Hnil%bool_decide_eq_false%dec_stable | Hm%bool_decide_eq_false].
        -- subst events. right. by left.
        -- right. right. lia.
      * rewrite Hbytes. unfold page_bytes. rewrite fmap_app, sumN_app. simpl. lia.
      * exists ((index, event) :: taken), rest. rewrite <-!(assoc_L (++)) in *.
        split_and!; [done | by apply (f_equal (cons (index, event))) | done | done | by destruct events | done].
Qed.
End log_lemmas.

(** ** Pages add up *)

Section paging.
Context `{Openraft}.
Implicit Types (s : LogStore).

Definition before_in_log (x y : N * SignedEvent) : Prop := (x.1 < y.1)%N.

Lemma events_sorted (rows : list (N * Entry)) :
  StronglySorted (λ x y, key_lt x.1 y.1) rows →
  StronglySorted before_in_log (omap event_of rows).
Proof.
  induction rows as [|x rows IH]; [constructor|]. intros [Hlt Hs]%StronglySorted_cons.
  simpl. specialize (IH Hs). unfold event_of at 1. destruct (payload x.2); try done.
  constructor; [done|]. apply Forall_forall. rewrite Forall_forall in Hlt.
  intros [i e] ([j entry] & Hin & He)%list_elem_of_omap. specialize (Hlt _ Hin).
  unfold event_of in He. destruct (payload _); simplify_eq/=. done.
Qed.

Lemma events_filter (P : N → Prop) `{∀ n, Decision (P n)} (rows : list (N * Entry)) :
  omap event_of (filter (λ row, P row.1) rows) = filter (λ e, P e.1) (omap event_of rows).
Proof.
  induction rows as [|x rows IH]; [done|]. rewrite filter_cons, omap_cons_eq.
  case_decide as Hp; rewrite ?omap_cons_eq, IH; unfold event_of;
    destruct (payload x.2) as [|event|m]; try done.
  - by rewrite filter_cons_True.
  - by rewrite filter_cons_False.
Qed.

Lemma events_between_sorted s a b : StronglySorted before_in_log (events_between s a b).
Proof. apply events_sorted, StronglySorted_filter, map_entries_strict. Qed.

Lemma elem_of_events_between s a b i e :
  (i, e) ∈ events_between s a b ↔
  (∃ entry, raft_log s !! i = Some entry ∧ payload entry = Normal e) ∧ (a < i)%N ∧ (i ≤ b)%N.
Proof.
  unfold events_between. rewrite list_elem_of_omap. split.
  - intros ([j entry] & (Hin & ? & ?)%elem_of_rows_between & He).
    unfold event_of in He. simpl in He. destruct (payload entry) eqn:Hp; simplify_eq.
    apply elem_of_map_entries in Hin. eauto.
  - intros ((entry & Hl & Hp) & ? & ?). exists (i, entry). unfold event_of. simpl. rewrite Hp.
    split; [|done]. apply elem_of_rows_between. by rewrite elem_of_map_entries.
Qed.

Lemma events_between_split s a b c :
  (a ≤ c)%N → (c ≤ b)%N →
  events_between s a b = events_between s a c ++ events_between s c b.
Proof.
  intros. unfold events_between.
  rewrite (rows_between_split a b c) by (done || apply map_entries_sorted).
  apply omap_app.
Qed.

(** A page cut short ends at its last event. *)
Lemma cut_at_last s a b taken k e rest :
  events_between s a b = (taken ++ [(k, e)]) ++ rest →
  events_between s a k = taken ++ [(k, e)].
Proof.
  intros Heq. pose proof (events_between_sorted s a b) as Hs. rewrite Heq in Hs.
  apply StronglySorted_app in Hs as (Hrest & Hs & _).
  apply StronglySorted_app in Hs as (Htaken & _ & _).
  assert ((k, e) ∈ events_between s a b) as (_ & Hak & Hkb)%elem_of_events_between.
  { rewrite Heq, !elem_of_app, list_elem_of_singleton. auto. }
  assert (events_between s a k = filter (λ x, (x.1 ≤ k)%N) (events_between s a b)) as ->.
  { unfold events_between. etrans; [|exact (events_filter (λ n, (n ≤ k)%N) _)].
    f_equal. unfold rows_between.
    rewrite list_filter_filter. apply list_filter_iff. intros [j x]; simpl. lia. }
  rewrite Heq, filter_app, filter_all, filter_none, app_nil_r; [done| |].
  - intros x Hx. specialize (Hrest (k, e) x). unfold before_in_log in Hrest. simpl in Hrest.
    rewrite elem_of_app, list_elem_of_singleton in Hrest. specialize (Hrest (or_intror eq_refl) Hx). lia.
  - intros x [Hx| ->%list_elem_of_singleton]%elem_of_app; [|done].
    specialize (Htaken x (k, e) Hx). unfold before_in_log in Htaken. simpl in Htaken.
    rewrite list_elem_of_singleton in Htaken. specialize (Htaken eq_refl). lia.
Qed.

(** What a page served from [cursor] holds: exactly the events of the log
    up to where it says it reaches, which is further than [cursor] unless
    everything applied has been read. *)
Lemma fetch_page s state applied from cursor :
  is_Some (group state) → (cursor ≤ applied)%N → (applied < u64_max)%N →
  ∃ up_to events,
    fetch s state applied from cursor =
      Entries up_to events (bool_decide (up_to < applied)%N) from ∧
    events = events_between s cursor up_to ∧
    (cursor ≤ up_to)%N ∧ (up_to ≤ applied)%N ∧ ((cursor < applied)%N → (cursor < up_to)%N) ∧
    length events ≤ EVENTS_PER_FETCH ∧
    (length events ≤ 1 ∨ (page_bytes events ≤ BYTES_PER_FETCH)%N).
Proof.
  intros [g Hg] Hle Hlt. unfold fetch. rewrite Hg. cbn [bool_decide].
  rewrite bool_decide_false by done. unfold events_after.
  rewrite range_rows by lia. set (rows := rows_between _ _ _).
  destruct (fill_page_spec EVENTS_PER_FETCH BYTES_PER_FETCH rows [] 0) as
    (taken & rest & Hp & Ho & Hc & Hl & Hne & Hsz); [unfold EVENTS_PER_FETCH; lia|simpl; lia|by left|done|].
  simpl in Hp, Hl, Hne, Hsz. rewrite Hp.
  change (events_between s cursor applied = taken ++ rest) in Ho.
  destruct (cut_short _) eqn:Hcut.
  - assert (rest ≠ []) as Hrest by by apply Hc. specialize (Hne Hrest).
    destruct taken as [|[k e] taken _] using rev_ind; [done|].
    rewrite last_snoc. exists k, (taken ++ [(k, e)]).
    assert ((k, e) ∈ events_between s cursor applied) as (_ & ? & ?)%elem_of_events_between.
    { rewrite Ho, !elem_of_app, list_elem_of_singleton. auto. }
    split_and!; [done | symmetry; by eapply cut_at_last | lia | lia | lia | done | done].
  - assert (rest = []) as ->.
    { destruct rest as [|y rest]; [done|]. assert (false = true) by by apply Hc. done. }
    rewrite app_nil_r in Ho. exists applied, taken.
    split_and!; [|done|done|done|done|done|done].
    by destruct (last taken) as [[]|].
Qed.
End paging.
