(* ===== verification/RaftState.v ===== *)
(** * The Raft state machine: what a node has applied, and what it keeps of it

    [crates/distlib-consensus/src/raft/state_machine.rs]. The store is the
    state of the lock, the atomics, the watch channels and the redb table; a
    method that commits takes whether its one transaction succeeds ([txn]),
    because what is in memory, on disk and announced may differ only when it
    does not. A panic inside the fold, which is what poisons the lock, cannot
    happen here: the fold is total. *)

From stdpp Require Import pretty.
From S2P Require Import Prelude Ids GroupSettings Events Membership MembershipSpec MembershipInv RaftLog.

Section applied.
Context `{Openraft}.

(** [openraft::StoredMembership]. *)
Record StoredMembership : Type := {
  stored_at : option LogId;
  stored_config : RaftMembership;
}.

#[export] Instance StoredMembership_eq_dec : EqDecision StoredMembership.
Proof. solve_decision. Defined.

Definition no_stored_membership : StoredMembership :=
  {| stored_at := None; stored_config := no_membership |}.

Record Applied : Type := {
  last_applied : option LogId;
  membership : StoredMembership;
  state : MembershipState;
  followed_upto : N;
}.

(** [Applied::default]. *)
Definition new_applied : Applied := {|
  last_applied := None; membership := no_stored_membership; state := new_state;
  followed_upto := 0 |}.

Record Promotion : Type := { promotion_at : N; promotion_voters : gset MemberId }.

(** [SnapshotMeta] and [StoredSnapshot]. *)
Record SnapshotMeta : Type := {
  meta_last : option LogId;
  meta_membership : StoredMembership;
  meta_id : string;
}.

Record StoredSnapshot : Type := { snapshot_meta : SnapshotMeta; snapshot_data : list N }.

Definition log_at (id : option LogId) : N := match id with Some at_ => log_index at_ | None => 0 end.

(** [Option<LogId>]'s order: [None] first, then the term, then the index. *)
Definition log_id_lt (a b : option LogId) : bool :=
  match a, b with
  | None, None => false
  | None, Some _ => true
  | Some _, None => false
  | Some a, Some b =>
      leader_lt (leader_id a) (leader_id b) ||
      (bool_decide (leader_id a = leader_id b) && bool_decide (log_index a < log_index b)%N)
  end.
End applied.

(** [postcard] of what is applied. *)
Class Postcard `{Openraft} : Type := {
  encode_applied : Applied → list N;
  decode_applied : list N → option Applied;
}.

Section store.
Context `{Postcard}.

(** The table [raft_state_machine], one field per key. *)
Record Disk : Type := {
  disk_applied : option (list N);
  disk_snapshot : option StoredSnapshot;
  disk_promotion : option (option Promotion);
  disk_predecessors : option (gmap MemberId (gset MemberId));
}.

Definition empty_disk : Disk := {|
  disk_applied := None; disk_snapshot := None; disk_promotion := None;
  disk_predecessors := None |}.

Record Store : Type := {
  disk : Disk;
  applied : Applied;
  snapshot_seq : N;
  generation : N;
  announced : MembershipState;
  announced_raft : StoredMembership;
  promotion_held : option Promotion;
}.

Inductive StorageError : Type :=
| TransactionFailed
| Undecodable.

Definition op : Type → Type := fallible Store StorageError.

Definition set_disk (f : Disk → Disk) (s : Store) : Store := {|
  disk := f (disk s); applied := applied s; snapshot_seq := snapshot_seq s;
  generation := generation s; announced := announced s; announced_raft := announced_raft s;
  promotion_held := promotion_held s |}.
Definition set_applied (a : Applied) (s : Store) : Store := {|
  disk := disk s; applied := a; snapshot_seq := snapshot_seq s;
  generation := generation s; announced := announced s; announced_raft := announced_raft s;
  promotion_held := promotion_held s |}.
Definition set_promotion (p : option Promotion) (s : Store) : Store := {|
  disk := disk s; applied := applied s; snapshot_seq := snapshot_seq s;
  generation := generation s; announced := announced s; announced_raft := announced_raft s;
  promotion_held := p |}.
Definition next_generation (s : Store) : Store := {|
  disk := disk s; applied := applied s; snapshot_seq := snapshot_seq s;
  generation := wrap64 (generation s + 1); announced := announced s;
  announced_raft := announced_raft s; promotion_held := promotion_held s |}.

(** A write transaction: all of [f], or nothing and an error. *)
Definition write_txn (txn : bool) (f : Disk → Disk) : op unit :=
  if txn then fmodify (set_disk f) else ferr TransactionFailed.

Definition put_applied (data : list N) (d : Disk) : Disk := {|
  disk_applied := Some data; disk_snapshot := disk_snapshot d;
  disk_promotion := disk_promotion d; disk_predecessors := disk_predecessors d |}.
Definition put_snapshot (snapshot : option StoredSnapshot) (d : Disk) : Disk := {|
  disk_applied := disk_applied d; disk_snapshot := snapshot;
  disk_promotion := disk_promotion d; disk_predecessors := disk_predecessors d |}.
Definition put_promotion (p : option Promotion) (d : Disk) : Disk := {|
  disk_applied := disk_applied d; disk_snapshot := disk_snapshot d;
  disk_promotion := Some p; disk_predecessors := disk_predecessors d |}.
Definition put_predecessors (p : gmap MemberId (gset MemberId)) (d : Disk) : Disk := {|
  disk_applied := disk_applied d; disk_snapshot := disk_snapshot d;
  disk_promotion := disk_promotion d; disk_predecessors := Some p |}.

(** [announce] and [announce_raft]: a value already announced is not sent
    again, which leaves the channel holding the same. *)
Definition announce (st : MembershipState) (s : Store) : Store :=
  if bool_decide (announced s ≠ st) then {|
    disk := disk s; applied := applied s; snapshot_seq := snapshot_seq s;
    generation := generation s; announced := st; announced_raft := announced_raft s;
    promotion_held := promotion_held s |}
  else s.
Definition announce_raft (m : StoredMembership) (s : Store) : Store :=
  if bool_decide (announced_raft s = m) then s else {|
    disk := disk s; applied := applied s; snapshot_seq := snapshot_seq s;
    generation := generation s; announced := announced s; announced_raft := m;
    promotion_held := promotion_held s |}.

(** [from_database]: what a start makes of the disk. *)
Definition from_database (d : Disk) : result StorageError Store :=
  let fresh := {|
    disk := d; applied := new_applied; snapshot_seq := 0; generation := 0;
    announced := new_state; announced_raft := no_stored_membership;
    promotion_held := flatten (disk_promotion d) |} in
  match disk_applied d with
  | None => Ok fresh
  | Some data =>
      match decode_applied data with
      | None => Err Undecodable
      | Some a => Ok {|
          disk := d; applied := a; snapshot_seq := 0; generation := 0;
          announced := state a; announced_raft := membership a;
          promotion_held := flatten (disk_promotion d) |}
      end
  end.

(** ** Getters *)

Definition last_applied_index (s : Store) : N := log_at (last_applied (applied s)).
Definition position (s : Store) : N :=
  N.max (log_at (last_applied (applied s))) (followed_upto (applied s)).

(** [promotion]: trust that expires once Raft reaches its boundary. *)
Definition promotion (s : Store) : option Promotion :=
  p ← promotion_held s;
  match stored_at (announced_raft s) with
  | None => Some p
  | Some at_ => if bool_decide (log_index at_ < promotion_at p)%N then Some p else None
  end.

Definition core_addresses (s : Store) : list (MemberId * NodeAddr) :=
  map_entries (core (state (applied s))).

(** ** Following *)

Definition with_state (st : MembershipState) (a : Applied) : Applied := {|
  last_applied := last_applied a; membership := membership a; state := st;
  followed_upto := followed_upto a |}.
Definition with_followed (upto : N) (a : Applied) : Applied := {|
  last_applied := last_applied a; membership := membership a; state := state a;
  followed_upto := upto |}.

(** The predecessors of each voter, after a fold that had [before] for core. *)
Definition observe (before : gset MemberId) (now : MembershipState)
    (predecessors : gmap MemberId (gset MemberId)) : gmap MemberId (gset MemberId) :=
  let kept := filter (λ entry, is_core now entry.1) predecessors in
  foldl (λ p member, if bool_decide (member ∈ before) then p else <[member := before]> p)
    kept (map_keys (core now)).

(** The loop of [apply_followed], over the state, the predecessors and the
    verdicts; it stops at a raise past [PROTOCOL_MAX], with the last index
    applied. *)
Fixpoint follow_events (events : list (N * SignedEvent)) (up_to last : N) (st : MembershipState)
    (predecessors : gmap MemberId (gset MemberId)) (verdicts : list (result ConsensusError unit))
  : MembershipState * N * gmap MemberId (gset MemberId) * list (result ConsensusError unit) :=
  match events with
  | [] => (st, up_to, predecessors, verdicts)
  | (index, event) :: events =>
      if bool_decide (PROTOCOL_MAX < protocol st)%N then (st, last, predecessors, verdicts)
      else
        let before := dom (core st) in
        let '(st, verdict) := Membership.apply index event st in
        follow_events events up_to index st (observe before st predecessors) (verdicts ++ [verdict])
  end.

Definition apply_followed (up_to : N) (events : list (N * SignedEvent)) (txn : bool)
  : op (list (result ConsensusError unit)) :=
  s ←! fget ;;
  let '(st, upto, predecessors, verdicts) :=
    follow_events events up_to (followed_upto (applied s)) (state (applied s))
      (default ∅ (disk_predecessors (disk s))) [] in
  let a := with_followed upto (with_state st (applied s)) in
  fmodify (set_applied a) ;!
  write_txn txn (λ d, put_predecessors predecessors (put_applied (encode_applied a) d)) ;!
  fmodify (announce st) ;!
  fret verdicts.

(** ** Applying *)

Definition with_last (id : LogId) (a : Applied) : Applied := {|
  last_applied := Some id; membership := membership a; state := state a;
  followed_upto := followed_upto a |}.
Definition with_membership (m : StoredMembership) (a : Applied) : Applied := {|
  last_applied := last_applied a; membership := m; state := state a;
  followed_upto := followed_upto a |}.

(** One committed entry, and the response it gets. *)
Definition apply_committed (a : Applied) (entry : Entry) : Applied * result ConsensusError unit :=
  let a := with_last (log_id entry) a in
  match payload entry with
  | Blank => (a, Ok tt)
  | Normal event =>
      let '(st, verdict) := Membership.apply (log_index (log_id entry)) event (state a) in
      (with_state st a, verdict)
  | Reconfigured m =>
      (with_membership {| stored_at := Some (log_id entry); stored_config := m |} a, Ok tt)
  end.

Fixpoint apply_entries (entries : list Entry) (a : Applied)
  : Applied * list (result ConsensusError unit) :=
  match entries with
  | [] => (a, [])
  | entry :: entries =>
      let '(a, response) := apply_committed a entry in
      let '(a, responses) := apply_entries entries a in
      (a, response :: responses)
  end.

(** [RaftStateMachine::apply]. *)
Definition apply_batch (entries : list Entry) (txn : bool)
  : op (list (result ConsensusError unit)) :=
  s ←! fget ;;
  let '(a, responses) := apply_entries entries (applied s) in
  fmodify (set_applied a) ;!
  write_txn txn (put_applied (encode_applied a)) ;!
  fmodify (λ s, announce (state a) (announce_raft (membership a) s)) ;!
  fret responses.

(** ** Changing roles *)

Definition reset_projection (p : option Promotion) (txn : bool) : op unit :=
  fmodify (λ s, next_generation (set_applied new_applied s)) ;!
  write_txn txn (λ d,
    put_promotion p (put_snapshot None (put_applied (encode_applied new_applied) d))) ;!
  fmodify (set_promotion p) ;!
  fmodify (λ s, announce new_state (announce_raft no_stored_membership s)).

Definition reset_for_promotion (txn : bool) : op unit := reset_projection None txn.

Definition prepare_promotion (me : MemberId) (txn : bool) : op Promotion :=
  s ←! fget ;;
  let st := state (applied s) in
  let predecessors := default ∅ (disk_predecessors (disk s)) in
  let voters := filter (λ member, is_member st member)
    (dom (core st) ∪ default ∅ (predecessors !! me)) in
  let p := {| promotion_at := changed_at st; promotion_voters := voters |} in
  reset_projection (Some p) txn ;!
  fret p.

Definition resume_following (txn : bool) : op unit :=
  s ←! fget ;;
  let a := with_followed (log_at (last_applied (applied s))) (applied s) in
  fmodify (set_applied a) ;!
  write_txn txn (put_applied (encode_applied a)).

(** ** Snapshots *)

Definition install_snapshot (meta : SnapshotMeta) (data : list N) (txn : bool) : op unit :=
  match decode_applied data with
  | None => ferr Undecodable
  | Some a =>
      fmodify (set_applied a) ;!
      write_txn txn (λ d,
        put_snapshot (Some {| snapshot_meta := meta; snapshot_data := data |})
          (put_applied data d)) ;!
      fmodify (λ s, announce (state a) (announce_raft (membership a) s))
  end.

Definition get_current_snapshot (s : Store) : option StoredSnapshot := disk_snapshot (disk s).

Record SnapshotBuilder : Type := {
  captured : Applied; captured_generation : N; builder_seq : N }.

Definition get_snapshot_builder : op SnapshotBuilder :=
  s ←! fget ;;
  fmodify (λ s, {|
    disk := disk s; applied := applied s; snapshot_seq := wrap64 (snapshot_seq s + 1);
    generation := generation s; announced := announced s; announced_raft := announced_raft s;
    promotion_held := promotion_held s |}) ;!
  fret {| captured := applied s; captured_generation := generation s;
          builder_seq := snapshot_seq s |}.

(** [format!("{}-{}-{}", ..)] and [format!("--{}", ..)]. *)
Definition snapshot_id (last : option LogId) (seq : N) : string :=
  match last with
  | Some id =>
      show_leader (leader_id id) +:+ "-" +:+ pretty (log_index id) +:+ "-" +:+ pretty seq
  | None => "--" +:+ pretty seq
  end%string.

(** Run on its own task, at any time after its builder was got. *)
Definition build_snapshot (b : SnapshotBuilder) (txn : bool) : op StoredSnapshot :=
  let a := captured b in
  let snapshot := {|
    snapshot_meta := {|
      meta_last := last_applied a; meta_membership := membership a;
      meta_id := snapshot_id (last_applied a) (builder_seq b) |};
    snapshot_data := encode_applied a |} in
  s ←! fget ;;
  let newer_exists :=
    match disk_snapshot (disk s) with
    | Some stored => log_id_lt (last_applied a) (meta_last (snapshot_meta stored))
    | None => false
    end in
  let reset_since := bool_decide (generation s ≠ captured_generation b) in
  write_txn txn (λ d, if newer_exists || reset_since then d else put_snapshot (Some snapshot) d) ;!
  fret snapshot.
End store.

(** ** The state machine: one fold, durable before it is announced *)

(** ** The fold of a batch *)

Section folds.
Context `{Openraft}.

(** The membership event of an entry, with its index. *)
Definition entry_event (entry : Entry) : option (N * SignedEvent) :=
  event_of (log_index (log_id entry), entry).

Lemma apply_committed_state a entry :
  state (apply_committed a entry).1 =
  match entry_event entry with Some e => apply_entry (state a) e | None => state a end.
Proof.
  unfold apply_committed, entry_event, event_of, apply_entry. simpl.
  destruct (payload entry); simpl; try done. by destruct (Membership.apply _ _ _).
Qed.

(** Applying entries folds their events, whatever batches they come in. *)
Lemma apply_entries_state entries a :
  state (apply_entries entries a).1 = foldl apply_entry (state a) (omap entry_event entries).
Proof.
  revert a. induction entries as [|entry entries IH]; [done|]. intros a.
  simpl apply_entries. rewrite omap_cons_eq.
  pose proof (apply_committed_state a entry) as Hst.
  destruct (apply_committed a entry) as [a1 r]. simpl in Hst.
  specialize (IH a1). destruct (apply_entries entries a1) as [a2 rs]. simpl in *.
  rewrite IH, Hst. by destruct (entry_event entry).
Qed.

Lemma apply_entries_followed entries a :
  followed_upto (apply_entries entries a).1 = followed_upto a.
Proof.
  revert a. induction entries as [|entry entries IH]; [done|]. intros a. simpl.
  assert (followed_upto (apply_committed a entry).1 = followed_upto a) as Hf.
  { unfold apply_committed. destruct (payload entry); simpl; try done.
    by destruct (Membership.apply _ _ _). }
  destruct (apply_committed a entry) as [a1 r]. specialize (IH a1).
  destruct (apply_entries entries a1). simpl in *. congruence.
Qed.

Lemma apply_entries_last entries a :
  last_applied (apply_entries entries a).1 =
  match last entries with Some e => Some (log_id e) | None => last_applied a end.
Proof.
  revert a. induction entries as [|entry entries IH]; [done|]. intros a. simpl apply_entries.
  assert (last_applied (apply_committed a entry).1 = Some (log_id entry)) as Hl.
  { unfold apply_committed. destruct (payload entry); simpl; try done.
    by destruct (Membership.apply _ _ _). }
  destruct (apply_committed a entry) as [a1 r]. specialize (IH a1). cbn [fst] in Hl.
  destruct (apply_entries entries a1). cbn [fst] in *. rewrite IH, last_cons.
  by destruct (last entries).
Qed.

(** Following: the events applied are a prefix, the state their fold, and
    the cursor covers nothing that was left. *)
Lemma follow_events_spec events up_to last_ st predecessors verdicts :
  let '(st', upto', _, _) := follow_events events up_to last_ st predecessors verdicts in
  ∃ taken rest, events = taken ++ rest ∧ st' = foldl apply_entry st taken ∧
    (rest = [] ∧ upto' = up_to ∨
     rest ≠ [] ∧ (PROTOCOL_MAX < protocol st')%N ∧ upto' = default last_ (last taken.*1)).
Proof.
  revert last_ st predecessors verdicts.
  induction events as [|[index event] events IH]; intros last_ st predecessors verdicts; simpl.
  { exists [], []. by auto. }
  case_bool_decide as Hmax.
  { exists [], ((index, event) :: events). split_and!; auto. }
  destruct (Membership.apply index event st) as [st1 verdict] eqn:Happ.
  assert (apply_entry st (index, event) = st1) as Hst1 by (unfold apply_entry; simpl; by rewrite Happ).
  specialize (IH index st1 (observe (dom (core st)) st1 predecessors) (verdicts ++ [verdict])).
  destruct (follow_events _ _ _ _ _ _) as [[[st' upto'] pred'] vs].
  destruct IH as (taken & rest & -> & Hst' & Hup). exists ((index, event) :: taken), rest.
  split_and!; [done | simpl; by rewrite Hst1 |].
  destruct Hup as [Hup | (? & ? & ->)]; [by left | right]. split_and!; [done..|].
  rewrite fmap_cons, last_cons. by destruct (last taken.*1).
Qed.
End folds.

(** ** A follower's copy *)

Section followed.
Context `{Postcard}.
Implicit Types (ls : LogStore) (s : Store).

(** [s] holds the log [ls] folded up to its own cursor, which is not past
    what the serving node applied. *)
Definition follows ls (core_applied : N) s : Prop :=
  (followed_upto (applied s) ≤ core_applied)%N ∧
  state (applied s) = fold_log (events_between ls 0 (followed_upto (applied s))).

Lemma fold_log_app log rest : foldl apply_entry (fold_log log) rest = fold_log (log ++ rest).
Proof. unfold fold_log. by rewrite foldl_app. Qed.

Lemma apply_followed_memory up_to events txn s :
  let '(st, upto, _, _) := follow_events events up_to (followed_upto (applied s))
    (state (applied s)) (default ∅ (disk_predecessors (disk s))) [] in
  applied (apply_followed up_to events txn s).1 = with_followed upto (with_state st (applied s)).
Proof.
  unfold apply_followed, write_txn. run.
  destruct (follow_events _ _ _ _ _ _) as [[[st upto] pred] vs].
  destruct txn; simpl; [|done]. unfold announce. by case_bool_decide.
Qed.

Lemma apply_followed_result up_to events txn s :
  is_ok (apply_followed up_to events txn s).2 = txn.
Proof.
  unfold apply_followed, write_txn. run.
  destruct (follow_events _ _ _ _ _ _) as [[[st upto] pred] vs]. by destruct txn.
Qed.

(** Applying a page of the log keeps the copy exact, the page's end reached
    or not; it is not only for a raise past [PROTOCOL_MAX]. *)
Lemma apply_followed_follows ls core_applied up_to txn s :
  follows ls core_applied s → (followed_upto (applied s) ≤ up_to)%N → (up_to ≤ core_applied)%N →
  let s' := (apply_followed up_to (events_between ls (followed_upto (applied s)) up_to) txn s).1 in
  follows ls core_applied s' ∧ (followed_upto (applied s) ≤ followed_upto (applied s'))%N ∧
  (followed_upto (applied s') = up_to ∨
   (PROTOCOL_MAX < protocol (state (applied s')))%N ∧
   ∃ pre suf, events_between ls 0 core_applied = pre ++ suf ∧
     state (applied s') = fold_log pre).
Proof.
  intros [Hle Hst] Hcur Hup. unfold follows. cbv zeta.
  set (events := events_between _ _ _).
  pose proof (apply_followed_memory up_to events txn s) as Hmem.
  pose proof (follow_events_spec events up_to (followed_upto (applied s)) (state (applied s))
    (default ∅ (disk_predecessors (disk s))) []) as Hspec.
  destruct (follow_events _ _ _ _ _ _) as [[[st upto] pred] vs]. rewrite Hmem. clear Hmem.
  destruct Hspec as (taken & rest & Hev & Hst' & Hupto).
  rewrite Hst, fold_log_app in Hst'.
  assert (events_between ls 0 up_to = events_between ls 0 (followed_upto (applied s)) ++ events)
    as Hall by (apply events_between_split; lia).
  destruct Hupto as [[-> ->] | (Hne & Hmax & Hupto)].
  - rewrite app_nil_r in Hev. simpl. split_and!; [done| |done|by left].
    by rewrite Hst', <-Hev, Hall.
  - assert (∃ c, upto = c ∧ (followed_upto (applied s) ≤ c)%N ∧ (c ≤ core_applied)%N ∧
      events_between ls 0 c = events_between ls 0 (followed_upto (applied s)) ++ taken) as
      (c & -> & Hc1 & Hc2 & Hc3).
    { destruct taken as [|[k e] taken _] using rev_ind.
      - exists (followed_upto (applied s)). rewrite app_nil_r. by split_and!.
      - rewrite fmap_app in Hupto. simpl in Hupto. rewrite last_snoc in Hupto. simpl in Hupto. exists k.
        assert ((k, e) ∈ events_between ls (followed_upto (applied s)) up_to)
          as (_ & ? & ?)%elem_of_events_between.
        { fold events. rewrite Hev, !elem_of_app, list_elem_of_singleton. auto. }
        split_and!; [done|lia|lia|].
        rewrite (assoc_L (++)). eapply (cut_at_last _ _ up_to _ _ _ rest).
        by rewrite Hall, Hev, !(assoc_L (++)). }
    simpl. split_and!; [done | by rewrite Hc3, Hst' | done |].
    right. split; [done|]. eexists _, (rest ++ events_between ls up_to core_applied).
    split; [|exact Hst']. rewrite (events_between_split ls 0 core_applied up_to) by lia.
    by rewrite Hall, Hev, !(assoc_L (++)).
Qed.

(** What a core node that applied the log up to [core_applied] holds. *)
Definition core_state ls (core_applied : N) : MembershipState :=
  state (apply_entries (try_get_log_entries ls Unbounded (Included core_applied)) new_applied).1.

(** A log keyed by its entries' own indexes, the first of which is Raft's
    own configuration. *)
Definition keyed ls : Prop :=
  (∀ i entry, raft_log ls !! i = Some entry → log_index (log_id entry) = i) ∧
  (∀ entry event, raft_log ls !! 0%N = Some entry → payload entry ≠ Normal event).

Lemma core_state_fold ls core_applied :
  keyed ls → core_state ls core_applied = fold_log (events_between ls 0 core_applied).
Proof.
  intros [Hkey Hzero]. unfold core_state. rewrite apply_entries_state. simpl.
  unfold fold_log, events_between, try_get_log_entries, range, rows_between. f_equal.
  assert (∀ i entry, (i, entry) ∈ map_entries (raft_log ls) →
    log_index (log_id entry) = i ∧ (i = 0%N → event_of (i, entry) = None)) as Hrows.
  { intros i entry Hin%elem_of_map_entries. split; [by apply Hkey|]. intros ->.
    unfold event_of. simpl. destruct (payload entry) eqn:E; try done. by eapply Hzero in E. }
  rewrite (list_filter_iff _ (λ row : N * Entry, (row.1 ≤ core_applied)%N)).
  2: { intros [i entry]. unfold in_range. rewrite Is_true_true. simpl. apply bool_decide_eq_true. }
  induction (map_entries (raft_log ls)) as [|[i entry] rows IH]; [done|].
  destruct (Hrows i entry) as [Hi Hz]; [by left|].
  assert (IH' := IH (λ j e Hin, Hrows j e (list_elem_of_further _ _ _ Hin))). clear IH Hrows.
  rewrite !filter_cons. cbn [fst]. destruct (decide (i ≤ core_applied)%N) as [Hle|Hle].
  - rewrite fmap_cons, omap_cons_eq. cbn [snd]. unfold entry_event at 1. rewrite Hi.
    destruct (decide (i = 0%N)) as [->|Hpos].
    + rewrite Hz by done. rewrite decide_False by lia. apply IH'.
    + rewrite decide_True by lia. rewrite omap_cons_eq. destruct (event_of _); [f_equal|]; apply IH'.
  - rewrite decide_False by lia. apply IH'.
Qed.
Lemma events_between_indexed ls a b : indexed (events_between ls a b).
Proof.
  unfold indexed. pose proof (events_between_sorted ls a b) as Hs.
  induction Hs as [|x l Hs IH Hlt]; [constructor|]. simpl. constructor; [done|].
  apply Forall_fmap. eapply Forall_impl; [exact Hlt|]. done.
Qed.
End followed.
