(* ===== verification/Follower.v ===== *)
(** * Following the log without voting on it

    [crates/distlib-consensus/src/raft/follower.rs]. A pass over the known
    core nodes is a function of what each answers ([ask]), the network being
    outside the code; the pass asks a node at most once, so an answer per
    node and cursor is all it can see. *)

From S2P Require Import Prelude Ids GroupSettings Events Membership RaftLog RaftState.

(** [Failure]. *)
Inductive Failure : Type := FetchUnreachable | FetchRefused | FetchUndecodable.

Section follower.
Context `{Postcard}.

Record Sources : Type := {
  sources_core : list (MemberId * NodeAddr);
  sources_leader : option MemberId;
}.

(** [candidates]: [sort_by_key] is stable, and [false] sorts first. *)
Definition candidates (s : Sources) (me : MemberId) : list (MemberId * NodeAddr) :=
  let others := filter (λ c, c.1 ≠ me) (sources_core s) in
  filter (λ c, Some c.1 = sources_leader s) others ++
  filter (λ c, Some c.1 ≠ sources_leader s) others.

Inductive Progress : Type :=
| ProgressFetched (more : bool)
| UpToDate
| ProgressRefused
| ProgressUnreachable
| NotStored
| NoSources
| ProgressUndecodable.

Record Answers : Type := { refusals : nat; otherwise : nat; undecodable : nat }.

Definition no_answers : Answers := {| refusals := 0; otherwise := 0; undecodable := 0 |}.

(** [Answers::progress]. *)
Definition progress (a : Answers) : Progress :=
  if bool_decide (0 < refusals a) && bool_decide (otherwise a = 0) then ProgressRefused
  else if bool_decide (0 < undecodable a) && bool_decide (undecodable a = otherwise a)
  then ProgressUndecodable
  else ProgressUnreachable.

Definition count_refusal (a : Answers) : Answers :=
  {| refusals := S (refusals a); otherwise := otherwise a; undecodable := undecodable a |}.
Definition count_otherwise (a : Answers) : Answers :=
  {| refusals := refusals a; otherwise := S (otherwise a); undecodable := undecodable a |}.
Definition count_undecodable (a : Answers) : Answers :=
  {| refusals := refusals a; otherwise := S (otherwise a); undecodable := S (undecodable a) |}.

Definition MAX_VISITED : nat := 32.

Definition sources_of (s : Source) : Sources :=
  {| sources_core := source_core s; sources_leader := source_leader s |}.

(** The next candidate that is neither [me] nor visited, and those after it. *)
Fixpoint next_candidate (me : MemberId) (visited : gset MemberId)
    (queue : list (MemberId * NodeAddr)) : option (MemberId * NodeAddr * list (MemberId * NodeAddr)) :=
  match queue with
  | [] => None
  | (member, addr) :: queue =>
      if bool_decide (member = me) || bool_decide (member ∈ visited)
      then next_candidate me visited queue
      else Some (member, addr, queue)
  end.

(** Following's state: the store, and where to ask. *)
Record Following : Type := { store : Store; known : Sources; asked : gset MemberId }.

Section pass.
Context (me : MemberId) (ask : MemberId → NodeAddr → N → result Failure Fetched) (txn : bool).

(** The loop of [fetch_log_from_core_nodes], with [visits] members still to
    be visited before it gives up. *)
Fixpoint pass (visits : nat) (cursor : N) (queue : list (MemberId * NodeAddr))
    (answers : Answers) (f : Following) : Following * Progress :=
  match visits, next_candidate me (asked f) queue with
  | S visits, Some (member, addr, queue) =>
      let visited := {[member]} ∪ asked f in
      let f := {| store := store f; known := known f; asked := visited |} in
      match ask member addr cursor with
      | Ok (Entries up_to events more source) =>
          let f := {| store := store f; known := sources_of source; asked := visited |} in
          if bool_decide (up_to ≤ cursor)%N then (f, UpToDate)
          else
            match apply_followed up_to events txn (store f) with
            | (st, Err _) =>
                ({| store := st; known := known f; asked := visited |}, NotStored)
            | (st, Ok _) =>
                ({| store := st; known := known f; asked := visited |}, ProgressFetched more)
            end
      | Ok (Redirect source) =>
          let redirected := sources_of source in
          pass visits cursor (queue ++ candidates redirected me) (count_otherwise answers)
            {| store := store f; known := redirected; asked := visited |}
      | Ok NoGroup => pass visits cursor queue (count_otherwise answers) f
      | Err FetchUndecodable => pass visits cursor queue (count_undecodable answers) f
      | Err FetchRefused => pass visits cursor queue (count_refusal answers) f
      | Err FetchUnreachable => pass visits cursor queue answers f
      end
  | _, _ => (f, progress answers)
  end.

(** [fetch_log_from_core_nodes]. *)
Definition fetch_log_from_core_nodes (st : Store) (sources : Sources)
  : Following * Progress :=
  let f := {| store := st; known := sources; asked := ∅ |} in
  let queue := candidates sources me ++
    filter (λ c, c.1 ≠ me) (map_entries (core (state (applied st)))) in
  if bool_decide (queue = []) then (f, NoSources)
  else pass MAX_VISITED (followed_upto (applied st)) queue no_answers f.
End pass.

(** ** What the loop does after a pass *)

Inductive UpgradeRequired : Type :=
| UpgradeProtocol (group : N) (at_ : N)
| UpgradeUndecodable (at_ : N).

Inductive Next : Type :=
| Wait (millis : N)
| StopExpelled
| StopUntilUpgraded (why : UpgradeRequired).

Definition IDLE_POLL : N := 30000.
Definition RETRY_DELAY : N := 1000.
Definition REFUSED_BACKOFF : N := 60000.

Definition stopped_behind_the_group (st : Store) : option UpgradeRequired :=
  let group := protocol (state (applied st)) in
  if bool_decide (group ≤ PROTOCOL_MAX)%N then None
  else Some (UpgradeProtocol group (followed_upto (applied st))).

(** The body of [follow] after its pass, the directory aside. *)
Definition after_pass (st : Store) (p : Progress) : Next :=
  match stopped_behind_the_group st with
  | Some why => StopUntilUpgraded why
  | None =>
      match p with
      | ProgressFetched true => Wait 0
      | ProgressFetched false | UpToDate => Wait IDLE_POLL
      | ProgressUnreachable | NotStored => Wait RETRY_DELAY
      | NoSources => Wait IDLE_POLL
      | ProgressUndecodable => StopUntilUpgraded (UpgradeUndecodable (followed_upto (applied st)))
      | ProgressRefused =>
          if bool_decide (is_Some (group (state (applied st)))) then StopExpelled
          else Wait REFUSED_BACKOFF
      end
  end.

(** [Hint], and whether it ends the wait of [wait_for_a_reason]. *)
Inductive Hint : Type := Reaches (up_to : N) | MayHaveMissed.
Definition hint_is_a_reason (cursor : N) (h : Hint) : bool :=
  match h with
  | Reaches up_to => negb (bool_decide (up_to ≤ cursor)%N)
  | MayHaveMissed => true
  end.
End follower.
