(* ===== verification/RaftFixtures.v ===== *)
(** * Concrete instances for the Raft layer

    A toy openraft, whose members and terms are numbers, and a toy postcard,
    which numbers the applied state by its countability. *)

From S2P Require Import Prelude Ids GroupSettings Events Membership RaftLog RaftState Fixtures.

(** ** Countability of what is stored *)

#[export] Instance GroupSettings_countable : Countable GroupSettings.
Proof.
  apply (inj_countable'
    (λ s, (replicas s, cap_bytes s, weight_step_bytes s, min_pledge_bytes s, pending_expiry s,
           settle_secs s, max_settle_secs s, emergency_after_secs s, min_transfer_rate s,
           probes s, probe_every_secs s, failure_window_secs s))
    (λ '(a, b, c, d, e, f, g, h, i, j, k, l), Build_GroupSettings a b c d e f g h i j k l)).
  by intros [].
Defined.

#[export] Instance NodeAddr_countable : Countable NodeAddr.
Proof.
  apply (inj_countable' (λ a, (relay a, direct a)) (λ '(r, d), Build_NodeAddr r d)). by intros [].
Defined.

#[export] Instance MemberProfile_countable : Countable MemberProfile.
Proof.
  apply (inj_countable' (λ p, (profile_id p, profile_name p)) (λ '(i, n), Build_MemberProfile i n)).
  by intros [].
Defined.

#[export] Instance MemberRecord_countable : Countable MemberRecord.
Proof.
  apply (inj_countable' (λ r, (member_id r, display_name r, pledge_bytes r, protocol_max r))
    (λ '(a, b, c, d), Build_MemberRecord a b c d)).
  by intros [].
Defined.

#[export] Instance MembershipEvent_countable : Countable MembershipEvent.
Proof.
  apply (inj_countable'
    (λ ev, match ev with
     | GroupFounded g f s => inl (g, f, s)
     | MemberAdded m => inr (inl m)
     | MemberExpelled m r => inr (inr (inl (m, r)))
     | PledgeChanged m p => inr (inr (inr (inl (m, p))))
     | CoreGroupChanged c => inr (inr (inr (inr (inl c))))
     | Approved p => inr (inr (inr (inr (inr (inl p)))))
     | Withdrawn p => inr (inr (inr (inr (inr (inr (inl p))))))
     | ProtocolSupported m x => inr (inr (inr (inr (inr (inr (inr (inl (m, x))))))))
     | ProtocolRaised t => inr (inr (inr (inr (inr (inr (inr (inr t)))))))
     end)
    (λ x, match x with
     | inl (g, f, s) => GroupFounded g f s
     | inr (inl m) => MemberAdded m
     | inr (inr (inl (m, r))) => MemberExpelled m r
     | inr (inr (inr (inl (m, p)))) => PledgeChanged m p
     | inr (inr (inr (inr (inl c)))) => CoreGroupChanged c
     | inr (inr (inr (inr (inr (inl p))))) => Approved p
     | inr (inr (inr (inr (inr (inr (inl p)))))) => Withdrawn p
     | inr (inr (inr (inr (inr (inr (inr (inl (m, x)))))))) => ProtocolSupported m x
     | inr (inr (inr (inr (inr (inr (inr (inr t))))))) => ProtocolRaised t
     end)).
  by intros [].
Defined.

#[export] Instance Proposal_countable : Countable Proposal.
Proof.
  apply (inj_countable' (λ p, (proposal_event p, proposal_proposer p, proposal_approvals p))
    (λ '(a, b, c), Build_Proposal a b c)).
  by intros [].
Defined.

#[export] Instance MembershipState_countable : Countable MembershipState.
Proof.
  apply (inj_countable'
    (λ s, (group s, members s, core s, pending s, changed_at s, settings s, protocol s))
    (λ '(a, b, c, d, e, f, g), Build_MembershipState a b c d e f g)).
  by intros [].
Defined.

(** ** The toy openraft and postcard *)

#[export] Instance test_openraft : Openraft := {|
  LeaderId := N;
  leader_lt a b := bool_decide (a < b)%N;
  show_leader _ := "1";
  Vote := N;
  RawMemberId := N;
  member_of_raw n := Some (member n);
  RaftMembership := list N;
  no_membership := [];
  voter_ids ids := ids;
  get_node _ _ := Some addr;
  stored_len _ _ := 300%N;
|}.

Definition TestLogId : Type := @LogId test_crypto test_openraft.
Definition TestApplied : Type := @Applied test_crypto test_openraft.

#[export] Instance LogId_countable : Countable TestLogId.
Proof.
  refine (inj_countable' (A := N * N) (λ i : TestLogId, (leader_id i, log_index i))
    (λ x, @Build_LogId test_crypto test_openraft x.1 x.2) _).
  by intros [].
Defined.

#[export] Instance StoredMembership_dec : EqDecision (@StoredMembership test_crypto test_openraft).
Proof. apply _. Defined.
#[export] Instance Applied_eq_dec : EqDecision TestApplied.
Proof. solve_decision. Defined.

#[export] Instance Applied_countable : Countable TestApplied.
Proof.
  refine (inj_countable' (A := option TestLogId * (option TestLogId * list N) * MembershipState * N)
    (λ a : TestApplied,
      (last_applied a, (stored_at (membership a), stored_config (membership a)), state a,
       followed_upto a))
    (λ x, @Build_Applied test_crypto test_openraft x.1.1.1
      (@Build_StoredMembership test_crypto test_openraft x.1.1.2.1 x.1.1.2.2) x.1.2 x.2) _).
  by intros [? [] ? ?].
Defined.

#[export] Instance test_postcard : Postcard := {|
  encode_applied (a : TestApplied) := [Npos (encode a)];
  decode_applied bytes := match bytes with [Npos p] => decode (A := TestApplied) p | _ => None end;
|}.

Lemma test_postcard_law a : decode_applied (encode_applied a) = Some a.
Proof. apply decode_encode. Qed.

(** A core node's log: the founding of a group, a blank entry and a change,
    after Raft's own configuration at index 0. *)
Definition test_entry (index : N) (p : EntryPayload) : Entry :=
  {| log_id := {| leader_id := 1%N; log_index := index |}; payload := p |}.

Definition test_entries : list Entry :=
  [test_entry 0 (Reconfigured [1%N]); test_entry 1 (Normal (found_by [1; 2]%N)); test_entry 2 Blank;
   test_entry 3 (Normal (signed_by 1 1 (MemberAdded (profile 4)))); test_entry 4 Blank].

Definition test_log : LogStore := append test_entries empty_log_store.

Definition fresh_store : Store := {|
  disk := empty_disk; applied := new_applied; snapshot_seq := 0; generation := 0;
  announced := new_state; announced_raft := no_stored_membership; promotion_held := None |}.
