(* ===== verification/RaftProps.v ===== *)
(** * The properties of the Raft log, the state machine and the follower *)

From S2P Require Import Prelude Ids GroupSettings Events Membership MembershipSpec MembershipInv RaftLog RaftState Follower Fixtures RaftFixtures.

(** ** A follower reaches what its core node holds *)

Section convergence.
Context `{Postcard}.
Implicit Types (ls : LogStore) (st : Store).

(** Passes, one after another, with every transaction succeeding. *)
Fixpoint passes (n : nat) (me : MemberId)
    (ask : MemberId → NodeAddr → N → result Failure Fetched) (st : Store) (sources : Sources)
  : Store * Sources :=
  match n with
  | O => (st, sources)
  | S n =>
      let '(f, _) := fetch_log_from_core_nodes me ask true st sources in
      passes n me ask (store f) (known f)
  end.

(** Every core node serves the log [ls], applied up to [core_applied]. *)
Definition serving ls (core_applied : N) (from : Source)
    (_ : MemberId) (_ : NodeAddr) (cursor : N) : result Failure Fetched :=
  Ok (fetch ls (core_state ls core_applied) core_applied from cursor).

(** The group speaks what this build speaks, all along the log. *)
Definition understood ls (core_applied : N) : Prop :=
  ∀ pre suf, events_between ls 0 core_applied = pre ++ suf →
    (protocol (fold_log pre) ≤ PROTOCOL_MAX)%N.

Lemma next_candidate_first me visited member addr queue :
  member ≠ me → member ∉ visited →
  next_candidate me visited ((member, addr) :: queue) = Some (member, addr, queue).
Proof. intros. simpl. by rewrite !bool_decide_false. Qed.

Lemma candidates_not_me s me c : c ∈ candidates s me ↔ c ∈ sources_core s ∧ c.1 ≠ me.
Proof.
  unfold candidates. rewrite elem_of_app, !list_elem_of_filter.
  destruct (decide (Some c.1 = sources_leader s)); naive_solver.
Qed.

Lemma candidates_cons s me :
  (∃ c, c ∈ sources_core s ∧ c.1 ≠ me) →
  ∃ member addr queue, candidates s me = (member, addr) :: queue ∧ member ≠ me.
Proof.
  intros (c & Hc). apply (candidates_not_me s me c) in Hc.
  destruct (candidates s me) as [|[m a] queue] eqn:E; [by apply elem_of_nil in Hc|].
  exists m, a, queue. split; [done|].
  apply (candidates_not_me s me (m, a)). rewrite E. by left.
Qed.

(** The first candidate's page ends the pass. *)
Lemma pass_entries me ask txn visits cursor member addr queue answers f up_to events more from :
  member ≠ me → member ∉ asked f →
  ask member addr cursor = Ok (Entries up_to events more from) →
  pass me ask txn (S visits) cursor ((member, addr) :: queue) answers f =
    let visited := {[member]} ∪ asked f in
    if bool_decide (up_to ≤ cursor)%N
    then ({| store := store f; known := sources_of from; asked := visited |}, UpToDate)
    else
      match apply_followed up_to events txn (store f) with
      | (st, Err _) => ({| store := st; known := sources_of from; asked := visited |}, NotStored)
      | (st, Ok _) =>
          ({| store := st; known := sources_of from; asked := visited |}, ProgressFetched more)
      end.
Proof.
  intros Hm Hv Ha. cbn [pass]. rewrite next_candidate_first by done. cbn [asked]. by rewrite Ha.
Qed.

Lemma one_pass me ls core_applied from st sources :
  follows ls core_applied st → keyed ls → understood ls core_applied →
  is_Some (group (core_state ls core_applied)) → (core_applied < u64_max)%N →
  (∃ c, c ∈ sources_core sources ∧ c.1 ≠ me) →
  let '(f, _) := fetch_log_from_core_nodes me (serving ls core_applied from) true st sources in
  follows ls core_applied (store f) ∧ known f = sources_of from ∧
  (followed_upto (applied (store f)) = core_applied ∨
   (followed_upto (applied st) < followed_upto (applied (store f)))%N).
Proof.
  intros Hf Hk Hund Hg Hmax Hsrc. pose proof Hf as [Hle _].
  unfold fetch_log_from_core_nodes.
  destruct (candidates_cons sources me Hsrc) as (m & a & queue & -> & Hm). rewrite <-app_comm_cons.
  rewrite bool_decide_false by done. change MAX_VISITED with (S 31).
  destruct (fetch_page ls (core_state ls core_applied) core_applied from
    (followed_upto (applied st)) Hg Hle Hmax) as (up_to & events & Hpage & -> & Hge & Hup & Hlt & _).
  erewrite pass_entries; [|done|apply not_elem_of_empty|unfold serving; by rewrite Hpage].
  cbv zeta.
  destruct (decide (up_to ≤ followed_upto (applied st))%N) as [Hcmp|Hcmp].
  - rewrite bool_decide_true by done. cbn beta iota; cbn [store known].
    split_and!; [done|done|left; lia].
  - rewrite bool_decide_false by done.
    pose proof (apply_followed_follows ls core_applied up_to true st Hf Hge Hup) as (Hf' & Hmono & Hend).
    pose proof (apply_followed_result up_to (events_between ls (followed_upto (applied st)) up_to)
      true st) as Hok.
    destruct (apply_followed _ _ _ _) as [st' [vs|]]; [|done]. cbn beta iota; cbn [store known fst] in *.
    split_and!; [done|done|right]. destruct Hend as [->|(Hpast & pre & suf & Hpre & Hst)]; [lia|].
    apply Hund in Hpre. rewrite Hst in Hpast. lia.
Qed.

(** C5: a follower that keeps asking core nodes that serve one log reads
    all of it: after at most as many passes as there are indexes left it
    has read to what they applied, and holds exactly their membership. *)
Theorem follower_reaches_core (n : nat) (me : MemberId) ls (core_applied : N) (from : Source)
    st (sources : Sources)
    (Hf : follows ls core_applied st) (Hk : keyed ls) (Hu : understood ls core_applied)
    (Hg : is_Some (group (core_state ls core_applied))) (Hmax : (core_applied < u64_max)%N)
    (Hsrc : ∃ c, c ∈ sources_core sources ∧ c.1 ≠ me)
    (Hfrom : ∃ c, c ∈ source_core from ∧ c.1 ≠ me)
    (Hn : (core_applied ≤ followed_upto (applied st) + N.of_nat n)%N) :
  let st' := (passes n me (serving ls core_applied from) st sources).1 in
  followed_upto (applied st') = core_applied ∧ state (applied st') = core_state ls core_applied.
Proof.
  cbv zeta. revert st sources Hf Hsrc Hn. induction n as [|n IH]; intros st sources Hf Hsrc Hn.
  - simpl. destruct Hf as [Hle Hst]. assert (followed_upto (applied st) = core_applied) as Heq by lia.
    split; [done|]. by rewrite core_state_fold, Hst, Heq.
  - cbn [passes]. pose proof (one_pass me ls core_applied from st sources Hf Hk Hu Hg Hmax Hsrc) as Hp.
    destruct (fetch_log_from_core_nodes _ _ _ _ _) as [f p].
    destruct Hp as (Hf' & Hkn & Hstep). apply IH; [done|by rewrite Hkn|].
    destruct Hf' as [Hle' _]. lia.
Qed.
End convergence.

Lemma test_log_keyed : keyed test_log.
Proof.
  assert (map_Forall (λ i entry, log_index (log_id entry) = i ∧
    (i = 0%N → match payload entry with Normal _ => False | _ => True end)) (raft_log test_log)) as Hall.
  { unfold test_log, append, set_raft_log. simpl.
    repeat (apply map_Forall_insert_2; [split; [done|]; simpl; try done; intros [=]|]).
    apply map_Forall_empty. }
  split.
  - intros i entry Hi. by apply Hall in Hi as [].
  - intros entry event He Hp. apply Hall in He as [_ He]. specialize (He eq_refl).
    by rewrite Hp in He.
Qed.

Lemma understood_prefixes `{Postcard} ls core_applied :
  Forall (λ k, (protocol (fold_log (take k (events_between ls 0 core_applied))) ≤ PROTOCOL_MAX)%N)
    (seq 0 (S (length (events_between ls 0 core_applied)))) →
  understood ls core_applied.
Proof.
  intros Hall pre suf Heq. rewrite Forall_forall in Hall.
  specialize (Hall (length pre)). rewrite Heq, take_app_length in Hall. apply Hall.
  apply elem_of_seq. rewrite length_app. lia.
Qed.

Lemma follower_reaches_core_witness :
  let from := {| source_core := [(member 1, addr)]; source_leader := Some (member 1) |} in
  let st' := (passes 4 (member 9) (serving test_log 4 from) fresh_store
    {| sources_core := [(member 1, addr)]; sources_leader := None |}).1 in
  followed_upto (applied st') = 4%N ∧ state (applied st') = core_state test_log 4.
Proof.
  refine (follower_reaches_core 4 (member 9) test_log 4
    {| source_core := [(member 1, addr)]; source_leader := Some (member 1) |} fresh_store
    {| sources_core := [(member 1, addr)]; sources_leader := None |} _ test_log_keyed _ _ _ _ _ _).
  - split; [done | reflexivity].
  - apply understood_prefixes. by_decision.
  - by_decision.
  - by_decision.
  - exists (member 1, addr). split; [by left | by_decision].
  - exists (member 1, addr). split; [by left | by_decision].
  - by_decision.
Defined.

(** ** Durable before announced *)

Section durability.
Context `{Postcard}.
Implicit Types (s : Store).

(** What is asked of the state machine. *)
Inductive request : Type :=
| Follow (up_to : N) (events : list (N * SignedEvent))
| Commit (entries : list Entry)
| ResetForPromotion
| PreparePromotion (me : MemberId)
| ResumeFollowing
| InstallSnapshot (meta : SnapshotMeta) (data : list N)
| GetBuilder
| Build (b : SnapshotBuilder).

Definition serve (r : request) (txn : bool) (s : Store) : Store :=
  match r with
  | Follow up_to events => (apply_followed up_to events txn s).1
  | Commit entries => (apply_batch entries txn s).1
  | ResetForPromotion => (reset_for_promotion txn s).1
  | PreparePromotion me => (prepare_promotion me txn s).1
  | ResumeFollowing => (resume_following txn s).1
  | InstallSnapshot meta data => (install_snapshot meta data txn s).1
  | GetBuilder => (get_snapshot_builder s).1
  | Build b => (build_snapshot b txn s).1
  end.

(** [st] is what a restart would announce. *)
Definition durable s (st : MembershipState) : Prop :=
  ∃ data a, disk_applied (disk s) = Some data ∧ decode_applied data = Some a ∧ state a = st.

Lemma announce_disk st s : disk (announce st s) = disk s.
Proof. unfold announce. by case_bool_decide. Qed.
Lemma announce_raft_disk m s : disk (announce_raft m s) = disk s.
Proof. unfold announce_raft. by case_bool_decide. Qed.
Lemma announce_raft_announced m s : announced (announce_raft m s) = announced s.
Proof. unfold announce_raft. by case_bool_decide. Qed.
Lemma announced_announce st s : announced (announce st s) = st.
Proof. unfold announce. by case_bool_decide. Qed.

#[local] Hint Rewrite announce_disk announce_raft_disk announce_raft_announced
  announced_announce : distlib.

(** C6: an observer is never told of a membership a crash could still
    take back: what a request announces is on disk by then, and a request
    whose transaction fails changes neither the disk nor what was
    announced. *)
Theorem announced_is_durable (r : request) (txn : bool) s
    (Hlaw : ∀ a, decode_applied (encode_applied a) = Some a) :
  let s' := serve r txn s in
  (announced s' = announced s ∨ durable s' (announced s')) ∧
  (txn = false → disk s' = disk s ∧ announced s' = announced s).
Proof.
  unfold durable. destruct r as [up_to events|entries| |me| |meta data| |b]; simpl;
    unfold apply_followed, apply_batch, reset_for_promotion, prepare_promotion,
      reset_projection, resume_following, install_snapshot, get_snapshot_builder,
      build_snapshot, write_txn; run.
  - destruct (follow_events _ _ _ _ _ _) as [[[st upto] pred] vs].
    destruct txn; simpl; [|auto]. autorewrite with distlib. simpl. split; [right; eauto|done].
  - destruct (apply_entries _ _) as [a rs].
    destruct txn; simpl; [|auto]. autorewrite with distlib. simpl. split; [right; eauto|done].
  - destruct txn; simpl; [|auto]. autorewrite with distlib. simpl. split; [right|done].
    by exists (encode_applied new_applied), new_applied.
  - destruct txn; simpl; [|auto]. autorewrite with distlib. simpl. split; [right|done].
    by exists (encode_applied new_applied), new_applied.
  - destruct txn; simpl; split; auto; done.
  - destruct (decode_applied data) as [a|] eqn:Ha; simpl; [|auto].
    destruct txn; simpl; [|auto]. autorewrite with distlib. simpl. split; [right; eauto|done].
  - auto.
  - destruct txn; simpl; split; auto; done.
Qed.
End durability.

Lemma announced_is_durable_witness :
  let s' := serve (Commit test_entries) true fresh_store in
  (announced s' = new_state ∨ durable s' (announced s')) ∧
  (true = false → disk s' = empty_disk ∧ announced s' = new_state).
Proof. refine (announced_is_durable (Commit test_entries) true fresh_store test_postcard_law). Defined.

(** ** The log has no holes *)

Section holes.
Context `{Openraft}.
Implicit Types (ls : LogStore).

(** The first index that was not purged, and the one the log ends before. *)
Definition log_floor ls : N :=
  match flatten (meta_last_purged ls) with Some id => log_index id + 1 | None => 0 end.

Definition log_end ls : N :=
  match state_last_log_id (get_log_state ls) with Some id => log_index id + 1 | None => 0 end.

(** The entries are keyed by their own index and fill [[floor, next)]. *)
Definition no_hole ls (next : N) : Prop :=
  (log_floor ls ≤ next)%N ∧
  (∀ i entry, raft_log ls !! i = Some entry → log_index (log_id entry) = i) ∧
  (∀ i, is_Some (raft_log ls !! i) ↔ (log_floor ls ≤ i)%N ∧ (i < next)%N).

Lemma last_entry_max {A} (m : gmap N A) k x :
  last_entry m = Some (k, x) → m !! k = Some x ∧ ∀ i, is_Some (m !! i) → (i ≤ k)%N.
Proof.
  unfold last_entry. intros Hl. pose proof (map_entries_sorted m) as Hs.
  assert ((k, x) ∈ map_entries m) as Hin by (by apply last_Some_elem_of).
  split; [by apply elem_of_map_entries|]. intros i [y Hi%elem_of_map_entries].
  apply last_Some in Hl as [pre Hpre]. rewrite Hpre in Hi, Hs.
  apply elem_of_app in Hi as [Hi|[= -> ->]%list_elem_of_singleton]; [|done].
  apply StronglySorted_app in Hs as (Hle & _ & _).
  specialize (Hle (i, y) (k, x) Hi). rewrite list_elem_of_singleton in Hle. by apply Hle.
Qed.

Lemma last_entry_none {A} (m : gmap N A) : last_entry m = None → m = ∅.
Proof.
  unfold last_entry. intros Hl%last_None. apply map_size_empty_inv.
  by rewrite <-length_map_entries, Hl.
Qed.

(** What Raft is told of the log's end is right. *)
Lemma no_hole_end ls next : no_hole ls next → log_end ls = next.
Proof.
  intros (Hle & Hkey & Hfill). unfold log_end, get_log_state, last_log_id. simpl.
  destruct (last_entry (raft_log ls)) as [[k e]|] eqn:El; simpl.
  - apply last_entry_max in El as [Hk Hmax]. rewrite (Hkey _ _ Hk).
    destruct (proj1 (Hfill k) (mk_is_Some _ _ Hk)) as [? ?].
    destruct (decide (k + 1 = next)%N) as [|Hne]; [done|].
    assert (k + 1 ≤ k)%N; [|lia]. apply Hmax, Hfill. lia.
  - apply last_entry_none in El. fold (log_floor ls).
    destruct (decide (log_floor ls = next)) as [|Hne]; [done|]. exfalso.
    destruct (proj2 (Hfill (log_floor ls))) as [? Hx]; [lia|]. by rewrite El in Hx.
Qed.

Lemma no_hole_empty : no_hole empty_log_store 0.
Proof.
  split_and!; [done| |].
  - intros i e Hi. change ((∅ : gmap N Entry) !! i = Some e) in Hi. by rewrite lookup_empty in Hi.
  - intros i. change (raft_log empty_log_store) with (∅ : gmap N Entry). rewrite lookup_empty.
    split; [by intros [? [=]]|lia].
Qed.

(** What openraft does to a log: appends at its end, replaces its tail and
    drops its head. *)
Inductive log_request : Type :=
| Append (entries : list Entry)
| Truncate (id : LogId)
| Purge (id : LogId)
| SaveVote (v : Vote)
| SaveCommitted (id : option LogId).

Definition serve_log (r : log_request) ls : LogStore :=
  match r with
  | Append entries => append entries ls
  | Truncate id => truncate id ls
  | Purge id => purge id ls
  | SaveVote v => save_vote v ls
  | SaveCommitted id => save_committed id ls
  end.

(** openraft's side of the contract. *)
Fixpoint consecutive (from : N) (entries : list Entry) : Prop :=
  match entries with
  | [] => True
  | entry :: entries => log_index (log_id entry) = from ∧ consecutive (from + 1) entries
  end.

Definition well_asked (r : log_request) ls : Prop :=
  match r with
  | Append entries => consecutive (log_end ls) entries
  | Truncate id => (log_floor ls ≤ log_index id)%N
  | Purge id => (log_floor ls ≤ log_index id + 1)%N
  | _ => True
  end.

Definition end_after (r : log_request) ls : N :=
  match r with
  | Append entries => log_end ls + N.of_nat (length entries)
  | Truncate id => N.min (log_end ls) (log_index id)
  | Purge id => N.max (log_end ls) (log_index id + 1)
  | _ => log_end ls
  end.

Lemma append_one_no_hole ls next entry :
  no_hole ls next → log_index (log_id entry) = next →
  no_hole (append [entry] ls) (next + 1).
Proof.
  intros (Hle & Hkey & Hfill) He. unfold append, set_raft_log.
  split_and!; [change (log_floor ls ≤ next + 1)%N; lia| |]; simpl.
  - intros i e [[<- <-]|[_ Hi]]%lookup_insert_Some; [done | by apply Hkey].
  - change (log_floor {| raft_log := _; meta_vote := _; meta_committed := _;
      meta_last_purged := meta_last_purged ls |}) with (log_floor ls).
    intros i. rewrite lookup_insert_is_Some', Hfill, He. lia.
Qed.

Lemma append_cons entry entries ls :
  append (entry :: entries) ls = append entries (append [entry] ls).
Proof. done. Qed.

Lemma append_no_hole ls next entries :
  no_hole ls next → consecutive next entries →
  no_hole (append entries ls) (next + N.of_nat (length entries)).
Proof.
  revert ls next. induction entries as [|entry entries IH]; intros ls next Hn Hc.
  - simpl. rewrite N.add_0_r. by destruct ls.
  - destruct Hc as [He Hc]. rewrite append_cons.
    replace (next + N.of_nat (length (entry :: entries)))%N
      with (next + 1 + N.of_nat (length entries))%N by (simpl length; lia).
    apply IH; [by apply append_one_no_hole | done].
Qed.

(** C7: the log never has a hole: whatever Raft asks within its contract
    leaves every index between the purge watermark and the end present,
    under its own index, and [get_log_state] names that end, with the
    watermark standing in for an empty log. *)
Theorem log_never_has_a_hole (r : log_request) ls
    (Hn : no_hole ls (log_end ls)) (Hr : well_asked r ls) :
  no_hole (serve_log r ls) (end_after r ls) ∧
  log_end (serve_log r ls) = end_after r ls.
Proof.
  assert (no_hole (serve_log r ls) (end_after r ls)); [|split; [done | by apply no_hole_end]].
  destruct r as [entries|id|id|v|id]; simpl in *; try exact Hn.
  - by apply append_no_hole.
  - destruct Hn as (Hle & Hkey & Hfill). unfold truncate, set_raft_log.
    split_and!; [change (log_floor ls ≤ N.min (log_end ls) (log_index id))%N; lia| |].
    + intros i e [Hi _]%map_lookup_filter_Some. by apply Hkey.
    + intros i. cbn [raft_log]. change (log_floor _) with (log_floor ls).
      specialize (Hfill i). destruct (raft_log ls !! i) as [e|] eqn:Ei.
      * destruct (decide (log_index id ≤ i)%N) as [Hd|Hd].
        -- rewrite (proj2 (map_lookup_filter_None _ _ _)); [|right; intros x _; tauto].
           split; [by intros []|lia].
        -- rewrite (proj2 (map_lookup_filter_Some _ _ _ e)) by done.
           destruct Hfill as [Hf _]. specialize (Hf ltac:(eauto)). split; [lia|eauto].
      * rewrite (proj2 (map_lookup_filter_None _ _ _)); [|by left].
        split; [by intros []|]. intros [? ?]. apply Hfill. lia.
  - destruct Hn as (Hle & Hkey & Hfill). unfold purge.
    split_and!; [unfold log_floor; simpl; lia| |].
    + intros i e [Hi _]%map_lookup_filter_Some. by apply Hkey.
    + intros i. cbn [raft_log]. unfold log_floor at 1. cbn [meta_last_purged flatten default].
      specialize (Hfill i). destruct (raft_log ls !! i) as [e|] eqn:Ei.
      * destruct (decide (i ≤ log_index id)%N) as [Hd|Hd].
        -- rewrite (proj2 (map_lookup_filter_None _ _ _)); [|right; intros x _; tauto].
           split; [by intros []|]. simpl. lia.
        -- rewrite (proj2 (map_lookup_filter_Some _ _ _ e)) by done.
           destruct Hfill as [Hf _]. specialize (Hf ltac:(eauto)). simpl. split; [lia|eauto].
      * rewrite (proj2 (map_lookup_filter_None _ _ _)); [|by left].
        split; [by intros []|]. simpl. intros [? ?]. apply Hfill. lia.
Qed.
End holes.

Lemma log_never_has_a_hole_witness :
  no_hole (serve_log (Append test_entries) empty_log_store) 5 ∧
  log_end (serve_log (Append test_entries) empty_log_store) = 5%N.
Proof.
  refine (log_never_has_a_hole (Append test_entries) empty_log_store _ _).
  - apply no_hole_empty.
  - cbn. repeat split.
Defined.

(** ** Snapshots built on the side *)

Section snapshots.
Context `{Postcard}.
Implicit Types (s : Store).

Definition serve_all (rs : list (request * bool)) s : Store :=
  foldl (λ s r, serve r.1 r.2 s) s rs.

Definition resets (r : request * bool) : bool :=
  match r.1 with ResetForPromotion | PreparePromotion _ => true | _ => false end.

Lemma announce_generation st s : generation (announce st s) = generation s.
Proof. unfold announce. by case_bool_decide. Qed.
Lemma announce_raft_generation m s : generation (announce_raft m s) = generation s.
Proof. unfold announce_raft. by case_bool_decide. Qed.
#[local] Hint Rewrite announce_generation announce_raft_generation : distlib.

Lemma serve_generation r s :
  generation (serve r.1 r.2 s) = if resets r then wrap64 (generation s + 1) else generation s.
Proof.
  destruct r as [[up_to events|entries| |me| |meta data| |b] txn]; simpl;
    unfold apply_followed, apply_batch, reset_for_promotion, prepare_promotion,
      reset_projection, resume_following, install_snapshot, get_snapshot_builder,
      build_snapshot, write_txn; run;
    [destruct (follow_events _ _ _ _ _ _) as [[[st upto] pred] vs]
    |destruct (apply_entries _ _) as [a rs] | | | |destruct (decode_applied data)| |];
    try done; destruct txn; simpl; by autorewrite with distlib.
Qed.

(** The generation counts the resets, at its width. *)
Lemma serve_all_generation rs s :
  (generation s < 2 ^ 64)%N →
  generation (serve_all rs s) = wrap64 (generation s + N.of_nat (length (filter resets rs))).
Proof.
  revert s. induction rs as [|r rs IH]; intros s Hs.
  - unfold wrap64. simpl. rewrite N.add_0_r, N.mod_small; done.
  - unfold serve_all in *. simpl foldl. rewrite IH.
    2: { rewrite serve_generation. destruct (resets r); [|done]. apply N.mod_lt. done. }
    rewrite serve_generation, filter_cons. destruct (resets r) eqn:Er; simpl.
    + unfold wrap64. rewrite N.Div0.add_mod_idemp_l. f_equal. lia.
    + done.
Qed.

Definition snapshot_last s : option LogId := disk_snapshot (disk s) ≫= λ st, meta_last (snapshot_meta st).

(** a snapshot builder may run at any time after it was got, whatever
    was served in between: it never replaces a snapshot of a later log id
    with its own, and it writes nothing once the projection was reset,
    unless the generation counter has gone all the way round. *)
Theorem late_builder_is_harmless (rs : list (request * bool)) s0 (txn : bool)
    (Hirrefl : ∀ l : LeaderId, leader_lt l l = false)
    (Hgen : (generation s0 < 2 ^ 64)%N)
    (Hwrap : (N.of_nat (length (filter resets rs)) < 2 ^ 64)%N) :
  match get_snapshot_builder s0 with
  | (s1, Ok b) =>
      let s := serve_all rs s1 in
      let s' := serve (Build b) txn s in
      log_id_lt (snapshot_last s') (snapshot_last s) = false ∧
      (filter resets rs ≠ [] → disk s' = disk s)
  | (_, Err _) => False
  end.
Proof.
  unfold get_snapshot_builder. run. set (s1 := Build_Store _ _ _ _ _ _ _).
  pose proof (serve_all_generation rs s1 Hgen) as Hg. cbn [generation s1] in Hg.
  set (s := serve_all rs s1) in *. clearbody s.
  assert (∀ l : option LogId, log_id_lt l l = false) as Hrefl.
  { intros [[l i]|]; [|done]. simpl. rewrite Hirrefl. simpl.
    by rewrite (bool_decide_false (i < i)%N), andb_false_r by lia. }
  unfold build_snapshot, write_txn, snapshot_last. run. cbn [captured captured_generation].
  destruct txn; cbn [fst set_disk disk]; [|by rewrite Hrefl].
  destruct (match disk_snapshot (disk s) with Some _ => _ | None => _ end) eqn:Hnew; simpl;
    [by rewrite Hrefl|].
  destruct (bool_decide (generation s ≠ generation s0)) eqn:Hres; simpl; [by rewrite Hrefl|].
  apply bool_decide_eq_false, dec_stable in Hres. split.
  - destruct (disk_snapshot (disk s)); simpl; [done|]. by destruct (last_applied _).
  - intros Hne. exfalso. rewrite Hg in Hres. destruct (filter resets rs) as [|r fs] eqn:Ef; [done|].
    cbn [length] in *. unfold wrap64 in Hres.
    set (n := N.of_nat (S (length fs))) in *. assert (0 < n)%N by lia. clearbody n.
    destruct (decide (generation s0 + n < 2 ^ 64)%N) as [Hlt|Hge].
    + rewrite N.mod_small in Hres by done. lia.
    + replace (generation s0 + n)%N with (generation s0 + n - 2 ^ 64 + 1 * 2 ^ 64)%N in Hres by lia.
      rewrite N.Div0.mod_add, N.mod_small in Hres by lia. lia.
Qed.
End snapshots.

Lemma late_builder_is_harmless_witness :
  match get_snapshot_builder fresh_store with
  | (s1, Ok b) =>
      let s := serve_all [(Commit test_entries, true); (PreparePromotion (member 4), true)] s1 in
      let s' := serve (Build b) true s in
      log_id_lt (snapshot_last s') (snapshot_last s) = false ∧
      (filter resets [(Commit test_entries, true); (PreparePromotion (member 4), true)] ≠ [] →
       disk s' = disk s)
  | (_, Err _) => False
  end.
Proof.
  refine (late_builder_is_harmless [(Commit test_entries, true); (PreparePromotion (member 4), true)]
    fresh_store true _ _ _).
  - intros l. apply bool_decide_eq_false. apply N.lt_irrefl.
  - by_decision.
  - by_decision.
Defined.

(** ** What a follower concludes *)

Section conclusions.
Context `{Postcard}.
Implicit Types (f : Following).

Lemma next_candidate_some me visited queue member addr rest :
  next_candidate me visited queue = Some (member, addr, rest) → member ≠ me ∧ member ∉ visited.
Proof.
  induction queue as [|[m a] queue IH]; [done|]. simpl.
  destruct (bool_decide (m = me) || bool_decide (m ∈ visited)) eqn:E; [done|].
  apply orb_false_iff in E as [?%bool_decide_eq_false ?%bool_decide_eq_false]. by intros [= <- <- <-].
Qed.

Lemma progress_refused a : progress a = ProgressRefused → 0 < refusals a ∧ otherwise a = 0.
Proof.
  unfold progress. destruct (bool_decide (0 < refusals a) && bool_decide (otherwise a = 0)) eqn:E.
  - by apply andb_true_iff in E as [?%bool_decide_eq_true ?%bool_decide_eq_true].
  - by case_match.
Qed.

(** [m] was asked, and refused or could not be reached. *)
Definition refused (ask : MemberId → NodeAddr → N → result Failure Fetched) (cursor : N) (m : MemberId) : Prop :=
  ∃ addr : NodeAddr, ask m addr cursor = Err FetchRefused.
Definition unreachable (ask : MemberId → NodeAddr → N → result Failure Fetched) (cursor : N) (m : MemberId) : Prop :=
  ∃ addr : NodeAddr, ask m addr cursor = Err FetchUnreachable.

(** What a pass that ends in a refusal has met: from [before], of whom
    nobody answered otherwise, to [after]. *)
Record all_refused me ask (cursor : N) (visits : nat) (answers : Answers)
    (before after : Following) : Prop := {
  ar_otherwise : otherwise answers = 0;
  ar_me : me ∉ asked after;
  ar_more : asked before ⊆ asked after;
  ar_bound : size (asked after) ≤ size (asked before) + visits;
  ar_store : store after = store before;
  ar_asked : ∀ m, m ∈ asked after → m ∈ asked before ∨ refused ask cursor m ∨ unreachable ask cursor m;
  ar_some : 0 < refusals answers ∨ ∃ m, m ∈ asked after ∧ refused ask cursor m;
}.

Lemma all_refused_end me ask cursor visits answers f :
  progress answers = ProgressRefused → me ∉ asked f →
  all_refused me ask cursor visits answers f f.
Proof. intros [??]%progress_refused Hme. split; auto; lia. Qed.

(** One more member asked, whose answer was counted as [step] does. *)
Lemma all_refused_step me ask cursor visits answers step f after m :
  m ∉ asked f → refused ask cursor m ∧ step = count_refusal answers ∨
    unreachable ask cursor m ∧ step = answers →
  all_refused me ask cursor visits step
    {| store := store f; known := known f; asked := {[m]} ∪ asked f |} after →
  all_refused me ask cursor (S visits) answers f after.
Proof.
  intros Hnew Hans [Ho Hme Hmore Hb Hst Hall Hsome]. cbn [asked store] in *.
  assert (size ({[m]} ∪ asked f) = S (size (asked f))) as Hsize.
  { rewrite size_union, size_singleton; [lia|]. set_solver. }
  split; [|done|set_solver|lia|done| |].
  - by destruct Hans as [[_ ->]|[_ ->]].
  - intros x [[->%elem_of_singleton|]%elem_of_union|]%Hall; [|auto..].
    right. destruct Hans as [[? _]|[? _]]; auto.
  - destruct Hans as [[? ->]|[? ->]]; [|done]. right. exists m. split; [set_solver|done].
Qed.

Lemma pass_refused me ask txn cursor visits queue answers f f' :
  pass me ask txn visits cursor queue answers f = (f', ProgressRefused) → me ∉ asked f →
  all_refused me ask cursor visits answers f f'.
Proof.
  revert queue answers f. induction visits as [|visits IH]; intros queue answers f; cbn [pass].
  { intros [= <- Hp] Hme. by apply all_refused_end. }
  destruct (next_candidate me (asked f) queue) as [[[m a] rest]|] eqn:En.
  2: { intros [= <- Hp] Hme. by apply all_refused_end. }
  apply next_candidate_some in En as [Hm Hnew].
  assert (me ∉ asked f → me ∉ {[m]} ∪ asked f) as Hme' by set_solver.
  destruct (ask m a cursor) as [[up_to events more from| |from]|[]] eqn:Ha.
  - case_bool_decide; [done|]. by destruct (apply_followed _ _ _ _) as [? []].
  - intros Hp Hme. by apply IH, ar_otherwise in Hp; [|cbn [asked]; tauto].
  - intros Hp Hme. by apply IH, ar_otherwise in Hp; [|cbn [asked]; tauto].
  - intros Hp Hme. apply IH in Hp; [|cbn [asked]; tauto].
    eapply (all_refused_step _ _ _ _ _ _ _ _ m); [done| |exact Hp]. right. split; [by exists a|done].
  - intros Hp Hme. apply IH in Hp; [|cbn [asked]; tauto].
    eapply (all_refused_step _ _ _ _ _ _ _ _ m); [done| |exact Hp]. left. split; [by exists a|done].
  - intros Hp Hme. by apply IH, ar_otherwise in Hp; [|cbn [asked]; tauto].
Qed.

(** a follower stops as expelled only when it holds a group and, of at
    most 32 other members it asked, one at least refused it and every one
    of the rest refused it too or could not be reached; the pass has then
    changed nothing it holds. *)
Theorem expelled_only_if_all_refuse me ask txn (st : Store) (sources : Sources) f p
    (Hp : fetch_log_from_core_nodes me ask txn st sources = (f, p))
    (Hstop : after_pass (store f) p = StopExpelled) :
  is_Some (group (state (applied st))) ∧ store f = st ∧
  me ∉ asked f ∧ size (asked f) ≤ MAX_VISITED ∧
  (∀ m, m ∈ asked f →
    refused ask (followed_upto (applied st)) m ∨ unreachable ask (followed_upto (applied st)) m) ∧
  ∃ m, m ∈ asked f ∧ refused ask (followed_upto (applied st)) m.
Proof.
  unfold after_pass in Hstop. destruct (stopped_behind_the_group _); [done|].
  assert (p = ProgressRefused ∧ is_Some (group (state (applied (store f))))) as [-> Hg].
  { destruct p as [[]| | | | | |]; try discriminate Hstop.
    split; [done|]. destruct (decide (is_Some (group (state (applied (store f)))))) as [|Hno]; [done|].
    by rewrite bool_decide_false in Hstop. }
  unfold fetch_log_from_core_nodes in Hp. cbv zeta in Hp.
  match type of Hp with (if ?b then _ else _) = _ => destruct b end; [congruence|].
  apply pass_refused in Hp as [_ Hme _ Hb Hst Hall Hsome]; [|apply not_elem_of_empty].
  cbn [store asked] in *. rewrite size_empty in Hb. rewrite Hst in Hg |- *.
  split_and!; [done|done|done|done| |].
  - intros m [?|?]%Hall; [set_solver|done].
  - destruct Hsome as [Hs|]; [simpl in Hs; lia|done].
Qed.
End conclusions.

Definition refusing (m : MemberId) (_ : NodeAddr) (_ : N) : result Failure Fetched :=
  if bool_decide (m = member 1) then Err FetchRefused else Err FetchUnreachable.

Definition member_store : Store :=
  (apply_followed 3 (events_between test_log 0 3) true fresh_store).1.

Lemma expelled_only_if_all_refuse_witness :
  let sources := {| sources_core := [(member 1, addr); (member 2, addr)]; sources_leader := None |} in
  let f := (fetch_log_from_core_nodes (member 4) refusing true member_store sources).1 in
  is_Some (group (state (applied member_store))) ∧ store f = member_store ∧
  member 4 ∉ asked f ∧ size (asked f) ≤ MAX_VISITED ∧
  (∀ m, m ∈ asked f →
    refused refusing (followed_upto (applied member_store)) m ∨
    unreachable refusing (followed_upto (applied member_store)) m) ∧
  ∃ m, m ∈ asked f ∧ refused refusing (followed_upto (applied member_store)) m.
Proof.
  cbv zeta.
  refine (expelled_only_if_all_refuse (member 4) refusing true member_store
    {| sources_core := [(member 1, addr); (member 2, addr)]; sources_leader := None |} _
    (fetch_log_from_core_nodes (member 4) refusing true member_store
      {| sources_core := [(member 1, addr); (member 2, addr)]; sources_leader := None |}).2 _ _).
  - apply surjective_pairing.
  - vm_compute. reflexivity.
Defined.

(** ** Folding a log again *)

Section refolding.
Context `{Crypto}.
Implicit Types (log : list (N * SignedEvent)).

(** Nobody signed against a membership still to come. *)
Definition past_seen log : Prop := ∀ i signed, (i, signed) ∈ log → (signed_changed_at signed < i)%N.

Lemma apply_entry_seen s i signed :
  apply_entry s (i, signed) ≠ s → signed_changed_at signed = changed_at s.
Proof.
  intros Hne. destruct (apply_entry_cases s i signed) as [[_ Ha]|[_ Hx]]; [|done].
  by destruct Ha as (_ & Hs & _).
Qed.

Lemma apply_entry_founded s e : is_Some (group s) → is_Some (group (apply_entry s e)).
Proof.
  destruct e as [i signed]. intros Hg.
  destruct (apply_entry_cases s i signed) as [[_ Ha]|[_ ->]]; [|done].
  destruct Ha as (_ & _ & s1 & Hstep & ->).
  simpl. destruct Hstep as [| ? s2 _ _ _ Hc | | | ? ? s2 _ _ _ _ Hc |]; simpl; eauto;
    by destruct (changes_keep _ _ _ Hc) as (-> & _).
Qed.

Lemma foldl_founded s log : is_Some (group s) → is_Some (group (foldl apply_entry s log)).
Proof. revert s. induction log; simpl; eauto using apply_entry_founded. Qed.

Lemma foldl_changed_at s log :
  foldl apply_entry s log = s ∨ changed_at (foldl apply_entry s log) ∈ log.*1.
Proof.
  induction log as [|[i signed] log IH] using rev_ind; [by left|].
  rewrite foldl_app, fmap_app, elem_of_app. simpl.
  destruct (apply_entry_changed_at (foldl apply_entry s log) i signed) as [-> | ->].
  - right. right. by apply list_elem_of_singleton.
  - destruct IH; auto.
Qed.

Lemma indexed_unfounded log : indexed log → group (fold_log log) = None → fold_log log = new_state.
Proof. intros Hi%fold_log_wf Hg. unfold wf in Hi. by rewrite Hg in Hi. Qed.

(** Every entry of a log is refused by the membership the whole log makes. *)
Lemma refold_entry pre i signed suf :
  indexed (pre ++ (i, signed) :: suf) → (signed_changed_at signed < i)%N →
  apply_entry (fold_log (pre ++ (i, signed) :: suf)) (i, signed) =
  fold_log (pre ++ (i, signed) :: suf).
Proof.
  intros Hi Hseen. set (final := fold_log _).
  assert (final = foldl apply_entry (fold_log pre) ((i, signed) :: suf)) as Hb
    by (unfold final, fold_log; by rewrite foldl_app).
  assert (final = foldl apply_entry (apply_entry (fold_log pre) (i, signed)) suf) as Ha by done.
  assert (indexed pre ∧ indexed (pre ++ [(i, signed)]) ∧ ∀ j, j ∈ suf.*1 → (i < j)%N)
    as (Hpre & Hpre' & Hsuf).
  { unfold indexed in *. rewrite !fmap_app in *. simpl in *.
    apply StronglySorted_app in Hi as (Hall & Hs & [Hlt _]%StronglySorted_cons).
    split_and!; [done| |rewrite Forall_forall in Hlt; by apply Hlt].
    apply StronglySorted_app. split_and!; [|done|repeat constructor].
    intros x y Hx ->%list_elem_of_singleton. apply Hall; [done|by left]. }
  destruct (group final) as [g|] eqn:Hg.
  - destruct (decide (apply_entry final (i, signed) = final)) as [|Hne]; [done|].
    pose proof (apply_entry_seen _ _ _ Hne) as Hc.
    destruct (foldl_changed_at (fold_log pre) ((i, signed) :: suf)) as [Hx|Hx].
    2: { rewrite <-Hb, <-Hc in Hx. apply elem_of_cons in Hx as [Hx|Hx%Hsuf]; simpl in *; lia. }
    destruct (foldl_changed_at (apply_entry (fold_log pre) (i, signed)) suf) as [Hy|Hy].
    2: { rewrite <-Ha, <-Hc in Hy. apply Hsuf in Hy. lia. }
    rewrite <-Hb in Hx. rewrite <-Ha in Hy. by rewrite Hx, <-Hy, Hx.
  - assert (group (fold_log pre) = None ∧ group (apply_entry (fold_log pre) (i, signed)) = None)
      as [Hg1 Hg2].
    { split; apply eq_None_not_Some; intros Hs.
      - apply (foldl_founded _ ((i, signed) :: suf)) in Hs. rewrite <-Hb, Hg in Hs. by destruct Hs.
      - apply (foldl_founded _ suf) in Hs. rewrite <-Ha, Hg in Hs. by destruct Hs. }
    apply (indexed_unfounded _ Hpre) in Hg1. rewrite <-fold_log_snoc in Hg2.
    apply (indexed_unfounded _ Hpre') in Hg2. rewrite fold_log_snoc, Hg1 in Hg2.
    apply (indexed_unfounded _ Hi) in Hg. fold final in Hg. by rewrite Hg.
Qed.

(** Folding a whole log again over what it made changes nothing, so a
    follower that reads from the start again only refuses what it reads;
    this needs every entry to have been signed against a membership that
    came before it. *)
Theorem refolding_changes_nothing log (Hi : indexed log) (Hseen : past_seen log) :
  foldl apply_entry (fold_log log) log = fold_log log.
Proof.
  assert (∀ l, l ⊆ log → foldl apply_entry (fold_log log) l = fold_log log) as Hall; [|by apply Hall].
  induction l as [|[i signed] l IH]; [done|]. intros Hsub. simpl.
  assert ((i, signed) ∈ log) as Hin by (apply Hsub; by left).
  assert (apply_entry (fold_log log) (i, signed) = fold_log log) as Hsame.
  { pose proof (Hseen _ _ Hin). apply list_elem_of_split in Hin as (pre & suf & Heq).
    rewrite Heq in Hi |- *. by apply refold_entry. }
  rewrite Hsame. apply IH. intros x Hx. apply Hsub. by right.
Qed.
End refolding.

Lemma refolding_changes_nothing_witness :
  foldl apply_entry (fold_log (events_between test_log 0 4)) (events_between test_log 0 4)
  = fold_log (events_between test_log 0 4).
Proof.
  refine (refolding_changes_nothing (events_between test_log 0 4) _ _).
  - apply events_between_indexed.
  - assert (Forall (λ e, (signed_changed_at e.2 < e.1)%N) (events_between test_log 0 4)) as Hall
      by by_decision.
    intros i signed Hin. rewrite Forall_forall in Hall. by apply (Hall (i, signed)).
Defined.

(** A log one of whose entries was signed against a membership still to
    come, and refused as such: folded again, it admits member 7. *)
Definition early_log : list (N * SignedEvent) :=
  [(1%N, found_by [1; 2; 3]%N);
   (2%N, signed_by 1 4 (MemberAdded (profile 7)));
   (3%N, signed_by 1 1 (MemberAdded (profile 4)));
   (4%N, signed_by 1 3 (MemberAdded (profile 5)))].

(** Folding again is not harmless for every log: an entry claiming a later
    membership was refused where it stood, and is accepted the second time. *)
Lemma refolding_can_admit :
  members (fold_log early_log) !! member 7 = None ∧
  is_Some (members (foldl apply_entry (fold_log early_log) early_log) !! member 7).
Proof. split; by_decision. Qed.

(** Right after a promotion's reset a node's position is zero again. *)
Lemma promotion_resets_position `{Postcard} me s :
  position (serve (PreparePromotion me) true s) = 0%N.
Proof.
  unfold position, serve, prepare_promotion, reset_projection, write_txn. run.
  unfold announce. case_bool_decide; simpl; unfold announce_raft; by case_bool_decide.
Qed.

(** A page that could not be stored is taken for read: the pass that failed
    moved the cursor in memory, the next asks from there, finds nothing new,
    and neither stores nor announces the membership the node already holds. *)
Lemma failed_store_is_forgotten :
  let from := {| source_core := [(member 1, addr)]; source_leader := None |} in
  let ask := serving test_log 4 from in
  let first := fetch_log_from_core_nodes (member 4) ask false fresh_store (sources_of from) in
  let second := fetch_log_from_core_nodes (member 4) ask true (store first.1) (known first.1) in
  first.2 = NotStored ∧ second.2 = UpToDate ∧
  state (applied (store second.1)) = core_state test_log 4 ∧
  announced (store second.1) = new_state ∧ disk_applied (disk (store second.1)) = None.
Proof.
  cbv zeta. split_and!; [vm_compute; reflexivity | vm_compute; reflexivity | | |]; by_decision.
Qed.
