(* ===== verification/CoreGroup.v ===== *)
(** * Making Raft's voters the ones the log says

    [crates/distlib-consensus/src/raft/core_group.rs]. openraft's membership,
    the voter sets of its configurations and its nodes, is the class
    [RaftConfig]; a change of it that is submitted is a [ChangeMembers], which
    openraft makes or does not. What is waited for is a [Pass], which is all
    the loop looks at. *)

From S2P Require Import Prelude Ids GroupSettings Events Membership RaftLog RaftState.

(** What is read of openraft's [Membership], and [RawMemberId::from]. *)
Class RaftConfig `{Openraft} : Type := {
  raw_of_member : MemberId → RawMemberId;
  RawMemberId_eq_dec :: EqDecision RawMemberId;
  RawMemberId_countable :: Countable RawMemberId;
  (** [get_joint_config] and [nodes]. *)
  joint_config : RaftMembership → list (gset RawMemberId);
  raft_nodes : RaftMembership → gmap RawMemberId NodeAddr;
}.

(** [RETRY], in nanoseconds. *)
Definition RETRY : N := 2 * 1000000000.

Inductive Pass : Type := Converged | NotOurs | Changed | Waiting.

#[export] Instance Pass_eq_dec : EqDecision Pass.
Proof. solve_decision. Defined.

Section core_group.
Context `{RaftConfig}.

Inductive Change : Type :=
| Readdress (moved : gmap RawMemberId NodeAddr)
| Remove (departed : gset RawMemberId)
| Learn (joining : gmap RawMemberId NodeAddr)
| Promote (ready : gset RawMemberId)
| CatchingUp (behind : list MemberId).

(** openraft's changes, as this module submits them. *)
Inductive ChangeMembers : Type :=
| SetNodes (nodes : gmap RawMemberId NodeAddr)
| RemoveVoters (voters : gset RawMemberId)
| AddNodes (nodes : gmap RawMemberId NodeAddr)
| AddVoterIds (voters : gset RawMemberId)
| RemoveNodes (nodes : gset RawMemberId)
| ReplaceAllVoters (voters : gset RawMemberId).

(** What the iterator chains of [next_change] collect. *)
Definition raw_map (l : list (MemberId * NodeAddr)) : gmap RawMemberId NodeAddr :=
  collect_map ((λ e, (raw_of_member e.1, e.2)) <$> l).
Definition raw_set (l : list MemberId) : gset RawMemberId := list_to_set (raw_of_member <$> l).

(** [next_change]. *)
Definition has_moved (voters : gmap MemberId NodeAddr) (e : MemberId * NodeAddr) : bool :=
  match voters !! e.1 with Some current => bool_decide (current ≠ e.2) | None => false end.

Definition next_change (wanted voters : gmap MemberId NodeAddr) (learners : gmap MemberId bool) : option Change :=
  if decide (wanted = ∅) then None
  else
    let moved := raw_map (filter (λ e, has_moved voters e = true) (map_entries wanted)) in
    if decide (moved ≠ ∅) then Some (Readdress moved)
    else
      let joining := filter (λ m, voters !! m = None) (map_keys wanted) in
      let known := filter (λ m, is_Some (learners !! m)) joining in
      let unknown := filter (λ m, ¬ is_Some (learners !! m)) joining in
      let strangers := raw_map (omap (λ m, addr ← wanted !! m; Some (m, addr)) unknown) in
      if decide (strangers ≠ ∅) then Some (Learn strangers)
      else
        let ready := filter (λ m, default false (learners !! m) = true) known in
        let behind := filter (λ m, default false (learners !! m) ≠ true) known in
        if decide (ready ≠ []) then Some (Promote (raw_set ready))
        else if decide (behind ≠ []) then Some (CatchingUp behind)
        else
          let departed := raw_set (filter (λ m, wanted !! m = None) (map_keys voters)) in
          if decide (departed ≠ ∅) then Some (Remove departed) else None.

(** [current_voters]. *)
Definition voter_entry (m : RaftMembership) (id : RawMemberId) : option (MemberId * NodeAddr) :=
  member ← member_of_raw id;
  addr ← get_node m id;
  Some (member, addr).
Definition current_voters (m : RaftMembership) : option (gmap MemberId NodeAddr) :=
  voters ← mapM (voter_entry m) (voter_ids m); Some (collect_map voters).

(** [>=] of two [Option<u64>]. *)
Definition at_least (matched committed : option N) : bool :=
  match matched, committed with
  | _, None => true
  | None, Some _ => false
  | Some m, Some c => bool_decide (c ≤ m)%N
  end.

(** [learner_progress]. *)
Definition learner_entry (replication : option (gmap RawMemberId (option LogId))) (committed : option N)
    (e : RawMemberId * NodeAddr) : option (MemberId * bool) :=
  member ← member_of_raw e.1;
  let matched := progress ← replication; matched ← progress !! e.1; at_ ← matched; Some (log_index at_) in
  Some (member, at_least matched committed).
Definition learner_progress (m : RaftMembership) (replication : option (gmap RawMemberId (option LogId)))
    (committed : option N) : gmap MemberId bool :=
  collect_map (omap (learner_entry replication committed)
    (filter (λ e, e.1 ∉ voter_ids m) (map_to_list (raft_nodes m)))).

(** [retire_learners]: [retired] is whether a node answered, in time, that it
    has retired. *)
Definition is_retiree (wanted : MembershipState) (m : RaftMembership) (id : RawMemberId) : bool :=
  negb (bool_decide (id ∈ voter_ids m)) &&
  negb (match member_of_raw id with Some member => is_core wanted member | None => false end).
Definition retire_learners (wanted : MembershipState) (m : RaftMembership) (retired : RawMemberId → bool)
  : option (ChangeMembers * bool) * Pass :=
  if decide (core wanted = ∅) then (None, Converged)
  else
    let asked := filter (λ id, is_retiree wanted m id = true) (map_to_list (raft_nodes m)).*1 in
    let gone := filter (λ id, retired id = true) asked in
    if decide (gone ≠ []) then (Some (RemoveNodes (list_to_set gone), true), Changed)
    else if decide (asked ≠ []) then (None, Waiting) else (None, Converged).

(** What openraft reports, and what the nodes asked answer. *)
Record RaftView : Type := MkRaftView {
  is_leader : bool;
  replication : option (gmap RawMemberId (option LogId));
  applied_upto : option N;
  has_retired : RawMemberId → bool;
}.

(** [pass]: the change it submits, with whether removed voters are retained,
    and its answer if that is made. *)
Definition pass (v : RaftView) (published : MembershipState) (m : RaftMembership)
  : option (ChangeMembers * bool) * Pass :=
  if negb (is_leader v) then (None, NotOurs)
  else if decide (1 < length (joint_config m))%nat then
    ((λ target, (ReplaceAllVoters target, true)) <$> last (joint_config m), Changed)
  else
    match current_voters m with
    | None => (None, Converged)
    | Some voters =>
        match next_change (core published) voters (learner_progress m (replication v) (applied_upto v)) with
        | None => retire_learners published m (has_retired v)
        | Some (Readdress moved) => (Some (SetNodes moved, false), Changed)
        | Some (Remove departed) => (Some (RemoveVoters departed, true), Changed)
        | Some (Learn joining) => (Some (AddNodes joining, false), Changed)
        | Some (Promote ready) => (Some (AddVoterIds ready, false), Changed)
        | Some (CatchingUp _) => (None, Waiting)
        end
    end.

(** What [enact] does after a pass, which fails when its change does. *)
Inductive Next : Type := LookAgain | LookAfter (delay : N) | WaitForNews.
Definition enact (answer : result string Pass) : Next :=
  match answer with
  | Ok Changed => LookAgain
  | Ok Waiting => LookAfter RETRY
  | Err _ => LookAfter RETRY
  | Ok Converged | Ok NotOurs => WaitForNews
  end.
End core_group.
