(* ===== verification/CoreGroupProps.v ===== *)
(** * The core group comes to be what the log says

    What openraft documents of a change of its membership is [ChangeLaws];
    under it the passes of a leader end with exactly the voters the log lists,
    at the addresses it gives them, and take nobody's vote before everybody
    listed has one. *)

From S2P Require Import Prelude Ids GroupSettings Events Membership Fixtures RaftLog RaftState CoreGroup.

(** Ids and members, and what a membership's voters and nodes are. *)
Class RaftConfigLaws `{RaftConfig} : Prop := {
  member_of_raw_of m : member_of_raw (raw_of_member m) = Some m;
  raw_of_member_of r m : member_of_raw r = Some m → r = raw_of_member m;
  voters_of m r : r ∈ voter_ids m ↔ ∃ c, c ∈ joint_config m ∧ r ∈ c;
  node_of m r : get_node m r = raft_nodes m !! r;
}.

(** openraft's [change_membership], once it returns: the configuration it has
    committed. *)
Class Changes `{RaftConfig} : Type := {
  make : ChangeMembers → bool → RaftMembership → RaftMembership;
}.
Class ChangeLaws `{Changes} : Prop := {
  make_set_nodes m V nodes retain : joint_config m = [V] →
    joint_config (make (SetNodes nodes) retain m) = [V] ∧
    raft_nodes (make (SetNodes nodes) retain m) = nodes ∪ raft_nodes m;
  make_remove_voters m V ids : joint_config m = [V] →
    joint_config (make (RemoveVoters ids) true m) = [V ∖ ids] ∧
    raft_nodes (make (RemoveVoters ids) true m) = raft_nodes m;
  make_add_nodes m V nodes retain : joint_config m = [V] →
    joint_config (make (AddNodes nodes) retain m) = [V] ∧
    raft_nodes (make (AddNodes nodes) retain m) = raft_nodes m ∪ nodes;
  make_add_voter_ids m V ids retain : joint_config m = [V] → ids ⊆ dom (raft_nodes m) →
    joint_config (make (AddVoterIds ids) retain m) = [V ∪ ids] ∧
    raft_nodes (make (AddVoterIds ids) retain m) = raft_nodes m;
  make_remove_nodes m V ids retain : joint_config m = [V] → ids ## V →
    joint_config (make (RemoveNodes ids) retain m) = [V] ∧
    raft_nodes (make (RemoveNodes ids) retain m) = filter (λ e, e.1 ∉ ids) (raft_nodes m);
  make_replace_all m V : V ∈ joint_config m →
    joint_config (make (ReplaceAllVoters V) true m) = [V] ∧
    raft_nodes (make (ReplaceAllVoters V) true m) = raft_nodes m;
}.

Section props.
Context `{RaftConfig} `{!RaftConfigLaws}.

#[export] Instance raw_of_member_inj : Inj (=) (=) raw_of_member.
Proof.
  intros a b Heq. pose proof (member_of_raw_of a) as Ha. rewrite Heq, member_of_raw_of in Ha. congruence.
Qed.

Lemma raw_map_lookup l r a :
  NoDup l.*1 → raw_map l !! r = Some a ↔ ∃ x, r = raw_of_member x ∧ (x, a) ∈ l.
Proof.
  intros Hnd. unfold raw_map. split.
  - intros Hl%collect_map_elem. apply list_elem_of_fmap in Hl as ([x b] & [= -> ->] & Hin). by exists x.
  - intros (x & -> & Hin). apply collect_map_nodup.
    + rewrite <-list_fmap_compose. change (NoDup ((raw_of_member ∘ fst) <$> l)). rewrite list_fmap_compose.
      by apply NoDup_fmap_2; [apply _|].
    + apply (list_elem_of_fmap_2 (λ e, (raw_of_member e.1, e.2)) _ _ Hin).
Qed.

Lemma raw_set_elem l r : r ∈ raw_set l ↔ ∃ x, r = raw_of_member x ∧ x ∈ l.
Proof. unfold raw_set. rewrite elem_of_list_to_set. apply list_elem_of_fmap. Qed.

Lemma map_entries_filter_nodup (P : MemberId * NodeAddr → bool) (w : gmap MemberId NodeAddr) :
  NoDup (filter (λ e, P e = true) (map_entries w)).*1.
Proof.
  assert (NoDup (map_entries w).*1) as Hnd.
  { rewrite map_entries_perm. apply NoDup_fst_map_to_list. }
  induction (map_entries w) as [|e l IH]; [done|]. rewrite fmap_cons in Hnd. apply NoDup_cons in Hnd as [He Hnd].
  rewrite filter_cons. case_decide; [|by apply IH]. rewrite fmap_cons. apply NoDup_cons. split; [|by apply IH].
  intros (q & Heq & Hq)%list_elem_of_fmap. apply He. rewrite Heq.
  apply list_elem_of_filter in Hq as [_ Hq]. by apply list_elem_of_fmap_2.
Qed.

(** What the log wants, by the ids openraft has. *)
Definition wanted_raw (wanted : gmap MemberId NodeAddr) : gmap RawMemberId NodeAddr := raw_map (map_entries wanted).

Lemma wanted_raw_lookup wanted x : wanted_raw wanted !! raw_of_member x = wanted !! x.
Proof.
  apply option_eq. intros a. unfold wanted_raw.
  rewrite raw_map_lookup by (rewrite map_entries_perm; apply NoDup_fst_map_to_list). split.
  - by intros (y & <-%(inj raw_of_member) & Hin%elem_of_map_entries).
  - intros Ha. exists x. split; [done|by apply elem_of_map_entries].
Qed.

Lemma wanted_raw_is_Some wanted r : is_Some (wanted_raw wanted !! r) → ∃ x, r = raw_of_member x.
Proof.
  intros [a Ha]. apply raw_map_lookup in Ha as (x & -> & _); [by exists x|].
  rewrite map_entries_perm. apply NoDup_fst_map_to_list.
Qed.

(** ** A configuration's voters and learners *)

(** openraft's validity, and that every node's id is a member's. *)
Definition config_ok (m : RaftMembership) : Prop :=
  joint_config m ≠ [] ∧ (∀ c, c ∈ joint_config m → c ≠ ∅ ∧ c ⊆ dom (raft_nodes m)) ∧
  ∀ r, r ∈ dom (raft_nodes m) → ∃ x, r = raw_of_member x.

Lemma uniform_voters m V r : joint_config m = [V] → r ∈ voter_ids m ↔ r ∈ V.
Proof. intros Hu. rewrite voters_of, Hu. set_solver. Qed.

Lemma current_voters_spec m V :
  config_ok m → joint_config m = [V] →
  ∃ voters, current_voters m = Some voters ∧
    ∀ x a, voters !! x = Some a ↔ raw_of_member x ∈ V ∧ raft_nodes m !! raw_of_member x = Some a.
Proof.
  intros (_ & Hin & Hraw) Hu. unfold current_voters.
  assert (∀ r, r ∈ voter_ids m → ∃ x a, r = raw_of_member x ∧ raft_nodes m !! r = Some a) as Hall.
  { intros r Hr. apply (uniform_voters m V) in Hr; [|done].
    assert (r ∈ dom (raft_nodes m)) as Hd by (apply (Hin V); [rewrite Hu; set_solver|done]).
    destruct (Hraw r Hd) as [x ->]. apply elem_of_dom in Hd as [a Ha]. by exists x, a. }
  assert (∀ r x a, r = raw_of_member x → raft_nodes m !! r = Some a → voter_entry m r = Some (x, a)) as Hentry.
  { intros r x a -> Ha. unfold voter_entry. rewrite member_of_raw_of. simpl. by rewrite node_of, Ha. }
  destruct (mapM (voter_entry m) (voter_ids m)) as [l|] eqn:El.
  - apply mapM_Some in El. simpl. eexists. split; [done|]. intros x a. split.
    + intros Hl%collect_map_elem. apply list_elem_of_lookup in Hl as [i Hi].
      destruct (Forall2_lookup_r _ _ _ _ _ El Hi) as (r & Hr & He).
      assert (r ∈ voter_ids m) as Hrv by (by eapply list_elem_of_lookup_2).
      destruct (Hall r Hrv) as (y & b & -> & Hb). rewrite (Hentry _ y b) in He by done. injection He as -> ->.
      split; [|done]. by apply (uniform_voters m V).
    + intros [HV Ha]. assert (raw_of_member x ∈ voter_ids m) as Hrv by (by apply (uniform_voters m V)).
      apply list_elem_of_lookup in Hrv as [i Hi]. destruct (Forall2_lookup_l _ _ _ _ _ El Hi) as (e & He & Hv).
      rewrite (Hentry _ x a) in Hv by done. injection Hv as <-.
      assert (is_Some (collect_map l !! x)) as [b Hb].
      { apply collect_map_is_Some. apply list_elem_of_fmap. exists (x, a). split; [done|]. by eapply list_elem_of_lookup_2. }
      rewrite Hb. f_equal. apply collect_map_elem, list_elem_of_lookup in Hb as [j Hj].
      destruct (Forall2_lookup_r _ _ _ _ _ El Hj) as (r & Hr & He').
      destruct (Hall r) as (y & c & -> & Hc); [by eapply list_elem_of_lookup_2|].
      rewrite (Hentry _ y c) in He' by done. injection He' as -> ->. congruence.
  - exfalso. apply eq_None_not_Some in El. apply El, mapM_is_Some, Forall_forall.
    intros r Hr. destruct (Hall r Hr) as (x & a & Hx & Ha). exists (x, a). by apply Hentry.
Qed.

(** Whether a node has replicated everything the leader has applied. *)
Definition caught_up (replication : option (gmap RawMemberId (option LogId))) (applied : option N) (x : MemberId) : bool :=
  at_least (progress ← replication; matched ← progress !! raw_of_member x; at_ ← matched; Some (log_index at_)) applied.

Lemma learner_progress_spec m V replication applied x b :
  joint_config m = [V] →
  learner_progress m replication applied !! x = Some b ↔
  raw_of_member x ∈ dom (raft_nodes m) ∧ raw_of_member x ∉ V ∧ b = caught_up replication applied x.
Proof.
  intros Hu. unfold learner_progress. set (l := omap _ _).
  assert (∀ y c, (y, c) ∈ l ↔ raw_of_member y ∈ dom (raft_nodes m) ∧ raw_of_member y ∉ V ∧ c = caught_up replication applied y) as Hl.
  { intros y c. subst l. rewrite list_elem_of_omap. split.
    - intros ([r a] & Hin & He). apply list_elem_of_filter in Hin as [Hnv Hin%elem_of_map_to_list].
      unfold learner_entry in He. cbn [fst] in He, Hnv. destruct (member_of_raw r) as [z|] eqn:Er; [|done].
      simpl in He. injection He as -> <-. apply raw_of_member_of in Er as ->.
      rewrite (uniform_voters m V) in Hnv by done. split_and!; [apply elem_of_dom; by eexists|done|done].
    - intros ([a Ha]%elem_of_dom & HnV & ->). exists (raw_of_member y, a). split.
      + apply list_elem_of_filter. split; [by rewrite (uniform_voters m V)|by apply elem_of_map_to_list].
      + unfold learner_entry. cbn [fst]. by rewrite member_of_raw_of. }
  split.
  - intros Hx%collect_map_elem. by apply Hl.
  - intros (Hd & HnV & ->).
    assert (is_Some (collect_map l !! x)) as [c Hc].
    { apply collect_map_is_Some, list_elem_of_fmap. exists (x, caught_up replication applied x). split; [done|]. by apply Hl. }
    rewrite Hc. apply collect_map_elem, Hl in Hc as (_ & _ & ->). done.
Qed.

(** ** What a comparison says to do *)

Definition next_change_says (wanted voters : gmap MemberId NodeAddr) (learners : gmap MemberId bool) (c : option Change) : Prop :=
  match c with
  | None => wanted = ∅ ∨ (∀ x a, wanted !! x = Some a → voters !! x = Some a) ∧ (∀ x, is_Some (voters !! x) → is_Some (wanted !! x))
  | Some (Readdress moved) => moved ≠ ∅ ∧ ∀ r a, moved !! r = Some a ↔
      ∃ x a', r = raw_of_member x ∧ wanted !! x = Some a ∧ voters !! x = Some a' ∧ a' ≠ a
  | Some (Learn joining) => joining ≠ ∅ ∧ ∀ r a, joining !! r = Some a ↔
      ∃ x, r = raw_of_member x ∧ wanted !! x = Some a ∧ voters !! x = None ∧ learners !! x = None
  | Some (Promote ready) => ready ≠ ∅ ∧ ∀ r, r ∈ ready ↔
      ∃ x, r = raw_of_member x ∧ is_Some (wanted !! x) ∧ voters !! x = None ∧ learners !! x = Some true
  | Some (CatchingUp behind) => behind ≠ [] ∧ ∀ x, x ∈ behind → is_Some (wanted !! x) ∧ voters !! x = None ∧ learners !! x = Some false
  | Some (Remove departed) => departed ≠ ∅ ∧
      (∀ r, r ∈ departed ↔ ∃ x, r = raw_of_member x ∧ is_Some (voters !! x) ∧ wanted !! x = None) ∧
      wanted ≠ ∅ ∧ ∀ x a, wanted !! x = Some a → voters !! x = Some a
  end.

Lemma raw_map_empty l : raw_map l = ∅ → l = [].
Proof. destruct l as [|e l]; [done|]. intros He. exfalso. by apply (collect_map_nonempty ((λ e, (raw_of_member e.1, e.2)) <$> (e :: l))). Qed.

Lemma raw_set_nonempty l : l ≠ [] → raw_set l ≠ ∅.
Proof. destruct l as [|x l]; [done|]. intros _ He. assert (raw_of_member x ∈ raw_set (x :: l)) by (apply raw_set_elem; exists x; set_solver). set_solver. Qed.

Lemma next_change_spec wanted voters learners : next_change_says wanted voters learners (next_change wanted voters learners).
Proof.
  unfold next_change. destruct (decide (wanted = ∅)) as [->|Hne]; [by left|].
  set (moved := filter _ (map_entries wanted)).
  assert (∀ r a, raw_map moved !! r = Some a ↔
    ∃ x a', r = raw_of_member x ∧ wanted !! x = Some a ∧ voters !! x = Some a' ∧ a' ≠ a) as Hmoved.
  { intros r a. rewrite raw_map_lookup by apply map_entries_filter_nodup. subst moved. f_equiv. intros x.
    rewrite list_elem_of_filter, elem_of_map_entries. unfold has_moved. cbn [fst snd].
    destruct (voters !! x) as [a'|]; rewrite ?bool_decide_eq_true; naive_solver. }
  destruct (decide (raw_map moved ≠ ∅)) as [Hm|Hm]; [done|].
  apply dec_stable in Hm.
  assert (∀ x a a', wanted !! x = Some a → voters !! x = Some a' → a' = a) as Hsame.
  { intros x a a' Hw Hv. destruct (decide (a' = a)) as [|Hna]; [done|].
    assert (raw_map moved !! raw_of_member x = Some a) as Hl by (apply Hmoved; by exists x, a').
    by rewrite Hm in Hl. }
  set (joining := filter (λ m, voters !! m = None) (map_keys wanted)).
  assert (∀ x, x ∈ joining ↔ is_Some (wanted !! x) ∧ voters !! x = None) as Hj.
  { intros x. subst joining. rewrite list_elem_of_filter, elem_of_map_keys. tauto. }
  set (unknown := filter (λ m, ¬ is_Some (learners !! m)) joining).
  set (strangers := omap _ unknown).
  assert (∀ x a, (x, a) ∈ strangers ↔ wanted !! x = Some a ∧ voters !! x = None ∧ learners !! x = None) as Hs.
  { intros x a. subst strangers unknown. rewrite list_elem_of_omap. split.
    - intros (y & Hy & He). apply list_elem_of_filter in Hy as [Hl Hy]. apply Hj in Hy as [_ Hv].
      destruct (wanted !! y) as [b|] eqn:Ey; simpl in He; [|done]. injection He as -> ->.
      by rewrite <-eq_None_not_Some in Hl.
    - intros (Hw & Hv & Hl). exists x. rewrite list_elem_of_filter, Hj, Hw, Hl. simpl. by split_and!. }
  assert (NoDup strangers.*1) as Hnd.
  { subst strangers unknown joining. generalize (map_keys wanted) (NoDup_map_keys wanted). intros l Hl.
    induction l as [|x l IH]; [by constructor|]. apply NoDup_cons in Hl as [Hx Hl]. rewrite filter_cons.
    case_decide; [|by apply IH]. rewrite filter_cons. case_decide; [|by apply IH]. cbn [omap list_omap].
    destruct (wanted !! x) as [b|]; cbn [mbind option_bind]; [|by apply IH]. rewrite fmap_cons. apply NoDup_cons.
    split; [|by apply IH]. intros ([y c] & Heq & Hin)%list_elem_of_fmap. cbn [fst] in Heq. subst y. apply Hx. apply list_elem_of_omap in Hin as (z & Hz & He).
    apply list_elem_of_filter in Hz as [_ Hz]. apply list_elem_of_filter in Hz as [_ Hz].
    destruct (wanted !! z); simpl in He; [|done]. by injection He as <- _. }
  destruct (decide (raw_map strangers ≠ ∅)) as [Hst|Hst].
  { split; [done|]. intros r a. rewrite raw_map_lookup by done. f_equiv. intros x. by rewrite Hs. }
  apply dec_stable, raw_map_empty in Hst.
  set (known := filter (λ m, is_Some (learners !! m)) joining).
  assert (∀ x, x ∈ known ↔ is_Some (wanted !! x) ∧ voters !! x = None) as Hk.
  { intros x. subst known. rewrite list_elem_of_filter, Hj. split; [tauto|]. intros [[a Hw] Hv]. split; [|split; [by exists a|done]].
    destruct (learners !! x) as [b|] eqn:El; [by eexists|]. exfalso.
    assert ((x, a) ∈ strangers) as Hin by by apply Hs. rewrite Hst in Hin. by apply elem_of_nil in Hin. }
  assert (∀ x, x ∈ known → is_Some (learners !! x)) as Hkl by (intros x [Hx _]%list_elem_of_filter; done).
  destruct (decide (filter (λ m, default false (learners !! m) = true) known ≠ [])) as [Hr|Hr].
  { split; [by apply raw_set_nonempty|]. intros r. rewrite raw_set_elem. f_equiv. intros x.
    rewrite list_elem_of_filter, Hk. destruct (learners !! x) as [[]|]; simpl; naive_solver. }
  apply dec_stable in Hr.
  destruct (decide (filter (λ m, default false (learners !! m) ≠ true) known ≠ [])) as [Hb|Hb].
  { split; [done|]. intros x [Hd Hx]%list_elem_of_filter. pose proof (Hkl x Hx) as [b Eb]. apply Hk in Hx as [Hw Hv].
    rewrite Eb in Hd |- *. by destruct b. }
  apply dec_stable in Hb.
  assert (∀ x a, wanted !! x = Some a → voters !! x = Some a) as Hall.
  { intros x a Hw. destruct (voters !! x) as [a'|] eqn:Ev; [f_equal; by eapply Hsame|]. exfalso.
    assert (x ∈ known) as Hx by (apply Hk; by rewrite Hw).
    destruct (decide (default false (learners !! x) = true)) as [Ht|Hf].
    - assert (x ∈ filter (λ m, default false (learners !! m) = true) known) as Hin by by apply list_elem_of_filter.
      rewrite Hr in Hin. by apply elem_of_nil in Hin.
    - assert (x ∈ filter (λ m, default false (learners !! m) ≠ true) known) as Hin by by apply list_elem_of_filter.
      rewrite Hb in Hin. by apply elem_of_nil in Hin. }
  set (gone := raw_set _).
  assert (∀ r, r ∈ gone ↔ ∃ x, r = raw_of_member x ∧ is_Some (voters !! x) ∧ wanted !! x = None) as Hg.
  { intros r. subst gone. rewrite raw_set_elem. f_equiv. intros x. rewrite list_elem_of_filter, elem_of_map_keys. tauto. }
  destruct (decide (gone ≠ ∅)) as [Hgone|Hgone]; [done|]. apply dec_stable in Hgone.
  right. split; [done|]. intros x Hv. destruct (wanted !! x) eqn:Ew; [by eexists|]. exfalso.
  assert (raw_of_member x ∈ gone) as Hin by (apply Hg; by exists x). rewrite Hgone in Hin. set_solver.
Qed.
End props.

(** ** The passes of a leader, one after another

    How far openraft's membership is from what the log lists, counted so that
    every change a pass makes brings it nearer; and what holds when no pass has
    anything left to do. *)

Section reconciling.
Context `{RaftConfig} `{!RaftConfigLaws} `{!Changes} `{!ChangeLaws}.

Implicit Types (V ids : gset RawMemberId) (N nodes w : gmap RawMemberId NodeAddr).

Definition misplaced N w (r : RawMemberId) : bool :=
  match N !! r with Some addr => bool_decide (w !! r ≠ Some addr) | None => false end.

(** Wanted nodes that are unknown, at another address and no voters; voters
    that are not wanted, each of which is a node to forget after; and nodes to
    forget. *)
Definition left V N w : nat :=
  size (dom w ∖ dom N) + size (filter (λ r, misplaced N w r = true) (dom w)) + size (dom w ∖ V)
  + 2 * size (V ∖ dom w) + size ((dom N ∖ V) ∖ dom w).

Lemma size_less (X Y : gset RawMemberId) r : X ⊆ Y → r ∈ Y → r ∉ X → (size X < size Y)%nat.
Proof. intros Hsub Hy Hx. apply subset_size. set_solver. Qed.

Lemma size_union_le (X Y : gset RawMemberId) : (size (X ∪ Y) ≤ size X + size Y)%nat.
Proof.
  rewrite size_union_alt. assert (size (Y ∖ X) ≤ size Y)%nat by (apply subseteq_size; set_solver). lia.
Qed.

Lemma misplaced_mono N N' w :
  (∀ r addr, is_Some (w !! r) → N' !! r = Some addr → N !! r = Some addr ∨ w !! r = Some addr) →
  filter (λ r, misplaced N' w r = true) (dom w) ⊆ filter (λ r, misplaced N w r = true) (dom w).
Proof.
  intros Hn r. rewrite !elem_of_filter, elem_of_dom. intros [Hm Hw]. split; [|done].
  unfold misplaced in *. destruct (N' !! r) as [addr|] eqn:E; [|done]. apply bool_decide_eq_true in Hm.
  destruct (Hn r addr Hw E) as [HN|Hw']; [|done]. rewrite HN. by apply bool_decide_eq_true.
Qed.

(** ** What each change brings nearer *)

Lemma left_readdress V N w moved :
  moved ≠ ∅ → V ⊆ dom N →
  (∀ r addr, moved !! r = Some addr → r ∈ V ∧ w !! r = Some addr ∧ N !! r ≠ Some addr) →
  (left V (moved ∪ N) w < left V N w)%nat.
Proof.
  intros Hne HV Hm. assert (dom (moved ∪ N) = dom N) as Hdom.
  { apply set_eq. intros r. rewrite dom_union_L, elem_of_union. split; [|by right].
    intros [[addr Ha]%elem_of_dom|?]; [|done]. apply HV. by apply (Hm _ _ Ha). }
  unfold left. rewrite Hdom. apply map_choose in Hne as (r & addr & Hr). destruct (Hm _ _ Hr) as (HrV & Hw & HN).
  assert (size (filter (λ r, misplaced (moved ∪ N) w r = true) (dom w)) < size (filter (λ r, misplaced N w r = true) (dom w)))%nat; [|lia].
  apply (size_less _ _ r).
  - apply misplaced_mono. intros r' addr' _ [Hl|[_ Hl]]%lookup_union_Some_raw; [right; by apply Hm|by left].
  - apply elem_of_filter. split; [|by apply elem_of_dom]. unfold misplaced.
    assert (is_Some (N !! r)) as [b Hb] by (apply elem_of_dom, HV, HrV). rewrite Hb in HN |- *. apply bool_decide_eq_true. congruence.
  - rewrite elem_of_filter. intros [Hmis _]. unfold misplaced in Hmis.
    rewrite (lookup_union_Some_l _ _ _ _ Hr) in Hmis. by apply bool_decide_eq_true in Hmis.
Qed.

Lemma left_learn V N w joining :
  joining ≠ ∅ → (∀ r addr, joining !! r = Some addr → w !! r = Some addr ∧ N !! r = None) →
  (left V (N ∪ joining) w < left V N w)%nat.
Proof.
  intros Hne Hj. unfold left.
  assert (dom joining ⊆ dom w) as Hjw.
  { intros r [addr Ha]%elem_of_dom. apply elem_of_dom. exists addr. by apply Hj. }
  apply map_choose in Hne as (r & addr & Hr). destruct (Hj _ _ Hr) as [Hw HN].
  assert (size (dom w ∖ dom (N ∪ joining)) < size (dom w ∖ dom N))%nat.
  { apply (size_less _ _ r); rewrite ?dom_union_L; [set_solver| |].
    - apply elem_of_difference. split; [by apply elem_of_dom|]. by apply not_elem_of_dom.
    - assert (r ∈ dom joining) by (by apply elem_of_dom). set_solver. }
  assert (size (filter (λ r, misplaced (N ∪ joining) w r = true) (dom w)) ≤ size (filter (λ r, misplaced N w r = true) (dom w)))%nat.
  { apply subseteq_size, misplaced_mono. intros r' addr' _ [Hl|[_ Hl]]%lookup_union_Some_raw; [by left|right]. by apply Hj. }
  assert (size ((dom (N ∪ joining) ∖ V) ∖ dom w) ≤ size ((dom N ∖ V) ∖ dom w))%nat
    by (apply subseteq_size; rewrite dom_union_L; set_solver).
  lia.
Qed.

Lemma left_promote V N w ids :
  ids ≠ ∅ → ids ⊆ dom w → ids ## V → (left (V ∪ ids) N w < left V N w)%nat.
Proof.
  intros Hne Hw HV. apply set_choose_L in Hne as [r Hr]. unfold left.
  assert (size (dom w ∖ (V ∪ ids)) < size (dom w ∖ V))%nat by (apply (size_less _ _ r); set_solver).
  assert (size ((V ∪ ids) ∖ dom w) ≤ size (V ∖ dom w))%nat by (apply subseteq_size; set_solver).
  assert (size ((dom N ∖ (V ∪ ids)) ∖ dom w) ≤ size ((dom N ∖ V) ∖ dom w))%nat by (apply subseteq_size; set_solver).
  lia.
Qed.

Lemma left_remove V N w ids :
  ids ≠ ∅ → ids ≡ V ∖ dom w → (left (V ∖ ids) N w < left V N w)%nat.
Proof.
  intros Hne Hids. assert (ids = V ∖ dom w) as -> by (by apply leibniz_equiv). apply set_choose_L in Hne as [r Hr]. unfold left.
  assert (size (dom w ∖ (V ∖ (V ∖ dom w))) ≤ size (dom w ∖ V))%nat by (apply subseteq_size; set_solver).
  assert ((V ∖ (V ∖ dom w)) ∖ dom w = ∅) as -> by set_solver.
  assert (size ((dom N ∖ (V ∖ (V ∖ dom w))) ∖ dom w) ≤ size ((dom N ∖ V) ∖ dom w) + size (V ∖ dom w))%nat.
  { trans (size ((dom N ∖ V) ∖ dom w ∪ (V ∖ dom w))); [apply subseteq_size|by apply size_union_le].
    intros x. destruct (decide (x ∈ dom w)), (decide (x ∈ V)); set_solver. }
  assert (size (∅ : gset RawMemberId) < size (V ∖ dom w))%nat by (apply (size_less ∅ _ r); set_solver).
  rewrite size_empty in *. lia.
Qed.

Lemma left_forget V N w ids :
  ids ≠ ∅ → ids ⊆ (dom N ∖ V) ∖ dom w → (left V (filter (λ e, e.1 ∉ ids) N) w < left V N w)%nat.
Proof.
  intros Hne Hids. apply set_choose_L in Hne as [r Hr]. unfold left.
  assert (dom (filter (λ e, e.1 ∉ ids) N) = dom N ∖ ids) as ->.
  { apply set_eq. intros x. rewrite elem_of_difference, !elem_of_dom. split.
    - intros [a [Ha Hx]%map_lookup_filter_Some]. split; [by exists a|done].
    - intros [[a Ha] Hx]. exists a. by apply map_lookup_filter_Some. }
  assert (size (dom w ∖ (dom N ∖ ids)) ≤ size (dom w ∖ dom N))%nat by (apply subseteq_size; set_solver).
  assert (size (filter (λ r, misplaced (filter (λ e, e.1 ∉ ids) N) w r = true) (dom w)) ≤
    size (filter (λ r, misplaced N w r = true) (dom w)))%nat.
  { apply subseteq_size, misplaced_mono. intros x a _ [Ha _]%map_lookup_filter_Some. by left. }
  assert (size ((dom N ∖ ids ∖ V) ∖ dom w) < size ((dom N ∖ V) ∖ dom w))%nat by (apply (size_less _ _ r); set_solver).
  lia.
Qed.

(** ** What a pass does *)

(** What is left to change of a membership: finishing a joint configuration
    first, towards its last voters. *)
Definition left_to_change (wanted : gmap MemberId NodeAddr) (m : RaftMembership) : nat :=
  match joint_config m with
  | [V] => left V (raft_nodes m) (wanted_raw wanted)
  | configs => S (left (default ∅ (last configs)) (raft_nodes m) (wanted_raw wanted))
  end.

Lemma wanted_raw_elem wanted r : r ∈ dom (wanted_raw wanted) ↔ ∃ x, r = raw_of_member x ∧ is_Some (wanted !! x).
Proof.
  rewrite elem_of_dom. split.
  - intros Hr. destruct (wanted_raw_is_Some _ _ Hr) as [x ->]. exists x. by rewrite wanted_raw_lookup in Hr.
  - intros (x & -> & Hx). by rewrite wanted_raw_lookup.
Qed.

(** *** The change a pass makes of a configuration that is not joint *)

Section uniform.
Context (published : MembershipState) (m : RaftMembership) (V : gset RawMemberId) (v : RaftView).
Context (voters : gmap MemberId NodeAddr).
Context (Hok : config_ok m) (Hu : joint_config m = [V]).
Context (Hv : ∀ x a, voters !! x = Some a ↔ raw_of_member x ∈ V ∧ raft_nodes m !! raw_of_member x = Some a).

(** It leaves a valid configuration, nearer to what is wanted; who is wanted
    keeps its vote; nobody loses one before everybody wanted has one, where the
    log places them; and who is given one is wanted and has caught up. *)
Definition good_change (m' : RaftMembership) : Prop :=
  ∃ V', joint_config m' = [V'] ∧ config_ok m' ∧
    (left V' (raft_nodes m') (wanted_raw (core published)) < left V (raft_nodes m) (wanted_raw (core published)))%nat ∧
    (V ∩ dom (wanted_raw (core published)) ⊆ V') ∧
    (¬ V ⊆ V' → ∀ x addr, core published !! x = Some addr → raw_of_member x ∈ V ∧ raft_nodes m !! raw_of_member x = Some addr) ∧
    (∀ r, r ∈ V' → r ∉ V → ∃ x, r = raw_of_member x ∧ is_Some (core published !! x) ∧
       caught_up (replication v) (applied_upto v) x = true).

Lemma uniform_ok : V ≠ ∅ ∧ V ⊆ dom (raft_nodes m) ∧ ∀ r, r ∈ dom (raft_nodes m) → ∃ x, r = raw_of_member x.
Proof. destruct Hok as (_ & Hin & Hraw). destruct (Hin V); [rewrite Hu; set_solver|done]. Qed.

Lemma uniform_config_ok m' V' :
  joint_config m' = [V'] → V' ≠ ∅ → V' ⊆ dom (raft_nodes m') → (∀ r, r ∈ dom (raft_nodes m') → ∃ x, r = raw_of_member x) →
  config_ok m'.
Proof. intros Hc Hne Hsub Hraw. unfold config_ok. rewrite Hc. split_and!; [done| |done]. by intros c ->%list_elem_of_singleton. Qed.

Lemma no_voter x : voters !! x = None ↔ raw_of_member x ∉ V.
Proof.
  destruct uniform_ok as (_ & HVn & _). rewrite eq_None_not_Some. split; intros Hx Hy; apply Hx.
  - assert (is_Some (raft_nodes m !! raw_of_member x)) as [a Ha] by (by apply elem_of_dom, HVn). exists a. by apply Hv.
  - destruct Hy as [a [Ha _]%Hv]. done.
Qed.

Lemma readdress_good learners moved :
  next_change_says (core published) voters learners (Some (Readdress moved)) → good_change (make (SetNodes moved) false m).
Proof.
  intros [Hne Hm]. destruct uniform_ok as (HVne & HVn & Hraw). exists V.
  destruct (make_set_nodes m V moved false Hu) as [Hc Hns]. rewrite Hns.
  assert (∀ r addr, moved !! r = Some addr → r ∈ V ∧ wanted_raw (core published) !! r = Some addr ∧ raft_nodes m !! r ≠ Some addr) as Hmv.
  { intros r addr (x & b & -> & Hw & [HxV Hb]%Hv & Hba)%Hm. rewrite wanted_raw_lookup. split_and!; [done|done|congruence]. }
  split_and!; [done| |by apply left_readdress|set_solver|set_solver|set_solver].
  apply (uniform_config_ok _ V); [done|done|rewrite Hns, dom_union_L; set_solver|].
  intros r. rewrite Hns, dom_union_L, elem_of_union. intros [[b Hb]%elem_of_dom|Hr]; [|by apply Hraw].
  destruct (proj1 (Hm r b) Hb) as (x & _ & -> & _). by exists x.
Qed.

Lemma remove_good learners departed :
  next_change_says (core published) voters learners (Some (Remove departed)) → good_change (make (RemoveVoters departed) true m).
Proof.
  intros (Hne & Hd & Hwne & Hall). destruct uniform_ok as (HVne & HVn & Hraw). exists (V ∖ departed).
  destruct (make_remove_voters m V departed Hu) as [Hc Hns]. rewrite Hns.
  assert (departed ≡ V ∖ dom (wanted_raw (core published))) as Hdep.
  { intros r. rewrite elem_of_difference, wanted_raw_elem, Hd. split.
    - intros (x & -> & [a [Ha _]%Hv] & Hw). split; [done|]. intros (y & <-%(inj raw_of_member) & Hy). rewrite Hw in Hy. by destruct Hy.
    - intros [HrV Hnw]. destruct (Hraw r) as [x ->]; [by apply HVn|]. exists x. split_and!; [done| |].
      + apply not_eq_None_Some. rewrite no_voter. tauto.
      + apply eq_None_not_Some. intros Hx. apply Hnw. by exists x. }
  assert (∀ x addr, core published !! x = Some addr → raw_of_member x ∈ V ∖ departed ∧ raft_nodes m !! raw_of_member x = Some addr) as Hkeep.
  { intros x addr Hx. pose proof (Hall _ _ Hx) as [HxV Hxa]%Hv. split; [|done]. rewrite Hdep.
    assert (raw_of_member x ∈ dom (wanted_raw (core published))) by (apply wanted_raw_elem; exists x; by rewrite Hx). set_solver. }
  split_and!; [done| |by apply left_remove|set_solver| |set_solver].
  2: { intros _ x addr Hx. destruct (Hkeep _ _ Hx). set_solver. }
  apply (uniform_config_ok _ (V ∖ departed)); rewrite ?Hns; [done| |set_solver|done].
  apply map_choose in Hwne as (x & addr & Hx). destruct (Hkeep _ _ Hx). set_solver.
Qed.

Lemma learn_good joining :
  next_change_says (core published) voters (learner_progress m (replication v) (applied_upto v)) (Some (Learn joining)) →
  good_change (make (AddNodes joining) false m).
Proof.
  intros [Hne Hj]. destruct uniform_ok as (HVne & HVn & Hraw). exists V.
  destruct (make_add_nodes m V joining false Hu) as [Hc Hns]. rewrite Hns.
  assert (∀ r addr, joining !! r = Some addr → wanted_raw (core published) !! r = Some addr ∧ raft_nodes m !! r = None) as Hjn.
  { intros r addr (x & -> & Hw & HvN%no_voter & HlN)%Hj. rewrite wanted_raw_lookup. split; [done|].
    apply not_elem_of_dom. intros Hin'.
    pose proof (learner_progress_spec m V (replication v) (applied_upto v) x (caught_up (replication v) (applied_upto v) x) Hu) as Hl.
    rewrite HlN in Hl. destruct Hl as [_ Hl]. by discriminate Hl. }
  split_and!; [done| |by apply left_learn|set_solver|set_solver|set_solver].
  apply (uniform_config_ok _ V); [done|done|rewrite Hns, dom_union_L; set_solver|].
  intros r. rewrite Hns, dom_union_L, elem_of_union. intros [Hr|[b Hb]%elem_of_dom]; [by apply Hraw|].
  destruct (proj1 (Hj r b) Hb) as (x & -> & _). by exists x.
Qed.

Lemma promote_good ready :
  next_change_says (core published) voters (learner_progress m (replication v) (applied_upto v)) (Some (Promote ready)) →
  good_change (make (AddVoterIds ready) false m).
Proof.
  intros [Hne Hr]. destruct uniform_ok as (HVne & HVn & Hraw). exists (V ∪ ready).
  assert (∀ r, r ∈ ready → ∃ x, r = raw_of_member x ∧ is_Some (core published !! x) ∧ r ∉ V ∧ r ∈ dom (raft_nodes m) ∧
    caught_up (replication v) (applied_upto v) x = true) as Hrd.
  { intros r (x & -> & Hw & HvN%no_voter & Hlt)%Hr. apply (learner_progress_spec m V) in Hlt as (Hd & _ & Hc); [|done].
    exists x. by split_and!. }
  assert (ready ⊆ dom (raft_nodes m)) as Hrn by (intros r Hr'; by destruct (Hrd r Hr') as (? & ? & ? & ? & ? & ?)).
  destruct (make_add_voter_ids m V ready false Hu Hrn) as [Hc Hns]. rewrite Hns. split_and!; [done| | |set_solver|set_solver|].
  - apply (uniform_config_ok _ (V ∪ ready)); rewrite ?Hns; [done|set_solver|set_solver|done].
  - apply left_promote; [done| |].
    + intros r Hr'. destruct (Hrd r Hr') as (x & -> & Hw & _). apply wanted_raw_elem. by exists x.
    + intros r Hr'. by destruct (Hrd r Hr') as (? & ? & ? & ? & ?).
  - intros r [?|Hr']%elem_of_union HnV; [done|]. destruct (Hrd r Hr') as (x & -> & Hw & _ & _ & Hcu). by exists x.
Qed.

(** Who is asked whether it has retired. *)
Lemma is_retiree_spec r :
  r ∈ (map_to_list (raft_nodes m)).*1 → is_retiree published m r = true ↔
  r ∈ (dom (raft_nodes m) ∖ V) ∖ dom (wanted_raw (core published)).
Proof.
  intros Hr. apply list_elem_of_fmap in Hr as ([r' a] & -> & Hr%elem_of_map_to_list). cbn [fst].
  destruct uniform_ok as (_ & _ & Hraw). assert (r' ∈ dom (raft_nodes m)) as Hd by (apply elem_of_dom; by eexists).
  destruct (Hraw r' Hd) as [x ->]. unfold is_retiree, is_core.
  rewrite !elem_of_difference, wanted_raw_elem, andb_true_iff, !negb_true_iff, bool_decide_eq_false, (uniform_voters m V), member_of_raw_of,
    bool_decide_eq_false by done.
  split; intros [Ha Hb]; [split; [done|]|split; [tauto|]].
  - intros (y & <-%(inj raw_of_member) & Hy). done.
  - intros Hx. apply Hb. by exists x.
Qed.

Lemma forget_good gone :
  gone ≠ [] → (∀ r, r ∈ gone → r ∈ (dom (raft_nodes m) ∖ V) ∖ dom (wanted_raw (core published))) →
  good_change (make (RemoveNodes (list_to_set gone)) true m).
Proof.
  intros Hg Hsub. destruct uniform_ok as (HVne & HVn & Hraw). exists V.
  assert (list_to_set (C := gset RawMemberId) gone ⊆ (dom (raft_nodes m) ∖ V) ∖ dom (wanted_raw (core published))) as Hset
    by (intros r Hr%elem_of_list_to_set; by apply Hsub).
  assert (list_to_set (C := gset RawMemberId) gone ≠ ∅) as Hgne by (destruct gone; [done|cbn; set_solver]).
  destruct (make_remove_nodes m V (list_to_set gone) true Hu) as [Hc Hns]; [set_solver|]. rewrite Hns.
  split_and!; [done| |by apply left_forget|set_solver|set_solver|set_solver].
  apply (uniform_config_ok _ V); [done|done| |]; rewrite Hns.
  - intros r Hr. assert (is_Some (raft_nodes m !! r)) as [a Ha] by (by apply elem_of_dom, HVn). apply elem_of_dom. exists a.
    apply map_lookup_filter_Some. split; [done|]. cbn [fst]. set_solver.
  - intros r [a [Ha _]%map_lookup_filter_Some]%elem_of_dom. apply Hraw, elem_of_dom. by exists a.
Qed.
(** Everybody wanted votes at the address they have, nobody else does, and
    nobody is left to forget. *)
Lemma settled :
  (∀ x a, core published !! x = Some a → voters !! x = Some a) → (∀ x, is_Some (voters !! x) → is_Some (core published !! x)) →
  filter (λ id, is_retiree published m id = true) (map_to_list (raft_nodes m)).*1 = [] →
  joint_config m = [dom (wanted_raw (core published))] ∧ raft_nodes m = wanted_raw (core published).
Proof.
  intros Hin Hout Hnone. destruct uniform_ok as (HVne & HVn & Hraw).
  assert (∀ x, raw_of_member x ∈ V ↔ is_Some (core published !! x)) as HV.
  { intros x. split; [|intros [a [Ha _]%Hin%Hv]; done]. intros HxV. apply Hout. apply not_eq_None_Some. rewrite no_voter. tauto. }
  assert (V = dom (wanted_raw (core published))) as HVw.
  { apply set_eq. intros r. rewrite wanted_raw_elem. split; [|by intros (x & -> & Hx%HV)].
    intros Hr. destruct (Hraw r) as [x ->]; [by apply HVn|]. exists x. split; [done|]. by apply HV. }
  split; [by rewrite Hu, HVw|]. apply map_eq. intros r. destruct (decide (r ∈ V)) as [Hr|Hr].
  - destruct (Hraw r) as [x ->]; [by apply HVn|]. rewrite wanted_raw_lookup. apply HV in Hr as [a Ha]. rewrite Ha.
    by apply Hin, Hv in Ha as [_ Ha].
  - rewrite HVw in Hr. apply not_elem_of_dom in Hr as Hw. rewrite Hw. apply not_elem_of_dom. intros Hd.
    assert (r ∈ (map_to_list (raft_nodes m)).*1) as Hl.
    { apply elem_of_dom in Hd as [a Ha]. apply list_elem_of_fmap. exists (r, a). by rewrite elem_of_map_to_list. }
    assert (r ∈ filter (λ id, is_retiree published m id = true) (map_to_list (raft_nodes m)).*1) as Hf.
    { apply list_elem_of_filter. split; [|done]. apply is_retiree_spec; [done|]. rewrite HVw. set_solver. }
    rewrite Hnone in Hf. by apply elem_of_nil in Hf.
Qed.
End uniform.

Lemma uniform_pass published m V v ch retain answer :
  config_ok m → joint_config m = [V] → pass v published m = (Some (ch, retain), answer) →
  answer = Changed ∧ good_change published m V v (make ch retain m).
Proof.
  intros Hok Hu. unfold pass. destruct (is_leader v); [|done]. cbn [negb]. rewrite Hu. cbn [length]. rewrite decide_False by lia.
  destruct (current_voters_spec m V Hok Hu) as (voters & -> & Hv).
  pose proof (next_change_spec (core published) voters (learner_progress m (replication v) (applied_upto v))) as Hn.
  destruct (next_change _ _ _) as [[moved|departed|joining|ready|behind]|].
  - intros [= <- <- <-]. split; [done|]. by eapply readdress_good.
  - intros [= <- <- <-]. split; [done|]. by eapply remove_good.
  - intros [= <- <- <-]. split; [done|]. by eapply learn_good.
  - intros [= <- <- <-]. split; [done|]. by eapply promote_good.
  - done.
  - clear Hn. unfold retire_learners. destruct (decide (core published = ∅)) as [|Hwne]; [done|].
    set (asked := filter _ (map_to_list (raft_nodes m)).*1). set (gone := filter _ asked).
    destruct (decide (gone ≠ [])) as [Hg|]; [|by destruct (decide _)].
    intros [= <- <- <-]. split; [done|]. eapply forget_good; [done..|]. intros r Hr.
    apply list_elem_of_filter in Hr as [_ Hr]. apply list_elem_of_filter in Hr as [Hret Hr]. by eapply is_retiree_spec.
Qed.

(** The change a pass makes of a joint configuration: finishing it. *)
Lemma joint_pass published m v ch retain answer :
  config_ok m → (1 < length (joint_config m))%nat → pass v published m = (Some (ch, retain), answer) →
  answer = Changed ∧ config_ok (make ch retain m) ∧
  left_to_change (core published) m = S (left_to_change (core published) (make ch retain m)).
Proof.
  intros (Hne & Hin & Hraw) Hj. unfold pass. destruct (is_leader v); [|done]. cbn [negb]. rewrite decide_True by done.
  destruct (last (joint_config m)) as [V|] eqn:El; [|done]. intros [= <- <- <-]. split; [done|].
  assert (V ∈ joint_config m) as HV by (apply last_Some in El as [l ->]; set_solver).
  destruct (make_replace_all m V HV) as [Hc Hns]. split.
  - destruct (Hin V HV) as [HVne HVn]. apply (uniform_config_ok _ V); rewrite ?Hns; done.
  - unfold left_to_change. rewrite Hc, Hns. destruct (joint_config m) as [|a [|b l]]; [done|cbn in Hj; lia|]. by rewrite El.
Qed.

Lemma joint_target published m v ch retain answer :
  config_ok m → (1 < length (joint_config m))%nat → pass v published m = (Some (ch, retain), answer) →
  ∃ V, last (joint_config m) = Some V ∧ joint_config (make ch retain m) = [V] ∧
    raft_nodes (make ch retain m) = raft_nodes m ∧ V ≠ ∅.
Proof.
  intros (Hne & Hin & Hraw) Hj. unfold pass. destruct (is_leader v); [|done]. cbn [negb]. rewrite decide_True by done.
  destruct (last (joint_config m)) as [V|] eqn:El; [|done]. intros [= <- <- <-]. exists V.
  assert (V ∈ joint_config m) as HV by (apply last_Some in El as [l ->]; set_solver).
  destruct (make_replace_all m V HV) as [Hc Hns]. split_and!; [done..|]. by destruct (Hin V HV).
Qed.

Lemma pass_progress published m v ch retain answer :
  config_ok m → pass v published m = (Some (ch, retain), answer) →
  answer = Changed ∧ config_ok (make ch retain m) ∧
  (left_to_change (core published) (make ch retain m) < left_to_change (core published) m)%nat.
Proof.
  intros Hok Hp. destruct (decide (1 < length (joint_config m))%nat) as [Hj|Hj].
  - destruct (joint_pass _ _ _ _ _ _ Hok Hj Hp) as (? & ? & ->). split_and!; [done..|lia].
  - destruct (joint_config m) as [|V [|]] eqn:Hu; [by destruct Hok|clear Hj|cbn in Hj; lia].
    destruct (uniform_pass _ _ _ _ _ _ _ Hok Hu Hp) as (-> & V' & Hc & Hok' & Hless & _).
    split_and!; [done..|]. unfold left_to_change. by rewrite Hu, Hc.
Qed.

(** ** Passes one after another *)

(** What a pass leaves when its change is made, or is not, and how many
    changes were made so far. *)
Definition pass_once (published : MembershipState) (s : RaftMembership * nat) (v : RaftView * bool) : RaftMembership * nat :=
  match pass v.1 published s.1 with
  | (Some (ch, retain), _) => if v.2 then (make ch retain s.1, S s.2) else s
  | (None, _) => s
  end.
Definition passes (published : MembershipState) (views : list (RaftView * bool)) (m : RaftMembership) : RaftMembership * nat :=
  foldl (pass_once published) (m, 0%nat) views.

Lemma passes_progress published views : ∀ m n, config_ok m →
  let s := foldl (pass_once published) (m, n) views in
  config_ok s.1 ∧ (s.2 + left_to_change (core published) s.1 ≤ n + left_to_change (core published) m)%nat.
Proof.
  induction views as [|[v made] views IH]; intros m n Hok; [done|]. cbn [foldl].
  destruct (pass_once published (m, n) (v, made)) as [m' n'] eqn:Eo. unfold pass_once in Eo. cbn [fst snd] in Eo.
  destruct (pass v published m) as [[[ch retain]|] answer] eqn:Ep; [|injection Eo as <- <-; by apply IH].
  destruct made; injection Eo as <- <-; [|by apply IH]. destruct (pass_progress _ _ _ _ _ _ Hok Ep) as (_ & Hok' & Hless).
  destruct (IH (make ch retain m) (S n) Hok') as [Hfinal Hsum]. split; [done|]. lia.
Qed.

(** However the passes of leaders go, whatever they are told, and whichever
    of their changes openraft refuses, while the log lists the same core group
    no more changes are made than the membership differs from it, counting
    each difference once and a voter to be dropped twice; and the membership
    stays one openraft allows. *)
Theorem reconciling_ends published m views :
  config_ok m →
  config_ok (passes published views m).1 ∧
  ((passes published views m).2 + left_to_change (core published) (passes published views m).1
    ≤ left_to_change (core published) m)%nat.
Proof. intros Hok. apply (passes_progress published views m 0 Hok). Qed.

(** C9: Of the votes the membership is coming to, those of its last
    configuration, no pass takes one from a member the log lists, or from
    anybody before everybody it lists has one, where the log places them; and it
    gives one only to a member the log lists that has replicated everything
    applied. While a change of votes is under way, a pass gives and takes none:
    it brings that change to its end, so that whom the change drops, a member
    the log has listed since or not, has no vote when it ends, until a later
    pass gives it back. *)
Theorem no_vote_is_lost_early published m v ch retain answer :
  config_ok m → pass v published m = (Some (ch, retain), answer) →
  ∃ V V', last (joint_config m) = Some V ∧ joint_config (make ch retain m) = [V'] ∧ V' ≠ ∅ ∧
    (1 < length (joint_config m) → V' = V ∧ raft_nodes (make ch retain m) = raft_nodes m) ∧
    (∀ x, is_Some (core published !! x) → raw_of_member x ∈ V → raw_of_member x ∈ V') ∧
    (¬ V ⊆ V' → ∀ x addr, core published !! x = Some addr → raw_of_member x ∈ V ∧ get_node m (raw_of_member x) = Some addr) ∧
    (∀ r, r ∈ V' → r ∉ V → ∃ x, r = raw_of_member x ∧ is_Some (core published !! x) ∧
       caught_up (replication v) (applied_upto v) x = true).
Proof.
  intros Hok Hp. destruct (decide (1 < length (joint_config m))%nat) as [Hj|Hj].
  - destruct (joint_target _ _ _ _ _ _ Hok Hj Hp) as (V & HV & Hc & Hns & Hne). exists V, V. by split_and!.
  - destruct (joint_config m) as [|V [|]] eqn:Hu; [by destruct Hok| |cbn in Hj; lia].
    destruct (uniform_pass _ _ _ _ _ _ _ Hok Hu Hp) as (_ & V' & Hc & Hok' & _ & Hkeep & Hlose & Hgain).
    exists V, V'. split_and!; [done|done| |done| |  |done].
    + destruct Hok' as (_ & Hin & _). by destruct (Hin V') as [? _]; [rewrite Hc; set_solver|].
    + intros x Hx HV. apply Hkeep. apply elem_of_intersection. split; [done|]. apply wanted_raw_elem. by exists x.
    + intros Hn x addr Hx. rewrite node_of. by apply Hlose.
Qed.

(** What a pass with nothing to do, and nobody to wait for, means. *)
Lemma nothing_to_change published m v answer :
  config_ok m → core published ≠ ∅ → is_leader v = true → pass v published m = (None, answer) →
  (answer = Converged ∧ joint_config m = [dom (wanted_raw (core published))] ∧ raft_nodes m = wanted_raw (core published)) ∨
  answer = Waiting ∧
    ((∃ x, is_Some (core published !! x) ∧ caught_up (replication v) (applied_upto v) x = false) ∨
     ∃ r, r ∈ dom (raft_nodes m) ∧ has_retired v r = false).
Proof.
  intros Hok Hwne Hlead. unfold pass. rewrite Hlead. cbn [negb].
  destruct (decide (1 < length (joint_config m))%nat) as [Hj|Hj].
  { destruct (last (joint_config m)) eqn:El; [done|]. apply last_None in El. by rewrite El in Hj; cbn in Hj; lia. }
  destruct (joint_config m) as [|V [|]] eqn:Hu; [by destruct Hok|clear Hj|cbn in Hj; lia].
  destruct (current_voters_spec m V Hok Hu) as (voters & -> & Hv).
  pose proof (next_change_spec (core published) voters (learner_progress m (replication v) (applied_upto v))) as Hn.
  destruct (next_change _ _ _) as [[| | | |behind]|]; try done.
  - intros [= <-]. right. split; [done|left]. destruct Hn as [Hne Hb]. destruct behind as [|x behind]; [done|].
    destruct (Hb x) as (Hw & _ & Hl); [set_solver|]. exists x. split; [done|].
    by apply (learner_progress_spec m V) in Hl as (_ & _ & <-).
  - destruct Hn as [?|[Hin Hout]]; [done|]. unfold retire_learners. rewrite decide_False by done.
    set (asked := filter _ (map_to_list (raft_nodes m)).*1). destruct (decide (filter _ asked ≠ [])) as [|Hg]; [done|].
    apply dec_stable in Hg. destruct (decide (asked ≠ [])) as [Ha|Ha]; intros [= <-].
    + right. split; [done|right]. destruct asked as [|r asked'] eqn:Ea; [done|]. exists r. split.
      * assert (r ∈ asked) as Hr by (rewrite Ea; set_solver). subst asked. apply list_elem_of_filter in Hr as [_ Hr].
        apply list_elem_of_fmap in Hr as ([r' a] & -> & Hr%elem_of_map_to_list). apply elem_of_dom. by eexists.
      * rewrite filter_cons in Hg. case_decide as Hr; [done|]. by apply not_true_is_false.
    + left. split; [done|]. apply dec_stable in Ha.
      rewrite <-Hu. by eapply settled.
Qed.

(** A leader whose changes are made, whose learners have caught up and whose
    retired voters say so. *)
Definition responsive (v : RaftView * bool) : Prop :=
  is_leader v.1 = true ∧ v.2 = true ∧ (∀ x, caught_up (replication v.1) (applied_upto v.1) x = true) ∧
  ∀ r, has_retired v.1 r = true.

Lemma responsive_pass published m v :
  config_ok m → core published ≠ ∅ → responsive v →
  (∃ ch retain answer, pass v.1 published m = (Some (ch, retain), answer)) ∨
  (pass v.1 published m).1 = None ∧ joint_config m = [dom (wanted_raw (core published))] ∧
    raft_nodes m = wanted_raw (core published).
Proof.
  intros Hok Hne (Hlead & _ & Hup & Hret). destruct (pass v.1 published m) as [[[ch retain]|] answer] eqn:Ep; [left; by eexists _, _, _|right].
  split; [done|]. destruct (nothing_to_change _ _ _ _ Hok Hne Hlead Ep) as [(_ & ? & ?)|(_ & [(x & _ & Hx)|(r & _ & Hr)])]; [done| |].
  - by rewrite Hup in Hx.
  - by rewrite Hret in Hr.
Qed.

(** What the log lists, in effect, stays. *)
Lemma settled_stays published m views n :
  config_ok m → core published ≠ ∅ → Forall responsive views →
  left_to_change (core published) m = 0%nat → foldl (pass_once published) (m, n) views = (m, n).
Proof.
  intros Hok Hne Hall Hzero. induction Hall as [|v views Hv Hall IH]; [done|]. cbn [foldl].
  replace (pass_once published (m, n) v) with (m, n); [done|]. unfold pass_once. cbn [fst].
  destruct (responsive_pass _ _ _ Hok Hne Hv) as [(ch & retain & answer & Hp)|(Hp & _)].
  - destruct (pass_progress _ _ _ _ _ _ Hok Hp) as (_ & _ & Hless). lia.
  - by destruct (pass v.1 published m) as [[[]|] answer].
Qed.

Lemma left_settled wanted m :
  joint_config m = [dom (wanted_raw wanted)] → raft_nodes m = wanted_raw wanted → left_to_change wanted m = 0%nat.
Proof.
  intros Hc Hn. unfold left_to_change. rewrite Hc, Hn. unfold left.
  assert (filter (λ r, misplaced (wanted_raw wanted) (wanted_raw wanted) r = true) (dom (wanted_raw wanted)) = ∅) as ->.
  { apply set_eq. intros r. split; [|set_solver]. intros [Hm _]%elem_of_filter. unfold misplaced in Hm.
    destruct (wanted_raw wanted !! r); [|done]. by apply bool_decide_eq_true in Hm. }
  rewrite !(difference_diag_L (dom (wanted_raw wanted))).
  assert (∅ ∖ dom (wanted_raw wanted) = ∅) as -> by set_solver. by rewrite !size_empty.
Qed.

Lemma passes_settle published views : ∀ m n,
  config_ok m → core published ≠ ∅ → Forall responsive views → (left_to_change (core published) m < length views)%nat →
  let m' := (foldl (pass_once published) (m, n) views).1 in
  joint_config m' = [dom (wanted_raw (core published))] ∧ raft_nodes m' = wanted_raw (core published).
Proof.
  induction views as [|v views IH]; intros m n Hok Hne Hall Hlen; [cbn in Hlen; lia|].
  apply Forall_cons in Hall as [Hv Hall]. cbn [foldl].
  destruct (pass_once published (m, n) v) as [m' n'] eqn:Eo. unfold pass_once in Eo. cbn [fst snd] in Eo.
  destruct (responsive_pass _ _ _ Hok Hne Hv) as [(ch & retain & answer & Hp)|(Hp & Hc & Hn)].
  - rewrite Hp in Eo. destruct Hv as (_ & Hmade & _). rewrite Hmade in Eo. injection Eo as <- <-.
    destruct (pass_progress _ _ _ _ _ _ Hok Hp) as (_ & Hok' & Hless). apply IH; [done..|]. cbn in Hlen. lia.
  - destruct (pass v.1 published m) as [[[]|] answer]; [done|]. injection Eo as <- <-.
    by rewrite (settled_stays published m views n Hok Hne Hall (left_settled _ _ Hc Hn)).
Qed.

(** C8: From any membership openraft allows, a joint one included, once a leader
    makes one pass more than the membership differs from the core group the
    log lists, with its changes made, its learners caught up and its retired
    voters saying so, Raft's voters are exactly the members the log lists, each
    at the address it gives them; and a pass that answers that it has converged
    says the same. *)
Theorem core_group_becomes_the_logs published m views :
  config_ok m → core published ≠ ∅ → Forall responsive views →
  (left_to_change (core published) m < length views)%nat →
  ∀ m', m' = (passes published views m).1 ∨ (∃ v, config_ok m' ∧ is_leader v = true ∧ pass v published m' = (None, Converged)) →
  (∀ x, raw_of_member x ∈ voter_ids m' ↔ is_Some (core published !! x)) ∧
  ∀ x, get_node m' (raw_of_member x) = core published !! x.
Proof.
  intros Hok Hne Hall Hlen m' Hm.
  assert (joint_config m' = [dom (wanted_raw (core published))] ∧ raft_nodes m' = wanted_raw (core published)) as [Hc Hns].
  { destruct Hm as [->|(v & Hok' & Hlead & Hp)]; [by apply passes_settle|].
    by destruct (nothing_to_change _ _ _ _ Hok' Hne Hlead Hp) as [(_ & ? & ?)|[? _]]. }
  split; intros x.
  - rewrite (uniform_voters _ _ _ Hc), elem_of_dom. by rewrite wanted_raw_lookup.
  - by rewrite node_of, Hns, wanted_raw_lookup.
Qed.
End reconciling.
