(* ===== verification/CoreGroupFixtures.v ===== *)
(** * A core group that changes

    openraft's membership as its voter sets and its nodes, with the changes it
    documents; and a core group of two that is moved to two others. *)

From S2P Require Import Prelude Ids GroupSettings Events Membership RaftLog RaftState CoreGroup CoreGroupProps Fixtures.

#[local] Instance plain_openraft : Openraft := {|
  LeaderId := N;
  leader_lt a b := bool_decide (a < b)%N;
  show_leader _ := "1";
  Vote := N;
  RawMemberId := MemberId;
  member_of_raw m := Some m;
  RaftMembership := list (gset MemberId) * gmap MemberId NodeAddr;
  no_membership := ([], ∅);
  voter_ids m := elements (⋃ m.1);
  get_node m id := m.2 !! id;
  stored_len _ _ := 300%N;
|}.

#[local] Instance plain_config : RaftConfig := {|
  raw_of_member m := m;
  RawMemberId_eq_dec := MemberId_eq_dec;
  RawMemberId_countable := MemberId_countable;
  joint_config m := m.1;
  raft_nodes m := m.2;
|}.

#[local] Instance plain_config_laws : RaftConfigLaws.
Proof.
  constructor; try done.
  - by intros r m [= ->].
  - intros m r. cbn. rewrite elem_of_elements, elem_of_union_list. naive_solver.
Qed.

#[local] Instance plain_changes : Changes := {|
  make ch _ m :=
    match ch with
    | SetNodes nodes => (m.1, nodes ∪ m.2)
    | RemoveVoters ids => ((λ V, V ∖ ids) <$> m.1, m.2)
    | AddNodes nodes => (m.1, m.2 ∪ nodes)
    | AddVoterIds ids => ((λ V, V ∪ ids) <$> m.1, m.2)
    | RemoveNodes ids => (m.1, filter (λ e, e.1 ∉ ids) m.2)
    | ReplaceAllVoters V => ([V], m.2)
    end;
|}.

#[local] Instance plain_change_laws : ChangeLaws.
Proof. constructor; intros [cs ns]; cbn; intros; by subst. Qed.

Definition placed (n : N) : NodeAddr := {| relay := None; direct := {[SocketV4 n n]} |}.
Definition lists (ids : list (N * N)) : MembershipState := {|
  group := Some (MkGroupId (id32 1)); members := ∅; core := list_to_map ((λ e, (member e.1, placed e.2)) <$> ids);
  pending := ∅; changed_at := 0; settings := default_settings; protocol := 1;
|}.

(** Voters 1 and 2, where the log lists 2, elsewhere, and 3; 4 is left over. *)
Definition first_two : gset RawMemberId := {[raw_of_member (member 1); raw_of_member (member 2)]}.
Definition before : RaftMembership :=
  ([first_two : gset MemberId], list_to_map ((λ n, (member n, placed n)) <$> [1; 2; 4]%N)).
Definition listed : MembershipState := lists [(2, 7); (3, 3)]%N.
Definition seen : RaftView * bool := (MkRaftView true None None (λ _, true), true).

Lemma before_ok : config_ok before.
Proof.
  split; [done|]. split.
  - intros c ->%list_elem_of_singleton. split; [by_decision|]. by_decision.
  - intros r _. by exists r.
Qed.

Lemma reconciling_ends_witness :
  config_ok (passes listed (replicate 9 seen) before).1 ∧
  ((passes listed (replicate 9 seen) before).2 + left_to_change (core listed) (passes listed (replicate 9 seen) before).1 ≤ 6)%nat.
Proof. exact (reconciling_ends listed before (replicate 9 seen) before_ok). Defined.

(** 2 is moved, 3 is learned, 3 votes, 1 does not, and 1 and 4 are forgotten. *)
Example five_changes : (passes listed (replicate 9 seen) before).2 = 5%nat.
Proof. vm_compute. reflexivity. Qed.

(** The first pass gives 2 its address. *)
Definition first_change : option ChangeMembers :=
  match pass seen.1 listed before with (Some (ch, false), Changed) => Some ch | _ => None end.
Definition is_set_nodes (ch : option ChangeMembers) : bool := match ch with Some (SetNodes _) => true | _ => false end.

(** The votes of 1 and 2 are on their way to 2 alone, though the log lists 1. *)
Definition halfway : RaftMembership := (first_two :: [{[member 2]} : gset MemberId], raft_nodes before).
Definition lists_both : MembershipState := lists [(1, 1); (2, 2)]%N.

Lemma halfway_ok : config_ok halfway.
Proof.
  split; [done|]. split.
  - intros c [->| ->%list_elem_of_singleton]%elem_of_cons; (split; [by_decision|]); by_decision.
  - intros r _. by exists r.
Qed.

Lemma no_vote_is_lost_early_witness :
  is_set_nodes first_change = true ∧
  (∃ ch V', first_change = Some ch ∧ joint_config (make ch false before) = [V'] ∧ V' ≠ ∅) ∧
  ∃ ch, pass seen.1 lists_both halfway = (Some (ch, true), Changed) ∧ joint_config (make ch true halfway) = [{[member 2]}].
Proof.
  assert (∀ ch, pass seen.1 listed before = (Some (ch, false), Changed) →
    ∃ V', joint_config (make ch false before) = [V'] ∧ V' ≠ ∅) as Hall.
  { intros ch Hp. destruct (@no_vote_is_lost_early test_crypto plain_openraft plain_config plain_config_laws plain_changes plain_change_laws
      listed before seen.1 ch false Changed before_ok Hp)
      as (V & V' & _ & Hc & Hne & _). exists V'. split; [exact Hc|exact Hne]. }
  assert (is_set_nodes first_change = true) as Hset by (vm_compute; reflexivity).
  split; [exact Hset|]. split.
  - revert Hset. unfold first_change.
    destruct (pass seen.1 listed before) as [[[ch []]|] []]; intros Hset; try discriminate Hset.
    destruct (Hall ch eq_refl) as (V' & Hc & Hne). exists ch, V'. split; [reflexivity|]. split; [exact Hc|exact Hne].
  - exists (ReplaceAllVoters {[member 2]}). split; [reflexivity|].
    destruct (@no_vote_is_lost_early test_crypto plain_openraft plain_config plain_config_laws plain_changes plain_change_laws
      lists_both halfway seen.1 (ReplaceAllVoters {[member 2]}) true Changed halfway_ok eq_refl)
      as (V & V' & Hl & Hc & _ & Hj & _).
    destruct (Hj (Nat.lt_succ_diag_r 1)) as [-> _]. injection Hl as <-. exact Hc.
Defined.

Lemma core_group_becomes_the_logs_witness :
  (raw_of_member (member 3) ∈ voter_ids (passes listed (replicate 7 seen) before).1 ↔ is_Some (core listed !! member 3)) ∧
  get_node (passes listed (replicate 7 seen) before).1 (raw_of_member (member 2)) = Some (placed 7).
Proof.
  assert (∀ m', m' = (passes listed (replicate 7 seen) before).1 ∨
      (∃ v, config_ok m' ∧ is_leader v = true ∧ pass v listed m' = (None, Converged)) →
    (∀ x, raw_of_member x ∈ voter_ids m' ↔ is_Some (core listed !! x)) ∧
    ∀ x, get_node m' (raw_of_member x) = core listed !! x) as Hall.
  { refine (core_group_becomes_the_logs listed before (replicate 7 seen) before_ok _ _ _).
    - by_decision.
    - apply Forall_replicate. split_and!; [reflexivity|reflexivity|intros x; reflexivity|intros r; reflexivity].
    - vm_compute. lia. }
  destruct (Hall _ (or_introl eq_refl)) as [Hv Hn]. split; [apply Hv|]. rewrite Hn. by_decision.
Defined.
