(* ===== verification/Custody.v ===== *)
(** * Who keeps which item: weighted rendezvous hashing

    [crates/distlib-core/src/custody.rs]. An [f64] is a [spec_float] of
    binary64, so every rounding of a score is the one the code makes; the
    hash and the logarithm are the class [Placement]. *)

From Stdlib Require Import SpecFloat.
From S2P Require Import Prelude Ids GroupSettings.

(** ** binary64 *)

Definition f64 : Type := spec_float.

Definition F64_PREC : Z := 53.
Definition F64_EMAX : Z := 1024.

(** [n as f64]: rounded to nearest, ties to even. *)
Definition f64_of (n : N) : f64 := binary_normalize F64_PREC F64_EMAX (Z.of_N n) 0 false.
Definition f64_add : f64 → f64 → f64 := SFadd F64_PREC F64_EMAX.
Definition f64_div : f64 → f64 → f64 := SFdiv F64_PREC F64_EMAX.
Definition f64_neg : f64 → f64 := SFopp.
Definition f64_lt : f64 → f64 → bool := SFltb.
Definition f64_zero : f64 := S754_zero false.
(** [0.5]. *)
Definition f64_half : f64 := S754_finite false (2 ^ 52) (-53).

(** [f64::to_bits] of the magnitude: the biased exponent over the mantissa. *)
Definition magnitude_bits (x : f64) : Z :=
  match x with
  | S754_zero _ => 0
  | S754_infinity _ => 2047 * 2 ^ 52
  | S754_nan => 2047 * 2 ^ 52 + 2 ^ 51
  | S754_finite _ m e =>
      if bool_decide (Zpos m < 2 ^ 52)%Z then Zpos m
      else (e + 1075) * 2 ^ 52 + (Zpos m - 2 ^ 52)
  end%Z.

Definition sign_bit (x : f64) : bool :=
  match x with
  | S754_zero s | S754_infinity s | S754_finite s _ _ => s
  | S754_nan => false
  end.

(** The integer [f64::total_cmp] compares: the bits, with all but the sign
    flipped for a negative number. *)
Definition total_key (x : f64) : Z :=
  if sign_bit x then (-1 - magnitude_bits x)%Z else magnitude_bits x.

Definition total_cmp (x y : f64) : comparison := Z.compare (total_key x) (total_key y).

(** ** Scores *)

(** blake3 and libm. *)
Class Placement : Type := {
  derive_key : string → list N → list N;
  keyed_hash : list N → list N → list N;
  libm_log : f64 → f64;
}.

Record CustodyItem : Type := {
  custody_item : ItemId;
  creators : list MemberId;
  size_bytes : N;
}.

Record Ranked : Type := { score : f64; ranked_member : MemberId }.

(** [Ord for Ranked]. *)
Definition cmp_member (a b : MemberId) : comparison := N.compare (ord_num a) (ord_num b).
Definition cmp_ranked (a b : Ranked) : comparison :=
  then_with (total_cmp (score a) (score b)) (cmp_member (ranked_member b) (ranked_member a)).

(** [a > b]. *)
Definition outranks (a b : Ranked) : bool :=
  match cmp_ranked a b with Gt => true | _ => false end.

(** [highest_first] does not say [b] comes strictly before [a]. *)
Definition highest_first (a b : Ranked) : Prop := outranks b a = false.

#[export] Instance highest_first_dec : RelDecision highest_first.
Proof. intros a b. unfold highest_first. apply _. Defined.

Section ranked.
Context `{Placement}.

(** The point of (0, 1] a hash falls on: its top 53 bits moved by half a step. *)
Definition unit_of (bits : N) : f64 := f64_div (f64_add (f64_of bits) f64_half) (f64_of (2 ^ 53)).

Definition hash_bits (key : list N) (item : ItemId) (member : MemberId) : N :=
  let ids := id_bytes (item_id32 item) ++ id_bytes (member_id32 member) in
  let first := take 8 (keyed_hash key ids) in
  le_value first / 2 ^ 11.

(** [Ranked::new]. *)
Definition rank (key : list N) (item : ItemId) (member : MemberId) (weight : f64) : Ranked :=
  let h := unit_of (hash_bits key item member) in
  {| score := f64_div (f64_neg weight) (libm_log h); ranked_member := member |}.
End ranked.

(** ** The group *)

Definition CUSTODY_CONTEXT : string := "distlib.custody.v1".

Record CustodyGroup : Type := {
  group_replicas : N;
  group_key : list N;
  group_members : list (MemberId * N);
  weighted : list (MemberId * f64);
}.

(** [dedup_by_key] on the member. *)
Fixpoint dedup_members (l : list (MemberId * N)) : list (MemberId * N) :=
  match l with
  | [] => []
  | x :: l =>
      match dedup_members l with
      | y :: l' => if decide (x.1 = y.1) then x :: l' else x :: y :: l'
      | [] => [x]
      end
  end.

Definition pledge_le (x y : MemberId * N) : Prop := key_le x.1 y.1.
#[export] Instance pledge_le_dec : RelDecision pledge_le.
Proof. intros x y. unfold pledge_le. apply _. Defined.

Section group.
Context `{Placement}.

(** [CustodyGroup::new]. [sort_unstable_by_key] may leave a member's entries in
    any order where it is named twice; no caller names one twice. *)
Definition new_group (replicas : N) (rule : WeightRule) (pledges : list (MemberId * N))
  : CustodyGroup :=
  let pledges := dedup_members (merge_sort pledge_le pledges) in
  let weighted := omap (λ p : MemberId * N,
    let w := weight rule p.2 in
    if bool_decide (0 < w)%N then Some (p.1, f64_of w) else None) pledges in
  {| group_replicas := replicas; group_key := derive_key CUSTODY_CONTEXT [];
     group_members := pledges; weighted := weighted |}.

(** [binary_search_by_key] in a list sorted by member, no member twice. *)
Definition search {A} (member : MemberId) (l : list (MemberId * A)) : option A :=
  snd <$> List.find (λ e : MemberId * A, bool_decide (e.1 = member)) l.

Definition slots (g : CustodyGroup) (item : CustodyItem) : nat :=
  let created_here :=
    existsb (λ creator, bool_decide (is_Some (search creator (group_members g)))) (creators item) in
  N.to_nat (group_replicas g - (if created_here then 1 else 0)).

Definition custody_candidates (g : CustodyGroup) (item : CustodyItem) : list (MemberId * f64) :=
  filter (λ e, e.1 ∉ creators item) (weighted g).

Definition weight_of (g : CustodyGroup) (member : MemberId) : option f64 :=
  search member (weighted g).

Definition pledge_of (g : CustodyGroup) (member : MemberId) : N :=
  default 0%N (search member (group_members g)).

Definition ranked_candidates (g : CustodyGroup) (item : CustodyItem) : list Ranked :=
  (λ e, rank (group_key g) (custody_item item) e.1 e.2) <$> custody_candidates g item.

(** What [select_nth_unstable_by] leaves is one of many lists; all that is
    known of it is its contract. *)
Definition selects (select : nat → list Ranked → list Ranked) : Prop :=
  ∀ n l, n < length l →
    select n l ≡ₚ l ∧
    ∀ x y, x ∈ take n (select n l) → y ∈ drop n (select n l) → highest_first x y.

Definition custodians (select : nat → list Ranked → list Ranked) (g : CustodyGroup)
    (item : CustodyItem) : list MemberId :=
  let slots := slots g item in
  let ranked := ranked_candidates g item in
  let ranked := if bool_decide (slots < length ranked) then take slots (select slots ranked)
                else ranked in
  ranked_member <$> merge_sort highest_first ranked.

(** [.nth(slots - 1).is_none()] of the members that outrank [me]. *)
Definition is_custodian (g : CustodyGroup) (item : CustodyItem) (me : MemberId) : bool :=
  let slots := slots g item in
  match weight_of g me with
  | None => false
  | Some weight =>
      if bool_decide (slots = 0) || bool_decide (me ∈ creators item) then false
      else
        let mine := rank (group_key g) (custody_item item) me weight in
        let others := filter (λ e, e.1 ≠ me) (custody_candidates g item) in
        let above := filter (λ e,
          outranks (rank (group_key g) (custody_item item) e.1 e.2) mine) others in
        bool_decide (above !! (slots - 1) = None)
  end.

(** The rayon path collects in order too. *)
Definition custody_of (g : CustodyGroup) (me : MemberId) (items : list CustodyItem) : list ItemId :=
  match weight_of g me with
  | None => []
  | Some _ => omap (λ item, if is_custodian g item me then Some (custody_item item) else None) items
  end.

Definition first_after_custodians (g : CustodyGroup) (item : CustodyItem)
    (eligible : MemberId → bool) : option MemberId :=
  let ranked := merge_sort highest_first (ranked_candidates g item) in
  List.find eligible (ranked_member <$> drop (slots g item) ranked).

Definition demand_bytes (g : CustodyGroup) (item : CustodyItem) : N :=
  saturating_mul64 (size_bytes item) (N.of_nat (slots g item)).

Definition load_factor (g : CustodyGroup) (demand : N) : option f64 :=
  let total := foldl f64_add f64_zero (snd <$> weighted g) in
  if f64_lt f64_zero total then Some (f64_div (f64_of demand) total) else None.
End group.

(** ** Ranking: a strict order on members, and what sorting by it gives *)

(** ** The order of the ranking *)

Lemma outranks_spec a b :
  outranks a b = true ↔
  (total_key (score b) < total_key (score a))%Z ∨
  total_key (score a) = total_key (score b) ∧
  (ord_num (ranked_member a) < ord_num (ranked_member b))%N.
Proof.
  unfold outranks, cmp_ranked, then_with, total_cmp, cmp_member.
  destruct (Z.compare_spec (total_key (score a)) (total_key (score b)));
    [destruct (N.compare_spec (ord_num (ranked_member b)) (ord_num (ranked_member a)))| |];
    (split; [|try done]); intros; try done; try lia.
Qed.

Lemma outranks_false a b :
  outranks a b = false ↔
  (total_key (score a) < total_key (score b))%Z ∨
  total_key (score a) = total_key (score b) ∧
  (ord_num (ranked_member b) ≤ ord_num (ranked_member a))%N.
Proof. rewrite <-not_true_iff_false, outranks_spec. lia. Qed.

#[export] Instance highest_first_total : Total highest_first.
Proof. intros a b. unfold highest_first. rewrite !outranks_false. lia. Qed.
#[export] Instance highest_first_trans : Transitive highest_first.
Proof. intros a b c. unfold highest_first. rewrite !outranks_false. lia. Qed.

Lemma highest_first_anti a b :
  highest_first a b → highest_first b a → ranked_member a = ranked_member b.
Proof.
  unfold highest_first. rewrite !outranks_false. intros.
  apply (inj ord_num). lia.
Qed.

Lemma outranks_irrefl a : outranks a a = false.
Proof. apply outranks_false. lia. Qed.

(** Two different members are always one above the other. *)
Lemma highest_first_strict a b :
  highest_first a b → ranked_member a ≠ ranked_member b → outranks a b = true.
Proof.
  intros Hab Hne. apply not_false_iff_true. intros Hba. apply Hne. by apply highest_first_anti.
Qed.

(** ** Lists of distinct members *)

Definition distinct_members (l : list Ranked) : Prop := NoDup (ranked_member <$> l).

Lemma distinct_members_eq l a b :
  distinct_members l → a ∈ l → b ∈ l → ranked_member a = ranked_member b → a = b.
Proof.
  intros Hnd [i Hi]%list_elem_of_lookup [j Hj]%list_elem_of_lookup Heq.
  assert (i = j) as ->; [|congruence].
  eapply NoDup_lookup; [exact Hnd| |]; rewrite list_lookup_fmap; [by rewrite Hi|by rewrite Hj, Heq].
Qed.

Definition ranking (l : list Ranked) : list Ranked := merge_sort highest_first l.

Lemma ranking_perm l : ranking l ≡ₚ l.
Proof. apply merge_sort_Permutation. Qed.

Lemma ranking_distinct l : distinct_members l → distinct_members (ranking l).
Proof. unfold distinct_members. by rewrite ranking_perm. Qed.

Lemma ranking_sorted l : StronglySorted highest_first (ranking l).
Proof. apply (StronglySorted_merge_sort _). Qed.

(** Sorting is one way to select. *)
Lemma ranking_selects : selects (λ _ l, ranking l).
Proof.
  intros n l _. split; [apply ranking_perm|]. intros x y Hx Hy.
  pose proof (ranking_sorted l) as Hs. rewrite <-(take_drop n (ranking l)) in Hs.
  apply StronglySorted_app in Hs as (Hall & _ & _). by apply Hall.
Qed.

Lemma ranking_unique l k :
  distinct_members l → StronglySorted highest_first k → k ≡ₚ l → k = ranking l.
Proof.
  intros Hd Hs Hp. apply (StronglySorted_unique_on highest_first).
  - intros x y Hx Hy Hxy Hyx. apply (distinct_members_eq l); [done|by rewrite <-Hp..|].
    by apply highest_first_anti.
  - done.
  - apply ranking_sorted.
  - by rewrite ranking_perm.
Qed.

Lemma ranking_permuted l k : distinct_members l → l ≡ₚ k → ranking l = ranking k.
Proof.
  intros Hd Hp. symmetry. apply ranking_unique; [done|apply ranking_sorted|].
  by rewrite ranking_perm.
Qed.

Lemma ranking_filter (P : Ranked → Prop) `{∀ r, Decision (P r)} l :
  distinct_members l → ranking (filter P l) = filter P (ranking l).
Proof.
  intros Hd. symmetry. apply ranking_unique.
  - unfold distinct_members in *. eapply sublist_NoDup; [exact Hd|].
    apply fmap_sublist, sublist_filter.
  - apply StronglySorted_filter, ranking_sorted.
  - by rewrite ranking_perm.
Qed.

(** Whoever is above [r] comes before it, and nobody else does. *)
Lemma outrankers pre r post :
  distinct_members (pre ++ r :: post) → StronglySorted highest_first (pre ++ r :: post) →
  filter (λ x, outranks x r) (pre ++ r :: post) = pre.
Proof.
  intros Hd Hs. apply StronglySorted_app in Hs as (Hpre & _ & [Hr _]%StronglySorted_cons).
  rewrite filter_app, filter_cons_False, filter_all, filter_none, app_nil_r; [done| | |].
  - rewrite Forall_forall in Hr. intros x Hx. specialize (Hr x Hx). unfold highest_first in Hr.
    rewrite Hr. by intros [].
  - intros x Hx. apply Is_true_true, highest_first_strict; [by apply Hpre; [|left]|].
    intros Heq. unfold distinct_members in Hd. rewrite fmap_app, fmap_cons in Hd.
    apply NoDup_app in Hd as (_ & Hdisj & _). apply (Hdisj (ranked_member x)).
    + by apply list_elem_of_fmap_2.
    + rewrite Heq. by left.
  - rewrite outranks_irrefl. by intros [].
Qed.

(** Being among the first [n] is being outranked by fewer than [n]. *)
Lemma among_first l r n :
  distinct_members l → r ∈ l →
  (r ∈ take n (ranking l) ↔ length (filter (λ x, outranks x r) l) < n).
Proof.
  intros Hd Hr.
  pose proof (ranking_distinct l Hd) as Hd'.
  assert (length (filter (λ x, outranks x r) l) =
    length (filter (λ x, outranks x r) (ranking l))) as ->.
  { apply Permutation_length, filter_Permutation. by rewrite ranking_perm. }
  rewrite <-ranking_perm in Hr. pose proof (ranking_sorted l) as Hs.
  apply list_elem_of_split in Hr as (pre & post & Heq). rewrite Heq in *.
  rewrite outrankers by done. rewrite take_app. split.
  - intros [Hin|Hin]%elem_of_app.
    + exfalso. unfold distinct_members in Hd'. rewrite fmap_app, fmap_cons in Hd'.
      apply NoDup_app in Hd' as (_ & Hdisj & _). apply (Hdisj (ranked_member r)); [|by left].
      apply list_elem_of_fmap_2. by eapply subseteq_take.
    + destruct (decide (length pre < n)); [done|].
      replace (n - length pre) with 0 in Hin by lia. by apply elem_of_nil in Hin.
  - intros Hlt. apply elem_of_app. right. replace (n - length pre) with (S (n - length pre - 1)) by lia.
    left.
Qed.
