(* ===== verification/CustodyFixtures.v ===== *)
(** * A toy placement and a small group of pledges *)

From Stdlib Require Import SpecFloat.
From S2P Require Import Prelude Ids GroupSettings Custody Fixtures.

#[export] Instance test_placement : Placement := {|
  derive_key _ _ := [];
  keyed_hash _ ids := le_bytes 8 (sumN ids * 1234567890123456789);
  libm_log h := SFsub F64_PREC F64_EMAX h (f64_of 1);
|}.

(** A hash that is all ones. *)
Definition best_placement : Placement := {|
  derive_key _ _ := [];
  keyed_hash _ _ := repeat 255%N 32;
  libm_log h := SFsub F64_PREC F64_EMAX h (f64_of 1);
|}.

Definition test_pledges : list (MemberId * N) :=
  [(member 3, 500 * GB); (member 1, 200 * GB); (member 2, 100 * GB); (member 4, 50 * GB)]%N.
Definition test_group : CustodyGroup := new_group 3 (weight_rule default_settings) test_pledges.
Definition test_item (n : N) : CustodyItem :=
  {| custody_item := MkItemId (id32 n); creators := [member 1]; size_bytes := 1000 |}.
