(* ===== verification/CustodyProps.v ===== *)
(** * The properties of custody placement *)

From Stdlib Require Import SpecFloat.
From S2P Require Import Prelude Ids GroupSettings Custody Fixtures CustodyFixtures.

Section placement.
Context `{Placement}.
Implicit Types (g : CustodyGroup) (item : CustodyItem) (m me : MemberId).

(** ** A group's lists *)

(** Nobody is weighed twice. *)
Definition distinct_group g : Prop := NoDup (weighted g).*1.

Lemma dedup_sorted l :
  StronglySorted pledge_le l →
  NoDup (dedup_members l).*1 ∧ StronglySorted pledge_le (dedup_members l) ∧
  ∀ e, e ∈ dedup_members l → e ∈ l.
Proof.
  induction 1 as [|x l Hs IH Hx]; [split_and!; [constructor|constructor|done]|].
  cbn [dedup_members]. destruct IH as (Hnd & Hsd & Hin). rewrite Forall_forall in Hx.
  destruct (dedup_members l) as [|y l'].
  { split_and!; [apply NoDup_singleton | repeat constructor | by intros e ->%list_elem_of_singleton; left]. }
  apply NoDup_cons in Hnd as [Hy Hnd]. pose proof Hsd as [Hyl Hsl]%StronglySorted_cons.
  rewrite Forall_forall in Hyl.
  assert (∀ e, e ∈ y :: l' → pledge_le x e) as Hxe by (intros e He; by apply Hx, Hin).
  case_decide as Heq; split_and!.
  - rewrite fmap_cons. apply NoDup_cons. by rewrite Heq.
  - constructor; [done|]. apply Forall_forall. intros e He. apply Hxe. by right.
  - intros e [->|He]%elem_of_cons; [by left|]. right. apply Hin. by right.
  - rewrite fmap_cons. apply NoDup_cons. split; [|by apply NoDup_cons].
    rewrite fmap_cons. intros [Hc|Hc]%elem_of_cons; [done|].
    apply list_elem_of_fmap in Hc as (e & He1 & He2).
    specialize (Hyl e He2). specialize (Hxe y ltac:(by left)). unfold pledge_le in *.
    apply Heq, (anti_symm key_le); [done|by rewrite He1].
  - constructor; [done|]. apply Forall_forall, Hxe.
  - intros e [->|He]%elem_of_cons; [by left|]. right. by apply Hin.
Qed.

Lemma dedup_distinct l : NoDup l.*1 → dedup_members l = l.
Proof.
  induction l as [|x l IH]; [done|]. intros [Hx Hnd]%NoDup_cons. cbn [dedup_members].
  rewrite (IH Hnd). destruct l as [|y l]; [done|].
  rewrite decide_False; [done|]. intros Heq. apply Hx. rewrite Heq. by left.
Qed.

#[local] Instance pledge_le_total : Total pledge_le.
Proof. intros x y. unfold pledge_le. apply total, _. Qed.
#[local] Instance pledge_le_trans : Transitive pledge_le.
Proof. intros x y z. unfold pledge_le. apply transitivity. Qed.

Lemma sorted_pledges l : StronglySorted pledge_le (merge_sort pledge_le l).
Proof. apply (StronglySorted_merge_sort _). Qed.

(** A member and its weight, if it has one. *)
Definition weigh (rule : WeightRule) (p : MemberId * N) : option (MemberId * f64) :=
  let w := weight rule p.2 in
  if bool_decide (0 < w)%N then Some (p.1, f64_of w) else None.

Lemma weigh_keys rule l : (omap (weigh rule) l).*1 `sublist_of` l.*1.
Proof.
  induction l as [|x l IH]; [constructor|]. rewrite omap_cons_eq. unfold weigh at 1.
  case_bool_decide; [by apply sublist_skip | by apply sublist_cons].
Qed.

Lemma new_group_weighted replicas rule pledges :
  weighted (new_group replicas rule pledges) =
  omap (weigh rule) (dedup_members (merge_sort pledge_le pledges)).
Proof. done. Qed.

Lemma new_group_distinct replicas rule pledges : distinct_group (new_group replicas rule pledges).
Proof.
  unfold distinct_group. rewrite new_group_weighted.
  eapply sublist_NoDup; [|apply weigh_keys]. by apply dedup_sorted, sorted_pledges.
Qed.

Lemma sorted_pledges_unique l k :
  NoDup l.*1 → l ≡ₚ k → merge_sort pledge_le l = merge_sort pledge_le k.
Proof.
  intros Hnd Hp. apply (StronglySorted_unique_on pledge_le).
  - intros x y Hx Hy Hxy Hyx. rewrite merge_sort_Permutation in Hx, Hy.
    assert (x.1 = y.1) as Heq by by apply (anti_symm key_le).
    apply list_elem_of_lookup in Hx as [i Hi]. apply list_elem_of_lookup in Hy as [j Hj].
    assert (i = j) as ->; [|congruence].
    eapply NoDup_lookup; [exact Hnd| |]; rewrite list_lookup_fmap; [by rewrite Hi|by rewrite Hj, Heq].
  - apply sorted_pledges.
  - apply sorted_pledges.
  - by rewrite !merge_sort_Permutation.
Qed.

(** ** Searching *)

Lemma search_some {A} m (l : list (MemberId * A)) a : search m l = Some a → (m, a) ∈ l.
Proof.
  unfold search. destruct (List.find _ l) as [[m' a']|] eqn:E; [|done]. intros [= ->].
  apply List.find_some in E as [Hin Hm%bool_decide_eq_true]. simpl in Hm. subst m'.
  by apply list_elem_of_In.
Qed.

Lemma search_none {A} m (l : list (MemberId * A)) : search m l = None ↔ m ∉ l.*1.
Proof.
  unfold search. rewrite fmap_None. split.
  - intros Hn ([m' a] & -> & Hin)%list_elem_of_fmap. apply list_elem_of_In in Hin.
    apply (List.find_none _ _ Hn) in Hin. simpl in Hin. by rewrite bool_decide_true in Hin.
  - intros Hn. destruct (List.find _ l) as [[m' a]|] eqn:E; [|done].
    apply List.find_some in E as [Hin Hm%bool_decide_eq_true]. simpl in Hm. subst m'. destruct Hn.
    apply list_elem_of_fmap. exists (m, a). split; [done|]. by apply list_elem_of_In.
Qed.

Lemma search_distinct {A} m (l : list (MemberId * A)) a :
  NoDup l.*1 → (m, a) ∈ l → search m l = Some a.
Proof.
  intros Hnd Hin. destruct (search m l) as [b|] eqn:E.
  - apply search_some in E. f_equal.
    apply list_elem_of_lookup in Hin as [i Hi]. apply list_elem_of_lookup in E as [j Hj].
    assert (i = j) as ->; [|congruence].
    eapply NoDup_lookup; [exact Hnd| |]; rewrite list_lookup_fmap; [by rewrite Hi|by rewrite Hj].
  - apply search_none in E. destruct E. apply list_elem_of_fmap. by exists (m, a).
Qed.

(** ** What custodians are *)

Lemma ranked_candidates_distinct g item :
  distinct_group g → distinct_members (ranked_candidates g item).
Proof.
  intros Hd. unfold distinct_members, ranked_candidates. rewrite <-list_fmap_compose.
  change (NoDup (custody_candidates g item).*1). unfold custody_candidates.
  eapply sublist_NoDup; [exact Hd|]. apply fmap_sublist, sublist_filter.
Qed.

Lemma custodians_eq select g item :
  selects select → distinct_group g →
  custodians select g item =
  ranked_member <$> take (slots g item) (ranking (ranked_candidates g item)).
Proof.
  intros Hsel Hd. apply (ranked_candidates_distinct g item) in Hd.
  unfold custodians. cbv zeta. set (l := ranked_candidates g item) in *. set (n := slots g item).
  f_equal. case_bool_decide as Hlen.
  - destruct (Hsel n l Hlen) as [Hp Hord].
    assert (StronglySorted highest_first (ranking (take n (select n l)) ++ ranking (drop n (select n l)))) as Hs.
    { apply StronglySorted_app. split_and!; [|apply ranking_sorted..].
      intros x y. rewrite !ranking_perm. apply Hord. }
    assert (ranking (take n (select n l)) ++ ranking (drop n (select n l)) = ranking l) as <-.
    { apply ranking_unique; [done..|]. by rewrite !ranking_perm, take_drop. }
    rewrite take_app_length'; [done|]. rewrite ranking_perm, length_take, Hp. lia.
  - rewrite take_ge; [done|]. rewrite ranking_perm. lia.
Qed.

Lemma candidate_member g item m :
  m ∈ ranked_member <$> ranked_candidates g item ↔ m ∈ (weighted g).*1 ∧ m ∉ creators item.
Proof.
  unfold ranked_candidates. rewrite <-list_fmap_compose.
  change (ranked_member ∘ _) with (fst (A := MemberId) (B := f64)).
  unfold custody_candidates. rewrite !list_elem_of_fmap. setoid_rewrite list_elem_of_filter.
  naive_solver.
Qed.

(** The ranked candidate of [me]. *)
Definition mine g item me w : Ranked := rank (group_key g) (custody_item item) me w.

Lemma mine_candidate g item me w :
  (me, w) ∈ weighted g → me ∉ creators item → mine g item me w ∈ ranked_candidates g item.
Proof.
  intros Hin Hc. unfold ranked_candidates, custody_candidates. apply list_elem_of_fmap.
  exists (me, w). split; [done|]. by apply list_elem_of_filter.
Qed.

(** Counting those above among the others, or among all: nobody is above
    themselves. *)
Lemma above_count g item me w :
  distinct_group g → (me, w) ∈ weighted g →
  length (filter (λ e, outranks (rank (group_key g) (custody_item item) e.1 e.2) (mine g item me w))
    (filter (λ e, e.1 ≠ me) (custody_candidates g item))) =
  length (filter (λ x, outranks x (mine g item me w)) (ranked_candidates g item)).
Proof.
  intros Hd Hin. unfold ranked_candidates.
  assert (∀ e, e ∈ custody_candidates g item → e.1 = me → e.2 = w) as Hme.
  { intros [m v] [_ He]%list_elem_of_filter Hm. simpl in *. subst m.
    apply (search_distinct _ _ _ Hd) in He, Hin. congruence. }
  induction (custody_candidates g item) as [|e l IH]; [done|].
  assert (IH' := IH (λ e He, Hme e (list_elem_of_further _ _ _ He))). clear IH.
  rewrite fmap_cons, !filter_cons. destruct (decide (e.1 = me)) as [Heq|Hne].
  - rewrite decide_False by (intros Hc; by apply Hc).
    assert (rank (group_key g) (custody_item item) e.1 e.2 = mine g item me w) as ->.
    { rewrite (Hme e), Heq; [done|by left|done]. }
    rewrite outranks_irrefl, decide_False by by intros []. apply IH'.
  - rewrite decide_True by done. rewrite filter_cons. case_decide; simpl; by rewrite IH'.
Qed.

Lemma custodian_ranked select g item me w :
  selects select → distinct_group g → (me, w) ∈ weighted g → me ∉ creators item →
  me ∈ custodians select g item ↔
  mine g item me w ∈ take (slots g item) (ranking (ranked_candidates g item)).
Proof.
  intros Hsel Hd Hin Hc. rewrite custodians_eq by done. split.
  - intros (r & Hr & Hin')%list_elem_of_fmap.
    assert (r = mine g item me w) as <-; [|done].
    apply (distinct_members_eq (ranked_candidates g item)); [by apply ranked_candidates_distinct| | |done].
    + rewrite <-ranking_perm. by eapply subseteq_take.
    + by apply mine_candidate.
  - intros Hr. apply list_elem_of_fmap. by exists (mine g item me w).
Qed.

Lemma custodian_weighted select g item me :
  selects select → distinct_group g → me ∈ custodians select g item →
  me ∈ (weighted g).*1 ∧ me ∉ creators item.
Proof.
  intros Hsel Hd. rewrite custodians_eq by done.
  intros (r & -> & Hr)%list_elem_of_fmap. apply candidate_member.
  apply list_elem_of_fmap_2. rewrite <-ranking_perm. by eapply subseteq_take.
Qed.

(** C35: [is_custodian], which stops at the first members that outrank one,
    says of every member and item exactly what the full ranking of
    [custodians] says. *)
Theorem is_custodian_exact select g item me (Hsel : selects select) (Hd : distinct_group g) :
  is_custodian g item me = true ↔ me ∈ custodians select g item.
Proof.
  unfold is_custodian, weight_of. destruct (search me (weighted g)) as [w|] eqn:Ew.
  2: { split; [done|]. intros [Hin _]%custodian_weighted; [|done..].
       by apply search_none in Ew. }
  apply search_some in Ew. destruct (decide (me ∈ creators item)) as [Hc|Hc].
  { rewrite (bool_decide_true (me ∈ creators item)), orb_true_r by done.
    split; [done|]. by intros [_ ?]%custodian_weighted. }
  rewrite (bool_decide_false (me ∈ creators item)), orb_false_r by done.
  rewrite (custodian_ranked select g item me w) by done.
  rewrite among_first; [|by apply ranked_candidates_distinct|by apply mine_candidate].
  rewrite <-(above_count g item me w) by done. fold (mine g item me w).
  case_bool_decide as Hz; [lia|]. rewrite bool_decide_eq_true, lookup_ge_None. lia.
Qed.

Lemma custodians_NoDup select g item :
  selects select → distinct_group g → NoDup (custodians select g item).
Proof.
  intros Hsel Hd. rewrite custodians_eq by done. eapply sublist_NoDup.
  - by apply ranking_distinct, ranked_candidates_distinct.
  - apply fmap_sublist, sublist_take.
Qed.

(** An item has as many custodians as it has slots, or as there are
    members with a weight who did not create it if they are fewer; they are
    distinct, and the [select_nth_unstable_by] that finds them may leave the
    rest in any order. *)
Theorem custodians_counted select g item (Hsel : selects select) (Hd : distinct_group g) :
  length (custodians select g item) =
    Nat.min (slots g item) (length (custody_candidates g item)) ∧
  NoDup (custodians select g item) ∧
  (∀ m, m ∈ custodians select g item → m ∈ (weighted g).*1 ∧ m ∉ creators item) ∧
  ∀ select', selects select' → custodians select' g item = custodians select g item.
Proof.
  split_and!.
  - rewrite custodians_eq by done. rewrite length_fmap, length_take, ranking_perm.
    unfold ranked_candidates. by rewrite length_fmap.
  - by apply custodians_NoDup.
  - intros m. by apply custodian_weighted.
  - intros select' Hsel'. by rewrite !custodians_eq.
Qed.

(** ** What moves when the group changes *)

Lemma take_filter_out {A} (P : A → Prop) `{∀ x, Decision (P x)} n (l : list A) :
  (∀ x, x ∈ take n l → P x) → take n (filter P l) = take n l.
Proof.
  revert n. induction l as [|x l IH]; intros [|n]; try done. intros Hall.
  rewrite filter_cons_True by (apply Hall; left). simpl. f_equal. apply IH.
  intros y Hy. apply Hall. by right.
Qed.

(** The first [n] of a list without one of them are the others and the next. *)
Lemma take_filter_one (m : MemberId) n (l : list MemberId) :
  NoDup l → m ∈ take n l →
  take n (filter (λ x, x ≠ m) l) =
  filter (λ x, x ≠ m) (take n l) ++ option_list (head (drop n l)).
Proof.
  revert n. induction l as [|x l IH]; intros [|n] Hnd Hin; try by apply elem_of_nil in Hin.
  apply NoDup_cons in Hnd as [Hx Hnd]. change (take (S n) (x :: l)) with (x :: take n l) in *.
  change (drop (S n) (x :: l)) with (drop n l). rewrite !filter_cons.
  apply elem_of_cons in Hin as [->|Hin].
  - rewrite !decide_False by (intros Hc; by apply Hc).
    rewrite !filter_all; [|intros y Hy ->; by apply Hx, (subseteq_take n)|intros y Hy ->; by apply Hx].
    clear. revert n. induction l as [|y l IH]; intros [|n]; try done. simpl. f_equal.
    specialize (IH n). simpl in IH. exact IH.
  - rewrite !decide_True by (intros ->; by apply Hx, (subseteq_take n)).
    simpl. f_equal. by apply IH.
Qed.

(** [g] without the member [m]. *)
Definition without_member m g : CustodyGroup := {|
  group_replicas := group_replicas g; group_key := group_key g;
  group_members := filter (λ e, e.1 ≠ m) (group_members g);
  weighted := filter (λ e, e.1 ≠ m) (weighted g) |}.

Lemma search_without {A} m m' (l : list (MemberId * A)) :
  m' ≠ m → search m' (filter (λ e, e.1 ≠ m) l) = search m' l.
Proof.
  intros Hne. unfold search. f_equal. induction l as [|e l IH]; [done|]. rewrite filter_cons.
  destruct (decide (e.1 ≠ m)) as [Hm|Hm]; simpl; [by rewrite IH|].
  rewrite bool_decide_false; [done|]. intros Heq. apply Hm. by rewrite Heq.
Qed.

Lemma slots_without m g item : m ∉ creators item → slots (without_member m g) item = slots g item.
Proof.
  intros Hm. unfold slots. simpl.
  assert (∀ l, m ∉ l →
    existsb (λ c, bool_decide (is_Some (search c (filter (λ e, e.1 ≠ m) (group_members g))))) l =
    existsb (λ c, bool_decide (is_Some (search c (group_members g)))) l) as ->; [|done..].
  induction l as [|c l IH]; [done|]. intros [Hc Hl]%not_elem_of_cons.
  simpl. by rewrite search_without, IH by done.
Qed.

Lemma candidates_without m g item :
  ranked_candidates (without_member m g) item =
  filter (λ r, ranked_member r ≠ m) (ranked_candidates g item).
Proof.
  unfold ranked_candidates, custody_candidates, without_member. simpl.
  induction (weighted g) as [|e l IH]; [done|].
  rewrite (filter_cons _ e l), (filter_cons (λ e, e.1 ∉ creators item) e l).
  destruct (decide (e.1 ≠ m)) as [Hm|Hm]; [rewrite filter_cons|]; destruct (decide (e.1 ∉ creators item));
    rewrite ?fmap_cons, ?filter_cons; simpl; try (by rewrite IH).
  - rewrite decide_True by done. by rewrite IH.
  - rewrite decide_False by done. by rewrite IH.
Qed.

Lemma fmap_filter_member m (l : list Ranked) :
  ranked_member <$> filter (λ r, ranked_member r ≠ m) l =
  filter (λ x, x ≠ m) (ranked_member <$> l).
Proof.
  induction l as [|r l IH]; [done|]. rewrite fmap_cons, !filter_cons. simpl.
  case_decide; [by rewrite fmap_cons, IH | done].
Qed.

(** a member who leaves, and who created none of it, moves nothing but
    their own place: an item they kept passes to the first member after its
    custodians, the one [first_after_custodians] names, and every other item
    stays where it is. *)
Theorem leaving_moves_one_place select g item m
    (Hsel : selects select) (Hd : distinct_group g) (Hm : m ∉ creators item) :
  custodians select (without_member m g) item =
    if bool_decide (m ∈ custodians select g item)
    then filter (λ x, x ≠ m) (custodians select g item) ++
         option_list (first_after_custodians g item (λ _, true))
    else custodians select g item.
Proof.
  assert (distinct_group (without_member m g)) as Hd'.
  { unfold distinct_group. simpl. eapply sublist_NoDup; [exact Hd|]. apply fmap_sublist, sublist_filter. }
  rewrite !custodians_eq by done. rewrite slots_without, candidates_without by done.
  pose proof (ranked_candidates_distinct g item Hd) as Hdr.
  rewrite ranking_filter by done. rewrite !fmap_take, fmap_filter_member.
  apply ranking_distinct in Hdr. unfold first_after_custodians. fold (ranking (ranked_candidates g item)).
  set (l := ranking _) in *. unfold distinct_members in Hdr.
  assert (List.find (λ _ : MemberId, true) (ranked_member <$> drop (slots g item) l) =
    head (drop (slots g item) (ranked_member <$> l))) as ->.
  { rewrite <-fmap_drop. by destruct (ranked_member <$> drop _ l). }
  case_bool_decide as Hin.
  - by apply take_filter_one.
  - apply take_filter_out. intros x Hx ->. done.
Qed.

(** Every node makes the same group of the same pledges, in whatever
    order it lists them. *)
Theorem group_is_agreed replicas rule pledges pledges'
    (Hnd : NoDup pledges.*1) (Hp : pledges ≡ₚ pledges') :
  new_group replicas rule pledges = new_group replicas rule pledges' ∧
  distinct_group (new_group replicas rule pledges).
Proof.
  split; [|apply new_group_distinct].
  unfold new_group. by rewrite (sorted_pledges_unique pledges pledges').
Qed.
End placement.

(** ** The end of the interval *)

(** The point a hash falls on is not kept below 1: the highest one rounds
    to exactly 1, whose logarithm is zero, so the member who drew the best
    hash of all scores minus infinity and ranks below everybody with a finite
    score. *)
Theorem best_hash_ranks_last `{Placement} (key : list N) (item : ItemId) (me : MemberId)
    (weight : f64) (other : Ranked)
    (Hbits : hash_bits key item me = (2 ^ 53 - 1)%N)
    (Hlog : libm_log (f64_of 1) = f64_zero)
    (Hweight : ∃ m e, weight = S754_finite false m e)
    (Hother : ∃ s m e, score other = S754_finite s m e ∧
      (Zpos m < 2 ^ 53)%Z ∧ (-1074 ≤ e ≤ 971)%Z) :
  score (rank key item me weight) = S754_infinity true ∧
  outranks other (rank key item me weight) = true.
Proof.
  assert (score (rank key item me weight) = S754_infinity true) as Hs.
  { unfold rank. cbn [score]. rewrite Hbits.
    assert (unit_of (2 ^ 53 - 1) = f64_of 1) as -> by (vm_compute; reflexivity).
    rewrite Hlog. destruct Hweight as (m & e & ->). reflexivity. }
  split; [done|]. apply outranks_spec. left. rewrite Hs. destruct Hother as (s & m & e & Ho & Hm & He).
  unfold total_key. rewrite Ho. unfold magnitude_bits, sign_bit.
  destruct s; case_bool_decide; nia.
Qed.

(** ** A small group *)

(** What a concrete selection and the small group meet of the hypotheses. *)
Lemma test_group_distinct : distinct_group test_group.
Proof. apply new_group_distinct. Qed.

Lemma is_custodian_exact_witness :
  is_custodian test_group (test_item 1) (member 2) = true ↔
  member 2 ∈ custodians (λ _ l, ranking l) test_group (test_item 1).
Proof.
  exact (is_custodian_exact (λ _ l, ranking l) test_group (test_item 1) (member 2)
    ranking_selects test_group_distinct).
Defined.

Lemma custodians_counted_witness :
  length (custodians (λ _ l, ranking l) test_group (test_item 1)) =
    Nat.min (slots test_group (test_item 1)) (length (custody_candidates test_group (test_item 1))) ∧
  NoDup (custodians (λ _ l, ranking l) test_group (test_item 1)) ∧
  (∀ m, m ∈ custodians (λ _ l, ranking l) test_group (test_item 1) →
     m ∈ (weighted test_group).*1 ∧ m ∉ creators (test_item 1)) ∧
  ∀ select', selects select' →
    custodians select' test_group (test_item 1) = custodians (λ _ l, ranking l) test_group (test_item 1).
Proof.
  exact (custodians_counted (λ _ l, ranking l) test_group (test_item 1)
    ranking_selects test_group_distinct).
Defined.

Lemma leaving_moves_one_place_witness :
  custodians (λ _ l, ranking l) (without_member (member 2) test_group) (test_item 1) =
    if bool_decide (member 2 ∈ custodians (λ _ l, ranking l) test_group (test_item 1))
    then filter (λ x, x ≠ member 2) (custodians (λ _ l, ranking l) test_group (test_item 1)) ++
         option_list (first_after_custodians test_group (test_item 1) (λ _, true))
    else custodians (λ _ l, ranking l) test_group (test_item 1).
Proof.
  refine (leaving_moves_one_place (λ _ l, ranking l) test_group (test_item 1) (member 2)
    ranking_selects test_group_distinct _). by_decision.
Defined.

Lemma group_is_agreed_witness :
  new_group 3 (weight_rule default_settings) test_pledges =
    new_group 3 (weight_rule default_settings) (rev test_pledges) ∧
  distinct_group (new_group 3 (weight_rule default_settings) test_pledges).
Proof.
  refine (group_is_agreed 3 (weight_rule default_settings) test_pledges (rev test_pledges) _ _).
  - by_decision.
  - apply Permutation_rev.
Defined.

Lemma best_hash_ranks_last_witness :
  let other := {| score := f64_of 1; ranked_member := member 2 |} in
  score (@rank best_placement [] (MkItemId (id32 1)) (member 1) (f64_of 100)) = S754_infinity true ∧
  outranks other (@rank best_placement [] (MkItemId (id32 1)) (member 1) (f64_of 100)) = true.
Proof.
  refine (@best_hash_ranks_last best_placement [] (MkItemId (id32 1)) (member 1) (f64_of 100)
    {| score := f64_of 1; ranked_member := member 2 |} _ _ _ _).
  - vm_compute. reflexivity.
  - vm_compute. reflexivity.
  - vm_compute. do 2 eexists. reflexivity.
  - exists false, (2 ^ 52)%positive, (-52)%Z. split; [vm_compute; reflexivity|]. split; [reflexivity | lia].
Defined.
