(* ===== verification/Keeping.v ===== *)
(** * Why a node keeps a blob, and what it lets go of when space is short

    [crates/distlib-core/src/keeping.rs]. [KeepReason] and its tags,
    [KeptBlobs] as a finite map, [evictions] as the loops it is. A [HashMap]
    is iterated in any order, so an iteration is over a list [visit] that
    holds each entry once. [None] is a panic. *)

From Stdlib Require Import Ascii.
From stdpp Require Import strings.
From S2P Require Import Prelude Ids.

(** ** Reasons and their tags *)

Inductive KeepReason : Type := Own | Custody | Cache.

#[export] Instance KeepReason_eq_dec : EqDecision KeepReason.
Proof. solve_decision. Defined.

Definition all_reasons : list KeepReason := [Own; Custody; Cache].

(** [derive(PartialOrd, Ord)]: declaration order, strongest first. *)
Definition reason_index (r : KeepReason) : nat :=
  match r with Own => 0 | Custody => 1 | Cache => 2 end.

Definition is_mandatory (r : KeepReason) : bool := bool_decide (r ≠ Cache).

(** blake3's hex text of 32 bytes. *)
Class Hex : Type := {
  to_hex : Id32 → string;
  from_hex : string → option Id32;
}.

(** [str::strip_prefix] and [str::split_once] at a character. *)
Fixpoint strip_prefix (p s : string) : option string :=
  match p, s with
  | EmptyString, s => Some s
  | String a p, String b s => if bool_decide (a = b) then strip_prefix p s else None
  | String _ _, EmptyString => None
  end.

Fixpoint split_once (c : ascii) (s : string) : option (string * string) :=
  match s with
  | EmptyString => None
  | String a s =>
      if bool_decide (a = c) then Some (EmptyString, s)
      else '(l, r) ← split_once c s; Some (String a l, r)
  end.

Definition slash : ascii := "/"%char.

Definition prefix (r : KeepReason) : string :=
  match r with Own => "own/" | Custody => "custody/" | Cache => "cache/" end.

Section tags.
Context `{Hex}.

Definition tag (r : KeepReason) (item : ItemId) (blob : ContentHash) : string :=
  prefix r +:+ to_hex (item_id32 item) +:+ "/" +:+ to_hex (hash_id32 blob).

Definition item_prefix (r : KeepReason) (item : ItemId) : string :=
  prefix r +:+ to_hex (item_id32 item) +:+ "/".

Definition parse (r : KeepReason) (tag : string) : option (ItemId * ContentHash) :=
  rest ← strip_prefix (prefix r) tag;
  '(item, blob) ← split_once slash rest;
  item ← from_hex item;
  blob ← from_hex blob;
  Some (MkItemId item, MkContentHash blob).
End tags.

(** ** What is kept *)

Record KeptBlob : Type := MkKeptBlob {
  kept_bytes : N;
  tags : list (KeepReason * ItemId);
}.

Notation KeptBlobs := (gmap ContentHash KeptBlob).

(** [Iterator::min]. *)
Definition stronger (a b : KeepReason) : KeepReason :=
  if bool_decide (reason_index b < reason_index a) then b else a.

Definition strongest_reason (k : KeptBlob) : option KeepReason :=
  match (tags k).*1 with
  | [] => None
  | r :: rs => Some (foldl stronger r rs)
  end.

Record StorageUse : Type := MkStorageUse {
  own_bytes : N;
  custody_bytes : N;
  cache_bytes : N;
}.

Definition no_use : StorageUse := MkStorageUse 0 0 0.

Definition mandatory_bytes (u : StorageUse) : option N := add64 (own_bytes u) (custody_bytes u).
Definition total_bytes (u : StorageUse) : option N :=
  mandatory ← mandatory_bytes u; add64 mandatory (cache_bytes u).

(** [entry(blob).or_insert(..).tags.push(..)]: the bytes of a blob already
    there stay. *)
Definition add (reason : KeepReason) (item : ItemId) (blob : ContentHash) (bytes : N)
    (kept : KeptBlobs) : KeptBlobs :=
  let entry := default (MkKeptBlob bytes []) (kept !! blob) in
  <[blob := MkKeptBlob (kept_bytes entry) (tags entry ++ [(reason, item)])]> kept.

(** One entry of the loop of [usage]. *)
Definition use_one (u : StorageUse) (e : ContentHash * KeptBlob) : option StorageUse :=
  let '(own, custody, cache, bytes) := (own_bytes u, custody_bytes u, cache_bytes u, kept_bytes e.2) in
  match strongest_reason e.2 with
  | None => Some u
  | Some Own => own ← add64 own bytes; Some (MkStorageUse own custody cache)
  | Some Custody => custody ← add64 custody bytes; Some (MkStorageUse own custody cache)
  | Some Cache => cache ← add64 cache bytes; Some (MkStorageUse own custody cache)
  end.

Definition usage (visit : list (ContentHash * KeptBlob)) : option StorageUse :=
  try_fold use_one no_use visit.

(** Kept as own or custody already. *)
Definition is_kept_mandatory (kept : KeptBlobs) (blob : ContentHash) : bool :=
  match kept !! blob ≫= strongest_reason with
  | Some r => is_mandatory r
  | None => false
  end.

(** [sum] on [u64]. *)
Definition sum64 (l : list N) : option N := try_fold add64 0%N l.

Definition mandatory_growth (kept : KeptBlobs) (blobs : list (ContentHash * N)) : option N :=
  sum64 (filter (λ e, ¬ is_kept_mandatory kept e.1) blobs).*2.

(** Kept, with some of its bytes there. *)
Definition is_counted (kept : KeptBlobs) (blob : ContentHash) : bool :=
  match kept !! blob with
  | Some k => bool_decide (0 < kept_bytes k)%N
  | None => false
  end.

Definition uncounted_bytes (kept : KeptBlobs) (blobs : list (ContentHash * N)) : option N :=
  sum64 (filter (λ e, ¬ is_counted kept e.1) blobs).*2.

(** ** Eviction *)

Record Evictions : Type := MkEvictions {
  evicted : list ItemId;
  short_by : N;
}.

#[export] Instance Evictions_eq_dec : EqDecision Evictions.
Proof. solve_decision. Defined.

(** Each tag with its blob, in the order the two loops come to it. *)
Definition tags_of (visit : list (ContentHash * KeptBlob)) : list (ContentHash * (KeepReason * ItemId)) :=
  visit ≫= λ e, pair e.1 <$> tags e.2.

(** [cached.entry(item).or_default().push(blob)] or [mandatory.insert(item)]. *)
Definition sort_out (acc : gmap ItemId (list ContentHash) * gset ItemId)
    (t : ContentHash * (KeepReason * ItemId)) : gmap ItemId (list ContentHash) * gset ItemId :=
  let '(blob, (reason, item)) := t in
  if is_mandatory reason then (acc.1, {[item]} ∪ acc.2)
  else (<[item := default [] (acc.1 !! item) ++ [blob]]> acc.1, acc.2).

Definition sorted_out (visit : list (ContentHash * KeptBlob))
  : gmap ItemId (list ContentHash) * gset ItemId :=
  foldl sort_out (∅, ∅) (tags_of visit).

(** [Ord] on [(Option<SystemTime>, ItemId)]; a time is its distance from the
    epoch. *)
Definition cmp_used (a b : option Z) : comparison :=
  match a, b with
  | None, None => Eq
  | None, Some _ => Lt
  | Some _, None => Gt
  | Some a, Some b => Z.compare a b
  end.
Definition cmp_candidate (a b : option Z * ItemId) : comparison :=
  then_with (cmp_used a.1 b.1) (N.compare (ord_num a.2) (ord_num b.2)).
Definition oldest_first (a b : option Z * ItemId) : Prop := cmp_candidate a b ≠ Gt.
#[export] Instance oldest_first_dec : RelDecision oldest_first.
Proof. intros a b. unfold oldest_first. apply _. Defined.

Definition eviction_candidates (visit : list (ContentHash * KeptBlob)) (keeping : ItemId)
    (last_used : ItemId → option Z) : list (option Z * ItemId) :=
  let '(cached, mandatory) := sorted_out visit in
  merge_sort oldest_first
    ((λ item, (last_used item, item)) <$>
       filter (λ item, item ≠ keeping ∧ item ∉ mandatory) (map_to_list cached).*1).

(** One blob of an evicted item: a tag fewer, and its bytes with the last. *)
Definition untag (kept : KeptBlobs) (acc : gmap ContentHash nat * N) (blob : ContentHash)
  : option (gmap ContentHash nat * N) :=
  let '(tags_left, total) := acc in
  n ← tags_left !! blob;
  match n with
  | O => None
  | S n =>
      let tags_left := <[blob := n]> tags_left in
      if bool_decide (n = 0) then
        k ← kept !! blob;
        total ← sub64 total (kept_bytes k);
        Some (tags_left, total)
      else Some (tags_left, total)
  end.

(** The loop over the candidates, which stops where the total fits. *)
Fixpoint evict (kept : KeptBlobs) (cached : gmap ItemId (list ContentHash)) (limit : N)
    (candidates : list ItemId) (acc : gmap ContentHash nat * N) : option (list ItemId * N) :=
  match candidates with
  | [] => Some ([], acc.2)
  | item :: candidates =>
      if bool_decide (acc.2 ≤ limit)%N then Some ([], acc.2)
      else
        blobs ← cached !! item;
        acc ← try_fold (untag kept) acc blobs;
        '(items, total) ← evict kept cached limit candidates acc;
        Some (item :: items, total)
  end.

Definition evictions (visit : list (ContentHash * KeptBlob)) (kept : KeptBlobs) (keeping : ItemId)
    (needed limit : N) (last_used : ItemId → option Z) : option Evictions :=
  let candidates := eviction_candidates visit keeping last_used in
  let tags_left : gmap ContentHash nat := (λ k, length (tags k)) <$> kept in
  used ← usage visit;
  total ← total_bytes used;
  total ← add64 total needed;
  '(items, total) ← evict kept (sorted_out visit).1 limit candidates.*2 (tags_left, total);
  Some (MkEvictions items (total - limit)).

(** ** Lemmas on kept blobs: tags as text, sums over them, and the eviction loops *)

(** ** Tags *)

(** What blake3 documents of its hex text: it reads back, and is made of hex
    digits. *)
Class HexLaws `{Hex} : Prop := {
  from_to_hex i : from_hex (to_hex i) = Some i;
  hex_digits i l r : to_hex i ≠ l +:+ String slash r;
}.

Lemma string_app_assoc (a b c : string) : (a +:+ b) +:+ c = a +:+ (b +:+ c).
Proof. induction a as [|x a IH]; [done|]. apply (f_equal (String x)), IH. Qed.

Lemma strip_prefix_app p s : strip_prefix p (p +:+ s) = Some s.
Proof.
  induction p as [|a p IH]; [done|].
  change (String a p +:+ s) with (String a (p +:+ s)). cbn [strip_prefix].
  by rewrite bool_decide_true.
Qed.

Lemma strip_prefix_inv p s r : strip_prefix p s = Some r → s = p +:+ r.
Proof.
  revert s. induction p as [|a p IH]; intros s; [by intros [= ->]|].
  destruct s as [|b s]; cbn [strip_prefix]; [done|].
  case_bool_decide as Hab; [|done]. subst b. intros Hs%IH. by apply (f_equal (String a)).
Qed.

Lemma split_once_app c l r :
  (∀ l1 l2, l ≠ l1 +:+ String c l2) → split_once c (l +:+ String c r) = Some (l, r).
Proof.
  induction l as [|a l IH]; intros Hc.
  { change ("" +:+ String c r) with (String c r). cbn [split_once]. by rewrite bool_decide_true. }
  change (String a l +:+ String c r) with (String a (l +:+ String c r)). cbn [split_once].
  rewrite bool_decide_false by (intros ->; by apply (Hc EmptyString l)).
  rewrite IH; [done|]. intros l1 l2 ->. by apply (Hc (String a l1) l2).
Qed.

(** ** Sums *)

Section sum_over.
Context {K A : Type} `{Countable K}.
Implicit Types (f g : K * A → N) (m : gmap K A).

Definition sum_over f m : N := sumN (f <$> map_to_list m).

Lemma sum_over_empty f : sum_over f ∅ = 0%N.
Proof. unfold sum_over. by rewrite map_to_list_empty. Qed.

Lemma sum_over_insert f m k a :
  m !! k = None → sum_over f (<[k := a]> m) = (f (k, a) + sum_over f m)%N.
Proof.
  intros Hk. unfold sum_over.
  by rewrite (sumN_perm _ (f <$> (k, a) :: map_to_list m)) by by rewrite map_to_list_insert.
Qed.

Lemma sum_over_delete f m k a :
  m !! k = Some a → sum_over f m = (f (k, a) + sum_over f (delete k m))%N.
Proof.
  intros Hk. rewrite <-(insert_delete_id m k a Hk) at 1.
  apply sum_over_insert, lookup_delete_eq.
Qed.

Lemma sum_over_ext f g m :
  (∀ k a, m !! k = Some a → f (k, a) = g (k, a)) → sum_over f m = sum_over g m.
Proof.
  intros Hfg. unfold sum_over. f_equal. apply list_fmap_ext.
  intros i [k a] Hi%list_elem_of_lookup_2. by apply Hfg, elem_of_map_to_list.
Qed.

Lemma sum_over_le f g m :
  (∀ k a, m !! k = Some a → (f (k, a) ≤ g (k, a))%N) → (sum_over f m ≤ sum_over g m)%N.
Proof.
  induction m as [|k a m Hk IH] using map_ind; intros Hfg; [by rewrite !sum_over_empty|].
  rewrite !sum_over_insert by done. apply N.add_le_mono.
  - apply Hfg. by rewrite lookup_insert_eq.
  - apply IH. intros k' a' Hk'. apply Hfg. rewrite lookup_insert_ne; [done|congruence].
Qed.
End sum_over.

Lemma sum64_from acc l :
  (acc + sumN l ≤ u64_max)%N → try_fold add64 acc l = Some (acc + sumN l)%N.
Proof.
  revert acc. induction l as [|x l IH]; intros acc Hl; simpl in *.
  - f_equal. lia.
  - rewrite add64_some by lia. simpl. rewrite IH by lia. f_equal. lia.
Qed.

Lemma sum64_some l : (sumN l ≤ u64_max)%N → sum64 l = Some (sumN l).
Proof. intros. unfold sum64. by rewrite sum64_from. Qed.

(** ** The strongest reason *)

Lemma stronger_spec a b :
  (stronger a b = a ∨ stronger a b = b) ∧
  reason_index (stronger a b) ≤ reason_index a ∧ reason_index (stronger a b) ≤ reason_index b.
Proof. unfold stronger. case_bool_decide; split_and!; auto; lia. Qed.

Lemma foldl_stronger r rs :
  foldl stronger r rs ∈ r :: rs ∧
  ∀ r', r' ∈ r :: rs → reason_index (foldl stronger r rs) ≤ reason_index r'.
Proof.
  revert r. induction rs as [|x rs IH]; intros r; simpl.
  - split; [by left|]. by intros r' ->%list_elem_of_singleton.
  - destruct (IH (stronger r x)) as [Hin Hle]. destruct (stronger_spec r x) as (Hor & Hr & Hx).
    generalize dependent (stronger r x). intros s. intros Hin Hle Hor Hr Hx. split.
    + apply elem_of_cons in Hin as [->|Hin]; [|by right; right].
      destruct Hor as [-> | ->]; [by left|by right; left].
    + intros r' [->|[->|Hr']%elem_of_cons]%elem_of_cons; [| |by apply Hle; right];
        specialize (Hle s ltac:(by left)); lia.
Qed.

Lemma strongest_reason_some k r :
  strongest_reason k = Some r ↔
  r ∈ (tags k).*1 ∧ ∀ r', r' ∈ (tags k).*1 → reason_index r ≤ reason_index r'.
Proof.
  unfold strongest_reason. destruct (tags k).*1 as [|x rs].
  - split; [done|]. by intros [?%elem_of_nil _].
  - destruct (foldl_stronger x rs) as [Hin Hle]. split; [by intros [= <-]|].
    intros [Hr Hmin]. f_equal.
    specialize (Hle r Hr). specialize (Hmin _ Hin).
    destruct r, (foldl stronger x rs); simpl in *; done || lia.
Qed.

Lemma strongest_reason_none k : strongest_reason k = None ↔ tags k = [].
Proof. unfold strongest_reason. by destruct (tags k) as [|[] ?]. Qed.

Lemma strongest_mandatory k r :
  strongest_reason k = Some r → is_mandatory r = true ↔ ∃ t, t ∈ tags k ∧ is_mandatory t.1 = true.
Proof.
  intros [Hr Hmin]%strongest_reason_some. split.
  - intros Hm. apply list_elem_of_fmap in Hr as (t & -> & Ht). eauto.
  - intros (t & Ht & Hm). specialize (Hmin t.1 ltac:(by apply list_elem_of_fmap_2)).
    unfold is_mandatory in *. apply bool_decide_eq_true in Hm. apply bool_decide_eq_true.
    intros ->. destruct t.1; simpl in *; try done; lia.
Qed.

(** ** Usage *)

(** What a blob adds to the bytes of a reason. *)
Definition bytes_for (r : KeepReason) (e : ContentHash * KeptBlob) : N :=
  if bool_decide (strongest_reason e.2 = Some r) then kept_bytes e.2 else 0.

Definition all_bytes (kept : KeptBlobs) : N := sum_over (λ e, kept_bytes e.2) kept.

(** Every blob has a tag: how [add] leaves it. *)
Definition tagged (kept : KeptBlobs) : Prop := map_Forall (λ _ k, tags k ≠ []) kept.

Lemma tagged_empty : tagged ∅.
Proof. apply map_Forall_empty. Qed.

Lemma tagged_add reason item blob bytes kept : tagged kept → tagged (add reason item blob bytes kept).
Proof. intros Ht. apply map_Forall_insert_2; [|done]. simpl. by destruct (tags _). Qed.

Lemma usage_from u visit :
  (own_bytes u + sumN (bytes_for Own <$> visit) ≤ u64_max)%N →
  (custody_bytes u + sumN (bytes_for Custody <$> visit) ≤ u64_max)%N →
  (cache_bytes u + sumN (bytes_for Cache <$> visit) ≤ u64_max)%N →
  try_fold use_one u visit = Some (MkStorageUse
    (own_bytes u + sumN (bytes_for Own <$> visit))
    (custody_bytes u + sumN (bytes_for Custody <$> visit))
    (cache_bytes u + sumN (bytes_for Cache <$> visit))).
Proof.
  revert u. induction visit as [|e visit IH]; intros u Ho Hc Hh.
  { destruct u. simpl. do 2 f_equal; lia. }
  rewrite !sum_by_cons in *. cbn [try_fold].
  assert (use_one u e = Some (MkStorageUse (own_bytes u + bytes_for Own e)
    (custody_bytes u + bytes_for Custody e) (cache_bytes u + bytes_for Cache e))) as ->.
  { unfold use_one, bytes_for in *. destruct u as [o c h]; simpl in *.
    destruct (strongest_reason e.2) as [[]|]; repeat case_bool_decide; simplify_eq;
      rewrite ?add64_some by lia; simpl; do 2 f_equal; lia. }
  cbn [mbind option_bind]. rewrite IH; cbn [own_bytes custody_bytes cache_bytes]; [do 2 f_equal|..]; lia.
Qed.

Lemma bytes_for_split e :
  tags e.2 ≠ [] →
  (bytes_for Own e + bytes_for Custody e + bytes_for Cache e)%N = kept_bytes e.2.
Proof.
  intros Ht. unfold bytes_for. destruct (strongest_reason e.2) as [[]|] eqn:E;
    [..|by apply strongest_reason_none in E]; repeat case_bool_decide; simplify_eq; lia.
Qed.

Lemma all_bytes_split kept :
  tagged kept →
  all_bytes kept = (sum_over (bytes_for Own) kept + sum_over (bytes_for Custody) kept
    + sum_over (bytes_for Cache) kept)%N.
Proof.
  unfold tagged, all_bytes. induction kept as [|b k m Hb IH] using map_ind; intros Ht.
  - by rewrite !sum_over_empty.
  - apply map_Forall_insert in Ht as [Hk Ht]; [|done]. rewrite !sum_over_insert by done.
    rewrite (IH Ht), <-(bytes_for_split (b, k)) by done. lia.
Qed.

(** What [usage] and [total_bytes] come to. *)
Lemma usage_some kept visit :
  visit ≡ₚ map_to_list kept → tagged kept → (all_bytes kept ≤ u64_max)%N →
  ∃ u, usage visit = Some u ∧
    own_bytes u = sum_over (bytes_for Own) kept ∧
    custody_bytes u = sum_over (bytes_for Custody) kept ∧
    cache_bytes u = sum_over (bytes_for Cache) kept ∧
    total_bytes u = Some (all_bytes kept).
Proof.
  intros Hv Ht Hmax. pose proof (all_bytes_split kept Ht) as Hsplit.
  assert (∀ r, sumN (bytes_for r <$> visit) = sum_over (bytes_for r) kept) as Hr.
  { intros r. unfold sum_over. apply sumN_perm. by rewrite Hv. }
  unfold usage. rewrite usage_from; rewrite ?Hr; cbn -[u64_max]; try lia.
  eexists. split; [done|]. cbn -[u64_max add64]. split_and!; try lia.
  unfold total_bytes, mandatory_bytes. cbn -[u64_max add64].
  rewrite !N.add_0_l. rewrite add64_some by lia. cbn -[u64_max add64].
  rewrite add64_some by lia. f_equal. lia.
Qed.

(** ** Letting items go *)

(** The tags of the items in [gone] as cached. *)
Definition is_released (gone : list ItemId) (t : KeepReason * ItemId) : Prop :=
  t.1 = Cache ∧ t.2 ∈ gone.

#[export] Instance is_released_dec gone t : Decision (is_released gone t).
Proof. unfold is_released. apply _. Defined.

Definition tags_kept (gone : list ItemId) (k : KeptBlob) : list (KeepReason * ItemId) :=
  filter (λ t, ¬ is_released gone t) (tags k).

Definition live (gone : list ItemId) (k : KeptBlob) : nat := length (tags_kept gone k).

(** What is kept once the items in [gone] are not cached any more: a blob goes
    with its last tag. *)
Definition release (gone : list ItemId) (kept : KeptBlobs) : KeptBlobs :=
  omap (λ k, if decide (tags_kept gone k = []) then None
             else Some (MkKeptBlob (kept_bytes k) (tags_kept gone k))) kept.

(** The bytes of the blobs with a tag left. *)
Definition blob_left (tags_left : gmap ContentHash nat) (e : ContentHash * KeptBlob) : N :=
  match default 0 (tags_left !! e.1) with O => 0 | S _ => kept_bytes e.2 end.
Definition bytes_left (tags_left : gmap ContentHash nat) (kept : KeptBlobs) : N :=
  sum_over (blob_left tags_left) kept.

Lemma all_bytes_release gone kept :
  all_bytes (release gone kept) = bytes_left (live gone <$> kept) kept.
Proof.
  transitivity (sum_over (λ e, match live gone e.2 with O => 0%N | S _ => kept_bytes e.2 end) kept).
  - unfold all_bytes, release. induction kept as [|b k m Hb IH] using map_ind.
    { by rewrite omap_empty, !sum_over_empty. }
    assert (omap (λ k, if decide (tags_kept gone k = []) then None
      else Some (MkKeptBlob (kept_bytes k) (tags_kept gone k))) m !! b = None) as Hnone
      by (by rewrite lookup_omap, Hb).
    rewrite omap_insert, sum_over_insert, <-IH by done. cbn [snd]. unfold live.
    destruct (decide (tags_kept gone k = [])) as [E|E].
    + rewrite delete_id by done. by rewrite E.
    + rewrite sum_over_insert by done. by destruct (tags_kept gone k).
  - apply sum_over_ext. intros b k Hk. unfold blob_left. simpl. by rewrite lookup_fmap, Hk.
Qed.

Lemma release_nil kept : tagged kept → all_bytes (release [] kept) = all_bytes kept.
Proof.
  intros Ht. rewrite all_bytes_release. apply sum_over_ext. intros b k Hk. unfold blob_left. simpl.
  rewrite lookup_fmap, Hk. simpl. unfold live, tags_kept.
  rewrite filter_all; [|intros t _ [_ []%elem_of_nil]].
  specialize (Ht b k Hk). simpl in Ht. by destruct (tags k).
Qed.

(** *** Counting *)

Definition count {A} `{EqDecision A} (x : A) (l : list A) : nat := length (filter (x =.) l).

Lemma count_cons {A} `{EqDecision A} (x y : A) l :
  count x (y :: l) = (if decide (x = y) then 1 else 0) + count x l.
Proof. unfold count. rewrite filter_cons. by destruct (decide (x = y)). Qed.

Lemma live_split gone item k :
  item ∉ gone → live (gone ++ [item]) k + count (Cache, item) (tags k) = live gone k.
Proof.
  intros Hg. unfold live, tags_kept. induction (tags k) as [|[r i] ts IH]; [done|].
  rewrite count_cons, !filter_cons.
  destruct (decide ((Cache, item) = (r, i))) as [[= <- <-]|Hne].
  - rewrite (decide_False (P := ¬ _)) by (intros Hn; apply Hn; split; [done|]; apply elem_of_app; right; by left).
    rewrite (decide_True (P := ¬ _)) by (by intros [_ ?]). simpl. lia.
  - destruct (decide (is_released gone (r, i))) as [Hr|Hr].
    + rewrite !(decide_False (P := ¬ _)); [lia|by intros Hn|].
      intros Hn. apply Hn. destruct Hr. split; [done|]. apply elem_of_app. by left.
    + rewrite !(decide_True (P := ¬ _)); [simpl; lia|done|].
      intros [Hc [Hi|Hi%list_elem_of_singleton]%elem_of_app]; [by apply Hr|]. simpl in *. congruence.
Qed.

(** *** One item's blobs *)

(** [bs] untagged, once for each time a blob is in it. *)
Definition untagged (bs : list ContentHash) (tags_left : gmap ContentHash nat) : gmap ContentHash nat :=
  map_imap (λ b n, Some (n - count b bs)) tags_left.

Lemma untagged_cons b bs tags_left n :
  tags_left !! b = Some (S n) → untagged (b :: bs) tags_left = untagged bs (<[b := n]> tags_left).
Proof.
  intros Hb. apply map_eq. intros b'. unfold untagged. rewrite !map_lookup_imap.
  destruct (decide (b' = b)) as [->|Hne].
  - rewrite Hb, lookup_insert_eq, count_cons, decide_True by done. simpl. f_equal; lia.
  - rewrite lookup_insert_ne by done. destruct (tags_left !! b'); simpl; [|done].
    rewrite count_cons, decide_False by done. f_equal; lia.
Qed.

Lemma bytes_left_insert b n tags_left kept k :
  kept !! b = Some k → tags_left !! b = Some (S n) →
  bytes_left tags_left kept =
  (bytes_left (<[b := n]> tags_left) kept + match n with O => kept_bytes k | S _ => 0 end)%N.
Proof.
  intros Hk Hb. unfold bytes_left. rewrite !(sum_over_delete _ kept b k Hk).
  rewrite (sum_over_ext _ (blob_left (<[b:=n]> tags_left)) (delete b kept)).
  - assert (blob_left tags_left (b, k) = kept_bytes k) as ->.
    { unfold blob_left. simpl. by rewrite Hb. }
    assert (blob_left (<[b:=n]> tags_left) (b, k) = match n with O => 0%N | S _ => kept_bytes k end) as ->.
    { unfold blob_left. simpl. by rewrite lookup_insert_eq. }
    destruct n; lia.
  - intros b' k' Hk'. unfold blob_left. cbn [fst snd]. rewrite lookup_insert_ne; [done|]. intros ->.
    by rewrite lookup_delete_eq in Hk'.
Qed.

Lemma untag_some kept needed tags_left b n k :
  kept !! b = Some k → tags_left !! b = Some (S n) →
  untag kept (tags_left, needed + bytes_left tags_left kept)%N b =
  Some (<[b := n]> tags_left, needed + bytes_left (<[b := n]> tags_left) kept)%N.
Proof.
  intros Hk Hb. rewrite (bytes_left_insert b n _ _ k) by done. simpl. rewrite Hb. simpl.
  destruct n as [|n]; [|by rewrite bool_decide_false, N.add_0_r].
  rewrite bool_decide_true, Hk by done. simpl. rewrite sub64_some by lia. simpl. do 2 f_equal. lia.
Qed.

Lemma untag_all kept needed bs tags_left :
  (∀ b, count b bs ≤ default 0 (tags_left !! b)) → (∀ b, is_Some (tags_left !! b) → is_Some (kept !! b)) →
  try_fold (untag kept) (tags_left, (needed + bytes_left tags_left kept)%N) bs =
    Some (untagged bs tags_left, (needed + bytes_left (untagged bs tags_left) kept)%N).
Proof.
  revert tags_left. induction bs as [|b bs IH]; intros tags_left Hc Hk.
  { assert (untagged [] tags_left = tags_left) as ->; [|done].
    apply map_eq. intros b. unfold untagged. rewrite map_lookup_imap.
    destruct (tags_left !! b); simpl; [f_equal; unfold count; simpl; lia|done]. }
  pose proof (Hc b) as Hb. rewrite count_cons, decide_True in Hb by done.
  destruct (tags_left !! b) as [[|n]|] eqn:E; simpl in Hb; [lia| |lia].
  destruct (Hk b (mk_is_Some _ _ E)) as [k Hkb].
  rewrite (untagged_cons _ _ _ _ E). cbn [try_fold].
  rewrite (untag_some _ _ _ _ n k) by done. apply IH.
  - intros b'. specialize (Hc b'). rewrite count_cons in Hc. destruct (decide (b' = b)) as [->|Hne].
    + rewrite lookup_insert_eq. rewrite E in Hc. simpl in *. lia.
    + by rewrite lookup_insert_ne.
  - intros b' Hb'. destruct (decide (b' = b)) as [->|Hne]; [by rewrite Hkb|].
    rewrite lookup_insert_ne in Hb' by done. by apply Hk.
Qed.

(** ** What the first loop sorts out *)

(** The blobs [item] caches, as the loop comes to them. *)
Definition blobs_of (ts : list (ContentHash * (KeepReason * ItemId))) (item : ItemId)
  : list ContentHash :=
  omap (λ t, if decide (t.2 = (Cache, item)) then Some t.1 else None) ts.

Lemma sort_out_spec ts :
  (∀ item, (foldl sort_out (∅, ∅) ts).1 !! item =
     match blobs_of ts item with [] => None | bs => Some bs end) ∧
  (∀ item, item ∈ (foldl sort_out (∅, ∅) ts).2 ↔ ∃ b r, (b, (r, item)) ∈ ts ∧ r ≠ Cache).
Proof.
  induction ts as [|[b [r i]] ts [IH1 IH2]] using rev_ind.
  { split; [done|]. intros item. split; [set_solver|]. by intros (?&?&?%elem_of_nil&?). }
  rewrite foldl_app. simpl. generalize dependent (foldl sort_out (∅, ∅) ts). intros [cached mandatory] IH1 IH2.
  simpl in *. unfold is_mandatory. split; intros item.
  - unfold blobs_of. rewrite omap_app, omap_cons_eq. simpl. fold (blobs_of ts item).
    case_bool_decide as Hr; simpl.
    + rewrite decide_False by congruence. by rewrite app_nil_r.
    + subst r. destruct (decide (i = item)) as [->|Hne].
      * rewrite lookup_insert_eq, decide_True, IH1 by done. by destruct (blobs_of ts item).
      * rewrite lookup_insert_ne, decide_False, app_nil_r by congruence. apply IH1.
  - setoid_rewrite elem_of_app. setoid_rewrite list_elem_of_singleton.
    case_bool_decide as Hr; simpl.
    + rewrite elem_of_union, elem_of_singleton, IH2. split.
      * intros [->|(b' & r' & ? & ?)]; eauto.
      * intros (b' & r' & [?|[=]] & ?); [right|left]; eauto.
    + rewrite IH2. split; intros (b' & r' & Ht & ?); [eauto|].
      destruct Ht as [?|[=]]; [eauto|congruence].
Qed.

Lemma elem_of_tags_of visit b t :
  (b, t) ∈ tags_of visit ↔ ∃ k, (b, k) ∈ visit ∧ t ∈ tags k.
Proof.
  unfold tags_of. rewrite list_elem_of_bind. split.
  - intros ([b' k] & (t' & [= <- <-] & Ht)%list_elem_of_fmap & Hv). eauto.
  - intros (k & Hv & Ht). exists (b, k). split; [|done]. by apply list_elem_of_fmap_2.
Qed.

Lemma blobs_of_app ts us item : blobs_of (ts ++ us) item = blobs_of ts item ++ blobs_of us item.
Proof. apply omap_app. Qed.

Lemma elem_of_blobs_of ts item b : b ∈ blobs_of ts item ↔ (b, (Cache, item)) ∈ ts.
Proof.
  unfold blobs_of. rewrite list_elem_of_omap. split.
  - intros ([b' t] & Ht & Heq). simpl in Heq. case_decide; simplify_eq/=. done.
  - intros Ht. exists (b, (Cache, item)). split; [done|]. simpl. by rewrite decide_True.
Qed.

Lemma count_app {A} `{EqDecision A} (x : A) l k : count x (l ++ k) = count x l + count x k.
Proof. unfold count. by rewrite filter_app, length_app. Qed.

Lemma count_none {A} `{EqDecision A} (x : A) l : x ∉ l → count x l = 0.
Proof. intros Hx. unfold count. rewrite filter_none; [done|]. by intros y Hy ->. Qed.

Lemma count_one_blob b b' item ts :
  count b (blobs_of (pair b' <$> ts) item) = if decide (b' = b) then count (Cache, item) ts else 0.
Proof.
  induction ts as [|t ts IH]; [by case_decide|].
  rewrite fmap_cons. unfold blobs_of. rewrite omap_cons_eq. simpl. fold (blobs_of (pair b' <$> ts) item).
  rewrite count_cons. destruct (decide (t = (Cache, item))) as [->|Ht].
  - rewrite count_cons, IH, (decide_True (P := (Cache, item) = (Cache, item))) by done. repeat case_decide; simplify_eq; lia.
  - rewrite (decide_False (P := (Cache, item) = t)) by congruence. by rewrite IH.
Qed.

(** A blob is among [item]'s as often as it has a tag for it. *)
Lemma count_blobs_of kept visit item b :
  visit ≡ₚ map_to_list kept →
  count b (blobs_of (tags_of visit) item) =
  match kept !! b with Some k => count (Cache, item) (tags k) | None => 0 end.
Proof.
  intros Hv.
  assert (NoDup visit.*1) as Hnd by (rewrite Hv; apply NoDup_fst_map_to_list).
  assert (∀ k, (b, k) ∈ visit ↔ kept !! b = Some k) as Hin
    by (intros k; rewrite Hv; apply elem_of_map_to_list).
  assert (∀ l : list (ContentHash * KeptBlob), b ∉ l.*1 → count b (blobs_of (tags_of l) item) = 0) as Hout.
  { intros l Hl. apply count_none. rewrite elem_of_blobs_of, elem_of_tags_of.
    intros (k & Hk & _). apply Hl. by apply (list_elem_of_fmap_2 fst _ (b, k)). }
  destruct (kept !! b) as [k|] eqn:E.
  - assert ((b, k) ∈ visit) as (l1 & l2 & ->)%list_elem_of_split by (by apply Hin).
    rewrite fmap_app, fmap_cons in Hnd. apply NoDup_app in Hnd as (_ & Hd & [Hb2 _]%NoDup_cons).
    unfold tags_of. rewrite bind_app, bind_cons, !blobs_of_app, !count_app.
    fold (tags_of l1) (tags_of l2). rewrite count_one_blob, decide_True by done.
    rewrite !Hout; [simpl; lia|done|]. intros Hb1. apply (Hd b Hb1). by left.
  - apply Hout. intros ([b' k] & -> & Hk)%list_elem_of_fmap. by apply Hin in Hk.
Qed.

Lemma cached_some visit item :
  is_Some ((sorted_out visit).1 !! item) ↔ ∃ b k, (b, k) ∈ visit ∧ (Cache, item) ∈ tags k.
Proof.
  unfold sorted_out. rewrite (proj1 (sort_out_spec _)).
  transitivity (∃ b, b ∈ blobs_of (tags_of visit) item).
  - destruct (blobs_of (tags_of visit) item) as [|b bs].
    + split; [by intros [? [=]]|]. by intros [? ?%elem_of_nil].
    + split; [|eauto]. intros _. exists b. by left.
  - setoid_rewrite elem_of_blobs_of. setoid_rewrite elem_of_tags_of. done.
Qed.

Lemma mandatory_items visit item :
  item ∈ (sorted_out visit).2 ↔ ∃ b k r, (b, k) ∈ visit ∧ (r, item) ∈ tags k ∧ r ≠ Cache.
Proof.
  unfold sorted_out. rewrite (proj2 (sort_out_spec _)). setoid_rewrite elem_of_tags_of. split.
  - intros (b & r & (k & ? & ?) & ?). eauto 7.
  - intros (b & k & r & ? & ? & ?). eauto 7.
Qed.

(** ** The loop over the candidates *)

(** [n] of [items] are let go of: as few as make the rest fit, or all. *)
Definition fits_at (kept : KeptBlobs) (needed limit : N) (items : list ItemId) (n : nat) : Prop :=
  (n ≤ length items) ∧
  (∀ m, m < n → (limit < needed + all_bytes (release (take m items) kept))%N) ∧
  (n = length items ∨ (needed + all_bytes (release (take n items) kept) ≤ limit)%N).

Lemma evict_spec kept visit needed limit gone items :
  visit ≡ₚ map_to_list kept →
  NoDup (gone ++ items) →
  (∀ item, item ∈ items → is_Some ((sorted_out visit).1 !! item)) →
  ∃ n, n ≤ length items ∧
    evict kept (sorted_out visit).1 limit items
      (live gone <$> kept, needed + all_bytes (release gone kept))%N =
      Some (take n items, needed + all_bytes (release (gone ++ take n items) kept))%N ∧
    (∀ m, m < n → (limit < needed + all_bytes (release (gone ++ take m items) kept))%N) ∧
    (n = length items ∨ (needed + all_bytes (release (gone ++ take n items) kept) ≤ limit)%N).
Proof.
  intros Hv. revert gone. induction items as [|item items IH]; intros gone Hnd Hc.
  { exists 0. rewrite app_nil_r. split_and!; auto with lia. }
  cbn [evict]. case_bool_decide as Hfit; simpl in Hfit.
  { exists 0. simpl. rewrite app_nil_r. split_and!; auto with lia. }
  destruct (Hc item ltac:(by left)) as [blobs Hblobs]. rewrite Hblobs. cbn [mbind option_bind].
  assert (item ∉ gone) as Hgone.
  { apply NoDup_app in Hnd as (_ & Hd & _). intros Hi. apply (Hd _ Hi). by left. }
  assert (blobs = blobs_of (tags_of visit) item) as ->.
  { revert Hblobs. unfold sorted_out. rewrite (proj1 (sort_out_spec _)).
    by destruct (blobs_of _ _); intros [= <-]. }
  pose proof (count_blobs_of kept visit item) as Hcount.
  rewrite all_bytes_release, untag_all.
  - assert (untagged (blobs_of (tags_of visit) item) (live gone <$> kept) =
      live (gone ++ [item]) <$> kept) as ->.
    { apply map_eq. intros b. unfold untagged. rewrite map_lookup_imap, !lookup_fmap.
      rewrite Hcount by done. destruct (kept !! b) as [k|]; simpl; [|done]. f_equal. pose proof (live_split gone item k Hgone). lia. }
    cbn [mbind option_bind]. rewrite <-all_bytes_release.
    rewrite cons_middle, (assoc_L app) in Hnd.
    destruct (IH (gone ++ [item]) Hnd) as (n & Hn & -> & Hlow & Hend).
    { intros i Hi. apply Hc. by right. }
    exists (S n). simpl. rewrite <-!(assoc_L app) in *. simpl in *.
    split_and!; [lia|done| |destruct Hend as [-> |]; auto].
    intros [|m] Hm; simpl.
    + rewrite app_nil_r. lia.
    + specialize (Hlow m ltac:(lia)). by rewrite <-(assoc_L app) in Hlow.
  - intros b. rewrite Hcount, lookup_fmap by done. destruct (kept !! b) as [k|]; simpl; [|lia].
    pose proof (live_split gone item k Hgone). lia.
  - intros b. by rewrite lookup_fmap, fmap_is_Some.
Qed.

(** ** The order of the candidates *)

Lemma oldest_first_spec a b :
  oldest_first a b ↔
  match a.1, b.1 with
  | None, Some _ => True
  | Some _, None => False
  | None, None => (ord_num a.2 ≤ ord_num b.2)%N
  | Some x, Some y => (x < y)%Z ∨ x = y ∧ (ord_num a.2 ≤ ord_num b.2)%N
  end.
Proof.
  unfold oldest_first, cmp_candidate, cmp_used, then_with.
  destruct a.1 as [x|], b.1 as [y|]; try (split; done || by intros []).
  destruct (Z.compare_spec x y) as [-> | |]; [rewrite N.compare_le_iff|..]; split; try done; lia.
Qed.

#[export] Instance oldest_first_total : Total oldest_first.
Proof. intros a b. rewrite !oldest_first_spec. destruct a.1, b.1; lia || auto. Qed.
#[export] Instance oldest_first_trans : Transitive oldest_first.
Proof. intros a b c. rewrite !oldest_first_spec. destruct a.1, b.1, c.1; try done; lia. Qed.

Lemma eviction_candidates_nodup visit keeping last_used :
  NoDup (eviction_candidates visit keeping last_used).*2.
Proof.
  unfold eviction_candidates. destruct (sorted_out visit) as [cached mandatory].
  rewrite merge_sort_Permutation, <-list_fmap_compose. unfold compose. cbn [snd].
  rewrite list_fmap_id. apply NoDup_filter, NoDup_fst_map_to_list.
Qed.

Lemma elem_of_eviction_candidates visit keeping last_used c :
  c ∈ eviction_candidates visit keeping last_used ↔
  c = (last_used c.2, c.2) ∧ c.2 ≠ keeping ∧
  (∃ b k, (b, k) ∈ visit ∧ (Cache, c.2) ∈ tags k) ∧
  ¬ ∃ b k r, (b, k) ∈ visit ∧ (r, c.2) ∈ tags k ∧ r ≠ Cache.
Proof.
  rewrite <-cached_some, <-mandatory_items. unfold eviction_candidates.
  destruct (sorted_out visit) as [cached mandatory]. simpl.
  rewrite merge_sort_Permutation, list_elem_of_fmap.
  setoid_rewrite list_elem_of_filter.
  assert (∀ i, i ∈ (map_to_list cached).*1 ↔ is_Some (cached !! i)) as Hkeys.
  { intros i. split.
    - intros ([i' bs] & -> & Hi%elem_of_map_to_list)%list_elem_of_fmap. by exists bs.
    - intros [bs Hi%elem_of_map_to_list]. by apply (list_elem_of_fmap_2 fst _ (i, bs)). }
  setoid_rewrite Hkeys. destruct c as [u i]. simpl. naive_solver.
Qed.

Lemma eviction_candidates_sorted visit keeping last_used :
  StronglySorted oldest_first (eviction_candidates visit keeping last_used).
Proof.
  unfold eviction_candidates. destruct (sorted_out visit). apply (StronglySorted_merge_sort _).
Qed.

(** Whatever order the maps are iterated in. *)
Lemma eviction_candidates_perm visit visit' keeping last_used :
  visit ≡ₚ visit' →
  eviction_candidates visit keeping last_used = eviction_candidates visit' keeping last_used.
Proof.
  intros Hv. apply (StronglySorted_unique_on oldest_first); [|apply eviction_candidates_sorted..|].
  - intros x y Hx Hy. rewrite !oldest_first_spec.
    apply elem_of_eviction_candidates in Hx as [Hx _]. apply elem_of_eviction_candidates in Hy as [Hy _].
    intros Hxy Hyx. assert (ord_num x.2 = ord_num y.2) as Heq%(inj ord_num).
    { destruct x.1, y.1; done || lia. }
    rewrite Hx, Hy. by rewrite Heq.
  - apply NoDup_Permutation; [by eapply NoDup_fmap_1, eviction_candidates_nodup..|].
    intros c. rewrite !elem_of_eviction_candidates. by setoid_rewrite Hv.
Qed.

(** ** What an eviction comes to *)

Lemma evictions_some (kept : KeptBlobs) visit keeping needed limit last_used
    (Hv : visit ≡ₚ map_to_list kept) (Ht : tagged kept)
    (Hmax : (all_bytes kept + needed ≤ u64_max)%N) :
  let items := (eviction_candidates (map_to_list kept) keeping last_used).*2 in
  ∃ n, fits_at kept needed limit items n ∧
    evictions visit kept keeping needed limit last_used =
    Some (MkEvictions (take n items) (needed + all_bytes (release (take n items) kept) - limit)).
Proof.
  intros items. unfold evictions. cbv zeta.
  destruct (usage_some kept visit Hv Ht) as (u & -> & _ & _ & _ & Htotal); [lia|].
  cbn [mbind option_bind]. rewrite Htotal. cbn [mbind option_bind].
  rewrite add64_some by lia. cbn [mbind option_bind].
  rewrite (eviction_candidates_perm visit (map_to_list kept)) by done. fold items.
  destruct (evict_spec kept visit needed limit [] items) as (n & Hn & He & Hlow & Hend); [done|..].
  { apply eviction_candidates_nodup. }
  { intros i (c & -> & Hc)%list_elem_of_fmap. apply cached_some.
    apply elem_of_eviction_candidates in Hc as (_ & _ & (b & k & Hb & Hk) & _).
    exists b, k. by rewrite Hv. }
  exists n. split; [done|].
  assert ((λ k, length (tags k)) <$> kept = live [] <$> kept) as ->.
  { apply map_fmap_ext. intros b k _. unfold live, tags_kept.
    rewrite filter_all; [done|]. intros t _ [_ []%elem_of_nil]. }
  rewrite (N.add_comm (all_bytes kept)), <-release_nil, He by done. done.
Qed.

(** ** Tags *)

Section tags.
Context `{HexLaws}.

Lemma tag_item_prefix r item blob :
  tag r item blob = item_prefix r item +:+ to_hex (hash_id32 blob).
Proof. unfold tag, item_prefix. by rewrite !string_app_assoc. Qed.

Lemma strip_other_prefix r r' s : r ≠ r' → strip_prefix (prefix r') (prefix r +:+ s) = None.
Proof. by destruct r, r'. Qed.

Lemma split_after_item i s :
  split_once slash (to_hex i +:+ "/" +:+ s) = Some (to_hex i, s).
Proof. apply (split_once_app slash (to_hex i) s), hex_digits. Qed.

Lemma to_hex_inj i j : to_hex i = to_hex j → i = j.
Proof. intros Heq. apply (inj Some). by rewrite <-!from_to_hex, Heq. Qed.

Lemma parse_tag (r r' : KeepReason) (item : ItemId) (blob : ContentHash) :
  parse r' (tag r item blob) = if decide (r = r') then Some (item, blob) else None.
Proof.
  unfold parse, tag. destruct (decide (r = r')) as [->|Hne].
  - rewrite strip_prefix_app. cbn [mbind option_bind]. rewrite split_after_item.
    cbn [mbind option_bind]. rewrite !from_to_hex. by destruct item, blob.
  - by rewrite strip_other_prefix.
Qed.

Lemma tag_starts_with (r r' : KeepReason) (item item' : ItemId) (blob : ContentHash) :
  is_Some (strip_prefix (item_prefix r' item') (tag r item blob)) ↔ r = r' ∧ item = item'.
Proof.
  split.
  - intros [s Hs%strip_prefix_inv]. unfold tag, item_prefix in Hs. rewrite !string_app_assoc in Hs.
    destruct (decide (r = r')) as [->|Hne].
    + apply (f_equal (strip_prefix (prefix r'))) in Hs. rewrite !strip_prefix_app in Hs.
      apply (inj Some), (f_equal (split_once slash)) in Hs. rewrite !split_after_item in Hs.
      injection Hs as Hs _. apply to_hex_inj in Hs. destruct item, item'. simpl in Hs. by subst.
    + apply (f_equal (strip_prefix (prefix r'))) in Hs.
      by rewrite strip_other_prefix, strip_prefix_app in Hs.
  - intros [-> ->]. rewrite tag_item_prefix, strip_prefix_app. eauto.
Qed.
End tags.
