(* ===== verification/KeepingFixtures.v ===== *)
(** * Concrete ids as hex text, and a few kept blobs *)

From Stdlib Require Import Ascii.
From stdpp Require Import strings.
From S2P Require Import Prelude Ids Keeping.

(** ** Hex text *)

Fixpoint nibbles (k : nat) (n : N) : list N :=
  match k with
  | O => []
  | S k => (n `mod` 16)%N :: nibbles k (n / 16)
  end.

Definition nibbles_value (l : list N) : N := foldr (λ d n, d + 16 * n)%N 0%N l.

Definition digit (d : N) : ascii := ascii_of_N (if bool_decide (d < 10) then 48 + d else 87 + d)%N.
Definition undigit (a : ascii) : N :=
  let n := N_of_ascii a in if bool_decide (n < 97)%N then n - 48 else n - 87.

(** Sixty-four lower-case digits, most significant first. *)
#[export] Instance test_hex : Hex := {|
  to_hex i := String.string_of_list_ascii (digit <$> rev (nibbles 64 (id_num i)));
  from_hex s := Id32_of_num (nibbles_value (rev (undigit <$> String.list_ascii_of_string s)));
|}.

Lemma nibbles_bound k n : Forall (λ d, d < 16)%N (nibbles k n).
Proof. revert n. induction k as [|k IH]; intros n; constructor; [by apply N.mod_lt|apply IH]. Qed.

Lemma nibbles_value_nibbles k n : (n < 16 ^ N.of_nat k)%N → nibbles_value (nibbles k n) = n.
Proof.
  revert n. induction k as [|k IH]; intros n Hn; [simpl in *; lia|].
  cbn [nibbles nibbles_value foldr]. fold (nibbles_value (nibbles k (n / 16))). rewrite IH.
  - pose proof (N.div_mod n 16). lia.
  - rewrite Nat2N.inj_succ, N.pow_succ_r' in Hn. apply N.Div0.div_lt_upper_bound. lia.
Qed.

Lemma digit_spec d : (d < 16)%N → undigit (digit d) = d ∧ digit d ≠ slash.
Proof.
  intros Hd. assert (Forall (λ d, undigit (digit d) = d ∧ digit d ≠ slash) (N.of_nat <$> seq 0 16)) as Hall.
  { apply (bool_decide_unpack _). vm_compute. exact I. }
  rewrite Forall_forall in Hall. apply Hall, list_elem_of_fmap.
  exists (N.to_nat d). split; [lia|]. apply elem_of_seq. lia.
Qed.

#[export] Instance test_hex_laws : HexLaws.
Proof.
  split.
  - intros i. cbn [from_hex to_hex test_hex]. rewrite String.list_ascii_of_string_of_list_ascii, <-list_fmap_compose.
    rewrite (list_fmap_ext _ id), list_fmap_id, rev_involutive, nibbles_value_nibbles.
    + apply Id32_of_num_id.
    + change (16 ^ N.of_nat 64)%N with (2 ^ 256)%N. exact (bool_decide_unpack _ (id_num_bound i)).
    + intros j d Hd%list_elem_of_lookup_2. apply digit_spec.
      pose proof (nibbles_bound 64 (id_num i)) as Hb. rewrite Forall_forall in Hb.
      apply Hb. apply list_elem_of_In, in_rev, list_elem_of_In, Hd.
  - intros i l r Heq. apply (f_equal String.list_ascii_of_string) in Heq. cbn [to_hex test_hex] in Heq.
    rewrite String.list_ascii_of_string_of_list_ascii in Heq.
    assert (slash ∈ String.list_ascii_of_string (l +:+ String slash r)) as Hin.
    { clear Heq. induction l as [|a l IH]; [by left|]. by right. }
    rewrite <-Heq in Hin. apply list_elem_of_fmap in Hin as (d & Hs & Hd).
    destruct (digit_spec d) as [_ Hne]; [|by destruct Hne].
    pose proof (nibbles_bound 64 (id_num i)) as Hb. rewrite Forall_forall in Hb.
    apply Hb, list_elem_of_In, in_rev, list_elem_of_In, Hd.
Qed.

(** ** What a node keeps *)

Definition an_item (n : N) : ItemId := MkItemId (id32 n).
Definition a_blob (n : N) : ContentHash := MkContentHash (id32 n).

(** An own item, one kept as custody and cached, two cached items sharing a
    blob, and one cached item by itself. *)
Definition test_kept : KeptBlobs :=
  foldr (λ e kept, add e.1.1.1 (an_item e.1.1.2) (a_blob e.1.2) e.2 kept) ∅
    [(Own, 1, 1, 10); (Cache, 2, 2, 10); (Custody, 2, 2, 10); (Cache, 3, 3, 10);
     (Cache, 4, 3, 10); (Cache, 5, 5, 10)]%N.

Lemma test_kept_tagged : tagged test_kept.
Proof. repeat apply tagged_add. apply tagged_empty. Qed.
