(* ===== verification/KeepingProps.v ===== *)
(** * The properties of what is kept and what is let go of *)

From Stdlib Require Import Ascii.
From stdpp Require Import strings.
From S2P Require Import Prelude Ids Keeping KeepingFixtures.

(** ** Making room *)

(** Cached, and kept for no other reason. *)
Definition evictable (kept : KeptBlobs) (item : ItemId) : Prop :=
  (∃ b k, kept !! b = Some k ∧ (Cache, item) ∈ tags k) ∧
  ¬ ∃ b k r, kept !! b = Some k ∧ (r, item) ∈ tags k ∧ r ≠ Cache.

Lemma evict_prefix kept cached limit items acc gone total :
  evict kept cached limit items acc = Some (gone, total) → ∃ n, gone = take n items.
Proof.
  revert acc gone. induction items as [|item items IH]; intros acc gone; simpl.
  { intros [= <- _]. by exists 0. }
  case_bool_decide; [intros [= <- _]; by exists 0|].
  destruct (cached !! item) as [bs|]; [|done]. simpl.
  destruct (try_fold _ _ _) as [acc'|]; [|done]. simpl.
  destruct (evict kept cached limit items acc') as [[gone' total']|] eqn:E; [|done]. simpl.
  intros [= <- ->]. destruct (IH _ _ E) as [n ->]. by exists (S n).
Qed.

(** [evictions] never panics; it lets go of the cached items in the order
    they were last used, stops at the first one that makes the rest fit and
    no sooner, and [short_by] is exactly by how much what is then left is
    over the limit, a blob being freed with the last of its tags. *)
Theorem evictions_exact (kept : KeptBlobs) visit keeping needed limit last_used
    (Hv : visit ≡ₚ map_to_list kept) (Ht : tagged kept)
    (Hmax : (all_bytes kept + needed ≤ u64_max)%N) :
  let items := (eviction_candidates (map_to_list kept) keeping last_used).*2 in
  ∃ n, fits_at kept needed limit items n ∧
    evictions visit kept keeping needed limit last_used =
    Some (MkEvictions (take n items) (needed + all_bytes (release (take n items) kept) - limit)).
Proof. by apply evictions_some. Qed.

(** what is evicted is distinct cached items, never the one room is made
    for and never one also kept as own or custody; none of them was used
    later than an item that could have gone and stays; and every blob with an
    own or custody tag keeps that tag. *)
Theorem evictions_spare (kept : KeptBlobs) visit keeping needed limit last_used ev
    (Hv : visit ≡ₚ map_to_list kept)
    (Hev : evictions visit kept keeping needed limit last_used = Some ev) :
  NoDup (evicted ev) ∧
  (∀ i, i ∈ evicted ev → i ≠ keeping ∧ evictable kept i) ∧
  (∀ i j, i ∈ evicted ev → j ∉ evicted ev → j ≠ keeping → evictable kept j →
     oldest_first (last_used i, i) (last_used j, j)) ∧
  (∀ b k t, kept !! b = Some k → t ∈ tags k → is_mandatory t.1 = true →
     ∃ k', release (evicted ev) kept !! b = Some k' ∧ t ∈ tags k').
Proof.
  assert (∃ n, evicted ev = take n (eviction_candidates (map_to_list kept) keeping last_used).*2) as [n ->].
  { revert Hev. unfold evictions. cbv zeta. rewrite (eviction_candidates_perm _ _ _ _ Hv).
    destruct (usage visit) as [u|]; simpl; [|done]. destruct (total_bytes u); simpl; [|done].
    destruct (add64 _ _); simpl; [|done].
    destruct (evict _ _ _ _ _) as [[items total]|] eqn:E; simpl; [|done]. intros [= <-].
    by eapply evict_prefix. }
  set (cs := eviction_candidates (map_to_list kept) keeping last_used).
  assert (∀ i, i ∈ cs.*2 ↔ i ≠ keeping ∧ evictable kept i) as Hcs.
  { intros i. unfold evictable. setoid_rewrite <-elem_of_map_to_list.
    split.
    - intros (c & -> & (_ & ? & ? & ?)%elem_of_eviction_candidates)%list_elem_of_fmap. done.
    - intros (? & ? & ?). apply (list_elem_of_fmap_2 snd _ (last_used i, i)).
      by apply elem_of_eviction_candidates. }
  split_and!.
  - eapply sublist_NoDup; [apply eviction_candidates_nodup | apply sublist_take].
  - intros i Hi. apply Hcs. by eapply (subseteq_take (A := ItemId)).
  - intros i j Hi Hj Hk He.
    assert (StronglySorted oldest_first (take n cs ++ drop n cs)) as Hs
      by (rewrite take_drop; apply eviction_candidates_sorted).
    apply StronglySorted_app in Hs as (Hs & _ & _).
    assert (j ∈ drop n cs.*2) as Hj'.
    { assert (j ∈ cs.*2) as Hin by by apply Hcs. rewrite <-(take_drop n cs.*2) in Hin.
      by apply elem_of_app in Hin as [?|?]. }
    rewrite <-fmap_take in Hi. rewrite <-fmap_drop in Hj'.
    apply list_elem_of_fmap in Hi as (c & -> & Hc). apply list_elem_of_fmap in Hj' as (d & -> & Hd).
    pose proof (Hs c d Hc Hd) as Hcd.
    apply subseteq_take, elem_of_eviction_candidates in Hc as [Hc _].
    apply subseteq_drop, elem_of_eviction_candidates in Hd as [Hd _].
    by rewrite <-Hc, <-Hd.
  - intros b k t Hb Hk Hm.
    assert (t ∈ tags_kept (take n cs.*2) k) as Hin.
    { apply list_elem_of_filter. split; [|done]. intros [Hc _].
      unfold is_mandatory in Hm. by apply bool_decide_eq_true in Hm. }
    unfold release. rewrite lookup_omap, Hb. simpl.
    rewrite decide_False by (intros Hnil; by rewrite Hnil in Hin; apply elem_of_nil in Hin). eauto.
Qed.

(** ** What is counted *)

Definition has_reason (r : KeepReason) (k : KeptBlob) : Prop := r ∈ (tags k).*1.
#[export] Instance has_reason_dec r k : Decision (has_reason r k).
Proof. unfold has_reason. apply _. Defined.

(** The bytes of the blobs that [P] holds of. *)
Definition bytes_of (P : KeptBlob → Prop) `{∀ k, Decision (P k)} (kept : KeptBlobs) : N :=
  sum_over (λ e, if decide (P e.2) then kept_bytes e.2 else 0%N) kept.

Lemma bytes_for_reason r k :
  strongest_reason k = Some r ↔
  has_reason r k ∧ ∀ r', reason_index r' < reason_index r → ¬ has_reason r' k.
Proof.
  rewrite strongest_reason_some. unfold has_reason. split; intros [Hr Hmin]; split; try done.
  - intros r' Hlt Hr'. specialize (Hmin r' Hr'). lia.
  - intros r' Hr'. destruct (decide (reason_index r' < reason_index r)); [|lia]. by destruct (Hmin r').
Qed.

Lemma sum_bytes_for r (P : KeptBlob → Prop) `{∀ k, Decision (P k)} (kept : KeptBlobs) :
  (∀ k, strongest_reason k = Some r ↔ P k) → sum_over (bytes_for r) kept = bytes_of P kept.
Proof.
  intros Hp. apply sum_over_ext. intros b k _. unfold bytes_for. simpl.
  destruct (decide (P k)) as [Hk|Hk]; rewrite <-Hp in Hk; [by rewrite bool_decide_true|by rewrite bool_decide_false].
Qed.

(** However the map is iterated, [usage] counts each blob once, under the
    strongest reason any tag keeps it for, and the total is the bytes of all
    that is kept. *)
Theorem usage_exact (kept : KeptBlobs) visit
    (Hv : visit ≡ₚ map_to_list kept) (Ht : tagged kept) (Hmax : (all_bytes kept ≤ u64_max)%N) :
  ∃ u, usage visit = Some u ∧
    own_bytes u = bytes_of (has_reason Own) kept ∧
    custody_bytes u = bytes_of (λ k, has_reason Custody k ∧ ¬ has_reason Own k) kept ∧
    cache_bytes u = bytes_of (λ k, has_reason Cache k ∧ ¬ has_reason Custody k ∧ ¬ has_reason Own k) kept ∧
    total_bytes u = Some (all_bytes kept).
Proof.
  destruct (usage_some kept visit Hv Ht Hmax) as (u & Hu & Ho & Hc & Hh & Htotal).
  exists u. rewrite Ho, Hc, Hh. clear Ho Hc Hh. split_and!; try done; apply sum_bytes_for; intros k; rewrite bytes_for_reason.
  - split; [by intros []|]. intros Hk. split; [done|]. simpl. lia.
  - split; intros [Hk Hl]; (split; [done|]).
    + apply Hl. simpl. lia.
    + intros [] ?; simpl in *; done || lia.
  - split.
    + intros [Hk Hl]. split_and!; [done|apply Hl..]; simpl; lia.
    + intros (Hk & Hc & Ho). split; [done|]. intros [] ?; simpl in *; done || lia.
Qed.

(** ** What keeping more adds *)

(** What a blob adds to what stays when space is short. *)
Definition mandatory_for (e : ContentHash * KeptBlob) : N := bytes_for Own e + bytes_for Custody e.

(** Every blob of an item, kept as this node's own. *)
Definition keep_own (item : ItemId) (blobs : list (ContentHash * N)) (kept : KeptBlobs) : KeptBlobs :=
  foldl (λ kept e, add Own item e.1 e.2 kept) kept blobs.

Lemma sum_mandatory kept :
  sum_over mandatory_for kept = (sum_over (bytes_for Own) kept + sum_over (bytes_for Custody) kept)%N.
Proof.
  induction kept as [|b k m Hb IH] using map_ind; [by rewrite !sum_over_empty|].
  rewrite !sum_over_insert, IH by done. unfold mandatory_for. lia.
Qed.

Lemma mandatory_for_own k item b :
  mandatory_for (b, MkKeptBlob (kept_bytes k) (tags k ++ [(Own, item)])) = kept_bytes k.
Proof.
  unfold mandatory_for, bytes_for. simpl. rewrite bool_decide_true.
  - rewrite bool_decide_false; [lia|]. rewrite bytes_for_reason. intros [_ Hn].
    apply (Hn Own); [simpl; lia|]. unfold has_reason. simpl. rewrite fmap_app. set_solver.
  - apply bytes_for_reason. split; [|simpl; lia]. unfold has_reason. simpl. rewrite fmap_app. set_solver.
Qed.

Lemma mandatory_for_kept kept b k :
  kept !! b = Some k → mandatory_for (b, k) = if is_kept_mandatory kept b then kept_bytes k else 0%N.
Proof.
  intros Hk. unfold mandatory_for, bytes_for, is_kept_mandatory. rewrite Hk. simpl.
  destruct (strongest_reason k) as [[]|]; reflexivity || (simpl; lia).
Qed.

Lemma add_own_mandatory item b n kept :
  (∀ k, kept !! b = Some k → kept_bytes k = n) →
  sum_over mandatory_for (add Own item b n kept) =
  (sum_over mandatory_for kept + if is_kept_mandatory kept b then 0 else n)%N.
Proof.
  intros Hn. unfold add. destruct (kept !! b) as [k|] eqn:E; cbn [default from_option id].
  - rewrite (sum_over_delete _ kept b k E), <-insert_delete_eq, sum_over_insert by apply lookup_delete_eq.
    rewrite mandatory_for_own, (mandatory_for_kept kept b k E), (Hn k) by done.
    destruct (is_kept_mandatory kept b); lia.
  - rewrite sum_over_insert by done. rewrite (mandatory_for_own (MkKeptBlob n [])).
    unfold is_kept_mandatory. rewrite E. simpl. lia.
Qed.

Lemma add_own_other item b b' n kept : b ≠ b' → add Own item b n kept !! b' = kept !! b'.
Proof. intros. unfold add. by rewrite lookup_insert_ne. Qed.

Lemma keep_own_growth item blobs kept :
  NoDup blobs.*1 →
  (∀ b n k, (b, n) ∈ blobs → kept !! b = Some k → kept_bytes k = n) →
  sum_over mandatory_for (keep_own item blobs kept) =
  (sum_over mandatory_for kept + sumN (filter (λ e, ¬ is_kept_mandatory kept e.1) blobs).*2)%N.
Proof.
  revert kept. induction blobs as [|[b n] blobs IH]; intros kept Hnd Hn; [simpl; lia|].
  rewrite fmap_cons in Hnd. apply NoDup_cons in Hnd as [Hb Hnd].
  change (keep_own item ((b, n) :: blobs) kept) with (keep_own item blobs (add Own item b n kept)).
  assert (∀ b' n', (b', n') ∈ blobs → b ≠ b') as Hne
    by (intros b' n' Hin ->; apply Hb; by apply (list_elem_of_fmap_2 fst _ (b', n'))).
  rewrite IH; [|done|].
  - rewrite add_own_mandatory by (intros k; apply Hn; by left).
    assert (filter (λ e, ¬ is_kept_mandatory (add Own item b n kept) e.1) blobs =
      filter (λ e, ¬ is_kept_mandatory kept e.1) blobs) as ->.
    { apply filter_ext_in. intros [b' n'] Hin. unfold is_kept_mandatory. simpl.
      by rewrite add_own_other by by eapply Hne. }
    rewrite filter_cons. cbn [fst].
    destruct (is_kept_mandatory kept b); [rewrite decide_False by (intros Hf; by apply Hf)
      |rewrite decide_True by (by intros []); rewrite fmap_cons, sumN_cons; cbn [snd]]; lia.
  - intros b' n' k Hin. rewrite add_own_other by by eapply Hne. apply Hn. by right.
Qed.

Lemma all_bytes_keep_own item blobs kept :
  (all_bytes kept ≤ all_bytes (keep_own item blobs kept))%N.
Proof.
  revert kept. induction blobs as [|[b n] blobs IH]; intros kept; [done|].
  change (keep_own item ((b, n) :: blobs) kept) with (keep_own item blobs (add Own item b n kept)).
  etransitivity; [|apply IH]. unfold add, all_bytes. destruct (kept !! b) as [k|] eqn:E; simpl.
  - rewrite (sum_over_delete _ kept b k E), <-insert_delete_eq, sum_over_insert by apply lookup_delete_eq.
    simpl. lia.
  - rewrite sum_over_insert by done. lia.
Qed.

Lemma tagged_keep_own item blobs kept : tagged kept → tagged (keep_own item blobs kept).
Proof.
  revert kept. induction blobs as [|[b n] blobs IH]; intros kept Ht; [done|]. by apply IH, tagged_add.
Qed.

(** [mandatory_growth] is exactly how much keeping the blobs of an item as
    this node's own adds to [mandatory_bytes]. *)
Theorem mandatory_growth_exact (kept : KeptBlobs) item blobs visit visit'
    (Hv : visit ≡ₚ map_to_list kept) (Hv' : visit' ≡ₚ map_to_list (keep_own item blobs kept))
    (Ht : tagged kept) (Hnd : NoDup blobs.*1)
    (Hsize : ∀ b n k, (b, n) ∈ blobs → kept !! b = Some k → kept_bytes k = n)
    (Hmax : (all_bytes (keep_own item blobs kept) ≤ u64_max)%N) :
  ∃ u u' before growth,
    usage visit = Some u ∧ mandatory_bytes u = Some before ∧
    mandatory_growth kept blobs = Some growth ∧
    usage visit' = Some u' ∧ mandatory_bytes u' = Some (before + growth)%N.
Proof.
  pose proof (all_bytes_keep_own item blobs kept) as Hle.
  pose proof (tagged_keep_own item blobs kept Ht) as Ht'.
  pose proof (keep_own_growth item blobs kept Hnd Hsize) as Hgrow. rewrite !sum_mandatory in Hgrow.
  pose proof (all_bytes_split kept Ht) as Hs. pose proof (all_bytes_split _ Ht') as Hs'.
  destruct (usage_some kept visit Hv Ht) as (u & Hu & Ho & Hc & _); [lia|].
  destruct (usage_some _ visit' Hv' Ht' Hmax) as (u' & Hu' & Ho' & Hc' & _).
  eexists u, u', _, _. split_and!; [done| | |done|].
  - unfold mandatory_bytes. rewrite Ho, Hc. apply add64_some. lia.
  - apply sum64_some. lia.
  - unfold mandatory_bytes. rewrite Ho', Hc', add64_some by lia. f_equal. lia.
Qed.

(** ** Tags *)

Section tags.
Context `{HexLaws}.

(** a tag reads back as its item and blob under its own reason and under no
    other, so no two of them are the same tag; and a tag starts with the
    prefix of a reason and item exactly when it is a tag of theirs, which is
    what releasing an item by its prefix relies on. *)
Theorem tag_roundtrip (r r' : KeepReason) (item item' : ItemId) (blob : ContentHash) :
  parse r' (tag r item blob) = (if decide (r = r') then Some (item, blob) else None) ∧
  (is_Some (strip_prefix (item_prefix r' item') (tag r item blob)) ↔ r = r' ∧ item = item').
Proof. split; [apply parse_tag | apply tag_starts_with]. Qed.
End tags.

(** ** Concrete nodes *)

Lemma evictions_exact_witness :
  let items := (eviction_candidates (map_to_list test_kept) (an_item 9) (λ _, None)).*2 in
  ∃ n, fits_at test_kept 5 20 items n ∧
    evictions (map_to_list test_kept) test_kept (an_item 9) 5 20 (λ _, None) =
    Some (MkEvictions (take n items) (5 + all_bytes (release (take n items) test_kept) - 20)).
Proof.
  refine (evictions_exact test_kept (map_to_list test_kept) (an_item 9) 5 20 (λ _, None) _ _ _).
  - reflexivity.
  - apply test_kept_tagged.
  - by_decision.
Defined.

Lemma evictions_spare_witness :
  let ev := MkEvictions [an_item 3; an_item 4] 5 in
  NoDup (evicted ev) ∧
  (∀ i, i ∈ evicted ev → i ≠ an_item 5 ∧ evictable test_kept i) ∧
  (∀ i j, i ∈ evicted ev → j ∉ evicted ev → j ≠ an_item 5 → evictable test_kept j →
     oldest_first (None, i) (None, j)) ∧
  (∀ b k t, test_kept !! b = Some k → t ∈ tags k → is_mandatory t.1 = true →
     ∃ k', release (evicted ev) test_kept !! b = Some k' ∧ t ∈ tags k').
Proof.
  refine (evictions_spare test_kept (map_to_list test_kept) (an_item 5) 0 25 (λ _, None)
    (MkEvictions [an_item 3; an_item 4] 5) _ _).
  - reflexivity.
  - by_decision.
Defined.

Lemma usage_exact_witness :
  ∃ u, usage (map_to_list test_kept) = Some u ∧
    own_bytes u = bytes_of (has_reason Own) test_kept ∧
    custody_bytes u = bytes_of (λ k, has_reason Custody k ∧ ¬ has_reason Own k) test_kept ∧
    cache_bytes u =
      bytes_of (λ k, has_reason Cache k ∧ ¬ has_reason Custody k ∧ ¬ has_reason Own k) test_kept ∧
    total_bytes u = Some (all_bytes test_kept).
Proof.
  refine (usage_exact test_kept (map_to_list test_kept) _ _ _).
  - reflexivity.
  - apply test_kept_tagged.
  - by_decision.
Defined.

Lemma mandatory_growth_exact_witness :
  let blobs := [(a_blob 1, 10); (a_blob 3, 10); (a_blob 6, 4)]%N in
  ∃ u u' before growth,
    usage (map_to_list test_kept) = Some u ∧ mandatory_bytes u = Some before ∧
    mandatory_growth test_kept blobs = Some growth ∧
    usage (map_to_list (keep_own (an_item 6) blobs test_kept)) = Some u' ∧
    mandatory_bytes u' = Some (before + growth)%N.
Proof.
  refine (mandatory_growth_exact test_kept (an_item 6) [(a_blob 1, 10); (a_blob 3, 10); (a_blob 6, 4)]%N
    (map_to_list test_kept) (map_to_list (keep_own (an_item 6) _ test_kept)) _ _ _ _ _ _).
  - reflexivity.
  - reflexivity.
  - apply test_kept_tagged.
  - by_decision.
  - intros b n k Hb Hk.
    assert (Forall (λ e : ContentHash * N, match test_kept !! e.1 with
      | Some k => kept_bytes k = e.2 | None => True end)
      [(a_blob 1, 10); (a_blob 3, 10); (a_blob 6, 4)]%N) as Hall.
    { repeat constructor. }
    rewrite Forall_forall in Hall. specialize (Hall _ Hb). simpl in Hall. by rewrite Hk in Hall.
  - by_decision.
Defined.

Lemma tag_roundtrip_witness :
  parse Custody (tag Custody (an_item 1) (a_blob 2)) =
    (if decide (Custody = Custody) then Some (an_item 1, a_blob 2) else None) ∧
  (is_Some (strip_prefix (item_prefix Custody (an_item 3)) (tag Custody (an_item 1) (a_blob 2))) ↔
   Custody = Custody ∧ an_item 1 = an_item 3).
Proof. exact (tag_roundtrip Custody Custody (an_item 1) (an_item 3) (a_blob 2)). Defined.
