(* ===== verification/Settling.v ===== *)
(** * Waiting for the membership to settle before custody follows it

    [crates/distlib-custody/src/settling.rs]. An [Instant] and a [Duration]
    are nanoseconds. *)

From S2P Require Import Prelude.

Record Waiting (T : Type) : Type := MkWaiting {
  value : T;
  first_change : N;
  last_change : N;
}.
Arguments MkWaiting {T} value first_change last_change.
Arguments value {T} w.
Arguments first_change {T} w.
Arguments last_change {T} w.

Record Settling (T : Type) : Type := MkSettling {
  settle_for : N;
  max_settle : N;
  adopted : T;
  waiting : option (Waiting T);
}.
Arguments MkSettling {T} settle_for max_settle adopted waiting.
Arguments settle_for {T} s.
Arguments max_settle {T} s.
Arguments adopted {T} s.
Arguments waiting {T} s.

Section settling.
Context {T : Type} `{EqDecision T}.
Implicit Types (s : Settling T).

Definition new_settling (adopted : T) (settle_for max_settle : N) : Settling T :=
  MkSettling settle_for max_settle adopted None.

Definition set_waiting (w : option (Waiting T)) s : Settling T :=
  MkSettling (settle_for s) (max_settle s) (adopted s) w.

Definition change (v : T) (now : N) s : Settling T :=
  if bool_decide (v = adopted s) then set_waiting None s
  else
    match waiting s with
    | Some w =>
        if bool_decide (value w = v) then s
        else set_waiting (Some (MkWaiting v (first_change w) now)) s
    | None => set_waiting (Some (MkWaiting v now now)) s
    end.

Definition deadline s : option N :=
  (λ w, N.min (last_change w + settle_for s) (first_change w + max_settle s))%N <$> waiting s.

(** The state after, and what was adopted. *)
Definition settle (now : N) s : Settling T * option T :=
  match deadline s, waiting s with
  | Some due, Some w =>
      if bool_decide (now < due)%N then (s, None)
      else (MkSettling (settle_for s) (max_settle s) (value w) None, Some (value w))
  | _, _ => (s, None)
  end.

(** ** What it waits for, from the history *)

(** Every value seen since the last adoption, the newest first, each with
    when. [run_start P] is when the latest unbroken run of values with [P]
    began, if the newest value has [P]. *)
Fixpoint run_start (P : T → bool) (newest_first : list (T * N)) : option N :=
  match newest_first with
  | [] => None
  | (v, t) :: older => if P v then Some (default t (run_start P older)) else None
  end.

Definition seen (history : list (T * N)) s : Settling T :=
  foldl (λ s e, change e.1 e.2 s) s history.

(** The wait a history amounts to: away from [a] since the run away from it
    began, at the newest value since its own run began. *)
Definition wait_of (a : T) (newest_first : list (T * N)) : option (Waiting T) :=
  '(v, _) ← head newest_first;
  first ← run_start (λ x, negb (bool_decide (x = a))) newest_first;
  last ← run_start (λ x, bool_decide (x = v)) newest_first;
  Some (MkWaiting v first last).

Lemma wait_of_cons a v t h :
  wait_of a ((v, t) :: h) =
  if bool_decide (v = a) then None
  else Some (MkWaiting v (default t (run_start (λ x, negb (bool_decide (x = a))) h))
               (default t (run_start (λ x, bool_decide (x = v)) h))).
Proof.
  unfold wait_of. cbn. rewrite (bool_decide_true (v = v)) by done.
  by case_bool_decide.
Qed.

Lemma wait_of_none a h :
  wait_of a h = None → run_start (λ x, negb (bool_decide (x = a))) h = None.
Proof.
  destruct h as [|[v t] h]; [done|]. rewrite wait_of_cons. cbn [run_start].
  case_bool_decide; [done|by intros [=]].
Qed.

Lemma wait_of_some a h w :
  wait_of a h = Some w →
  run_start (λ x, negb (bool_decide (x = a))) h = Some (first_change w) ∧
  (∀ v, run_start (λ x, bool_decide (x = v)) h =
        if bool_decide (value w = v) then Some (last_change w) else None) ∧
  value w ≠ a ∧ fst <$> head h = Some (value w).
Proof.
  destruct h as [|[v t] h]; [done|]. rewrite wait_of_cons. cbn [run_start head].
  case_bool_decide as Ha; intros [= <-]. simpl. split_and!; try done.
  intros v'. case_bool_decide as Hv; [by subst|done].
Qed.

(** Seeing a value keeps the wait what the history says. *)
Lemma change_wait v t h s :
  waiting s = wait_of (adopted s) h →
  change v t s = set_waiting (wait_of (adopted s) ((v, t) :: h)) s.
Proof.
  intros Hw. unfold change. rewrite wait_of_cons, Hw.
  case_bool_decide as Ha; [done|].
  destruct (wait_of (adopted s) h) as [w|] eqn:E.
  - pose proof (wait_of_some _ _ _ E) as (-> & -> & _ & _).
    case_bool_decide as Hv; [|done]. cbn [default from_option id]. subst v.
    destruct s, w. simpl in *. by rewrite Hw.
  - rewrite (wait_of_none _ _ E). do 3 f_equal.
    destruct h as [|[v' t'] h]; [done|]. cbn [run_start].
    rewrite wait_of_cons in E. case_bool_decide as Hv'; [|done]. subst v'.
    by rewrite bool_decide_false.
Qed.

Lemma seen_wait history a settle_for max_settle :
  seen history (new_settling a settle_for max_settle) =
  MkSettling settle_for max_settle a (wait_of a (rev history)).
Proof.
  induction history as [|[v t] history IH] using rev_ind; [done|].
  unfold seen in *. rewrite foldl_snoc, IH, rev_unit. by rewrite (change_wait v t (rev history)).
Qed.

(** a value is adopted exactly when it is the newest seen, is not the
    adopted one, and either has stayed the same for [settle] or the values
    have been away from the adopted one for [max_settle]; then the wait is
    over and starts afresh from it. Otherwise nothing changes. *)
Theorem settles_when_due (a : T) (settle_for max_settle now : N) (history : list (T * N)) :
  let s := seen history (new_settling a settle_for max_settle) in
  let due v := ∃ first last,
    run_start (λ x, negb (bool_decide (x = a))) (rev history) = Some first ∧
    run_start (λ x, bool_decide (x = v)) (rev history) = Some last ∧
    (last + settle_for ≤ now ∨ first + max_settle ≤ now)%N in
  match settle now s with
  | (s', Some v) =>
      fst <$> last history = Some v ∧ v ≠ a ∧ due v ∧ s' = new_settling v settle_for max_settle
  | (s', None) => s' = s ∧ ∀ v, fst <$> last history = Some v → v ≠ a → ¬ due v
  end.
Proof.
  intros s due. subst s due. rewrite seen_wait. unfold settle, deadline. cbn.
  assert (head (rev history) = last history) as Hhead.
  { destruct history as [|e h _] using rev_ind; [done|]. by rewrite rev_unit, last_snoc. }
  destruct (wait_of a (rev history)) as [w|] eqn:E; cbn.
  - apply wait_of_some in E as (Hf & Hl & Ha & Hv). rewrite Hhead in Hv. rewrite Hf.
    case_bool_decide as Hdue.
    + split; [done|]. rewrite Hv. intros v [= <-] _ (first & last & [= <-] & Hlast & Hor).
      rewrite Hl, bool_decide_true in Hlast by done. injection Hlast as <-. lia.
    + split_and!; [done..| |done]. exists (first_change w), (last_change w).
      rewrite Hl, bool_decide_true by done. split_and!; [done..|]. lia.
  - split; [done|]. intros v Hv Hne (first & _ & Hf & _). by rewrite (wait_of_none _ _ E) in Hf.
Qed.
End settling.
