(* ===== verification/CustodyView.v ===== *)
(** * This node's custody, as of the last settled membership

    [crates/distlib-custody/src/view.rs] and [custody_group] of [service.rs].
    [None] is a panic: the totals are taken from with [-=]. A [u128] total of
    [u64] sizes cannot overflow in any memory. *)

From Stdlib Require Import SpecFloat.
From S2P Require Import Prelude Ids GroupSettings Events Membership Fixtures Custody CustodyFixtures.

Record CustodyStatus : Type := {
  status_items : N;
  status_bytes : N;
  status_pledge_bytes : N;
  status_load_factor : option f64;
}.

Record Part : Type := MkPart {
  part_size : N;
  part_demand : N;
  part_mine : bool;
  since : N;
}.

Record CustodyView : Type := MkView {
  view_group : CustodyGroup;
  view_me : MemberId;
  view_items : gmap ItemId Part;
  my_items_count : N;
  my_bytes : N;
  view_demand : N;
}.

(** The members and pledges custody is computed from. *)
Definition custody_group `{Placement} (m : MembershipState) : CustodyGroup :=
  new_group (Npos (replicas (settings m))) (weight_rule (settings m))
    ((λ e, (e.1, pledge_bytes e.2)) <$> map_entries (members m)).

Section view.
Context `{Placement}.
Implicit Types (v : CustodyView) (item : CustodyItem).

Definition set_totals (count bytes demand : N) v : CustodyView :=
  MkView (view_group v) (view_me v) (view_items v) count bytes demand.
Definition set_items (items : gmap ItemId Part) v : CustodyView :=
  MkView (view_group v) (view_me v) items (my_items_count v) (my_bytes v) (view_demand v).

Definition add_to_totals (p : Part) v : CustodyView :=
  let demand := (view_demand v + part_demand p)%N in
  if part_mine p then set_totals (my_items_count v + 1) (my_bytes v + part_size p) demand v
  else set_totals (my_items_count v) (my_bytes v) demand v.

Definition remove_from_totals (p : Part) v : option CustodyView :=
  demand ← sub64 (view_demand v) (part_demand p);
  if part_mine p then
    count ← sub64 (my_items_count v) 1;
    bytes ← sub64 (my_bytes v) (part_size p);
    Some (set_totals count bytes demand v)
  else Some (set_totals (my_items_count v) (my_bytes v) demand v).

(** [CustodyView::insert]. *)
Definition insert_part item (mine : bool) (since : N) v : option CustodyView :=
  let p := MkPart (size_bytes item) (demand_bytes (view_group v) item) mine since in
  let old := view_items v !! custody_item item in
  let v := set_items (<[custody_item item := p]> (view_items v)) v in
  v ← match old with Some old => remove_from_totals old v | None => Some v end;
  Some (add_to_totals p v).

(** [CustodyView::compute], the whole pass, at [now]. *)
Definition compute (group : CustodyGroup) (me : MemberId) (items : list CustodyItem) (now : N)
  : option CustodyView :=
  let mine : gset ItemId := list_to_set (custody_of group me items) in
  try_fold (λ v item, insert_part item (bool_decide (custody_item item ∈ mine)) now v)
    (MkView group me ∅ 0 0 0) items.

(** When the custodians of [item] were last worked out. *)
Definition still_dated v item (now : N) : N :=
  match view_items v !! custody_item item with
  | Some old =>
      if bool_decide (part_size old = size_bytes item) &&
         bool_decide (part_demand old = demand_bytes (view_group v) item)
      then since old else now
  | None => now
  end.

(** [CustodyView::update]. *)
Definition update item (now : N) v : option (CustodyView * bool) :=
  let since := still_dated v item now in
  let is_mine := is_custodian (view_group v) item (view_me v) in
  v ← insert_part item is_mine since v;
  Some (v, is_mine).

Definition is_mine v (item : ItemId) : bool :=
  match view_items v !! item with Some p => part_mine p | None => false end.

Definition my_items v : gset ItemId :=
  dom (filter (λ e, part_mine e.2 = true) (view_items v)).

Definition assigned_since v (item : ItemId) : option N := since <$> view_items v !! item.

Definition status v : CustodyStatus := {|
  status_items := my_items_count v;
  status_bytes := N.min (my_bytes v) u64_max;
  status_pledge_bytes := pledge_of (view_group v) (view_me v);
  status_load_factor := load_factor (view_group v) (view_demand v);
|}.

(** ** A view and the items it is of *)

(** The newest of each item. *)
Definition latest (items : list CustodyItem) : gmap ItemId CustodyItem :=
  foldl (λ m item, <[custody_item item := item]> m) ∅ items.

(** What a custody sum takes from an item. *)
Definition total (f : CustodyItem → N) (m : gmap ItemId CustodyItem) : N :=
  map_fold (λ _ item n, f item + n)%N 0%N m.

Definition kept_here (g : CustodyGroup) (me : MemberId) (f : CustodyItem → N) item : N :=
  if is_custodian g item me then f item else 0.

(** The totals and the parts are what the items [m] give. *)
Definition view_of (g : CustodyGroup) (me : MemberId) (m : gmap ItemId CustodyItem) v : Prop :=
  view_group v = g ∧ view_me v = me ∧
  (∀ i, (λ p, (part_size p, part_demand p, part_mine p)) <$> view_items v !! i =
        (λ item, (size_bytes item, demand_bytes g item, is_custodian g item me)) <$> m !! i) ∧
  my_items_count v = total (kept_here g me (λ _, 1%N)) m ∧
  my_bytes v = total (kept_here g me size_bytes) m ∧
  view_demand v = total (demand_bytes g) m.

Lemma total_insert f m i item : m !! i = None → total f (<[i := item]> m) = (f item + total f m)%N.
Proof. intros Hi. unfold total. rewrite map_fold_insert_L; [done| |done]. intros. lia. Qed.

Lemma total_delete f m i item : m !! i = Some item → total f m = (f item + total f (delete i m))%N.
Proof.
  intros Hi. rewrite <-(insert_delete_id m i item Hi) at 1. apply total_insert, lookup_delete_eq.
Qed.

Lemma total_replace f m i item :
  total f (<[i := item]> m) = (f item + total f (delete i m))%N.
Proof. rewrite <-insert_delete_eq. apply total_insert, lookup_delete_eq. Qed.

Lemma latest_snoc items item : latest (items ++ [item]) = <[custody_item item := item]> (latest items).
Proof. unfold latest. by rewrite foldl_snoc. Qed.

(** What a part adds to each total. *)
Definition if_mine (p : Part) (n : N) : N := if part_mine p then n else 0.

Lemma add_to_totals_eq p v :
  add_to_totals p v = set_totals (my_items_count v + if_mine p 1)
    (my_bytes v + if_mine p (part_size p)) (view_demand v + part_demand p) v.
Proof. unfold add_to_totals, if_mine. destruct (part_mine p); [done|]. by rewrite !N.add_0_r. Qed.

Lemma remove_from_totals_eq p v :
  (if_mine p 1 ≤ my_items_count v)%N → (if_mine p (part_size p) ≤ my_bytes v)%N →
  (part_demand p ≤ view_demand v)%N →
  remove_from_totals p v = Some (set_totals (my_items_count v - if_mine p 1)
    (my_bytes v - if_mine p (part_size p)) (view_demand v - part_demand p) v).
Proof.
  intros Hc Hb Hd. unfold remove_from_totals, if_mine in *.
  rewrite (sub64_some (view_demand v)) by done. cbn.
  destruct (part_mine p); cbn.
  - rewrite (sub64_some _ 1) by done. cbn. by rewrite sub64_some.
  - by rewrite !N.sub_0_r.
Qed.

Lemma insert_part_view g me m v item now :
  view_of g me m v →
  ∃ v', insert_part item (is_custodian g item me) now v = Some v' ∧
    view_of g me (<[custody_item item := item]> m) v' ∧
    view_items v' = <[custody_item item :=
      MkPart (size_bytes item) (demand_bytes g item) (is_custodian g item me) now]> (view_items v).
Proof.
  intros (Hg & Hme & Hparts & Hcount & Hbytes & Hdemand). unfold insert_part. rewrite Hg.
  set (i := custody_item item). pose proof (Hparts i) as Hi.
  set (P := MkPart (size_bytes item) (demand_bytes g item) (is_custodian g item me) now).
  assert (∀ f : CustodyItem → N,
    total f m = (match m !! i with Some was => f was | None => 0 end + total f (delete i m))%N) as Hold.
  { intros f. destruct (m !! i) as [was|] eqn:E; [by apply total_delete|]. by rewrite delete_id. }
  rewrite Hold in Hcount. rewrite Hold in Hbytes. rewrite Hold in Hdemand.
  assert (∃ w, match view_items v !! i with
      | Some old => remove_from_totals old (set_items (<[i := P]> (view_items v)) v)
      | None => Some (set_items (<[i := P]> (view_items v)) v)
      end = Some w ∧ view_group w = g ∧ view_me w = me ∧ view_items w = <[i := P]> (view_items v) ∧
      my_items_count w = total (kept_here g me (λ _, 1%N)) (delete i m) ∧
      my_bytes w = total (kept_here g me size_bytes) (delete i m) ∧
      view_demand w = total (demand_bytes g) (delete i m)) as (w & -> & Hw).
  { destruct (view_items v !! i) as [old|], (m !! i) as [was|]; try done; simpl in Hi.
    - injection Hi as Hsize Hdem Hmine. unfold kept_here in Hcount at 1, Hbytes at 1.
      assert (∀ n, if_mine old n = if is_custodian g was me then n else 0%N) as Hif
        by (intros n; unfold if_mine; by rewrite Hmine).
      eexists. split; [apply remove_from_totals_eq|]; cbn; rewrite ?Hif, ?Hsize, ?Hdem;
        [..|split_and!; try done]; destruct (is_custodian g was me); lia.
    - eexists. split; [done|]. cbn. split_and!; done || lia. }
  cbn. rewrite add_to_totals_eq. eexists. split; [done|].
  destruct Hw as (Hwg & Hwme & Hwi & Hwc & Hwb & Hwd). split; [|done].
  unfold view_of. rewrite !total_replace, <-Hwc, <-Hwb, <-Hwd. cbn. split_and!; try done.
  - intros j. rewrite Hwi. destruct (decide (i = j)) as [<-|Hne].
    + by rewrite !lookup_insert_eq.
    + by rewrite !lookup_insert_ne.
  - apply N.add_comm.
  - apply N.add_comm.
  - apply N.add_comm.
Qed.

Lemma custody_of_elem g me items i :
  i ∈ custody_of g me items ↔ ∃ item, item ∈ items ∧ custody_item item = i ∧ is_custodian g item me = true.
Proof.
  unfold custody_of. destruct (weight_of g me) as [w|] eqn:E.
  - rewrite list_elem_of_omap. split.
    + intros (item & Hin & Heq). destruct (is_custodian g item me) eqn:Hc; [|done]. injection Heq as <-. eauto.
    + intros (item & Hin & <- & Hc). exists item. by rewrite Hc.
  - split; [by intros ?%elem_of_nil|]. intros (item & _ & _ & Hc). unfold is_custodian in Hc. by rewrite E in Hc.
Qed.

Lemma custody_of_distinct g me items item :
  NoDup (custody_item <$> items) → item ∈ items →
  bool_decide (custody_item item ∈ (list_to_set (custody_of g me items) : gset ItemId)) =
  is_custodian g item me.
Proof.
  intros Hnd Hin.
  destruct (is_custodian g item me) eqn:Hc.
  - apply bool_decide_eq_true, elem_of_list_to_set, custody_of_elem. eauto.
  - apply bool_decide_eq_false. rewrite elem_of_list_to_set, custody_of_elem.
    intros (item' & Hin' & Heq & Hc'). assert (item' = item) as ->; [|congruence].
    apply list_elem_of_lookup in Hin as [a Ha]. apply list_elem_of_lookup in Hin' as [b Hb].
    assert (a = b) as ->; [|congruence].
    eapply NoDup_lookup; [exact Hnd| |]; rewrite list_lookup_fmap; [by rewrite Ha|by rewrite Hb, <-Heq].
Qed.

(** A run of inserts, each item's share decided by [is_custodian]. *)
Lemma inserts_view g me (mine : CustodyItem → bool) now items m v :
  (∀ item, item ∈ items → mine item = is_custodian g item me) → view_of g me m v →
  ∃ v', try_fold (λ v item, insert_part item (mine item) now v) v items = Some v' ∧
    view_of g me (foldl (λ m item, <[custody_item item := item]> m) m items) v'.
Proof.
  revert m v. induction items as [|item items IH]; intros m v Hmine Hv; [by exists v|].
  cbn [try_fold foldl]. rewrite (Hmine item) by by left.
  destruct (insert_part_view g me m v item now Hv) as (w & -> & Hw & _). cbn.
  apply IH; [|done]. intros i Hi. apply Hmine. by right.
Qed.

Lemma compute_view g me items now :
  NoDup (custody_item <$> items) →
  ∃ v, compute g me items now = Some v ∧ view_of g me (latest items) v.
Proof.
  intros Hnd. apply inserts_view; [|by split_and!].
  intros item Hin. by apply custody_of_distinct.
Qed.

Lemma update_view g me m v item now :
  view_of g me m v →
  ∃ v', update item now v = Some (v', is_custodian g item me) ∧
    view_of g me (<[custody_item item := item]> m) v' ∧
    view_items v' = <[custody_item item := MkPart (size_bytes item) (demand_bytes g item)
      (is_custodian g item me) (still_dated v item now)]> (view_items v).
Proof.
  intros Hv. pose proof Hv as (Hg & Hme & _). unfold update. rewrite Hg, Hme.
  destruct (insert_part_view g me m v item (still_dated v item now) Hv) as (w & -> & Hw). by exists w.
Qed.

(** Items arriving and changing, each at its time. *)
Definition updates (us : list (CustodyItem * N)) v : option CustodyView :=
  try_fold (λ v u, fst <$> update u.1 u.2 v) v us.

Lemma updates_view g me us m v :
  view_of g me m v →
  ∃ v', updates us v = Some v' ∧
    view_of g me (foldl (λ m item, <[custody_item item := item]> m) m us.*1) v'.
Proof.
  revert m v. induction us as [|[item now] us IH]; intros m v Hv; [by exists v|].
  unfold updates. cbn [try_fold fmap list_fmap foldl fst snd].
  destruct (update_view g me m v item now Hv) as (w & -> & Hw & _). cbn. by apply IH.
Qed.

Lemma is_mine_view g me m v i :
  view_of g me m v →
  is_mine v i = match m !! i with Some item => is_custodian g item me | None => false end.
Proof.
  intros (_ & _ & Hparts & _). specialize (Hparts i). unfold is_mine.
  destruct (view_items v !! i) as [p|], (m !! i) as [item|]; try done; simpl in Hparts. by injection Hparts.
Qed.
End view.

(** ** The properties of the custody view *)

Section view.
Context `{Placement}.

(** C34: however items have come and changed since the whole pass, the status is
    what a pass over the newest of each would give, never a panic, and a node
    keeps exactly the items it is a custodian of. *)
Theorem view_follows_items (g : CustodyGroup) (me : MemberId) (items : list CustodyItem)
    (us : list (CustodyItem * N)) (now : N)
    (Hnd : NoDup (custody_item <$> items)) :
  let newest := latest (items ++ us.*1) in
  ∃ v, (v ← compute g me items now; updates us v) = Some v ∧
    (∀ items' now', NoDup (custody_item <$> items') → latest items' = newest →
       ∃ v', compute g me items' now' = Some v' ∧ status v' = status v ∧
         (∀ i, is_mine v' i = is_mine v i)) ∧
    status v = {|
      status_items := total (kept_here g me (λ _, 1%N)) newest;
      status_bytes := N.min (total (kept_here g me size_bytes) newest) u64_max;
      status_pledge_bytes := pledge_of g me;
      status_load_factor := load_factor g (total (demand_bytes g) newest);
    |} ∧
    (∀ i, is_mine v i = match newest !! i with Some item => is_custodian g item me | None => false end).
Proof.
  intros newest. destruct (compute_view g me items now Hnd) as (v0 & -> & Hv0).
  destruct (updates_view g me us _ v0 Hv0) as (v & Hus & Hv). cbn. rewrite Hus.
  unfold latest in Hv. rewrite <-foldl_app in Hv. fold (latest (items ++ us.*1)) newest in Hv.
  assert (∀ m w, view_of g me m w → status w = {|
      status_items := total (kept_here g me (λ _, 1%N)) m;
      status_bytes := N.min (total (kept_here g me size_bytes) m) u64_max;
      status_pledge_bytes := pledge_of g me;
      status_load_factor := load_factor g (total (demand_bytes g) m) |}) as Hstatus.
  { intros m w (Hg & Hme & _ & Hc & Hb & Hd). unfold status. by rewrite Hg, Hme, Hc, Hb, Hd. }
  exists v. split_and!; [done| |by apply Hstatus|intros i; by apply is_mine_view].
  intros items' now' Hnd' Heq. destruct (compute_view g me items' now' Hnd') as (v' & -> & Hv').
  rewrite Heq in Hv'. exists v'. split_and!; [done|by rewrite (Hstatus _ _ Hv), (Hstatus _ _ Hv')|].
  intros i. by rewrite (is_mine_view _ _ _ _ _ Hv), (is_mine_view _ _ _ _ _ Hv').
Qed.

(** An item's date moves only when its size or the number of its custodians
    does: a change of creators that leaves both, as when a second member adds
    the same files, may replace custodians and keeps the date, so that one
    just made custodian is judged as if it had been all along. *)
Theorem dates_follow_sizes (g : CustodyGroup) (me : MemberId) m v (was item : CustodyItem) (now : N)
    (Hv : view_of g me m v) (Hwas : m !! custody_item item = Some was) :
  ∃ v', update item now v = Some (v', is_custodian g item me) ∧
    assigned_since v' (custody_item item) =
      (if bool_decide (size_bytes was = size_bytes item ∧ demand_bytes g was = demand_bytes g item)
       then assigned_since v (custody_item item) else Some now) ∧
    ∀ i, i ≠ custody_item item → assigned_since v' i = assigned_since v i.
Proof.
  destruct (update_view g me m v item now Hv) as (v' & Hu & _ & Hitems).
  destruct Hv as (Hg & _ & Hparts & _). specialize (Hparts (custody_item item)).
  exists v'. unfold assigned_since. rewrite Hitems, lookup_insert_eq. split_and!; [done| |].
  - rewrite Hwas in Hparts. unfold still_dated. rewrite Hg.
    destruct (view_items v !! custody_item item) as [p|]; [|done]. simpl in Hparts.
    injection Hparts as -> -> _. cbn [fmap option_fmap option_map since].
    rewrite <-bool_decide_and. by case_bool_decide.
  - intros i Hi. by rewrite lookup_insert_ne.
Qed.
End view.

(** ** Concrete items *)

Definition created_by (creators : list MemberId) (n size : N) : CustodyItem :=
  {| custody_item := MkItemId (id32 n); creators := creators; size_bytes := size |}.

Lemma view_follows_items_witness :
  let items := [created_by [member 1] 1 100; created_by [member 2] 2 40] in
  let us := [(created_by [member 1] 1 600, 5); (created_by [member 9] 4 5, 6)]%N in
  let newest := latest (items ++ us.*1) in
  ∃ v, (v ← compute test_group (member 3) items 0; updates us v) = Some v ∧
    (∀ items' now', NoDup (custody_item <$> items') → latest items' = newest →
       ∃ v', compute test_group (member 3) items' now' = Some v' ∧ status v' = status v ∧
         (∀ i, is_mine v' i = is_mine v i)) ∧
    status v = {|
      status_items := total (kept_here test_group (member 3) (λ _, 1%N)) newest;
      status_bytes := N.min (total (kept_here test_group (member 3) size_bytes) newest) u64_max;
      status_pledge_bytes := pledge_of test_group (member 3);
      status_load_factor := load_factor test_group (total (demand_bytes test_group) newest);
    |} ∧
    (∀ i, is_mine v i =
       match newest !! i with Some item => is_custodian test_group item (member 3) | None => false end).
Proof.
  refine (view_follows_items test_group (member 3)
    [created_by [member 1] 1 100; created_by [member 2] 2 40] _ 0 _). by_decision.
Defined.

(** Five members, and an item whose files a custodian then adds as well. *)
Definition five : CustodyGroup :=
  new_group 3 (weight_rule default_settings) ((λ n, (member n, 200 * GB)%N) <$> [1; 2; 3; 4; 5]%N).

Definition dated_view : CustodyView :=
  MkView five (member 1)
    {[MkItemId (id32 1) := MkPart 100 200 false 7]} 0 0 200.

Lemma dated_view_of :
  view_of five (member 1) {[MkItemId (id32 1) := created_by [member 1] 1 100]} dated_view.
Proof.
  unfold view_of. split; [done|]. split; [done|]. split; [|split; [by_decision|split; by_decision]].
  intros i.
  destruct (decide (i = MkItemId (id32 1))) as [->|Hne].
  - unfold dated_view. cbn [view_items]. rewrite !lookup_singleton_eq. by_decision.
  - unfold dated_view. cbn [view_items]. by rewrite !lookup_singleton_ne.
Qed.

(** The third member becomes a custodian as the fourth adds the files too, and
    the date stays. *)
Lemma dates_follow_sizes_witness :
  let item := created_by [member 1; member 4] 1 100 in
  is_custodian five (created_by [member 1] 1 100) (member 3) = false ∧
  is_custodian five item (member 3) = true ∧
  ∃ v', update item 9 dated_view = Some (v', is_custodian five item (member 1)) ∧
    assigned_since v' (custody_item item) =
      (if bool_decide (size_bytes (created_by [member 1] 1 100) = size_bytes item ∧
         demand_bytes five (created_by [member 1] 1 100) = demand_bytes five item)
       then assigned_since dated_view (custody_item item) else Some 9%N) ∧
    ∀ i, i ≠ custody_item item → assigned_since v' i = assigned_since dated_view i.
Proof.
  split; [by_decision|]. split; [by_decision|].
  refine (dates_follow_sizes five (member 1) _ dated_view (created_by [member 1] 1 100)
    (created_by [member 1; member 4] 1 100) 9 dated_view_of _).
  apply lookup_singleton_eq.
Defined.
