(* ===== verification/Pins.v ===== *)
(** * The pin manager: keeping what this node is custodian of

    [crates/distlib-custody/src/pins.rs]. The task's state is [Pins]; the
    network, the blob store and the clock are outside, so each turn of its
    loop is a function of what it finds there, a [World], and of the branch
    [select!] takes. A hash map is iterated in an [order] of its keys. The
    turns of the queue are counted without end: a [u64] of them outlasts any
    run. *)

From S2P Require Import Prelude Ids.

(** Where one item stands. *)
Inductive Pin : Type :=
| Queued (turn : N)
| Fetching (task : N) (wanted_again availability_changed : bool)
| Failed
| WaitingForRoom
| Kept
| Releasing.

#[export] Instance Pin_eq_dec : EqDecision Pin.
Proof. solve_decision. Defined.

(** The task's state, with the running fetches of its [JoinSet], the id tokio
    gives the next one, and, for the theorems, every item [Keeper::release]
    was called for. *)
Record Pins : Type := MkPins {
  pins : gmap ItemId Pin;
  next_turn : N;
  max_fetches : positive;
  fetches : gmap N ItemId;
  next_task : N;
  let_go : list ItemId;
}.

(** What a turn of the loop finds outside: who is online and what they hold,
    what this node holds and is custodian of, whether it is behind the group,
    and for which items releasing succeeds. *)
Record World : Type := {
  world_me : MemberId;
  world_online : gset MemberId;
  knows_holdings_of : MemberId → bool;
  real_holders : ItemId → list MemberId;
  holds : ItemId → bool;
  world_replicas : positive;
  world_mine : option (gset ItemId);
  behind_the_group : bool;
  releases : ItemId → bool;
}.

(** How a fetch ended: [KeepError]s apart from [NoRoom] are told apart only in
    what is logged. *)
Inductive KeepOutcome : Type := KeepOk | KeepNoRoom | KeepFailed.

(** ** What is known of other copies *)

Definition live_copies (w : World) (item : ItemId) : nat :=
  length (filter (λ m, m ≠ world_me w ∧ m ∈ world_online w) (real_holders w item)).

Definition enough_copies_elsewhere (w : World) (item : ItemId) : bool :=
  if bool_decide (set_Exists (λ m, m ≠ world_me w ∧ knows_holdings_of w m = false) (world_online w))
  then false
  else bool_decide (Pos.to_nat (world_replicas w) ≤ live_copies w item).

Definition keeps (w : World) (item : ItemId) : bool :=
  match world_mine w with Some mine => bool_decide (item ∈ mine) | None => false end.

(** ** Pins *)

Definition with_pins (f : gmap ItemId Pin → gmap ItemId Pin) (s : Pins) : Pins :=
  MkPins (f (pins s)) (next_turn s) (max_fetches s) (fetches s) (next_task s) (let_go s).
Definition set_pin (item : ItemId) (pin : Pin) : Pins → Pins := with_pins <[item := pin]>.
Definition drop_pin (item : ItemId) : Pins → Pins := with_pins (delete item).

(** [Turn::take]. *)
Definition take_turn (s : Pins) : N * Pins :=
  (next_turn s,
   MkPins (pins s) (next_turn s + 1) (max_fetches s) (fetches s) (next_task s) (let_go s)).

Definition wanted (pin : option Pin) (turn : N) : Pin :=
  match pin with
  | None | Some Failed | Some WaitingForRoom | Some Kept | Some Releasing => Queued turn
  | Some (Queued queued) => Queued queued
  | Some (Fetching task _ availability_changed) => Fetching task true availability_changed
  end.

(** [Pins::want]. *)
Definition want (item : ItemId) (s : Pins) : Pins :=
  let '(turn, s) := take_turn s in set_pin item (wanted (pins s !! item) turn) s.

(** [Pins::queued], put in place of the pin of [item]. *)
Definition requeue (item : ItemId) (s : Pins) : Pins :=
  let '(turn, s) := take_turn s in set_pin item (Queued turn) s.

(** [fetches.len()] below [max_fetches]. *)
Definition free_fetches (s : Pins) : nat := Pos.to_nat (max_fetches s) - size (fetches s).

(** Fewest copies first, then the earliest turn: [Ord] on what [next_to_fetch]
    sorts. *)
Definition sooner (a b : nat * N * ItemId) : Prop :=
  a.1.1 < b.1.1 ∨ a.1.1 = b.1.1 ∧
    ((a.1.2 < b.1.2)%N ∨ a.1.2 = b.1.2 ∧ (ord_num a.2 ≤ ord_num b.2)%N).

(** What is known of [select_nth_unstable]: its contract. *)
Definition selects_soonest (select : nat → list (nat * N * ItemId) → list (nat * N * ItemId)) : Prop :=
  ∀ n l, n < length l →
    select n l ≡ₚ l ∧ ∀ x y, x ∈ take n (select n l) → y ∈ drop n (select n l) → sooner x y.

Section pins.
Context (order : gset ItemId → list ItemId).
Context (select : nat → list (nat * N * ItemId) → list (nat * N * ItemId)).

(** The queued items, as [next_to_fetch] collects them. *)
Definition queue (live : ItemId → nat) (m : gmap ItemId Pin) : list (nat * N * ItemId) :=
  omap (λ item, match m !! item with
                | Some (Queued turn) => Some (live item, turn, item)
                | _ => None
                end) (order (dom m)).

Definition next_to_fetch (m : gmap ItemId Pin) (count : nat) (live : ItemId → nat) : list ItemId :=
  let queued := queue live m in
  (if bool_decide (count < length queued) then take count (select count queued) else queued).*2.

(** [Pins::fewest_copies_first]. *)
Definition fewest_copies_first (w : World) (s : Pins) (count : nat) : list ItemId :=
  if existsb (λ pin, match pin with Queued _ => true | _ => false end) (map_to_list (pins s)).*2
  then next_to_fetch (pins s) count (live_copies w)
  else [].

(** [fetches.spawn], and its pin. *)
Definition start_fetch (item : ItemId) (s : Pins) : Pins :=
  let task := next_task s in
  set_pin item (Fetching task false false)
    (MkPins (pins s) (next_turn s) (max_fetches s) (<[task := item]> (fetches s)) (task + 1) (let_go s)).

Definition start_fetches (w : World) (s : Pins) : Pins :=
  let free := free_fetches s in
  if bool_decide (free = 0) then s
  else foldl (λ s item, start_fetch item s) s (fewest_copies_first w s free).

(** [Pins::ask_again_for_room]. *)
Definition ask_again_for_room (s : Pins) : Pins :=
  foldl (λ s item, match pins s !! item with Some WaitingForRoom => requeue item s | _ => s end)
    s (order (dom (pins s))).

Definition call_release (item : ItemId) (s : Pins) : Pins :=
  MkPins (pins s) (next_turn s) (max_fetches s) (fetches s) (next_task s) (let_go s ++ [item]).

(** [Pins::release_if_safe]. *)
Definition release_if_safe (w : World) (item : ItemId) (s : Pins) : Pins :=
  if behind_the_group w || (holds w item && negb (enough_copies_elsewhere w item))
  then set_pin item Releasing s
  else
    let s := call_release item s in
    if releases w item then ask_again_for_room (drop_pin item s) else set_pin item Releasing s.

(** [Pins::lose]. *)
Definition lose (w : World) (item : ItemId) (s : Pins) : Pins :=
  match pins s !! item with
  | None | Some (Fetching _ _ _) => s
  | Some _ => release_if_safe w item s
  end.

Definition needs_keeping (w : World) (s : Pins) (item : ItemId) : bool :=
  match pins s !! item with
  | None | Some Releasing => true
  | Some Kept => negb (holds w item)
  | Some (Queued _) | Some (Fetching _ _ _) | Some Failed | Some WaitingForRoom => false
  end.

(** [Pins::read_custody_again]. *)
Definition read_custody_again (w : World) (s : Pins) : Pins :=
  match world_mine w with
  | None => s
  | Some mine =>
      let s := foldl (λ s item, if needs_keeping w s item then want item s else s) s (order mine) in
      let lost := filter (λ item, item ∉ mine) (order (dom (pins s))) in
      foldl (λ s item, lose w item s) s lost
  end.

(** [Pins::fetched]. *)
Definition fetched (w : World) (item : ItemId) (kept : KeepOutcome) (s : Pins) : Pins :=
  match pins s !! item with
  | Some (Fetching _ wanted_again availability_changed) =>
      if negb (keeps w item) then release_if_safe w item s
      else
        match kept with
        | KeepOk => if wanted_again then requeue item s else set_pin item Kept s
        | KeepNoRoom => if wanted_again then requeue item s else set_pin item WaitingForRoom s
        | KeepFailed =>
            if wanted_again || availability_changed then requeue item s else set_pin item Failed s
        end
  | _ => s
  end.

(** [Pins::fetch_panicked]: the pin with the task, if one has. *)
Definition fetch_panicked (task : N) (s : Pins) : Pins :=
  match List.find (λ item, match pins s !! item with
                           | Some (Fetching t _ _) => bool_decide (t = task)
                           | _ => false
                           end) (order (dom (pins s))) with
  | Some item => set_pin item Failed s
  | None => s
  end.

(** One pin of the loop of [availability_changed]. *)
Definition look_again (acc : Pins * list ItemId) (item : ItemId) : Pins * list ItemId :=
  let '(s, releasing) := acc in
  match pins s !! item with
  | Some (Fetching task wanted_again _) => (set_pin item (Fetching task wanted_again true) s, releasing)
  | Some Failed => (requeue item s, releasing)
  | Some Releasing => (s, releasing ++ [item])
  | _ => (s, releasing)
  end.

(** [Pins::availability_changed]. *)
Definition availability_changed (w : World) (s : Pins) : Pins :=
  let '(s, releasing) := foldl look_again (s, []) (order (dom (pins s))) in
  foldl (λ s item, release_if_safe w item s) s releasing.

(** ** The loop *)

(** What [select!] wakes to. [Recomputed] stands for a missed change too. *)
Inductive Woken : Type :=
| Recomputed
| ItemMine (item : ItemId)
| ItemNotMine (item : ItemId)
| AvailabilityLooked
| Joined (task : N) (kept : KeepOutcome)
| Panicked (task : N).

(** [join_next_with_id] takes the task out of the set. *)
Definition take_task (task : N) (s : Pins) : Pins :=
  MkPins (pins s) (next_turn s) (max_fetches s) (delete task (fetches s)) (next_task s) (let_go s).

Definition handle (w : World) (e : Woken) (s : Pins) : Pins :=
  match e with
  | Recomputed => read_custody_again w s
  | ItemMine item => want item s
  | ItemNotMine item => lose w item s
  | AvailabilityLooked => availability_changed w s
  | Joined task kept =>
      match fetches s !! task with
      | Some item => fetched w item kept (take_task task s)
      | None => s
      end
  | Panicked task => fetch_panicked task (take_task task s)
  end.

(** A turn of the loop: fetches are started as the world is then, and the
    branch taken finds it as it is later. *)
Definition turn (before : World) (after : World) (e : Woken) (s : Pins) : Pins :=
  handle after e (start_fetches before s).

(** The start of [run]: what the blob store keeps for custody, then custody as
    computed before. *)
Definition start (w : World) (max : positive) (kept : gset ItemId) : Pins :=
  read_custody_again w (MkPins (gset_to_gmap Kept kept) 0 max ∅ 0 []).

Definition run (w : World) (max : positive) (kept : gset ItemId)
    (turns : list (World * World * Woken)) : Pins :=
  foldl (λ s t, turn t.1.1 t.1.2 t.2 s) (start w max kept) turns.

(** ** Counts *)

Record PinCounts : Type := MkPinCounts {
  count_queued : nat;
  count_fetching : nat;
  count_failed : nat;
  count_waiting_for_room : nat;
  count_kept : nat;
  count_releasing : nat;
}.

Definition count_pin (c : PinCounts) (pin : Pin) : PinCounts :=
  let '(MkPinCounts q f x w k r) := c in
  match pin with
  | Queued _ => MkPinCounts (S q) f x w k r
  | Fetching _ _ _ => MkPinCounts q (S f) x w k r
  | Failed => MkPinCounts q f (S x) w k r
  | WaitingForRoom => MkPinCounts q f x (S w) k r
  | Kept => MkPinCounts q f x w (S k) r
  | Releasing => MkPinCounts q f x w k (S r)
  end.

(** [publish_counts], what it publishes. *)
Definition counts (s : Pins) : PinCounts :=
  foldl count_pin (MkPinCounts 0 0 0 0 0 0) (map_to_list (pins s)).*2.
End pins.

(** ** The pin manager: what each operation leaves alone, and the invariant *)

Definition task_of (p : Pin) : option N := match p with Fetching task _ _ => Some task | _ => None end.
Definition turn_of (p : Pin) : option N := match p with Queued turn => Some turn | _ => None end.

(** The running fetch and the queue place of an item, by its pin. *)
Definition task_at (s : Pins) (i : ItemId) : option N := pins s !! i ≫= task_of.
Definition turn_at (s : Pins) (i : ItemId) : option N := pins s !! i ≫= turn_of.

(** Every place in the queue is one item's, and given out already. *)
Definition turns_ok (s : Pins) : Prop :=
  (∀ i t, turn_at s i = Some t → (t < next_turn s)%N) ∧
  (∀ i j t, turn_at s i = Some t → turn_at s j = Some t → i = j).

(** The pins being fetched are the running fetches, one each, no more than
    allowed. *)
Definition tasks_ok (s : Pins) : Prop :=
  (∀ i t, task_at s i = Some t ↔ fetches s !! t = Some i) ∧
  (∀ t i, fetches s !! t = Some i → (t < next_task s)%N) ∧
  size (fetches s) ≤ Pos.to_nat (max_fetches s).

(** [s'] runs the same fetches as [s], and its queue is as well kept. *)
Definition calm (s s' : Pins) : Prop :=
  (∀ i, task_at s' i = task_at s i) ∧ fetches s' = fetches s ∧ next_task s' = next_task s ∧
  max_fetches s' = max_fetches s ∧ (turns_ok s → turns_ok s').

#[export] Instance calm_preorder : PreOrder calm.
Proof.
  split; [by intros s; split_and!|].
  intros s1 s2 s3 (H1 & H2 & H3 & H4 & H5) (K1 & K2 & K3 & K4 & K5). unfold calm.
  rewrite K2, K3, K4. split_and!; auto. intros i. by rewrite K1.
Qed.

Lemma calm_tasks_ok s s' : calm s s' → tasks_ok s → tasks_ok s'.
Proof.
  intros (Ht & Hf & Hn & Hm & _) (H1 & H2 & H3). unfold tasks_ok. rewrite Hf, Hn, Hm.
  split_and!; try done. intros i t. by rewrite Ht.
Qed.

(** ** Setting a pin *)

Lemma task_at_set i p s j : task_at (set_pin i p s) j = if decide (i = j) then task_of p else task_at s j.
Proof.
  unfold task_at, set_pin, with_pins. cbn. case_decide as H; [subst; by rewrite lookup_insert_eq|].
  by rewrite lookup_insert_ne.
Qed.

Lemma turn_at_set i p s j : turn_at (set_pin i p s) j = if decide (i = j) then turn_of p else turn_at s j.
Proof.
  unfold turn_at, set_pin, with_pins. cbn. case_decide as H; [subst; by rewrite lookup_insert_eq|].
  by rewrite lookup_insert_ne.
Qed.

Lemma calm_set_pin i p s :
  task_of p = task_at s i → (turn_of p = None ∨ turn_of p = turn_at s i) → calm s (set_pin i p s).
Proof.
  intros Ht Hu. unfold calm. split_and!; try done.
  - intros j. rewrite task_at_set. case_decide; [by subst|done].
  - intros [Hb Hd].
    assert (∀ j t, turn_at (set_pin i p s) j = Some t → turn_at s j = Some t) as Hle.
    { intros j t. rewrite turn_at_set. case_decide as H; [|done]. subst. destruct Hu as [-> | ->]; done. }
    split; [intros j t Hj; by apply (Hb j), Hle|]. intros j k t Hj Hk. apply (Hd j k t); by apply Hle.
Qed.

Lemma calm_requeue i s : task_at s i = None → calm s (requeue i s).
Proof.
  intros Ht. unfold calm, requeue. cbn. split_and!; try done.
  - intros j. unfold task_at, set_pin, with_pins in *. cbn.
    destruct (decide (i = j)) as [<-|]; [by rewrite lookup_insert_eq, Ht|by rewrite lookup_insert_ne].
  - intros [Hb Hd]. unfold turns_ok, turn_at, set_pin, with_pins in *. cbn.
    assert (∀ j t, <[i := Queued (next_turn s)]> (pins s) !! j ≫= turn_of = Some t →
      j = i ∧ t = next_turn s ∨ pins s !! j ≫= turn_of = Some t ∧ (t < next_turn s)%N) as Hcase.
    { intros j t. destruct (decide (i = j)) as [<-|].
      - rewrite lookup_insert_eq. intros [= <-]. by left.
      - rewrite lookup_insert_ne by done. intros Hj. right. split; [done|]. by apply (Hb j). }
    split.
    + intros j t [[_ ->]|[_ Hlt]]%Hcase; lia.
    + intros j k t [[-> ->]|[Hj Hlt]]%Hcase [[-> Hk]|[Hk Hlt']]%Hcase; try done; try lia.
      by apply (Hd j k t).
Qed.

Lemma calm_want i s : calm s (want i s).
Proof.
  unfold want. cbn.
  assert (calm s (take_turn s).2) as Hturn.
  { unfold calm, take_turn. cbn. split_and!; try done. intros [Hb Hd]. split; [|done].
    intros j t Hj. specialize (Hb j t Hj). cbn. lia. }
  destruct (pins s !! i) as [[]|] eqn:E; cbn [wanted];
    try (change (calm s (requeue i s)); apply calm_requeue; unfold task_at; by rewrite E);
    (etransitivity; [exact Hturn|]; apply calm_set_pin; unfold task_at, turn_at; cbn; rewrite E; cbn; auto).
Qed.

Lemma calm_drop_pin i s : task_at s i = None → calm s (drop_pin i s).
Proof.
  intros Ht. unfold calm, drop_pin, with_pins. split_and!; try done.
  - intros j. unfold task_at in *. cbn. destruct (decide (i = j)) as [<-|].
    + by rewrite lookup_delete_eq, Ht.
    + by rewrite lookup_delete_ne.
  - intros [Hb Hd].
    assert (∀ j t, delete i (pins s) !! j ≫= turn_of = Some t → turn_at s j = Some t) as Hle.
    { intros j t. unfold turn_at. destruct (decide (i = j)) as [<-|]; [by rewrite lookup_delete_eq|].
      by rewrite lookup_delete_ne. }
    split; [intros j t Hj; by apply (Hb j), Hle|]. intros j k t Hj Hk. apply (Hd j k t); by apply Hle.
Qed.

Lemma calm_foldl {A} (f : Pins → A → Pins) (P : A → Pins → Prop) l s :
  (∀ s x, P x s → calm s (f s x)) → (∀ s s' x, calm s s' → P x s → P x s') →
  (∀ x, x ∈ l → P x s) → calm s (foldl f s l).
Proof.
  intros Hf Hp. revert s. induction l as [|x l IH]; intros s Hall; [done|]. cbn [foldl].
  assert (calm s (f s x)) as Hc by (apply Hf, Hall; by left).
  etransitivity; [exact Hc|]. apply IH. intros y Hy. eapply Hp; [exact Hc|]. apply Hall. by right.
Qed.

Section order.
Context (order : gset ItemId → list ItemId).

Lemma calm_ask_again_for_room s : calm s (ask_again_for_room order s).
Proof.
  unfold ask_again_for_room. apply (calm_foldl _ (λ _ _, True)); [|done..]. intros s' i _.
  destruct (pins s' !! i) as [[]|] eqn:E; try done. apply calm_requeue. unfold task_at. by rewrite E.
Qed.

Lemma calm_release_if_safe w i s : task_at s i = None → calm s (release_if_safe order w i s).
Proof.
  intros Ht. unfold release_if_safe. case_match; [by apply calm_set_pin; auto|].
  assert (calm s (call_release i s)) as Hc by (by split_and!).
  destruct (releases w i).
  - etransitivity; [exact Hc|]. etransitivity; [|apply calm_ask_again_for_room]. by apply calm_drop_pin.
  - etransitivity; [exact Hc|]. by apply calm_set_pin; auto.
Qed.

Lemma calm_lose w i s : calm s (lose order w i s).
Proof.
  unfold lose. destruct (pins s !! i) as [[]|] eqn:E; try done;
    apply calm_release_if_safe; unfold task_at; by rewrite E.
Qed.

Lemma calm_read_custody_again w s : calm s (read_custody_again order w s).
Proof.
  unfold read_custody_again. destruct (world_mine w) as [mine|]; [|done].
  etransitivity; [apply (calm_foldl (λ s i, if needs_keeping w s i then want i s else s) (λ _ _, True))
    |apply (calm_foldl (λ s i, lose order w i s) (λ _ _, True))]; try done.
  - intros s' i _. case_match; [apply calm_want|done].
  - intros s' i _. apply calm_lose.
Qed.

Lemma calm_availability_changed w s : calm s (availability_changed order w s).
Proof.
  unfold availability_changed.
  assert (∀ l s0 r0, (∀ i, i ∈ r0 → task_at s0 i = None) →
    let '(s1, r1) := foldl look_again (s0, r0) l in
    calm s0 s1 ∧ ∀ i, i ∈ r1 → task_at s1 i = None) as Hloop.
  { induction l as [|i l IH]; intros s0 r0 Hr; [done|]. cbn [foldl].
    assert (calm s0 (look_again (s0, r0) i).1 ∧ ∀ j, j ∈ (look_again (s0, r0) i).2 → task_at s0 j = None)
      as [Hc Hr'].
    { unfold look_again. destruct (pins s0 !! i) as [[]|] eqn:E; cbn; try (by split).
      - split; [|done]. apply calm_set_pin; unfold task_at; rewrite ?E; auto.
      - split; [|done]. apply calm_requeue. unfold task_at. by rewrite E.
      - split; [done|]. intros j [Hj| ->%list_elem_of_singleton]%elem_of_app; [by apply Hr|].
        unfold task_at. by rewrite E. }
    destruct (look_again (s0, r0) i) as [s1 r1]. cbn in Hc, Hr'.
    specialize (IH s1 r1). destruct (foldl look_again (s1, r1) l) as [s2 r2].
    destruct IH as [Hc2 Hr2]; [|split; [by etransitivity|done]].
    intros j Hj. rewrite (proj1 Hc). by apply Hr'. }
  specialize (Hloop (order (dom (pins s))) s []). destruct (foldl _ _ _) as [s1 r1].
  destruct Hloop as [Hc Hr]; [by intros i ?%elem_of_nil|]. etransitivity; [exact Hc|].
  apply (calm_foldl _ (λ i s, task_at s i = None)); [|by intros ??? H ?; rewrite (proj1 H)|done].
  intros. by apply calm_release_if_safe.
Qed.
End order.

(** ** The queue *)

Section queue.
Context (order : gset ItemId → list ItemId) (Horder : ∀ X, order X ≡ₚ elements X).
Context (select : nat → list (nat * N * ItemId) → list (nat * N * ItemId))
  (Hselect : selects_soonest select).

Lemma elem_of_order X i : i ∈ order X ↔ i ∈ X.
Proof. by rewrite Horder, elem_of_elements. Qed.

Lemma order_nodup X : NoDup (order X).
Proof. rewrite Horder. apply NoDup_elements. Qed.

Lemma elem_of_queue live m q :
  q ∈ queue order live m ↔ m !! q.2 = Some (Queued q.1.2) ∧ q.1.1 = live q.2.
Proof.
  unfold queue. rewrite list_elem_of_omap. setoid_rewrite elem_of_order. setoid_rewrite elem_of_dom.
  destruct q as [[n t] i]. cbn. split.
  - intros (j & [p Hp] & Hq). rewrite Hp in Hq. by destruct p; simplify_eq/=.
  - intros [Hi ->]. exists i. rewrite Hi. eauto.
Qed.

Lemma queue_items live m : (queue order live m).*2 `sublist_of` order (dom m).
Proof.
  unfold queue. induction (order (dom m)) as [|i l IH]; [constructor|].
  rewrite omap_cons_eq. destruct (m !! i) as [[]|]; try (by apply sublist_cons).
  by apply sublist_skip.
Qed.

Lemma queue_nodup live m : NoDup (queue order live m).*2.
Proof. eapply sublist_NoDup; [apply order_nodup|apply queue_items]. Qed.

(** The rows [next_to_fetch] picks, and those it leaves. *)
Lemma next_to_fetch_split live m count :
  ∃ picked left_out, picked ++ left_out ≡ₚ queue order live m ∧
    next_to_fetch order select m count live = picked.*2 ∧
    length picked = Nat.min count (length (queue order live m)) ∧
    ∀ x y, x ∈ picked → y ∈ left_out → sooner x y.
Proof.
  unfold next_to_fetch. cbv zeta. set (q := queue order live m). case_bool_decide as Hlen.
  - destruct (Hselect count q Hlen) as [Hp Ho].
    exists (take count (select count q)), (drop count (select count q)).
    rewrite take_drop. split_and!; [done|done| |done].
    rewrite length_take, Hp. lia.
  - exists q, []. rewrite app_nil_r. split_and!; [done|done|lia|].
    by intros x y _ ?%elem_of_nil.
Qed.

Lemma next_to_fetch_nodup live m count : NoDup (next_to_fetch order select m count live).
Proof.
  destruct (next_to_fetch_split live m count) as (p & l & Hp & -> & _).
  pose proof (queue_nodup live m) as Hnd. rewrite <-Hp, fmap_app in Hnd. by apply NoDup_app in Hnd as [? _].
Qed.

Lemma next_to_fetch_queued live m count i :
  i ∈ next_to_fetch order select m count live → ∃ t, m !! i = Some (Queued t).
Proof.
  destruct (next_to_fetch_split live m count) as (p & l & Hp & -> & _).
  intros (q & -> & Hq)%list_elem_of_fmap.
  assert (q ∈ queue order live m) as [Hi _]%elem_of_queue by (rewrite <-Hp; apply elem_of_app; by left).
  eauto.
Qed.

Lemma next_to_fetch_length live m count : length (next_to_fetch order select m count live) ≤ count.
Proof.
  destruct (next_to_fetch_split live m count) as (p & l & _ & -> & Hl & _). rewrite length_fmap. lia.
Qed.

(** ** Starting fetches *)

Definition is_queued (s : Pins) (i : ItemId) : Prop := ∃ t, pins s !! i = Some (Queued t).

Lemma start_fetch_tasks i s :
  tasks_ok s → is_queued s i → size (fetches s) < Pos.to_nat (max_fetches s) →
  tasks_ok (start_fetch i s).
Proof.
  intros (Ht & Hn & _) [t Hi] Hsize.
  assert (fetches s !! next_task s = None) as Hfresh.
  { destruct (fetches s !! next_task s) as [j|] eqn:E; [|done]. apply Hn in E. lia. }
  assert (task_at s i = None) as Hnone by (unfold task_at; by rewrite Hi).
  unfold tasks_ok, start_fetch. split_and!.
  - intros j u. rewrite task_at_set. cbn. destruct (decide (i = j)) as [<-|Hne]; cbn.
    + destruct (decide (u = next_task s)) as [->|Hu].
      * by rewrite lookup_insert_eq.
      * rewrite lookup_insert_ne by done. split; [congruence|]. intros Hu'%Ht. by rewrite Hnone in Hu'.
    + change (task_at s j = Some u ↔ <[next_task s := i]> (fetches s) !! u = Some j).
      destruct (decide (u = next_task s)) as [->|Hu].
      * rewrite lookup_insert_eq, Ht, Hfresh. split; [done|congruence].
      * by rewrite lookup_insert_ne.
  - intros u j. cbn. destruct (decide (u = next_task s)) as [->|Hu].
    + lia.
    + rewrite lookup_insert_ne by done. intros Hj%Hn. lia.
  - cbn. rewrite map_size_insert_None by done. lia.
Qed.

Lemma start_fetch_turns i s : turns_ok s → turns_ok (start_fetch i s).
Proof.
  intros [Hb Hd].
  assert (∀ j t, turn_at (start_fetch i s) j = Some t → turn_at s j = Some t) as Hle.
  { intros j t. unfold start_fetch. rewrite turn_at_set. by case_decide. }
  split; [intros j t Hj; by apply (Hb j), Hle|]. intros j k t Hj Hk. apply (Hd j k t); by apply Hle.
Qed.

Lemma start_fetch_size i s :
  tasks_ok s → size (fetches (start_fetch i s)) = S (size (fetches s)).
Proof.
  intros (_ & Hn & _). cbn. apply map_size_insert_None.
  destruct (fetches s !! next_task s) as [j|] eqn:E; [|done]. apply Hn in E. lia.
Qed.

Lemma start_all l s :
  tasks_ok s → turns_ok s → NoDup l → (∀ i, i ∈ l → is_queued s i) →
  size (fetches s) + length l ≤ Pos.to_nat (max_fetches s) →
  let s' := foldl (λ s i, start_fetch i s) s l in
  tasks_ok s' ∧ turns_ok s' ∧ let_go s' = let_go s ∧ max_fetches s' = max_fetches s ∧
  size (fetches s') = size (fetches s) + length l ∧
  (∀ i, i ∈ l → task_at s' i ≠ None) ∧ (∀ i, i ∉ l → pins s' !! i = pins s !! i).
Proof.
  revert s. induction l as [|i l IH]; intros s Ht Hu Hnd Hq Hlen s'; subst s'; cbn [foldl].
  { cbn. split_and!; try done; try lia; by intros i ?%elem_of_nil. }
  apply NoDup_cons in Hnd as [Hi Hnd]. cbn in Hlen.
  assert (tasks_ok (start_fetch i s)) as Ht' by (apply start_fetch_tasks; [done|apply Hq; by left|lia]).
  destruct (IH (start_fetch i s)) as (H1 & H2 & H3 & H4 & H5 & H6 & H7); try done.
  - by apply start_fetch_turns.
  - intros j Hj. destruct (Hq j) as [t Htj]; [by right|]. exists t. cbn.
    rewrite lookup_insert_ne; [done|]. by intros ->.
  - rewrite start_fetch_size by done. cbn. lia.
  - split_and!; [done|done|by rewrite H3|by rewrite H4|rewrite H5, start_fetch_size by done; cbn; lia| |].
    + intros j [->|Hj]%elem_of_cons; [|by apply H6].
      unfold task_at. rewrite H7 by done. cbn. by rewrite lookup_insert_eq.
    + intros j Hj. apply not_elem_of_cons in Hj as [Hne Hj]. rewrite H7 by done. cbn.
      by rewrite lookup_insert_ne.
Qed.

Lemma existsb_queued s :
  existsb (λ pin, match pin with Queued _ => true | _ => false end) (map_to_list (pins s)).*2 = true ↔
  ∃ i, is_queued s i.
Proof.
  rewrite existsb_exists. split.
  - intros (p & Hp & Hq). destruct p; try done. apply list_elem_of_In, list_elem_of_fmap in Hp as ([i p] & Heq & Hp).
    cbn in Heq. subst p. exists i. eexists. by apply elem_of_map_to_list.
  - intros (i & t & Hi). exists (Queued t). split; [|done]. apply list_elem_of_In, list_elem_of_fmap.
    exists (i, Queued t). split; [done|]. by apply elem_of_map_to_list.
Qed.

Lemma fewest_copies_first_eq w s count :
  fewest_copies_first order select w s count = next_to_fetch order select (pins s) count (live_copies w).
Proof.
  unfold fewest_copies_first. destruct (existsb _ _) eqn:E; [done|].
  destruct (next_to_fetch order select (pins s) count (live_copies w)) as [|i l] eqn:En; [done|].
  destruct (next_to_fetch_queued (live_copies w) (pins s) count i) as [t Ht]; [rewrite En; by left|].
  assert (∃ i, is_queued s i) as Hex by (exists i; by exists t). apply existsb_queued in Hex. congruence.
Qed.

(** What starting fetches does. *)
Lemma start_fetches_spec w s :
  tasks_ok s → turns_ok s →
  let s' := start_fetches order select w s in
  let l := next_to_fetch order select (pins s) (free_fetches s) (live_copies w) in
  tasks_ok s' ∧ turns_ok s' ∧ let_go s' = let_go s ∧ max_fetches s' = max_fetches s ∧
  size (fetches s') = size (fetches s) + length l ∧
  (∀ i, i ∈ l → task_at s' i ≠ None) ∧ (∀ i, i ∉ l → pins s' !! i = pins s !! i).
Proof.
  intros Ht Hu s' l. subst s'. unfold start_fetches. cbv zeta.
  pose proof (proj2 (proj2 Ht)) as Hbound.
  pose proof (next_to_fetch_length (live_copies w) (pins s) (free_fetches s)) as Hlen.
  pose proof (next_to_fetch_queued (live_copies w) (pins s) (free_fetches s)) as Hq.
  pose proof (next_to_fetch_nodup (live_copies w) (pins s) (free_fetches s)) as Hnd.
  fold l in Hlen, Hq, Hnd. case_bool_decide as Hfree.
  - rewrite Hfree in Hlen. destruct l; [|cbn in Hlen; lia].
    split_and!; try done; cbn; try lia; by intros i ?%elem_of_nil.
  - rewrite fewest_copies_first_eq. fold l. apply start_all; try done. unfold free_fetches in *. lia.
Qed.

(** ** A fetch that ended *)

Lemma tasks_ok_take task i s :
  tasks_ok s → fetches s !! task = Some i → tasks_ok (set_pin i Failed (take_task task s)).
Proof.
  intros (Ht & Hn & Hs) Hi. unfold tasks_ok. split_and!.
  - intros j u. rewrite task_at_set. change (fetches (set_pin i Failed (take_task task s)))
      with (delete task (fetches s)).
    change (task_at (take_task task s) j) with (task_at s j).
    destruct (decide (i = j)) as [<-|Hne]; cbn.
    + split; [done|]. intros [Hne Hu]%lookup_delete_Some. apply Ht in Hu. apply Ht in Hi. congruence.
    + rewrite lookup_delete_Some, Ht. split; [|by intros []]. intros Hu. split; [|done]. congruence.
  - intros u j Hu. cbn in Hu |- *. apply lookup_delete_Some in Hu as [_ Hu]. by apply (Hn u j).
  - cbn. pose proof (map_size_delete task (fetches s)). rewrite Hi in *. lia.
Qed.

Lemma turns_ok_take task i p s :
  turn_of p = None → turns_ok s → turns_ok (set_pin i p (take_task task s)).
Proof.
  intros Hp [Hb Hd].
  assert (∀ j t, turn_at (set_pin i p (take_task task s)) j = Some t → turn_at s j = Some t) as Hle.
  { intros j t. rewrite turn_at_set, Hp. by case_decide. }
  split; [intros j t Hj; by apply (Hb j), Hle|]. intros j k t Hj Hk. apply (Hd j k t); by apply Hle.
Qed.

Lemma set_set i p q s : set_pin i p (set_pin i q s) = set_pin i p s.
Proof. unfold set_pin, with_pins. cbn. by rewrite insert_insert_eq. Qed.

Lemma requeue_set i q s : requeue i (set_pin i q s) = requeue i s.
Proof. unfold requeue, set_pin, with_pins. cbn. by rewrite insert_insert_eq. Qed.

Lemma release_set w i q s : release_if_safe order w i (set_pin i q s) = release_if_safe order w i s.
Proof.
  unfold release_if_safe. case_match; [apply set_set|]. case_match.
  - f_equal. unfold drop_pin, call_release, set_pin, with_pins. cbn. by rewrite delete_insert_eq.
  - unfold set_pin, call_release, with_pins. cbn. by rewrite insert_insert_eq.
Qed.

(** What [fetched] makes of the pin does not depend on it any more. *)
Lemma fetched_calm w i kept s task wanted_again availability_changed :
  pins s !! i = Some (Fetching task wanted_again availability_changed) →
  calm (set_pin i Failed s) (fetched order w i kept s).
Proof.
  intros Hi. unfold fetched. rewrite Hi.
  assert (task_at (set_pin i Failed s) i = None) as Hnone by (rewrite task_at_set; by rewrite decide_True).
  assert (calm (set_pin i Failed s) (requeue i s)) as Hq
    by (rewrite <-(requeue_set i Failed s); by apply calm_requeue).
  assert (∀ p, task_of p = None → turn_of p = None → calm (set_pin i Failed s) (set_pin i p s)) as Hs.
  { intros p Hp Hu. rewrite <-(set_set i p Failed s). apply calm_set_pin; [by rewrite Hnone|by left]. }
  case_match; [rewrite <-(release_set w i Failed s); by apply calm_release_if_safe|].
  destruct kept; case_match; auto.
Qed.
End queue.
