(* ===== verification/PinsProps.v ===== *)
(** * The properties of the pin manager *)

From S2P Require Import Prelude Ids Pins KeepingFixtures Fixtures.

Section pins.
Context (order : gset ItemId → list ItemId) (select : nat → list (nat * N * ItemId) → list (nat * N * ItemId)).
Implicit Types (w : World) (s : Pins).

(** ** Fetches and pins *)

Definition pins_ok s : Prop := tasks_ok s ∧ turns_ok s.

Lemma panicked_ok task s :
  (∀ X, order X ≡ₚ elements X) → pins_ok s →
  pins_ok (fetch_panicked order task (take_task task s)) ∧
  max_fetches (fetch_panicked order task (take_task task s)) = max_fetches s.
Proof.
  intros Horder [Ht Hu]. unfold fetch_panicked.
  destruct (List.find _ _) as [i|] eqn:E.
  - apply List.find_some in E as [_ Hi]. cbn in Hi.
    assert (fetches s !! task = Some i) as Hf.
    { apply Ht. unfold task_at. destruct (pins s !! i) as [[]|]; try done.
      by apply bool_decide_eq_true in Hi as ->. }
    split; [split; [by apply tasks_ok_take|by apply turns_ok_take]|done].
  - assert (fetches s !! task = None) as Hf.
    { destruct (fetches s !! task) as [i|] eqn:Hi; [|done]. apply (proj1 Ht) in Hi as Hpin. unfold task_at in Hpin.
      destruct (pins s !! i) as [p|] eqn:Hp; [|done].
      assert (i ∈ order (dom (pins s))) as Hin%list_elem_of_In
        by (rewrite Horder; apply elem_of_elements, elem_of_dom; eauto).
      apply (List.find_none _ _ E) in Hin. cbn in Hin. rewrite Hp in Hin. destruct p; try done.
      cbn in Hpin. injection Hpin as ->. by rewrite bool_decide_true in Hin. }
    assert (take_task task s = s) as ->; [|done].
    unfold take_task. rewrite delete_id by done. by destruct s.
Qed.

Lemma handle_ok w e s :
  (∀ X, order X ≡ₚ elements X) → pins_ok s →
  pins_ok (handle order w e s) ∧ max_fetches (handle order w e s) = max_fetches s.
Proof.
  intros Horder Hok.
  assert (∀ s1 s2, pins_ok s1 → calm s1 s2 → pins_ok s2 ∧ max_fetches s2 = max_fetches s1) as Hcalm.
  { intros s1 s2 [Ht Hu] Hc. pose proof Hc as (_ & _ & _ & Hm & Hturns).
    split; [|done]. split; [by eapply calm_tasks_ok|by apply Hturns]. }
  destruct e as [| | | |task kept|task]; cbn [handle].
  - apply Hcalm, calm_read_custody_again; done.
  - apply Hcalm, calm_want; done.
  - apply Hcalm, calm_lose; done.
  - apply Hcalm, calm_availability_changed; done.
  - destruct (fetches s !! task) as [i|] eqn:Hf; [|done]. destruct Hok as [Ht Hu].
    assert (task_at s i = Some task) as Hpin by by apply (proj1 Ht).
    unfold task_at in Hpin. destruct (pins s !! i) as [p|] eqn:Hp; [|done].
    destruct p; try done.
    apply (Hcalm (set_pin i Failed (take_task task s))).
    + split; [by apply tasks_ok_take|by apply turns_ok_take].
    + by eapply fetched_calm.
  - by apply panicked_ok.
Qed.

Lemma turn_ok before after e s :
  (∀ X, order X ≡ₚ elements X) → selects_soonest select → pins_ok s →
  pins_ok (turn order select before after e s) ∧
  max_fetches (turn order select before after e s) = max_fetches s.
Proof.
  intros Horder Hselect [Ht Hu].
  pose proof (start_fetches_spec order Horder select Hselect before s Ht Hu) as (H1 & H2 & _ & H4 & _).
  unfold turn. rewrite <-H4. by apply handle_ok.
Qed.

Lemma start_ok w max kept :
  (∀ X, order X ≡ₚ elements X) →
  pins_ok (start order w max kept) ∧ max_fetches (start order w max kept) = max.
Proof.
  intros Horder. unfold start. assert (pins_ok (MkPins (gset_to_gmap Kept kept) 0 max ∅ 0 [])) as [Ht Hu].
  { assert (∀ i, gset_to_gmap Kept kept !! i = None ∨ gset_to_gmap Kept kept !! i = Some Kept) as Hk.
    { intros i. rewrite lookup_gset_to_gmap. destruct (decide (i ∈ kept));
        [rewrite option_guard_True by done; auto|rewrite option_guard_False by done; auto]. }
    split; [split_and!|split].
    - intros i t. unfold task_at. cbn. rewrite lookup_empty. by destruct (Hk i) as [-> | ->].
    - done.
    - cbn. rewrite map_size_empty. lia.
    - intros i t. unfold turn_at. cbn. by destruct (Hk i) as [-> | ->].
    - intros i j t. unfold turn_at. cbn. by destruct (Hk i) as [-> | ->]. }
  pose proof (calm_read_custody_again order w (MkPins (gset_to_gmap Kept kept) 0 max ∅ 0 [])) as Hc.
  split; [split; [by eapply calm_tasks_ok|by apply Hc]|by apply Hc].
Qed.

Lemma run_ok w max kept turns :
  (∀ X, order X ≡ₚ elements X) → selects_soonest select →
  pins_ok (run order select w max kept turns) ∧ max_fetches (run order select w max kept turns) = max.
Proof.
  intros Horder Hselect. unfold run. induction turns as [|[[before after] e] turns [IH Hm]] using rev_ind.
  - by apply start_ok.
  - rewrite foldl_snoc. destruct (turn_ok before after e _ Horder Hselect IH) as [H1 H2].
    split; [exact H1|]. etransitivity; [exact H2|done].
Qed.

(** however the group, the fetches and custody come and go, the items being
    fetched are exactly those with a running fetch of their own, never more at
    once than allowed, and no two items have the same place in the queue. *)
Theorem fetches_are_pins w max kept turns
    (Horder : ∀ X, order X ≡ₚ elements X) (Hselect : selects_soonest select) :
  let s := run order select w max kept turns in
  (∀ i t, (∃ a b, pins s !! i = Some (Fetching t a b)) ↔ fetches s !! t = Some i) ∧
  size (fetches s) ≤ Pos.to_nat max ∧
  ∀ i j t, pins s !! i = Some (Queued t) → pins s !! j = Some (Queued t) → i = j.
Proof.
  intros s. destruct (run_ok w max kept turns Horder Hselect) as [[(Ht & _ & Hs) [_ Hu]] Hmax]. fold s in Ht, Hs, Hu, Hmax.
  rewrite Hmax in Hs. split_and!; [|done|].
  - intros i t. rewrite <-Ht. unfold task_at. destruct (pins s !! i) as [[]|]; cbn; naive_solver.
  - intros i j t Hi Hj. apply (Hu i j t); unfold turn_at; [by rewrite Hi|by rewrite Hj].
Qed.

(** Starting fetches fills every free slot while anything is queued, with
    items that have no more live copies than any item left queued, and of as
    many copies the ones queued first; nothing else changes. *)
Theorem fewest_copies_go_first w s
    (Horder : ∀ X, order X ≡ₚ elements X) (Hselect : selects_soonest select) (Hok : pins_ok s) :
  let s' := start_fetches order select w s in
  (size (fetches s') = Pos.to_nat (max_fetches s) ∨ ∀ i t, pins s' !! i ≠ Some (Queued t)) ∧
  (∀ i, pins s' !! i = pins s !! i ∨ is_queued s i ∧ task_at s' i ≠ None) ∧
  ∀ i j t u, pins s !! i = Some (Queued t) → task_at s' i ≠ None → pins s' !! j = Some (Queued u) →
    live_copies w i < live_copies w j ∨ live_copies w i = live_copies w j ∧ (t < u)%N.
Proof.
  destruct Hok as [Ht Hu]. intros s'.
  destruct (start_fetches_spec order Horder select Hselect w s Ht Hu)
    as (_ & _ & _ & _ & Hsize & Hin & Hout). fold s' in Hsize, Hin, Hout.
  destruct (next_to_fetch_split order select Hselect (live_copies w) (pins s) (free_fetches s))
    as (picked & left_out & Hp & Hl & Hlen & Hsooner).
  rewrite Hl in *. clear Hl.
  assert (∀ i t, pins s !! i = Some (Queued t) → i ∉ picked.*2 →
    (live_copies w i, t, i) ∈ left_out) as Hleft.
  { intros i t Hi Hn. assert ((live_copies w i, t, i) ∈ queue order (live_copies w) (pins s)) as Hq
      by by apply (elem_of_queue order Horder).
    rewrite <-Hp in Hq. apply elem_of_app in Hq as [Hq|]; [|done]. destruct Hn.
    by apply (list_elem_of_fmap_2 snd _ _ Hq). }
  assert (∀ j u, pins s' !! j = Some (Queued u) → j ∉ picked.*2 ∧ pins s !! j = Some (Queued u)) as Hstill.
  { intros j u Hj. assert (j ∉ picked.*2) as Hn.
    { intros Hj'. apply (Hin j) in Hj'. apply Hj'. unfold task_at. by rewrite Hj. }
    split; [done|]. by rewrite <-Hout. }
  split_and!.
  - destruct (decide (length left_out = 0)) as [H0|Hne].
    + right. intros j u [Hn Hj]%Hstill. pose proof (Hleft j u Hj Hn) as Hjl.
      destruct left_out; [by apply elem_of_nil in Hjl|done].
    + left. apply Permutation_length in Hp. rewrite length_app in Hp.
      rewrite Hsize, length_fmap. pose proof (proj2 (proj2 Ht)). unfold free_fetches in *. lia.
  - intros i. destruct (decide (i ∈ picked.*2)) as [Hi|Hi]; [|left; by apply Hout]. right.
    split; [|by apply Hin]. apply list_elem_of_fmap in Hi as (q & -> & Hq).
    assert (q ∈ queue order (live_copies w) (pins s)) as [Hi _]%(elem_of_queue order Horder)
      by (rewrite <-Hp; apply elem_of_app; by left). by eexists.
  - intros i j t u Hi Hs' [Hn Hj]%Hstill. pose proof (Hleft j u Hj Hn) as Hjl.
    assert (i ∈ picked.*2) as Hip.
    { destruct (decide (i ∈ picked.*2)); [done|]. destruct Hs'. unfold task_at. by rewrite Hout, Hi. }
    apply list_elem_of_fmap in Hip as (q & -> & Hq).
    assert (q ∈ queue order (live_copies w) (pins s)) as [Hqi Hqc]%(elem_of_queue order Horder)
      by (rewrite <-Hp; apply elem_of_app; by left).
    rewrite Hi in Hqi. injection Hqi as ->. specialize (Hsooner _ _ Hq Hjl).
    unfold sooner in Hsooner. cbn in Hsooner. rewrite Hqc in Hsooner.
    destruct Hsooner as [?|[? [?|[Heq _]]]]; [by left|by right|].
    destruct (decide (q.2 = j)) as [<-|Hne]; [by destruct Hn; apply (list_elem_of_fmap_2 snd)|].
    destruct Hne. apply (proj2 Hu _ _ u); unfold turn_at; [by rewrite Hi, <-Heq|by rewrite Hj].
Qed.

(** ** Letting go *)

(** Why a node may let go of its copy. *)
Definition may_let_go w (i : ItemId) : Prop :=
  behind_the_group w = false ∧
  (holds w i = true →
   (∀ m, m ∈ world_online w → m ≠ world_me w → knows_holdings_of w m = true) ∧
   Pos.to_nat (world_replicas w) ≤ live_copies w i).

(** [s'] let go of more than [s], each for a reason in [R]. *)
Definition lets_go w (R : ItemId → Prop) s s' : Prop :=
  ∃ new, let_go s' = let_go s ++ new ∧ ∀ i, i ∈ new → may_let_go w i ∧ R i.

Lemma lets_go_none w R s s' : let_go s' = let_go s → lets_go w R s s'.
Proof. intros H. exists []. rewrite app_nil_r. split; [done|]. by intros i ?%elem_of_nil. Qed.

Lemma lets_go_trans w R s1 s2 s3 : lets_go w R s1 s2 → lets_go w R s2 s3 → lets_go w R s1 s3.
Proof.
  intros (l & Hl & Hall) (k & Hk & Kall). exists (l ++ k). rewrite Hk, Hl, (assoc_L app).
  split; [done|]. intros i [?|?]%elem_of_app; auto.
Qed.

Lemma lets_go_foldl {A} (f : Pins → A → Pins) w (R : ItemId → Prop) l s :
  (∀ s x, x ∈ l → lets_go w R s (f s x)) → lets_go w R s (foldl f s l).
Proof.
  revert s. induction l as [|x l IH]; intros s Hf; [by apply lets_go_none|]. cbn [foldl].
  eapply lets_go_trans; [apply Hf; by left|]. apply IH. intros s' y Hy. apply Hf. by right.
Qed.

Lemma ask_again_lets_go s : let_go (ask_again_for_room order s) = let_go s.
Proof.
  unfold ask_again_for_room. generalize (order (dom (pins s))) as l. intros l. revert s.
  induction l as [|i l IH]; intros s; [done|]. cbn [foldl]. rewrite IH. by destruct (pins s !! i) as [[]|].
Qed.

Lemma release_lets_go w (R : ItemId → Prop) i s : R i → lets_go w R s (release_if_safe order w i s).
Proof.
  intros Hr. unfold release_if_safe. destruct (_ || _) eqn:E; [by apply lets_go_none|].
  apply orb_false_iff in E as [Hb He]. exists [i]. split.
  - destruct (releases w i); [by rewrite ask_again_lets_go|done].
  - intros j ->%list_elem_of_singleton. split; [|done]. split; [done|]. intros Hh. rewrite Hh in He.
    cbn in He. apply negb_false_iff in He. unfold enough_copies_elsewhere in He.
    case_bool_decide as Hk; [done|]. apply bool_decide_eq_true in He. split; [|done].
    intros m Hm Hne. destruct (knows_holdings_of w m) eqn:Em; [done|]. destruct Hk. by exists m.
Qed.

Lemma lose_lets_go w (R : ItemId → Prop) i s : R i → lets_go w R s (lose order w i s).
Proof.
  intros Hr. unfold lose. destruct (pins s !! i) as [[]|]; try (by apply lets_go_none); by apply release_lets_go.
Qed.

(** Why the turn that wakes to [e] may be asked to let go of an item. *)
Definition reason_to_let_go w (e : Woken) s (i : ItemId) : Prop :=
  match e with
  | Recomputed => ∃ mine, world_mine w = Some mine ∧ i ∉ mine
  | ItemNotMine j => i = j
  | AvailabilityLooked => pins s !! i = Some Releasing
  | Joined task _ => fetches s !! task = Some i ∧ keeps w i = false
  | ItemMine _ | Panicked _ => False
  end.

Lemma handle_lets_go w e s : lets_go w (reason_to_let_go w e s) s (handle order w e s).
Proof.
  destruct e as [|i|i| |task kept|task]; cbn [handle].
  - unfold read_custody_again. destruct (world_mine w) as [mine|] eqn:E; [|by apply lets_go_none].
    eapply lets_go_trans; [apply (lets_go_foldl (λ s item, if needs_keeping w s item then want item s else s))
      |apply (lets_go_foldl (λ s item, lose order w item s))].
    + intros s' i _. apply lets_go_none. by case_match.
    + intros s' i [Hi _]%list_elem_of_filter. apply lose_lets_go. cbn. eauto.
  - by apply lets_go_none.
  - by apply lose_lets_go.
  - unfold availability_changed.
    assert (∀ l s0 r0, let_go s0 = let_go s →
      (∀ i, pins s0 !! i = Some Releasing → pins s !! i = Some Releasing) →
      (∀ i, i ∈ r0 → pins s !! i = Some Releasing) →
      let '(s1, r1) := foldl look_again (s0, r0) l in
      let_go s1 = let_go s ∧ ∀ i, i ∈ r1 → pins s !! i = Some Releasing) as Hloop.
    { induction l as [|i l IH]; intros s0 r0 H1 H2 H3; [done|]. cbn [foldl].
      unfold look_again at 2. destruct (pins s0 !! i) as [[]|] eqn:E; try (by apply IH); apply IH; try done.
      - intros j. cbn. destruct (decide (i = j)) as [<-|]; [by rewrite lookup_insert_eq|].
        rewrite lookup_insert_ne by done. apply H2.
      - intros j. cbn. destruct (decide (i = j)) as [<-|]; [by rewrite lookup_insert_eq|].
        rewrite lookup_insert_ne by done. apply H2.
      - intros j [?| ->%list_elem_of_singleton]%elem_of_app; auto. }
    specialize (Hloop (order (dom (pins s))) s []). destruct (foldl _ _ _) as [s1 r1].
    destruct Hloop as [Hs1 Hr1]; [done..|by intros i ?%elem_of_nil|].
    eapply lets_go_trans; [by apply lets_go_none|]. apply (lets_go_foldl (λ s item, release_if_safe order w item s)).
    intros s' i Hi. apply release_lets_go. cbn. auto.
  - destruct (fetches s !! task) as [i|] eqn:Ef; [|by apply lets_go_none]. unfold fetched.
    destruct (pins (take_task task s) !! i) as [[]|]; try (by apply lets_go_none).
    destruct (keeps w i) eqn:Ek; cbn.
    + apply lets_go_none. by repeat case_match.
    + eapply (lets_go_trans _ _ _ (take_task task s)); [by apply lets_go_none|]. by apply release_lets_go.
  - apply lets_go_none. unfold fetch_panicked. by case_match.
Qed.

(** ** Custody read again *)

(** How an item a node is custodian of is looked after. *)
Definition looked_after w s (i : ItemId) : Prop :=
  ∃ p, pins s !! i = Some p ∧ p ≠ Releasing ∧ (p = Kept → holds w i = true).
(** How one it is not a custodian of is. *)
Definition leaving s (i : ItemId) : Prop :=
  match pins s !! i with None | Some Releasing | Some (Fetching _ _ _) => True | _ => False end.

(** All that letting go of another item may do to a pin. *)
Definition asked_for_room (p q : option Pin) : Prop :=
  q = p ∨ p = Some WaitingForRoom ∧ ∃ t, q = Some (Queued t).

Lemma asked_for_room_refl p : asked_for_room p p.
Proof. by left. Qed.

Lemma ask_again_pins s i : asked_for_room (pins s !! i) (pins (ask_again_for_room order s) !! i).
Proof.
  unfold ask_again_for_room. generalize (order (dom (pins s))) as l. intros l. revert s.
  induction l as [|j l IH]; intros s; [by left|]. cbn [foldl].
  destruct (pins s !! j) as [[]|] eqn:E; try apply IH.
  specialize (IH (requeue j s)). change (pins (requeue j s)) with (<[j := Queued (next_turn s)]> (pins s)) in IH.
  destruct (decide (j = i)) as [->|Hne].
  - rewrite lookup_insert_eq in IH. destruct IH as [-> |[? _]]; [|done]. right. eauto.
  - by rewrite lookup_insert_ne in IH.
Qed.

Lemma release_other w i j s :
  i ≠ j → asked_for_room (pins s !! j) (pins (release_if_safe order w i s) !! j).
Proof.
  intros Hne. unfold release_if_safe. case_match; [|case_match].
  - left. cbn. by rewrite lookup_insert_ne.
  - pose proof (ask_again_pins (drop_pin i (call_release i s)) j) as Hp. cbn in Hp.
    by rewrite lookup_delete_ne in Hp.
  - left. cbn. by rewrite lookup_insert_ne.
Qed.

Lemma release_leaving w i s : leaving (release_if_safe order w i s) i.
Proof.
  unfold leaving, release_if_safe. destruct (behind_the_group w || _); [by cbn; rewrite lookup_insert_eq|].
  destruct (releases w i); [|by cbn; rewrite lookup_insert_eq].
  pose proof (ask_again_pins (drop_pin i (call_release i s)) i) as Hp.
  change (pins (drop_pin i (call_release i s))) with (delete i (pins s)) in Hp.
  rewrite lookup_delete_eq in Hp. by destruct Hp as [-> |[? _]].
Qed.

Lemma lose_other w i j s : i ≠ j → asked_for_room (pins s !! j) (pins (lose order w i s) !! j).
Proof.
  intros Hne. unfold lose. destruct (pins s !! i) as [[]|]; try (by left); by apply release_other.
Qed.

Lemma lose_leaving w i s : leaving (lose order w i s) i.
Proof.
  unfold lose. destruct (pins s !! i) as [[]|] eqn:E; try apply release_leaving; unfold leaving; by rewrite E.
Qed.

Lemma asked_for_room_looked_after w s s' i :
  asked_for_room (pins s !! i) (pins s' !! i) → looked_after w s i → looked_after w s' i.
Proof.
  unfold looked_after. intros [-> |[Hp [t ->]]] (p & Hi & Hp1 & Hp2); [eauto|]. exists (Queued t). done.
Qed.

Lemma asked_for_room_leaving s s' i :
  asked_for_room (pins s !! i) (pins s' !! i) → leaving s i → leaving s' i.
Proof. unfold leaving. intros [-> |[-> [t ->]]]; done. Qed.

(** once custody is read again, every item this node is custodian of is
    looked after: queued, being fetched, failed, waiting for room, or kept
    with all its files here; and every other item is being let go of, if it is
    not still being fetched, after which it is. *)
Theorem custody_is_followed w s mine
    (Horder : ∀ X, order X ≡ₚ elements X) (Hmine : world_mine w = Some mine) :
  let s' := read_custody_again order w s in
  (∀ i, i ∈ mine → looked_after w s' i) ∧
  (∀ i, i ∉ mine → leaving s' i).
Proof.
  intros s'. subst s'. unfold read_custody_again. rewrite Hmine.
  set (f := λ s item, if needs_keeping w s item then want item s else s).
  set (s1 := foldl f s (order mine)).
  assert (∀ i, i ∈ mine → looked_after w s1 i) as Hs1.
  { intros i Hi. assert (i ∈ order mine) as Hin by by apply (elem_of_order order Horder).
    subst s1. clear Hi. revert s Hin. induction (order mine) as [|j l IH]; intros s Hin; [by apply elem_of_nil in Hin|].
    cbn [foldl]. destruct (decide (i ∈ l)) as [Hl|Hl]; [by apply IH|].
    apply elem_of_cons in Hin as [<-|?]; [|done].
    assert (looked_after w (f s i) i) as Hf.
    { unfold f, needs_keeping, looked_after. destruct (pins s !! i) as [[]|] eqn:E; cbn;
        try (by eexists); try (unfold want; cbn; rewrite E, lookup_insert_eq; by eexists).
      destruct (holds w i) eqn:Eh; cbn; [rewrite E; by eexists|].
      unfold want. cbn. rewrite E, lookup_insert_eq. by eexists. }
    clear IH. revert Hf. generalize (f s i). clear s. intros s Hf. induction l as [|j l IH] in s, Hf, Hl |- *; [done|].
    apply not_elem_of_cons in Hl as [Hne Hl]. cbn [foldl]. apply IH; [done|].
    unfold f at 1. case_match; [|done]. destruct Hf as (p & Hp & Hrest). exists p. split; [|done].
    unfold want. cbn. by rewrite lookup_insert_ne. }
  generalize dependent s1. clear s. intros s Hs1.
  set (lost := filter (λ item, item ∉ mine) (order (dom (pins s)))).
  assert (∀ i, i ∈ lost → i ∉ mine) as Hlost by (by intros i [? _]%list_elem_of_filter).
  assert (∀ i, i ∉ mine → leaving s i ∨ i ∈ lost) as Hcover.
  { intros i Hi. destruct (pins s !! i) as [p|] eqn:E; [right|left; unfold leaving; by rewrite E].
    apply list_elem_of_filter. split; [done|]. apply (elem_of_order order Horder), elem_of_dom. eauto. }
  clearbody lost. induction lost as [|j l IH] in s, Hs1, Hlost, Hcover |- *; cbn [foldl].
  - split; [done|]. intros i Hi. destruct (Hcover i Hi) as [|[]%elem_of_nil]. done.
  - assert (j ∉ mine) as Hj by (apply Hlost; by left). apply IH.
    + intros i Hi. eapply asked_for_room_looked_after; [apply lose_other|by apply Hs1]. by intros ->.
    + intros i Hi. apply Hlost. by right.
    + intros i Hi. destruct (decide (i = j)) as [->|Hne]; [left; apply lose_leaving|].
      destruct (Hcover i Hi) as [Hl|[?|?]%elem_of_cons]; [|done|by right]. left.
      eapply asked_for_room_leaving; [|done]. by apply lose_other.
Qed.

(** ** Letting go, through a run *)

(** Whether a node was told last that an item is its to keep, as it was before
    if the turn that wakes to [e] tells nothing of it: by a reading of custody,
    by a change of it, or by custody as it is when the item's fetch ends. *)
Definition told w (e : Woken) s (i : ItemId) (mine : bool) : bool :=
  match e with
  | Recomputed => match world_mine w with Some all => bool_decide (i ∈ all) | None => mine end
  | ItemMine j => bool_decide (i = j) || mine
  | ItemNotMine j => negb (bool_decide (i = j)) && mine
  | Joined task _ => if bool_decide (fetches s !! task = Some i) then keeps w i else mine
  | AvailabilityLooked | Panicked _ => mine
  end.

(** The same through a run; what it was found with at the start, and nothing
    was told of, counts as its to keep. *)
Definition told_last w (max : positive) (kept : gset ItemId) (turns : list (World * World * Woken)) (i : ItemId) : bool :=
  (foldl (λ '(s, mine) '(before, after, e),
      (turn order select before after e s, told after e (start_fetches order select before s) i mine))
    (start order w max kept, told w Recomputed (MkPins (gset_to_gmap Kept kept) 0 max ∅ 0 []) i true) turns).2.

Lemma told_last_run w max kept turns i :
  foldl (λ '(s, mine) '(before, after, e),
      (turn order select before after e s, told after e (start_fetches order select before s) i mine))
    (start order w max kept, told w Recomputed (MkPins (gset_to_gmap Kept kept) 0 max ∅ 0 []) i true) turns =
  (run order select w max kept turns, told_last w max kept turns i).
Proof.
  unfold told_last. induction turns as [|[[before after] e] turns IH] using rev_ind; [done|].
  rewrite foldl_snoc. unfold run. rewrite foldl_snoc. fold (run order select w max kept turns). by rewrite IH.
Qed.

Lemma told_last_snoc w max kept turns before after e i :
  told_last w max kept (turns ++ [(before, after, e)]) i =
  told after e (start_fetches order select before (run order select w max kept turns)) i (told_last w max kept turns i).
Proof. unfold told_last at 1. by rewrite foldl_snoc, told_last_run. Qed.

(** [s'] has no item being let go of that [s] has not. *)
Definition releases_no_more s s' (i : ItemId) : Prop :=
  pins s' !! i = Some Releasing → pins s !! i = Some Releasing.

Lemma releases_trans s1 s2 s3 i : releases_no_more s1 s2 i → releases_no_more s2 s3 i → releases_no_more s1 s3 i.
Proof. unfold releases_no_more. auto. Qed.

Lemma releases_foldl {A} (f : Pins → A → Pins) (i : ItemId) l s :
  (∀ s x, x ∈ l → releases_no_more s (f s x) i) → releases_no_more s (foldl f s l) i.
Proof.
  revert s. induction l as [|x l IH]; intros s Hf; [by intros ?|]. cbn [foldl].
  eapply releases_trans; [apply Hf; by left|]. apply IH. intros s' y Hy. apply Hf. by right.
Qed.

Lemma set_releases_no_more i j p s : p ≠ Releasing → releases_no_more s (set_pin j p s) i.
Proof.
  intros Hp. unfold releases_no_more. cbn. destruct (decide (j = i)) as [->|]; [rewrite lookup_insert_eq; congruence|].
  by rewrite lookup_insert_ne.
Qed.

Lemma want_releases j s i : releases_no_more s (want j s) i ∧ pins (want j s) !! j ≠ Some Releasing.
Proof.
  assert (wanted (pins s !! j) (next_turn s) ≠ Releasing) as Hw by by destruct (pins s !! j) as [[]|].
  split; [exact (set_releases_no_more i j _ (take_turn s).2 Hw)|]. unfold want. cbn. rewrite lookup_insert_eq. congruence.
Qed.

Lemma asked_releases s s' i : asked_for_room (pins s !! i) (pins s' !! i) → releases_no_more s s' i.
Proof. unfold releases_no_more. intros [-> |[-> [t ->]]]; done. Qed.

Lemma start_fetches_releases w s i : releases_no_more s (start_fetches order select w s) i.
Proof.
  unfold start_fetches. case_match; [by intros ?|]. apply releases_foldl. intros s' j _.
  exact (set_releases_no_more i j (Fetching (next_task s') false false)
    (MkPins (pins s') (next_turn s') (max_fetches s') (<[next_task s' := j]> (fetches s')) (next_task s' + 1) (let_go s')) ltac:(done)).
Qed.

Lemma read_again_releases w s i :
  (∀ X, order X ≡ₚ elements X) →
  pins (handle order w Recomputed s) !! i = Some Releasing →
  told w Recomputed s i true = false ∨ world_mine w = None ∧ pins s !! i = Some Releasing.
Proof.
  intros Horder. cbn [handle told]. destruct (world_mine w) as [mine|] eqn:E.
  - intros Hi. left. apply bool_decide_eq_false. intros Hin.
    destruct (custody_is_followed w s mine Horder E) as [Hall _]. destruct (Hall i Hin) as (p & Hp & Hne & _). congruence.
  - unfold read_custody_again. rewrite E. auto.
Qed.

Lemma looked_again_releases l i s releasing :
  (∀ j, j ∈ releasing → pins s !! j = Some Releasing) →
  let '(s', releasing') := foldl look_again (s, releasing) l in
  releases_no_more s s' i ∧ ∀ j, j ∈ releasing' → pins s' !! j = Some Releasing.
Proof.
  revert s releasing. induction l as [|j l IH]; intros s releasing Hr; [by split; [intros ?|]|]. cbn [foldl].
  assert (∀ s1 r1, look_again (s, releasing) j = (s1, r1) → releases_no_more s s1 i ∧ ∀ k, k ∈ r1 → pins s1 !! k = Some Releasing) as Hone.
  { unfold look_again. intros s1 r1. destruct (pins s !! j) as [[]|] eqn:E; intros [= <- <-]; try (by split; [intros ?|]).
    - split; [by apply set_releases_no_more|]. intros k Hk%Hr. cbn. rewrite lookup_insert_ne; [done|congruence].
    - split; [exact (set_releases_no_more i j (Queued (next_turn s)) (take_turn s).2 ltac:(done))|].
      intros k Hk%Hr. cbn. rewrite lookup_insert_ne; [done|congruence].
    - split; [by intros ?|]. intros k [Hk|Hk%list_elem_of_singleton]%elem_of_app; [auto|by subst k]. }
  destruct (look_again (s, releasing) j) as [s1 r1]. destruct (Hone _ _ eq_refl) as [Hs Hr1].
  specialize (IH s1 r1 Hr1). destruct (foldl look_again (s1, r1) l) as [s2 r2]. destruct IH as [Hs2 Hr2].
  split; [by eapply releases_trans|done].
Qed.

Lemma handle_releases w e s i mine :
  (∀ X, order X ≡ₚ elements X) → pins_ok s →
  (pins s !! i = Some Releasing → mine = false) →
  pins (handle order w e s) !! i = Some Releasing → told w e s i mine = false.
Proof.
  intros Horder [Ht _] Hm Hi. assert (∀ s', releases_no_more s s' i → pins s' !! i = Some Releasing → mine = false) as Hmore
    by (intros s' Hs ?; by apply Hm, Hs).
  destruct e as [|j|j| |task kept|task]; cbn [handle told] in *.
  - apply (read_again_releases w s i Horder) in Hi as [Hi|[E Hi]]; cbn [told] in *; [by destruct (world_mine w)|].
    rewrite E. by apply Hm.
  - destruct (want_releases j s i) as [Hw Hj]. rewrite bool_decide_false by (by intros ->). by eapply Hmore.
  - case_bool_decide as Hj; [done|]. eapply Hmore; [|done]. apply asked_releases, lose_other. congruence.
  - apply Hm. unfold availability_changed in Hi.
    pose proof (looked_again_releases (order (dom (pins s))) i s []) as Hl.
    destruct (foldl look_again _ _) as [s1 releasing]. destruct Hl as [Hs1 Hr]; [by intros j ?%elem_of_nil|]. apply Hs1.
    destruct (decide (i ∈ releasing)) as [|Hno]; [by apply Hr|]. revert Hi. apply releases_foldl.
    intros s' j Hj. apply asked_releases, release_other. by intros ->.
  - case_bool_decide as Hf.
    + rewrite Hf in Hi. unfold fetched in Hi. destruct (keeps w i); [|done]. exfalso.
      apply (proj1 Ht) in Hf. unfold task_at in Hf. cbn [take_task pins negb] in Hi. revert Hf Hi. destruct (pins s !! i) as [[|t again changed| | | |]|] eqn:Ep; cbn;
        intros Hf; try discriminate Hf. by destruct kept, again, changed; unfold requeue; cbn; rewrite lookup_insert_eq.
    + destruct (fetches s !! task) as [j|] eqn:Ef; [|by apply Hm]. eapply Hmore; [|exact Hi].
      unfold fetched. destruct (pins (take_task task s) !! j) as [[|t again changed| | | |]|]; try by intros ?.
      assert (j ≠ i) as Hne by congruence. destruct (keeps w j); cbn [negb].
      * unfold releases_no_more. by destruct kept, again, changed; unfold requeue; cbn; rewrite lookup_insert_ne by done.
      * by apply (asked_releases (take_task task s)), release_other.
  - eapply Hmore; [|exact Hi]. unfold fetch_panicked. case_match; [|by intros ?]. by apply (set_releases_no_more i _ _ (take_task task s)).
Qed.

Lemma told_sound w max kept turns i :
  (∀ X, order X ≡ₚ elements X) → selects_soonest select →
  pins (run order select w max kept turns) !! i = Some Releasing → told_last w max kept turns i = false.
Proof.
  intros Horder Hselect. induction turns as [|[[before after] e] turns IH] using rev_ind.
  - intros Hi. apply (read_again_releases w _ i Horder) in Hi as [Hi|[_ Hi]]; [done|].
    cbn in Hi. by apply lookup_gset_to_gmap_Some in Hi as [_ Hi].
  - rewrite told_last_snoc. destruct (run_ok w max kept turns Horder Hselect) as [[Ht Hu] _]. unfold run in *.
    rewrite foldl_snoc. set (s := foldl _ _ turns) in *. unfold turn. apply handle_releases; [done| |].
    + pose proof (start_fetches_spec order Horder select Hselect before s Ht Hu) as (H1 & H2 & _). by split.
    + intros Hi. by apply IH, (start_fetches_releases before s i).
Qed.

(** C33: However custody, fetches and what is known of the group come, a turn
    has its item let go of only when what it was told last is that it is not
    the node's to keep: by custody read as a whole, by a change of it, or by
    custody at the end of the item's fetch; only while it is not behind the
    group; and, if it has all of the item, only when it knows what every other
    member online holds and [replicas] of them hold a real copy. Of an item it
    has not all of, no copies elsewhere are asked for, by the code either.
    Starting fetches lets go of nothing. *)
Theorem lets_go_safely w0 max kept turns before w e
    (Horder : ∀ X, order X ≡ₚ elements X) (Hselect : selects_soonest select) :
  let s := run order select w0 max kept turns in
  let_go (start_fetches order select before s) = let_go s ∧
  ∃ new, let_go (turn order select before w e s) = let_go s ++ new ∧
    ∀ i, i ∈ new → told_last w0 max kept (turns ++ [(before, w, e)]) i = false ∧ behind_the_group w = false ∧
      (holds w i = true →
        (∀ m, m ∈ world_online w → m ≠ world_me w → knows_holdings_of w m = true) ∧
        Pos.to_nat (world_replicas w) ≤ live_copies w i).
Proof.
  intros s. destruct (run_ok w0 max kept turns Horder Hselect) as [[Ht Hu] _]. fold s in Ht, Hu.
  pose proof (start_fetches_spec order Horder select Hselect before s Ht Hu) as (_ & _ & Hgo & _). split; [exact Hgo|].
  destruct (handle_lets_go w e (start_fetches order select before s)) as (new & Hnew & Hall). rewrite Hgo in Hnew.
  exists new. split; [exact Hnew|]. intros i Hi. destruct (Hall i Hi) as [[Hb Hcopies] Hwhy]. split; [|by split].
  pose proof (told_sound w0 max kept turns i Horder Hselect) as Hsaid. fold s in Hsaid. rewrite told_last_snoc. fold s.
  destruct e as [|j|j| |task joined|task]; cbn [reason_to_let_go told] in *.
  - destruct Hwhy as (mine & -> & Hn). by apply bool_decide_eq_false.
  - done.
  - by rewrite bool_decide_true.
  - by apply Hsaid, (start_fetches_releases before s i).
  - destruct Hwhy as [Hf Hk]. by rewrite bool_decide_true.
  - done.
Qed.

(** ** Waiting for room *)

Lemma ask_again_none s i :
  (∀ X, order X ≡ₚ elements X) → pins (ask_again_for_room order s) !! i ≠ Some WaitingForRoom.
Proof.
  intros Horder. unfold ask_again_for_room.
  assert (pins s !! i = Some WaitingForRoom → i ∈ order (dom (pins s))) as Hin
    by (intros Hi; apply (elem_of_order order Horder), elem_of_dom; eauto).
  revert Hin. generalize (order (dom (pins s))) as l. intros l.
  induction l as [|j l IH] in s |- *; intros Hin; cbn [foldl]; [intros Hw; by apply Hin, elem_of_nil in Hw|].
  apply IH. destruct (pins s !! j) as [[]|] eqn:E;
    try (intros Hw; pose proof (Hin Hw) as [|]%elem_of_cons; [congruence|done]).
  change (pins (requeue j s)) with (<[j := Queued (next_turn s)]> (pins s)).
  destruct (decide (j = i)) as [->|Hne]; [by rewrite lookup_insert_eq|].
  rewrite lookup_insert_ne by done. intros Hw. by pose proof (Hin Hw) as [|]%elem_of_cons.
Qed.

(** Letting go of an item asks again for every item that waits for room,
    but not for one being fetched: a fetch that found no room before the room
    was made, and says so after, waits as if none had been made. *)
Theorem room_made_meanwhile_is_missed w w' s i j task availability_changed
    (Horder : ∀ X, order X ≡ₚ elements X)
    (Hi : pins s !! i = Some (Fetching task false availability_changed))
    (Hne : i ≠ j) (Hsafe : may_let_go w j) (Hreleases : releases w j = true)
    (Hkeeps : keeps w' i = true) :
  let freed := release_if_safe order w j s in
  let after := fetched order w' i KeepNoRoom freed in
  let_go freed = let_go s ++ [j] ∧ pins freed !! j = None ∧
  (∀ k, pins freed !! k ≠ Some WaitingForRoom) ∧
  pins after !! i = Some WaitingForRoom.
Proof.
  intros freed after.
  assert (freed = ask_again_for_room order (drop_pin j (call_release j s))) as Hfreed.
  { unfold freed, release_if_safe. destruct Hsafe as [-> Hsafe]. rewrite Hreleases.
    destruct (holds w j); [|done]. destruct (Hsafe eq_refl) as [Hknown Henough].
    assert (enough_copies_elsewhere w j = true) as ->; [|done]. unfold enough_copies_elsewhere.
    rewrite bool_decide_false; [by apply bool_decide_true|].
    intros (m & Hm & Hme & Hunknown). by rewrite (Hknown m Hm Hme) in Hunknown. }
  assert (pins freed !! j = None) as Hj.
  { rewrite Hfreed. destruct (ask_again_pins (drop_pin j (call_release j s)) j) as [-> |[Hw _]];
      change (pins (drop_pin j (call_release j s))) with (delete j (pins s)) in *;
      rewrite lookup_delete_eq in *; done. }
  split_and!; [rewrite Hfreed; apply ask_again_lets_go|done|rewrite Hfreed; intros k; by apply ask_again_none|].
  assert (pins freed !! i = Some (Fetching task false availability_changed)) as Hi'.
  { destruct (release_other w j i s (not_eq_sym Hne)) as [He|[Hw _]]; [|congruence].
    fold freed in He. by rewrite He. }
  unfold after, fetched. rewrite Hi', Hkeeps. cbn. by rewrite lookup_insert_eq.
Qed.
End pins.

(** ** A concrete node *)

#[local] Instance sooner_dec : RelDecision sooner.
Proof. intros a b. unfold sooner. apply _. Defined.
#[local] Instance sooner_total : Total sooner.
Proof. intros a b. unfold sooner. lia. Qed.
#[local] Instance sooner_trans : Transitive sooner.
Proof. intros a b c. unfold sooner. lia. Qed.

Definition sorting (_ : nat) (l : list (nat * N * ItemId)) : list (nat * N * ItemId) := merge_sort sooner l.

Lemma sorting_selects : selects_soonest sorting.
Proof.
  intros n l _. split; [apply merge_sort_Permutation|]. intros x y Hx Hy.
  assert (StronglySorted sooner (take n (sorting n l) ++ drop n (sorting n l))) as Hs
    by (rewrite take_drop; apply (StronglySorted_merge_sort _)).
  apply StronglySorted_app in Hs as (Hs & _). by apply Hs.
Qed.

(** Three members online that all said what they hold; the first is this node,
    which holds and is custodian of what it is given. *)
Definition test_world (held mine : list ItemId) : World := {|
  world_me := member 1;
  world_online := {[member 1; member 2; member 3]};
  knows_holdings_of := λ _, true;
  real_holders := λ i, if bool_decide (i = an_item 1) then [member 2; member 3] else [member 2];
  holds := λ i, bool_decide (i ∈ held);
  world_replicas := 2;
  world_mine := Some (list_to_set mine);
  behind_the_group := false;
  releases := λ _, true;
|}.

Lemma fetches_are_pins_witness :
  let w := test_world [] [an_item 1; an_item 2; an_item 3] in
  let s := run elements sorting w 2 ∅ [((w, w), Joined 0 KeepNoRoom); ((w, w), ItemNotMine (an_item 1))] in
  (∀ i t, (∃ a b, pins s !! i = Some (Fetching t a b)) ↔ fetches s !! t = Some i) ∧
  size (fetches s) ≤ Pos.to_nat 2 ∧
  ∀ i j t, pins s !! i = Some (Queued t) → pins s !! j = Some (Queued t) → i = j.
Proof.
  exact (fetches_are_pins elements sorting (test_world [] [an_item 1; an_item 2; an_item 3]) 2 ∅
    [((test_world [] [an_item 1; an_item 2; an_item 3], test_world [] [an_item 1; an_item 2; an_item 3]),
      Joined 0 KeepNoRoom);
     ((test_world [] [an_item 1; an_item 2; an_item 3], test_world [] [an_item 1; an_item 2; an_item 3]),
      ItemNotMine (an_item 1))] (λ X, Permutation_refl _) sorting_selects).
Defined.

(** Two items queued, one being fetched, one kept that two others hold. *)
Definition test_pins : Pins :=
  MkPins {[an_item 1 := Kept; an_item 2 := Queued 1; an_item 3 := Queued 0; an_item 4 := Fetching 5 false false]}
    2 2 {[5%N := an_item 4]} 6 [].

Lemma test_pins_lookup i p :
  pins test_pins !! i = Some p →
  (i, p) ∈ [(an_item 1, Kept); (an_item 2, Queued 1); (an_item 3, Queued 0); (an_item 4, Fetching 5 false false)].
Proof.
  intros Hi. apply elem_of_map_to_list in Hi. revert Hi. generalize (i, p). clear. intros e.
  assert (Forall (λ e, e ∈ [(an_item 1, Kept); (an_item 2, Queued 1); (an_item 3, Queued 0);
    (an_item 4, Fetching 5 false false)]) (map_to_list (pins test_pins))) as Hall by by_decision.
  rewrite Forall_forall in Hall. apply Hall.
Qed.

Lemma test_pins_ok : pins_ok test_pins.
Proof.
  split; [split_and!|split].
  - intros i t. unfold task_at. split.
    + destruct (pins test_pins !! i) as [p|] eqn:E; [|done]. apply test_pins_lookup in E.
      repeat apply elem_of_cons in E as [[= -> ->]|E]; try done; [|by apply elem_of_nil in E].
      intros [= <-]. apply lookup_singleton_eq.
    + cbn [test_pins fetches]. intros [<- <-]%lookup_singleton_Some. by_decision.
  - intros t i. cbn [test_pins fetches]. intros [<- _]%lookup_singleton_Some. cbn. lia.
  - by_decision.
  - intros i t. unfold turn_at. destruct (pins test_pins !! i) as [p|] eqn:E; [|done].
    apply test_pins_lookup in E.
    repeat apply elem_of_cons in E as [[= -> ->]|E]; try done; [..|by apply elem_of_nil in E];
      intros [= <-]; cbn; lia.
  - intros i j t. unfold turn_at. destruct (pins test_pins !! i) as [p|] eqn:E; [|done].
    destruct (pins test_pins !! j) as [q|] eqn:F; [|done].
    apply test_pins_lookup in E. apply test_pins_lookup in F.
    repeat apply elem_of_cons in E as [[= -> ->]|E]; try done; [..|by apply elem_of_nil in E];
      repeat apply elem_of_cons in F as [[= -> ->]|F]; try done; try (by apply elem_of_nil in F);
      cbn; congruence.
Qed.

Lemma fewest_copies_go_first_witness :
  let w := test_world [] [an_item 1; an_item 2; an_item 3; an_item 4] in
  let s' := start_fetches elements sorting w test_pins in
  (size (fetches s') = Pos.to_nat (max_fetches test_pins) ∨ ∀ i t, pins s' !! i ≠ Some (Queued t)) ∧
  (∀ i, pins s' !! i = pins test_pins !! i ∨ is_queued test_pins i ∧ task_at s' i ≠ None) ∧
  ∀ i j t u, pins test_pins !! i = Some (Queued t) → task_at s' i ≠ None → pins s' !! j = Some (Queued u) →
    live_copies w i < live_copies w j ∨ live_copies w i = live_copies w j ∧ (t < u)%N.
Proof.
  exact (fewest_copies_go_first elements sorting
    (test_world [] [an_item 1; an_item 2; an_item 3; an_item 4]) test_pins
    (λ X, Permutation_refl _) sorting_selects test_pins_ok).
Defined.

(** A node told of three items, then no more of the first, which two others
    hold: it lets go of that. *)
Lemma lets_go_safely_witness :
  let w := test_world [an_item 1; an_item 2] [an_item 1; an_item 2; an_item 3] in
  let later := test_world [an_item 1; an_item 2] [an_item 2; an_item 3] in
  let s := run elements sorting w 2 {[an_item 1; an_item 2]} [(w, w, ItemMine (an_item 3))] in
  let_go (turn elements sorting w later Recomputed s) = [an_item 1] ∧
  ∀ i, i ∈ [an_item 1] →
    told_last elements sorting w 2 {[an_item 1; an_item 2]} ([(w, w, ItemMine (an_item 3))] ++ [(w, later, Recomputed)]) i = false ∧
    Pos.to_nat (world_replicas later) ≤ live_copies later i.
Proof.
  pose (w := test_world [an_item 1; an_item 2] [an_item 1; an_item 2; an_item 3]).
  pose (later := test_world [an_item 1; an_item 2] [an_item 2; an_item 3]).
  destruct (lets_go_safely elements sorting w 2 {[an_item 1; an_item 2]} [(w, w, ItemMine (an_item 3))] w later Recomputed
    (λ X, Permutation_refl _) sorting_selects) as (_ & new & Hnew & Hall).
  set (s := run elements sorting w 2 {[an_item 1; an_item 2]} _) in *.
  assert (let_go s = []) as Hs by (apply (bool_decide_unpack _); vm_compute; exact I).
  assert (let_go (turn elements sorting w later Recomputed s) = [an_item 1]) as Hgo by (apply (bool_decide_unpack _); vm_compute; exact I).
  rewrite Hgo, Hs in Hnew. cbn [app] in Hnew. subst new.
  split; [exact Hgo|]. intros i Hi. destruct (Hall i Hi) as (Htold & _ & Hcopies).
  split; [exact Htold|]. apply Hcopies. apply list_elem_of_singleton in Hi as ->. reflexivity.
Defined.

Lemma custody_is_followed_witness :
  let w := test_world [an_item 1] [an_item 2; an_item 5] in
  let s' := read_custody_again elements w test_pins in
  (∀ i, i ∈ (list_to_set [an_item 2; an_item 5] : gset ItemId) → looked_after w s' i) ∧
  (∀ i, i ∉ (list_to_set [an_item 2; an_item 5] : gset ItemId) → leaving s' i).
Proof.
  exact (custody_is_followed elements (test_world [an_item 1] [an_item 2; an_item 5]) test_pins
    (list_to_set [an_item 2; an_item 5]) (λ X, Permutation_refl _) eq_refl).
Defined.

Lemma room_made_meanwhile_is_missed_witness :
  let w := test_world [an_item 1] [an_item 4] in
  let freed := release_if_safe elements w (an_item 1) test_pins in
  let after := fetched elements w (an_item 4) KeepNoRoom freed in
  let_go freed = let_go test_pins ++ [an_item 1] ∧ pins freed !! an_item 1 = None ∧
  (∀ k, pins freed !! k ≠ Some WaitingForRoom) ∧
  pins after !! an_item 4 = Some WaitingForRoom.
Proof.
  refine (room_made_meanwhile_is_missed elements (test_world [an_item 1] [an_item 4])
    (test_world [an_item 1] [an_item 4]) test_pins (an_item 4) (an_item 1) 5 false _ _ _ _ _ _).
  - intros X. reflexivity.
  - by_decision.
  - by_decision.
  - split; [done|]. intros _. split; [done|]. by_decision.
  - reflexivity.
  - by_decision.
Defined.
