(* ===== verification/Emergency.v ===== *)
(** * The emergency copy: an item down to one live copy for too long

    [crates/distlib-custody/src/emergency.rs]. [AloneItems] is its state; an
    [Instant] and a [Duration] are nanoseconds, as in [Settling]. *)

From S2P Require Import Prelude Ids Settling Custody CustodyView Pins.

(** Where an item this node does not hold, down to one live copy, stands. *)
Inductive Alone : Type := Since (t : N) | Due | Copying.

#[export] Instance Alone_eq_dec : EqDecision Alone.
Proof. solve_decision. Defined.

Notation AloneItems := (gmap ItemId Alone).

(** [previous.remove(&item).unwrap_or(Alone::Since(now))], collected. *)
Definition keep_alone (now : N) (acc : AloneItems * AloneItems) (item : ItemId)
  : AloneItems * AloneItems :=
  (<[item := default (Since now) (acc.2 !! item)]> acc.1, delete item acc.2).

Definition come_due (now delay : N) (a : Alone) : Alone :=
  match a with
  | Since since => if bool_decide (since + delay ≤ now)%N then Due else a
  | _ => a
  end.

Definition update_alone (alone_now : list ItemId) (now delay : N) (m : AloneItems)
  : AloneItems * gset ItemId :=
  let '(alone, previous) := foldl (keep_alone now) (∅, m) alone_now in
  let alone := filter (λ e, e.2 = Copying) previous ∪ alone in
  let alone := come_due now delay <$> alone in
  (alone, dom (filter (λ e, e.2 = Due) alone)).

(** [Iterator::min]. *)
Definition min_of (l : list N) : option N :=
  match l with [] => None | x :: l => Some (foldl N.min x l) end.

Definition next_due (delay : N) (m : AloneItems) : option N :=
  min_of (omap (λ e, match e.2 with Since since => Some (since + delay)%N | _ => None end) (map_to_list m)).

Definition copying (item : ItemId) (m : AloneItems) : AloneItems := <[item := Copying]> m.
Definition copied (item : ItemId) (succeeded : bool) (m : AloneItems) : AloneItems :=
  if succeeded then delete item m else <[item := Due]> m.

(** [is_mine_to_copy], of an item in the store: this node is the first after
    its custodians, of those online and not its one holder. *)
Definition is_mine_to_copy `{Placement} (g : CustodyGroup) (me : MemberId) (item : CustodyItem)
    (holder : MemberId) (online : gset MemberId) : bool :=
  let first := first_after_custodians g item
    (λ member, bool_decide (member ≠ holder) && bool_decide (member = me ∨ member ∈ online)) in
  bool_decide (first = Some me).

(** ** A run of the task, to the items it keeps *)

Inductive AloneStep : Type :=
| Look (alone_now : list ItemId) (now : N)
| StartCopy (item : ItemId)
| EndCopy (item : ItemId) (succeeded : bool).

Definition alone_step (delay : N) (m : AloneItems) (s : AloneStep) : AloneItems :=
  match s with
  | Look alone_now now => (update_alone alone_now now delay m).1
  | StartCopy item => copying item m
  | EndCopy item succeeded => copied item succeeded m
  end.

Definition alone_run (delay : N) (steps : list AloneStep) (m : AloneItems) : AloneItems :=
  foldl (alone_step delay) m steps.

(** The looks of a run, and what was alone at each. *)
Definition looks (steps : list AloneStep) : list (gset ItemId * N) :=
  omap (λ s, match s with Look l now => Some (list_to_set l, now) | _ => None end) steps.

(** A step is not the start or end of a copy of [i]; each look names an item
    once, as the keys of a map do. *)
Definition apart (i : ItemId) (s : AloneStep) : Prop :=
  match s with
  | Look l _ => NoDup l
  | StartCopy j => j ≠ i
  | EndCopy j _ => j ≠ i
  end.

(** What a look makes of one item. *)
Definition look_at (alone : bool) (now delay : N) (a : option Alone) : option Alone :=
  match a with
  | Some Copying => Some Copying
  | _ => if alone then Some (come_due now delay (default (Since now) a)) else None
  end.

Lemma keep_alone_lookup now l m i :
  NoDup l →
  (foldl (keep_alone now) (∅, m) l).1 !! i =
    (if decide (i ∈ l) then Some (default (Since now) (m !! i)) else None) ∧
  (foldl (keep_alone now) (∅, m) l).2 !! i = (if decide (i ∈ l) then None else m !! i).
Proof.
  induction l as [|j l IH] using rev_ind; intros Hnd.
  - cbn. by destruct (decide (i ∈ [])) as [H%elem_of_nil|].
  - apply NoDup_app in Hnd as (Hl & Hj & _). destruct (IH Hl) as [IH1 IH2]. clear IH.
    rewrite foldl_snoc. generalize dependent (foldl (keep_alone now) (∅, m) l). intros acc IH1 IH2.
    unfold keep_alone. cbn [fst snd].
    destruct (decide (j = i)) as [->|Hne].
    + assert (i ∉ l) as Hn by (intros Hi; apply (Hj i Hi); by left).
      rewrite lookup_insert_eq, lookup_delete_eq.
      rewrite decide_False in IH2 by done. rewrite !decide_True by (apply elem_of_app; right; by left).
      by rewrite IH2.
    + rewrite lookup_insert_ne, lookup_delete_ne, IH1, IH2 by done.
      assert (i ∈ l ++ [j] ↔ i ∈ l) as Hiff.
      { rewrite elem_of_app, list_elem_of_singleton. split; [intros [|]; congruence|auto]. }
      destruct (decide (i ∈ l)); [rewrite !decide_True by tauto|rewrite !decide_False by tauto]; done.
Qed.

Lemma update_alone_lookup l now delay m i :
  NoDup l →
  (update_alone l now delay m).1 !! i = look_at (bool_decide (i ∈ l)) now delay (m !! i).
Proof.
  intros Hnd. unfold update_alone. destruct (keep_alone_lookup now l m i Hnd) as [H1 H2].
  destruct (foldl (keep_alone now) (∅, m) l) as [alone previous]. cbn [fst snd] in *.
  rewrite lookup_fmap, lookup_union, map_lookup_filter, H1, H2.
  destruct (decide (i ∈ l)) as [Hi|Hi].
  - rewrite bool_decide_true by done. unfold look_at. cbn. by destruct (m !! i) as [[]|].
  - rewrite bool_decide_false by done. unfold look_at.
    destruct (m !! i) as [[t| |]|]; cbn; try done; by rewrite ?option_guard_False, ?option_guard_True.
Qed.

Lemma elem_of_due l now delay m i :
  i ∈ (update_alone l now delay m).2 ↔ (update_alone l now delay m).1 !! i = Some Due.
Proof.
  unfold update_alone. destruct (foldl _ _ _) as [alone previous]. cbn.
  rewrite elem_of_dom. unfold is_Some. setoid_rewrite map_lookup_filter_Some. cbn. naive_solver.
Qed.

(** ** From the looks alone *)

(** What the looks, the newest first, say of [i]. *)
Definition stands (delay : N) (i : ItemId) (newest_first : list (gset ItemId * N)) : option Alone :=
  '(_, last) ← head newest_first;
  since ← run_start (λ alone, bool_decide (i ∈ alone)) newest_first;
  Some (come_due last delay (Since since)).

Lemma looks_snoc steps s :
  looks (steps ++ [s]) = looks steps ++ match s with Look l now => [(list_to_set l, now)] | _ => [] end.
Proof. unfold looks. rewrite omap_app. by destruct s. Qed.

Lemma run_stands delay i steps :
  Forall (apart i) steps → StronglySorted N.le (looks steps).*2 →
  alone_run delay steps ∅ !! i = stands delay i (rev (looks steps)).
Proof.
  induction steps as [|s steps IH] using rev_ind; intros Ha Ht; [done|].
  apply Forall_app in Ha as [Ha [Hs _]%Forall_cons_1].
  rewrite looks_snoc, fmap_app in Ht. apply StronglySorted_app in Ht as (Hle & Ht & _).
  specialize (IH Ha Ht). unfold alone_run in *. rewrite foldl_snoc, looks_snoc, rev_app_distr.
  generalize dependent (foldl (alone_step delay) ∅ steps). intros m IH.
  destruct s as [l now|j|j ok]; cbn [alone_step apart] in *.
  - rewrite update_alone_lookup, IH by done. cbn [rev app]. unfold stands at 2. cbn [head mbind option_bind].
    cbn [run_start]. rewrite (bool_decide_ext (i ∈ (list_to_set l : gset ItemId)) (i ∈ l))
      by apply elem_of_list_to_set.
    assert (∀ a last h, rev (looks steps) = (a, last) :: h → (last ≤ now)%N) as Hlast.
    { intros a last h Hh. apply Hle; [|by apply list_elem_of_singleton]. apply (list_elem_of_fmap_2 snd _ (a, last)).
      apply list_elem_of_In, in_rev. rewrite Hh. by left. }
    case_bool_decide as Hi; unfold stands; destruct (rev (looks steps)) as [|[a last] h] eqn:Eh; cbn; try done.
    + specialize (Hlast a last h eq_refl).
      case_bool_decide as Ha'; cbn; [|done].
      destruct (run_start _ h) as [t|]; cbn; repeat (case_bool_decide; cbn); done || lia.
    + case_bool_decide; cbn; [|done]. destruct (run_start _ h); cbn; by case_bool_decide.
  - rewrite app_nil_l, <-IH. unfold copying. by rewrite lookup_insert_ne.
  - rewrite app_nil_l, <-IH. unfold copied. destruct ok; [by rewrite lookup_delete_ne|by rewrite lookup_insert_ne].
Qed.

(** an item not being copied is due at a look exactly when it has been alone
    at every look for the delay: a look at which it is not starts the delay
    over. *)
Theorem due_once_alone_for_the_delay (delay : N) (i : ItemId) (steps : list AloneStep)
    (alone_now : list ItemId) (now : N)
    (Happart : Forall (apart i) (steps ++ [Look alone_now now]))
    (Htimes : StronglySorted N.le (looks (steps ++ [Look alone_now now])).*2) :
  i ∈ (update_alone alone_now now delay (alone_run delay steps ∅)).2 ↔
  ∃ since, run_start (λ alone, bool_decide (i ∈ alone)) (rev (looks (steps ++ [Look alone_now now])))
             = Some since ∧ (since + delay ≤ now)%N.
Proof.
  rewrite elem_of_due.
  assert ((update_alone alone_now now delay (alone_run delay steps ∅)).1 !! i =
    stands delay i (rev (looks (steps ++ [Look alone_now now])))) as ->.
  { rewrite <-run_stands by done. unfold alone_run. by rewrite foldl_snoc. }
  rewrite looks_snoc, rev_app_distr. cbn [rev app]. unfold stands. cbn [head mbind option_bind].
  destruct (run_start _ _) as [t|]; cbn; [|naive_solver].
  case_bool_decide; naive_solver.
Qed.

(** While an item is being copied it is due at no look, alone or not: so one
    whose copy panicked, which ends no copy, is never copied again, however
    often it comes to be alone. *)
Theorem never_due_while_copying (delay : N) (i : ItemId) (steps : list AloneStep) (m : AloneItems)
    (alone_now : list ItemId) (now : N)
    (Happart : Forall (apart i) (steps ++ [Look alone_now now])) :
  i ∉ (update_alone alone_now now delay (alone_run delay steps (copying i m))).2.
Proof.
  apply Forall_app in Happart as [Ha [Hl _]%Forall_cons_1].
  rewrite elem_of_due, update_alone_lookup by done.
  assert (alone_run delay steps (copying i m) !! i = Some Copying) as ->; [|done].
  induction steps as [|s steps IH] using rev_ind; [apply lookup_insert_eq|].
  apply Forall_app in Ha as [Ha [Hs _]%Forall_cons_1]. specialize (IH Ha).
  unfold alone_run in *. rewrite foldl_snoc.
  destruct s as [l t|j|j ok]; cbn [alone_step apart] in *.
  - by rewrite update_alone_lookup, IH.
  - unfold copying at 1. by rewrite lookup_insert_ne.
  - unfold copied. destruct ok; [by rewrite lookup_delete_ne|by rewrite lookup_insert_ne].
Qed.

(** ** Concrete runs *)

Definition some_item (n : N) : ItemId := MkItemId (id32 n).

Lemma due_once_alone_for_the_delay_witness :
  let steps := [Look [some_item 1] 0; Look [] 5; Look [some_item 2; some_item 1] 7;
                StartCopy (some_item 2)]%N in
  some_item 1 ∈ (update_alone [some_item 1] 17 10 (alone_run 10 steps ∅)).2 ↔
  ∃ since, run_start (λ alone, bool_decide (some_item 1 ∈ alone))
             (rev (looks (steps ++ [Look [some_item 1] 17%N]))) = Some since ∧ (since + 10 ≤ 17)%N.
Proof.
  refine (due_once_alone_for_the_delay 10 (some_item 1)
    [Look [some_item 1] 0; Look [] 5; Look [some_item 2; some_item 1] 7; StartCopy (some_item 2)]%N
    [some_item 1] 17 _ _).
  - repeat (constructor; [by_decision|]). constructor.
  - repeat constructor; by_decision.
Defined.

Lemma never_due_while_copying_witness :
  some_item 1 ∉ (update_alone [some_item 1] 99 10
    (alone_run 10 [Look [some_item 1] 0; Look [] 5]%N (copying (some_item 1) ∅))).2.
Proof.
  refine (never_due_while_copying 10 (some_item 1) [Look [some_item 1] 0; Look [] 5]%N ∅
    [some_item 1] 99 _).
  repeat (constructor; [by_decision|]). constructor.
Defined.
