(* ===== verification/Failures.v ===== *)
(** * Failed probes: what they are, how long they count, and whom they suspect

    [ProbeFailure] of [crates/distlib-core/src/community.rs] and
    [RecordedFailure] of [crates/distlib-sync/src/catalogue.rs];
    [crates/distlib-custody/src/failed_copies.rs] and [suspects.rs]. A
    [Duration] is nanoseconds and a [SystemTime] its distance from the epoch,
    before it too; [written] is microseconds. *)

From S2P Require Import Prelude Ids GroupSettings Events Membership.

Record ProbeFailure : Type := MkProbeFailure {
  failure_item : ItemId;
  failure_blob : ContentHash;
  failure_chunk : N;
  failure_in_a_row : N;
}.

#[export] Instance ProbeFailure_eq_dec : EqDecision ProbeFailure.
Proof. solve_decision. Defined.

Record RecordedFailure : Type := MkRecordedFailure {
  custodian : MemberId;
  prober : MemberId;
  failure : ProbeFailure;
  written : N;
}.

#[export] Instance RecordedFailure_eq_dec : EqDecision RecordedFailure.
Proof. solve_decision. Defined.

Definition NANOS : N := 1000000000.

(** The group's [failure_window_secs]. *)
Definition failure_window (m : MembershipState) : N := failure_window_secs (settings m) * NANOS.

(** [duration_since(UNIX_EPOCH).unwrap_or_default()], then what is left of the
    window, if anything is. *)
Definition left_in_window (r : RecordedFailure) (window : N) (now : Z) : option N :=
  let now := Z.to_N now in
  let age := (now - written r * 1000)%N in
  if bool_decide (age < window)%N then Some (window - age)%N else None.

(** The missing copies, and how long until the first is out of the window. *)
Definition failed_within (failures : list RecordedFailure) (window : N) (now : Z)
  : gset (MemberId * ItemId) * option N :=
  foldl (λ acc e, ({[e.1]} ∪ acc.1,
                   Some match acc.2 with Some next => N.min e.2 next | None => e.2 end))
    (∅, None)
    (omap (λ r, left ← left_in_window r window now;
                Some ((custodian r, failure_item (failure r)), left)) failures).

(** ** Suspects *)

Definition RED_FROM_PROBERS : nat := 2.

Record Suspect : Type := MkSuspect {
  suspect_member : MemberId;
  failures : list RecordedFailure;
}.

Definition is_red (s : Suspect) : bool := bool_decide (RED_FROM_PROBERS ≤ length (failures s)).

(** [sum] on [u32], as a release build adds. *)
Definition in_a_row (s : Suspect) : N :=
  foldl (λ n r, wrap32 (n + failure_in_a_row (failure r))) 0%N (failures s).

(** The failures that count. *)
Definition counts_for (is_member : MemberId → bool) (window : N) (now : Z) (r : RecordedFailure) : Prop :=
  is_member (custodian r) = true ∧ is_member (prober r) = true ∧ is_Some (left_in_window r window now).

#[export] Instance counts_for_dec is_member window now r : Decision (counts_for is_member window now r).
Proof. unfold counts_for. apply _. Defined.

(** [Reverse(written)]: the latest first. *)
Definition latest_first (a b : RecordedFailure) : Prop := (written b ≤ written a)%N.
#[export] Instance latest_first_dec : RelDecision latest_first.
Proof. intros a b. unfold latest_first. apply _. Defined.

(** [Reverse((failures.len(), in_a_row()))]. *)
Definition most_suspect_first (a b : Suspect) : Prop :=
  length (failures b) < length (failures a) ∨
  length (failures a) = length (failures b) ∧ (in_a_row b ≤ in_a_row a)%N.
#[export] Instance most_suspect_first_dec : RelDecision most_suspect_first.
Proof. intros a b. unfold most_suspect_first. apply _. Defined.

(** A member's [Vec] of [by_member]. *)
Definition push_failure (by_member : gmap MemberId (list RecordedFailure)) (r : RecordedFailure)
  : gmap MemberId (list RecordedFailure) :=
  <[custodian r := default [] (by_member !! custodian r) ++ [r]]> by_member.

Definition suspects_among (failures : list RecordedFailure) (is_member : MemberId → bool)
    (window : N) (now : Z) : list Suspect :=
  let by_member := foldl push_failure ∅ (filter (counts_for is_member window now) failures) in
  let suspects := (λ e, MkSuspect e.1 (merge_sort latest_first e.2)) <$> map_entries by_member in
  merge_sort most_suspect_first suspects.

Definition suspects (failures : list RecordedFailure) (m : MembershipState) (now : Z) : list Suspect :=
  suspects_among failures (is_member m) (failure_window m) now.

(** ** Lemmas *)

#[export] Instance latest_first_total : Total latest_first.
Proof. intros a b. unfold latest_first. lia. Qed.
#[export] Instance latest_first_trans : Transitive latest_first.
Proof. intros a b c. unfold latest_first. lia. Qed.
#[export] Instance most_suspect_first_total : Total most_suspect_first.
Proof. intros a b. unfold most_suspect_first. lia. Qed.
#[export] Instance most_suspect_first_trans : Transitive most_suspect_first.
Proof. intros a b c. unfold most_suspect_first. lia. Qed.

Lemma left_in_window_spec r window now left :
  left_in_window r window now = Some left ↔
  (Z.to_N now < written r * 1000 + window)%N ∧ (0 < window)%N ∧
  left = (window - (Z.to_N now - written r * 1000))%N.
Proof.
  unfold left_in_window. cbv zeta. case_bool_decide as Hd; split.
  - intros [= <-]. lia.
  - intros (_ & _ & ->). done.
  - done.
  - intros (H1 & H2 & _). lia.
Qed.

Lemma by_member_lookup l m :
  foldl push_failure ∅ l !! m =
  match filter (λ r, custodian r = m) l with [] => None | rs => Some rs end.
Proof.
  induction l as [|r l IH] using rev_ind; [done|].
  rewrite foldl_snoc, filter_app. generalize dependent (foldl push_failure ∅ l). intros acc IH.
  unfold push_failure. rewrite filter_cons, filter_nil. destruct (decide (custodian r = m)) as [->|Hne].
  - rewrite lookup_insert_eq, IH. by destruct (filter _ l).
  - by rewrite lookup_insert_ne, app_nil_r, IH.
Qed.

Lemma elem_of_suspects l is_member window now s :
  s ∈ suspects_among l is_member window now ↔
  let rs := filter (λ r, custodian r = suspect_member s) (filter (counts_for is_member window now) l) in
  rs ≠ [] ∧ failures s = merge_sort latest_first rs.
Proof.
  unfold suspects_among. cbv zeta. rewrite merge_sort_Permutation, list_elem_of_fmap. split.
  - intros ([m rs] & -> & Hm%elem_of_map_entries). cbn. rewrite by_member_lookup in Hm.
    destruct (filter (λ r, custodian r = m) _); [done|]. injection Hm as <-. done.
  - intros [Hne Hs].
    exists (suspect_member s, filter (λ r, custodian r = suspect_member s)
      (filter (counts_for is_member window now) l)).
    split; [destruct s; cbn in *; by rewrite Hs|]. apply elem_of_map_entries. rewrite by_member_lookup.
    by destruct (filter (λ r, custodian r = suspect_member s) _).
Qed.

Lemma suspects_sorted l is_member window now :
  StronglySorted most_suspect_first (suspects_among l is_member window now).
Proof. apply (StronglySorted_merge_sort _). Qed.

Lemma suspects_distinct l is_member window now :
  NoDup (suspect_member <$> suspects_among l is_member window now).
Proof.
  unfold suspects_among. cbv zeta. rewrite merge_sort_Permutation, <-list_fmap_compose.
  unfold compose. cbn. apply NoDup_map_keys.
Qed.

(** Two failures of one member are of two probers, where no prober has two. *)
Lemma two_probers (l : list RecordedFailure) m :
  NoDup ((λ r, (custodian r, prober r)) <$> l) →
  2 ≤ length (filter (λ r, custodian r = m) l) ↔
  ∃ a b, a ∈ l ∧ b ∈ l ∧ custodian a = m ∧ custodian b = m ∧ prober a ≠ prober b.
Proof.
  intros Hnd. set (k := filter (λ r, custodian r = m) l).
  assert (NoDup (prober <$> k)) as Hk.
  { apply (NoDup_fmap_1 (λ p, (m, p))).
    assert ((λ p, (m, p)) <$> (prober <$> k) = (λ r, (custodian r, prober r)) <$> k) as ->.
    { rewrite <-list_fmap_compose. apply list_fmap_ext. intros i r Hr%list_elem_of_lookup_2.
      by apply list_elem_of_filter in Hr as [<- _]. }
    eapply sublist_NoDup; [exact Hnd|]. apply fmap_sublist, sublist_filter. }
  assert (∀ r, r ∈ k ↔ custodian r = m ∧ r ∈ l) as Hin by (intros r; unfold k; by rewrite list_elem_of_filter).
  split.
  - intros Hlen. destruct k as [|a [|b k]]; [cbn in Hlen; lia..|].
    exists a, b. destruct (proj1 (Hin a)) as [Ha Hal]; [by left|].
    destruct (proj1 (Hin b)) as [Hb Hbl]; [by right; left|]. split_and!; [done..|].
    rewrite !fmap_cons in Hk. apply NoDup_cons in Hk as [Hk _]. intros Heq. apply Hk. rewrite Heq. by left.
  - intros (a & b & Ha & Hb & Hma & Hmb & Hne).
    assert (a ∈ k) as Hka by by apply Hin. assert (b ∈ k) as Hkb by by apply Hin.
    destruct k as [|x [|y k]]; [by apply elem_of_nil in Hka| |cbn; lia].
    apply list_elem_of_singleton in Hka as ->. apply list_elem_of_singleton in Hkb as ->. done.
Qed.
