(* ===== verification/Probes.v ===== *)
(** * Probes: whom a node asks for a chunk, and what it records of the answer

    [crates/distlib-custody/src/probes.rs]. A random number is an argument; a
    call of the catalogue is whether it succeeds. [Catalog] is this member's
    own entries there, which only it writes. *)

From S2P Require Import Prelude Ids GroupSettings Events Membership Fixtures KeepingFixtures Failures.

Inductive Probed : Type := Passed | FailedProbe | Unreachable.

Record Target : Type := MkTarget {
  target_custodian : MemberId;
  target_item : ItemId;
  target_blob : ContentHash;
  target_chunk : N;
}.

#[export] Instance Target_eq_dec : EqDecision Target.
Proof. solve_decision. Defined.

(** [Target::recorded]. *)
Definition recorded_target (c : MemberId) (f : ProbeFailure) : Target :=
  MkTarget c (failure_item f) (failure_blob f) (failure_chunk f).

Inductive ProbeSuspect : Type := RecordedSuspect (t : Target) | LowCoverage (m : MemberId).

Definition SUSPECT_ONE_IN : N := 4.

(** [below(bound)] of a random [u64]. *)
Definition below (random bound : N) : N := random `mod` bound.

Definition pick {A} (random : N) (choices : list A) : option A :=
  match choices with
  | [] => None
  | _ => choices !! N.to_nat (below random (N.of_nat (length choices)))
  end.

Inductive Refusal : Type := ProbesOff | BelowMinimum.

(** [refusal]. *)
Definition refusal (m : MembershipState) (me : MemberId) : option Refusal :=
  if negb (probes (settings m)) then Some ProbesOff
  else if negb (pledges_the_minimum m me) then Some BelowMinimum
  else None.

(** [others_failures]. *)
Definition others_failures (l : list RecordedFailure) (me : MemberId) (window : N) (now : Z)
  : list Target :=
  (λ r, recorded_target (custodian r) (failure r)) <$>
    filter (λ r, prober r ≠ me ∧ custodian r ≠ me ∧ is_Some (left_in_window r window now)) l.

(** [suspect]: of the own failures, else of others', else of low coverage. *)
Definition suspect (random : N) (own others : list Target) (low : list MemberId)
    (announces : Target → bool) : option ProbeSuspect :=
  match pick random (filter (λ t, announces t = true) own) with
  | Some t => Some (RecordedSuspect t)
  | None =>
      match pick random (filter (λ t, announces t = true) others) with
      | Some t => Some (RecordedSuspect t)
      | None => LowCoverage <$> pick random low
      end
  end.

(** [max_by_key(written)] of the member's failures that count: the last of the
    latest. *)
Definition latest_of (l : list RecordedFailure) : option RecordedFailure :=
  foldl (λ best r, match best with
                   | Some b => if bool_decide (written b ≤ written r)%N then Some r else Some b
                   | None => Some r
                   end) None l.

(** [latest_evidence]. *)
Definition latest_evidence (l : list RecordedFailure) (m : MemberId) (window : N) (now : Z)
    (announces : Target → bool) : option Target :=
  r ← latest_of (filter (λ r, custodian r = m ∧ is_Some (left_in_window r window now)) l);
  let t := recorded_target m (failure r) in
  if announces t then Some t else None.

Definition may_probe (c me : MemberId) (announcers : list MemberId) (only : option MemberId) : bool :=
  bool_decide (c ≠ me) && bool_decide (c ∈ announcers) &&
  match only with Some m => bool_decide (m = c) | None => true end.

(** ** Recording *)

Notation Catalog := (gmap MemberId ProbeFailure).

(** [my_failures], which a probe loads the first time. *)
Definition my_failures (l : list RecordedFailure) (me : MemberId) : Catalog :=
  collect_map ((λ r, (custodian r, failure r)) <$> filter (λ r, prober r = me) l).

(** What this node remembers and what its entries say. *)
Record ProbeLog : Type := MkProbeLog { mine : Catalog; entries : Catalog }.

(** [record]; [ok] is whether the catalogue's call succeeds. The error is the
    catalogue's. *)
Definition record (t : Target) (probed : Probed) (ok : bool) (s : ProbeLog) : ProbeLog * bool :=
  let c := target_custodian t in
  match probed with
  | Passed =>
      match mine s !! c with
      | Some _ =>
          let s := MkProbeLog (delete c (mine s)) (entries s) in
          if ok then (MkProbeLog (mine s) (delete c (entries s)), true) else (s, false)
      | None => (s, true)
      end
  | FailedProbe =>
      let in_a_row :=
        match mine s !! c with Some before => wrap32 (failure_in_a_row before + 1) | None => 1%N end in
      let f := MkProbeFailure (target_item t) (target_blob t) (target_chunk t) in_a_row in
      if ok then (MkProbeLog (<[c := f]> (mine s)) (<[c := f]> (entries s)), true) else (s, false)
  | Unreachable => (s, true)
  end.

Record ProbeCounts : Type := MkProbeCounts {
  passed : N;
  failed : N;
  skipped : N;
}.

(** How a probe is counted, in [make]. *)
Definition count_probe (probed : Probed) (c : ProbeCounts) : ProbeCounts :=
  match probed with
  | Passed => MkProbeCounts (passed c + 1) (failed c) (skipped c)
  | FailedProbe => MkProbeCounts (passed c) (failed c + 1) (skipped c)
  | Unreachable => MkProbeCounts (passed c) (failed c) (skipped c + 1)
  end.

(** The probes of a run, each with how it came out and whether it could be
    recorded. *)
Definition probe_run (l : list (Target * Probed * bool)) (s : ProbeLog) : ProbeLog :=
  foldl (λ s p, (record p.1.1 p.1.2 p.2 s).1) s l.

(** ** The properties of probes and of what their failures say *)

(** ** Suspects *)

(** a member is red exactly when two different members each recorded a
    failure of it that counts, and the suspects are listed once each, those
    failed by the most probers first. *)
Theorem red_by_two_probers (l : list RecordedFailure) (is_member : MemberId → bool)
    (window : N) (now : Z) (m : MemberId)
    (Hone : NoDup ((λ r, (custodian r, prober r)) <$> l)) :
  let found := suspects_among l is_member window now in
  StronglySorted most_suspect_first found ∧ NoDup (suspect_member <$> found) ∧
  ((∃ s, s ∈ found ∧ suspect_member s = m ∧ is_red s = true) ↔
   ∃ a b, a ∈ l ∧ b ∈ l ∧ custodian a = m ∧ custodian b = m ∧ prober a ≠ prober b ∧
     counts_for is_member window now a ∧ counts_for is_member window now b).
Proof.
  intros found. split; [apply suspects_sorted|]. split; [apply suspects_distinct|].
  assert (NoDup ((λ r, (custodian r, prober r)) <$> filter (counts_for is_member window now) l)) as Hnd
    by (eapply sublist_NoDup; [exact Hone|]; apply fmap_sublist, sublist_filter).
  pose proof (two_probers _ m Hnd) as Htwo.
  split.
  - intros (s & Hs & <- & Hred). apply elem_of_suspects in Hs as [_ Hf].
    unfold is_red in Hred. apply bool_decide_eq_true in Hred.
    rewrite Hf, merge_sort_Permutation in Hred. apply Htwo in Hred as (a & b & Ha & Hb & Hrest).
    apply list_elem_of_filter in Ha as [Hca Ha]. apply list_elem_of_filter in Hb as [Hcb Hb].
    exists a, b. naive_solver.
  - intros (a & b & Ha & Hb & Hma & Hmb & Hne & Hca & Hcb).
    set (rs := filter (λ r, custodian r = m) (filter (counts_for is_member window now) l)) in *.
    assert (2 ≤ length rs) as Hlen by (apply Htwo; exists a, b; rewrite !list_elem_of_filter; split_and!; done).
    exists (MkSuspect m (merge_sort latest_first rs)). split_and!; [|done|].
    + apply elem_of_suspects. split; [|done]. intros Hnil. change (rs = []) in Hnil. rewrite Hnil in Hlen. cbn in Hlen. lia.
    + apply bool_decide_eq_true. cbn. by rewrite merge_sort_Permutation.
Qed.

(** ** What is recorded *)

(** The failures of [c] since it last passed, after one more probe. *)
Definition after_probe (c : MemberId) (acc : option ProbeFailure) (p : Target * Probed * bool)
  : option ProbeFailure :=
  let '(t, probed, _) := p in
  if decide (target_custodian t = c) then
    match probed with
    | Passed => None
    | FailedProbe => Some (MkProbeFailure (target_item t) (target_blob t) (target_chunk t)
        (match acc with Some f => wrap32 (failure_in_a_row f + 1) | None => 1%N end))
    | Unreachable => acc
    end
  else acc.

(** The latest failure of [c] and how many there have been since it last
    passed, from [was]. *)
Definition since_passed (c : MemberId) (was : option ProbeFailure) (l : list (Target * Probed * bool))
  : option ProbeFailure := foldl (after_probe c) was l.

(** while every call of the catalogue succeeds, this member's entries say of
    each custodian its latest failure and how many it had in a row since it
    last passed, and nothing once it has passed; and what the node remembers
    is what they say. *)
Theorem entries_are_failures_in_a_row (l : list (Target * Probed * bool)) (read : Catalog)
    (Hok : Forall (λ p, p.2 = true) l) :
  let s := probe_run l (MkProbeLog read read) in
  mine s = entries s ∧ ∀ c, entries s !! c = since_passed c (read !! c) l.
Proof.
  induction l as [|[[t probed] ok] l IH] using rev_ind; [done|].
  apply Forall_app in Hok as [Hl [Hlast _]%Forall_cons_1]. destruct (IH Hl) as [Hsame Hspec]. clear IH.
  cbn in Hlast. subst ok. unfold probe_run in *. rewrite foldl_snoc.
  generalize dependent (foldl (λ s p, (record p.1.1 p.1.2 p.2 s).1) (MkProbeLog read read) l).
  intros [m e] Hsame Hspec. cbn in Hsame, Hspec. subst m.
  assert (∀ s : ProbeLog, mine s = entries s →
    (∀ c, entries s !! c = after_probe c (e !! c) (t, probed, true)) →
    mine s = entries s ∧ ∀ c, entries s !! c = since_passed c (read !! c) (l ++ [(t, probed, true)])) as Hgoal.
  { intros s Hs He. split; [done|]. intros c. unfold since_passed. rewrite foldl_snoc.
    fold (since_passed c (read !! c) l). by rewrite <-Hspec. }
  cbn [fst snd]. apply Hgoal; unfold record; cbn [mine entries]; clear;
    destruct probed; cbn; try done.
  - by destruct (e !! target_custodian t).
  - intros c. destruct (e !! target_custodian t) as [f|] eqn:E; cbn; case_decide as Hc; try done.
    + subst. apply lookup_delete_eq.
    + by apply lookup_delete_ne.
    + by subst.
  - intros c. case_decide as Hc; [subst; apply lookup_insert_eq|by apply lookup_insert_ne].
  - intros c. by case_decide.
Qed.

(** A pass whose clearing could not be written is forgotten: the failure
    stays recorded, and no later pass of that custodian clears it, however
    many there are, until it fails again or the node starts again. *)
Theorem failed_clear_is_forgotten (t : Target) (f : ProbeFailure) (s : ProbeLog)
    (l : list (Target * Probed * bool))
    (Hmine : mine s !! target_custodian t = Some f)
    (Hentry : entries s !! target_custodian t = Some f)
    (Hpasses : Forall (λ p, target_custodian p.1.1 = target_custodian t → p.1.2 ≠ FailedProbe) l) :
  (record t Passed false s).2 = false ∧
  entries (probe_run l (record t Passed false s).1) !! target_custodian t = Some f.
Proof.
  unfold record. rewrite Hmine. cbn. split; [done|]. clear Hmine.
  assert (∀ s, mine s !! target_custodian t = None → entries s !! target_custodian t = Some f →
    entries (probe_run l s) !! target_custodian t = Some f) as Hrun.
  { clear s Hentry. induction l as [|[[t' probed] ok] l IH]; intros s Hm He; [done|].
    apply Forall_cons_1 in Hpasses as [Hp Hpasses]. cbn in Hp.
    change (entries (probe_run l (record t' probed ok s).1) !! target_custodian t = Some f).
    destruct (decide (target_custodian t' = target_custodian t)) as [Heq|Hne].
    - specialize (Hp Heq). apply IH; [done|..]; unfold record; rewrite Heq, Hm; by destruct probed.
    - apply IH; [done|..]; unfold record; destruct probed, (mine s !! target_custodian t'), ok; cbn;
        rewrite ?lookup_delete_ne, ?lookup_insert_ne by done; done. }
  apply Hrun; [|done]. apply lookup_delete_eq.
Qed.

(** ** Concrete probes *)

Definition a_failure (c p n : N) : RecordedFailure :=
  MkRecordedFailure (member c) (member p) (MkProbeFailure (an_item 1) (a_blob 2) 0 n) 5000000.

Lemma red_by_two_probers_witness :
  let l := [a_failure 1 2 1; a_failure 1 3 1; a_failure 2 3 5] in
  let found := suspects_among l (λ _, true) (100 * NANOS) (10 * Z.of_N NANOS) in
  StronglySorted most_suspect_first found ∧ NoDup (suspect_member <$> found) ∧
  ((∃ s, s ∈ found ∧ suspect_member s = member 1 ∧ is_red s = true) ↔
   ∃ a b, a ∈ l ∧ b ∈ l ∧ custodian a = member 1 ∧ custodian b = member 1 ∧ prober a ≠ prober b ∧
     counts_for (λ _, true) (100 * NANOS) (10 * Z.of_N NANOS) a ∧
     counts_for (λ _, true) (100 * NANOS) (10 * Z.of_N NANOS) b).
Proof.
  refine (red_by_two_probers [a_failure 1 2 1; a_failure 1 3 1; a_failure 2 3 5] (λ _, true)
    (100 * NANOS) (10 * Z.of_N NANOS) (member 1) _).
  by_decision.
Defined.

Definition a_target (c : N) : Target := MkTarget (member c) (an_item 1) (a_blob 2) 7.

Lemma entries_are_failures_in_a_row_witness :
  let l := [((a_target 1, FailedProbe), true); ((a_target 1, FailedProbe), true);
            ((a_target 2, Passed), true); ((a_target 1, Unreachable), true)] in
  let s := probe_run l (MkProbeLog ∅ ∅) in
  mine s = entries s ∧ ∀ c, entries s !! c = since_passed c ((∅ : Catalog) !! c) l.
Proof.
  refine (entries_are_failures_in_a_row [((a_target 1, FailedProbe), true);
    ((a_target 1, FailedProbe), true); ((a_target 2, Passed), true); ((a_target 1, Unreachable), true)] ∅ _).
  repeat constructor.
Defined.

Lemma failed_clear_is_forgotten_witness :
  let f := MkProbeFailure (an_item 1) (a_blob 2) 7 2 in
  let s := MkProbeLog {[member 1 := f]} {[member 1 := f]} in
  (record (a_target 1) Passed false s).2 = false ∧
  entries (probe_run [((a_target 1, Passed), true); ((a_target 1, Passed), true)]
    (record (a_target 1) Passed false s).1) !! target_custodian (a_target 1) = Some f.
Proof.
  refine (failed_clear_is_forgotten (a_target 1) (MkProbeFailure (an_item 1) (a_blob 2) 7 2)
    (MkProbeLog {[member 1 := MkProbeFailure (an_item 1) (a_blob 2) 7 2]}
      {[member 1 := MkProbeFailure (an_item 1) (a_blob 2) 7 2]})
    [((a_target 1, Passed), true); ((a_target 1, Passed), true)] _ _ _).
  - apply lookup_singleton_eq.
  - apply lookup_singleton_eq.
  - repeat constructor; done.
Defined.
