(* ===== verification/Holders.v ===== *)
(** * Who holds what, by the heartbeats heard

    [crates/distlib-sync/src/availability/holders.rs]: one inverted map from
    an item to the members holding it, and where the node is with each
    member's statements. [Holdings] is what a heartbeat states,
    [crates/distlib-core/src/availability.rs]. A count of elements in memory
    does not reach [2^64], so [held + came] is not bounded; [- went] can
    panic, and a [None] says it did. *)

From S2P Require Import Prelude Ids.

(** [Holdings] of a heartbeat: the member's last published list, and the
    change since. *)
Record Holdings : Type := MkHoldings {
  stated_count : N;
  stated_base : option ContentHash;
  stated_added : list ItemId;
  stated_removed : list ItemId;
}.

#[export] Instance Holdings_eq_dec : EqDecision Holdings.
Proof. solve_decision. Defined.

(** ** The map *)

Notation Index := (gmap ItemId (list MemberId)).

(** [Index::holders]. *)
Definition index_holders (ix : Index) (item : ItemId) : list MemberId := default [] (ix !! item).

(** [Index::add]. *)
Definition index_add (m : MemberId) (item : ItemId) (ix : Index) : Index * bool :=
  let members := index_holders ix item in
  let new := bool_decide (m ∉ members) in
  (<[item := if new then members ++ [m] else members]> ix, new).

(** [Vec::swap_remove]: the last element takes the place of the one removed. *)
Definition swap_remove {A} (i : nat) (l : list A) : list A :=
  match last l with
  | Some x => take (pred (length l)) (<[i := x]> l)
  | None => l
  end.

Definition position (m : MemberId) (l : list MemberId) : option nat := fst <$> list_find (m =.) l.

(** [Index::remove]. *)
Definition index_remove (m : MemberId) (item : ItemId) (ix : Index) : Index * bool :=
  match ix !! item with
  | None => (ix, false)
  | Some members =>
      match position m members with
      | None => (ix, false)
      | Some at_ =>
          match swap_remove at_ members with
          | [] => (delete item ix, true)
          | members => (<[item := members]> ix, true)
          end
      end
  end.

(** One pass of [op] over [items], and for how many it answered [true]. *)
Definition tally (op : ItemId → Index → Index * bool) (items : list ItemId) (ix : Index) : Index * N :=
  foldl (λ '(ix, n) item, let '(ix, yes) := op item ix in (ix, if yes then n + 1 else n)%N)
    (ix, 0%N) items.

(** [Index::shift]: [None] where [held + came - went] panics. *)
Definition index_shift (m : MemberId) (held : N) (coming going : list ItemId) (ix : Index)
  : option (Index * N) :=
  let '(ix, came) := tally (index_add m) coming ix in
  let '(ix, went) := tally (index_remove m) going ix in
  held ← sub64 (held + came) went;
  Some (ix, held).

(** [Index::retain]. *)
Definition index_retain (keep : MemberId → bool) (ix : Index) : Index :=
  omap (λ members, match filter keep members with [] => None | members => Some members end) ix.

(** [Index::clear]. *)
Definition index_clear (m : MemberId) : Index → Index := index_retain (λ held, bool_decide (held ≠ m)).

(** ** The members *)

(** [Stated]: where this node is with one member's holdings. *)
Inductive Stated : Type :=
| Unknown (base : ContentHash) (latest : Holdings) (fetching : bool)
| Known (base : option ContentHash) (added removed : list ItemId) (held : N)
| Broken (base : option ContentHash).

Record Holders : Type := MkHolders {
  index : Index;
  stated : gmap MemberId Stated;
  failed_copies : gset (MemberId * ItemId);
}.

Definition default_holders : Holders := MkHolders ∅ ∅ ∅.

(** [Heard]. *)
Record HeardHoldings : Type := MkHeardHoldings { fetch : option ContentHash; changed : bool }.

Definition is_known (h : Holders) (m : MemberId) : bool :=
  match stated h !! m with Some (Known _ _ _ _) => true | _ => false end.

(** [Holders::restate]. *)
Definition restate (m : MemberId) (holdings : Holdings) (h : Holders) : option Holders :=
  match stated h !! m with
  | Some (Known base added removed held) =>
      '(ix, undone) ← index_shift m held removed added (index h);
      '(ix, held) ← index_shift m undone (stated_added holdings) (stated_removed holdings) ix;
      if bool_decide (held = stated_count holdings) then
        Some (MkHolders ix
          (<[m := Known base (stated_added holdings) (stated_removed holdings) held]> (stated h))
          (failed_copies h))
      else
        Some (MkHolders (index_clear m ix) (<[m := Broken base]> (stated h)) (failed_copies h))
  | _ => Some h
  end.

(** [Holders::known]. *)
Definition known (m : MemberId) (base : option ContentHash) (held : N) (holdings : Holdings)
    (h : Holders) : option Holders :=
  restate m holdings
    (MkHolders (index h) (<[m := Known base [] [] held]> (stated h)) (failed_copies h)).

(** The last arm of [heard]: a member heard from for the first time, or with
    a new base. *)
Definition heard_anew (m : MemberId) (holdings : Holdings) (h : Holders)
  : option (Holders * HeardHoldings) :=
  let ix := index_clear m (index h) in
  match stated_base holdings with
  | Some base =>
      Some (MkHolders ix (<[m := Unknown base holdings true]> (stated h)) (failed_copies h),
            MkHeardHoldings (Some base) true)
  | None =>
      h ← known m None 0 holdings (MkHolders ix (stated h) (failed_copies h));
      Some (h, MkHeardHoldings None true)
  end.

(** [Holders::heard]. *)
Definition heard (m : MemberId) (holdings : Holdings) (h : Holders)
  : option (Holders * HeardHoldings) :=
  match stated h !! m with
  | Some (Known base added removed _) =>
      if bool_decide (base = stated_base holdings) then
        let same := bool_decide (added = stated_added holdings ∧ removed = stated_removed holdings) in
        h ← restate m holdings h;
        Some (h, MkHeardHoldings None (negb same || negb (is_known h m)))
      else heard_anew m holdings h
  | Some (Unknown base _ fetching) =>
      if bool_decide (Some base = stated_base holdings) then
        Some (MkHolders (index h) (<[m := Unknown base holdings true]> (stated h)) (failed_copies h),
              MkHeardHoldings (if fetching then None else Some base) false)
      else heard_anew m holdings h
  | Some (Broken base) =>
      if bool_decide (base = stated_base holdings) then Some (h, MkHeardHoldings None false)
      else heard_anew m holdings h
  | None => heard_anew m holdings h
  end.

(** [Holders::arrived]. *)
Definition arrived (m : MemberId) (base : ContentHash) (items : list ItemId) (h : Holders)
  : option (Holders * bool) :=
  match stated h !! m with
  | Some (Unknown wanted latest _) =>
      if bool_decide (wanted = base) then
        let '(ix, held) := tally (index_add m) items (index h) in
        h ← known m (Some base) held latest (MkHolders ix (delete m (stated h)) (failed_copies h));
        Some (h, true)
      else Some (h, false)
  | _ => Some (h, false)
  end.

(** [Holders::failed]. *)
Definition failed (m : MemberId) (base : ContentHash) (retry : bool) (h : Holders) : Holders :=
  match stated h !! m with
  | Some (Unknown wanted latest fetching) =>
      if bool_decide (wanted = base) then
        MkHolders (index h)
          (<[m := if retry then Unknown wanted latest false else Broken (Some base)]> (stated h))
          (failed_copies h)
      else h
  | _ => h
  end.

(** [Holders::retain_members]. *)
Definition retain_holders (is_member : MemberId → bool) (h : Holders) : Holders :=
  MkHolders (index_retain is_member (index h)) (filter (λ '(m, _), is_member m) (stated h))
    (failed_copies h).

(** ** What is asked of it *)

Definition holders (h : Holders) (item : ItemId) : list MemberId := index_holders (index h) item.

Definition real_holders (h : Holders) (item : ItemId) : list MemberId :=
  filter (λ m, (m, item) ∉ failed_copies h) (holders h item).

(** [set_failed_copies], with the members whose failed copies changed. *)
Definition set_failed_copies (failed : gset (MemberId * ItemId)) (h : Holders) : Holders * gset MemberId :=
  (MkHolders (index h) (stated h) failed,
   set_map fst ((failed_copies h ∖ failed) ∪ (failed ∖ failed_copies h))).

(** The online members of an entry whose copy has not failed. *)
Definition online_holders (h : Holders) (online : gset MemberId) (item : ItemId)
    (members : list MemberId) : list MemberId :=
  filter (λ m, m ∈ online ∧ (m, item) ∉ failed_copies h) members.

(** [sole_holders], the map iterated in the order of [map_to_list]. *)
Definition sole_holders (h : Holders) (online : gset MemberId) : list (ItemId * MemberId) :=
  omap (λ '(item, members), match online_holders h online item members with
                            | [holder] => Some (item, holder)
                            | _ => None
                            end) (map_to_list (index h)).

(** ** Lemmas on the map of holders

    What each operation of the map does to the items it has for one member,
    and that it does nothing for any other. *)

(** Every item the map has for [m]. *)
Definition items_in (ix : Index) (m : MemberId) : gset ItemId := dom (filter (λ '(_, members), m ∈ members) ix).

(** No empty vector, no repeated member. *)
Definition tidy (ix : Index) : Prop := map_Forall (λ _ members, members ≠ [] ∧ NoDup members) ix.

(** [ix'] has for [m] the items [s], and for everyone else what [ix] has. *)
Definition shifted (m : MemberId) (s : gset ItemId) (ix ix' : Index) : Prop :=
  tidy ix' ∧ items_in ix' m = s ∧ ∀ m', m' ≠ m → items_in ix' m' = items_in ix m'.

Lemma elem_of_items_in ix m i : i ∈ items_in ix m ↔ m ∈ index_holders ix i.
Proof.
  unfold items_in, index_holders. rewrite elem_of_dom. unfold is_Some.
  setoid_rewrite map_lookup_filter_Some.
  destruct (ix !! i) as [ms|]; simpl; [naive_solver | split; [naive_solver | by intros ?%elem_of_nil]].
Qed.

Lemma shifted_trans m s s' ix ix' ix'' :
  shifted m s ix ix' → shifted m s' ix' ix'' → shifted m s' ix ix''.
Proof.
  intros (_ & _ & Ho) (Ht & Hs & Ho'). split_and!; [done..|]. intros m' Hm. by rewrite Ho', Ho.
Qed.

Lemma shifted_refl m ix : tidy ix → shifted m (items_in ix m) ix ix.
Proof. done. Qed.

Lemma tidy_holders ix i : tidy ix → NoDup (index_holders ix i).
Proof.
  intros Ht. unfold index_holders. destruct (ix !! i) eqn:E; [by apply Ht in E as [? ?]|constructor].
Qed.

(** Replacing the holders of one item. *)
Lemma items_in_insert ix i ms m :
  items_in (<[i := ms]> ix) m = if decide (m ∈ ms) then {[i]} ∪ items_in ix m else items_in ix m ∖ {[i]}.
Proof.
  apply set_eq. intros j. rewrite elem_of_items_in. unfold index_holders.
  destruct (decide (i = j)) as [<-|Hne].
  - rewrite lookup_insert_eq. simpl. case_decide; set_solver.
  - rewrite lookup_insert_ne by done. fold (index_holders ix j). rewrite <-elem_of_items_in.
    case_decide; set_solver.
Qed.

Lemma items_in_delete ix i m : items_in (delete i ix) m = items_in ix m ∖ {[i]}.
Proof.
  apply set_eq. intros j. rewrite elem_of_items_in. unfold index_holders.
  rewrite lookup_delete. case_decide as Hd; simpl.
  - subst. set_solver.
  - fold (index_holders ix j). rewrite <-elem_of_items_in. set_solver.
Qed.

(** ** [add] *)

Lemma index_add_spec m i ix :
  tidy ix → shifted m ({[i]} ∪ items_in ix m) ix (index_add m i ix).1 ∧
  (index_add m i ix).2 = bool_decide (i ∉ items_in ix m).
Proof.
  intros Ht. unfold index_add. simpl.
  assert (bool_decide (m ∉ index_holders ix i) = bool_decide (i ∉ items_in ix m)) as Hb.
  { apply bool_decide_ext. by rewrite elem_of_items_in. }
  split; [|done]. clear Hb. pose proof (tidy_holders ix i Ht) as Hnd. split_and!.
  - apply map_Forall_insert_2; [|done]. case_bool_decide as Hm.
    + split; [by destruct (index_holders ix i)|]. apply NoDup_app. split_and!; [done | | apply NoDup_singleton].
      intros x Hx ->%list_elem_of_singleton. done.
    + split; [|done]. intros Hnil. rewrite Hnil in Hm. by apply not_elem_of_nil in Hm.
  - rewrite items_in_insert, decide_True; [done|]. case_bool_decide as Hm; [|by destruct (decide (m ∈ index_holders ix i))].
    apply elem_of_app. right. by apply list_elem_of_singleton.
  - intros m' Hm'. rewrite items_in_insert. case_decide as Hin; apply set_eq; intros j.
    + assert (i ∈ items_in ix m'); [|set_solver]. apply elem_of_items_in.
      case_bool_decide; [|done]. apply elem_of_app in Hin as [?|?%list_elem_of_singleton]; done.
    + assert (i ∉ items_in ix m'); [|set_solver]. rewrite elem_of_items_in. intros Hm. apply Hin.
      case_bool_decide; [apply elem_of_app; by left|done].
Qed.

(** ** [remove] *)

Lemma position_some m ms i : position m ms = Some i → ms !! i = Some m.
Proof.
  unfold position. intros ([j x] & Hf & Heq)%fmap_Some. simpl in Heq. subst j.
  apply list_find_Some in Hf as (Hl & -> & _). done.
Qed.

Lemma position_none m ms : position m ms = None → m ∉ ms.
Proof.
  unfold position. intros Hf%fmap_None Hin. apply list_find_None in Hf.
  rewrite Forall_forall in Hf. by apply (Hf m).
Qed.

Lemma swap_remove_perm {A} (l : list A) i x : l !! i = Some x → x :: swap_remove i l ≡ₚ l.
Proof.
  intros Hi. unfold swap_remove. destruct (last l) as [y|] eqn:E; [|apply last_None in E; by subst].
  apply last_Some in E as [l' ->]. rewrite length_app. simpl. rewrite Nat.add_1_r. simpl.
  apply lookup_app_Some in Hi as [Hi|[Hlen Hi]].
  - pose proof (lookup_lt_Some _ _ _ Hi). rewrite insert_app_l by done. rewrite take_app_length' by (by rewrite length_insert).
    rewrite insert_take_drop by done. 
    rewrite <-(take_drop_middle l' i x Hi) at 3. 
    solve_Permutation.
  - apply list_lookup_singleton_Some in Hi as [Hi ->].
   rewrite insert_app_r_alt by done. rewrite take_app_length. by rewrite Permutation_cons_append.
Qed.

Lemma index_remove_spec m i ix :
  tidy ix → shifted m (items_in ix m ∖ {[i]}) ix (index_remove m i ix).1 ∧
  (index_remove m i ix).2 = bool_decide (i ∈ items_in ix m).
Proof.
  intros Ht. unfold index_remove. pose proof (tidy_holders ix i Ht) as Hnd.
  pose proof (elem_of_items_in ix) as Hel. unfold index_holders in Hel, Hnd.
  destruct (ix !! i) as [ms|] eqn:E; simpl in Hnd.
  2: { assert (i ∉ items_in ix m) as Hni by (rewrite Hel, E; by intros ?%elem_of_nil).
       rewrite bool_decide_false by done. split; [|done].
       assert (items_in ix m ∖ {[i]} = items_in ix m) as -> by set_solver. by apply shifted_refl. }
  assert (∀ m', i ∈ items_in ix m' ↔ m' ∈ ms) as Hms by (intros m'; by rewrite Hel, E).
  destruct (position m ms) as [at_|] eqn:Ep.
  2: { apply position_none in Ep. rewrite bool_decide_false by (by rewrite Hms).
       split; [|done]. assert (i ∉ items_in ix m) by (by rewrite Hms).
       assert (items_in ix m ∖ {[i]} = items_in ix m) as -> by set_solver. by apply shifted_refl. }
  apply position_some, swap_remove_perm in Ep. set (rest := swap_remove at_ ms) in *.
  rewrite <-Ep in Hnd. apply NoDup_cons in Hnd as [Hm Hnd].
  assert (∀ m', m' ∈ ms ↔ m' = m ∨ m' ∈ rest) as Hin by (intros m'; by rewrite <-Ep, elem_of_cons).
  assert (i ∈ items_in ix m) by (apply Hms, Hin; by left).
  rewrite bool_decide_true by done. clearbody rest. destruct rest as [|r rs]; simpl.
  - split; [|done]. split_and!; [by apply map_Forall_delete | by rewrite items_in_delete |].
    intros m' Hne. rewrite items_in_delete. assert (i ∉ items_in ix m'); [|set_solver].
    rewrite Hms, Hin, elem_of_nil. naive_solver.
  - split; [|done]. split_and!.
    + by apply map_Forall_insert_2.
    + by rewrite items_in_insert, decide_False.
    + intros m' Hne. rewrite items_in_insert. specialize (Hms m'). specialize (Hin m').
      case_decide; set_solver.
Qed.

(** ** A pass over a list *)

Lemma size_union_elem (s : gset ItemId) i : i ∉ s → size ({[i]} ∪ s) = S (size s).
Proof. intros Hi. rewrite size_union by (by apply disjoint_singleton_l). by rewrite size_singleton. Qed.

Lemma tally_snoc op items i ix :
  tally op (items ++ [i]) ix =
  let '(ix, n) := tally op items ix in
  let '(ix, yes) := op i ix in (ix, if yes then n + 1 else n)%N.
Proof. unfold tally. rewrite foldl_snoc. by destruct (foldl _ _ items). Qed.

Lemma tally_add m items ix :
  tidy ix →
  shifted m (list_to_set items ∪ items_in ix m) ix (tally (index_add m) items ix).1 ∧
  ((tally (index_add m) items ix).2 + N.of_nat (size (items_in ix m))
   = N.of_nat (size (items_in (tally (index_add m) items ix).1 m)))%N.
Proof.
  intros Ht. induction items as [|i items IH] using rev_ind.
  { simpl. split; [|lia]. rewrite (left_id_L ∅ (∪)). by apply shifted_refl. }
  rewrite tally_snoc. destruct (tally (index_add m) items ix) as [ix' n]. simpl in IH.
  destruct IH as [Hsh Hn]. pose proof (index_add_spec m i ix' (proj1 Hsh)) as [Hsh' Hb].
  destruct (index_add m i ix') as [ix'' yes]. simpl in *.
  pose proof (shifted_trans _ _ _ _ _ _ Hsh Hsh') as Hgo.
  destruct Hsh as (_ & Hs & _), Hsh' as (_ & Hs' & _). split.
  - assert (list_to_set (items ++ [i]) ∪ items_in ix m = {[i]} ∪ items_in ix' m) as ->; [|done].
    rewrite Hs. set_solver.
  - rewrite Hs'. subst yes. case_bool_decide.
    + rewrite size_union_elem by done. lia.
    + assert ({[i]} ∪ items_in ix' m = items_in ix' m) as -> by set_solver. done.
Qed.

Lemma tally_remove m items ix :
  tidy ix →
  shifted m (items_in ix m ∖ list_to_set items) ix (tally (index_remove m) items ix).1 ∧
  ((tally (index_remove m) items ix).2 + N.of_nat (size (items_in (tally (index_remove m) items ix).1 m))
   = N.of_nat (size (items_in ix m)))%N.
Proof.
  intros Ht. induction items as [|i items IH] using rev_ind.
  { simpl. split; [|lia]. rewrite difference_empty_L. by apply shifted_refl. }
  rewrite tally_snoc. destruct (tally (index_remove m) items ix) as [ix' n]. simpl in IH.
  destruct IH as [Hsh Hn]. pose proof (index_remove_spec m i ix' (proj1 Hsh)) as [Hsh' Hb].
  destruct (index_remove m i ix') as [ix'' yes]. simpl in *.
  pose proof (shifted_trans _ _ _ _ _ _ Hsh Hsh') as Hgo.
  destruct Hsh as (_ & Hs & _), Hsh' as (_ & Hs' & _). split.
  - assert (items_in ix m ∖ list_to_set (items ++ [i]) = items_in ix' m ∖ {[i]}) as ->; [|done].
    rewrite Hs. set_solver.
  - rewrite Hs'. subst yes. case_bool_decide.
    + rewrite size_remove_elem by done.
      assert (size (items_in ix' m) ≠ 0); [|lia]. intros Hz%size_empty_inv. set_solver.
    + assert (items_in ix' m ∖ {[i]} = items_in ix' m) as -> by set_solver. done.
Qed.

(** A shift never panics on a true count, and the count stays true. *)
Lemma index_shift_spec m coming going ix :
  tidy ix →
  ∃ ix', index_shift m (N.of_nat (size (items_in ix m))) coming going ix
           = Some (ix', N.of_nat (size (items_in ix' m))) ∧
         shifted m ((list_to_set coming ∪ items_in ix m) ∖ list_to_set going) ix ix'.
Proof.
  intros Ht. unfold index_shift. pose proof (tally_add m coming ix Ht) as [Ha Hn].
  destruct (tally (index_add m) coming ix) as [ix1 came]. simpl in *.
  pose proof (tally_remove m going ix1 (proj1 Ha)) as [Hr Hn'].
  destruct (tally (index_remove m) going ix1) as [ix2 went]. simpl in *.
  exists ix2. rewrite sub64_some by lia. simpl. split.
  - do 2 f_equal. lia.
  - pose proof (shifted_trans _ _ _ _ _ _ Ha Hr) as Hgo. destruct Ha as (_ & Hs & _). by rewrite Hs in Hgo.
Qed.

(** ** [retain] and [clear] *)

Lemma retain_holders_of keep ix i :
  index_holders (index_retain keep ix) i = filter keep (index_holders ix i).
Proof.
  unfold index_holders, index_retain. rewrite lookup_omap.
  destruct (ix !! i) as [ms|]; simpl; [|done]. by destruct (filter keep ms).
Qed.

Lemma items_in_retain keep ix m :
  items_in (index_retain keep ix) m = if keep m then items_in ix m else ∅.
Proof.
  apply set_eq. intros i. rewrite elem_of_items_in, retain_holders_of, list_elem_of_filter, <-elem_of_items_in.
  destruct (keep m); set_solver.
Qed.

Lemma tidy_retain keep ix : tidy ix → tidy (index_retain keep ix).
Proof.
  intros Ht i ms. unfold index_retain. rewrite lookup_omap, bind_Some.
  intros (ms' & Hl & Hf). apply Ht in Hl as [_ Hnd]. apply (NoDup_filter keep) in Hnd.
  destruct (filter keep ms'); by simplify_eq.
Qed.

Lemma clear_spec m ix : tidy ix → shifted m ∅ ix (index_clear m ix).
Proof.
  intros Ht. unfold index_clear. split_and!; [by apply tidy_retain | |].
  - rewrite items_in_retain, bool_decide_false; [done | by intros []].
  - intros m' Hne. rewrite items_in_retain. by rewrite bool_decide_true.
Qed.

(** ** The invariant

    The map is tidy, the count kept of a known member is the size of what the
    map has for it, its last change is in the map, and nothing is in the map
    of a member that is not known. *)

Notation items_of h m := (items_in (index h) m).

Definition stated_ok (st : option Stated) (items : gset ItemId) : Prop :=
  match st with
  | Some (Known _ added removed held) =>
      held = N.of_nat (size items) ∧ list_to_set added ∖ list_to_set removed ⊆ items ∧
      list_to_set removed ## items
  | _ => items = ∅
  end.

Definition wf (h : Holders) : Prop :=
  tidy (index h) ∧ ∀ m, stated_ok (stated h !! m) (items_of h m).

(** Nothing but what concerns [m] changed. *)
Definition only (m : MemberId) (h h' : Holders) : Prop :=
  failed_copies h' = failed_copies h ∧
  ∀ m', m' ≠ m → stated h' !! m' = stated h !! m' ∧ items_of h' m' = items_of h m'.

#[export] Instance only_refl m : Reflexive (only m).
Proof. by intros h. Qed.
#[export] Instance only_trans m : Transitive (only m).
Proof.
  intros h h' h'' [Hf Ho] [Hf' Ho']. split; [congruence|]. intros m' Hne.
  destruct (Ho m' Hne), (Ho' m' Hne). split; congruence.
Qed.

Lemma only_put m s st h ix :
  shifted m s (index h) ix → only m h (MkHolders ix (<[m := st]> (stated h)) (failed_copies h)).
Proof.
  intros (_ & _ & Ho). split; [done|]. intros m' Hne. simpl.
  split; [by rewrite lookup_insert_ne | by apply Ho].
Qed.

Lemma wf_only m h h' :
  wf h → only m h h' → tidy (index h') → stated_ok (stated h' !! m) (items_of h' m) → wf h'.
Proof.
  intros [_ Hw] [_ Ho] Ht Hm. split; [done|]. intros m'. destruct (decide (m' = m)) as [->|Hne]; [done|].
  destruct (Ho m' Hne) as [-> ->]. apply Hw.
Qed.

(** Putting one member's statement and items in place. *)
Lemma wf_put m s st h ix :
  wf h → shifted m s (index h) ix → stated_ok (Some st) s →
  wf (MkHolders ix (<[m := st]> (stated h)) (failed_copies h)).
Proof.
  intros Hw Hs Hok. apply (wf_only m h); [done | by eapply only_put | apply Hs |]. simpl.
  rewrite lookup_insert_eq. destruct Hs as (_ & -> & _). done.
Qed.

(** What a change makes of the items of a base. *)
Definition change_of (hs : Holdings) (base : gset ItemId) : gset ItemId :=
  (list_to_set (stated_added hs) ∪ base) ∖ list_to_set (stated_removed hs).

(** Where [restate] leaves a member whose last base and change are [base],
    [added] and [removed]. *)
Definition restated (hs : Holdings) (base : option ContentHash) (items : gset ItemId)
    (h' : Holders) (m : MemberId) : Prop :=
  if bool_decide (N.of_nat (size (change_of hs items)) = stated_count hs) then
    stated h' !! m = Some (Known base (stated_added hs) (stated_removed hs) (stated_count hs)) ∧
    items_of h' m = change_of hs items
  else stated h' !! m = Some (Broken base) ∧ items_of h' m = ∅.

Lemma restate_spec m hs h base added removed held :
  wf h → stated h !! m = Some (Known base added removed held) →
  ∃ h', restate m hs h = Some h' ∧ wf h' ∧ only m h h' ∧
    restated hs base ((list_to_set removed ∪ items_of h m) ∖ list_to_set added) h' m.
Proof.
  intros Hw Hst. pose proof Hw as [Ht Hm]. specialize (Hm m). rewrite Hst in Hm. destruct Hm as (Hheld & _).
  unfold restate. rewrite Hst, Hheld.
  destruct (index_shift_spec m removed added (index h) Ht) as (ix1 & Hi1 & Hs1). rewrite Hi1. simpl.
  destruct (index_shift_spec m (stated_added hs) (stated_removed hs) ix1 (proj1 Hs1)) as (ix2 & Hi2 & Hs2).
  rewrite Hi2. simpl. pose proof (shifted_trans _ _ _ _ _ _ Hs1 Hs2) as Hs.
  destruct Hs1 as (_ & Heq1 & _). rewrite Heq1 in Hs. fold (change_of hs ((list_to_set removed ∪ items_of h m) ∖ list_to_set added)) in Hs.
  set (base_items := (list_to_set removed ∪ items_of h m) ∖ list_to_set added) in *.
  pose proof Hs as (Ht2 & Heq2 & _). unfold restated. rewrite Heq2. case_bool_decide as Hc.
  - eexists. split; [done|]. split_and!; [| by eapply only_put | by simpl; rewrite lookup_insert_eq, Hc | done].
    eapply wf_put; [done..|]. unfold change_of. simpl. split_and!; [done | set_solver | set_solver].
  - pose proof (shifted_trans _ _ _ _ _ _ Hs (clear_spec m ix2 Ht2)) as Hsc.
    eexists. split; [done|].
    split_and!; [by eapply wf_put | by eapply only_put | by simpl; rewrite lookup_insert_eq | apply Hsc].
Qed.

(** [known] on a map that has just the [held] items of the base for [m]. *)
Lemma known_spec m base hs h s ix :
  wf h → shifted m s (index h) ix →
  ∃ h', known m base (N.of_nat (size s)) hs (MkHolders ix (stated h) (failed_copies h)) = Some h' ∧
    wf h' ∧ only m h h' ∧ restated hs base s h' m.
Proof.
  intros Hw Hs. unfold known. simpl.
  assert (wf (MkHolders ix (<[m := Known base [] [] (N.of_nat (size s))]> (stated h)) (failed_copies h))) as Hw'.
  { eapply wf_put; [done..|]. simpl. split_and!; [done | set_solver | set_solver]. }
  edestruct (restate_spec m hs _ base [] [] (N.of_nat (size s)) Hw') as (h' & Hr & Hwf & Ho & Hre).
  { apply lookup_insert_eq. }
  exists h'. split; [done|]. split; [done|]. split.
  - etransitivity; [by eapply only_put | done].
  - simpl in Hre. destruct Hs as (_ & Heq & _). rewrite Heq in Hre.
    replace s with (((∅ ∪ s) ∖ ∅ : gset ItemId)) by set_solver. done.
Qed.

(** ** Each operation keeps the invariant *)

Lemma heard_anew_spec m hs h :
  wf h →
  ∃ h', heard_anew m hs h = Some (h', MkHeardHoldings (stated_base hs) true) ∧ wf h' ∧ only m h h' ∧
    match stated_base hs with
    | Some base => stated h' !! m = Some (Unknown base hs true)
    | None => restated hs None ∅ h' m
    end.
Proof.
  intros Hw. unfold heard_anew. pose proof (clear_spec m (index h) (proj1 Hw)) as Hc.
  destruct (stated_base hs) as [base|].
  - eexists. split; [done|]. split_and!; [by eapply wf_put | by eapply only_put | by simpl; rewrite lookup_insert_eq].
  - destruct (known_spec m None hs h ∅ _ Hw Hc) as (h' & Hk & Hwf & Ho & Hre).
    rewrite size_empty in Hk. change (N.of_nat 0) with 0%N in Hk. rewrite Hk. simpl. by eexists.
Qed.

Lemma heard_spec m hs h :
  wf h → ∃ h' told, heard m hs h = Some (h', told) ∧ wf h' ∧ only m h h'.
Proof.
  intros Hw. pose proof (heard_anew_spec m hs h Hw) as (ha & Hanew & Hwa & Hoa & _).
  unfold heard. destruct (stated h !! m) as [[base latest fetching|base added removed held|base]|] eqn:E;
    try case_bool_decide; try (by rewrite Hanew; eexists _, _).
  - eexists _, _. split; [done|]. pose proof Hw as [Ht Hm]. specialize (Hm m). rewrite E in Hm.
    pose proof (shifted_refl m (index h) Ht) as Hs. simpl in Hm. rewrite Hm in Hs.
    split; [by eapply wf_put | by eapply only_put].
  - edestruct (restate_spec m hs h) as (h' & Hr & Hwf & Ho & _); [done..|]. rewrite Hr. simpl. by eexists _, _.
  - by eexists _, _.
Qed.

Lemma arrived_spec m base items h :
  wf h →
  ∃ h' taken, arrived m base items h = Some (h', taken) ∧ wf h' ∧ only m h h' ∧
    (if taken then ∃ latest fetching, stated h !! m = Some (Unknown base latest fetching) ∧
       restated latest (Some base) (list_to_set items) h' m
     else h' = h).
Proof.
  intros Hw. unfold arrived. pose proof Hw as [Ht Hm]. specialize (Hm m).
  destruct (stated h !! m) as [[wanted latest fetching|base' added removed held|base']|] eqn:E;
    try (by eexists _, false; split_and!).
  case_bool_decide as Hb; [|by eexists _, false; split_and!]. subst wanted. simpl in Hm.
  pose proof (tally_add m items (index h) Ht) as [Hs Hn]. rewrite Hm in Hs, Hn.
  destruct (tally (index_add m) items (index h)) as [ix held]. cbn [fst snd] in Hs, Hn.
  rewrite (right_id_L ∅ (∪)) in Hs. pose proof Hs as (_ & Heq & _).
  rewrite Heq in Hn. rewrite size_empty, N.add_0_r in Hn. subst held.
  assert (wf (MkHolders (index h) (delete m (stated h)) (failed_copies h))) as Hwd.
  { split; [done|]. intros m'. simpl. destruct (decide (m' = m)) as [->|Hne].
    - by rewrite lookup_delete_eq.
    - rewrite lookup_delete_ne by done. apply Hw. }
  destruct (known_spec m (Some base) latest _ _ ix Hwd Hs) as (h' & Hk & Hwf & Ho & Hre).
  simpl in Hk. rewrite Hk. simpl. eexists _, true. split; [done|]. split; [done|]. split; [|eauto].
  destruct Ho as [Hf Ho]. split; [done|]. intros m' Hne. destruct (Ho m' Hne) as [Hst Hi].
  simpl in Hst. by rewrite lookup_delete_ne in Hst.
Qed.

Lemma failed_spec m base retry h : wf h → wf (failed m base retry h) ∧ only m h (failed m base retry h).
Proof.
  intros Hw. unfold failed. pose proof Hw as [Ht Hm]. specialize (Hm m).
  destruct (stated h !! m) as [[wanted latest fetching|? ? ? ?|?]|] eqn:E; try done.
  case_bool_decide; [|done]. simpl in Hm.
  pose proof (shifted_refl m (index h) Ht) as Hs. rewrite Hm in Hs.
  split; [eapply wf_put; [done..|by destruct retry] | by eapply only_put].
Qed.

Lemma retain_spec is_member h :
  wf h → wf (retain_holders is_member h) ∧
  ∀ m, stated (retain_holders is_member h) !! m = (if is_member m then stated h !! m else None) ∧
    items_of (retain_holders is_member h) m = if is_member m then items_of h m else ∅.
Proof.
  intros [Ht Hm].
  assert (∀ m, stated (retain_holders is_member h) !! m = if is_member m then stated h !! m else None) as Hst.
  { intros m. simpl. rewrite map_lookup_filter. destruct (stated h !! m) as [st|]; simpl; [|by destruct (is_member m)].
    case_guard; by destruct (is_member m). }
  assert (∀ m, items_of (retain_holders is_member h) m = if is_member m then items_of h m else ∅) as Hit.
  { intros m. apply items_in_retain. }
  split; [|by split]. split; [by apply tidy_retain|]. intros m. rewrite Hst, Hit.
  destruct (is_member m); [apply Hm | done].
Qed.
