(* ===== verification/Heartbeats.v ===== *)
(** * What a member says about itself

    [crates/distlib-core/src/availability.rs] and [addr/signed_addr.rs]: an
    address signed by the member it is about, a heartbeat signed for one
    group, and the list of held items a heartbeat names. The encodings are
    postcard's, the class [HeartbeatCodec]; keys and signatures are
    [Crypto]'s. *)

From S2P Require Import Prelude Ids GroupSettings Events Holders.

(** [CoreError], as far as the modelled parts raise it. *)
Inductive CoreError : Type :=
| IoError (action path source : string)
| InvalidId (kind value : string)
| ConfigError (source : string)
| DataDirInConfig (path : string)
| NoDataDir
| DataDirTooNew (path : string) (found supported : N)
| BadDataFormat (path text : string)
| MalformedTicket (reason : string)
| EmptyToken (path : string)
| RandomError (message : string)
| NotPrivate (path : string) (mode : N)
| MalformedKey (path : string) (len : N)
| KeyExists (path : string)
| BadAddressSignature (member : MemberId)
| AddressEncoding (message : string)
| BadHeartbeatSignature (member : MemberId)
| HeartbeatTooLarge (size max : N)
| HeartbeatEncoding (message : string)
| BadBaseList (reason : string)
| NoIdentity (path : string)
| InvalidRating (value : N)
| TextTooLong (what : string) (len max : N).

#[export] Instance CoreError_eq_dec : EqDecision CoreError.
Proof. solve_decision. Defined.

Definition GOSSIP_MAX_MESSAGE : N := 16 * 1024.
Definition HEARTBEAT_MAX : N := GOSSIP_MAX_MESSAGE - 512.
Definition DELTA_MAX : nat := Z.to_nat (12 * 1024 / 32).
Definition BASE_MAX : N := 10000000.
Definition BASE_FORMAT : N := 1.

(** ** The list of held items *)

(** [Vec::dedup]. *)
Fixpoint dedup {A} `{EqDecision A} (l : list A) : list A :=
  match l with
  | x :: rest => match rest with
                 | y :: _ => if decide (x = y) then dedup rest else x :: dedup rest
                 | [] => [x]
                 end
  | [] => []
  end.

Definition encode_base (items : list ItemId) : list N :=
  BASE_FORMAT :: (dedup (sort_keys items) ≫= λ i, id_bytes (item_id32 i)).

(** [k] chunks of 32. *)
Fixpoint chunks (k : nat) (bytes : list N) : list (list N) :=
  match k with
  | O => []
  | S k => take 32 bytes :: chunks k (drop 32 bytes)
  end.

(** [as_chunks::<32>]: the whole chunks, and what is left over. *)
Definition as_chunks (bytes : list N) : list (list N) * list N :=
  let k := length bytes / 32 in (chunks k bytes, drop (32 * k) bytes).

(** [ItemId::from_bytes]. *)
Definition item_from_bytes (bytes : list N) : ItemId := MkItemId (id32 (le_value (rev bytes))).

Definition decode_base (bytes : list N) : result CoreError (list ItemId) :=
  match bytes with
  | [] => Err (BadBaseList "it is empty")
  | format :: ids =>
      if decide (format ≠ BASE_FORMAT) then
        Err (BadBaseList "it is in a format this build does not read")
      else
        let '(ids, rest) := as_chunks ids in
        if decide (rest ≠ []) then Err (BadBaseList "it ends partway through an id")
        else if bool_decide (BASE_MAX < N.of_nat (length ids))%N then
          Err (BadBaseList "it holds more ids than any list may")
        else Ok (item_from_bytes <$> ids)
  end.

(** ** The signed statements *)

Section statements.
Context `{Crypto}.

(** [SignedAddress]. *)
Record SignedAddress : Type := MkSignedAddress {
  address_member : MemberId;
  address_addr : NodeAddr;
  address_applied : N;
  address_signature : Signature;
}.

Record Heartbeat : Type := MkHeartbeat {
  beat_address : SignedAddress;
  beat_epoch : N;
  beat_seq : N;
  interval_secs : N;
  beat_holdings : Holdings;
  leaving : bool;
}.

Record SignedHeartbeat : Type := MkSignedHeartbeat {
  heartbeat : Heartbeat;
  heartbeat_signature : Signature;
}.

(** [SignedHeartbeat::member]. *)
Definition heartbeat_member (s : SignedHeartbeat) : MemberId := address_member (beat_address (heartbeat s)).
End statements.

(** What postcard makes of them. *)
Class HeartbeatCodec `{Crypto} : Type := {
  postcard_address : MemberId → NodeAddr → N → result string (list N);
  postcard_heartbeat : Heartbeat → result string (list N);
  postcard_signed : SignedHeartbeat → result string (list N);
  postcard_read : list N → result string SignedHeartbeat;
}.

Section codec.
Context `{HeartbeatCodec}.

(** [b"distlib.address.v1"]. *)
Definition ADDRESS_DOMAIN : list N :=
  [100; 105; 115; 116; 108; 105; 98; 46; 97; 100; 100; 114; 101; 115; 115; 46; 118; 49]%N.

(** [signing_payload] of an address. *)
Definition address_payload (member : MemberId) (addr : NodeAddr) (applied : N) : result CoreError (list N) :=
  match postcard_address member addr applied with
  | Ok encoded => Ok (ADDRESS_DOMAIN ++ encoded)
  | Err message => Err (AddressEncoding message)
  end.

(** [SignedAddress::sign]. *)
Definition sign_address (secret_key : SecretKey) (addr : NodeAddr) (applied : N)
  : result CoreError SignedAddress :=
  let member := public secret_key in
  payload ←? address_payload member addr applied ;;
  Ok (MkSignedAddress member addr applied (sign_bytes secret_key payload)).

(** [SignedAddress::verify]. *)
Definition verify_address (a : SignedAddress) : result CoreError unit :=
  payload ←? address_payload (address_member a) (address_addr a) (address_applied a) ;;
  if verify_bytes (address_member a) payload (address_signature a) then Ok tt
  else Err (BadAddressSignature (address_member a)).

(** [SignedAddress::addr]: the only way to the address. *)
Definition address_of (a : SignedAddress) : result CoreError NodeAddr :=
  verify_address a ;? Ok (address_addr a).

(** [b"distlib.heartbeat.v1"]. *)
Definition HEARTBEAT_DOMAIN : list N :=
  [100; 105; 115; 116; 108; 105; 98; 46; 104; 101; 97; 114; 116; 98; 101; 97; 116; 46; 118; 49]%N.

(** [signing_payload] of a heartbeat. *)
Definition heartbeat_payload (group : GroupId) (beat : Heartbeat) : result CoreError (list N) :=
  match postcard_heartbeat beat with
  | Ok encoded => Ok ((HEARTBEAT_DOMAIN ++ id_bytes (group_id32 group)) ++ encoded)
  | Err message => Err (HeartbeatEncoding message)
  end.

(** [SignedHeartbeat::sign]. *)
Definition sign_heartbeat (secret_key : SecretKey) (group : GroupId) (beat : Heartbeat)
  : result CoreError SignedHeartbeat :=
  let member := public secret_key in
  if decide (address_member (beat_address beat) ≠ member) then Err (BadHeartbeatSignature member)
  else
    payload ←? heartbeat_payload group beat ;;
    Ok (MkSignedHeartbeat beat (sign_bytes secret_key payload)).

(** [SignedHeartbeat::encode]. *)
Definition encode_heartbeat (s : SignedHeartbeat) : result CoreError (list N) :=
  match postcard_signed s with
  | Err message => Err (HeartbeatEncoding message)
  | Ok bytes =>
      if bool_decide (HEARTBEAT_MAX < N.of_nat (length bytes))%N
      then Err (HeartbeatTooLarge (N.of_nat (length bytes)) HEARTBEAT_MAX)
      else Ok bytes
  end.

(** [SignedHeartbeat::decode]. *)
Definition decode_heartbeat (bytes : list N) : result CoreError SignedHeartbeat :=
  if bool_decide (HEARTBEAT_MAX < N.of_nat (length bytes))%N
  then Err (HeartbeatTooLarge (N.of_nat (length bytes)) HEARTBEAT_MAX)
  else match postcard_read bytes with
       | Ok s => Ok s
       | Err message => Err (HeartbeatEncoding message)
       end.

(** [SignedHeartbeat::open]: the only way to the heartbeat. *)
Definition open_heartbeat (group : GroupId) (s : SignedHeartbeat) : result CoreError Heartbeat :=
  let member := heartbeat_member s in
  verify_address (beat_address (heartbeat s)) ;?
  payload ←? heartbeat_payload group (heartbeat s) ;;
  if verify_bytes member payload (heartbeat_signature s) then Ok (heartbeat s)
  else Err (BadHeartbeatSignature member).
End codec.

(** ** Lemmas *)

Lemma item_from_bytes_id i : item_from_bytes (id_bytes (item_id32 i)) = i.
Proof.
  unfold item_from_bytes, id_bytes. rewrite rev_involutive, le_value_bytes.
  - destruct i as [i]. f_equal. apply Id32_eq. simpl. apply N.mod_small.
    exact (bool_decide_unpack _ (id_num_bound i)).
  - change (256 ^ N.of_nat 32)%N with (2 ^ 256)%N. exact (bool_decide_unpack _ (id_num_bound (item_id32 i))).
Qed.

Lemma length_id_list (ids : list ItemId) : length (ids ≫= λ i, id_bytes (item_id32 i)) = 32 * length ids.
Proof.
  induction ids as [|i ids IH]; [done|]. rewrite bind_cons, length_app, id_bytes_length, IH. simpl. lia.
Qed.

Lemma chunks_id_list (ids : list ItemId) rest :
  chunks (length ids) ((ids ≫= λ i, id_bytes (item_id32 i)) ++ rest) = (λ i, id_bytes (item_id32 i)) <$> ids.
Proof.
  induction ids as [|i ids IH]; [done|]. rewrite bind_cons, <-app_assoc. cbn [length chunks fmap list_fmap].
  rewrite take_app_length' by (by rewrite id_bytes_length).
  rewrite drop_app_length' by (by rewrite id_bytes_length). by rewrite IH.
Qed.

Lemma as_chunks_id_list (ids : list ItemId) :
  as_chunks (ids ≫= λ i, id_bytes (item_id32 i)) = ((λ i, id_bytes (item_id32 i)) <$> ids, []).
Proof.
  unfold as_chunks. rewrite length_id_list, Nat.mul_comm, Nat.div_mul by lia. f_equal.
  - pose proof (chunks_id_list ids []) as Hc. by rewrite app_nil_r in Hc.
  - apply drop_ge. rewrite length_id_list. lia.
Qed.

Lemma elem_of_dedup {A} `{EqDecision A} (l : list A) x : x ∈ dedup l ↔ x ∈ l.
Proof.
  induction l as [|y l IH]; [done|]. cbn. destruct l as [|z l]; [done|].
  case_decide as Hyz.
  - subst z. rewrite IH, !elem_of_cons. naive_solver.
  - rewrite elem_of_cons, IH, (elem_of_cons _ _ y). done.
Qed.

(** On a sorted list, what is left is strictly sorted. *)
Lemma dedup_strict (l : list ItemId) : StronglySorted key_le l → StronglySorted key_lt (dedup l).
Proof.
  induction 1 as [|x l Hs IH Hx]; [constructor|]. cbn. destruct l as [|y l]; [repeat constructor|].
  case_decide as Hxy; [done|]. constructor; [done|]. rewrite Forall_forall in Hx |- *.
  intros z Hz. rewrite elem_of_dedup in Hz. unfold key_lt.
  assert (key_le x y) as Hxy' by (apply Hx; by left).
  assert (ord_num x ≠ ord_num y) as Hne by (by intros ?%(inj ord_num)). unfold key_le in *.
  apply elem_of_cons in Hz as [->|Hz]; [lia|].
  apply StronglySorted_cons in Hs as [Hy _]. rewrite Forall_forall in Hy. specialize (Hy z Hz). unfold key_le in Hy. lia.
Qed.

Lemma strict_nodup (l : list ItemId) : StronglySorted key_lt l → NoDup l.
Proof.
  induction 1 as [|x l Hs IH Hx]; constructor; [|done]. intros Hin.
  rewrite Forall_forall in Hx. specialize (Hx x Hin). unfold key_lt in Hx. lia.
Qed.

(** The list a base holds: the set, in order. *)
Lemma dedup_sort_set (items : list ItemId) : dedup (sort_keys items) = set_entries (list_to_set items).
Proof.
  pose proof (dedup_strict _ (sort_keys_sorted items)) as Hs.
  apply (StronglySorted_unique_on key_le).
  - intros x y _ _. apply (anti_symm key_le).
  - clear -Hs. induction Hs as [|x l Hs IH Hx]; constructor; [done|].
    eapply Forall_impl; [done|]. unfold key_lt, key_le. simpl. intros. lia.
  - apply sort_keys_sorted.
  - apply NoDup_Permutation; [by apply strict_nodup | | ].
    + unfold set_entries. rewrite sort_keys_perm. apply NoDup_elements.
    + intros x. unfold set_entries. rewrite elem_of_dedup, !elem_of_sort_keys, elem_of_elements.
      by rewrite elem_of_list_to_set.
Qed.

Lemma length_set_entries {K} `{Countable K, OrdKey K} (s : gset K) : length (set_entries s) = size s.
Proof. unfold set_entries. by rewrite sort_keys_perm. Qed.
