(* ===== verification/HeartbeatFixtures.v ===== *)
(** * Concrete heartbeats

    A toy postcard over the toy signatures of [Fixtures], in which a beat is
    encoded as the number its countability gives it. *)

From S2P Require Import Prelude Ids GroupSettings Events Membership Holders Heartbeats Fixtures RaftFixtures.

Definition item (n : N) : ItemId := MkItemId (id32 n).
Definition hash (n : N) : ContentHash := MkContentHash (id32 n).

Definition nothing_held : Holdings := MkHoldings 0 None [] [].

(** [n]'s address, signed by [n]. *)
Definition address (n : N) : SignedAddress :=
  MkSignedAddress (member n) addr 1 (member n, ADDRESS_DOMAIN ++ [1%N]).

(** [n]'s beat [seq] of run [epoch], at the default interval of a minute. *)
Definition beat (n epoch seq : N) : Heartbeat := MkHeartbeat (address n) epoch seq 60 nothing_held false.
Definition goodbye (n epoch seq : N) : Heartbeat := MkHeartbeat (address n) epoch seq 60 nothing_held true.

(** ** Countability of what is encoded *)

#[export] Instance Holdings_countable : Countable Holdings.
Proof.
  apply (inj_countable' (λ h, (stated_count h, stated_base h, stated_added h, stated_removed h))
    (λ '(a, b, c, d), MkHoldings a b c d)). by intros [].
Defined.

#[export] Instance SignedAddress_eq_dec : EqDecision SignedAddress.
Proof. solve_decision. Defined.
#[export] Instance SignedAddress_countable : Countable SignedAddress.
Proof.
  apply (inj_countable' (λ a : @SignedAddress test_crypto, (address_member a, address_addr a, address_applied a, address_signature a))
    (λ '(a, b, c, d), MkSignedAddress a b c d)). by intros [].
Defined.

#[export] Instance Heartbeat_eq_dec : EqDecision Heartbeat.
Proof. solve_decision. Defined.
#[export] Instance Heartbeat_countable : Countable Heartbeat.
Proof.
  apply (inj_countable' (λ b, (beat_address b, beat_epoch b, beat_seq b, interval_secs b, beat_holdings b, leaving b))
    (λ '(a, b, c, d, e, f), MkHeartbeat a b c d e f)). by intros [].
Defined.

#[export] Instance SignedHeartbeat_eq_dec : EqDecision SignedHeartbeat.
Proof. solve_decision. Defined.
#[export] Instance SignedHeartbeat_countable : Countable SignedHeartbeat.
Proof.
  apply (inj_countable' (λ s : @SignedHeartbeat test_crypto, (heartbeat s, heartbeat_signature s))
    (λ '(a, b), MkSignedHeartbeat a b)). by intros [].
Defined.

#[export] Instance test_codec : HeartbeatCodec := {|
  postcard_address _ _ applied := Ok [applied];
  postcard_heartbeat b := Ok [Npos (encode b)];
  postcard_signed s := Ok [Npos (encode s)];
  postcard_read bytes :=
    match bytes with
    | [Npos p] => match decode p with Some s => Ok s | None => Err "not a heartbeat" end
    | _ => Err "not a heartbeat"
    end;
|}.

Definition anyone : MemberId → bool := λ _, true.
