(* ===== verification/Online.v ===== *)
(** * Who is online, by the heartbeats heard

    [crates/distlib-sync/src/availability/online.rs], and how often a node
    beats, [heartbeat.rs]. Times are nanoseconds since some start. *)

From S2P Require Import Prelude Ids GroupSettings Events Membership Fixtures Holders Heartbeats HeartbeatFixtures.

Definition SECOND : N := 1000000000.
Definition MAX_INTERVAL : N := 20 * 60 * SECOND.
Definition TTL_MIN : N := SECOND.
Definition TTL_MAX : N := 3 * MAX_INTERVAL.

(** How long a beat from a member beating every [interval_secs] is believed. *)
Definition ttl (interval_secs : N) : N := N.min (N.max (interval_secs * SECOND * 3) TTL_MIN) TTL_MAX.

(** ** How often this node beats *)

Definition BUDGET : N := 50.

(** [usize::div_ceil] and [u128::div_ceil]. *)
Definition div_ceil (a b : N) : N := (a + (b - 1)) / b.

(** [saturating_mul] is capped at a [Duration] far above [MAX_INTERVAL]. *)
Definition stretch (interval members : N) : N :=
  let times := N.min (N.max (div_ceil members BUDGET) 1) u32_max in
  N.min (interval * times) MAX_INTERVAL.

Definition whole_seconds (interval : N) : N :=
  let millis := (interval / 1000000)%N in
  N.max (N.min (div_ceil millis 1000) u32_max) 1.

(** ** The members heard from *)

(** [Heard]: the newest beat accepted from one member. *)
Record HeardBeat : Type := MkHeardBeat {
  heard_epoch : N;
  heard_seq : N;
  until : option N;
}.

Record Online : Type := MkOnline {
  online_me : MemberId;
  heard_from : gmap MemberId HeardBeat;
}.

Definition new_online (me : MemberId) : Online := MkOnline me ∅.

Definition retain_online (is_member : MemberId → bool) (o : Online) : Online :=
  MkOnline (online_me o) (filter (λ '(m, _), is_member m) (heard_from o)).

Section online.
Context `{Crypto}.

(** Whether [beat] is no newer than what is held. *)
Definition stale (held : HeardBeat) (beat : Heartbeat) : bool :=
  bool_decide (heard_epoch held = beat_epoch beat ∧ (beat_seq beat ≤ heard_seq held)%N).

(** [Online::heard]. *)
Definition heard (beat : Heartbeat) (now : N) (is_member : MemberId → bool) (o : Online) : Online * bool :=
  let member := address_member (beat_address beat) in
  if bool_decide (member = online_me o) || negb (is_member member) then (o, false)
  else if (match heard_from o !! member with Some held => stale held beat | None => false end)
  then (o, false)
  else
    let until := if leaving beat then None else Some (now + ttl (interval_secs beat))%N in
    (MkOnline (online_me o)
       (<[member := MkHeardBeat (beat_epoch beat) (beat_seq beat) until]> (heard_from o)), true).
End online.

(** A member's beat that ran out by [now]. *)
Definition expire_one (now : N) (h : HeardBeat) : HeardBeat :=
  match until h with
  | Some t => if bool_decide (t ≤ now)%N then MkHeardBeat (heard_epoch h) (heard_seq h) None else h
  | None => h
  end.

(** [Online::expire]. *)
Definition expire (now : N) (o : Online) : Online :=
  MkOnline (online_me o) (expire_one now <$> heard_from o).

(** [Online::next_expiry]: the least [until], of whatever order. *)
Definition deadlines (o : Online) : list N := omap (λ '(_, h), until h) (map_to_list (heard_from o)).
Definition next_expiry (o : Online) : option N :=
  match deadlines o with
  | [] => None
  | t :: ts => Some (foldr N.min t ts)
  end.

(** [Online::online]. *)
Definition online (o : Online) : gset MemberId :=
  dom (filter (λ '(_, h), is_Some (until h)) (heard_from o)).

(** ** Lemmas *)

Lemma elem_of_online o m : m ∈ online o ↔ ∃ h t, heard_from o !! m = Some h ∧ until h = Some t.
Proof.
  unfold online. rewrite elem_of_dom. unfold is_Some. setoid_rewrite map_lookup_filter_Some. naive_solver.
Qed.

Lemma elem_of_deadlines o t : t ∈ deadlines o ↔ ∃ m h, heard_from o !! m = Some h ∧ until h = Some t.
Proof.
  unfold deadlines. rewrite list_elem_of_omap. split.
  - intros ([m h] & Hin%elem_of_map_to_list & Hu). eauto.
  - intros (m & h & Hl%elem_of_map_to_list & Hu). by exists (m, h).
Qed.

Lemma foldr_min_le (t : N) ts x : x ∈ t :: ts → (foldr N.min t ts ≤ x)%N.
Proof.
  induction ts as [|y ts IH]; simpl; [by intros ->%list_elem_of_singleton|].
  intros Hx. assert (x = y ∨ x ∈ t :: ts) as [->|Hin] by set_solver; [lia|]. specialize (IH Hin). lia.
Qed.

Lemma foldr_min_elem (t : N) ts : foldr N.min t ts ∈ t :: ts.
Proof.
  induction ts as [|y ts IH]; simpl; [by left|].
  destruct (N.min_spec y (foldr N.min t ts)) as [[_ ->]|[_ ->]]; set_solver.
Qed.

Lemma next_expiry_some o t :
  next_expiry o = Some t → t ∈ deadlines o ∧ ∀ t', t' ∈ deadlines o → (t ≤ t')%N.
Proof.
  unfold next_expiry. destruct (deadlines o) as [|d ds]; [done|]. intros [= <-].
  split; [apply foldr_min_elem | apply foldr_min_le].
Qed.

Lemma next_expiry_none o : next_expiry o = None ↔ online o = ∅.
Proof.
  unfold next_expiry. split.
  - destruct (deadlines o) eqn:E; [|done]. intros _. apply set_eq. intros m.
    rewrite elem_of_online. split; [|set_solver]. intros (h & t & Hl & Hu).
    assert (t ∈ deadlines o) as Ht by (apply elem_of_deadlines; eauto). rewrite E in Ht. by apply not_elem_of_nil in Ht.
  - intros He. destruct (deadlines o) as [|d ds] eqn:E; [done|].
    assert (d ∈ deadlines o) as (m & h & Hl & Hu)%elem_of_deadlines by (rewrite E; by left).
    assert (m ∈ online o) as Hm by (apply elem_of_online; eauto). rewrite He in Hm. set_solver.
Qed.

Lemma elem_of_online_expire now o m :
  m ∈ online (expire now o) ↔ ∃ h t, heard_from o !! m = Some h ∧ until h = Some t ∧ (now < t)%N.
Proof.
  rewrite elem_of_online. simpl. setoid_rewrite lookup_fmap. split.
  - intros (h' & t & (h & Hl & ->)%fmap_Some & Hu). exists h, t. split; [done|].
    unfold expire_one in Hu. destruct (until h) as [u|] eqn:E; [|by rewrite E in Hu].
    case_bool_decide; [done|]. rewrite E in Hu. simplify_eq. split; [done|lia].
  - intros (h & t & Hl & Hu & Hlt). exists h, t. rewrite Hl. simpl. unfold expire_one. rewrite Hu.
    by rewrite bool_decide_false by lia.
Qed.

(** Whoever is taken offline at the next deadline was online. *)
Lemma expire_shrinks o t :
  next_expiry o = Some t → size (online (expire t o)) < size (online o).
Proof.
  intros [Ht Hle]%next_expiry_some. apply subset_size. split.
  - intros m. rewrite elem_of_online_expire, elem_of_online. naive_solver.
  - intros Hsub. apply elem_of_deadlines in Ht as (m & h & Hl & Hu).
    assert (m ∈ online o) as Hm by (apply elem_of_online; eauto).
    apply Hsub, elem_of_online_expire in Hm as (h' & t' & Hl' & Hu' & Hlt). simplify_eq. lia.
Qed.

(** ** Properties of who is online

    A beat is believed for its time and no longer, whatever is replayed of
    the same run of its sender; the clock alone takes everybody offline; and a
    sender is never offline between two beats for losing the one between. *)

(** ** Beats and their time *)

Ltac Zify.zify_post_hook ::= Z.to_euclidean_division_equations.

Lemma stretch_bound interval members : (stretch interval members ≤ MAX_INTERVAL)%N.
Proof. unfold stretch. lia. Qed.

(** The interval a beat states covers the one it was sent at, but for what is
    below a millisecond. *)
Lemma whole_seconds_covers s :
  (s ≤ MAX_INTERVAL)%N → (s / 1000000 ≤ whole_seconds s * 1000 ≤ 1200000)%N.
Proof.
  unfold whole_seconds, div_ceil, MAX_INTERVAL, SECOND, u32_max. change (2 ^ 32)%N with 4294967296%N.
  intros Hs. lia.
Qed.

(** A receiver believes a beat for three of the intervals its sender
    beats at, however large the group and the setting, and so a member whose
    beats come no more than a tenth late is not offline for one lost beat. *)
Theorem believed_for_three_intervals interval members gap gap' :
  (interval `mod` 1000000 = 0)%N →
  (10 * gap ≤ 11 * stretch interval members)%N →
  (10 * gap' ≤ 11 * stretch interval members)%N →
  (3 * stretch interval members ≤ ttl (whole_seconds (stretch interval members)))%N ∧
  (gap + gap' ≤ ttl (whole_seconds (stretch interval members)))%N.
Proof.
  intros Hms Hg Hg'.
  assert (stretch interval members `mod` 1000000 = 0)%N as Hm.
  { unfold stretch. apply N.Div0.mod_divides in Hms as [k ->].
    destruct (N.min_spec (1000000 * k * N.min (N.max (div_ceil members BUDGET) 1) u32_max) MAX_INTERVAL)
      as [[_ ->]|[_ ->]]; [|done].
    by rewrite <-N.mul_assoc, N.mul_comm, N.Div0.mod_mul. }
  pose proof (stretch_bound interval members) as Hb. pose proof (whole_seconds_covers _ Hb) as [Hc Hc'].
  set (s := stretch interval members) in *. set (w := whole_seconds s) in *. clearbody w s.
  unfold ttl, TTL_MIN, TTL_MAX, MAX_INTERVAL, SECOND in *. lia.
Qed.

(** ** Runs *)

Section runs.
Context `{Crypto}.

Inductive OnlineStep : Type :=
| Hear (beat : Heartbeat) (now : N) (is_member : MemberId → bool)
| RunOut (now : N)
| Admit (is_member : MemberId → bool).

Definition online_step (o : Online) (s : OnlineStep) : Online :=
  match s with
  | Hear beat now is_member => (heard beat now is_member o).1
  | RunOut now => expire now o
  | Admit is_member => retain_online is_member o
  end.

(** A step that brings no newer beat of [m] than [held], and keeps [m]. *)
Definition quiet_for (m : MemberId) (held : HeardBeat) (s : OnlineStep) : Prop :=
  match s with
  | Hear beat _ _ => address_member (beat_address beat) = m → stale held beat = true
  | RunOut _ => True
  | Admit is_member => is_member m = true
  end.

Lemma quiet_expire now m held s : quiet_for m (expire_one now held) s ↔ quiet_for m held s.
Proof.
  unfold expire_one. destruct (until held); [|done]. by case_bool_decide.
Qed.

Lemma online_step_quiet m held o s :
  heard_from o !! m = Some held → quiet_for m held s →
  heard_from (online_step o s) !! m = Some (if s is RunOut now then expire_one now held else held).
Proof.
  intros Hl Hq. destruct s as [beat now is_member|now|is_member]; simpl in *.
  - unfold heard. destruct (decide (address_member (beat_address beat) = m)) as [Heq|Hne].
    + rewrite Heq, Hl, (Hq Heq). by destruct (_ || _).
    + destruct (_ || _); [done|]. destruct (heard_from o !! address_member _) as [h|]; [destruct (stale h beat)|];
        simpl; [done | by rewrite lookup_insert_ne ..].
  - by rewrite lookup_fmap, Hl.
  - by rewrite map_lookup_filter, Hl; simpl; rewrite option_guard_True by (by rewrite Hq).
Qed.

Lemma online_run_quiet m held o steps :
  heard_from o !! m = Some held → Forall (quiet_for m held) steps →
  m ∈ online (foldl online_step o steps) ↔
  ∃ t, until held = Some t ∧ ∀ now, RunOut now ∈ steps → (now < t)%N.
Proof.
  revert held o. induction steps as [|s steps IH]; intros held o Hl Hq.
  { simpl. rewrite elem_of_online. setoid_rewrite elem_of_nil. naive_solver. }
  apply Forall_cons in Hq as [Hs Hq]. simpl. pose proof (online_step_quiet _ _ _ _ Hl Hs) as Hl'.
  rewrite (IH _ _ Hl'); clear IH Hl'.
  - assert (∀ now, RunOut now ∈ s :: steps ↔ RunOut now = s ∨ RunOut now ∈ steps) as Hc by (intros; apply elem_of_cons).
    setoid_rewrite Hc. destruct s as [beat now is_member|now|is_member]; [naive_solver | | naive_solver].
    unfold expire_one. destruct (until held) as [u|] eqn:E; [|naive_solver].
    destruct (decide (u ≤ now)%N) as [Hle|Hgt].
    + rewrite bool_decide_true by done. simpl. split; [naive_solver|]. intros (t & [= <-] & Ht).
      specialize (Ht now (or_introl eq_refl)). lia.
    + rewrite bool_decide_false, E by done. split; intros (t & [= <-] & Ht); exists u; (split; [done|]).
      * intros now' [[= ->]|Hin]; [lia | by apply Ht].
      * intros now' Hin. apply Ht. by right.
  - destruct s as [| now |]; [done | | done]. eapply Forall_impl; [done|]. intros s. by rewrite quiet_expire.
Qed.

(** Once a member's beat is accepted, and until a newer one is, the
    member is online exactly as long as no deadline passed after its beat's
    time ran out, whatever else is heard and whatever is replayed of the same
    run; a goodbye takes it offline at once. *)
Theorem online_for_its_ttl beat t is_member o o' steps :
  let m := address_member (beat_address beat) in
  heard beat t is_member o = (o', true) →
  Forall (quiet_for m (MkHeardBeat (beat_epoch beat) (beat_seq beat) None)) steps →
  m ∈ online (foldl online_step o' steps) ↔
  leaving beat = false ∧ ∀ now, RunOut now ∈ steps → (now < t + ttl (interval_secs beat))%N.
Proof.
  intros m Hh Hq.
  assert (heard_from o' !! m = Some (MkHeardBeat (beat_epoch beat) (beat_seq beat)
    (if leaving beat then None else Some (t + ttl (interval_secs beat))%N))) as Hl.
  { unfold heard in Hh. repeat case_match; simplify_eq; apply lookup_insert_eq. }
  rewrite (online_run_quiet m _ _ _ Hl).
  - simpl. destruct (leaving beat); naive_solver.
  - eapply Forall_impl; [done|]. by intros [].
Qed.
End runs.

(** ** The clock alone *)

(** The loop woken by its own deadlines, and by nothing else. *)
Fixpoint drain (fuel : nat) (o : Online) : Online :=
  match fuel with
  | O => o
  | S fuel => match next_expiry o with
              | None => o
              | Some t => drain fuel (expire t o)
              end
  end.

(** Hearing nothing, the loop wakes at most once per member online and
    then has no deadline left and nobody online. *)
Theorem silence_ends o :
  next_expiry (drain (size (online o)) o) = None ∧ online (drain (size (online o)) o) = ∅.
Proof.
  rewrite next_expiry_none. assert (∀ n o, size (online o) ≤ n → online (drain n o) = ∅) as Hd.
  { clear o. induction n as [|n IH]; intros o Hn.
    - apply leibniz_equiv, size_empty_inv. simpl. lia.
    - simpl. destruct (next_expiry o) as [t|] eqn:E; [|by apply next_expiry_none].
      apply IH. apply expire_shrinks in E. lia. }
  by rewrite Hd.
Qed.

(** ** Concrete runs *)

Lemma believed_for_three_intervals_witness :
  let s := stretch (60 * SECOND) 120 in
  (3 * s ≤ ttl (whole_seconds s))%N ∧ (198 * SECOND + 198 * SECOND ≤ ttl (whole_seconds s))%N.
Proof.
  refine (believed_for_three_intervals (60 * SECOND) 120 (198 * SECOND) (198 * SECOND) _ _ _); by vm_compute.
Defined.

Lemma online_for_its_ttl_witness :
  let o' := (heard (beat 2 7 5) 0 anyone (new_online (member 1))).1 in
  member 2 ∈ online (foldl online_step o' [Hear (goodbye 2 7 4) 1 anyone; RunOut (100 * SECOND)]) ↔
  false = false ∧ ∀ now, RunOut now ∈ [Hear (goodbye 2 7 4) 1 anyone; RunOut (100 * SECOND)] →
    (now < 0 + ttl 60)%N.
Proof.
  refine (online_for_its_ttl (beat 2 7 5) 0 anyone (new_online (member 1)) _ _ _ _).
  - reflexivity.
  - repeat constructor.
Defined.

(** Two beats lost in a row, each gap a tenth long, take their sender offline
    before the third arrives: the time a beat is believed for leaves no room
    for the jitter it is sent with. *)
Theorem two_lost_beats_can_take_offline :
  let gap := (66 * SECOND)%N in
  (10 * gap ≤ 11 * stretch (60 * SECOND) 3)%N ∧
  let o := (heard (beat 2 7 1) 0 anyone (new_online (member 1))).1 in
  ∃ deadline, next_expiry o = Some deadline ∧ (deadline < 3 * gap)%N ∧ online (expire deadline o) = ∅.
Proof.
  split; [by vm_compute|]. exists (180 * SECOND)%N. split; [by vm_compute|]. split; [by vm_compute|].
  by_decision.
Qed.

(** A beat of an earlier run brings a member back that said goodbye in a later
    one: only the run a beat is from is compared, and the run held is not
    remembered as newer. *)
Theorem earlier_run_revives :
  let o := foldl online_step (new_online (member 1))
             [Hear (beat 2 7 1) 0 anyone; Hear (beat 2 8 1) (60 * SECOND) anyone;
              Hear (goodbye 2 8 2) (90 * SECOND) anyone] in
  online o = ∅ ∧ online (online_step o (Hear (beat 2 7 1) (100 * SECOND) anyone)) = {[member 2]}.
Proof.
  split; by_decision.
Qed.
