(* ===== verification/Directory.v ===== *)
(** * Where members can be reached

    [crates/distlib-core/src/addr.rs], [crates/distlib-net/src/directory.rs]
    and [addresses.rs]. iroh's relay urls and its [MemoryLookup] are the class
    [Lookup]: what is read of them is that adding merges, that removing
    forgets, and that what is answered is what was put. *)

From S2P Require Import Prelude Ids GroupSettings Events Membership Fixtures Holders Heartbeats HeartbeatFixtures.

(** iroh's urls, addresses and lookup. *)
Class Lookup : Type := {
  RelayUrl : Type;
  EndpointAddr : Type;
  #[export] EndpointAddr_eq_dec :: EqDecision EndpointAddr;
  (** [str::parse], [Display]. *)
  parse_relay : string → option RelayUrl;
  show_relay : RelayUrl → string;
  (** [EndpointAddr::new], [with_ip_addr], [with_relay_url], and what it
      carries. *)
  endpoint_new : MemberId → EndpointAddr;
  with_ip_addr : SocketAddr → EndpointAddr → EndpointAddr;
  with_relay_url : RelayUrl → EndpointAddr → EndpointAddr;
  endpoint_id : EndpointAddr → MemberId;
  relay_urls : EndpointAddr → list RelayUrl;
  ip_addrs : EndpointAddr → gset SocketAddr;
  (** [MemoryLookup]. *)
  MemoryLookup : Type;
  empty_lookup : MemoryLookup;
  get_endpoint_info : MemberId → MemoryLookup → option EndpointAddr;
  add_endpoint_info : EndpointAddr → MemoryLookup → MemoryLookup;
  remove_endpoint_info : MemberId → MemoryLookup → MemoryLookup;
}.

(** The documented behaviour the directory relies on. *)
Class LookupLaws `{Lookup} : Prop := {
  get_empty m : get_endpoint_info m empty_lookup = None;
  get_replaced a l : get_endpoint_info (endpoint_id a) (add_endpoint_info a (remove_endpoint_info (endpoint_id a) l)) = Some a;
  get_other a m l :
    m ≠ endpoint_id a → get_endpoint_info m (add_endpoint_info a l) = get_endpoint_info m l;
  get_removed_other m m' l : m' ≠ m → get_endpoint_info m' (remove_endpoint_info m l) = get_endpoint_info m' l;
  new_id m : endpoint_id (endpoint_new m) = m;
  new_ips m : ip_addrs (endpoint_new m) = ∅;
  new_relays m : relay_urls (endpoint_new m) = [];
  ip_id s a : endpoint_id (with_ip_addr s a) = endpoint_id a;
  ip_ips s a : ip_addrs (with_ip_addr s a) = {[s]} ∪ ip_addrs a;
  ip_relays s a : relay_urls (with_ip_addr s a) = relay_urls a;
  relay_id u a : endpoint_id (with_relay_url u a) = endpoint_id a;
  relay_ips u a : ip_addrs (with_relay_url u a) = ip_addrs a;
  relay_first u a : relay_urls a = [] → relay_urls (with_relay_url u a) = [u];
}.

(** ** [NodeAddr] and what iroh dials *)

Section addr.
Context `{Lookup}.

(** [NodeAddr::to_endpoint_addr]; the error is [BadRelayUrl]. *)
Definition to_endpoint_addr (m : MemberId) (a : NodeAddr) : result (MemberId * string) EndpointAddr :=
  let addr := foldr with_ip_addr (endpoint_new m) (elements (direct a)) in
  match relay a with
  | None => Ok addr
  | Some url => match parse_relay url with
                | Some u => Ok (with_relay_url u addr)
                | None => Err (m, url)
                end
  end.

(** [NodeAddr::from]. *)
Definition from_endpoint_addr (a : EndpointAddr) : NodeAddr :=
  {| relay := show_relay <$> head (relay_urls a); direct := ip_addrs a |}.

(** [AddressBook::learn]. *)
Definition book_learn (m : MemberId) (a : NodeAddr) (book : MemoryLookup) : MemoryLookup :=
  if addr_is_empty a then book
  else match to_endpoint_addr m a with
       | Ok addr => add_endpoint_info addr book
       | Err _ => book
       end.

(** [AddressBook::learn_all]. *)
Definition learn_all (members : list (MemberId * NodeAddr)) (book : MemoryLookup) : MemoryLookup :=
  foldl (λ book '(m, a), book_learn m a book) book members.
End addr.

(** ** The directory *)

Section directory.
Context `{HeartbeatCodec} `{Lookup}.

Record Directory : Type := MkDirectory {
  dir_lookup : MemoryLookup;
  signed_addresses : gmap MemberId SignedAddress;
  learned : N;
}.

Definition default_directory : Directory := MkDirectory empty_lookup ∅ 0.

(** [Directory::learn]; the error is [NetError::BadAddress]. *)
Definition learn (announced : SignedAddress) : fallible Directory (MemberId * CoreError) bool := λ d,
  let member := address_member announced in
  match address_of announced with
  | Err source => (d, Err (member, source))
  | Ok addr =>
      if addr_is_empty addr then (d, Ok false)
      else match to_endpoint_addr member addr with
      | Err _ => (d, Ok false)
      | Ok endpoint_addr =>
          if (match signed_addresses d !! member with
              | Some held => bool_decide (address_applied announced < address_applied held)%N
              | None => false
              end)
          then (d, Ok false)
          else if decide (get_endpoint_info member (dir_lookup d) = Some endpoint_addr) then
            (MkDirectory (dir_lookup d) (<[member := announced]> (signed_addresses d)) (learned d), Ok false)
          else
            (MkDirectory (add_endpoint_info endpoint_addr (remove_endpoint_info member (dir_lookup d)))
               (<[member := announced]> (signed_addresses d)) (wrap64 (learned d + 1)), Ok true)
      end
  end.

Definition position_of (d : Directory) (m : MemberId) : option N := address_applied <$> signed_addresses d !! m.

(** [Directory::everything], in the order of the [BTreeMap]. *)
Definition everything (d : Directory) : list SignedAddress := (map_entries (signed_addresses d)).*2.

(** [Directory::address_of]. *)
Definition directory_address_of (d : Directory) (m : MemberId) : option NodeAddr :=
  from_endpoint_addr <$> get_endpoint_info m (dir_lookup d).
End directory.

(** ** Lemmas *)

Section lemmas.
Context `{HeartbeatCodec} `{LookupLaws}.

Lemma foldr_ips m ips :
  let a := foldr with_ip_addr (endpoint_new m) ips in
  endpoint_id a = m ∧ ip_addrs a = list_to_set ips ∧ relay_urls a = [].
Proof.
  induction ips as [|s ips (Hi & Hs & Hr)]; simpl.
  - by rewrite new_id, new_ips, new_relays.
  - by rewrite ip_id, ip_ips, ip_relays, Hi, Hs, Hr.
Qed.

(** What is dialled carries the member, its sockets and its one relay. *)
Lemma to_endpoint_addr_spec m a addr :
  to_endpoint_addr m a = Ok addr →
  endpoint_id addr = m ∧ ip_addrs addr = direct a ∧
  match relay a with
  | None => relay_urls addr = []
  | Some url => ∃ u, parse_relay url = Some u ∧ relay_urls addr = [u]
  end.
Proof.
  unfold to_endpoint_addr. pose proof (foldr_ips m (elements (direct a))) as (Hi & Hs & Hr).
  rewrite list_to_set_elements_L in Hs. destruct (relay a) as [url|]; [|by intros [= <-]].
  destruct (parse_relay url) as [u|]; [|done]. intros [= <-].
  rewrite relay_id, relay_ips, Hi, Hs. split_and!; [done..|]. exists u. by rewrite relay_first.
Qed.
End lemmas.

(** ** Properties of the directory

    What is held of a member is signed by it, is the newest said, and is what
    iroh would dial; answering that something changed means that it did. *)

Section props.
Context `{HeartbeatCodec} `{LookupLaws}.

(** A held statement is its member's own, verifies, and is what the lookup
    answers; the lookup answers for nobody else. *)
Definition held_true (m : MemberId) (held : option SignedAddress) (dialled : option EndpointAddr) : Prop :=
  match held with
  | Some a => address_member a = m ∧ address_of a = Ok (address_addr a) ∧ addr_is_empty (address_addr a) = false ∧
      ∃ endpoint, to_endpoint_addr m (address_addr a) = Ok endpoint ∧ dialled = Some endpoint
  | None => dialled = None
  end.

Definition directory_true (d : Directory) : Prop :=
  ∀ m, held_true m (signed_addresses d !! m) (get_endpoint_info m (dir_lookup d)).

Lemma default_directory_true : directory_true default_directory.
Proof. intros m. simpl. apply get_empty. Qed.

Lemma address_of_ok a addr : address_of a = Ok addr → addr = address_addr a.
Proof. unfold address_of. destruct (verify_address a); by intros [= <-]. Qed.

(** What [learn] leaves of the member it is about, and of the others. *)
Definition learns (a : SignedAddress) (d d' : Directory) (r : result (MemberId * CoreError) bool) : Prop :=
  let m := address_member a in
  directory_true d' ∧
  (∀ m', m' ≠ m → signed_addresses d' !! m' = signed_addresses d !! m' ∧
     get_endpoint_info m' (dir_lookup d') = get_endpoint_info m' (dir_lookup d)) ∧
  (signed_addresses d' !! m = signed_addresses d !! m ∨
   signed_addresses d' !! m = Some a ∧ ∀ n, position_of d m = Some n → (n ≤ address_applied a)%N) ∧
  (r = Ok true ↔ get_endpoint_info m (dir_lookup d') ≠ get_endpoint_info m (dir_lookup d)) ∧
  learned d' = if decide (r = Ok true) then wrap64 (learned d + 1) else learned d.

Lemma learns_nothing a d r : r ≠ Ok true → directory_true d → learns a d d r.
Proof.
  intros Hr Hd. split_and!; [done | done | by left | naive_solver | by rewrite decide_False].
Qed.

(** A statement put in place of the one held. *)
Lemma learns_put a d endpoint l r n :
  directory_true d →
  address_of a = Ok (address_addr a) → addr_is_empty (address_addr a) = false →
  to_endpoint_addr (address_member a) (address_addr a) = Ok endpoint →
  (∀ n, position_of d (address_member a) = Some n → (n ≤ address_applied a)%N) →
  get_endpoint_info (address_member a) l = Some endpoint →
  (∀ m', m' ≠ address_member a → get_endpoint_info m' l = get_endpoint_info m' (dir_lookup d)) →
  (r = Ok true ↔ Some endpoint ≠ get_endpoint_info (address_member a) (dir_lookup d)) →
  n = (if decide (r = Ok true) then wrap64 (learned d + 1) else learned d) →
  learns a d (MkDirectory l (<[address_member a := a]> (signed_addresses d)) n) r.
Proof.
  intros Hd Ha He Hto Hn Hget Ho Hr ->. split_and!.
  - intros m. simpl. destruct (decide (m = address_member a)) as [->|Hne].
    + rewrite lookup_insert_eq, Hget. simpl. split_and!; [done..|]. by exists endpoint.
    + rewrite lookup_insert_ne, Ho by done. apply Hd.
  - intros m' Hne. simpl. by rewrite lookup_insert_ne, Ho.
  - right. simpl. by rewrite lookup_insert_eq.
  - simpl. by rewrite Hget.
  - done.
Qed.

Lemma learn_learns a d d' r :
  directory_true d → learn a d = (d', r) → learns a d d' r.
Proof.
  intros Hd. unfold learn. destruct (address_of a) as [addr|e] eqn:Ea; [|by intros [= <- <-]; apply learns_nothing].
  assert (addr = address_addr a) as -> by (by apply address_of_ok).
  destruct (addr_is_empty (address_addr a)) eqn:Ee; [by intros [= <- <-]; apply learns_nothing|].
  destruct (to_endpoint_addr _ _) as [endpoint|e] eqn:Et; [|by intros [= <- <-]; apply learns_nothing].
  destruct (match signed_addresses d !! _ with Some _ => _ | None => _ end) eqn:En;
    [by intros [= <- <-]; apply learns_nothing|].
  assert (∀ n, position_of d (address_member a) = Some n → (n ≤ address_applied a)%N) as Hn.
  { unfold position_of. intros n (held & Hl & ->)%fmap_Some. rewrite Hl in En.
    apply bool_decide_eq_false in En. lia. }
  pose proof (to_endpoint_addr_spec _ _ _ Et) as (Hid & _). rewrite <-Hid.
  case_decide as Hheld; intros [= <- <-]; rewrite Hid in *.
  - by eapply learns_put.
  - eapply learns_put; try done.
    + rewrite <-Hid. apply get_replaced.
    + intros m' Hne. rewrite get_other by (by rewrite Hid). apply get_removed_other. done.
Qed.

(** The directory holds only statements its members signed, each the
    newest by log position that it accepted, and iroh dials exactly what they
    say; learning one touches no other member, never goes back to an earlier
    position, and answers that something changed, and counts it, exactly when
    where the member is dialled did. *)
Theorem directory_dials_what_is_signed a d d' r :
  directory_true d → learn a d = (d', r) → learns a d d' r.
Proof. apply learn_learns. Qed.
End props.

(** ** A concrete run *)

#[export] Instance test_lookup : Lookup := {|
  RelayUrl := string;
  EndpointAddr := MemberId * list string * gset SocketAddr;
  EndpointAddr_eq_dec := _;
  parse_relay s := Some s;
  show_relay s := s;
  endpoint_new m := (m, [], ∅);
  with_ip_addr s a := (a.1, {[s]} ∪ a.2);
  with_relay_url u a := (a.1.1, u :: a.1.2, a.2);
  endpoint_id a := a.1.1;
  relay_urls a := a.1.2;
  ip_addrs a := a.2;
  MemoryLookup := gmap MemberId (MemberId * list string * gset SocketAddr);
  empty_lookup := ∅;
  get_endpoint_info m l := l !! m;
  add_endpoint_info a l :=
    <[a.1.1 := match l !! a.1.1 with
               | Some b => (a.1.1, a.1.2 ++ b.1.2, a.2 ∪ b.2)
               | None => a
               end]> l;
  remove_endpoint_info m l := delete m l;
|}.

#[export] Instance test_lookup_laws : LookupLaws.
Proof.
  constructor; simpl; try done.
  - intros a l. by rewrite lookup_delete_eq, lookup_insert_eq.
  - intros a m l Hne. by rewrite lookup_insert_ne.
  - intros m m' l Hne. by rewrite lookup_delete_ne.
  - intros u a Hr. by rewrite Hr.
Qed.

Definition moved : SignedAddress :=
  let addr := {| relay := None; direct := {[SocketV4 7 7]} |} in
  MkSignedAddress (member 2) addr 5 (member 2, ADDRESS_DOMAIN ++ [5%N]).

Lemma directory_dials_what_is_signed_witness :
  learns moved default_directory (learn moved default_directory).1 (learn moved default_directory).2 ∧
  (learn moved default_directory).2 = Ok true.
Proof.
  split; [|by vm_compute].
  refine (directory_dials_what_is_signed moved default_directory _ _ _ _).
  - intros m. reflexivity.
  - reflexivity.
Defined.
