(* ===== verification/Statements.v ===== *)
(** * What a beat states of the items held

    [crates/distlib-sync/src/availability/statement.rs]: the last list
    published, and the holdings stated against it. The blob store is outside:
    whether it takes a list is an argument, and the hash it answers is the
    blake3 of the bytes. [SyncError] is of [crates/distlib-sync/src/error.rs],
    as far as the modelled parts raise it. *)

From S2P Require Import Prelude Ids GroupSettings Events Holders Heartbeats Online.

Inductive SyncError : Type :=
| DocumentStore (path message : string)
| Docs (doing message : string)
| MissingContent (hash : string)
| Content (doing message : string)
| NoGroupYet
| LocalFile (path message : string)
| NoEpoch (message : string)
| BaseFetch (member : MemberId) (message : string)
| BaseTooBig (member : MemberId) (size : N)
| BadBase (member : MemberId) (source : CoreError).

#[export] Instance SyncError_eq_dec : EqDecision SyncError.
Proof. solve_decision. Defined.

Definition QUIET : N := 10 * 60 * SECOND.

(** A published list: its hash, and the set it lists. *)
Record Base : Type := MkBase { base_hash : ContentHash; base_items : gset ItemId }.

Record Statement : Type := MkStatement { statement_base : option Base }.

Definition new_statement : Statement := MkStatement None.

(** [Statement::delta]: what [held] adds to the base, and what it no longer
    has of it. *)
Definition delta (held : gset ItemId) (s : Statement) : list ItemId * list ItemId :=
  match statement_base s with
  | None => (set_entries held, [])
  | Some base => (set_entries (held ∖ base_items base), set_entries (base_items base ∖ held))
  end.

Section statement.
Context `{Crypto}.

(** [Statement::publish], the store taking the list or not. *)
Definition publish (stored : result string unit) (held : gset ItemId) : fallible Statement SyncError unit := λ s,
  match stored with
  | Err message => (s, Err (Content "published the list of items held here" message))
  | Ok _ => (MkStatement (Some (MkBase (MkContentHash (blake3 (encode_base (elements held)))) held)), Ok tt)
  end.

(** Whether [delta] is too much for a beat, or has been quiet long enough. *)
Definition must_publish (size : nat) (changed_at now : N) : bool :=
  bool_decide (DELTA_MAX < size) || (bool_decide (0 < size) && bool_decide (QUIET ≤ now - changed_at)%N).

(** [Statement::holdings]. *)
Definition state_holdings (stored : result string unit) (held : gset ItemId) (changed_at now : N)
  : fallible Statement SyncError Holdings :=
  s ←! fget ;;
  let '(added, removed) := delta held s in
  delta' ←! (if must_publish (length added + length removed) changed_at now
             then (publish stored held ;! fret ([], [])) else fret (added, removed)) ;;
  s ←! fget ;;
  fret (MkHoldings (N.min (N.of_nat (size held)) u64_max) (base_hash <$> statement_base s) delta'.1 delta'.2).
End statement.

(** ** What a statement says *)

(** The set a base names, given the set behind each hash. *)
Definition base_set (lists : ContentHash → gset ItemId) (base : option ContentHash) : gset ItemId :=
  match base with Some h => lists h | None => ∅ end.

(** [hs] states that [held] is held. *)
Definition states (lists : ContentHash → gset ItemId) (held : gset ItemId) (hs : Holdings) : Prop :=
  let base := base_set lists (stated_base hs) in
  stated_added hs = set_entries (held ∖ base) ∧ stated_removed hs = set_entries (base ∖ held) ∧
  stated_count hs = N.of_nat (size held).

Lemma list_to_set_entries (s : gset ItemId) : list_to_set (set_entries s) = s.
Proof.
  apply set_eq. intros x. unfold set_entries. rewrite elem_of_list_to_set, elem_of_sort_keys. apply elem_of_elements.
Qed.

(** A change puts the base it is stated against where the sender is. *)
Lemma states_change lists held hs :
  states lists held hs → change_of hs (base_set lists (stated_base hs)) = held.
Proof.
  intros (Ha & Hr & _). unfold change_of. rewrite Ha, Hr, !list_to_set_entries.
  generalize (base_set lists (stated_base hs)). intros base.
  apply set_eq. intros x. rewrite !elem_of_difference, elem_of_union, elem_of_difference.
  destruct (decide (x ∈ held)), (decide (x ∈ base)); tauto.
Qed.

(** Taking the change back leads to the base again. *)
Lemma states_undo lists held hs :
  states lists held hs →
  (list_to_set (stated_removed hs) ∪ held) ∖ list_to_set (stated_added hs) = base_set lists (stated_base hs).
Proof.
  intros (-> & -> & _). rewrite !list_to_set_entries. generalize (base_set lists (stated_base hs)). intros base.
  apply set_eq. intros x. rewrite !elem_of_difference, elem_of_union, elem_of_difference.
  destruct (decide (x ∈ held)), (decide (x ∈ base)); tauto.
Qed.

(** The lists agree with what the sender published last. *)
Definition published_in (lists : ContentHash → gset ItemId) (s : Statement) : Prop :=
  match statement_base s with Some b => lists (base_hash b) = base_items b | None => True end.

Section props.
Context `{Crypto}.

(** What [state_holdings] did: it stated against the base it had, or
    published the set and stated nothing more, or could not publish. *)
Lemma state_holdings_cases stored held changed_at now s :
  let publishes := must_publish (length (delta held s).1 + length (delta held s).2) changed_at now in
  let base := MkBase (MkContentHash (blake3 (encode_base (elements held)))) held in
  let count := N.min (N.of_nat (size held)) u64_max in
  state_holdings stored held changed_at now s =
  if publishes then
    match stored with
    | Ok _ => (MkStatement (Some base), Ok (MkHoldings count (Some (base_hash base)) [] []))
    | Err message => (s, Err (Content "published the list of items held here" message))
    end
  else (s, Ok (MkHoldings count (base_hash <$> statement_base s) (delta held s).1 (delta held s).2)).
Proof.
  cbn zeta. unfold state_holdings. run. destruct (delta held s) as [added removed]. simpl.
  destruct (must_publish _ _ _); [|done]. unfold publish. by destruct stored.
Qed.

Lemma delta_set lists held s :
  published_in lists s →
  delta held s = (set_entries (held ∖ base_set lists (base_hash <$> statement_base s)),
                  set_entries (base_set lists (base_hash <$> statement_base s) ∖ held)).
Proof.
  unfold published_in, delta. destruct (statement_base s) as [b|]; simpl; [by intros ->|].
  intros _. rewrite difference_empty_L, (subseteq_empty_difference_L ∅ held); [done | apply empty_subseteq].
Qed.

Lemma state_holdings_true lists stored held changed_at now s s' r :
  published_in lists s → published_in lists s' → (N.of_nat (size held) ≤ u64_max)%N →
  state_holdings stored held changed_at now s = (s', r) →
  match r with
  | Ok hs =>
      states lists held hs ∧ stated_base hs = base_hash <$> statement_base s' ∧
      length (stated_added hs) + length (stated_removed hs) ≤ DELTA_MAX ∧
      ((QUIET ≤ now - changed_at)%N → stated_added hs = [] ∧ stated_removed hs = [])
  | Err _ => s' = s ∧ is_ok stored = false
  end.
Proof.
  intros Hp Hp' Hn. rewrite state_holdings_cases. pose proof (delta_set lists held s Hp) as Hd.
  destruct (must_publish _ _ _) eqn:Em.
  - destruct stored as [[]|message]; intros [= <- <-]; [|done].
    unfold published_in in Hp'. simpl in Hp'. unfold states. simpl. rewrite Hp', difference_diag_L.
    split_and!; [done | done | lia | done | lia | done].
  - intros [= <- <-]. unfold states. simpl. rewrite Hd in Em |- *. simpl in Em |- *.
    apply orb_false_iff in Em as [Hmax Hquiet]. apply bool_decide_eq_false in Hmax.
    split_and!; [done | done | lia | done | lia |].
    intros Hq. rewrite (bool_decide_true (QUIET ≤ _)%N), andb_true_r in Hquiet by done.
    apply bool_decide_eq_false in Hquiet. split; apply length_zero_iff_nil; lia.
Qed.

(** What a beat states is true: the list it names, or no list, and the
    change since make exactly the set held, and their count; the change fits
    a beat, and is empty once the set has been quiet ten minutes. A list that
    cannot be published is an error that changes nothing, never a smaller
    statement. *)
Theorem statement_is_true lists stored held changed_at now s s' r :
  published_in lists s → published_in lists s' → (N.of_nat (size held) ≤ u64_max)%N →
  state_holdings stored held changed_at now s = (s', r) →
  match r with
  | Ok hs =>
      states lists held hs ∧ stated_base hs = base_hash <$> statement_base s' ∧
      length (stated_added hs) + length (stated_removed hs) ≤ DELTA_MAX ∧
      ((QUIET ≤ now - changed_at)%N → stated_added hs = [] ∧ stated_removed hs = [])
  | Err _ => s' = s ∧ is_ok stored = false
  end.
Proof. apply state_holdings_true. Qed.
End props.
