(* ===== verification/Listening.v ===== *)
(** * Hearing the group's heartbeats

    [crates/distlib-sync/src/availability/heartbeat.rs]: what one message
    changes, [hear]; what a fetched list changes, [take_in]; and the loop
    around them, whose [select!] is told by a [Turn]. A fetch runs beside the
    loop and ends in a turn of its own; [running] is its [JoinSet]. The
    network, the clock and the membership of the moment are what a turn
    carries. The events told are kept for the theorems. *)

From stdpp Require Import strings.
From S2P Require Import Prelude Ids GroupSettings Events Heartbeats Directory Statements.
From S2P Require Holders Online.

Section listening.
Context `{HeartbeatCodec} `{Lookup}.

(** [Fetch]. *)
Notation Fetch := (MemberId * ContentHash)%type.

Record Listening : Type := MkListening {
  l_online : Online.Online;
  l_holders : Holders.Holders;
  l_directory : Directory;
  running : list Fetch;
  published : gset MemberId;
  told : list MemberId;
}.

Definition start (me : MemberId) : Listening :=
  MkListening (Online.new_online me) Holders.default_holders default_directory [] ∅ [].

(** [Directory::learn] as [hear] calls it, an error only logged. *)
Definition learn_address (a : SignedAddress) (d : Directory) : Directory := (learn a d).1.

(** [hear]. *)
Definition hear (group : GroupId) (now : N) (is_member : MemberId → bool) (content : list N) (l : Listening)
  : option (Listening * result CoreError (option Fetch)) :=
  match (signed ←? decode_heartbeat content ;; open_heartbeat group signed) with
  | Err e => Some (l, Err e)
  | Ok beat =>
      let '(online, news) := Online.heard beat now is_member (l_online l) in
      if negb news then Some (l, Ok None)
      else
        let directory := learn_address (beat_address beat) (l_directory l) in
        let member := address_member (beat_address beat) in
        '(holders, heard) ← Holders.heard member (beat_holdings beat) (l_holders l);
        let told' := if Holders.changed heard then told l ++ [member] else told l in
        Some (MkListening online holders directory (running l) (published l) told',
              Ok ((member,.) <$> Holders.fetch heard))
  end.

(** [worth_retrying]: only reaching the member can end differently. *)
Definition worth_retrying (e : SyncError) : bool := match e with BaseFetch _ _ => true | _ => false end.

Definition BASE_BYTES_MAX : N := 1 + 32 * BASE_MAX.

(** [fetch]: the size is asked first, and a list that is too big is refused
    before it is read. Connecting, asking the size and reading the blob may
    each fail. *)
Definition fetch_base (member : MemberId) (connected : result string unit) (verified_size : result string N)
    (blob : result string (list N)) : result SyncError (list N) :=
  match connected with
  | Err e => Err (BaseFetch member e)
  | Ok _ =>
      match verified_size with
      | Err e => Err (BaseFetch member e)
      | Ok size =>
          if bool_decide (BASE_BYTES_MAX < size)%N then Err (BaseTooBig member size)
          else match blob with Err e => Err (BaseFetch member e) | Ok bytes => Ok bytes end
      end
  end.

(** [take_in]. *)
Definition take_in (wanted : Fetch) (fetched : result SyncError (list N)) (l : Listening) : option Listening :=
  let '(member, base) := wanted in
  let could_not error :=
    Some (MkListening (l_online l) (Holders.failed member base (worth_retrying error) (l_holders l))
            (l_directory l) (running l) (published l) (told l)) in
  match fetched with
  | Err error => could_not error
  | Ok bytes =>
      match decode_base bytes with
      | Err source => could_not (BadBase member source)
      | Ok items =>
          '(holders, taken) ← Holders.arrived member base items (l_holders l);
          Some (MkListening (l_online l) holders (l_directory l) (running l) (published l)
                  (if taken : bool then told l ++ [member] else told l))
      end
  end.

(** The end of a loop turn: who is online is published, and told, if it
    changed. *)
Definition publish_online (l : Listening) : Listening :=
  let now := Online.online (l_online l) in
  if decide (published l = now) then l
  else MkListening (l_online l) (l_holders l) (l_directory l) (running l) now
         (told l ++ set_entries ((published l ∖ now) ∪ (now ∖ published l))).

(** Which branch of [select!] is taken, or which fetch ends, and with what. *)
Inductive Turn : Type :=
| Received (content : list N) (now : N) (is_member : MemberId → bool)
| Deadline (now : N)
| MembersChanged (is_member : MemberId → bool)
| Fetched (wanted : Fetch) (fetched : result SyncError (list N)).

Definition set_running (r : list Fetch) (l : Listening) : Listening :=
  MkListening (l_online l) (l_holders l) (l_directory l) r (published l) (told l).

(** A message heard, and the fetch it asks for spawned. *)
Definition received (group : GroupId) (now : N) (is_member : MemberId → bool) (content : list N) (l : Listening)
  : option Listening :=
  '(l, heard) ← hear group now is_member content l;
  Some (match heard with
        | Ok (Some fetch) => set_running (running l ++ [fetch]) l
        | _ => l
        end).

(** The membership changed: whoever left is forgotten. *)
Definition members_changed (is_member : MemberId → bool) (l : Listening) : Listening :=
  MkListening (Online.retain_online is_member (l_online l)) (Holders.retain_holders is_member (l_holders l))
    (l_directory l) (running l) (published l) (told l).

(** One running fetch less. *)
Fixpoint end_one (wanted : Fetch) (r : list Fetch) : list Fetch :=
  match r with
  | [] => []
  | f :: r => if decide (f = wanted) then r else f :: end_one wanted r
  end.

(** One turn of [listen], or a fetch that ends. *)
Definition turn (group : GroupId) (t : Turn) (l : Listening) : option Listening :=
  match t with
  | Received content now is_member => publish_online <$> received group now is_member content l
  | Deadline now =>
      Some (publish_online (MkListening (Online.expire now (l_online l)) (l_holders l) (l_directory l)
                              (running l) (published l) (told l)))
  | MembersChanged is_member => Some (publish_online (members_changed is_member l))
  | Fetched wanted fetched => set_running (end_one wanted (running l)) <$> take_in wanted fetched l
  end.

(** [listen], from the start; [None] is a panic. *)
Definition listen (group : GroupId) (turns : list Turn) (l : Listening) : option Listening :=
  try_fold (λ l t, turn group t l) l turns.
End listening.
