(* ===== verification/AvailabilityProps.v ===== *)
(** * Properties of who holds what

    What the map says a member holds is what the member held when it said so,
    whatever beats were lost on the way; no statement, true or not, makes the
    map panic or touches another member's items; and nobody is waited for
    whose list is not being fetched. *)

From S2P Require Import Prelude Ids GroupSettings Events Membership Holders Heartbeats.
From S2P Require Import Statements Fixtures HeartbeatFixtures.
From S2P Require Online.

(** ** Runs of the map *)

Inductive HolderStep : Type :=
| SHeard (m : MemberId) (hs : Holdings)
| SArrived (m : MemberId) (base : ContentHash) (items : list ItemId)
| SFailed (m : MemberId) (base : ContentHash) (retry : bool)
| SRetain (is_member : MemberId → bool)
| SProbed (failed : gset (MemberId * ItemId)).

Definition holder_step (h : Holders) (s : HolderStep) : option Holders :=
  match s with
  | SHeard m hs => fst <$> heard m hs h
  | SArrived m base items => fst <$> arrived m base items h
  | SFailed m base retry => Some (failed m base retry h)
  | SRetain is_member => Some (retain_holders is_member h)
  | SProbed failed => Some (set_failed_copies failed h).1
  end.

(** The newest beat of [m] in a run. *)
Definition last_beat (m : MemberId) (steps : list HolderStep) : option Holdings :=
  last (omap (λ s, if s is SHeard m' hs then (if decide (m' = m) then Some hs else None) else None) steps).

Section truth.
Context (lists : ContentHash → gset ItemId) (m : MemberId).

(** What [m] states is true, and the lists that arrive are those named. *)
Definition truthful (s : HolderStep) : Prop :=
  match s with
  | SHeard m' hs => m' = m → ∃ held, states lists held hs
  | SArrived m' base items => m' = m → list_to_set items = lists base
  | _ => True
  end.

(** Where the map is with [m], its newest beat being [beat], [steps] behind
    it. *)
Definition agrees (beat : option Holdings) (steps : list HolderStep) (h : Holders) : Prop :=
  match stated h !! m with
  | None => beat = None ∨ ∃ f, SRetain f ∈ steps ∧ f m = false
  | Some (Unknown base latest _) =>
      beat = Some latest ∧ stated_base latest = Some base ∧ ∃ held, states lists held latest
  | Some (Known base added removed _) =>
      ∃ hs held, beat = Some hs ∧ stated_base hs = base ∧ stated_added hs = added ∧ stated_removed hs = removed ∧
        states lists held hs ∧ items_of h m = held
  | Some (Broken base) => ∃ b, base = Some b ∧ SFailed m b false ∈ steps
  end.

Lemma last_beat_snoc steps s :
  last_beat m (steps ++ [s]) = match s with
                               | SHeard m' hs => if decide (m' = m) then Some hs else last_beat m steps
                               | _ => last_beat m steps
                               end.
Proof.
  unfold last_beat. rewrite omap_app, last_app.
  destruct s as [m' hs| | | |]; simpl; [by destruct (decide (m' = m))|done..].
Qed.

(** A true statement against its own base always adds up. *)
Lemma restated_true hs held h' :
  states lists held hs → restated hs (stated_base hs) (base_set lists (stated_base hs)) h' m →
  ∀ steps, agrees (Some hs) steps h'.
Proof.
  intros Hs. unfold restated. rewrite (states_change _ _ _ Hs).
  rewrite bool_decide_true by (by destruct Hs as (_ & _ & ->)). intros [Hst Hit] steps.
  unfold agrees. rewrite Hst. exists hs, held. by split_and!.
Qed.

Lemma agrees_anew steps hs h h' told :
  wf h → (∃ held, states lists held hs) → heard_anew m hs h = Some (h', told) → agrees (Some hs) steps h'.
Proof.
  intros Hw [held Hs] Hh. destruct (heard_anew_spec m hs h Hw) as (h'' & Ha & _ & _ & Hst).
  rewrite Ha in Hh. simplify_eq. destruct (stated_base hs) as [base|] eqn:E.
  - unfold agrees. rewrite Hst. eauto.
  - eapply restated_true; [done|]. by rewrite E.
Qed.

Lemma agrees_heard steps hs h h' told :
  wf h → (∃ held, states lists held hs) → agrees (last_beat m steps) steps h →
  heard m hs h = Some (h', told) → agrees (Some hs) (steps ++ [SHeard m hs]) h'.
Proof.
  intros Hw Hs Hag Hh. unfold heard in Hh.
  destruct (stated h !! m) as [[base latest fetching|base added removed n|base]|] eqn:E;
    try (destruct (bool_decide _) eqn:Hb; [apply bool_decide_eq_true in Hb|by eapply agrees_anew]);
    [| | | by eapply agrees_anew].
  - simplify_eq. unfold agrees. simpl. rewrite lookup_insert_eq. eauto.
  - destruct (restate_spec m hs h base added removed n Hw E) as (h'' & Hr & _ & _ & Hre).
    rewrite Hr in Hh. simpl in Hh. simplify_eq. unfold agrees in Hag. rewrite E in Hag.
    destruct Hag as (hs0 & held0 & _ & Hb0 & <- & <- & Hs0 & Hit). rewrite Hit in Hre.
    rewrite (states_undo _ _ _ Hs0), Hb0 in Hre. destruct Hs as [held Hs]. by eapply restated_true.
  - simplify_eq. unfold agrees in Hag |- *. rewrite E in Hag |- *. destruct Hag as (b & -> & Hin).
    exists b. split; [done|]. apply elem_of_app. by left.
Qed.

Lemma agrees_more beat steps s h : agrees beat steps h → agrees beat (steps ++ [s]) h.
Proof.
  unfold agrees. destruct (stated h !! m) as [[]|]; try setoid_rewrite elem_of_app; naive_solver.
Qed.

Lemma agrees_same beat steps h h' :
  stated h' !! m = stated h !! m → items_of h' m = items_of h m → agrees beat steps h → agrees beat steps h'.
Proof. unfold agrees. by intros -> ->. Qed.

Lemma agrees_only beat steps s h h' m' :
  m' ≠ m → only m' h h' → agrees beat steps h → agrees beat (steps ++ [s]) h'.
Proof.
  intros Hne [_ Ho] Hag. destruct (Ho m) as [Hst Hit]; [done|]. by apply agrees_more, (agrees_same _ _ h).
Qed.

Lemma agrees_step steps s h :
  wf h → truthful s → agrees (last_beat m steps) steps h →
  ∃ h', holder_step h s = Some h' ∧ wf h' ∧ agrees (last_beat m (steps ++ [s])) (steps ++ [s]) h'.
Proof.
  intros Hw Ht Hag. rewrite last_beat_snoc.
  destruct s as [m' hs|m' base items|m' base retry|is_member|fc]; simpl in *.
  - destruct (heard_spec m' hs h Hw) as (h' & told & Hh & Hw' & Ho). rewrite Hh. simpl. exists h'.
    split; [done|]. split; [done|]. case_decide as Hm; [subst m'|by eapply agrees_only].
    by eapply agrees_heard; [..|done]; [|apply Ht|].
  - destruct (arrived_spec m' base items h Hw) as (h' & taken & Ha & Hw' & Ho & Ht'). rewrite Ha. simpl.
    exists h'. split; [done|]. split; [done|].
    destruct (decide (m' = m)) as [->|Hne]; [|by eapply agrees_only]. destruct taken; [|subst h'].
    + destruct Ht' as (latest & fetching & Hst & Hre). unfold agrees in Hag. rewrite Hst in Hag.
      destruct Hag as (-> & Hb & held & Hs). eapply restated_true; [done|]. rewrite Hb. simpl. by rewrite <-Ht.
    + by apply agrees_more.
  - destruct (failed_spec m' base retry h Hw) as [Hw' Ho]. eexists. split; [done|]. split; [done|].
    destruct (decide (m' = m)) as [->|Hne]; [|by eapply agrees_only].
    apply (agrees_more _ _ (SFailed m base retry)) in Hag. unfold failed.
    destruct (stated h !! m) as [[wanted latest fetching| |]|] eqn:E; try done.
    case_bool_decide; [|done]. subst. unfold agrees in *. simpl. rewrite E in Hag. rewrite lookup_insert_eq.
    destruct retry; [naive_solver|]. exists base. split; [done|]. apply elem_of_app. right. by left.
  - destruct (retain_spec is_member h Hw) as [Hw' Hr]. eexists. split; [done|]. split; [done|].
    destruct (Hr m) as [Hst Hit]. destruct (is_member m) eqn:Em.
    + by apply agrees_more, (agrees_same _ _ h).
    + unfold agrees. rewrite Hst. right. exists is_member. split; [|done]. apply elem_of_app. right. by left.
  - eexists. split; [done|]. split; [done|]. by apply agrees_more, (agrees_same _ _ h).
Qed.

Lemma default_wf : wf default_holders.
Proof. split; [apply map_Forall_empty|]. done. Qed.

(** Whatever was lost on the way and whatever others state, and as long as
    a member states the truth, the map has for it exactly what it held at its
    newest beat heard, once its list is in; it waits for the list that beat
    names; and it gives up on it only over a list that could not be read. *)
Lemma known_is_what_was_held steps :
  Forall truthful steps →
  ∃ h, try_fold holder_step default_holders steps = Some h ∧ wf h ∧ agrees (last_beat m steps) steps h.
Proof.
  induction steps as [|s steps IH] using rev_ind; intros Ht.
  - exists default_holders. split; [done|]. split; [apply default_wf|]. by left.
  - apply Forall_app in Ht as [Ht [Hs _]%Forall_cons_1]. destruct (IH Ht) as (h & Hr & Hw & Hag).
    rewrite try_fold_app, Hr. simpl.
    destruct (agrees_step steps s h Hw Hs Hag) as (h' & Hst & Hw' & Hag'). rewrite Hst. by exists h'.
Qed.
End truth.

(** ** From the sender to the receiver *)

Section wire.
Context `{Crypto}.

Lemma decode_encode_base (items : list ItemId) :
  decode_base (encode_base items)
    = (if bool_decide (BASE_MAX < N.of_nat (size (list_to_set (C := gset ItemId) items)))%N
       then Err (BadBaseList "it holds more ids than any list may")
       else Ok (set_entries (list_to_set items))).
Proof.
  unfold decode_base, encode_base. rewrite dedup_sort_set, as_chunks_id_list. cbn [fst snd].
  rewrite decide_False by (intros Hne; by apply Hne). rewrite decide_False by (intros Hne; by apply Hne).
  rewrite length_fmap, length_set_entries. case_bool_decide; [done|]. f_equal.
  rewrite <-list_fmap_compose. rewrite <-(list_fmap_id (set_entries _)) at 2.
  apply list_fmap_ext. intros _ i _. apply item_from_bytes_id.
Qed.

Lemma length_chunks k bytes : length (chunks k bytes) = k.
Proof. revert bytes. induction k; intros; simpl; auto. Qed.

Lemma decode_shape bytes ids :
  decode_base bytes = Ok ids →
  ∃ k, length bytes = S (32 * k) ∧ head bytes = Some BASE_FORMAT ∧ length ids = k ∧ (N.of_nat k ≤ BASE_MAX)%N.
Proof.
  unfold decode_base. destruct bytes as [|format rest]; [done|].
  case_decide as Hf; [done|]. unfold as_chunks. case_decide as Hr; [done|].
  case_bool_decide as Hm; [done|]. intros [= <-].
  rewrite length_chunks in Hm. exists (length rest / 32). rewrite length_fmap, length_chunks. cbn [length head].
  assert (drop (32 * (length rest / 32)) rest = []) as Hd by (by destruct (drop _ rest); [|destruct Hr]).
  apply (f_equal length) in Hd. rewrite length_drop in Hd. cbn [length] in Hd.
  pose proof (Nat.div_mod_eq (length rest) 32).
  split_and!; [lia | f_equal; by destruct (decide (format = BASE_FORMAT)) | done | lia].
Qed.

(** A published list reads back as the set it was made from, whatever
    order that was gathered in, unless it is longer than any list may be; and
    what reads as a list at all is a format byte and whole ids. *)
Theorem base_list_roundtrip (items : list ItemId) (bytes : list N) (ids : list ItemId) :
  decode_base (encode_base items)
    = (if bool_decide (BASE_MAX < N.of_nat (size (list_to_set (C := gset ItemId) items)))%N
       then Err (BadBaseList "it holds more ids than any list may")
       else Ok (set_entries (list_to_set items))) ∧
  (decode_base bytes = Ok ids →
   ∃ k, length bytes = S (32 * k) ∧ head bytes = Some BASE_FORMAT ∧ length ids = k ∧ (N.of_nat k ≤ BASE_MAX)%N).
Proof. split; [apply decode_encode_base | apply decode_shape]. Qed.

Lemma decode_encode_set (s : gset ItemId) ids :
  decode_base (encode_base (elements s)) = Ok ids → list_to_set ids = s.
Proof.
  rewrite decode_encode_base, list_to_set_elements_L. case_bool_decide; [done|].
  intros [= <-]. apply list_to_set_entries.
Qed.

Lemma encode_base_inj (s s' : gset ItemId) : encode_base (elements s) = encode_base (elements s') → s = s'.
Proof.
  unfold encode_base. rewrite !dedup_sort_set, !list_to_set_elements_L. intros [= Hb].
  apply (f_equal as_chunks) in Hb. rewrite !as_chunks_id_list in Hb. apply (f_equal fst) in Hb. simpl in Hb.
  apply (f_equal (fmap item_from_bytes)) in Hb. rewrite <-!list_fmap_compose in Hb.
  rewrite <-(list_to_set_entries s), <-(list_to_set_entries s'). f_equal.
  assert (∀ l : list ItemId, (item_from_bytes ∘ (λ i, id_bytes (item_id32 i))) <$> l = l) as Hid.
  { intros l. rewrite <-(list_fmap_id l) at 2. apply list_fmap_ext. intros _ i _. apply item_from_bytes_id. }
  by rewrite !Hid in Hb.
Qed.
End wire.

(** ** The sender's runs *)

Section sender.
Context `{Crypto}.

(** One beat: what is held when, and whether the store takes a list. *)
Record Send : Type := MkSend {
  send_stored : result string unit;
  send_held : gset ItemId;
  send_changed_at : N;
  send_now : N;
}.

(** Every beat's statement, and the sender after it. *)
Fixpoint sender_run (s : Statement) (sends : list Send) : list (Statement * gset ItemId * result SyncError Holdings) :=
  match sends with
  | [] => []
  | x :: sends =>
      let '(s', r) := state_holdings (send_stored x) (send_held x) (send_changed_at x) (send_now x) s in
      (s', send_held x, r) :: sender_run s' sends
  end.

(** The lists published, and what was held and stated in each beat sent. *)
Definition bases_of (s : Statement) (sends : list Send) : list Base :=
  omap (λ x, statement_base x.1.1) (sender_run s sends).
Definition beats_of (s : Statement) (sends : list Send) : list (gset ItemId * Holdings) :=
  omap (λ x, match x.2 with Ok hs => Some (x.1.2, hs) | Err _ => None end) (sender_run s sends).

Definition hash_of (s : gset ItemId) : ContentHash := MkContentHash (blake3 (encode_base (elements s))).

Definition base_true (s : Statement) : Prop :=
  match statement_base s with Some b => base_hash b = hash_of (base_items b) | None => True end.

Lemma bases_of_cons s x sends b :
  b ∈ bases_of s (x :: sends) ↔
  let s' := (state_holdings (send_stored x) (send_held x) (send_changed_at x) (send_now x) s).1 in
  statement_base s' = Some b ∨ b ∈ bases_of s' sends.
Proof.
  unfold bases_of. simpl. destruct (state_holdings _ _ _ _ s) as [s' r]. simpl.
  destruct (statement_base s'); [rewrite elem_of_cons|]; naive_solver.
Qed.

Lemma sender_bases s sends b : base_true s → b ∈ bases_of s sends → base_hash b = hash_of (base_items b).
Proof.
  revert s. induction sends as [|x sends IH]; intros s Hs; [by intros ?%not_elem_of_nil|].
  rewrite bases_of_cons. cbn zeta. set (s' := (state_holdings _ _ _ _ s).1).
  assert (base_true s') as Hs'.
  { unfold s'. rewrite state_holdings_cases. cbn zeta. destruct (must_publish _ _ _); [|done].
    by destruct (send_stored x). }
  intros [Hb|Hb]; [|by apply (IH s')]. unfold base_true in Hs'. by rewrite Hb in Hs'.
Qed.

Lemma sender_states lists s sends held hs :
  (∀ b, b ∈ bases_of s sends → lists (base_hash b) = base_items b) → published_in lists s →
  Forall (λ x, (N.of_nat (size (send_held x)) ≤ u64_max)%N) sends →
  (held, hs) ∈ beats_of s sends → states lists held hs ∧
  ∀ h, stated_base hs = Some h → ∃ b, b ∈ bases_of s sends ∧ base_hash b = h.
Proof.
  revert s. induction sends as [|x sends IH]; intros s Hl Hp Hn; [by intros ?%not_elem_of_nil|].
  apply Forall_cons in Hn as [Hx Hn]. setoid_rewrite bases_of_cons in Hl. setoid_rewrite bases_of_cons.
  unfold beats_of. simpl. destruct (state_holdings _ _ _ _ s) as [s' r] eqn:E. simpl in Hl |- *.
  assert (published_in lists s') as Hp'.
  { unfold published_in. destruct (statement_base s') as [b|]; [|done]. apply Hl. by left. }
  pose proof (state_holdings_true lists _ _ _ _ _ _ _ Hp Hp' Hx E) as Ht.
  destruct r as [hs'|e].
  - rewrite elem_of_cons. intros [[= -> ->]|Hin].
    + destruct Ht as (Hs & Hb & _). split; [done|]. intros h. rewrite Hb. intros (b & Hb' & ->)%fmap_Some.
      exists b. split; [by left|done].
    + destruct (IH s') as [Hs Hb]; [naive_solver | done | done | done |]. split; [done|].
      intros h Hh. destruct (Hb h Hh) as (b & ? & ?). eauto.
  - intros Hin. destruct (IH s') as [Hs Hb]; [naive_solver | done | done | done |]. split; [done|].
    intros h Hh. destruct (Hb h Hh) as (b & ? & ?). eauto.
Qed.

(** The set behind each hash, by the lists published. *)
Definition lists_of (bases : list Base) (h : ContentHash) : gset ItemId :=
  match list_find (λ b, base_hash b = h) bases with Some (_, b) => base_items b | None => ∅ end.

(** No two of some byte strings have one hash. *)
Definition no_collision (strings : list (list N)) : Prop :=
  ∀ a b, a ∈ strings → b ∈ strings → blake3 a = blake3 b → a = b.

Definition base_bytes (b : Base) : list N := encode_base (elements (base_items b)).

Lemma lists_of_base bases b strings :
  (∀ b, b ∈ bases → base_hash b = hash_of (base_items b)) →
  no_collision ((base_bytes <$> bases) ++ strings) → b ∈ bases →
  lists_of bases (base_hash b) = base_items b.
Proof.
  intros Hb Hc Hin. unfold lists_of. destruct (list_find _ bases) as [[i b']|] eqn:E.
  - apply list_find_Some in E as (Hl & Heq & _). apply list_elem_of_lookup_2 in Hl.
    rewrite !Hb in Heq by done. injection Heq as Heq.
    apply encode_base_inj, (Hc (base_bytes b') (base_bytes b)); [| | done];
      apply elem_of_app; left; by apply list_elem_of_fmap_2.
  - apply list_find_None in E. rewrite Forall_forall in E. by destruct (E b Hin).
Qed.

(** C18: Whatever beats are lost, reordered fetches end, and others say: when
    the beats heard of a member are its own, the lists fetched have the hashes
    they name, and no two of those byte strings collide, a receiver that knows
    what the member holds has exactly the set the member held when it made the
    newest beat heard. *)
Theorem receiver_has_what_sender_held m sends fetched steps :
  Forall (λ x, (N.of_nat (size (send_held x)) ≤ u64_max)%N) sends →
  (∀ hs, SHeard m hs ∈ steps → hs ∈ (beats_of new_statement sends).*2) →
  (∀ base items, SArrived m base items ∈ steps → ∃ bytes b,
     bytes ∈ fetched ∧ MkContentHash (blake3 bytes) = base ∧ decode_base bytes = Ok items ∧
     b ∈ bases_of new_statement sends ∧ base_hash b = base) →
  no_collision ((base_bytes <$> bases_of new_statement sends) ++ fetched) →
  ∃ h, try_fold holder_step default_holders steps = Some h ∧
    (is_known h m → ∃ hs, last_beat m steps = Some hs ∧ (items_of h m, hs) ∈ beats_of new_statement sends).
Proof.
  intros Hn Hbeats Harr Hc. set (bases := bases_of new_statement sends) in *.
  assert (∀ b, b ∈ bases → base_hash b = hash_of (base_items b)) as Hb by (intros b; by apply sender_bases).
  assert (∀ b, b ∈ bases → lists_of bases (base_hash b) = base_items b) as Hl
    by (intros b; by apply (lists_of_base _ _ fetched)).
  assert (∀ hs, hs ∈ (beats_of new_statement sends).*2 →
    ∃ held, (held, hs) ∈ beats_of new_statement sends ∧ states (lists_of bases) held hs) as Hsay.
  { intros hs Hin. apply list_elem_of_fmap in Hin as ([held hs'] & -> & Hin). exists held.
    split; [done|]. by apply (sender_states _ new_statement sends). }
  destruct (known_is_what_was_held (lists_of bases) m steps) as (h & Hr & Hw & Hag).
  { apply Forall_forall. intros [m' hs|m' base items| | |] Hin; simpl; try done; intros ->.
    - destruct (Hsay hs) as (held & _ & ?); [by apply Hbeats|]. by exists held.
    - destruct (Harr _ _ Hin) as (bytes & b & Hf & Hh & Hd & Hbin & <-). rewrite Hl by done.
      rewrite Hb in Hh by done. injection Hh as Hh.
      apply (Hc bytes (base_bytes b)) in Hh; [by rewrite Hh in Hd; apply decode_encode_set | |].
      + apply elem_of_app. by right.
      + apply elem_of_app. left. by apply list_elem_of_fmap_2. }
  exists h. split; [done|]. unfold is_known, agrees in *. destruct (stated h !! m) as [[]|]; try done.
  intros _. destruct Hag as (hs & set & Hlast & _ & _ & _ & Hs & Hit). exists hs. split; [done|].
  destruct (Hsay hs) as (set' & Hin & Hs').
  { apply Hbeats. unfold last_beat in Hlast. apply last_Some in Hlast as [l Hlast].
    assert (hs ∈ l ++ [hs]) as Hin by (apply elem_of_app; right; by left). rewrite <-Hlast in Hin.
    apply list_elem_of_omap in Hin as ([] & Hin & Heq); try done. case_decide; by simplify_eq. }
  rewrite Hit, <-(states_change _ _ _ Hs), (states_change _ _ _ Hs'). done.
Qed.
End sender.

(** ** A concrete run *)

(** [member 2] holds items 1 and 2, loses 1 and is quiet until its list goes
    out, then gets 3. *)
Definition two_sends : list Send :=
  [MkSend (Ok tt) {[item 1; item 2]} 0 0; MkSend (Ok tt) {[item 2]} 0 QUIET;
   MkSend (Ok tt) {[item 2; item 3]} QUIET QUIET].
Definition its_list : Base := MkBase (hash_of {[item 2]}) {[item 2]}.

(** The list arrives after the last beat. *)
Definition its_steps : list HolderStep :=
  (SHeard (member 2) <$> (beats_of new_statement two_sends).*2) ++
  [SArrived (member 2) (hash_of {[item 2]}) (set_entries {[item 2]})].

Lemma its_bases : bases_of new_statement two_sends = [its_list; its_list].
Proof. reflexivity. Qed.

Lemma its_bytes : decode_base (encode_base (elements (C := gset ItemId) {[item 2]})) = Ok (set_entries {[item 2]}).
Proof.
  rewrite decode_encode_base, list_to_set_elements_L, bool_decide_false; [done|].
  rewrite size_singleton. by vm_compute.
Qed.

Lemma receiver_has_what_sender_held_witness :
  ∃ h, try_fold holder_step default_holders its_steps = Some h ∧
    (is_known h (member 2) →
     ∃ hs, last_beat (member 2) its_steps = Some hs ∧
       (items_of h (member 2), hs) ∈ beats_of new_statement two_sends).
Proof.
  refine (receiver_has_what_sender_held (member 2) two_sends
            [encode_base (elements (C := gset ItemId) {[item 2]})] its_steps _ _ _ _).
  - repeat constructor; by vm_compute.
  - intros hs [Hin|Hin%list_elem_of_singleton]%elem_of_app; [|done].
    apply list_elem_of_fmap in Hin as (hs' & [= ->] & Hin). exact Hin.
  - intros base items [Hin|Hin%list_elem_of_singleton]%elem_of_app.
    { by apply list_elem_of_fmap in Hin as (hs' & ? & _). }
    injection Hin as -> ->. exists (encode_base (elements (C := gset ItemId) {[item 2]})), its_list.
    split; [by left|]. split; [done|]. split; [apply its_bytes|]. rewrite its_bases. split; [by left|done].
  - rewrite its_bases. assert (∀ a, a ∈ (base_bytes <$> [its_list; its_list]) ++
      [encode_base (elements (C := gset ItemId) {[item 2]})] → a = base_bytes its_list) as Hall.
    { intros a. simpl. rewrite !elem_of_cons, elem_of_nil. naive_solver. }
    intros a b Ha Hb _. by rewrite (Hall a Ha), (Hall b Hb).
Defined.

(** The receiver ends with items 2 and 3. *)
Example receiver_ends_up :
  (λ h, is_known h (member 2) && bool_decide (items_of h (member 2) = {[item 2; item 3]}))
    <$> try_fold holder_step default_holders its_steps = Some true.
Proof. vm_compute. reflexivity. Qed.

Definition one_held : list HolderStep :=
  [SHeard (member 2) (MkHoldings 1 None (set_entries ({[item 1]} ∖ ∅)) (set_entries (∅ ∖ {[item 1]})))].

Lemma known_is_what_was_held_witness :
  ∃ h, try_fold holder_step default_holders one_held = Some h ∧ wf h ∧
    agrees (λ _, ∅) (member 2) (last_beat (member 2) one_held) one_held h.
Proof.
  refine (known_is_what_was_held (λ _, ∅) (member 2) one_held _).
  constructor; [|constructor]. intros _. exists {[item 1]}. split; [reflexivity|]. split; reflexivity.
Defined.

Lemma statement_is_true_witness :
  let r := (state_holdings (Ok tt) {[item 1]} 0 QUIET new_statement).2 in
  let s' := (state_holdings (Ok tt) {[item 1]} 0 QUIET new_statement).1 in
  match r with
  | Ok hs =>
      states (λ _, {[item 1]}) {[item 1]} hs ∧ stated_base hs = base_hash <$> statement_base s' ∧
      length (stated_added hs) + length (stated_removed hs) ≤ DELTA_MAX ∧
      ((QUIET ≤ QUIET - 0)%N → stated_added hs = [] ∧ stated_removed hs = [])
  | Err _ => s' = new_statement ∧ false = false
  end.
Proof.
  refine (statement_is_true (λ _, {[item 1]}) (Ok tt) {[item 1]} 0 QUIET new_statement _ _ I _ _ eq_refl).
  - reflexivity.
  - by vm_compute.
Defined.

Lemma base_list_roundtrip_witness :
  decode_base (encode_base [item 1; item 1]) = Ok [item 1] ∧
  ∃ k, length (encode_base [item 1; item 1]) = S (32 * k) ∧ head (encode_base [item 1; item 1]) = Some BASE_FORMAT ∧
    length [item 1] = k ∧ (N.of_nat k ≤ BASE_MAX)%N.
Proof.
  assert (decode_base (encode_base [item 1; item 1]) = Ok [item 1]) as H by reflexivity.
  exact (conj H (proj2 (base_list_roundtrip [] (encode_base [item 1; item 1]) [item 1]) H)).
Defined.
