(* ===== verification/ListeningProps.v ===== *)
(** * Properties of the listening loop

    No run of it panics; a member whose list is awaited has a fetch under way
    for it; and whatever changes in what the node says of a member is told. *)

From S2P Require Import Prelude Ids GroupSettings Events Membership Holders Heartbeats Directory Statements.
From S2P Require Import Listening AvailabilityProps Fixtures HeartbeatFixtures Directory.
From S2P Require Online.

(** ** What hearing a beat says changed *)

(** What is said of a member by the map alone. *)
Definition said (h : Holders) (m : MemberId) : bool * gset ItemId :=
  (is_known h m, items_of h m).

Lemma only_said m m' h h' : only m h h' → m' ≠ m → said h' m' = said h m'.
Proof. intros [_ Ho] Hne. unfold said, is_known. by destruct (Ho m' Hne) as [-> ->]. Qed.

(** A known member restating its change is where it was. *)
Lemma restate_same m h base added removed held hs h' :
  wf h → stated h !! m = Some (Known base added removed held) →
  stated_added hs = added → stated_removed hs = removed →
  restate m hs h = Some h' → is_known h' m = true → items_of h' m = items_of h m.
Proof.
  intros Hw Hst <- <- Hr Hk. destruct (restate_spec m hs h _ _ _ _ Hw Hst) as (h'' & Hr' & _ & _ & Hre).
  rewrite Hr in Hr'. simplify_eq. unfold restated in Hre. case_bool_decide.
  - destruct Hre as [_ ->]. destruct Hw as [_ Hw]. specialize (Hw m). rewrite Hst in Hw.
    destruct Hw as (_ & Hadd & Hrem). unfold change_of. apply set_eq. intros x.
    specialize (Hadd x). rewrite elem_of_disjoint in Hrem. specialize (Hrem x). rewrite elem_of_difference in Hadd.
    rewrite !elem_of_difference, !elem_of_union, elem_of_difference, elem_of_union.
    destruct (decide (x ∈ (list_to_set (stated_removed hs) : gset ItemId))),
      (decide (x ∈ (list_to_set (stated_added hs) : gset ItemId))), (decide (x ∈ items_of h m)); tauto.
  - destruct Hre as [Hst' _]. unfold is_known in Hk. by rewrite Hst' in Hk.
Qed.

Lemma heard_unchanged m hs h h' told :
  wf h → heard m hs h = Some (h', told) → changed told = false → said h' m = said h m.
Proof.
  intros Hw Hh Hc. destruct (heard_anew_spec m hs h Hw) as (ha & Ha & _).
  unfold heard in Hh. rewrite Ha in Hh. unfold said.
  destruct (stated h !! m) as [[base latest fetching|base added removed held|base]|] eqn:E;
    try (destruct (bool_decide (_ = stated_base hs))); simplify_eq; try done.
  - unfold is_known. simpl. by rewrite lookup_insert_eq, E.
  - destruct (restate m hs h) as [h1|] eqn:Er; [|done]. simpl in Hh. simplify_eq. simpl in Hc.
    apply orb_false_iff in Hc as [Hsame%negb_false_iff%bool_decide_eq_true Hk%negb_false_iff].
    destruct Hsame as [-> ->]. rewrite Hk. unfold is_known at 1. rewrite E. f_equal.
    by eapply restate_same.
Qed.

(** ** The fetches *)

Section props.
Context `{HeartbeatCodec} `{Lookup}.

(** A member whose list is awaited has a fetch running for it. *)
Definition awaited (h : Holders) (r : list (MemberId * ContentHash)) : Prop :=
  ∀ m base latest, stated h !! m = Some (Unknown base latest true) → (m, base) ∈ r.

Lemma awaited_heard m hs h h' told r :
  wf h → awaited h r → heard m hs h = Some (h', told) →
  awaited h' (r ++ match fetch told with Some base => [(m, base)] | None => [] end).
Proof.
  intros Hw Hr Hh m' base' latest' Hst. destruct (heard_spec m hs h Hw) as (h1 & told1 & Hh1 & _ & Ho).
  rewrite Hh in Hh1. simplify_eq. apply elem_of_app.
  destruct (decide (m' = m)) as [->|Hne].
  2: { destruct Ho as [_ Ho]. destruct (Ho m' Hne) as [Heq _]. rewrite Heq in Hst. left. by eapply Hr. }
  destruct (heard_anew_spec m hs h Hw) as (ha & Ha & _ & _ & Hanew).
  unfold heard in Hh. rewrite Ha in Hh.
  assert (heard_anew m hs h = Some (h1, told1) → (m, base') ∈ r ∨
    (m, base') ∈ match fetch told1 with Some base => [(m, base)] | None => [] end) as Hgo.
  { rewrite Ha. intros [= -> <-]. right. simpl. destruct (stated_base hs) as [base|].
    - rewrite Hanew in Hst. simplify_eq. by left.
    - unfold restated in Hanew. case_bool_decide; destruct Hanew as [Hst' _]; by rewrite Hst' in Hst. }
  destruct (stated h !! m) as [[base latest fetching|base added removed held|base]|] eqn:E;
    try (destruct (bool_decide (_ = stated_base hs)) eqn:Hb); try (by apply Hgo; rewrite Ha).
  - simplify_eq. simpl in Hst |- *. rewrite lookup_insert_eq in Hst. simplify_eq.
    destruct fetching; [left; by eapply Hr | right; by left].
  - destruct (restate_spec m hs h _ _ _ _ Hw E) as (h2 & Hre & _ & _ & Hspec). rewrite Hre in Hh. simpl in Hh. simplify_eq.
    unfold restated in Hspec. case_bool_decide; destruct Hspec as [Hst' _]; by rewrite Hst' in Hst.
  - by simplify_eq.
Qed.

Lemma end_one_elem f wanted r : f ≠ wanted → f ∈ r → f ∈ end_one wanted r.
Proof.
  intros Hne. induction r as [|g r IH]; [done|]. rewrite elem_of_cons. simpl. case_decide.
  - intros [->|Hin]; [done|done].
  - rewrite elem_of_cons. naive_solver.
Qed.

Lemma awaited_failed m base retry h r :
  awaited h r → awaited (failed m base retry h) (end_one (m, base) r).
Proof.
  intros Hr m' base' latest' Hst. unfold failed in Hst.
  destruct (decide ((m', base') = (m, base))) as [[= -> ->]|Hne].
  - exfalso. destruct (stated h !! m) as [[wanted latest fetching| |]|] eqn:E; try by rewrite E in Hst.
    case_bool_decide as Hb; [|rewrite E in Hst; by simplify_eq]. simpl in Hst. rewrite lookup_insert_eq in Hst.
    by destruct retry.
  - apply end_one_elem; [done|]. apply (Hr m' base' latest').
    destruct (stated h !! m) as [[wanted latest fetching| |]|] eqn:E; try done.
    case_bool_decide as Hb; [|done]. simpl in Hst. destruct (decide (m' = m)) as [->|Hm].
    + rewrite lookup_insert_eq in Hst. destruct retry; simplify_eq.
    + by rewrite lookup_insert_ne in Hst.
Qed.

Lemma awaited_arrived m base items h h' taken r :
  wf h → awaited h r → arrived m base items h = Some (h', taken) → awaited h' (end_one (m, base) r).
Proof.
  intros Hw Hr Ha m' base' latest' Hst.
  destruct (arrived_spec m base items h Hw) as (h1 & taken1 & Ha1 & _ & [_ Ho] & Ht).
  rewrite Ha in Ha1. simplify_eq. destruct (decide (m' = m)) as [->|Hm].
  - destruct taken1; [|subst h1].
    + destruct Ht as (latest & fetching & _ & Hre). exfalso.
      unfold restated in Hre. case_bool_decide; destruct Hre as [Hst' _]; by rewrite Hst' in Hst.
    + apply end_one_elem; [|by eapply Hr]. intros [= ->].
      unfold arrived in Ha. rewrite Hst, bool_decide_true in Ha by done.
      destruct (tally _ _ _) as [ix n]. by destruct (known _ _ _ _ _).
  - apply end_one_elem; [naive_solver|]. eapply Hr. destruct (Ho m' Hm) as [<- _]. done.
Qed.

Lemma awaited_retain f h r : awaited h r → awaited (retain_holders f h) r.
Proof.
  intros Hr m base latest. simpl. rewrite map_lookup_filter_Some. intros [Hst _]. by eapply Hr.
Qed.

(** ** What is told *)

(** What the loop keeps. *)
Definition sound (l : Listening) : Prop :=
  wf (l_holders l) ∧ awaited (l_holders l) (running l) ∧ published l = Online.online (l_online l).

Lemma publish_online_tells l :
  ∃ new, told (publish_online l) = told l ++ new ∧
    published (publish_online l) = Online.online (l_online l) ∧
    ∀ m, (m ∈ published (publish_online l) ↔ m ∉ published l) → m ∈ new.
Proof.
  unfold publish_online. case_decide as Hp.
  - exists []. split; [by rewrite app_nil_r|]. split; [done|]. intros m. tauto.
  - eexists. split; [done|]. split; [done|]. intros m Hm. simpl in Hm.
    unfold set_entries. rewrite elem_of_sort_keys, elem_of_elements, elem_of_union, !elem_of_difference.
    destruct (decide (m ∈ published l)), (decide (m ∈ Online.online (l_online l))); tauto.
Qed.

Lemma publish_sound l :
  wf (l_holders l) → awaited (l_holders l) (running l) →
  ∃ new, sound (publish_online l) ∧ l_holders (publish_online l) = l_holders l ∧
    told (publish_online l) = told l ++ new ∧ ∀ m, (m ∈ published (publish_online l) ↔ m ∉ published l) → m ∈ new.
Proof.
  intros Hw Ha. destruct (publish_online_tells l) as (new & Ht & Hp & Hm). exists new.
  assert (l_holders (publish_online l) = l_holders l ∧ running (publish_online l) = running l ∧
    l_online (publish_online l) = l_online l) as (Hh & Hr & Ho) by (unfold publish_online; by case_decide).
  unfold sound. by rewrite Hh, Hr, Ho.
Qed.

(** Hearing a message neither panics nor leaves a change untold. *)
Lemma received_sound group now is_member content l :
  wf (l_holders l) → awaited (l_holders l) (running l) →
  ∃ l' new, received group now is_member content l = Some l' ∧ wf (l_holders l') ∧
    awaited (l_holders l') (running l') ∧ published l' = published l ∧ told l' = told l ++ new ∧
    ∀ m, said (l_holders l') m ≠ said (l_holders l) m → m ∈ new.
Proof.
  intros Hw Ha. unfold received, hear.
  assert (∃ new, told l = told l ++ new ∧ ∀ m, said (l_holders l) m ≠ said (l_holders l) m → m ∈ new) as (new & Htold & Hnew)
    by (exists []; by rewrite app_nil_r).
  destruct (result_bind _ _) as [beat|e]; [|simpl; by exists l, new].
  destruct (Online.heard _ _ _ _) as [online news]. destruct news; [simpl|simpl; by exists l, new].
  set (m := address_member (beat_address beat)).
  destruct (heard_spec m (beat_holdings beat) (l_holders l) Hw) as (h' & hd & Hh & Hw' & Ho).
  rewrite Hh. simpl. pose proof (awaited_heard _ _ _ _ _ _ Hw Ha Hh) as Ha'.
  exists (match fetch hd with
          | Some base => MkListening online h' (learn_address (beat_address beat) (l_directory l))
              (running l ++ [(m, base)]) (published l) (if changed hd then told l ++ [m] else told l)
          | None => MkListening online h' (learn_address (beat_address beat) (l_directory l))
              (running l) (published l) (if changed hd then told l ++ [m] else told l)
          end), (if changed hd then [m] else []).
  assert (∀ m', said h' m' ≠ said (l_holders l) m' → m' ∈ if changed hd then [m] else []) as Hsaid.
  { intros m' Hm'. destruct (decide (m' = m)) as [->|Hne].
    - destruct (changed hd) eqn:Ec; [by left|]. by apply (heard_unchanged m) in Hh.
    - destruct Hm'. by eapply only_said. }
  assert ((if changed hd then told l ++ [m] else told l) = told l ++ if changed hd then [m] else []) as Ht
    by (destruct (changed hd); by rewrite ?app_nil_r).
  destruct (fetch hd) as [base|]; simpl; [|rewrite app_nil_r in Ha']; by rewrite Ht.
Qed.

(** A fetch that ends neither panics nor leaves a change untold. *)
Lemma take_in_sound m base fetched l :
  wf (l_holders l) → awaited (l_holders l) (running l) →
  ∃ l' new, take_in (m, base) fetched l = Some l' ∧ wf (l_holders l') ∧
    awaited (l_holders l') (end_one (m, base) (running l')) ∧ running l' = running l ∧
    l_online l' = l_online l ∧ published l' = published l ∧ told l' = told l ++ new ∧
    ∀ m', said (l_holders l') m' ≠ said (l_holders l) m' → m' ∈ new.
Proof.
  intros Hw Ha. unfold take_in.
  assert (∀ retry, wf (failed m base retry (l_holders l)) ∧
    awaited (failed m base retry (l_holders l)) (end_one (m, base) (running l)) ∧
    ∀ m', said (failed m base retry (l_holders l)) m' = said (l_holders l) m') as Hfail.
  { intros retry. destruct (failed_spec m base retry (l_holders l) Hw) as [Hw' Ho].
    split; [done|]. split; [by apply awaited_failed|]. intros m'.
    destruct (decide (m' = m)) as [->|Hne]; [|by apply (only_said m)].
    unfold said, is_known, failed. destruct (stated (l_holders l) !! m) as [[wanted latest fetching| |]|] eqn:E;
      rewrite ?E; try done.
    case_bool_decide; simpl; rewrite ?E; [|done]. rewrite lookup_insert_eq. by destruct retry. }
  assert (∀ retry, ∃ l' new, Some (MkListening (l_online l) (failed m base retry (l_holders l)) (l_directory l)
      (running l) (published l) (told l)) = Some l' ∧ wf (l_holders l') ∧
    awaited (l_holders l') (end_one (m, base) (running l')) ∧ running l' = running l ∧
    l_online l' = l_online l ∧ published l' = published l ∧ told l' = told l ++ new ∧
    ∀ m', said (l_holders l') m' ≠ said (l_holders l) m' → m' ∈ new) as Hgive.
  { intros retry. destruct (Hfail retry) as (Hw' & Ha' & Hs). eexists _, []. split; [done|]. simpl.
    rewrite app_nil_r. split_and!; try done. intros m' Hm'. by destruct Hm'. }
  destruct fetched as [bytes|error]; [|apply Hgive]. destruct (decode_base bytes) as [items|source]; [|apply Hgive].
  destruct (arrived_spec m base items (l_holders l) Hw) as (h' & taken & Harr & Hw' & Ho & Ht). rewrite Harr. simpl.
  eexists _, (if taken then [m] else []). split; [done|]. simpl. split; [done|].
  split; [exact (awaited_arrived _ _ _ _ _ _ _ Hw Ha Harr)|]. split_and!; try done; [destruct taken; by rewrite ?app_nil_r|].
  intros m' Hm'. destruct (decide (m' = m)) as [->|Hne]; [|by destruct Hm'; eapply only_said].
  destruct taken; [by left|]. by subst h'.
Qed.

(** C32: However the group's messages, fetches, deadlines and membership
    changes come, the loop does not panic, and for every member whose list is
    awaited a fetch of that list is running, so that no member stays unknown
    for a fetch nobody makes; and whatever a turn changes in who is online and
    in what is known to be held, it tells, but for the holdings of members a
    membership change drops, which go untold. *)
Theorem nobody_waits_in_vain group turns me t :
  ∃ l l' new, listen group turns (start me) = Some l ∧ turn group t l = Some l' ∧
    sound l ∧ sound l' ∧ told l' = told l ++ new ∧
    ∀ m, (if t is MembersChanged f then f m = true else True) ∧ said (l_holders l') m ≠ said (l_holders l) m ∨
         (m ∈ published l' ↔ m ∉ published l) → m ∈ new.
Proof.
  assert (∀ t l, sound l → ∃ l' new, turn group t l = Some l' ∧ sound l' ∧ told l' = told l ++ new ∧
    ∀ m, (if t is MembersChanged f then f m = true else True) ∧ said (l_holders l') m ≠ said (l_holders l) m ∨
         (m ∈ published l' ↔ m ∉ published l) → m ∈ new) as Hturn.
  { clear. intros t l (Hw & Ha & Hp). destruct t as [content now is_member|now|is_member|[m base] fetched]; cbn [turn].
    - destruct (received_sound group now is_member content l Hw Ha) as (l1 & new & Hr & Hw1 & Ha1 & Hp1 & Ht & Hs).
      rewrite Hr. simpl. destruct (publish_sound l1 Hw1 Ha1) as (new' & Hsound & Hh & Ht' & Hm).
      exists (publish_online l1), (new ++ new'). split; [done|]. split; [done|].
      split; [by rewrite Ht', Ht, app_assoc|]. rewrite Hh, <-Hp1. intros m. rewrite elem_of_app. naive_solver.
    - set (l1 := MkListening _ _ _ _ _ _). destruct (publish_sound l1 Hw Ha) as (new' & Hsound & Hh & Ht' & Hm).
      exists (publish_online l1), new'. rewrite Hh. naive_solver.
    - destruct (retain_spec is_member (l_holders l) Hw) as [Hw' Hr].
      destruct (publish_sound (members_changed is_member l) Hw' (awaited_retain _ _ _ Ha))
        as (new' & Hsound & Hh & Ht' & Hm).
      exists (publish_online (members_changed is_member l)), new'. split; [done|]. split; [done|]. split; [done|].
      intros m [[Hin Hs]|Hon]; [|by apply Hm]. destruct Hs. rewrite Hh. unfold said, is_known. simpl.
      destruct (Hr m) as [Hst Hit]. simpl in Hst, Hit. by rewrite Hst, Hit, Hin.
    - destruct (take_in_sound m base fetched l Hw Ha) as (l1 & new & Ht & Hw1 & Ha1 & Hr & Ho & Hp1 & Htold & Hs).
      rewrite Ht. simpl. eexists _, new. split; [done|]. split; [split_and!; simpl; [done|by rewrite <-Hr|by rewrite Hp1, Hp, Ho] |].
      split; [done|]. simpl. rewrite Hp1. intros m' [[_ Hm']|Hm']; [by apply Hs|]. destruct (decide (m' ∈ published l)); tauto. }
  assert (∃ l, listen group turns (start me) = Some l ∧ sound l) as (l & Hl & Hs).
  { induction turns as [|t' turns (l & Hl & Hs)] using rev_ind.
    - exists (start me). split; [done|]. split; [apply default_wf|]. split; [done|].
      symmetry. apply leibniz_equiv. intros m. rewrite Online.elem_of_online. simpl. set_solver.
    - unfold listen in *. rewrite try_fold_app, Hl. simpl. destruct (Hturn t' l Hs) as (l' & _ & Ht & Hs' & _).
      rewrite Ht. simpl. by exists l'. }
  destruct (Hturn t l Hs) as (l' & new & Ht & Hs' & Htold & Hm). exists l, l', new. by split_and!.
Qed.
End props.

(** ** The wire *)

(** What is read of ed25519 and postcard: a signature made with a key is that
    key's, and what was encoded reads back. *)
Class BeatLaws `{HeartbeatCodec} : Prop := {
  sign_verifies key bytes : verify_bytes (public key) bytes (sign_bytes key bytes) = true;
  read_signed s bytes : postcard_signed s = Ok bytes → postcard_read bytes = Ok s;
}.

Section wire.
Context `{BeatLaws}.

(** A heartbeat signed with its member's key reads back, and opens, as
    itself in the group it was signed for; one that carries another member's
    address is never signed, and one over the limit is neither sent nor
    read. *)
Theorem beat_roundtrip key group beat signed bytes :
  sign_heartbeat key group beat = Ok signed →
  verify_address (beat_address beat) = Ok tt →
  encode_heartbeat signed = Ok bytes →
  decode_heartbeat bytes = Ok signed ∧ open_heartbeat group signed = Ok beat ∧
  heartbeat_member signed = public key ∧ (N.of_nat (length bytes) ≤ HEARTBEAT_MAX)%N.
Proof.
  intros Hs Hv He. unfold sign_heartbeat in Hs. case_decide as Hm; [done|].
  assert (address_member (beat_address beat) = public key) as Ha
    by (by destruct (decide (address_member (beat_address beat) = public key))).
  destruct (heartbeat_payload group beat) as [payload|] eqn:Hp; [|done]. simpl in Hs. injection Hs as <-.
  unfold encode_heartbeat in He. destruct (postcard_signed _) as [bytes'|] eqn:Hps; [|done].
  case_bool_decide as Hlen; [done|]. injection He as <-.
  split; [unfold decode_heartbeat; rewrite bool_decide_false by done; by rewrite (read_signed _ _ Hps)|].
  split; [|split; [done|lia]].
  unfold open_heartbeat, heartbeat_member. simpl. rewrite Hv. simpl. rewrite Hp, Ha. simpl.
  by rewrite sign_verifies.
Qed.
End wire.

Section trust.
Context `{HeartbeatCodec} `{Lookup}.

(** A message changes what this node knows only if it is a heartbeat
    within the limit whose address and whole its member signed for this group,
    that member being another one and in the group; and then nothing about the
    holdings of anyone else changes. *)
Theorem heard_is_signed group now is_member content l l' r :
  wf (l_holders l) → hear group now is_member content l = Some (l', r) → l' ≠ l →
  ∃ signed payload, decode_heartbeat content = Ok signed ∧
    let m := heartbeat_member signed in
    verify_address (beat_address (heartbeat signed)) = Ok tt ∧
    heartbeat_payload group (heartbeat signed) = Ok payload ∧
    verify_bytes m payload (heartbeat_signature signed) = true ∧
    is_member m = true ∧ m ≠ Online.online_me (l_online l) ∧ only m (l_holders l) (l_holders l').
Proof.
  intros Hw Hh Hne. unfold hear in Hh. destruct (decode_heartbeat content) as [signed|] eqn:Hd; [|simpl in Hh; by simplify_eq].
  simpl in Hh. unfold open_heartbeat in Hh.
  destruct (verify_address (beat_address (heartbeat signed))) as [[]|] eqn:Hv; [|simpl in Hh; by simplify_eq].
  simpl in Hh. destruct (heartbeat_payload group (heartbeat signed)) as [payload|] eqn:Hp; [|simpl in Hh; by simplify_eq].
  simpl in Hh. destruct (verify_bytes _ payload _) eqn:Hs; [|simpl in Hh; by simplify_eq].
  destruct (Online.heard _ _ _ _) as [online news] eqn:Ho. destruct news; [simpl in Hh|simpl in Hh; by simplify_eq].
  exists signed, payload. split; [done|]. cbn zeta. split_and!; try done.
  - unfold Online.heard in Ho. case_match eqn:Hb; [by simplify_eq|]. apply orb_false_iff in Hb as [_ Hb].
    by apply negb_false_iff in Hb.
  - unfold Online.heard in Ho. case_match eqn:Hb; [by simplify_eq|]. apply orb_false_iff in Hb as [Hb _].
    by apply bool_decide_eq_false in Hb.
  - destruct (heard_spec (heartbeat_member signed) (beat_holdings (heartbeat signed)) (l_holders l) Hw)
      as (h' & told & Hhd & _ & Honly). unfold heartbeat_member in *. rewrite Hhd in Hh. simpl in Hh. by simplify_eq.
Qed.
End trust.

(** ** Concrete runs *)

#[export] Instance test_beat_laws : BeatLaws.
Proof.
  constructor.
  - intros key bytes. simpl. by apply bool_decide_eq_true.
  - intros s bytes [= <-]. simpl. by rewrite decode_encode.
Defined.

Definition signed_beat : SignedHeartbeat :=
  MkSignedHeartbeat (beat 2 7 1)
    (member 2, (HEARTBEAT_DOMAIN ++ id_bytes (group_id32 the_group)) ++ [Npos (encode (beat 2 7 1))]).

Lemma beat_roundtrip_witness :
  decode_heartbeat [Npos (encode signed_beat)] = Ok signed_beat ∧
  open_heartbeat the_group signed_beat = Ok (beat 2 7 1) ∧
  heartbeat_member signed_beat = public 2%N ∧ (N.of_nat (length [Npos (encode signed_beat)]) ≤ HEARTBEAT_MAX)%N.
Proof.
  refine (beat_roundtrip 2%N the_group (beat 2 7 1) signed_beat [Npos (encode signed_beat)] _ _ _); reflexivity.
Defined.

Lemma signed_beat_reads :
  decode_heartbeat [Npos (encode signed_beat)] = Ok signed_beat ∧
  open_heartbeat the_group signed_beat = Ok (beat 2 7 1).
Proof.
  split; [|reflexivity]. unfold decode_heartbeat. rewrite bool_decide_false by (by vm_compute).
  by rewrite (read_signed signed_beat).
Qed.

(** [member 1] hears [member 2]'s first beat. *)
Lemma one_beat_heard :
  ∃ l' r, hear the_group 0 anyone [Npos (encode signed_beat)] (start (member 1)) = Some (l', r) ∧
    told l' = [member 2].
Proof.
  pose proof signed_beat_reads as [Hd Ho]. unfold hear. rewrite Hd. cbn [result_bind]. rewrite Ho.
  cbn [result_bind]. assert (Online.heard (beat 2 7 1) 0 anyone (l_online (start (member 1))) =
    ((Online.heard (beat 2 7 1) 0 anyone (l_online (start (member 1)))).1, true)) as -> by reflexivity.
  cbn [negb]. destruct (heard_anew_spec (member 2) nothing_held default_holders default_wf) as (h & Ha & _).
  assert (heard (address_member (beat_address (beat 2 7 1))) (beat_holdings (beat 2 7 1)) (l_holders (start (member 1))) =
    heard_anew (member 2) nothing_held default_holders) as -> by reflexivity.
  rewrite Ha. eexists _, _. split; reflexivity.
Qed.

Lemma heard_is_signed_witness :
  ∃ l', told l' = [member 2] ∧
  ∃ signed payload, decode_heartbeat [Npos (encode signed_beat)] = Ok signed ∧
      verify_bytes (heartbeat_member signed) payload (heartbeat_signature signed) = true ∧
      only (heartbeat_member signed) (l_holders (start (member 1))) (l_holders l').
Proof.
  destruct one_beat_heard as (l' & r & E & Ht). exists l'. split; [done|].
  destruct (heard_is_signed the_group 0 anyone [Npos (encode signed_beat)] (start (member 1)) l' r)
    as (signed & payload & H1 & _ & _ & H2 & _ & _ & H3).
  - apply default_wf.
  - exact E.
  - intros ->. discriminate Ht.
  - exact (ex_intro _ signed (ex_intro _ payload (conj H1 (conj H2 H3)))).
Defined.
