(* ===== verification/Gossip.v ===== *)
(** * Telling the group the log has moved, and where members are

    [crates/distlib-consensus/src/gossip.rs]. iroh-gossip is what arrives: a
    stream of events, in any order and to anybody. postcard's encoding of an
    announcement is the class [GossipCodec]. The last part is the group: its
    members' loops, and what is on the way between them. *)

From stdpp Require Import strings.
From S2P Require Import Prelude Ids GroupSettings Events Membership Fixtures RaftLog RaftState Follower Heartbeats HeartbeatFixtures Directory.

(** ** Announcements *)

Section announcement.
Context `{Crypto}.

Inductive Announcement : Type :=
| AppliedUpTo (up_to : N)
| ReachableAt (signed : SignedAddress).
End announcement.

Class GossipCodec `{HeartbeatCodec} : Type := {
  encode_announcement : Announcement → result string (list N);
  decode_announcement : list N → result string Announcement;
}.

Class GossipCodecLaws `{GossipCodec} : Prop := {
  decode_encoded a bytes : encode_announcement a = Ok bytes → decode_announcement bytes = Ok a;
}.

#[export] Instance SignedAddress_eq `{Crypto, EqDecision Signature} : EqDecision SignedAddress.
Proof. solve_decision. Defined.

(** A turn of [announce_log]. *)
Definition announce_log `{Crypto} `{!RaftLog.Openraft} (s : Store) : option Announcement :=
  let up_to := last_applied_index s in
  if bool_decide (0 < up_to)%N then Some (AppliedUpTo up_to) else None.

Section gossip.
Context `{GossipCodec} `{Lookup} `{EqDecision Signature}.

(** [topic_for]: the bytes of the topic. *)
Definition topic_for (group : GroupId) : list N := id_bytes (group_id32 group).

(** [reachable]. *)
Definition reachable_one (membership : MembershipState) (directory : Directory) (member : MemberId)
  : option (MemberId * NodeAddr) :=
  addr ← match core membership !! member with
         | Some addr => Some addr
         | None => directory_address_of directory member
         end;
  Some (member, addr).
Definition reachable (membership : MembershipState) (me : MemberId) (directory : Directory)
  : list (MemberId * NodeAddr) :=
  omap (reachable_one membership directory) (filter (λ member, member ≠ me) (allowlist membership)).

(** [broadcast]: what is sent. *)
Definition broadcast (a : Announcement) : option (list N) :=
  match encode_announcement a with Ok bytes => Some bytes | Err _ => None end.

(** A turn of [announce_address] up to its floor: what was said, whether that
    is news to the heartbeat, and what is broadcast. *)
Definition announce_address (secret : SecretKey) (addr : NodeAddr) (position : N) (said : option SignedAddress)
  : option SignedAddress * bool * option (list N) :=
  if addr_is_empty addr then (said, false, None)
  else match sign_address secret addr position with
       | Err _ => (said, false, None)
       | Ok signed =>
           let news := bool_decide (said ≠ Some signed) in
           (if news then Some signed else said, news, broadcast (ReachableAt signed))
       end.

(** The floor under the next turn, in nanoseconds: a reason to speak that
    comes sooner waits for it. *)
Definition LEAST_BETWEEN_ANNOUNCEMENTS : N := 5 * 1000000000.
Definition next_turn (turn reason : N) : N := N.max (turn + LEAST_BETWEEN_ANNOUNCEMENTS) reason.

(** ** Listening *)

Inductive GossipEvent : Type :=
| Received (content : list N)
| Lagged
| NeighborUp
| NeighborDown
| StreamFailed.

(** The directory, the hints sent, and whether the task has ended. *)
Record Listener : Type := MkListener {
  directory : Directory;
  hints : list Hint;
  ended : bool;
}.

(** [note_where_a_member_is]. *)
Definition note_where_a_member_is (signed : SignedAddress) (d : Directory) : Directory := (learn signed d).1.

(** An event of [listen], with whether anybody follows the log still. *)
Definition listen_one (is_core : bool) (l : Listener) (e : GossipEvent * bool) : Listener :=
  let send hint :=
    if is_core then l
    else if e.2 then MkListener (directory l) (hints l ++ [hint]) (ended l)
    else MkListener (directory l) (hints l) true in
  if ended l then l
  else match e.1 with
       | Received content =>
           match decode_announcement content with
           | Ok (ReachableAt signed) =>
               MkListener (note_where_a_member_is signed (directory l)) (hints l) (ended l)
           | Ok (AppliedUpTo up_to) => if is_core then l else send (Reaches up_to)
           | Err _ => l
           end
       | Lagged | NeighborUp | NeighborDown => send MayHaveMissed
       | StreamFailed => MkListener (directory l) (hints l) true
       end.
Definition listen (is_core : bool) (events : list (GossipEvent * bool)) (l : Listener) : Listener :=
  foldl (listen_one is_core) l events.

(** ** The group

    Each member with its address, its listener, and whether the directory's
    count of what it learned has moved since it last spoke; and what is on the
    way to whom. *)

Record Speaker : Type := MkSpeaker {
  secret_key : SecretKey;
  own_addr : NodeAddr;
  is_core_node : bool;
  listener : Listener;
  last_said : option SignedAddress;
  awake : bool;
}.

Record Group : Type := MkGroup {
  speakers : gmap MemberId Speaker;
  on_the_way : list (MemberId * list N);
}.

Definition spoke (s : Speaker) (said : option SignedAddress) : Speaker :=
  MkSpeaker (secret_key s) (own_addr s) (is_core_node s) (listener s) said false.

(** A turn of a member's announcing loop, at its log position, heard by
    [hearers]. *)
Definition speak (m : MemberId) (s : Speaker) (position : N) (hearers : list MemberId) (g : Group) : Group :=
  let '(said, _, sent) := announce_address (secret_key s) (own_addr s) position (last_said s) in
  MkGroup (<[m := spoke s said]> (speakers g))
    (on_the_way g ++ match sent with Some bytes => (λ h, (h, bytes)) <$> hearers | None => [] end).

(** What a member does with what reaches it. *)
Definition hear_content (content : list N) (s : Speaker) : Speaker :=
  let l := listen_one (is_core_node s) (listener s) (Received content, true) in
  MkSpeaker (secret_key s) (own_addr s) (is_core_node s) l (last_said s)
    (awake s || bool_decide (learned (directory l) ≠ learned (directory (listener s)))).

(** What happens to the group, and whether somebody spoke. *)
Inductive gossip_step : Group → bool → Group → Prop :=
| Speaks g m s position hearers :
    speakers g !! m = Some s → awake s = true →
    gossip_step g true (speak m s position hearers g)
| Hears g h s content before after :
    on_the_way g = before ++ (h, content) :: after → speakers g !! h = Some s →
    gossip_step g false (MkGroup (<[h := hear_content content s]> (speakers g)) (before ++ after))
| Loses g lost before after :
    on_the_way g = before ++ lost :: after →
    gossip_step g false (MkGroup (speakers g) (before ++ after)).

(** How often somebody spoke in a run. *)
Inductive gossip_run : Group → nat → Group → Prop :=
| RunEnds g : gossip_run g 0 g
| RunSteps g g' g'' said n :
    gossip_step g said g' → gossip_run g' n g'' → gossip_run g ((if said then 1 else 0) + n) g''.
End gossip.

(** ** The announcements end

    Hearing where somebody is makes a member say where it is, so everybody who
    speaks makes everybody speak. While nobody moves, that ends. *)

Section props.
Context `{GossipCodec} `{Lookup} `{EqDecision Signature} `{!LookupLaws} `{!GossipCodecLaws}.

Lemma learn_effect a d d' r :
  learn a d = (d', r) →
  (dir_lookup d' = dir_lookup d ∧ learned d' = learned d) ∨
  ∃ addr endpoint, address_of a = Ok addr ∧ to_endpoint_addr (address_member a) addr = Ok endpoint ∧
    get_endpoint_info (address_member a) (dir_lookup d) ≠ Some endpoint ∧
    get_endpoint_info (address_member a) (dir_lookup d') = Some endpoint ∧
    ∀ m, m ≠ address_member a → get_endpoint_info m (dir_lookup d') = get_endpoint_info m (dir_lookup d).
Proof.
  unfold learn. destruct (address_of a) as [addr|e] eqn:Ea; [|intros [= <- <-]; by left].
  destruct (addr_is_empty addr); [intros [= <- <-]; by left|].
  destruct (to_endpoint_addr _ _) as [endpoint|e] eqn:Et; [|intros [= <- <-]; by left].
  destruct (match signed_addresses d !! _ with Some _ => _ | None => _ end); [intros [= <- <-]; by left|].
  pose proof (to_endpoint_addr_spec _ _ _ Et) as (Hid & _).
  case_decide as Hheld; intros [= <- <-]; [by left|]. right. exists addr, endpoint. rewrite <-Hid in *. simpl.
  split_and!; try done.
  - apply get_replaced.
  - intros m Hne. rewrite get_other by done. by apply get_removed_other.
Qed.

(** What a member's statements are dialled as. *)
Definition dialled (g : Group) (m : MemberId) : option EndpointAddr :=
  s ← speakers g !! m;
  match to_endpoint_addr m (own_addr s) with Ok endpoint => Some endpoint | Err _ => None end.

Definition known_by (s : Speaker) (m : MemberId) : option EndpointAddr :=
  get_endpoint_info m (dir_lookup (directory (listener s))).

(** Who does not know where who is, and who has a reason to speak. *)
Definition unaware (g : Group) (p : MemberId * MemberId) : Prop :=
  ∃ s, speakers g !! p.1 = Some s ∧ known_by s p.2 ≠ dialled g p.2.
#[export] Instance unaware_dec g p : Decision (unaware g p).
Proof.
  refine (match speakers g !! p.1 as o return speakers g !! p.1 = o → _ with
          | Some s => λ Hs, cast_if (decide (known_by s p.2 ≠ dialled g p.2))
          | None => λ Hs, right _
          end eq_refl).
  - by exists s.
  - intros (s' & Hs' & Hne). rewrite Hs in Hs'. by injection Hs' as <-.
  - intros (s' & Hs' & _). congruence.
Defined.
Definition stirred (g : Group) (m : MemberId) : Prop := ∃ s, speakers g !! m = Some s ∧ awake s = true.
#[export] Instance stirred_dec g m : Decision (stirred g m).
Proof.
  refine (match speakers g !! m as o return speakers g !! m = o → _ with
          | Some s => λ Hs, cast_if (decide (awake s = true))
          | None => λ Hs, right _
          end eq_refl).
  - by exists s.
  - intros (s' & Hs' & Hne). rewrite Hs in Hs'. by injection Hs' as <-.
  - intros (s' & Hs' & _). congruence.
Defined.

Definition members_of (g : Group) : gset MemberId := dom (speakers g).
Definition unaware_pairs (g : Group) : gset (MemberId * MemberId) :=
  filter (unaware g) (cprod (members_of g) (members_of g)).
Definition stirred_members (g : Group) : gset MemberId := filter (stirred g) (members_of g).

(** What is left to say. *)
Definition left_to_say (g : Group) : nat := size (unaware_pairs g) + size (stirred_members g).

(** Every member speaks for itself, and what is on the way says where members
    are. *)
Definition group_ok (g : Group) : Prop :=
  (∀ m s, speakers g !! m = Some s → public (secret_key s) = m) ∧
  (∀ h content signed a, (h, content) ∈ on_the_way g → decode_announcement content = Ok (ReachableAt signed) →
     address_of signed = Ok a → ∃ s, speakers g !! address_member signed = Some s ∧ a = own_addr s).

Lemma unaware_pairs_spec g h m :
  (h, m) ∈ unaware_pairs g ↔ unaware g (h, m) ∧ is_Some (speakers g !! m).
Proof.
  unfold unaware_pairs, members_of. rewrite elem_of_filter, elem_of_gset_cprod, !elem_of_dom. simpl.
  split; [tauto|]. intros [(s & Hs & Hne) Hm]. split_and!; [by exists s|by eexists|done].
Qed.

Lemma stirred_members_spec g m : m ∈ stirred_members g ↔ stirred g m.
Proof.
  unfold stirred_members, members_of. rewrite elem_of_filter, elem_of_dom.
  split; [tauto|]. intros (s & Hs & Ha). split; [by exists s|by eexists].
Qed.

(** A member whose address is what it was is dialled as it was. *)
Lemma dialled_insert g m s s' way way' :
  speakers g !! m = Some s → own_addr s' = own_addr s →
  ∀ m', dialled (MkGroup (<[m := s']> (speakers g)) way) m' = dialled (MkGroup (speakers g) way') m'.
Proof.
  intros Hs Ha m'. unfold dialled. simpl. destruct (decide (m' = m)) as [->|Hne].
  - by rewrite lookup_insert_eq, Hs; simpl; rewrite Ha.
  - by rewrite lookup_insert_ne.
Qed.

Lemma is_Some_insert {A} (l : gmap MemberId A) m s s' m' :
  l !! m = Some s → is_Some (<[m := s']> l !! m') ↔ is_Some (l !! m').
Proof.
  intros Hs. destruct (decide (m' = m)) as [->|Hne]; [|by rewrite lookup_insert_ne].
  rewrite lookup_insert_eq, Hs. split; intros _; by eexists.
Qed.

Lemma speaks_less g m s position hearers :
  speakers g !! m = Some s → awake s = true →
  (left_to_say (speak m s position hearers g) < left_to_say g)%nat.
Proof.
  intros Hs Ha. unfold speak. destruct (announce_address _ _ _ _) as [[said news] sent].
  set (g' := MkGroup _ _).
  assert (∀ m', dialled g' m' = dialled g m') as Hdial.
  { intros m'. unfold g'. by rewrite (dialled_insert g m s _ _ (on_the_way g)). }
  assert (unaware_pairs g' = unaware_pairs g) as Hu.
  { apply set_eq. intros [h x]. rewrite !unaware_pairs_spec. unfold unaware. cbn [fst snd]. rewrite Hdial.
    unfold g'. cbn [speakers]. rewrite (is_Some_insert _ m s) by done. f_equiv.
    destruct (decide (h = m)) as [->|Hne]; [|by rewrite lookup_insert_ne].
    rewrite lookup_insert_eq, Hs. split; intros (y & [= <-] & Hy); by eexists. }
  unfold left_to_say. rewrite Hu. apply Nat.add_lt_mono_l, subset_size. split.
  - intros x. rewrite !stirred_members_spec. unfold stirred. simpl. intros (y & Hy & Hay).
    destruct (decide (x = m)) as [->|Hne]; [by exists s|]. rewrite lookup_insert_ne in Hy by done. by exists y.
  - intros Hsub. assert (m ∈ stirred_members g') as Hm.
    { apply Hsub, stirred_members_spec. by exists s. }
    apply stirred_members_spec in Hm as (y & Hy & Hay). simpl in Hy. rewrite lookup_insert_eq in Hy.
    by injection Hy as <-.
Qed.

(** What hearing something changes of a member: nothing anybody is dialled by,
    or where one member is. *)
Lemma hear_content_effect content s :
  let s' := hear_content content s in
  (known_by s' = known_by s ∧ awake s' = awake s) ∨
  ∃ signed a endpoint, decode_announcement content = Ok (ReachableAt signed) ∧ address_of signed = Ok a ∧
    to_endpoint_addr (address_member signed) a = Ok endpoint ∧
    known_by s (address_member signed) ≠ Some endpoint ∧ known_by s' (address_member signed) = Some endpoint ∧
    ∀ m, m ≠ address_member signed → known_by s' m = known_by s m.
Proof.
  assert (∀ n : N, bool_decide (n ≠ n) = false) as Hsame by (intros n; apply bool_decide_false; tauto).
  unfold hear_content, known_by, listen_one. cbn [fst snd directory listener awake].
  destruct (ended (listener s)) eqn:Ee; cbn [directory].
  { left. by rewrite Hsame, orb_false_r. }
  destruct (decode_announcement content) as [[up_to|signed]|e] eqn:Ed; cbn [directory].
  - left. destruct (is_core_node s); cbn [directory]; by rewrite Hsame, orb_false_r.
  - unfold note_where_a_member_is. destruct (learn signed (directory (listener s))) as [d' r] eqn:El. cbn [fst].
    apply learn_effect in El as [[Hd Hn]|(a & endpoint & Ha & Ht & Hl)].
    + left. by rewrite Hd, Hn, Hsame, orb_false_r.
    + right. by exists signed, a, endpoint.
  - left. by rewrite Hsame, orb_false_r.
Qed.

Lemma hear_content_own content s :
  own_addr (hear_content content s) = own_addr s ∧ secret_key (hear_content content s) = secret_key s.
Proof. done. Qed.

Lemma way_lost {A} (before : list A) x after l : l = before ++ x :: after → before ++ after ⊆ l.
Proof. intros ->. set_solver. Qed.

Lemma loses_no_more g lost before after :
  on_the_way g = before ++ lost :: after → left_to_say (MkGroup (speakers g) (before ++ after)) = left_to_say g.
Proof. done. Qed.

Lemma hears_no_more g h s content way :
  group_ok g → speakers g !! h = Some s → (h, content) ∈ on_the_way g →
  (left_to_say (MkGroup (<[h := hear_content content s]> (speakers g)) way) ≤ left_to_say g)%nat.
Proof.
  intros [_ Hway] Hs Hin. set (g' := MkGroup _ way).
  assert (∀ m', dialled g' m' = dialled g m') as Hdial.
  { intros m'. unfold g'. by rewrite (dialled_insert g h s _ _ (on_the_way g)); [|done|apply hear_content_own]. }
  destruct (hear_content_effect content s) as [[Hk Ha]|(signed & a & endpoint & Hd & Ha & Ht & Hne & Heq & Ho)].
  - apply Nat.eq_le_incl. unfold left_to_say.
    assert (unaware_pairs g' = unaware_pairs g) as ->; [|assert (stirred_members g' = stirred_members g) as ->; [|done]];
      apply set_eq.
    + intros [x m]. rewrite !unaware_pairs_spec. unfold unaware. cbn [fst snd]. rewrite Hdial.
      unfold g'. cbn [speakers]. rewrite (is_Some_insert _ h s) by done. f_equiv.
      destruct (decide (x = h)) as [->|Hx]; [|by rewrite lookup_insert_ne].
      rewrite lookup_insert_eq, Hs.
      split; intros (y & [= <-] & Hy); eexists; split; try done; [by rewrite <-Hk|by rewrite Hk].
    + intros m. rewrite !stirred_members_spec. unfold stirred, g'. cbn [speakers].
      destruct (decide (m = h)) as [->|Hx]; [|by rewrite lookup_insert_ne].
      rewrite lookup_insert_eq, Hs. split; intros (y & [= <-] & Hy); eexists; split; try done; congruence.
  - destruct (Hway h content signed a Hin Hd Ha) as (s0 & Hs0 & ->).
    assert (dialled g (address_member signed) = Some endpoint) as Hdm by (unfold dialled; rewrite Hs0; simpl; by rewrite Ht).
    assert (size (unaware_pairs g') < size (unaware_pairs g)) as Hu.
    { apply subset_size. split.
      - intros [x m]. rewrite !unaware_pairs_spec. unfold unaware. cbn [fst snd]. rewrite Hdial.
        unfold g'. cbn [speakers]. rewrite (is_Some_insert _ h s) by done.
        intros [(y & Hy & Hny) Hm]. split; [|done].
        destruct (decide (x = h)) as [->|Hx]; [|by rewrite lookup_insert_ne in Hy by done; exists y].
        rewrite lookup_insert_eq in Hy. injection Hy as <-. exists s. split; [done|].
        destruct (decide (m = address_member signed)) as [->|Hm']; [by rewrite Hdm|by rewrite <-Ho].
      - intros Hsub. assert ((h, address_member signed) ∈ unaware_pairs g') as Hin'.
        { apply Hsub, unaware_pairs_spec. split; [|by eexists]. exists s. split; [done|]. cbn [snd]. by rewrite Hdm. }
        apply unaware_pairs_spec in Hin' as [(y & Hy & Hny) _]. cbn [fst snd] in Hy, Hny.
        unfold g' in Hy. cbn [speakers] in Hy. rewrite lookup_insert_eq in Hy. injection Hy as <-.
        apply Hny. by rewrite Hdial, Hdm. }
    assert (size (stirred_members g') ≤ S (size (stirred_members g))) as Hst.
    { trans (size ({[h]} ∪ stirred_members g)).
      - apply subseteq_size. intros m. rewrite elem_of_union, elem_of_singleton, !stirred_members_spec.
        unfold stirred, g'. cbn [speakers]. intros (y & Hy & Hay).
        destruct (decide (m = h)) as [->|Hx]; [by left|right]. rewrite lookup_insert_ne in Hy by done. by exists y.
      - pose proof (size_union_alt ({[h]} : gset MemberId) (stirred_members g)) as Hsz. rewrite size_singleton in Hsz.
        assert (size (stirred_members g ∖ {[h]}) ≤ size (stirred_members g)) by (apply subseteq_size; set_solver). lia. }
    unfold left_to_say. lia.
Qed.

Lemma announced_ok s position said news bytes signed a :
  announce_address (secret_key s) (own_addr s) position (last_said s) = (said, news, Some bytes) →
  decode_announcement bytes = Ok (ReachableAt signed) → address_of signed = Ok a →
  address_member signed = public (secret_key s) ∧ a = own_addr s.
Proof.
  unfold announce_address. destruct (addr_is_empty (own_addr s)); [done|].
  unfold sign_address. destruct (address_payload _ _ _) as [payload|e]; cbn [result_bind]; [|done].
  unfold broadcast. destruct (encode_announcement _) as [encoded|e] eqn:Ee; [|done]. intros [= _ _ <-].
  rewrite (decode_encoded _ _ Ee). intros [= <-]. intros Ha%address_of_ok. by rewrite Ha.
Qed.

Lemma gossip_step_ok g said g' : group_ok g → gossip_step g said g' → group_ok g'.
Proof.
  intros [Hown Hway] Hstep. destruct Hstep as [g m s position hearers Hs _|g h s content before after Hw Hs|g lost before after Hw].
  - unfold speak. destruct (announce_address _ _ _ _) as [[said news] sent] eqn:Ea.
    assert (∀ m', own_addr <$> (<[m := spoke s said]> (speakers g) !! m') = own_addr <$> (speakers g !! m')) as Haddr.
    { intros m'. destruct (decide (m' = m)) as [->|Hne]; [by rewrite lookup_insert_eq, Hs|by rewrite lookup_insert_ne]. }
    split; cbn [speakers on_the_way].
    + intros m' s'. rewrite lookup_insert_Some. intros [[<- <-]|[_ Hs']]; [exact (Hown _ _ Hs)|by apply Hown].
    + intros h content signed a Hin Hd Ha. specialize (Haddr (address_member signed)).
      assert (∃ s0, speakers g !! address_member signed = Some s0 ∧ a = own_addr s0) as (s0 & Hs0 & ->).
      { apply elem_of_app in Hin as [Hin|Hin]; [by eapply Hway|].
        destruct sent as [bytes|]; [|by apply elem_of_nil in Hin].
        apply list_elem_of_fmap in Hin as (x & [= -> ->] & _).
        destruct (announced_ok _ _ _ _ _ _ _ Ea Hd Ha) as [-> ->]. exists s. by rewrite (Hown _ _ Hs). }
      rewrite Hs0 in Haddr. destruct (<[m := _]> (speakers g) !! _) as [s1|]; [|done].
      injection Haddr as Haddr. by exists s1.
  - split; cbn [speakers on_the_way].
    + intros m' s'. rewrite lookup_insert_Some. intros [[<- <-]|[_ Hs']]; [exact (Hown _ _ Hs)|by apply Hown].
    + intros x content' signed a Hin Hd Ha.
      destruct (Hway x content' signed a (way_lost _ _ _ _ Hw _ Hin) Hd Ha) as (s0 & Hs0 & ->).
      destruct (decide (address_member signed = h)) as [Heq|Hne].
      * rewrite Heq in Hs0 |- *. rewrite lookup_insert_eq. eexists. split; [done|]. rewrite Hs in Hs0. by injection Hs0 as <-.
      * rewrite lookup_insert_ne by done. by exists s0.
  - split; [done|]. intros x content' signed a Hin. apply (Hway x content' signed a (way_lost _ _ _ _ Hw _ Hin)).
Qed.

Lemma gossip_step_less g said g' :
  group_ok g → gossip_step g said g' →
  ((if said then 1 else 0) + left_to_say g' ≤ left_to_say g)%nat ∧
  (said = false → (length (on_the_way g') < length (on_the_way g))%nat).
Proof.
  intros Hok Hstep. destruct Hstep as [g m s position hearers Hs Ha|g h s content before after Hw Hs|g lost before after Hw].
  - split; [|done]. by apply (speaks_less g m s position hearers).
  - split; [|intros _; rewrite Hw; cbn; rewrite !length_app; cbn; lia].
    apply (hears_no_more g h s content); [done..|]. rewrite Hw. set_solver.
  - split; [by rewrite (loses_no_more _ _ _ _ Hw)|]. intros _. rewrite Hw. cbn. rewrite !length_app. cbn. lia.
Qed.

Lemma size_pairs (X Y : gset MemberId) : (size (cprod X Y : gset (MemberId * MemberId)) ≤ size X * size Y)%nat.
Proof.
  unfold size at 1, set_size. simpl. unfold size, set_size. simpl. rewrite <-length_prod.
  apply submseteq_length, NoDup_submseteq; [apply NoDup_elements|]. intros [x y].
  rewrite elem_of_elements, elem_of_gset_cprod, list_elem_of_In, in_prod_iff, <-!list_elem_of_In, !elem_of_elements. done.
Qed.

Lemma left_to_say_bound g : (left_to_say g ≤ size (speakers g) * size (speakers g) + size (speakers g))%nat.
Proof.
  unfold left_to_say. assert (size (members_of g) = size (speakers g)) as Hsz by apply size_dom.
  pose proof (size_pairs (members_of g) (members_of g)).
  assert (size (unaware_pairs g) ≤ size (cprod (members_of g) (members_of g) : gset (MemberId * MemberId)))%nat
    by (apply subseteq_size; unfold unaware_pairs; set_solver).
  assert (size (stirred_members g) ≤ size (members_of g))%nat by (apply subseteq_size; unfold stirred_members; set_solver).
  rewrite Hsz in *. lia.
Qed.

(** C29: While nobody's address changes, the announcements end, in whatever
    order members speak and hear and whatever is lost: every run of the group
    is finite, and in none of them do [n] members speak more than [n * n + n]
    times between them, however many copies of each announcement there are. *)
Theorem announcements_end g :
  group_ok g →
  Acc (λ g' g, ∃ said, gossip_step g said g') g ∧
  ∀ spoken g', gossip_run g spoken g' → (spoken ≤ size (speakers g) * size (speakers g) + size (speakers g))%nat.
Proof.
  intros Hok. split.
  - remember (left_to_say g) as left eqn:Hl. remember (length (on_the_way g)) as way eqn:Hw.
    revert way g Hok Hl Hw. induction left as [left IHl] using lt_wf_ind.
    intros way. induction way as [way IHw] using lt_wf_ind. intros g Hok -> ->.
    constructor. intros g' (said & Hstep). pose proof (gossip_step_ok _ _ _ Hok Hstep) as Hok'.
    destruct (gossip_step_less _ _ _ Hok Hstep) as [Hless Hway].
    destruct (decide (left_to_say g' < left_to_say g)%nat) as [Hlt|Hge]; [by eapply IHl|].
    destruct said; [lia|]. apply (IHw (length (on_the_way g'))); [by apply Hway|done|lia|done].
  - intros spoken g' Hrun.
    assert (spoken + left_to_say g' ≤ left_to_say g)%nat as Hle; [|pose proof (left_to_say_bound g); lia].
    induction Hrun as [g|g g' g'' said n Hstep Hrun IH]; [done|].
    pose proof (gossip_step_less _ _ _ Hok Hstep) as [Hless _].
    specialize (IH (gossip_step_ok _ _ _ Hok Hstep)). lia.
Qed.
End props.

(** ** Two members who meet *)

#[export] Instance test_gossip : GossipCodec := {|
  encode_announcement a :=
    match a with AppliedUpTo n => Ok [0; n]%N | ReachableAt signed => Ok [1; Npos (encode signed)]%N end;
  decode_announcement bytes :=
    match bytes with
    | [N0; n] => Ok (AppliedUpTo n)
    | [1%N; Npos p] => match decode p with Some signed => Ok (ReachableAt signed) | None => Err "not an announcement" end
    | _ => Err "not an announcement"
    end;
|}.

#[export] Instance test_gossip_laws : GossipCodecLaws.
Proof.
  constructor. intros [up_to|signed] bytes [= <-]; [done|]. cbn [decode_announcement test_gossip].
  by rewrite decode_encode.
Qed.

Definition at_home (n : N) : NodeAddr := {| relay := None; direct := {[SocketV4 n n]} |}.
Definition new_speaker (n : N) : Speaker :=
  MkSpeaker n (at_home n) false (MkListener default_directory [] false) None true.
Definition two_members : Group := MkGroup (<[member 1 := new_speaker 1]> (<[member 2 := new_speaker 2]> ∅)) [].

(** Both speak, each hears the other, and both have something to answer. *)
Definition met : Group :=
  let g := speak (member 1) (new_speaker 1) 4 [member 2] two_members in
  let g := speak (member 2) (new_speaker 2) 4 [member 1] g in
  foldl (λ g h, match speakers g !! h.1 with
                | Some s => MkGroup (<[h.1 := hear_content h.2 s]> (speakers g)) []
                | None => g end) g (on_the_way g).

Example each_hears_the_other :
  (λ m, (directory_address_of (directory (listener m)) (member 1), directory_address_of (directory (listener m)) (member 2),
     awake m)) <$> speakers met =
  <[member 1 := (None, Some (at_home 2), true)]> (<[member 2 := (Some (at_home 1), None, true)]> ∅).
Proof. by_decision. Qed.

Lemma announcements_end_witness :
  Acc (λ g' g, ∃ said, gossip_step g said g') two_members ∧
  ∀ spoken g', gossip_run two_members spoken g' → (spoken ≤ 6)%nat.
Proof.
  refine (announcements_end two_members _). split.
  - intros m s. unfold two_members. cbn [speakers]. rewrite !lookup_insert_Some, lookup_empty.
    intros [[<- <-]|[_ [[<- <-]|[_ ?]]]]; done.
  - intros h content signed a Hin. by apply elem_of_nil in Hin.
Defined.
