(* ===== verification/Beating.v ===== *)
(** * Telling the group that this node is online

    The beating half of [crates/distlib-sync/src/availability/heartbeat.rs]:
    when a beat goes out, what it carries, and the goodbye. A turn of [beat] is
    what it does before its [select!]; the clock, the draws and whether the
    blob store takes a list are arguments. *)

From stdpp Require Import strings.
From S2P Require Import Prelude Ids GroupSettings Events Membership Fixtures RaftState Follower Holders Heartbeats Online HeartbeatFixtures Directory Statements Gossip.
From S2P Require Holders Online.

(** [b"distlib.availability.v1"]. *)
Definition TOPIC_TAG : list N :=
  [100; 105; 115; 116; 108; 105; 98; 46; 97; 118; 97; 105; 108; 97; 98; 105; 108; 105; 116; 121; 46; 118; 49]%N.
(** In nanoseconds. *)
Definition GOODBYE_GRACE : N := 250 * 1000000.
Definition CHANGE_FLOOR : N := 10 * Online.SECOND.

(** [jittered]: a draw within a tenth of [interval], to the nanosecond its
    [f64] rounds to. *)
Definition jitters (interval due : N) : Prop := (9 * interval ≤ 10 * due + 10)%N ∧ (10 * due ≤ 11 * interval + 10)%N.

Section beating.
Context `{HeartbeatCodec}.

(** [topic_for] of the heartbeat: the bytes hashed. *)
Definition availability_topic (group : GroupId) : Id32 := blake3 (TOPIC_TAG ++ id_bytes (group_id32 group)).

(** [Said]. *)
Record Said : Type := MkSaid { said_group : GroupId; said_beat : Heartbeat }.

(** What [beat] keeps from turn to turn, with what it shares with [leave]. *)
Record Beater : Type := MkBeater {
  beater_statement : Statement;
  beater_seq : N;
  last_beat : N;
  said : option Said;
}.
Definition new_beater (now : N) : Beater := MkBeater new_statement 0 now None.

(** [say]: what is broadcast, if it can be signed and encoded. *)
Definition say (secret_key : SecretKey) (group : GroupId) (beat : Heartbeat) : option (list N) :=
  match (signed ←? sign_heartbeat secret_key group beat ;; encode_heartbeat signed) with
  | Ok bytes => Some bytes
  | Err _ => None
  end.

(** What a turn finds. *)
Record Moment : Type := MkMoment {
  members_count : N;
  own_address : option SignedAddress;
  held_now : gset ItemId;
  held_changed_at : N;
  now : N;
  after : N;
  stored : result string unit;
}.

(** A turn of [beat], and the beat it says. *)
Definition beat_turn (group : GroupId) (epoch interval : N) (w : Moment) (b : Beater) : Beater * option Heartbeat :=
  let stretched := Online.stretch interval (members_count w) in
  match own_address w with
  | None => (b, None)
  | Some address =>
      match state_holdings (stored w) (held_now w) (held_changed_at w) (now w) (beater_statement b) with
      | (s, Ok holdings) =>
          let seq := wrap64 (beater_seq b + 1) in
          let beat := MkHeartbeat address epoch seq (Online.whole_seconds stretched) holdings false in
          (MkBeater s seq (after w) (Some (MkSaid group beat)), Some beat)
      | (s, Err _) => (MkBeater s (beater_seq b) (last_beat b) (said b), None)
      end
  end.

(** What ends the [select!], and when the next turn is; [None] ends the loop. *)
Inductive BeatWake : Type :=
| BeatDue
| NeighbourUp (at_ : N)
| AddressSaid (at_ : N)
| AddressGone
| HeldChanged (at_ : N).
Definition next_beat (due : N) (b : Beater) (w : BeatWake) : option N :=
  match w with
  | BeatDue => Some due
  | NeighbourUp at_ | AddressSaid at_ => Some at_
  | AddressGone => None
  | HeldChanged at_ => Some (N.max at_ (N.min (last_beat b + CHANGE_FLOOR) due))
  end.

(** ** The handle *)

(** [Availability], as far as it ends the beating. *)
Record Availability : Type := MkAvailability { beats : Beater; task_runs : bool }.

(** [leave]: the goodbye. *)
Definition leave (a : Availability) : Availability * option Heartbeat :=
  let b := beats a in
  let stopped := MkAvailability (MkBeater (beater_statement b) (beater_seq b) (last_beat b) None) false in
  match said b with
  | None => (stopped, None)
  | Some s =>
      let beat := said_beat s in
      (stopped, Some (MkHeartbeat (beat_address beat) (beat_epoch beat) (wrap64 (beat_seq beat + 1)) (interval_secs beat)
         (beat_holdings beat) true))
  end.

(** [shutdown]. *)
Definition shutdown (a : Availability) : Availability := MkAvailability (beats a) false.

(** [set_failed_copies], with whom [availability.changed] is told of. *)
Definition tell_failed_copies (failed : gset (MemberId * ItemId)) (h : Holders.Holders) : Holders.Holders * list MemberId :=
  let '(h, changed) := Holders.set_failed_copies failed h in (h, elements changed).

(** A turn of the task: nothing once it is stopped. *)
Definition available_turn (group : GroupId) (epoch interval : N) (w : Moment) (a : Availability) : Availability * option Heartbeat :=
  if task_runs a then let '(b, said) := beat_turn group epoch interval w (beats a) in (MkAvailability b true, said)
  else (a, None).

Context `{!Openraft} `{Lookup}.

(** [join_when_founded]: whom the topic is joined through, once there is a
    group. *)
Definition join_when_founded (membership : MembershipState) (me : MemberId) (directory : Directory)
  : option (Id32 * list MemberId) :=
  g ← group membership;
  Some (availability_topic g, (reachable membership me directory).*1).
End beating.

(** ** Beats are news, and a goodbye is the last of them

    Each beat of a run is newer than those before it, is made no later than
    its promised interval after the last, and whatever of a run is heard again
    after its goodbye, its sender stays offline. *)

Section props.
Context `{HeartbeatCodec}.

(** A run of the beating half, and what it said. *)
Fixpoint beat_run (g : GroupId) (epoch interval : N) (ws : list Moment) (b : Beater) : Beater * list Heartbeat :=
  match ws with
  | [] => (b, [])
  | w :: ws =>
      let '(b, said1) := beat_turn g epoch interval w b in
      let '(b, said2) := beat_run g epoch interval ws b in
      (b, option_list said1 ++ said2)
  end.

(** A beat that [m] says in run [epoch], between two sequence numbers. *)
Definition beat_of (m : MemberId) (epoch lo hi : N) (beat : Heartbeat) : Prop :=
  address_member (beat_address beat) = m ∧ beat_epoch beat = epoch ∧ leaving beat = false ∧ (lo < beat_seq beat ≤ hi)%N.

Definition speaks_as (m : MemberId) (w : Moment) : Prop := ∀ a, own_address w = Some a → address_member a = m.

(** What was said last is of this run, and the last number given. *)
Definition said_last (m : MemberId) (epoch : N) (b : Beater) : Prop :=
  match said b with Some s => beat_of m epoch 0 (beater_seq b) (said_beat s) ∧ beat_seq (said_beat s) = beater_seq b | None => beater_seq b = 0%N end.

Lemma beat_turn_spec m g epoch interval w b b' said1 :
  speaks_as m w → said_last m epoch b → (beater_seq b + 1 < 2 ^ 64)%N → beat_turn g epoch interval w b = (b', said1) →
  said_last m epoch b' ∧
  match said1 with
  | Some beat => beat_of m epoch (beater_seq b) (beater_seq b') beat ∧ beater_seq b' = (beater_seq b + 1)%N ∧
      interval_secs beat = whole_seconds (stretch interval (members_count w))
  | None => beater_seq b' = beater_seq b
  end.
Proof.
  intros Hm Hs Hlt. unfold beat_turn. destruct (own_address w) as [a|] eqn:Ea; [|by intros [= <- <-]].
  destruct (state_holdings _ _ _ _ _) as [s [holdings|e]]; [|by intros [= <- <-]].
  assert (wrap64 (beater_seq b + 1) = beater_seq b + 1)%N as Hw by (unfold wrap64; by apply N.mod_small).
  intros [= <- <-]. unfold said_last, beat_of. cbn. rewrite Hw, (Hm a Ea). split_and!; try done; lia.
Qed.

Lemma beat_run_spec m g epoch interval ws b b' l :
  Forall (speaks_as m) ws → said_last m epoch b → (beater_seq b + N.of_nat (length ws) < 2 ^ 64)%N →
  beat_run g epoch interval ws b = (b', l) →
  said_last m epoch b' ∧ (beater_seq b ≤ beater_seq b' ≤ beater_seq b + N.of_nat (length ws))%N ∧
  Forall (beat_of m epoch (beater_seq b) (beater_seq b')) l ∧ StronglySorted (λ x y, (beat_seq x < beat_seq y)%N) l.
Proof.
  revert b b' l. induction ws as [|w ws IH]; intros b b' l Hws Hs Hlt; cbn [beat_run].
  - intros [= <- <-]. split_and!; [done|lia|lia|done|constructor].
  - apply Forall_cons in Hws as [Hw Hws]. destruct (beat_turn g epoch interval w b) as [b1 said1] eqn:Et.
    destruct (beat_run g epoch interval ws b1) as [b2 said2] eqn:Er. intros [= <- <-]. cbn [length] in Hlt.
    destruct (beat_turn_spec m g epoch interval w b b1 said1 Hw Hs ltac:(lia) Et) as [Hs1 Ht].
    assert (beater_seq b ≤ beater_seq b1 ≤ beater_seq b + 1)%N as Hb1 by (destruct said1; lia).
    destruct (IH b1 b2 said2 Hws Hs1 ltac:(lia) Er) as (Hs2 & Hb2 & Hl & Hsort).
    assert (Forall (beat_of m epoch (beater_seq b) (beater_seq b2)) said2) as Hl'.
    { eapply Forall_impl; [exact Hl|]. unfold beat_of. intros x Hx. intuition lia. }
    split_and!; [done|cbn [length]; lia|cbn [length]; lia| |]; destruct said1 as [beat|]; try done.
    + constructor; [|done]. destruct Ht as (Hb & Hseq & _). unfold beat_of in *. intuition lia.
    + constructor; [done|]. destruct Ht as (Hb & Hseq & _). eapply Forall_impl; [exact Hl|]. unfold beat_of in *. intros x Hx. intuition lia.
Qed.

(** ** The goodbye, heard *)

(** A step of a receiver in which nothing of [m]'s run is heard but what was
    said of it, and [m] is not expelled. *)
Definition hears_of_run (m : MemberId) (epoch : N) (l : list Heartbeat) (s : OnlineStep) : Prop :=
  match s with
  | Hear beat _ _ => address_member (beat_address beat) = m → beat_epoch beat = epoch → beat ∈ l
  | RunOut _ => True
  | Admit is_member => is_member m = true
  end.

Definition held_below (m : MemberId) (epoch hi : N) (o : Online) : Prop :=
  ∀ h, heard_from o !! m = Some h → heard_epoch h = epoch → (heard_seq h ≤ hi)%N.

Lemma step_held_below m epoch l hi o s :
  Forall (beat_of m epoch 0 hi) l → hears_of_run m epoch l s → held_below m epoch hi o → held_below m epoch hi (online_step o s).
Proof.
  intros Hl Hs Hh h. destruct s as [beat now is_member|now|is_member]; cbn [online_step hears_of_run] in *.
  - unfold heard. destruct (_ || _); [apply Hh|].
    destruct (match heard_from o !! _ with Some held => stale held beat | None => false end); [apply Hh|]. cbn.
    destruct (decide (address_member (beat_address beat) = m)) as [Heq|Hne].
    + rewrite Heq, lookup_insert_eq. intros [= <-] He. cbn in *. specialize (Hs Heq He). rewrite Forall_forall in Hl.
      destruct (Hl beat Hs) as (_ & _ & _ & ?). lia.
    + rewrite lookup_insert_ne by done. apply Hh.
  - cbn. rewrite lookup_fmap. destruct (heard_from o !! m) as [h0|] eqn:E; [|done]. cbn. intros [= <-] He.
    unfold expire_one in *. destruct (until h0); [case_bool_decide|]; cbn in *; by apply (Hh h0).
  - cbn. rewrite map_lookup_filter. destruct (heard_from o !! m) as [h0|] eqn:E; [|done]. cbn.
    intros (h1 & Hg & Hr)%bind_Some. injection Hr as ->. by apply Hh.
Qed.

Lemma run_held_below m epoch l hi o steps :
  Forall (beat_of m epoch 0 hi) l → Forall (hears_of_run m epoch l) steps → held_below m epoch hi o →
  held_below m epoch hi (foldl online_step o steps).
Proof.
  intros Hl Hs. revert o. induction Hs as [|s steps Hs _ IH]; intros o Hh; [done|]. cbn [foldl]. apply IH.
  by eapply step_held_below.
Qed.

(** Each beat of a run is newer than those before. When a node leaves, its
    goodbye follows the last of them, if it ever beat; and a member that hears
    it holds the node offline for good, whichever beats of that run it has
    heard, missed, or hears again, in whatever order and however late. *)
Theorem goodbye_is_the_last m g epoch interval t0 ws b l :
  Forall (speaks_as m) ws → (N.of_nat (length ws) + 1 < 2 ^ 64)%N →
  beat_run g epoch interval ws (new_beater t0) = (b, l) →
  StronglySorted (λ x y, (beat_seq x < beat_seq y)%N) l ∧
  ((leave (MkAvailability b true)).2 = None → l = []) ∧
  ∀ bye me before after now is_member,
    (leave (MkAvailability b true)).2 = Some bye → me ≠ m → is_member m = true →
    Forall (hears_of_run m epoch l) before → Forall (hears_of_run m epoch (bye :: l)) after →
    Forall (λ s, match s with Hear x _ _ => address_member (beat_address x) = m → beat_epoch x = epoch | _ => True end) after →
    m ∉ online (foldl online_step (heard bye now is_member (foldl online_step (new_online me) before)).1 after).
Proof.
  intros Hws Hlen Hrun.
  destruct (beat_run_spec m g epoch interval ws (new_beater t0) b l Hws eq_refl ltac:(cbn; lia) Hrun) as (Hlast & Hseq & Hl & Hsort).
  cbn [beater_seq new_beater] in *. split_and!; [done| |].
  - unfold leave. cbn. unfold said_last in Hlast. destruct (said b); [done|]. intros _.
    destruct l as [|x l]; [done|]. apply Forall_cons in Hl as [(_ & _ & _ & ?) _]. lia.
  - intros bye me before after_ now_ is_member Hbye Hme Hmem Hbefore Hafter Hepoch.
    unfold leave in Hbye. cbn in Hbye. unfold said_last in Hlast. destruct (said b) as [s|]; [|done].
    destruct Hlast as [(Ha & He & _ & _) Hsq].
    assert (address_member (beat_address bye) = m ∧ beat_epoch bye = epoch ∧ leaving bye = true ∧ beat_seq bye = beater_seq b + 1)%N
      as (Hba & Hbe & Hbl & Hbs).
    { injection Hbye as <-. cbn. split_and!; [done|done|done|]. rewrite Hsq. unfold wrap64. apply N.mod_small. lia. }
    clear Hbye. set (o := foldl online_step (new_online me) before).
    assert (held_below m epoch (beater_seq b) o) as Hh by (eapply run_held_below; [done|done|intros h; cbn; by rewrite lookup_empty]).
    assert (online_me o = me) as Hom.
    { unfold o. clear. generalize (new_online me) as o0, (eq_refl me : online_me (new_online me) = me).
      induction before as [|s before IH]; intros o0 Ho; [done|]. cbn [foldl]. apply IH.
      destruct s as [x n im| |]; cbn; [|done|done]. unfold heard. destruct (_ || _); [done|].
      by destruct (match heard_from o0 !! _ with Some held => stale held x | None => false end). }
    assert (heard_from (heard bye now_ is_member o).1 !! m = Some (MkHeardBeat epoch (beater_seq b + 1) None)) as Hheld.
    { unfold heard. rewrite Hba, Hom, Hbe, Hbl, Hbs, Hmem. rewrite bool_decide_false by done. cbn [orb negb].
      destruct (heard_from o !! m) as [h|] eqn:Eh; cbn; [|by rewrite lookup_insert_eq].
      unfold stale. rewrite Hbe, Hbs, bool_decide_false; [cbn; by rewrite lookup_insert_eq|].
      intros [Hep Hle]. specialize (Hh h Eh Hep). lia. }
    intros Hon. apply (online_run_quiet m _ _ _ Hheld) in Hon as (t & Ht & _); [done|].
    rewrite Forall_forall in Hafter, Hepoch |- *. intros st Hin. specialize (Hafter st Hin). specialize (Hepoch st Hin).
    destruct st as [x n im| |im]; cbn in *; [|done|done]. intros Hxm. specialize (Hafter Hxm (Hepoch Hxm)).
    unfold stale. cbn. apply bool_decide_eq_true. split; [by rewrite Hepoch|].
    apply elem_of_cons in Hafter as [->|Hx]; [lia|].
    rewrite Forall_forall in Hl. destruct (Hl x Hx) as (_ & _ & _ & ?). lia.
Qed.
End props.

(** ** 2 beats twice and leaves, and 1 hears it out of order *)

Definition a_moment (t : N) : Moment := MkMoment 3 (Some (address 2)) ∅ 0 t t (Ok ()).
Definition two_beats : Beater * list Heartbeat := beat_run (MkGroupId (id32 1)) 7 (60 * SECOND) [a_moment 0; a_moment (60 * SECOND)] (new_beater 0).
Definition the_goodbye : Heartbeat := default (beat 2 7 9) (leave (MkAvailability two_beats.1 true)).2.
Definition second_beat : Heartbeat := default (beat 2 7 9) (two_beats.2 !! 1).

Lemma goodbye_is_the_last_witness :
  bool_decide (beat_seq the_goodbye = 3%N ∧ length two_beats.2 = 2) = true ∧
  member 2 ∉ online (foldl online_step (heard the_goodbye 5%N anyone (foldl online_step (new_online (member 1)) [])).1
    [Hear second_beat 9%N anyone]).
Proof.
  split; [vm_compute; reflexivity|].
  refine (proj2 (proj2 (goodbye_is_the_last (member 2) (MkGroupId (id32 1)) 7 (60 * SECOND) 0 [a_moment 0; a_moment (60 * SECOND)]
    two_beats.1 two_beats.2 _ _ _)) the_goodbye (member 1) [] [Hear second_beat 9%N anyone] 5%N anyone _ _ _ _ _ _).
  - repeat constructor; intros a [= <-]; reflexivity.
  - reflexivity.
  - reflexivity.
  - reflexivity.
  - by_decision.
  - reflexivity.
  - constructor.
  - constructor; [|constructor]. intros _ _. right. right. left.
  - constructor; [|constructor]. intros _. reflexivity.
Defined.
