(* ===== verification/Texts.v ===== *)
(** * The texts keys are made of

    Strings as the bytes they are: [str::split] at a character, UTF-8, and the
    texts of ids, [Display] and [FromStr]. blake3's hex text of 32 bytes, the
    text of a public key and [data_encoding]'s HEXLOWER are outside: each is an
    [IdText], and what they document is [IdTextLaws]. *)

From Stdlib Require Import Ascii.
From stdpp Require Import strings.
From S2P Require Import Prelude Ids Keeping.

(** [str::split] at a character. *)
Fixpoint split_on (c : ascii) (s : string) : list string :=
  match s with
  | EmptyString => [EmptyString]
  | String a s =>
      if bool_decide (a = c) then EmptyString :: split_on c s
      else match split_on c s with
           | part :: parts => String a part :: parts
           | [] => [String a EmptyString]
           end
  end.

(** [parts] with a slash between each two. *)
Fixpoint joined (parts : list string) : string :=
  match parts with
  | [] => EmptyString
  | [part] => part
  | part :: parts => part +:+ "/" +:+ joined parts
  end.

(** ** UTF-8 *)

Definition between (lo hi b : N) : bool := bool_decide (lo ≤ b)%N && bool_decide (b ≤ hi)%N.
Definition continuation (b : N) : bool := between 0x80 0xBF b.

(** The well-formed byte sequences of the Unicode standard's table 3-7. *)
Fixpoint utf8_bytes (bs : list N) : bool :=
  match bs with
  | [] => true
  | a :: bs =>
      if between 0 0x7F a then utf8_bytes bs
      else match bs with
           | [] => false
           | b :: bs =>
               if between 0xC2 0xDF a then continuation b && utf8_bytes bs
               else match bs with
                    | [] => false
                    | c :: bs =>
                        let second :=
                          if bool_decide (a = 0xE0)%N then between 0xA0 0xBF b
                          else if bool_decide (a = 0xED)%N then between 0x80 0x9F b
                          else continuation b in
                        if between 0xE0 0xEF a then second && continuation c && utf8_bytes bs
                        else match bs with
                             | [] => false
                             | d :: bs =>
                                 let second :=
                                   if bool_decide (a = 0xF0)%N then between 0x90 0xBF b
                                   else if bool_decide (a = 0xF4)%N then between 0x80 0x8F b
                                   else continuation b in
                                 between 0xF0 0xF4 a && second && continuation c && continuation d
                                 && utf8_bytes bs
                             end
                    end
           end
  end.

Definition bytes_of (s : string) : list N := N_of_ascii <$> String.list_ascii_of_string s.

(** [std::str::from_utf8]. *)
Definition from_utf8 (s : string) : option string := if utf8_bytes (bytes_of s) then Some s else None.

(** ** The texts of ids *)

(** ASCII with no slash. *)
Definition plain_char (a : ascii) : bool := between 0 0x7F (N_of_ascii a) && bool_decide (a ≠ slash).
Definition plain (s : string) : bool := forallb plain_char (String.list_ascii_of_string s).

Class IdText (A : Type) : Type := {
  show_id : A → string;
  read_id : string → option A;
}.

Class IdTextLaws (A : Type) `{IdText A} (width : nat) : Prop := {
  read_show a : read_id (show_id a) = Some a;
  show_plain a : plain (show_id a) = true;
  show_width a : String.length (show_id a) = width;
}.

(** The [hex_id!]s of [distlib-core/src/id.rs]. *)
#[export] Instance item_text `{Hex} : IdText ItemId := {|
  show_id i := to_hex (item_id32 i);
  read_id s := MkItemId <$> from_hex s;
|}.
#[export] Instance hash_text `{Hex} : IdText ContentHash := {|
  show_id h := to_hex (hash_id32 h);
  read_id s := MkContentHash <$> from_hex s;
|}.

(** The next of the parts of a key, read as an id, and the parts after it:
    [segment] of [distlib-core/src/community.rs]. *)
Definition segment {A} `{IdText A} (parts : list string) : option (A * list string) :=
  match parts with
  | [] => None
  | part :: parts => a ← read_id part; Some (a, parts)
  end.

(** ** Lemmas *)

Lemma append_nil_r (s : string) : s +:+ "" = s.
Proof. induction s as [|a s IH]; [done|]. apply (f_equal (String a)), IH. Qed.

Lemma length_append (a b : string) : String.length (a +:+ b) = String.length a + String.length b.
Proof. induction a as [|x a IH]; [done|]. apply (f_equal S), IH. Qed.

Lemma append_inj_l (a b c : string) : a +:+ b = a +:+ c → b = c.
Proof. induction a as [|x a IH]; [done|]. intros Heq. apply IH. by injection Heq. Qed.

Lemma append_length_0 (a b : string) : String.length (a +:+ b) = String.length a → b = "".
Proof. rewrite length_append. destruct b; [done|]. cbn [String.length]. lia. Qed.

Lemma bytes_append a b : bytes_of (a +:+ b) = bytes_of a ++ bytes_of b.
Proof.
  unfold bytes_of. rewrite <-fmap_app. f_equal. induction a as [|x a IH]; [done|].
  apply (f_equal (cons x)), IH.
Qed.

Lemma split_on_cons c s : ∃ part parts, split_on c s = part :: parts.
Proof.
  destruct s as [|a s]; cbn [split_on]; [by eexists _, _|].
  case_bool_decide; [by eexists _, _|]. destruct (split_on c s); by eexists _, _.
Qed.

Lemma split_on_plain s : plain s = true → split_on slash s = [s].
Proof.
  induction s as [|a s IH]; [done|]. unfold plain. cbn [String.list_ascii_of_string forallb].
  rewrite andb_true_iff. intros [[_ Ha]%andb_true_iff Hs]. apply bool_decide_eq_true in Ha.
  cbn [split_on]. rewrite bool_decide_false by done. by rewrite (IH Hs).
Qed.

(** What a plain text and a slash begin is a part of its own. *)
Lemma split_on_part p s : plain p = true → split_on slash (p +:+ "/" +:+ s) = p :: split_on slash s.
Proof.
  induction p as [|a p IH].
  - intros _. change ("" +:+ "/" +:+ s) with (String slash s). cbn [split_on]. by rewrite bool_decide_true.
  - unfold plain. cbn [String.list_ascii_of_string forallb]. rewrite andb_true_iff.
    intros [[_ Ha]%andb_true_iff Hs]. apply bool_decide_eq_true in Ha.
    change (String a p +:+ "/" +:+ s) with (String a (p +:+ "/" +:+ s)). cbn [split_on].
    rewrite bool_decide_false by done. by rewrite (IH Hs).
Qed.

Lemma split_joined parts :
  parts ≠ [] → Forall (λ p, plain p = true) parts → split_on slash (joined parts) = parts.
Proof.
  intros Hne Hall. induction Hall as [|p parts Hp Hall IH]; [done|].
  destruct parts as [|q parts]; [by apply split_on_plain|].
  change (joined (p :: q :: parts)) with (p +:+ "/" +:+ joined (q :: parts)).
  rewrite split_on_part by done. by rewrite IH.
Qed.

(** What follows a text grows its last part. *)
Lemma split_on_append c s r init x :
  split_on c s = init ++ [x] →
  ∃ y rest, split_on c r = y :: rest ∧ split_on c (s +:+ r) = init ++ (x +:+ y) :: rest.
Proof.
  destruct (split_on_cons c r) as (y & rest & Hr). rewrite Hr. intros Hs. exists y, rest. split; [done|].
  revert init x Hs. induction s as [|a s IH]; intros init x; cbn [split_on].
  - intros Hs. destruct init as [|i init]; [|by destruct init]. injection Hs as <-. exact Hr.
  - change (String a s +:+ r) with (String a (s +:+ r)). cbn [split_on].
    case_bool_decide.
    + destruct init as [|i init]; cbn; intros [= <- Hs].
      * by destruct (split_on_cons c s) as (? & ? & Hc); rewrite Hc in Hs.
      * by rewrite (IH _ _ Hs).
    + destruct (split_on c s) as [|p ps] eqn:E; [by destruct (split_on_cons c s) as (? & ? & ?); congruence|].
      destruct init as [|i init]; cbn; intros [= <- ->].
      * by rewrite (IH [] p eq_refl).
      * by rewrite (IH (p :: init) x eq_refl).
Qed.

(** When a joined text begins another, every part but its last is the
    other's, and its last begins the other's. *)
Lemma joined_prefix init x parts r :
  Forall (λ p, plain p = true) (init ++ [x]) → parts ≠ [] → Forall (λ p, plain p = true) parts →
  joined parts = joined (init ++ [x]) +:+ r →
  ∃ y rest, parts = init ++ (x +:+ y) :: rest.
Proof.
  intros Hi Hne Hp Heq.
  destruct (split_on_append slash (joined (init ++ [x])) r init x) as (y & rest & _ & Hs).
  { apply split_joined; [by destruct init|done]. }
  exists y, rest. by rewrite <-Hs, <-Heq, split_joined.
Qed.

Lemma utf8_ascii s : forallb (λ a, between 0 0x7F (N_of_ascii a)) (String.list_ascii_of_string s) = true →
  from_utf8 s = Some s.
Proof.
  intros Hs. unfold from_utf8. assert (utf8_bytes (bytes_of s) = true) as ->; [|done]. unfold bytes_of.
  induction (String.list_ascii_of_string s) as [|a l IH]; [done|].
  cbn [forallb] in Hs. apply andb_true_iff in Hs as [Ha Hl].
  cbn [fmap list_fmap utf8_bytes]. rewrite Ha. by apply IH.
Qed.

Lemma list_ascii_append a b :
  String.list_ascii_of_string (a +:+ b) = String.list_ascii_of_string a ++ String.list_ascii_of_string b.
Proof. induction a as [|x a IH]; [done|]. apply (f_equal (cons x)), IH. Qed.

(** A joined text of plain parts is ASCII. *)
Lemma utf8_joined parts : Forall (λ p, plain p = true) parts → from_utf8 (joined parts) = Some (joined parts).
Proof.
  intros Hall. apply utf8_ascii.
  assert (∀ p, plain p = true → forallb (λ a, between 0 0x7F (N_of_ascii a)) (String.list_ascii_of_string p) = true)
    as Hplain.
  { intros p. unfold plain. rewrite !forallb_forall. intros Hp a Ha. apply Hp, andb_true_iff in Ha. tauto. }
  induction Hall as [|p parts Hp Hall IH]; [done|]. destruct parts as [|q parts]; [by apply Hplain|].
  change (joined (p :: q :: parts)) with (p +:+ "/" +:+ joined (q :: parts)).
  rewrite !list_ascii_append, !forallb_app, IH, Hplain by done. done.
Qed.

(** ** serde_json

    [serde_json::to_vec] and [from_slice] of one type. What the code relies on
    is that a value reads back, of the values JSON can hold: a float that is
    not finite is written as [null]. *)

Class Json (A : Type) : Type := {
  to_json : A → list N;
  from_json : list N → option A;
}.

Class JsonLaws (A : Type) `{Json A} (holds : A → Prop) : Prop := {
  from_to_json a : holds a → from_json (to_json a) = Some a;
}.
