(* ===== verification/Items.v ===== *)
(** * A catalogue item and the entries it is made of

    [crates/distlib-core/src/catalogue.rs], and [ItemId::from_content_hashes]
    of [id.rs]. Every field is a key of its own in the document, every file
    too; an [Item] is what folding its entries gives. The [fields!] table is
    written out. *)

From Stdlib Require Import Ascii SpecFloat.
From stdpp Require Import strings.
From S2P Require Import Prelude Ids Events Keeping Texts.

Definition ITEMS : string := "item".
Definition FILE : string := "file".

Inductive ItemKind : Type := Ebook | Audiobook | Video | OtherKind.
Inductive FileRole : Type := ContentFile | CoverFile | SubtitleFile | MetadataFile | OtherFile.

(** An [f32] index. *)
Record Series : Type := MkSeries { series_name : string; series_index : option spec_float }.

Record FileRecord : Type := MkFileRecord {
  role : FileRole;
  format : string;
  file_size : N;
  filename : string;
  seq_no : option N;
  disc : option N;
  file_title : option string;
  duration : option N;
}.

#[export] Instance ItemKind_eq_dec : EqDecision ItemKind.
Proof. solve_decision. Defined.
#[export] Instance FileRole_eq_dec : EqDecision FileRole.
Proof. solve_decision. Defined.
#[export] Instance FileRecord_eq_dec : EqDecision FileRecord.
Proof. solve_decision. Defined.

(** ** Fields *)

Inductive Field : Type := FKind | FTitle | FAuthors | FGenres | FSeries | FYear | FLang | FDescription.

#[export] Instance Field_eq_dec : EqDecision Field.
Proof. solve_decision. Defined.

Definition all_fields : list Field := [FKind; FTitle; FAuthors; FGenres; FSeries; FYear; FLang; FDescription].

Definition field_as_str (f : Field) : string :=
  match f with
  | FKind => "type" | FTitle => "title" | FAuthors => "authors" | FGenres => "genres"
  | FSeries => "series" | FYear => "year" | FLang => "lang" | FDescription => "description"
  end.

Definition parse_field (name : string) : option Field :=
  List.find (λ f, bool_decide (field_as_str f = name)) all_fields.

(** ** Keys *)

Inductive Key : Type :=
| FieldKey (item : ItemId) (field : Field)
| FileKey (item : ItemId) (blob : ContentHash).

#[export] Instance Key_eq_dec : EqDecision Key.
Proof. solve_decision. Defined.

Definition key_item (k : Key) : ItemId := match k with FieldKey item _ | FileKey item _ => item end.

Section keys.
Context `{IdText ItemId, IdText ContentHash}.

(** [Key::encode]. *)
Definition encode_key (k : Key) : string :=
  match k with
  | FieldKey item field => ITEMS +:+ "/" +:+ show_id item +:+ "/" +:+ field_as_str field
  | FileKey item blob => ITEMS +:+ "/" +:+ show_id item +:+ "/" +:+ FILE +:+ "/" +:+ show_id blob
  end.

(** [Key::parse]. *)
Definition parse_key (key : string) : option Key :=
  key ← from_utf8 key;
  match split_on slash key with
  | [] => None
  | first :: parts =>
      if decide (first = ITEMS) then
        '(item, parts) ← segment parts;
        match parts with
        | [] => None
        | third :: parts =>
            if decide (third = FILE) then
              '(blob, parts) ← segment parts;
              if decide (parts = []) then Some (FileKey item blob) else None
            else
              field ← parse_field third;
              if decide (parts = []) then Some (FieldKey item field) else None
        end
      else None
  end.

Definition prefix_of (item : ItemId) : string := ITEMS +:+ "/" +:+ show_id item +:+ "/".
Definition all_items : string := ITEMS +:+ "/".
End keys.

(** ** Items *)

Record Item : Type := MkItem {
  item_id : ItemId;
  kind : option ItemKind;
  title : option string;
  authors : option (list string);
  genres : option (list string);
  series : option Series;
  year : option Z;
  lang : option string;
  description : option string;
  files : gmap ContentHash FileRecord;
}.

Definition new_item (id : ItemId) : Item := MkItem id None None None None None None None None ∅.

(** What an edit says. *)
Record ItemFields : Type := MkItemFields {
  set_kind : option ItemKind;
  set_title : option string;
  set_authors : option (list string);
  set_genres : option (list string);
  set_series : option Series;
  set_year : option Z;
  set_lang : option string;
  set_description : option string;
}.

(** [if let Some(value) = fields.member]. *)
Definition said {A} (new old : option A) : option A := match new with Some v => Some v | None => old end.

(** [Item::set]. *)
Definition set_fields (f : ItemFields) (i : Item) : Item :=
  MkItem (item_id i) (said (set_kind f) (kind i)) (said (set_title f) (title i))
    (said (set_authors f) (authors i)) (said (set_genres f) (genres i)) (said (set_series f) (series i))
    (said (set_year f) (year i)) (said (set_lang f) (lang i)) (said (set_description f) (description i))
    (files i).

Inductive Absorbed : Type := Took | NotThisItem | UnknownKey | Unreadable.

#[export] Instance Absorbed_eq_dec : EqDecision Absorbed.
Proof. solve_decision. Defined.

(** The JSON of what an item's entries hold. *)
Class ItemJson : Type := {
  json_kind :: Json ItemKind;
  json_string :: Json string;
  json_strings :: Json (list string);
  json_series :: Json Series;
  json_i32 :: Json Z;
  json_file :: Json FileRecord;
}.

Section items.
Context `{IdText ItemId, IdText ContentHash, ItemJson}.

(** [Item::field_entry]: nothing for a field that is not set. [to_vec] cannot
    fail for these types, as [encode] says. *)
Definition field_entry {A} `{Json A} (id : ItemId) (field : Field) (value : option A)
  : option (string * list N) :=
  v ← value; Some (encode_key (FieldKey id field), to_json v).

Definition option_to_list {A} (o : option A) : list A := match o with Some a => [a] | None => [] end.

Definition field_entries (i : Item) : list (string * list N) :=
  option_to_list (field_entry (item_id i) FKind (kind i)) ++
  option_to_list (field_entry (item_id i) FTitle (title i)) ++
  option_to_list (field_entry (item_id i) FAuthors (authors i)) ++
  option_to_list (field_entry (item_id i) FGenres (genres i)) ++
  option_to_list (field_entry (item_id i) FSeries (series i)) ++
  option_to_list (field_entry (item_id i) FYear (year i)) ++
  option_to_list (field_entry (item_id i) FLang (lang i)) ++
  option_to_list (field_entry (item_id i) FDescription (description i)).

(** [Item::entries]. *)
Definition entries (i : Item) : list (string * list N) :=
  field_entries i ++ ((λ e, (encode_key (FileKey (item_id i) e.1), to_json e.2)) <$> map_entries (files i)).

(** [take]. *)
Definition take_value {A} `{Json A} (into : option A) (value : list N) : option A * Absorbed :=
  match from_json value with
  | Some parsed => (Some parsed, Took)
  | None => (into, Unreadable)
  end.

(** [Item::absorb_field]. *)
Definition absorb_field (field : Field) (value : list N) (i : Item) : Item * Absorbed :=
  let 'MkItem id k t a g s y l d f := i in
  match field with
  | FKind => let '(k, r) := take_value k value in (MkItem id k t a g s y l d f, r)
  | FTitle => let '(t, r) := take_value t value in (MkItem id k t a g s y l d f, r)
  | FAuthors => let '(a, r) := take_value a value in (MkItem id k t a g s y l d f, r)
  | FGenres => let '(g, r) := take_value g value in (MkItem id k t a g s y l d f, r)
  | FSeries => let '(s, r) := take_value s value in (MkItem id k t a g s y l d f, r)
  | FYear => let '(y, r) := take_value y value in (MkItem id k t a g s y l d f, r)
  | FLang => let '(l, r) := take_value l value in (MkItem id k t a g s y l d f, r)
  | FDescription => let '(d, r) := take_value d value in (MkItem id k t a g s y l d f, r)
  end.

(** [Item::absorb]. *)
Definition absorb (key : string) (value : list N) (i : Item) : Item * Absorbed :=
  match parse_key key with
  | None => (i, UnknownKey)
  | Some key =>
      if decide (key_item key = item_id i) then
        match key with
        | FileKey _ blob =>
            match from_json value with
            | Some record =>
                (MkItem (item_id i) (kind i) (title i) (authors i) (genres i) (series i) (year i) (lang i)
                   (description i) (<[blob := record]> (files i)), Took)
            | None => (i, Unreadable)
            end
        | FieldKey _ field => absorb_field field value i
        end
      else (i, NotThisItem)
  end.
End items.

(** ** The fingerprint *)

(** [b"distlib.item.v1"]. *)
Definition ITEM_FINGERPRINT_TAG : list N :=
  [100; 105; 115; 116; 108; 105; 98; 46; 105; 116; 101; 109; 46; 118; 49]%N.

Section fingerprint.
Context `{Crypto}.

(** [ItemId::from_content_hashes]. *)
Definition from_content_hashes (hashes : list ContentHash) : ItemId :=
  MkItemId (blake3 (ITEM_FINGERPRINT_TAG ++ le_bytes 8 (wrap64 (N.of_nat (length hashes)))
    ++ ((λ h, id_bytes (hash_id32 h)) <$> sort_keys hashes) ≫= id)).

(** The [role: content] files, in the order of the map. *)
Definition item_content (i : Item) : list ContentHash :=
  (filter (λ e, role e.2 = ContentFile) (map_entries (files i))).*1.

(** [Item::fingerprint]. *)
Definition fingerprint (i : Item) : option ItemId :=
  match item_content i with [] => None | content => Some (from_content_hashes content) end.
End fingerprint.
