(* ===== verification/ItemsProps.v ===== *)
(** * Properties of catalogue items and their keys *)

From Stdlib Require Import Ascii SpecFloat.
From stdpp Require Import strings.
From S2P Require Import Prelude Ids Events Keeping Texts Items.

(** ** Keys *)

Section keys.
Context `{IdTextLaws ItemId 64} `{IdTextLaws ContentHash 64}.

(** A key as the parts between its slashes. *)
Definition key_parts (k : Key) : list string :=
  match k with
  | FieldKey item field => [ITEMS; show_id item; field_as_str field]
  | FileKey item blob => [ITEMS; show_id item; FILE; show_id blob]
  end.

Lemma encode_key_parts k : encode_key k = joined (key_parts k).
Proof. by destruct k. Qed.

Lemma plain_field f : plain (field_as_str f) = true.
Proof. by destruct f. Qed.

Lemma key_parts_plain k : Forall (λ p, plain p = true) (key_parts k).
Proof.
  destruct k as [i f|i b]; repeat (apply Forall_cons; split); try apply Forall_nil; try done;
    try apply show_plain. apply plain_field.
Qed.

Lemma key_parts_cons k : key_parts k ≠ [].
Proof. by destruct k. Qed.

Lemma parse_field_str f : parse_field (field_as_str f) = Some f.
Proof. by destruct f. Qed.

Lemma field_not_file f : field_as_str f ≠ FILE.
Proof. by destruct f. Qed.

Lemma parse_encode_key k : parse_key (encode_key k) = Some k.
Proof.
  unfold parse_key. rewrite encode_key_parts, utf8_joined by apply key_parts_plain.
  cbn [mbind option_bind]. rewrite split_joined by auto using key_parts_cons, key_parts_plain.
  destruct k as [i f|i b]; unfold key_parts; rewrite decide_True by done; cbn [segment];
    rewrite read_show; cbn [mbind option_bind].
  - rewrite decide_False, parse_field_str by apply field_not_file. cbn [mbind option_bind].
    by rewrite decide_True.
  - rewrite decide_True by done. cbn [segment]. rewrite read_show. cbn [mbind option_bind].
    by rewrite decide_True.
Qed.

Lemma encode_key_inj k k' : encode_key k = encode_key k' → k = k'.
Proof. intros Heq. apply (f_equal parse_key) in Heq. rewrite !parse_encode_key in Heq. congruence. Qed.
End keys.

(** ** What an item says, as the writes it is *)

Inductive Saying : Type :=
| SayKind (v : ItemKind) | SayTitle (v : string) | SayAuthors (v : list string) | SayGenres (v : list string)
| SaySeries (v : Series) | SayYear (v : Z) | SayLang (v : string) | SayDescription (v : string)
| SayFile (blob : ContentHash) (r : FileRecord).

Definition sayings (i : Item) : list Saying :=
  option_to_list (SayKind <$> kind i) ++ option_to_list (SayTitle <$> title i) ++
  option_to_list (SayAuthors <$> authors i) ++ option_to_list (SayGenres <$> genres i) ++
  option_to_list (SaySeries <$> series i) ++ option_to_list (SayYear <$> year i) ++
  option_to_list (SayLang <$> lang i) ++ option_to_list (SayDescription <$> description i) ++
  ((λ e, SayFile e.1 e.2) <$> map_entries (files i)).

Definition saying_key (id : ItemId) (s : Saying) : Key :=
  match s with
  | SayKind _ => FieldKey id FKind | SayTitle _ => FieldKey id FTitle | SayAuthors _ => FieldKey id FAuthors
  | SayGenres _ => FieldKey id FGenres | SaySeries _ => FieldKey id FSeries | SayYear _ => FieldKey id FYear
  | SayLang _ => FieldKey id FLang | SayDescription _ => FieldKey id FDescription
  | SayFile b _ => FileKey id b
  end.

Definition say (s : Saying) (i : Item) : Item :=
  let 'MkItem id k t a g se y l d f := i in
  match s with
  | SayKind v => MkItem id (Some v) t a g se y l d f
  | SayTitle v => MkItem id k (Some v) a g se y l d f
  | SayAuthors v => MkItem id k t (Some v) g se y l d f
  | SayGenres v => MkItem id k t a (Some v) se y l d f
  | SaySeries v => MkItem id k t a g (Some v) y l d f
  | SayYear v => MkItem id k t a g se (Some v) l d f
  | SayLang v => MkItem id k t a g se y (Some v) d f
  | SayDescription v => MkItem id k t a g se y l (Some v) f
  | SayFile b r => MkItem id k t a g se y l d (<[b := r]> f)
  end.

(** [old] with what [i] says in place of what it said of the same. *)
Definition overlay (i old : Item) : Item :=
  MkItem (item_id old) (said (kind i) (kind old)) (said (title i) (title old))
    (said (authors i) (authors old)) (said (genres i) (genres old)) (said (series i) (series old))
    (said (year i) (year old)) (said (lang i) (lang old)) (said (description i) (description old))
    (files i ∪ files old).

Lemma say_id s i : item_id (say s i) = item_id i.
Proof. by destruct i, s. Qed.

Lemma say_comm s s' id i : saying_key id s ≠ saying_key id s' → say s (say s' i) = say s' (say s i).
Proof.
  destruct i, s, s'; try done; intros Hne; cbn in *; f_equal.
  apply insert_insert_ne. congruence.
Qed.

Lemma say_all_files l id k t a g se y d la f :
  foldl (flip say) (MkItem id k t a g se y la d f) ((λ e : ContentHash * FileRecord, SayFile e.1 e.2) <$> l)
  = MkItem id k t a g se y la d (foldl (λ f e, <[e.1 := e.2]> f) f l).
Proof. revert f. induction l as [|[b r] l IH]; intros f; [done|]. cbn. apply IH. Qed.

Lemma foldl_insert_union (l : list (ContentHash * FileRecord)) (f : gmap ContentHash FileRecord) :
  NoDup l.*1 → foldl (λ f e, <[e.1 := e.2]> f) f l = list_to_map l ∪ f.
Proof.
  revert f. induction l as [|[b r] l IH]; intros f Hnd; cbn [foldl fst snd].
  - by rewrite list_to_map_nil, (left_id_L ∅ (∪)).
  - apply NoDup_cons in Hnd as [Hb Hnd]. rewrite IH by done. rewrite list_to_map_cons.
    apply map_eq. intros b'. rewrite !lookup_union.
    destruct (decide (b = b')) as [->|Hne].
    + rewrite !lookup_insert_eq. apply not_elem_of_list_to_map in Hb. cbn [fst] in Hb. rewrite Hb.
      by destruct (f !! b').
    + by rewrite !lookup_insert_ne.
Qed.

Lemma map_entries_to_map (m : gmap ContentHash FileRecord) : list_to_map (map_entries m) = m.
Proof.
  rewrite <-(list_to_map_to_list m) at 2. apply list_to_map_proper.
  - apply NoDup_map_keys.
  - apply map_entries_perm.
Qed.

Lemma say_files (m : gmap ContentHash FileRecord) id k t a g se y la d f :
  foldl (flip say) (MkItem id k t a g se y la d f) ((λ e, SayFile e.1 e.2) <$> map_entries m)
  = MkItem id k t a g se y la d (m ∪ f).
Proof.
  rewrite say_all_files, foldl_insert_union by apply NoDup_map_keys. by rewrite map_entries_to_map.
Qed.

Lemma say_all i old : foldl (flip say) old (sayings i) = overlay i old.
Proof.
  destruct old as [id k t a g se y la d f]. unfold sayings. rewrite !foldl_app.
  destruct i as [? [?|] [?|] [?|] [?|] [?|] [?|] [?|] [?|] fs]; cbn -[map_entries]; apply say_files.
Qed.

Lemma saying_keys_distinct id i : NoDup (saying_key id <$> sayings i).
Proof.
  assert (∀ l : list (ContentHash * FileRecord), NoDup l.*1 →
    NoDup (saying_key id <$> ((λ e, SayFile e.1 e.2) <$> l))) as Hfiles.
  { intros l Hl. rewrite <-list_fmap_compose.
    replace ((saying_key id ∘ (λ e, SayFile e.1 e.2)) <$> l) with (FileKey id <$> l.*1)
      by (by rewrite <-list_fmap_compose).
    apply NoDup_fmap_2; [|done]. by intros ? ? [= ->]. }
  unfold sayings. rewrite !fmap_app. specialize (Hfiles _ (NoDup_map_keys (files i))).
  set (fs := saying_key id <$> ((λ e, SayFile e.1 e.2) <$> map_entries (files i))) in *.
  assert (∀ f, FieldKey id f ∉ fs) as Hno.
  { intros f (s & Hs & (e & -> & _)%list_elem_of_fmap)%list_elem_of_fmap. done. }
  destruct i as [? [?|] [?|] [?|] [?|] [?|] [?|] [?|] [?|] ?]; cbn -[fs];
    repeat (apply NoDup_cons; split; [|]); rewrite ?not_elem_of_cons; auto 20.
Qed.

(** Said in any order, once each. *)
Lemma say_perm i l old : l ≡ₚ sayings i → foldl (flip say) old l = overlay i old.
Proof.
  intros Hl. rewrite <-say_all.
  assert (∀ l, foldl (flip say) old l = foldr say old (rev l)) as Hrev.
  { intros l'. generalize old. induction l' as [|s l' IH]; intros o; [done|]. cbn. rewrite foldr_app. apply IH. }
  rewrite !Hrev. apply (foldr_permutation (=) say old).
  - intros j1 a1 j2 a2 b Hne H1 H2.
    assert (NoDup (saying_key (item_id i) <$> rev l)) as Hnd.
    { rewrite <-(Permutation_rev l), Hl. apply saying_keys_distinct. }
    apply (say_comm _ _ (item_id i)). intros Heq. apply Hne.
    eapply NoDup_lookup; [exact Hnd| |]; rewrite list_lookup_fmap.
    + by rewrite H1.
    + by rewrite H2, Heq.
  - by rewrite <-!Permutation_rev, Hl.
Qed.

(** ** Entries read back *)

(** What JSON holds of each type: a float must be finite, an integer fit. *)
Definition finite32 (f : spec_float) : Prop :=
  match f with S754_finite _ _ _ | S754_zero _ => valid_binary 24 128 f = true | _ => False end.
Definition series_holds (s : Series) : Prop := match series_index s with Some f => finite32 f | None => True end.
Definition i32_holds (z : Z) : Prop := (- 2 ^ 31 ≤ z < 2 ^ 31)%Z.
Definition fits (max : N) (n : option N) : Prop := match n with Some n => (n ≤ max)%N | None => True end.
Definition file_holds (r : FileRecord) : Prop :=
  (file_size r ≤ u64_max)%N ∧ fits u32_max (seq_no r) ∧ fits u32_max (disc r) ∧ fits u64_max (duration r).

#[export] Instance fits_dec max n : Decision (fits max n).
Proof. destruct n; unfold fits; apply _. Defined.
#[export] Instance file_holds_dec r : Decision (file_holds r).
Proof. unfold file_holds. apply _. Defined.

Class ItemJsonLaws `{ItemJson} : Prop := {
  kind_laws :: JsonLaws ItemKind (λ _, True);
  string_laws :: JsonLaws string (λ _, True);
  strings_laws :: JsonLaws (list string) (λ _, True);
  series_laws :: JsonLaws Series series_holds;
  i32_laws :: JsonLaws Z i32_holds;
  file_laws :: JsonLaws FileRecord file_holds;
}.

Definition if_said {A} (P : A → Prop) (o : option A) : Prop := match o with Some a => P a | None => True end.

Definition item_holds (i : Item) : Prop :=
  if_said series_holds (series i) ∧ if_said i32_holds (year i) ∧
  map_Forall (λ _, file_holds) (files i).

Section entries.
Context `{IdTextLaws ItemId 64} `{IdTextLaws ContentHash 64} `{ItemJsonLaws}.

Definition saying_value (s : Saying) : list N :=
  match s with
  | SayKind v => to_json v | SayTitle v => to_json v | SayAuthors v => to_json v | SayGenres v => to_json v
  | SaySeries v => to_json v | SayYear v => to_json v | SayLang v => to_json v | SayDescription v => to_json v
  | SayFile _ r => to_json r
  end.

Definition saying_holds (s : Saying) : Prop :=
  match s with SaySeries v => series_holds v | SayYear v => i32_holds v | SayFile _ r => file_holds r | _ => True end.

Definition saying_entry (id : ItemId) (s : Saying) : string * list N := (encode_key (saying_key id s), saying_value s).

Lemma entries_sayings i : entries i = saying_entry (item_id i) <$> sayings i.
Proof.
  unfold entries, sayings, field_entries. rewrite !fmap_app, <-list_fmap_compose.
  destruct i as [? [?|] [?|] [?|] [?|] [?|] [?|] [?|] [?|] ?]; reflexivity.
Qed.

Lemma sayings_hold i : item_holds i → Forall saying_holds (sayings i).
Proof.
  intros (Hs & Hy & Hf). apply Forall_forall. intros s. unfold sayings.
  rewrite !elem_of_app, list_elem_of_fmap. intros Hin.
  destruct i as [? k t a g se y l d f]; cbn in *.
  destruct Hin as [Hin|[Hin|[Hin|[Hin|[Hin|[Hin|[Hin|[Hin|([b r] & -> & Hin)]]]]]]]].
  9: { apply elem_of_map_entries in Hin. by apply (Hf b r). }
  all: match type of Hin with context [option_to_list (_ <$> ?o)] => destruct o; cbn in Hin end;
    [apply list_elem_of_singleton in Hin; subst; done | by apply elem_of_nil in Hin].
Qed.

Lemma absorb_saying s i : saying_holds s →
  absorb (encode_key (saying_key (item_id i) s)) (saying_value s) i = (say s i, Took).
Proof.
  intros Hs. unfold absorb. rewrite parse_encode_key.
  assert (key_item (saying_key (item_id i) s) = item_id i) as -> by by destruct s. rewrite decide_True by done.
  destruct i as [id k t a g se y la d f], s; cbn [saying_key saying_value absorb_field item_id];
    unfold take_value; by rewrite from_to_json.
Qed.

(** Folding entries in, with what each turned out to be. *)
Definition absorb_all (es : list (string * list N)) (i : Item) : Item * list Absorbed :=
  foldl (λ '(i, rs) e, let '(i, r) := absorb e.1 e.2 i in (i, rs ++ [r])) (i, []) es.

Lemma absorb_all_sayings l i rs : Forall saying_holds l →
  foldl (λ '(i, rs) e, let '(i, r) := absorb e.1 e.2 i in (i, rs ++ [r])) (i, rs) (saying_entry (item_id i) <$> l)
  = (foldl (flip say) i l, rs ++ (const Took <$> l)).
Proof.
  intros Hl. revert i rs. induction Hl as [|s l Hs Hl IH]; intros i rs; [by rewrite app_nil_r|].
  cbn [fmap list_fmap foldl saying_entry fst snd]. rewrite absorb_saying by done.
  rewrite <-(say_id s i). fold (fmap (M := list) (saying_entry (item_id (say s i))) l). rewrite IH. f_equal.
  by rewrite <-app_assoc.
Qed.

(** What an item says and nothing else is what its entries change: folded
    into whatever is known of the same item, in whatever order the document
    gives them, each is taken, and every field and file the item names is as
    it says while the others are as they were. So an item with nothing said
    reads back from its entries, and two members who say different things of
    one item lose nothing. *)
Theorem entries_say_only_that i old es :
  item_holds i → item_id old = item_id i → es ≡ₚ entries i →
  absorb_all es old = (overlay i old, const Took <$> es) ∧
  (old = new_item (item_id i) → (absorb_all es old).1 = i).
Proof.
  intros Hi Hid Hes. rewrite entries_sayings in Hes.
  apply Permutation_map_inv in Hes as (l & -> & Hl). fold (fmap (M := list) (saying_entry (item_id i)) l).
  assert (absorb_all (saying_entry (item_id i) <$> l) old
    = (overlay i old, const Took <$> (saying_entry (item_id i) <$> l))) as Ha.
  { unfold absorb_all. rewrite <-Hid, absorb_all_sayings.
    - rewrite (say_perm i) by done. by rewrite <-list_fmap_compose.
    - rewrite <-Hl. by apply sayings_hold. }
  split; [exact Ha|]. intros ->. etrans; [exact (f_equal fst Ha)|]. cbn. unfold overlay, new_item. cbn.
  rewrite (right_id_L ∅ (∪)).
  by destruct i as [? [?|] [?|] [?|] [?|] [?|] [?|] [?|] [?|] ?].
Qed.
End entries.

(** ** The fingerprint *)

Section fingerprint.
Context `{Crypto}.

Definition fingerprint_bytes (hashes : list ContentHash) : list N :=
  ITEM_FINGERPRINT_TAG ++ le_bytes 8 (wrap64 (N.of_nat (length hashes)))
    ++ ((λ h, id_bytes (hash_id32 h)) <$> sort_keys hashes) ≫= id.

Lemma elem_of_item_content i h :
  h ∈ item_content i ↔ ∃ r, files i !! h = Some r ∧ role r = ContentFile.
Proof.
  unfold item_content. rewrite list_elem_of_fmap. split.
  - intros ([h' r] & -> & [Hr Hin]%list_elem_of_filter). apply elem_of_map_entries in Hin. eauto.
  - intros (r & Hl & Hr). exists (h, r). split; [done|]. apply list_elem_of_filter.
    by rewrite elem_of_map_entries.
Qed.

Lemma NoDup_item_content i : NoDup (item_content i).
Proof.
  eapply sublist_NoDup; [apply (NoDup_map_keys (files i))|].
  apply fmap_sublist, sublist_filter.
Qed.

Lemma sort_keys_perm_eq (l k : list ContentHash) : l ≡ₚ k → sort_keys l = sort_keys k.
Proof.
  intros Hp. apply (StronglySorted_unique key_le); [apply sort_keys_sorted..|].
  by rewrite !sort_keys_perm.
Qed.

Lemma from_content_hashes_perm l k : l ≡ₚ k → from_content_hashes l = from_content_hashes k.
Proof. intros Hp. unfold from_content_hashes. by rewrite (sort_keys_perm_eq l k), Hp. Qed.

Definition id_chunks (l : list ContentHash) : list N := ((λ h, id_bytes (hash_id32 h)) <$> l) ≫= id.

Lemma id_chunks_cons h l : id_chunks (h :: l) = id_bytes (hash_id32 h) ++ id_chunks l.
Proof. reflexivity. Qed.

Lemma length_id_chunks l : length (id_chunks l) = 32 * length l.
Proof.
  induction l as [|h l IH]; [done|]. rewrite id_chunks_cons, length_app, id_bytes_length, IH. cbn [length]. lia.
Qed.

Lemma id_chunks_inj l k : id_chunks l = id_chunks k → l = k.
Proof.
  revert k. induction l as [|[a] l IH]; intros [|[b] k] Heq; [done| | |].
  1, 2: apply (f_equal length) in Heq; rewrite !length_id_chunks in Heq; cbn [length] in Heq; lia.
  rewrite !id_chunks_cons in Heq. apply app_inj_1 in Heq as [Hab Hlk]; [|by rewrite !id_bytes_length].
  apply IH in Hlk as ->. apply (f_equal id_from_bytes) in Hab. rewrite !id_from_bytes_bytes in Hab.
  by injection Hab as <-.
Qed.

(** An item's fingerprint is of the set of its content files alone: none
    when there is none; the same for two items with the same content files,
    whatever their covers, names, titles and the order they were added in; and
    different for different ones, unless blake3 collides on exactly those. *)
Theorem fingerprint_is_of_content i j :
  (fingerprint i = None ↔ ∀ h r, files i !! h = Some r → role r ≠ ContentFile) ∧
  ((∀ h, h ∈ item_content i ↔ h ∈ item_content j) → fingerprint i = fingerprint j) ∧
  ((blake3 (fingerprint_bytes (item_content i)) = blake3 (fingerprint_bytes (item_content j)) →
    fingerprint_bytes (item_content i) = fingerprint_bytes (item_content j)) →
   fingerprint i = fingerprint j → ∀ h, h ∈ item_content i ↔ h ∈ item_content j).
Proof.
  assert (∀ k, fingerprint k = match item_content k with [] => None
                               | _ => Some (MkItemId (blake3 (fingerprint_bytes (item_content k)))) end) as Hf.
  { intros k. unfold fingerprint. by destruct (item_content k). }
  split_and!.
  - rewrite Hf. destruct (item_content i) as [|h l] eqn:E.
    + split; [|done]. intros _ h r Hl Hr. apply (not_elem_of_nil h). rewrite <-E, elem_of_item_content. eauto.
    + split; [done|]. intros Hno. assert (h ∈ item_content i) as Hin by (rewrite E; left).
      apply elem_of_item_content in Hin as (r & Hl & Hr). by destruct (Hno h r).
  - intros Hij. assert (item_content i ≡ₚ item_content j) as Hp.
    { apply NoDup_Permutation; auto using NoDup_item_content. }
    unfold fingerprint.
    destruct (item_content i) as [|a l], (item_content j) as [|b k]; try done.
    + by apply Permutation_nil_cons in Hp.
    + symmetry in Hp. by apply Permutation_nil_cons in Hp.
    + f_equal. by apply from_content_hashes_perm.
  - intros Hc Heq h. rewrite !Hf in Heq.
    assert (item_content i ≡ₚ item_content j) as Hp; [|by rewrite Hp].
    destruct (item_content i) as [|a l] eqn:Ei, (item_content j) as [|b k] eqn:Ej; try done.
    rewrite <-Ei, <-Ej in *. injection Heq as Heq.
    unfold fingerprint_bytes in *. apply Hc, app_inv_head, app_inj_1 in Heq as [_ Hb]; [|by rewrite !length_le_bytes].
    apply id_chunks_inj in Hb. by rewrite <-(sort_keys_perm (item_content i)), Hb, sort_keys_perm.
Qed.
End fingerprint.
