(* ===== verification/TextFixtures.v ===== *)
(** * Ids as hex text, values as the integers that code for them *)

From Stdlib Require Import Ascii SpecFloat.
From stdpp Require Import strings.
From S2P Require Import Prelude Ids Keeping KeepingFixtures Fixtures Texts Items ItemsProps.

(** ** Ids *)

Lemma plain_digits l : Forall (λ d, d < 16)%N l → plain (String.string_of_list_ascii (digit <$> l)) = true.
Proof.
  intros Hl. unfold plain. rewrite String.list_ascii_of_string_of_list_ascii.
  apply forallb_forall. intros a Ha. apply list_elem_of_In, list_elem_of_fmap in Ha as (d & -> & Hd).
  rewrite Forall_forall in Hl. specialize (Hl d Hd).
  assert (Forall (λ d, plain_char (digit d) = true) (N.of_nat <$> seq 0 16)) as Hall by by_decision.
  rewrite Forall_forall in Hall. apply Hall, list_elem_of_fmap.
  exists (N.to_nat d). split; [lia|]. apply elem_of_seq. lia.
Qed.

Lemma length_string_of_list l : String.length (String.string_of_list_ascii l) = length l.
Proof. induction l as [|a l IH]; [done|]. apply (f_equal S), IH. Qed.

Lemma length_nibbles k n : length (nibbles k n) = k.
Proof. revert n. induction k as [|k IH]; intros n; cbn; [done|]. by rewrite IH. Qed.

(** [k] digits, most significant first. *)
Definition hex_text (k : nat) (n : N) : string := String.string_of_list_ascii (digit <$> rev (nibbles k n)).
Definition hex_value (s : string) : N := nibbles_value (rev (undigit <$> String.list_ascii_of_string s)).

Lemma hex_value_text k n : (n < 16 ^ N.of_nat k)%N → hex_value (hex_text k n) = n.
Proof.
  intros Hn. unfold hex_value, hex_text. rewrite String.list_ascii_of_string_of_list_ascii, <-list_fmap_compose.
  rewrite (list_fmap_ext _ id), list_fmap_id, rev_involutive; [by apply nibbles_value_nibbles|].
  intros j d Hd%list_elem_of_lookup_2. apply digit_spec.
  pose proof (nibbles_bound k n) as Hb. rewrite Forall_forall in Hb.
  apply Hb, list_elem_of_In, in_rev, list_elem_of_In, Hd.
Qed.

Lemma hex_text_laws k n :
  plain (hex_text k n) = true ∧ String.length (hex_text k n) = k.
Proof.
  unfold hex_text. split.
  - apply plain_digits. rewrite <-(Permutation_rev (nibbles k n)). apply nibbles_bound.
  - by rewrite length_string_of_list, length_fmap, length_rev, length_nibbles.
Qed.

#[export] Instance test_member_text : IdText MemberId := {|
  show_id m := hex_text 64 (id_num (member_id32 m));
  read_id s := MkMemberId <$> Id32_of_num (hex_value s);
|}.

Lemma id32_text_bound i : (id_num i < 16 ^ N.of_nat 64)%N.
Proof. change (16 ^ N.of_nat 64)%N with (2 ^ 256)%N. exact (bool_decide_unpack _ (id_num_bound i)). Qed.

#[export] Instance test_member_text_laws : IdTextLaws MemberId 64.
Proof.
  split; intros [i]; cbn [show_id read_id test_member_text member_id32]; try apply hex_text_laws.
  by rewrite hex_value_text, Id32_of_num_id by apply id32_text_bound.
Qed.
#[export] Instance test_item_text_laws : IdTextLaws ItemId 64.
Proof.
  split; intros [i]; cbn [show_id read_id item_text item_id32]; try apply (hex_text_laws 64).
  by rewrite from_to_hex.
Qed.
#[export] Instance test_hash_text_laws : IdTextLaws ContentHash 64.
Proof.
  split; intros [i]; cbn [show_id read_id hash_text hash_id32]; try apply (hex_text_laws 64).
  by rewrite from_to_hex.
Qed.

(** ** Values *)

#[export] Instance spec_float_eq_dec : EqDecision spec_float.
Proof. solve_decision. Defined.
#[export] Instance spec_float_countable : Countable spec_float.
Proof.
  refine (inj_countable' (λ f : spec_float, match f with
      | S754_zero s => inl (inl s) | S754_infinity s => inl (inr s)
      | S754_nan => inr (inl tt) | S754_finite s m e => inr (inr (s, m, e)) end)
    (λ x : (bool + bool) + (unit + (bool * positive * Z)), match x with
      | inl (inl s) => S754_zero s | inl (inr s) => S754_infinity s
      | inr (inl _) => S754_nan | inr (inr (s, m, e)) => S754_finite s m e end) _).
  by intros [].
Defined.

Section coded.
Context {A} `{Countable A}.
Definition coded_json : Json A := {|
  to_json a := [Npos (countable.encode a)];
  from_json l := match l with [Npos p] => countable.decode p | _ => None end;
|}.
Lemma coded_json_laws P : @JsonLaws A coded_json P.
Proof. constructor. intros a _. cbn. apply countable.decode_encode. Qed.

(** Read only if it is what JSON can say. *)
Definition strict_json (P : A → Prop) `{∀ a, Decision (P a)} : Json A := {|
  to_json a := [Npos (countable.encode a)];
  from_json l := match l with [Npos p] => a ← countable.decode p; if decide (P a) then Some a else None | _ => None end;
|}.
Lemma strict_json_laws (P Q : A → Prop) `{∀ a, Decision (P a)} : (∀ a, Q a → P a) → @JsonLaws A (strict_json P) Q.
Proof. intros HPQ. constructor. intros a Ha. cbn. rewrite countable.decode_encode. cbn. by rewrite decide_True by auto. Qed.
Lemma strict_json_reads (P : A → Prop) `{∀ a, Decision (P a)} bs a : @from_json A (strict_json P) bs = Some a → P a.
Proof.
  cbn. destruct bs as [|[|p] [|? ?]]; try done. intros (b & _ & Hb)%bind_Some. case_decide; [by injection Hb as <-|done].
Qed.
End coded.

#[export] Instance ItemKind_countable : Countable ItemKind.
Proof.
  refine (inj_countable' (λ k, match k with Ebook => 0 | Audiobook => 1 | Video => 2 | OtherKind => 3 end)
    (λ n, match n with 0 => Ebook | 1 => Audiobook | 2 => Video | _ => OtherKind end) _). by intros [].
Defined.
#[export] Instance FileRole_countable : Countable FileRole.
Proof.
  refine (inj_countable' (λ k, match k with ContentFile => 0 | CoverFile => 1 | SubtitleFile => 2
      | MetadataFile => 3 | OtherFile => 4 end)
    (λ n, match n with 0 => ContentFile | 1 => CoverFile | 2 => SubtitleFile | 3 => MetadataFile
      | _ => OtherFile end) _). by intros [].
Defined.
#[export] Instance Series_eq_dec : EqDecision Series.
Proof. solve_decision. Defined.
#[export] Instance Series_countable : Countable Series.
Proof.
  refine (inj_countable' (λ s, (series_name s, series_index s)) (λ s, MkSeries s.1 s.2) _). by intros [].
Defined.
#[export] Instance FileRecord_countable : Countable FileRecord.
Proof.
  refine (inj_countable' (λ r, (role r, format r, file_size r, filename r, (seq_no r, disc r, file_title r, duration r)))
    (λ '(a, b, c, d, (e, f, g, h)), MkFileRecord a b c d e f g h) _). by intros [].
Defined.

#[export] Instance test_item_json : ItemJson := {|
  json_kind := coded_json; json_string := coded_json; json_strings := coded_json;
  json_series := strict_json (λ se, series_index se ≠ Some S754_nan); json_i32 := coded_json; json_file := coded_json;
|}.
#[export] Instance test_item_json_laws : ItemJsonLaws.
Proof.
  split; try apply coded_json_laws. apply strict_json_laws. intros [name [x|]]; [|done]. cbn. by intros Hx [= ->].
Qed.

(** An audiobook of two chapters and a cover. *)
Definition chapter (n : N) : FileRecord :=
  MkFileRecord ContentFile "mp3" 100 "chapter" (Some n) None None (Some 60%N).
Definition cover : FileRecord := MkFileRecord CoverFile "jpg" 10 "cover" None None None None.
Definition test_book : Item :=
  MkItem (MkItemId (id32 7)) (Some Audiobook) (Some "Dune") (Some ["Frank Herbert"]) None
    (Some (MkSeries "Dune" (Some (S754_finite false 8388608 (-23))))) (Some 1965)%Z None None
    (<[MkContentHash (id32 1) := chapter 1]> (<[MkContentHash (id32 2) := chapter 2]>
      (<[MkContentHash (id32 3) := cover]> ∅))).

Lemma entries_say_only_that_witness :
  (absorb_all (rev (entries test_book)) (new_item (MkItemId (id32 7)))).1 = test_book.
Proof.
  refine (proj2 (entries_say_only_that test_book (new_item (MkItemId (id32 7))) (rev (entries test_book)) _ _ _) _).
  - split_and!; [reflexivity|by_decision|].
    repeat (apply map_Forall_insert_2; [by_decision|]). apply map_Forall_empty.
  - reflexivity.
  - symmetry. apply Permutation_rev.
  - reflexivity.
Defined.
