(* ===== verification/Held.v ===== *)
(** * What this node holds, and whom it asks

    [crates/distlib-sync/src/availability.rs], the set its heartbeats state,
    and [ask_order.rs]. The blob store is outside: which files are kept for an
    item and which are complete is what a call finds; so are the random
    draws of a shuffle. *)

From S2P Require Import Prelude Ids GroupSettings Events Heartbeats Items Statements.

(** [Holdings]: the items held, and when the set last changed. *)
Record HeldSet : Type := MkHeldSet { held : gset ItemId; changed_at : N }.

(** The [role: content] files of an item, in the order of its map. *)
Definition content_files (files : list (ContentHash * FileRole)) : list ContentHash :=
  (filter (λ f, f.2 = ContentFile) files).*1.

(** [kept_for]: what some tag keeps for an item, over every reason in turn;
    the store may fail any listing. *)
Fixpoint kept_for (listings : list (result SyncError (list ContentHash))) : result SyncError (gset ContentHash) :=
  match listings with
  | [] => Ok ∅
  | l :: listings => hashes ←? l ;; kept ←? kept_for listings ;; Ok (list_to_set hashes ∪ kept)
  end.

(** The loop over the statuses: whether every file is complete, stopping at
    the first that is not. *)
Fixpoint all_complete (status : ContentHash → result SyncError bool) (content : list ContentHash) : result SyncError bool :=
  match content with
  | [] => Ok true
  | hash :: content => complete ←? status hash ;; if complete : bool then all_complete status content else Ok false
  end.

(** [Holdings::recheck]. *)
Definition recheck (listings : list (result SyncError (list ContentHash))) (status : ContentHash → result SyncError bool)
    (now : N) (item : ItemId) (files : list (ContentHash * FileRole)) : fallible HeldSet SyncError bool := λ s,
  let content := content_files files in
  match kept_for listings with
  | Err e => (s, Err e)
  | Ok kept =>
      let here := bool_decide (content ≠ [] ∧ Forall (.∈ kept) content) in
      match (if here then all_complete status content else Ok false) with
      | Err e => (s, Err e)
      | Ok is_held =>
          let set := if is_held then {[item]} ∪ held s else held s ∖ {[item]} in
          let changed := if is_held then bool_decide (item ∉ held s) else bool_decide (item ∈ held s) in
          (MkHeldSet set (if changed then now else changed_at s), Ok is_held)
      end
  end.

(** [Holdings::forget]. *)
Definition forget (now : N) (item : ItemId) (s : HeldSet) : HeldSet :=
  MkHeldSet (held s ∖ {[item]}) (if bool_decide (item ∈ held s) then now else changed_at s).

(** [Holdings::holds]. *)
Definition holds (s : HeldSet) (item : ItemId) : bool := bool_decide (item ∈ held s).

(** ** Whom to ask *)

(** [Iterator::partition]. *)
Definition partition {A} (p : A → bool) (l : list A) : list A * list A :=
  (filter (λ x, p x = true) l, filter (λ x, p x = false) l).

Definition tiers (holders : list MemberId) (online : gset MemberId) (members : list MemberId) : list (list MemberId) :=
  let '(holding, others) := partition (λ m, bool_decide (m ∈ holders)) members in
  let '(online, offline) := partition (λ m, bool_decide (m ∈ online)) others in
  [holding; online; offline].

(** [slice::swap]. *)
Definition swap {A} (i j : nat) (l : list A) : list A :=
  match l !! i, l !! j with
  | Some x, Some y => <[i := y]> (<[j := x]> l)
  | _, _ => l
  end.

(** [shuffled]: from the last place down to the second; a draw that fails
    leaves its place alone. *)
Fixpoint shuffle_down {A} (draws : nat → option N) (last : nat) (l : list A) : list A :=
  match last with
  | O => l
  | S below =>
      let pick := match draws last with Some draw => N.to_nat draw `mod` S last | None => last end in
      shuffle_down draws below (swap last pick l)
  end.
Definition shuffled {A} (draws : nat → option N) (l : list A) : list A := shuffle_down draws (pred (length l)) l.

(** [ask_order], each tier with draws of its own. *)
Definition ask_order (draws : nat → nat → option N) (holders : list MemberId) (online : gset MemberId)
    (members : list MemberId) : list MemberId :=
  concat (imap (λ i tier, shuffled (draws i) tier) (tiers holders online members)).

(** ** Properties *)

Lemma swap_perm {A} i j (l : list A) : swap i j l ≡ₚ l.
Proof.
  unfold swap. destruct (l !! i) as [x|] eqn:Hi; [|done]. destruct (l !! j) as [y|] eqn:Hj; [|done].
  by apply Permutation_insert_swap.
Qed.

Lemma shuffled_perm {A} draws (l : list A) : shuffled draws l ≡ₚ l.
Proof.
  unfold shuffled. generalize (pred (length l)). intros n. revert l.
  induction n as [|n IH]; intros l; [done|]. simpl. by rewrite IH, swap_perm.
Qed.

Lemma partition_perm {A} (p : A → bool) (l : list A) : (partition p l).1 ++ (partition p l).2 ≡ₚ l.
Proof.
  simpl. induction l as [|x l IH]; [done|]. rewrite !filter_cons. destruct (p x) eqn:E.
  - rewrite decide_True, decide_False by done. simpl. by rewrite IH.
  - rewrite decide_False, decide_True by done. by rewrite <-Permutation_middle, IH.
Qed.

(** Everybody is asked, and once: first members known to hold the item,
    then others online, and only then those offline, whatever the draws. *)
Theorem holders_are_asked_first draws holders online members :
  ask_order draws holders online members ≡ₚ members ∧
  ∃ first second rest, ask_order draws holders online members = first ++ second ++ rest ∧
    (∀ m, m ∈ first ↔ m ∈ members ∧ m ∈ holders) ∧
    (∀ m, m ∈ second ↔ m ∈ members ∧ m ∉ holders ∧ m ∈ online) ∧
    (∀ m, m ∈ rest ↔ m ∈ members ∧ m ∉ holders ∧ m ∉ online).
Proof.
  unfold ask_order, tiers, partition. simpl. set (holding := filter _ members). set (others := filter _ members).
  set (up := filter _ others). set (down := filter _ others). split.
  - rewrite !shuffled_perm, app_nil_r. unfold up, down.
    pose proof (partition_perm (λ m, bool_decide (m ∈ online)) others) as Hp. simpl in Hp. rewrite Hp.
    apply (partition_perm (λ m, bool_decide (m ∈ holders)) members).
  - eexists _, _, _. split; [by rewrite app_nil_r|].
    split_and!; intros m; rewrite shuffled_perm; unfold up, down, others, holding;
      rewrite !list_elem_of_filter, ?bool_decide_eq_true, ?bool_decide_eq_false; tauto.
Qed.

Lemma all_complete_ok status content b :
  all_complete status content = Ok b → (∀ hash, hash ∈ content → is_ok (status hash)) →
  b = bool_decide (Forall (λ hash, status hash = Ok true) content).
Proof.
  induction content as [|hash content IH]; simpl; [by intros [= <-]|].
  destruct (status hash) as [[]|e] eqn:E; simpl; [| |done].
  - intros Hc Hs. rewrite (IH Hc) by (intros; apply Hs; by right). apply bool_decide_ext.
    rewrite Forall_cons, E. tauto.
  - intros [= <-] _. symmetry. apply bool_decide_eq_false. rewrite Forall_cons, E. naive_solver.
Qed.

(** An item is held exactly when it has a content file and every one of
    them is complete here and kept for it; the set and the time it last
    changed move only when the answer is another than before; and a store that
    fails leaves both alone. *)
Theorem recheck_exact listings status now item files s s' r :
  recheck listings status now item files s = (s', r) →
  (∀ hash, hash ∈ content_files files → is_ok (status hash)) →
  changed_at s' = (if decide (held s' = held s) then changed_at s else now) ∧
  match r with
  | Ok b =>
      holds s' item = b ∧ (∀ i, i ≠ item → holds s' i = holds s i) ∧
      ∃ kept, kept_for listings = Ok kept ∧
        (b = true ↔ content_files files ≠ [] ∧
           ∀ hash, hash ∈ content_files files → hash ∈ kept ∧ status hash = Ok true)
  | Err _ => s' = s
  end.
Proof.
  intros Hr Hs. unfold recheck in Hr.
  destruct (kept_for listings) as [kept|e]; [|simplify_eq; by rewrite decide_True].
  set (content := content_files files) in *.
  destruct (if bool_decide _ then _ else _) as [b|e] eqn:Hb; [|simplify_eq; by rewrite decide_True].
  injection Hr as <- <-. split.
  { cbn [held changed_at]. destruct (decide (item ∈ held s)) as [Hin|Hin], b.
    - assert ({[item]} ∪ held s = held s) as -> by set_solver.
      by rewrite bool_decide_false, decide_True by tauto.
    - rewrite bool_decide_true, decide_False by (done || set_solver). done.
    - rewrite bool_decide_true, decide_False by (done || set_solver). done.
    - assert (held s ∖ {[item]} = held s) as -> by set_solver.
      by rewrite bool_decide_false, decide_True. }
  split; [unfold holds; simpl; destruct b; [apply bool_decide_eq_true | apply bool_decide_eq_false]; set_solver|].
  split; [intros i Hi; unfold holds; simpl; apply bool_decide_ext; destruct b; set_solver|].
  exists kept. split; [done|]. case_bool_decide as Hh.
  - apply all_complete_ok in Hb as ->; [|done]. rewrite bool_decide_eq_true, Forall_forall.
    destruct Hh as [Hne Hk]. rewrite Forall_forall in Hk. naive_solver.
  - injection Hb as <-. split; [done|]. intros [Hne Hall]. destruct Hh. split; [done|].
    apply Forall_forall. intros hash Hin. by apply Hall.
Qed.

Lemma recheck_exact_witness :
  let s := MkHeldSet ∅ 0 in
  let item := MkItemId (id32 1) in
  let hash := MkContentHash (id32 9) in
  let files := [(hash, ContentFile); (MkContentHash (id32 8), CoverFile)] in
  changed_at (recheck [Ok [hash]; Ok []] (λ _, Ok true) 5 item files s).1
    = (if decide (held (recheck [Ok [hash]; Ok []] (λ _, Ok true) 5 item files s).1 = ∅) then 0 else 5)%N.
Proof.
  exact (proj1 (recheck_exact [Ok [MkContentHash (id32 9)]; Ok []] (λ _, Ok true) 5 (MkItemId (id32 1))
    [(MkContentHash (id32 9), ContentFile); (MkContentHash (id32 8), CoverFile)] (MkHeldSet ∅ 0) _ _
    (surjective_pairing _) (λ _ _, I))).
Defined.
