(* ===== verification/Pacer.v ===== *)
(** * Holding bytes to a rate

    [crates/distlib-net/src/pacer.rs]. Times are nanoseconds since some start;
    a call is made at a time and is let through at the one it answers. *)

From S2P Require Import Prelude.

Definition NANOS : N := 1000000000.
Definition BURST : N := 100000000.

Record PacerState : Type := MkPacer {
  rate : option N;
  caught_up_at : N;
}.

Definition new_pacer (rate : option N) (now : N) : PacerState := MkPacer rate now.
Definition set_rate (rate : option N) (p : PacerState) : PacerState := MkPacer rate (caught_up_at p).

(** How long [bytes] take at [rate] bytes per second. *)
Definition time_for (bytes rate : N) : N := N.min (bytes * NANOS / rate) u64_max.

(** [BytePacer::pace], called at [now], with when it returns.
    [checked_sub] answers [None] before the start of the clock. *)
Definition pace (bytes now : N) (p : PacerState) : PacerState * N :=
  match rate p with
  | None => (p, now)
  | Some rate =>
      let earliest := if bool_decide (BURST ≤ now)%N then (now - BURST)%N else now in
      let caught_up_at := (N.max (caught_up_at p) earliest + time_for bytes rate)%N in
      (MkPacer (Some rate) caught_up_at, N.max now caught_up_at)
  end.

(** ** Properties *)

(** Calls one after another, each with when it was made. *)
Fixpoint paced (calls : list (N * N)) (p : PacerState) : PacerState * list N :=
  match calls with
  | [] => (p, [])
  | (bytes, now) :: calls =>
      let '(p, at_) := pace bytes now p in
      let '(p, ats) := paced calls p in (p, at_ :: ats)
  end.

Lemma time_for_covers bytes rate : (rate ≠ 0)%N → (bytes * NANOS / rate ≤ u64_max)%N →
  (bytes * NANOS < (time_for bytes rate + 1) * rate)%N.
Proof.
  intros Hr Hm. unfold time_for. rewrite N.min_l by done.
  pose proof (N.mul_succ_div_gt (bytes * NANOS) rate Hr). lia.
Qed.

Lemma two_shares a b x y z n r :
  (a * n ≤ x * r → b * n ≤ y * r → x + y ≤ z → (a + b) * n ≤ z * r)%N.
Proof. intros. rewrite N.mul_add_distr_r. transitivity ((x + y) * r)%N; [lia|]. by apply N.mul_le_mono_r. Qed.

(** What was let through from some state on is within the rate of the time it
    took since then. *)
Lemma paced_total r calls p :
  rate p = Some r → (r ≠ 0)%N →
  Forall (λ c, (c.1 * NANOS / r ≤ u64_max)%N) calls →
  let p' := (paced calls p).1 in
  rate p' = Some r ∧
  (sumN calls.*1 * NANOS ≤ (caught_up_at p' - caught_up_at p + N.of_nat (length calls)) * r)%N ∧
  (caught_up_at p ≤ caught_up_at p')%N.
Proof.
  revert p. induction calls as [|[bytes now] calls IH]; intros p Hr H0 Hf; simpl; [split_and!; lia || done|].
  apply Forall_cons in Hf as [Hb Hf]. unfold pace. rewrite Hr.
  set (start := N.max (caught_up_at p) _). specialize (IH (MkPacer (Some r) (start + time_for bytes r)%N)).
  destruct (paced calls _) as [p' ats]. simpl in IH |- *. destruct IH as (Hr' & Hs & Hle); [done..|].
  pose proof (time_for_covers bytes r H0 Hb). assert (caught_up_at p ≤ start)%N by (unfold start; lia).
  split_and!; [done | | lia].
  eapply two_shares; [by apply N.lt_le_incl | exact Hs | lia].
Qed.

(** At a fixed rate, whatever calls share the pacer, what was let through
    by the time the last of them returns is within the rate over the time
    since the first was made, and the burst, a nanosecond apart for each call;
    and without a rate nothing waits. *)
Theorem paced_within_rate r bytes now calls p :
  rate p = Some r → (r ≠ 0)%N → (BURST ≤ now)%N →
  Forall (λ c, (c.1 * NANOS / r ≤ u64_max)%N) ((bytes, now) :: calls) →
  let done := (paced ((bytes, now) :: calls) p).1 in
  (sumN (bytes :: calls.*1) * NANOS
   ≤ (caught_up_at done - (now - BURST) + N.of_nat (S (length calls))) * r)%N ∧
  (∀ at_, last (paced ((bytes, now) :: calls) p).2 = Some at_ → (caught_up_at done ≤ at_)%N).
Proof.
  intros Hr H0 Hb Hf done. split.
  - unfold done. simpl. unfold pace. rewrite Hr, bool_decide_true by done.
    apply Forall_cons in Hf as [Hf0 Hf].
    set (start := N.max (caught_up_at p) (now - BURST)).
    pose proof (paced_total r calls (MkPacer (Some r) (start + time_for bytes r)%N) eq_refl H0 Hf) as (_ & Hs & Hle).
    destruct (paced calls _) as [p' ats]. simpl in Hs, Hle |- *.
    pose proof (time_for_covers bytes r H0 Hf0). assert (now - BURST ≤ start)%N by (unfold start; lia).
    eapply two_shares; [by apply N.lt_le_incl | exact Hs | lia].
  - unfold done. clear -Hr. generalize ((bytes, now) :: calls). intros cs. revert p Hr.
    induction cs as [|[b n] cs IH]; intros p Hr at_; [done|]. simpl. unfold pace at 1 2. rewrite Hr.
    set (p1 := MkPacer _ _). specialize (IH p1 eq_refl). destruct (paced cs p1) as [p' ats] eqn:E.
    simpl in IH |- *. destruct ats as [|a ats].
    + destruct cs as [|[b' n'] cs].
      * injection E as <-. intros [= <-]. simpl. lia.
      * exfalso. apply (f_equal (length ∘ snd)) in E. revert E. cbn [paced]. destruct (pace b' n' p1) as [p2 a2].
        by destruct (paced cs p2).
    + intros Hl. apply IH. done.
Qed.

Lemma paced_within_rate_witness :
  let done := (paced [(100, 2 * BURST); (100, 2 * BURST)]%N (new_pacer (Some 1000%N) 0)).1 in
  (sumN [100; 100]%N * NANOS ≤ (caught_up_at done - (2 * BURST - BURST) + 2) * 1000)%N.
Proof.
  refine (proj1 (paced_within_rate 1000 100 (2 * BURST) [(100, 2 * BURST)%N] (new_pacer (Some 1000%N) 0) _ _ _ _)).
  - reflexivity.
  - lia.
  - by vm_compute.
  - repeat constructor; by vm_compute.
Defined.
