(* ===== verification/Hooks.v ===== *)
(** * Membership enforcement at the endpoint

    [crates/distlib-net/src/allowlist.rs] and [hooks.rs]. A connection is
    what the endpoint has of it: who it is with, for which protocol, and
    whether and why it is over; the table of the hooks holds weak handles to
    connections, a number each. Several tasks run these operations, so
    [after_handshake] is also given as its two halves, between which another
    task may run. *)

From S2P Require Import Prelude Ids GroupSettings Events Membership Fixtures.

(** A connection; [None] while it is open. One dropped by everybody is over
    too: that its handles no longer upgrade is told nowhere apart from that. *)
Record Connection : Type := MkConnection {
  conn_peer : MemberId;
  conn_alpn : string;
  close_reason : option N;
}.

(** [is_live] of [connections.rs]. *)
Definition conn_is_live (c : Connection) : bool := bool_decide (close_reason c = None).

Definition NOT_A_MEMBER : N := 0x1000.
Definition MOVED : N := 0x1002.
(** [alpn::RAFT]. *)
Definition RAFT : string := "distlib/raft/0".

(** [Refusals]. *)
Record Refusals : Type := MkRefusals { last_logged : N; since : N }.

Definition REFUSAL_QUIET : N := 60 * 1000000000.
Definition REFUSALS_REMEMBERED : nat := 64.

(** The allowlist, the hooks' table, and the connections of the endpoint. *)
Record Hooks : Type := MkHooks {
  self_id : MemberId;
  allowed : gset MemberId;
  raft_peers : gset MemberId;
  connections : gmap MemberId (list N);
  refusals : gmap MemberId Refusals;
  conns : gmap N Connection;
}.

Definition with_connections (f : gmap MemberId (list N) → gmap MemberId (list N)) (h : Hooks) : Hooks :=
  MkHooks (self_id h) (allowed h) (raft_peers h) (f (connections h)) (refusals h) (conns h).
Definition with_conns (f : gmap N Connection → gmap N Connection) (h : Hooks) : Hooks :=
  MkHooks (self_id h) (allowed h) (raft_peers h) (connections h) (refusals h) (f (conns h)).

(** ** The allowlist *)

(** [Allowlist::is_allowed]. *)
Definition is_allowed (h : Hooks) (m : MemberId) : bool :=
  bool_decide (m = self_id h) || bool_decide (m ∈ allowed h).

(** [AllowlistWriter::replace]. *)
Definition replace (members : gset MemberId) (h : Hooks) : Hooks :=
  MkHooks (self_id h) members (raft_peers h) (connections h) (refusals h) (conns h).

(** [set_raft_peers]. *)
Definition set_raft_peers (peers : gset MemberId) (h : Hooks) : Hooks :=
  MkHooks (self_id h) (allowed h) peers (connections h) (refusals h) (conns h).

(** [AllowlistHooks::admits]. *)
Definition admits (h : Hooks) (peer : MemberId) (alpn : string) : bool :=
  is_allowed h peer || (bool_decide (alpn = RAFT) && bool_decide (peer ∈ raft_peers h)).

(** ** Connections *)

(** [WeakConnectionHandle::upgrade], and a handle worth keeping. *)
Definition upgrade (h : Hooks) (n : N) : option Connection := conns h !! n.
Definition handle_is_live (h : Hooks) (n : N) : bool :=
  match upgrade h n with Some c => conn_is_live c | None => false end.

(** [Connection::close]: the first reason stays. *)
Definition close_conn (code : N) (c : Connection) : Connection :=
  MkConnection (conn_peer c) (conn_alpn c) (Some (default code (close_reason c))).
Definition close (code n : N) (h : Hooks) : Hooks := with_conns (alter (close_conn code) n) h.

(** Whether [evict_once] keeps a handle under [peer]. *)
Definition keeps_handle (h : Hooks) (peer : MemberId) (n : N) : bool :=
  match upgrade h n with
  | Some c => conn_is_live c && admits h peer (conn_alpn c)
  | None => false
  end.

(** Whether [evict_once] closes it. *)
Definition closes_handle (h : Hooks) (peer : MemberId) (n : N) : bool :=
  match upgrade h n with
  | Some c => conn_is_live c && negb (admits h peer (conn_alpn c))
  | None => false
  end.

(** [evict_once]: nothing in the loop changes who is admitted or, but for the
    handle at hand, what is live; a connection is in the table once. *)
Definition evict_once (h : Hooks) : Hooks :=
  let closed := map_to_list (connections h) ≫= λ '(peer, handles), filter (closes_handle h peer) handles in
  let kept := map_imap (λ peer handles,
    match filter (keeps_handle h peer) handles with [] => None | handles => Some handles end) (connections h) in
  with_connections (λ _, kept) (foldr (close NOT_A_MEMBER) h closed).

(** [close_connections_to], with how many were closed. *)
Definition close_connections_to (peer : MemberId) (h : Hooks) : Hooks * nat :=
  let handles := filter (handle_is_live h) (default [] (connections h !! peer)) in
  (with_connections (delete peer) (foldr (close MOVED) h handles), length handles).

(** [remember]. *)
Definition remember (peer : MemberId) (n : N) (h : Hooks) : Hooks :=
  with_connections (λ table, <[peer := filter (handle_is_live h) (default [] (table !! peer)) ++ [n]]> table) h.

Definition tracked_connections (h : Hooks) : nat :=
  foldr (λ e, Nat.add (length e.2)) 0 (map_to_list (connections h)).

(** ** Refusals *)

(** Who has been quiet longest, in some order of the map. *)
Definition stalest (m : gmap MemberId Refusals) : option MemberId :=
  match map_to_list m with
  | [] => None
  | e :: es => Some (foldl (λ best e, if bool_decide (last_logged e.2 < last_logged best.2)%N then e else best) e es).1
  end.

(** [note_refusal]: whether to log it, and how many went unlogged. *)
Definition note_refusal (peer : MemberId) (now : N) (h : Hooks) : Hooks * option N :=
  let put r := MkHooks (self_id h) (allowed h) (raft_peers h) (connections h) r (conns h) in
  match refusals h !! peer with
  | Some seen =>
      if bool_decide (now - last_logged seen < REFUSAL_QUIET)%N
      then (put (<[peer := MkRefusals (last_logged seen) (since seen + 1)]> (refusals h)), None)
      else (put (<[peer := MkRefusals now 0]> (refusals h)), Some (since seen))
  | None =>
      let room := if bool_decide (REFUSALS_REMEMBERED ≤ size (refusals h)) then
                    match stalest (refusals h) with Some p => delete p (refusals h) | None => refusals h end
                  else refusals h in
      (put (<[peer := MkRefusals now 0]> room), Some 0%N)
  end.

(** ** The hooks *)

(** [before_connect]. *)
Definition before_connect (h : Hooks) (peer : MemberId) (alpn : string) : bool := admits h peer alpn.

(** [after_handshake]: a refused connection is closed by the endpoint with
    the code answered. *)
Definition after_handshake (n now : N) (h : Hooks) : Hooks :=
  match upgrade h n with
  | None => h
  | Some c => if admits h (conn_peer c) (conn_alpn c) then remember (conn_peer c) n h
              else close NOT_A_MEMBER n (note_refusal (conn_peer c) now h).1
  end.

(** A connection made or accepted, and its handshake done in one go. *)
Definition connected (n : N) (peer : MemberId) (alpn : string) (now : N) (h : Hooks) : Hooks :=
  after_handshake n now (with_conns <[n := MkConnection peer alpn None]> h).

(** What happens at the endpoint. [Remembered] is the second half of a
    handshake whose first half, the check, was done before. *)
Inductive HookStep : Type :=
| Connected (n : N) (peer : MemberId) (alpn : string) (now : N)
| Checked (n : N) (peer : MemberId) (alpn : string)
| Remembered (n : N)
| Ended (n code : N)
| Replaced (members : gset MemberId)
| RaftPeers (peers : gset MemberId)
| Evicted
| Moved (peer : MemberId).

Definition hook_step (h : Hooks) (s : HookStep) : Hooks :=
  match s with
  | Connected n peer alpn now => match conns h !! n with None => connected n peer alpn now h | Some _ => h end
  | Checked n peer alpn =>
      match conns h !! n with
      | None => if admits h peer alpn then with_conns <[n := MkConnection peer alpn None]> h else h
      | Some _ => h
      end
  | Remembered n => match conns h !! n with Some c => remember (conn_peer c) n h | None => h end
  | Ended n code => close code n h
  | Replaced members => replace members h
  | RaftPeers peers => set_raft_peers peers h
  | Evicted => evict_once h
  | Moved peer => (close_connections_to peer h).1
  end.

(** The connections whose handshake was checked and is not recorded yet,
    through one more step. *)
Definition between (l : list N) (h : Hooks) (s : HookStep) : list N :=
  match s with
  | Checked n peer alpn => if bool_decide (conns h !! n = None) && admits h peer alpn then n :: l else l
  | Remembered n => filter (λ k, k ≠ n) l
  | _ => l
  end.

(** The steps of the endpoint, with the connections between the halves of
    their handshake. *)
Definition hook_run (h : Hooks) (steps : list HookStep) : Hooks * list N :=
  foldl (λ '(h, l) s, (hook_step h s, between l h s)) (h, []) steps.

(** ** Properties of membership enforcement

    Once an expulsion has been acted on, no connection the endpoint has is
    with somebody the group does not admit, but for one between the halves of
    its handshake; that one an expulsion passes unseen. *)

(** Every open connection, but for some, is in the table, under whom it is
    with. *)
Definition watched_but (l : list N) (h : Hooks) : Prop :=
  (∀ n c, conns h !! n = Some c → conn_is_live c = true → n ∉ l → n ∈ default [] (connections h !! conn_peer c)) ∧
  (∀ p n c, n ∈ default [] (connections h !! p) → conns h !! n = Some c → conn_peer c = p).

Definition watched (h : Hooks) : Prop := watched_but [] h.

Lemma admits_eq h h' : self_id h' = self_id h → allowed h' = allowed h → raft_peers h' = raft_peers h →
  ∀ p a, admits h' p a = admits h p a.
Proof. unfold admits, is_allowed. by intros -> -> ->. Qed.

(** Closing some connections. *)
Lemma foldr_close_rest code ns h :
  self_id (foldr (close code) h ns) = self_id h ∧ allowed (foldr (close code) h ns) = allowed h ∧
  raft_peers (foldr (close code) h ns) = raft_peers h ∧ connections (foldr (close code) h ns) = connections h.
Proof. by induction ns as [|n ns (? & ? & ? & ?)]. Qed.

Lemma foldr_close_conns code ns h n :
  conns (foldr (close code) h ns) !! n =
  (if decide (n ∈ ns) then close_conn code <$> conns h !! n else conns h !! n).
Proof.
  induction ns as [|k ns IH]; simpl; [by destruct (decide (n ∈ [])) as [?%not_elem_of_nil|]|].
  destruct (decide (k = n)) as [->|Hne].
  - rewrite lookup_alter_eq, IH, (decide_True (P := n ∈ n :: ns)) by (by left). destruct (decide (n ∈ ns)); [|done].
    destruct (conns h !! n) as [c|]; [|done]. simpl. unfold close_conn. simpl. by destruct (close_reason c).
  - rewrite lookup_alter_ne, IH by done. destruct (decide (n ∈ ns)) as [Hin|Hin].
    + rewrite decide_True by (by right). done.
    + rewrite decide_False by (rewrite elem_of_cons; naive_solver). done.
Qed.

Lemma close_conn_dead code c : conn_is_live (close_conn code c) = false.
Proof. by apply bool_decide_eq_false. Qed.

(** What is live and kept after some were closed and the table changed. *)
Lemma live_after_close code ns h n c :
  conns (foldr (close code) h ns) !! n = Some c → conn_is_live c = true →
  conns h !! n = Some c ∧ n ∉ ns.
Proof.
  rewrite foldr_close_conns. case_decide; [|done]. intros (c' & _ & ->)%fmap_Some. by rewrite close_conn_dead.
Qed.

Lemma peer_after_close code ns h n c :
  conns (foldr (close code) h ns) !! n = Some c → ∃ c', conns h !! n = Some c' ∧ conn_peer c' = conn_peer c.
Proof.
  rewrite foldr_close_conns. case_decide; [|by eauto]. intros (c' & ? & ->)%fmap_Some. by exists c'.
Qed.

(** ** One pass of eviction *)

Lemma evict_table h p :
  default [] (connections (evict_once h) !! p) = filter (keeps_handle h p) (default [] (connections h !! p)).
Proof.
  unfold evict_once. simpl. rewrite map_lookup_imap. destruct (connections h !! p) as [ns|]; [|done].
  simpl. by destruct (filter _ ns).
Qed.

Lemma evict_live l h n c :
  watched_but l h → conns (evict_once h) !! n = Some c → conn_is_live c = true →
  conns h !! n = Some c ∧ (n ∉ l → admits h (conn_peer c) (conn_alpn c) = true).
Proof.
  intros [Hl _] Hc Hlive. unfold evict_once in Hc. simpl in Hc.
  apply live_after_close in Hc as [Hc Hn]; [|done]. split; [done|]. intros Hno.
  destruct (admits h (conn_peer c) (conn_alpn c)) eqn:Ea; [done|]. destruct Hn.
  specialize (Hl n c Hc Hlive Hno). apply list_elem_of_bind.
  destruct (connections h !! conn_peer c) as [ns|] eqn:Et; [|by apply not_elem_of_nil in Hl].
  exists (conn_peer c, ns). split; [|by apply elem_of_map_to_list]. apply list_elem_of_filter. split; [|done].
  unfold closes_handle, upgrade. by rewrite Hc, Hlive, Ea.
Qed.

Lemma evict_spares l h n c :
  watched_but l h → conns h !! n = Some c → conn_is_live c = true → admits h (conn_peer c) (conn_alpn c) = true →
  conns (evict_once h) !! n = Some c.
Proof.
  intros [_ Hp] Hc Hlive Ha. unfold evict_once. simpl. rewrite foldr_close_conns. case_decide as Hin; [|done].
  apply list_elem_of_bind in Hin as ([p ns] & Hf & Ht). apply list_elem_of_filter in Hf as [Hf Hin].
  apply elem_of_map_to_list in Ht. unfold closes_handle, upgrade in Hf. rewrite Hc, Hlive in Hf.
  rewrite (Hp p n c) in Ha; [by rewrite Ha in Hf | by rewrite Ht | done].
Qed.

(** Which of the open connections a pass of eviction closes, and how. *)
Lemma evict_closes l h n c :
  watched_but l h → conns h !! n = Some c → conn_is_live c = true → n ∉ l →
  admits h (conn_peer c) (conn_alpn c) = false →
  conns (evict_once h) !! n = Some (close_conn NOT_A_MEMBER c).
Proof.
  intros Hw Hc Hlive Hno Ha. destruct (conns (evict_once h) !! n) as [c'|] eqn:Ec.
  - unfold evict_once in Ec. simpl in Ec. rewrite foldr_close_conns, Hc in Ec. case_decide; [by injection Ec as <-|].
    injection Ec as <-. assert (conns (evict_once h) !! n = Some c) as Ec.
    { unfold evict_once. simpl. by rewrite foldr_close_conns, decide_False. }
    apply evict_live with (l := l) in Ec as [_ Hadm]; [|done|done]. rewrite Hadm in Ha by done. done.
  - unfold evict_once in Ec. simpl in Ec. rewrite foldr_close_conns, Hc in Ec. by case_decide.
Qed.

Lemma evict_watched l h : watched_but l h → watched_but l (evict_once h).
Proof.
  intros Hw. split.
  - intros n c Hc Hlive Hno. apply (evict_live l) in Hc as [Hc Ha]; [|done|done].
    rewrite evict_table. apply list_elem_of_filter. split; [|by apply Hw].
    unfold keeps_handle, upgrade. by rewrite Hc, Hlive, Ha.
  - intros p n c Hin Hc. rewrite evict_table in Hin. apply list_elem_of_filter in Hin as [_ Hin].
    unfold evict_once in Hc. simpl in Hc. apply peer_after_close in Hc as (c' & Hc & <-). by eapply Hw.
Qed.

(** ** The other steps *)

Lemma watched_less l l' h : l ⊆ l' → watched_but l h → watched_but l' h.
Proof. intros Hl [Hw Hp]. split; [|done]. intros n c Hc Hlive Hn. apply Hw; set_solver. Qed.

Lemma close_watched l code n h : watched_but l h → watched_but l (close code n h).
Proof.
  intros [Hl Hp]. split.
  - intros k c Hc Hlive. apply (live_after_close code [n]) in Hc as [Hc _]; [|done]. by apply Hl.
  - intros p k c Hin Hc. apply (peer_after_close code [n]) in Hc as (c' & Hc & <-). by eapply Hp.
Qed.

Lemma remember_table h p n q :
  default [] (connections (remember p n h) !! q) =
  if decide (q = p) then filter (handle_is_live h) (default [] (connections h !! p)) ++ [n]
  else default [] (connections h !! q).
Proof.
  unfold remember, with_connections. simpl. destruct (decide (q = p)) as [->|Hne].
  - by rewrite lookup_insert_eq.
  - by rewrite lookup_insert_ne.
Qed.

(** The numbers the table has are of connections there were. *)
Definition handles_known (h : Hooks) : Prop :=
  ∀ p n, n ∈ default [] (connections h !! p) → is_Some (conns h !! n).

(** A new connection, all others watched. *)
Lemma new_watched l n peer alpn h :
  watched_but l h → handles_known h → conns h !! n = None →
  watched_but (n :: l) (with_conns <[n := MkConnection peer alpn None]> h) ∧
  handles_known (with_conns <[n := MkConnection peer alpn None]> h).
Proof.
  intros [Hl Hp] Hk Hn. split; [split|].
  - intros k c Hc Hlive Hno. simpl in Hc |- *. rewrite lookup_insert_ne in Hc by set_solver. apply Hl; set_solver.
  - intros p k c Hin Hc. simpl in Hin, Hc. destruct (decide (n = k)) as [<-|Hne].
    + apply Hk in Hin as [c' Hc']. congruence.
    + rewrite lookup_insert_ne in Hc by done. by eapply Hp.
  - intros p k Hin%Hk. simpl. rewrite lookup_insert. case_decide; [by eexists|done].
Qed.

(** A connection recorded. *)
Lemma remember_watched l n c h :
  watched_but l h → handles_known h → conns h !! n = Some c →
  watched_but (filter (λ k, k ≠ n) l) (remember (conn_peer c) n h) ∧ handles_known (remember (conn_peer c) n h).
Proof.
  intros [Hl Hp] Hk Hn. split; [split|].
  - intros k d Hc Hlive Hno. rewrite remember_table. change (conns h !! k = Some d) in Hc.
    destruct (decide (k = n)) as [->|Hne].
    + assert (d = c) as -> by congruence. rewrite decide_True by done. apply elem_of_app. right. by left.
    + assert (k ∉ l) as Hkl by (intros Hin; apply Hno, list_elem_of_filter; done).
      specialize (Hl k d Hc Hlive Hkl). case_decide as Hq; [|done]. rewrite Hq in Hl.
      apply elem_of_app. left. apply list_elem_of_filter. split; [|done].
      unfold handle_is_live, upgrade. by rewrite Hc, Hlive.
  - intros q k d Hin Hc. rewrite remember_table in Hin. change (conns h !! k = Some d) in Hc.
    case_decide as Hq; [|by eapply Hp]. subst q.
    apply elem_of_app in Hin as [[_ Hin]%list_elem_of_filter|Hin%list_elem_of_singleton]; [by eapply Hp|congruence].
  - intros p k. rewrite remember_table. simpl. case_decide as Hq; [|by apply Hk].
    intros [[_ Hin%Hk]%list_elem_of_filter|Hin%list_elem_of_singleton]%elem_of_app; [done|subst k; by eexists].
Qed.

Lemma refused_watched l n peer alpn now h :
  watched_but l h → handles_known h → conns h !! n = None →
  watched_but l (close NOT_A_MEMBER n (note_refusal peer now (with_conns <[n := MkConnection peer alpn None]> h)).1) ∧
  handles_known (close NOT_A_MEMBER n (note_refusal peer now (with_conns <[n := MkConnection peer alpn None]> h)).1).
Proof.
  intros Hw Hk Hn. destruct (new_watched l n peer alpn h Hw Hk Hn) as [[Hl Hp] Hk'].
  set (h1 := with_conns _ h) in *. set (h' := note_refusal _ _ _).
  assert (connections h'.1 = connections h1 ∧ conns h'.1 = conns h1) as [Ht Hc].
  { unfold h', note_refusal. destruct (refusals h1 !! peer); [case_bool_decide|]; done. }
  split; [split|].
  - intros k c Hck Hlive Hno. apply (live_after_close _ [n]) in Hck as [Hck Hne]; [|done].
    simpl. rewrite Ht. apply Hl; [by rewrite <-Hc|done|set_solver].
  - intros p k c Hin Hck. simpl in Hin. rewrite Ht in Hin. apply (peer_after_close _ [n]) in Hck as (c' & Hck & <-).
    rewrite Hc in Hck. by eapply Hp.
  - intros p k Hin. simpl in Hin |- *. rewrite Ht in Hin. rewrite Hc. apply Hk' in Hin as [c Hin].
    destruct (decide (n = k)) as [<-|Hne]; [by rewrite lookup_alter_eq, Hin; eexists | rewrite lookup_alter_ne, Hin by done; by eexists].
Qed.

Lemma moved_watched l peer h :
  watched_but l h → handles_known h →
  watched_but l (close_connections_to peer h).1 ∧ handles_known (close_connections_to peer h).1.
Proof.
  intros [Hl Hp] Hk. unfold close_connections_to. set (ns := filter _ _).
  destruct (foldr_close_rest MOVED ns h) as (_ & _ & _ & Ht). split; [split|].
  - intros k c Hc Hlive Hno. simpl in Hc |- *. apply live_after_close in Hc as [Hc Hn]; [|done].
    specialize (Hl k c Hc Hlive Hno). rewrite Ht, lookup_delete. case_decide as Hq; [|done]. exfalso. apply Hn.
    apply list_elem_of_filter. split; [unfold handle_is_live, upgrade; by rewrite Hc, Hlive | by rewrite Hq].
  - intros p k c Hin Hc. simpl in Hin, Hc. apply peer_after_close in Hc as (c' & Hc & <-).
    rewrite Ht, lookup_delete in Hin. case_decide; [by apply not_elem_of_nil in Hin|]. by eapply Hp.
  - intros p k Hin. simpl in Hin |- *. rewrite Ht, lookup_delete in Hin.
    case_decide; [by apply not_elem_of_nil in Hin|]. apply Hk in Hin. rewrite foldr_close_conns.
    case_decide; [|done]. by destruct Hin as [c ->].
Qed.

Lemma hook_step_watched l s h :
  watched_but l h → handles_known h → watched_but (between l h s) (hook_step h s) ∧ handles_known (hook_step h s).
Proof.
  intros Hw Hk. destruct s as [n peer alpn now|n peer alpn|n|n code|members|peers| |peer]; simpl; try done.
  - destruct (conns h !! n) eqn:Hn; [done|]. unfold connected, after_handshake, upgrade.
    simpl. rewrite lookup_insert_eq. simpl. destruct (admits _ _ _); [|by apply refused_watched].
    destruct (new_watched l n peer alpn h Hw Hk Hn) as [Hw' Hk'].
    destruct (remember_watched (n :: l) n (MkConnection peer alpn None) _ Hw' Hk' ltac:(apply lookup_insert_eq)) as [Hw2 Hk2].
    split; [|done]. eapply watched_less, Hw2. intros k. rewrite list_elem_of_filter. set_solver.
  - destruct (conns h !! n) eqn:Hn; [by rewrite bool_decide_false|]. rewrite bool_decide_true by done. simpl.
    destruct (admits h peer alpn); [by apply new_watched|done].
  - destruct (conns h !! n) as [c|] eqn:Hn; [by apply remember_watched|]. split; [|done]. destruct Hw as [Hl Hp].
    split; [|done]. intros k c Hc Hlive Hno. apply Hl; [done..|]. intros Hin. apply Hno, list_elem_of_filter.
    split; [congruence|done].
  - split; [by apply close_watched|]. intros p k Hin%Hk. simpl. rewrite lookup_alter. case_decide; [|done].
    subst. by destruct Hin as [c ->].
  - split; [by apply evict_watched|]. intros p k Hin. rewrite evict_table in Hin.
    apply list_elem_of_filter in Hin as [_ Hin%Hk]. unfold evict_once. simpl. rewrite foldr_close_conns.
    case_decide; [|done]. by destruct Hin as [c ->].
  - by apply moved_watched.
Qed.

(** The endpoint before any connection. *)
Definition new_hooks (me : MemberId) (members : gset MemberId) : Hooks := MkHooks me members ∅ ∅ ∅ ∅.

Lemma run_watched me members steps :
  let r := hook_run (new_hooks me members) steps in watched_but r.2 r.1 ∧ handles_known r.1.
Proof.
  induction steps as [|s steps IH] using rev_ind.
  - split; [split|]; [by intros n' c' Hc' | intros p n' c' Hin | intros p n' Hin];
      simpl in Hin; by apply not_elem_of_nil in Hin.
  - unfold hook_run in *. rewrite foldl_app. simpl in *. destruct (foldl _ _ steps) as [h l]. destruct IH as [Hw Hk].
    by apply hook_step_watched.
Qed.

(** C31: However handshakes, their two halves apart too, closings, changes of
    who is admitted and passes of eviction come: a pass of eviction closes,
    with the code that says not a member, every open connection with somebody
    the group, or the Raft configuration for Raft alone, does not admit, but
    for one whose handshake was checked before and is not recorded yet; and it
    closes no connection of anybody they do. *)
Theorem expelled_are_cut_off me members steps n c :
  let '(h, halfway) := hook_run (new_hooks me members) steps in
  conns h !! n = Some c → conn_is_live c = true →
  (admits h (conn_peer c) (conn_alpn c) = false → n ∉ halfway →
   conns (evict_once h) !! n = Some (MkConnection (conn_peer c) (conn_alpn c) (Some NOT_A_MEMBER))) ∧
  (admits h (conn_peer c) (conn_alpn c) = true → conns (evict_once h) !! n = Some c).
Proof.
  pose proof (run_watched me members steps) as [Hw Hk]. destruct (hook_run _ steps) as [h halfway].
  cbn [fst snd] in Hw, Hk.
  intros Hc Hlive. split; intros Ha; [|by eapply evict_spares]. intros Hno.
  rewrite (evict_closes halfway h n c) by done. unfold close_conn. do 2 f_equal.
  by apply bool_decide_eq_true in Hlive as ->.
Qed.

(** The check before an expulsion, the record after it was acted on: the
    expelled member's connection stays open, and nothing is left to close
    it. *)
Theorem expulsion_between_halves_is_missed :
  let h := foldl hook_step (new_hooks (member 1) {[member 2]})
             [Checked 0 (member 2) "blobs"; Replaced ∅; Evicted; Remembered 0] in
  conns h !! 0%N = Some (MkConnection (member 2) "blobs" None) ∧ admits h (member 2) "blobs" = false.
Proof. split; [by_decision || reflexivity | reflexivity]. Qed.

(** Two connect, a third is checked, the second is expelled: its connection
    is closed, the first's stays open. *)
Definition one_expelled : list HookStep :=
  [Connected 0 (member 2) "blobs" 5; Connected 1 (member 3) "blobs" 6; Checked 2 (member 2) "gossip"; Replaced {[member 2]}].

Lemma expelled_are_cut_off_witness :
  let h := (hook_run (new_hooks (member 1) {[member 2; member 3]}) one_expelled).1 in
  conns (evict_once h) !! 1%N = Some (MkConnection (member 3) "blobs" (Some NOT_A_MEMBER)) ∧
  conns (evict_once h) !! 0%N = Some (MkConnection (member 2) "blobs" None).
Proof.
  split.
  - refine (proj1 (expelled_are_cut_off (member 1) {[member 2; member 3]} one_expelled 1 (MkConnection (member 3) "blobs" None)
      eq_refl eq_refl) eq_refl _). apply (bool_decide_unpack _). vm_compute. exact I.
  - exact (proj2 (expelled_are_cut_off (member 1) {[member 2; member 3]} one_expelled 0 (MkConnection (member 2) "blobs" None)
      eq_refl eq_refl) eq_refl).
Defined.

(** ** Refusals *)

Lemma stalest_elem m p : stalest m = Some p → is_Some (m !! p).
Proof.
  unfold stalest. destruct (map_to_list m) as [|e es] eqn:E; [done|]. intros [= <-].
  set (best := foldl _ e es). assert (best ∈ e :: es) as Hin.
  { unfold best. clear best E. revert e. induction es as [|e' es IH]; intros e; [by left|]. simpl.
    case_bool_decide; [specialize (IH e') | specialize (IH e)]; set_solver. }
  rewrite <-E in Hin. destruct best as [p r]. apply elem_of_map_to_list in Hin. simpl. by eexists.
Qed.

Lemma stalest_none m : stalest m = None → m = ∅.
Proof. unfold stalest. destruct (map_to_list m) eqn:E; [|done]. intros _. by apply map_to_list_empty_iff. Qed.

(** However many peers are refused and however often, at most sixty-four
    are remembered; and a peer refused again within a minute of the line
    logged for it is not logged. *)
Theorem refusals_are_bounded (refused : list (MemberId * N)) h peer now :
  size (refusals h) ≤ REFUSALS_REMEMBERED →
  let h' := foldl (λ h r, (note_refusal r.1 r.2 h).1) h refused in
  size (refusals h') ≤ REFUSALS_REMEMBERED ∧
  ∀ seen, refusals h' !! peer = Some seen → (now - last_logged seen < REFUSAL_QUIET)%N →
    (note_refusal peer now h').2 = None.
Proof.
  intros Hh h'. split.
  - unfold h'. clear h'. induction refused as [|[p t] refused IH] using rev_ind; [done|].
    rewrite foldl_app. simpl. set (g := foldl _ h refused) in *. unfold note_refusal.
    destruct (refusals g !! p) as [seen|] eqn:Ep; [case_bool_decide; simpl; by rewrite map_size_insert, Ep|].
    simpl. case_bool_decide as Hb.
    + destruct (stalest (refusals g)) as [q|] eqn:Eq.
      * pose proof (stalest_elem _ _ Eq) as [r Hr].
        assert (p ≠ q) by congruence. rewrite map_size_insert, lookup_delete_ne, Ep by done. simpl.
        rewrite map_size_delete, Hr. unfold REFUSALS_REMEMBERED in *. lia.
      * apply stalest_none in Eq. rewrite Eq, map_size_empty in Hb. unfold REFUSALS_REMEMBERED in Hb. lia.
    + rewrite map_size_insert, Ep. simpl. lia.
  - intros seen Hs Hq. unfold note_refusal. by rewrite Hs, bool_decide_true.
Qed.

Lemma refusals_are_bounded_witness :
  let h' := foldl (λ h r, (note_refusal r.1 r.2 h).1) (new_hooks (member 1) ∅) [(member 2, 7%N)] in
  size (refusals h') ≤ REFUSALS_REMEMBERED ∧
  ∀ seen, refusals h' !! member 2 = Some seen → (9 - last_logged seen < REFUSAL_QUIET)%N →
    (note_refusal (member 2) 9 h').2 = None.
Proof.
  refine (refusals_are_bounded [(member 2, 7%N)] (new_hooks (member 1) ∅) (member 2) 9 _).
  unfold REFUSALS_REMEMBERED. simpl. rewrite map_size_empty. lia.
Defined.
