(* ===== verification/Blobs.v ===== *)
(** * Keeping, fetching and serving blobs

    [crates/distlib-net/src/blobs.rs]. iroh-blobs' store is outside but for
    its tags, a map from a name to a hash: what it answers is a [StoreWorld],
    which may fail any call. A listing comes in some [order] of the names. *)

From stdpp Require Import strings.
From S2P Require Import Prelude Ids Heartbeats Keeping Pacer.

(** [BlobStatus]. *)
Inductive BlobStatus : Type :=
| Complete (size : N)
| Partial (size : option N)
| NotFound.

(** [NetError]: a source is only told. *)
Inductive NetError : Type :=
| BindError (source : string)
| PeerError (peer : MemberId) (source : string)
| RejectedError (peer : MemberId) (by_remote : bool)
| TimeoutError (peer : MemberId) (timeout : N)
| MalformedReply (peer : MemberId)
| PayloadTooLarge (len max : N)
| EndpointClosed
| InvalidRelayUrl (url : string)
| BadAddress (member : MemberId) (source : CoreError)
| NoCustomRelays
| FetchError (hash : ContentHash) (source : string)
| BlobError (hash : ContentHash) (source : string)
| KeepError (hash : ContentHash) (tag source : string)
| ReleaseError (tag source : string)
| ListKept (prefix source : string)
| ExportError (hash : ContentHash) (target source : string).

#[export] Instance NetError_eq_dec : EqDecision NetError.
Proof. solve_decision. Defined.

(** What the blob store answers: a blob's status, and whether a tag can be
    set, deleted and the tags under a prefix listed. *)
Record StoreWorld : Type := MkStoreWorld {
  status_of : ContentHash → result string BlobStatus;
  sets_tag : string → result string unit;
  deletes_tag : string → result string unit;
  lists_tags : string → result string unit;
}.

(** The names of the store's tags, with what each keeps. *)
Notation Tags := (gmap string ContentHash).

Definition CHUNK_BYTES : N := 1024.

Section blobs.
Context `{Hex}.
Context (order : Tags → list (string * ContentHash)).
Context (w : StoreWorld).

(** [Blobs::status]. *)
Definition blob_status (hash : ContentHash) : result NetError BlobStatus :=
  match status_of w hash with Ok s => Ok s | Err source => Err (BlobError hash source) end.

(** [Blobs::has]. *)
Definition has (hash : ContentHash) : result NetError bool :=
  s ←? blob_status hash ;; Ok (match s with Complete _ => true | _ => false end).

(** [Blobs::chunks]. *)
Definition chunks_of (hash : ContentHash) : result NetError (option N) :=
  s ←? blob_status hash ;;
  Ok (match s with
      | Complete size => Some (N.max ((size + (CHUNK_BYTES - 1)) / CHUNK_BYTES) 1)
      | Partial _ | NotFound => None
      end).

(** [Blobs::keep]. *)
Definition keep (reason : KeepReason) (item : ItemId) (hash : ContentHash) : fallible Tags NetError unit := λ t,
  let tag := tag reason item hash in
  match sets_tag w tag with
  | Ok _ => (<[tag := hash]> t, Ok tt)
  | Err source => (t, Err (KeepError hash tag source))
  end.

(** [Blobs::release]. *)
Definition release_tag (reason : KeepReason) (item : ItemId) (hash : ContentHash) : fallible Tags NetError unit := λ t,
  let tag := tag reason item hash in
  match deletes_tag w tag with
  | Ok _ => (delete tag t, Ok tt)
  | Err source => (t, Err (ReleaseError tag source))
  end.

(** [kept_under]: a name that does not parse is passed over. *)
Definition kept_under (reason : KeepReason) (prefix : string) (t : Tags) : result NetError (list (ItemId * ContentHash)) :=
  match lists_tags w prefix with
  | Err source => Err (ListKept prefix source)
  | Ok _ => Ok (omap (λ '(name, _), parse reason name)
                     (filter (λ '(name, _), is_Some (strip_prefix prefix name)) (order t)))
  end.

(** [Blobs::kept] and [Blobs::kept_for]. *)
Definition kept (reason : KeepReason) (t : Tags) : result NetError (list (ItemId * ContentHash)) :=
  kept_under reason (prefix reason) t.
Definition kept_for (reason : KeepReason) (item : ItemId) (t : Tags) : result NetError (list ContentHash) :=
  kept ←? kept_under reason (item_prefix reason item) t ;; Ok (kept.*2).

(** What a blob counts for. *)
Definition counted_size (s : BlobStatus) : N :=
  match s with
  | Complete size | Partial (Some size) => size
  | Partial None | NotFound => 0
  end.

Fixpoint add_kept (reason : KeepReason) (blobs : list (ItemId * ContentHash)) (kept : KeptBlobs)
  : result NetError KeptBlobs :=
  match blobs with
  | [] => Ok kept
  | (item, blob) :: blobs =>
      s ←? blob_status blob ;; add_kept reason blobs (add reason item blob (counted_size s) kept)
  end.

Fixpoint add_reasons (reasons : list KeepReason) (t : Tags) (k : KeptBlobs) : result NetError KeptBlobs :=
  match reasons with
  | [] => Ok k
  | r :: reasons => blobs ←? kept r t ;; k ←? add_kept r blobs k ;; add_reasons reasons t k
  end.

(** [Blobs::kept_blobs]. *)
Definition kept_blobs (t : Tags) : result NetError KeptBlobs := add_reasons all_reasons t ∅.
End blobs.

(** ** Fetching *)

(** [DownloadProgressItem]. *)
Inductive DownloadProgressItem : Type :=
| Progress (offset : N)
| DownloadFailed (source : string)
| DownloadError
| OtherProgress.

(** The loop of [fetch_with_progress] over the downloader's stream: what it
    paced, in turn, and the outcome. *)
Fixpoint download (hash : ContentHash) (last_offset : N) (items : list DownloadProgressItem)
  : list N * result NetError unit :=
  match items with
  | [] => ([], Ok tt)
  | Progress offset :: items =>
      let arrived := if bool_decide (last_offset ≤ offset)%N then (offset - last_offset)%N else offset in
      let '(paced, outcome) := download hash offset items in (arrived :: paced, outcome)
  | DownloadFailed source :: _ => ([], Err (FetchError hash source))
  | DownloadError :: _ => ([], Err (FetchError hash "every provider was tried, and none of them served it"))
  | OtherProgress :: items => download hash last_offset items
  end.

(** [fetch_with_progress], the downloader starting or not. *)
Definition fetch_with_progress (hash : ContentHash) (started : result string (list DownloadProgressItem))
  : list N * result NetError unit :=
  match started with
  | Err source => ([], Err (FetchError hash source))
  | Ok items => download hash 0 items
  end.

(** ** Serving *)

Definition SERVED_WAITING : nat := 1024.

(** What the serving task knows: who each connection is from, its pacer, and
    the blobs told as served that nobody took yet. *)
Record Serving : Type := MkServing {
  requesters : gmap N MemberId;
  upload_pacer : option PacerState;
  served : list ContentHash;
}.

(** The messages the provider's mask asks for. *)
Inductive ProviderMessage : Type :=
| ClientConnected (connection : N) (endpoint : option MemberId)
| ConnectionClosed (connection : N)
| GetRequest (connection : N) (hash : ContentHash)
| GetManyRequest (connection : N) (hashes : list ContentHash)
| Throttle (size now : N).

(** [mpsc::Sender::try_send] on the bounded channel. *)
Definition try_send (hash : ContentHash) (l : list ContentHash) : list ContentHash :=
  if decide (length l < SERVED_WAITING) then l ++ [hash] else l.

(** [judge]: with [true] for a request allowed. *)
Definition judge (may_serve : MemberId → ContentHash → bool) (requester : option MemberId)
    (hashes served : list ContentHash) : list ContentHash * bool :=
  match requester with
  | None => (served, false)
  | Some requester =>
      if forallb (may_serve requester) hashes then (foldl (λ l h, try_send h l) served hashes, true)
      else (served, false)
  end.

(** One message of the task of [serving_events], with what it answers. *)
Definition serve (may_serve : MemberId → ContentHash → bool) (m : ProviderMessage) (s : Serving) : Serving * bool :=
  match m with
  | ClientConnected connection endpoint =>
      (MkServing (match endpoint with Some e => <[connection := e]> (requesters s) | None => requesters s end)
         (upload_pacer s) (served s), true)
  | ConnectionClosed connection =>
      (MkServing (delete connection (requesters s)) (upload_pacer s) (served s), true)
  | GetRequest connection hash =>
      let '(told, allowed) := judge may_serve (requesters s !! connection) [hash] (served s) in
      (MkServing (requesters s) (upload_pacer s) told, allowed)
  | GetManyRequest connection hashes =>
      let '(told, allowed) := judge may_serve (requesters s !! connection) hashes (served s) in
      (MkServing (requesters s) (upload_pacer s) told, allowed)
  | Throttle size now =>
      (MkServing (requesters s)
         (match upload_pacer s with Some p => Some (pace size now p).1 | None => None end) (served s), true)
  end.
