(* ===== verification/Storage.v ===== *)
(** * The storage limit, and who is served

    [crates/distlib-custody/src/storage.rs] and [serving.rs]. The tags of the
    blob store and the set of items held are the state; the blob store's
    answers are the [StoreWorld] of [Blobs], the read model's are arguments. *)

From stdpp Require Import strings.
From S2P Require Import Prelude Ids GroupSettings Events Membership Keeping Heartbeats Statements Held Blobs.

Inductive Room : Type := Made | Short (by_ : N).
Inductive WhenShort : Type := EvictAnyway | EvictNothing.
Inductive StorageError : Type := BlobsError (source : NetError) | StoreError (source : string).

#[export] Instance WhenShort_eq_dec : EqDecision WhenShort.
Proof. solve_decision. Defined.

Record StorageState : Type := MkStorage { storage_tags : Tags; storage_held : HeldSet }.

Section storage.
Context `{Hex}.
Context (order : Tags → list (string * ContentHash)).
Context (visit : KeptBlobs → list (ContentHash * KeptBlob)).
Context (w : StoreWorld).

(** [blobs.release] of each blob in turn. *)
Fixpoint release_each (item : ItemId) (blobs : list ContentHash) : fallible StorageState StorageError unit := λ s,
  match blobs with
  | [] => (s, Ok tt)
  | blob :: blobs =>
      match release_tag w Cache item blob (storage_tags s) with
      | (t, Ok _) => release_each item blobs (MkStorage t (storage_held s))
      | (t, Err e) => (MkStorage t (storage_held s), Err (BlobsError e))
      end
  end.

(** [Storage::evict]. *)
Definition evict_item (now : N) (item : ItemId) : fallible StorageState StorageError unit := λ s,
  match kept_for order w Cache item (storage_tags s) with
  | Err e => (s, Err (BlobsError e))
  | Ok blobs => (release_each item blobs ;! fmodify (λ s, MkStorage (storage_tags s) (forget now item (storage_held s)))) s
  end.

Fixpoint evict_each (now : N) (items : list ItemId) : fallible StorageState StorageError unit :=
  match items with
  | [] => fret tt
  | item :: items => evict_item now item ;! evict_each now items
  end.

(** [Storage::evict_for]; [None] is a panic. *)
Definition evict_for (limit : option N) (now : N) (item : ItemId) (files : list (ContentHash * N))
    (when_short : WhenShort) (last_used : result string (ItemId → option Z)) (s : StorageState)
  : option (StorageState * result StorageError Room) :=
  match limit with
  | None => Some (s, Ok Made)
  | Some limit =>
      match kept_blobs order w (storage_tags s) with
      | Err e => Some (s, Err (BlobsError e))
      | Ok kept =>
          match last_used with
          | Err e => Some (s, Err (StoreError e))
          | Ok last_used =>
              needed ← uncounted_bytes kept files;
              plan ← evictions (visit kept) kept item needed limit last_used;
              if bool_decide (0 < short_by plan)%N && bool_decide (when_short = EvictNothing)
              then Some (s, Ok (Short (short_by plan)))
              else Some ((evict_each now (evicted plan) ;!
                          fret (if bool_decide (short_by plan = 0)%N then Made else Short (short_by plan))) s)
          end
      end
  end.

(** [make_room] and [make_room_if_it_fits]. *)
Definition make_room limit now item files last_used s := evict_for limit now item files EvictAnyway last_used s.
Definition make_room_if_it_fits limit now item files last_used s :=
  evict_for limit now item files EvictNothing last_used s.
End storage.

(** [PledgedOnly::may_serve], the store telling whether a blob is some item's
    content file. *)
Definition may_serve (m : MembershipState) (is_content_file : ContentHash → result string bool)
    (requester : MemberId) (hash : ContentHash) : bool :=
  if pledges_the_minimum m requester then true
  else match is_content_file hash with Ok content => negb content | Err _ => false end.
