(* ===== verification/StorageProps.v ===== *)
(** * Properties of the storage limit and of serving

    When room was made, what is kept and what is about to be fit under the
    limit; only cached tags of evictable items went; and what is served was
    allowed, blob by blob, to whom it went. *)

From Stdlib Require Import Ascii.
From stdpp Require Import strings.
From S2P Require Import Prelude Ids GroupSettings Events Membership Keeping KeepingFixtures.
From S2P Require Import Heartbeats Statements Held Pacer Blobs Storage.

(** ** A map of kept blobs, and the tags and sizes it is made from *)

(** [kept] has the blobs with a tag in [T], each with its tags and size. *)
Definition describes (T : ContentHash → KeepReason * ItemId → Prop) (size : ContentHash → N) (kept : KeptBlobs) : Prop :=
  ∀ b, match kept !! b with
       | Some e => kept_bytes e = size b ∧ tags e ≠ [] ∧ ∀ t, t ∈ tags e ↔ T b t
       | None => ∀ t, ¬ T b t
       end.

Lemma describes_empty size : describes (λ _ _, False) size ∅.
Proof. intros b. rewrite lookup_empty. auto. Qed.

Lemma describes_iff T T' size kept :
  (∀ b t, T b t ↔ T' b t) → describes T size kept → describes T' size kept.
Proof.
  intros Hiff Hd b. specialize (Hd b). destruct (kept !! b); [|naive_solver].
  destruct Hd as (? & ? & Ht). split_and!; [done..|]. intros t. by rewrite Ht.
Qed.

Lemma describes_add T size kept r i b :
  describes T size kept → describes (λ b' t, T b' t ∨ b' = b ∧ t = (r, i)) size (add r i b (size b) kept).
Proof.
  intros Hd b'. unfold add. destruct (decide (b' = b)) as [->|Hne].
  - rewrite lookup_insert_eq. specialize (Hd b). destruct (kept !! b) as [e|]; simpl.
    + destruct Hd as (Hb & Hne & Ht). split_and!; [done | by destruct (tags e) |].
      intros t. rewrite elem_of_app, list_elem_of_singleton, Ht. naive_solver.
    + split_and!; [done..|]. intros t. rewrite list_elem_of_singleton. naive_solver.
  - rewrite lookup_insert_ne by done. specialize (Hd b'). destruct (kept !! b').
    + destruct Hd as (? & ? & Ht). split_and!; [done..|]. intros t. rewrite Ht. naive_solver.
    + naive_solver.
Qed.

Lemma describes_release T size kept gone :
  describes T size kept → describes (λ b t, T b t ∧ ¬ is_released gone t) size (release gone kept).
Proof.
  intros Hd b. unfold release. rewrite lookup_omap. specialize (Hd b). destruct (kept !! b) as [e|]; simpl; [|naive_solver].
  destruct Hd as (Hb & Hne & Ht).
  assert (∀ t, t ∈ tags_kept gone e ↔ T b t ∧ ¬ is_released gone t) as Hk.
  { intros t. unfold tags_kept. rewrite list_elem_of_filter, Ht. tauto. }
  case_decide as He; simpl; [|by split_and!]. intros t Hn%Hk. rewrite He in Hn. by apply not_elem_of_nil in Hn.
Qed.

(** The bytes kept are a matter of which blobs have a tag. *)
Lemma describes_bytes T size kept kept' :
  describes T size kept → describes T size kept' → all_bytes kept = all_bytes kept'.
Proof.
  intros Hd Hd'. assert (kept_bytes <$> kept = kept_bytes <$> kept') as Heq.
  { apply map_eq. intros b. rewrite !lookup_fmap. specialize (Hd b). specialize (Hd' b).
    destruct (kept !! b) as [e|], (kept' !! b) as [e'|]; simpl; [| | |done].
    - destruct Hd as [-> _], Hd' as [-> _]. done.
    - destruct Hd as (_ & Hne & Ht). destruct (tags e) as [|t ts]; [done|]. destruct (Hd' t). apply Ht. by left.
    - destruct Hd' as (_ & Hne & Ht). destruct (tags e') as [|t ts]; [done|]. destruct (Hd t). apply Ht. by left. }
  assert (∀ k : KeptBlobs, all_bytes k = sumN (map_to_list (kept_bytes <$> k)).*2) as Hsum.
  { intros k. unfold all_bytes, sum_over. by rewrite map_to_list_fmap, <-list_fmap_compose. }
  by rewrite !Hsum, Heq.
Qed.

Lemma describes_tagged T size kept : describes T size kept → tagged kept.
Proof. intros Hd b e He. specialize (Hd b). rewrite He in Hd. by destruct Hd as (_ & ? & _). Qed.

(** ** What the store's tags say *)

Section blobs.
Context `{HexLaws}.
Context (order : Tags → list (string * ContentHash)).
Context (Horder : ∀ t, order t ≡ₚ map_to_list t).
Context (w : StoreWorld).

(** Every name that reads as a tag is one, as [keep] makes them. *)
Definition canonical (t : Tags) : Prop :=
  ∀ name r i b, name ∈ dom t → parse r name = Some (i, b) → name = tag r i b.

Definition has_tag (t : Tags) (b : ContentHash) (x : KeepReason * ItemId) : Prop := tag x.1 x.2 b ∈ dom t.

Lemma keep_canonical r i b t t' res : canonical t → keep w r i b t = (t', res) → canonical t'.
Proof.
  intros Hc. unfold keep. destruct (sets_tag w _); intros [= <- <-]; [|done].
  intros name r' i' b' Hin Hp. rewrite dom_insert in Hin. apply elem_of_union in Hin as [->%elem_of_singleton|Hin]; [|by eapply Hc].
  rewrite parse_tag in Hp. case_decide; [|done]. by simplify_eq.
Qed.

Lemma elem_of_kept_under r p t l i b :
  canonical t → kept_under order w r p t = Ok l →
  (i, b) ∈ l ↔ has_tag t b (r, i) ∧ is_Some (strip_prefix p (tag r i b)).
Proof.
  intros Hc. unfold kept_under. destruct (lists_tags w p); [|done]. intros [= <-].
  rewrite list_elem_of_omap. unfold has_tag. split.
  - intros ([name h] & Hin & Hp). apply list_elem_of_filter in Hin as [Hpre Hin].
    rewrite Horder, elem_of_map_to_list in Hin. apply elem_of_dom_2 in Hin.
    pose proof (Hc _ _ _ _ Hin Hp) as ->. done.
  - intros [[h Hh]%elem_of_dom Hpre]. exists (tag r i b, h). split.
    + apply list_elem_of_filter. split; [done|]. by rewrite Horder, elem_of_map_to_list.
    + by rewrite parse_tag, decide_True.
Qed.

Lemma elem_of_kept r t l i b : canonical t → kept order w r t = Ok l → (i, b) ∈ l ↔ has_tag t b (r, i).
Proof.
  intros Hc Hk. rewrite (elem_of_kept_under r _ t l i b Hc Hk). split; [tauto|]. intros Ht. split; [done|].
  unfold tag. rewrite strip_prefix_app. eauto.
Qed.

Lemma elem_of_kept_for r i t l b : canonical t → kept_for order w r i t = Ok l → b ∈ l ↔ has_tag t b (r, i).
Proof.
  intros Hc. unfold kept_for. destruct (kept_under order w r (item_prefix r i) t) as [k|] eqn:E; [|done].
  intros [= <-]. rewrite list_elem_of_fmap. split.
  - intros ([i' b'] & -> & Hin). apply (elem_of_kept_under _ _ _ _ _ _ Hc E) in Hin as [Ht Hs].
    apply tag_starts_with in Hs as [_ ->]. done.
  - intros Ht. exists (i, b). split; [done|]. apply (elem_of_kept_under _ _ _ _ _ _ Hc E). split; [done|].
    by apply tag_starts_with.
Qed.

(** What a blob counts for, [0] where the store cannot tell. *)
Definition size_of (b : ContentHash) : N := match status_of w b with Ok s => counted_size s | Err _ => 0 end.

Lemma add_kept_describes r blobs T k k' :
  describes T size_of k → add_kept w r blobs k = Ok k' →
  describes (λ b t, T b t ∨ t.1 = r ∧ (t.2, b) ∈ blobs) size_of k'.
Proof.
  revert T k. induction blobs as [|[i b] blobs IH]; intros T k Hd; simpl.
  - intros [= <-]. eapply describes_iff; [|done]. intros. rewrite elem_of_nil. naive_solver.
  - unfold blob_status. destruct (status_of w b) as [s|] eqn:Es; [|done]. simpl. intros Ha.
    assert (counted_size s = size_of b) as Hsz by (unfold size_of; by rewrite Es). rewrite Hsz in Ha.
    eapply describes_iff; [|apply (IH _ _ (describes_add _ _ _ r i b Hd) Ha)].
    intros b' [r' i']. simpl. rewrite elem_of_cons. naive_solver.
Qed.

Lemma add_reasons_describes reasons t T k k' :
  canonical t → describes T size_of k → add_reasons order w reasons t k = Ok k' →
  describes (λ b x, T b x ∨ x.1 ∈ reasons ∧ has_tag t b x) size_of k'.
Proof.
  intros Hc. revert T k. induction reasons as [|r reasons IH]; intros T k Hd; simpl.
  - intros [= <-]. eapply describes_iff; [|done]. intros. rewrite elem_of_nil. naive_solver.
  - destruct (kept order w r t) as [l|] eqn:El; [|done]. simpl.
    destruct (add_kept w r l k) as [k1|] eqn:Ek; [|done]. simpl. intros Ha.
    eapply describes_iff; [|apply (IH _ _ (add_kept_describes _ _ _ _ _ Hd Ek) Ha)].
    intros b [r' i]. simpl. rewrite elem_of_cons. setoid_rewrite (elem_of_kept r t l i b Hc El).
    split; [|naive_solver]. intros [[HT|[-> Ht]]|[Hin Ht]]; [by left | right; split; [by left|done] | right; split; [by right|done]].
Qed.

(** [kept_blobs] is every tag, and every blob at its size. *)
Lemma kept_blobs_describes t k : canonical t → kept_blobs order w t = Ok k → describes (has_tag t) size_of k.
Proof.
  intros Hc Hk. eapply describes_iff; [|apply (add_reasons_describes _ _ _ _ _ Hc (describes_empty _) Hk)].
  intros b [r i]. simpl. split; [naive_solver|]. intros Ht. right. split; [|done]. unfold all_reasons. destruct r; set_solver.
Qed.

(** ** Letting items go *)

Lemma tag_inj r i b r' i' b' : tag r i b = tag r' i' b' → r = r' ∧ i = i' ∧ b = b'.
Proof.
  intros Heq. pose proof (parse_tag r' r' i' b') as Hp. rewrite decide_True in Hp by done.
  rewrite <-Heq, parse_tag in Hp. case_decide; [|done]. by simplify_eq.
Qed.

(** From [t] to [t'] only cached tags of [items] went. *)
Definition only_cached_went (items : list ItemId) (t t' : Tags) : Prop :=
  (canonical t → canonical t') ∧ (∀ b x, has_tag t' b x → has_tag t b x) ∧
  ∀ b x, has_tag t b x → ¬ is_released items x → has_tag t' b x.

(** All of them did. *)
Definition cached_went (items : list ItemId) (t t' : Tags) : Prop :=
  only_cached_went items t t' ∧ ∀ b x, has_tag t' b x → ¬ is_released items x.

Lemma only_cached_refl items t : only_cached_went items t t.
Proof. by split_and!. Qed.

Lemma only_cached_trans items items' t t' t'' :
  only_cached_went items t t' → only_cached_went items' t' t'' → only_cached_went (items ++ items') t t''.
Proof.
  intros (Hc & Hs & Hk) (Hc' & Hs' & Hk'). split_and!; [auto | auto |].
  intros b x Hx Hn. unfold is_released in Hn. setoid_rewrite elem_of_app in Hn.
  apply Hk'; [apply Hk; [done|]|]; unfold is_released; naive_solver.
Qed.

Lemma only_cached_more items items' t t' :
  items ⊆ items' → only_cached_went items t t' → only_cached_went items' t t'.
Proof.
  intros Hi (Hc & Hs & Hk). split_and!; [done..|]. intros b x Hx Hn. apply Hk; [done|].
  unfold is_released in *. set_solver.
Qed.

Lemma release_tag_spec i b t t' r :
  release_tag w Cache i b t = (t', r) →
  only_cached_went [i] t t' ∧
  (is_ok r = true → ∀ b' x, has_tag t' b' x ↔ has_tag t b' x ∧ (b', x) ≠ (b, (Cache, i))).
Proof.
  unfold release_tag. destruct (deletes_tag w _); intros [= <- <-]; [|split; [apply only_cached_refl|done]].
  assert (∀ b' x, has_tag (delete (tag Cache i b) t) b' x ↔ has_tag t b' x ∧ (b', x) ≠ (b, (Cache, i))) as Hd.
  { intros b' [r' i']. unfold has_tag. rewrite dom_delete, elem_of_difference, elem_of_singleton. simpl.
    split; intros [Hin Hne]; (split; [done|]); intros Heq; apply Hne.
    - by simplify_eq.
    - apply tag_inj in Heq as (-> & -> & ->). done. }
  split; [|done]. split_and!.
  - intros Hc name r i' b' Hin. apply Hc. rewrite dom_delete in Hin. set_solver.
  - intros b' x. rewrite Hd. tauto.
  - intros b' x Hx Hn. apply Hd. split; [done|]. intros [= -> ->]. apply Hn. split; [done|by left].
Qed.

Lemma release_each_spec i blobs s s' r :
  release_each w i blobs s = (s', r) →
  only_cached_went [i] (storage_tags s) (storage_tags s') ∧ storage_held s' = storage_held s ∧
  (is_ok r = true → ∀ b, b ∈ blobs → ¬ has_tag (storage_tags s') b (Cache, i)).
Proof.
  revert s. induction blobs as [|b blobs IH]; intros s; simpl.
  { intros [= <- <-]. split_and!; [apply only_cached_refl | done | intros _ b Hb; by apply not_elem_of_nil in Hb]. }
  destruct (release_tag w Cache i b (storage_tags s)) as [t [u|e]] eqn:Er.
  - apply release_tag_spec in Er as [Ho Hd]. specialize (Hd eq_refl). intros Hr.
    destruct (IH _ Hr) as (Ho' & Hh & Hgone). simpl in Ho', Hh. split_and!.
    + eapply only_cached_more; [|by eapply only_cached_trans]. set_solver.
    + done.
    + intros Hok b'. rewrite elem_of_cons. intros [->|Hin]; [|by apply Hgone].
      intros Ht. destruct Ho' as (_ & Hs & _). apply Hs, Hd in Ht as [_ []]. done.
  - apply release_tag_spec in Er as [Ho _]. by intros [= <- <-].
Qed.

Lemma evict_item_spec now i s s' r :
  canonical (storage_tags s) → evict_item order w now i s = (s', r) →
  only_cached_went [i] (storage_tags s) (storage_tags s') ∧
  (is_ok r = true → cached_went [i] (storage_tags s) (storage_tags s') ∧
     held (storage_held s') = held (storage_held s) ∖ {[i]}).
Proof.
  intros Hc. unfold evict_item. destruct (kept_for order w Cache i (storage_tags s)) as [blobs|e] eqn:Ek.
  2: { intros [= <- <-]. split; [apply only_cached_refl|done]. }
  unfold fbind, fmodify. destruct (release_each w i blobs s) as [s1 [u|e]] eqn:Er; intros [= <- <-];
    apply release_each_spec in Er as (Ho & Hh & Hgone); [|done].
  split; [done|]. intros _. split; [|simpl; by rewrite Hh]. split; [done|].
  intros b [r i'] Ht [Hr Hi]. simpl in Hr, Hi, Ht. subst r. apply list_elem_of_singleton in Hi. subst i'.
  specialize (Hgone eq_refl b). apply Hgone; [|done].
  apply (elem_of_kept_for _ _ _ _ _ Hc Ek). destruct Ho as (_ & Hs & _). by apply Hs.
Qed.

Lemma evict_each_spec now items s s' r :
  canonical (storage_tags s) → evict_each order w now items s = (s', r) →
  only_cached_went items (storage_tags s) (storage_tags s') ∧
  (is_ok r = true → cached_went items (storage_tags s) (storage_tags s') ∧
     held (storage_held s') = held (storage_held s) ∖ list_to_set items).
Proof.
  revert s. induction items as [|i items IH]; intros s Hc; simpl.
  { unfold fret. intros [= <- <-]. split; [apply only_cached_refl|]. intros _. split; [|set_solver].
    split; [apply only_cached_refl|]. intros b x _ [_ Hx]. by apply not_elem_of_nil in Hx. }
  unfold fbind. destruct (evict_item order w now i s) as [s1 [u|e]] eqn:Ei.
  - apply evict_item_spec in Ei as [Ho Hok]; [|done]. destruct (Hok eq_refl) as [Hw Hh]. intros He.
    destruct (IH s1) as [Ho' Hok']; [apply Ho, Hc | done |].
    pose proof (only_cached_trans [i] items _ _ _ Ho Ho') as Hall. simpl in Hall. split; [done|].
    intros Hr. destruct (Hok' Hr) as [Hw' Hh']. split; [|rewrite Hh', Hh; set_solver].
    split; [done|]. intros b x Hx [Hx1 Hx2]. apply elem_of_cons in Hx2 as [Hx2|Hx2].
    + destruct Hw as [_ Hw]. destruct Ho' as (_ & Hs & _). apply (Hw b x (Hs _ _ Hx)).
      split; [done|]. rewrite Hx2. by left.
    + destruct Hw' as [_ Hw']. by apply (Hw' b x Hx).
  - apply evict_item_spec in Ei as [Ho _]; [|done]. intros [= <- <-]. split; [|done].
    eapply only_cached_more; [|done]. set_solver.
Qed.

(** ** Room *)

Context (visit : KeptBlobs → list (ContentHash * KeptBlob)).
Context (Hvisit : ∀ k, visit k ≡ₚ map_to_list k).

(** *** Sums that leave 64 bits *)

Lemma add64_inv m n k : add64 m n = Some k → k = (m + n)%N.
Proof. unfold add64. case_bool_decide; [by intros [= <-]|done]. Qed.
Lemma add64_bound m n k : add64 m n = Some k → (k ≤ u64_max)%N.
Proof. unfold add64. case_bool_decide; [by intros [= <-]|done]. Qed.

Lemma sum64_sum l n : sum64 l = Some n → n = sumN l.
Proof.
  unfold sum64. assert (∀ l acc n, try_fold add64 acc l = Some n → n = (acc + sumN l)%N) as Hall; [|intros Hs; apply Hall in Hs; lia].
  induction l0 as [|x l0 IH]; intros acc m; cbn [try_fold]; [intros [= <-]; cbn; lia|].
  intros (acc' & Ha & Hf)%bind_Some. apply add64_inv in Ha as ->. apply IH in Hf as ->. rewrite sumN_cons. lia.
Qed.

Lemma try_fold_use l u u' :
  try_fold use_one u l = Some u' →
  own_bytes u' = (own_bytes u + sumN (bytes_for Own <$> l))%N ∧ custody_bytes u' = (custody_bytes u + sumN (bytes_for Custody <$> l))%N ∧
  cache_bytes u' = (cache_bytes u + sumN (bytes_for Cache <$> l))%N.
Proof.
  revert u. induction l as [|e l IH]; intros u; cbn [try_fold].
  { intros [= ->]. cbn. lia. }
  intros (u1 & H1 & H2)%bind_Some. apply IH in H2 as (-> & -> & ->). rewrite !fmap_cons, !sumN_cons. unfold use_one, bytes_for in *.
  destruct (strongest_reason e.2) as [[]|]; cbn in *;
    repeat (apply bind_Some in H1 as (? & Hadd & H1); unfold add64 in Hadd; case_bool_decide; [injection Hadd as <-|done]);
    injection H1 as <-; cbn [own_bytes custody_bytes cache_bytes]; repeat case_bool_decide; simplify_eq; lia.
Qed.

(** [total_bytes] is the sum over what is kept. *)
Lemma total_sum kept u n :
  tagged kept → usage (visit kept) = Some u → total_bytes u = Some n → n = all_bytes kept.
Proof.
  intros Ht Hu Hn. apply try_fold_use in Hu as (Ho & Hcu & Hca). unfold total_bytes, mandatory_bytes in Hn.
  apply bind_Some in Hn as (m & Hm & Hn). apply add64_inv in Hm as ->. apply add64_inv in Hn as ->.
  assert (∀ r, sumN (bytes_for r <$> visit kept) = sum_over (bytes_for r) kept) as Hr.
  { intros r. unfold sum_over. apply sumN_perm. by rewrite Hvisit. }
  rewrite (all_bytes_split kept Ht), Ho, Hcu, Hca, !Hr. unfold no_use. cbn [own_bytes custody_bytes cache_bytes]. lia.
Qed.

(** The bytes some files would add, as numbers. *)
Definition bytes_to_come (k : KeptBlobs) (files : list (ContentHash * N)) : N := sumN (filter (λ e, ¬ is_counted k e.1) files).*2.

Lemma sums_overflow k keeping files limit used :
  tagged k → (u64_max < all_bytes k + bytes_to_come k files)%N →
  (needed ← uncounted_bytes k files; evictions (visit k) k keeping needed limit used) = None.
Proof.
  intros Ht Hover. destruct (uncounted_bytes k files) as [needed|] eqn:En; [|done]. apply sum64_sum in En. fold (bytes_to_come k files) in En. subst needed.
  cbn [mbind option_bind]. unfold evictions. destruct (usage (visit k)) as [u|] eqn:Eu; [|done]. cbn [mbind option_bind].
  destruct (total_bytes u) as [total|] eqn:Et; [|done]. cbn [mbind option_bind].
  pose proof (total_sum _ _ _ Ht Eu Et) as ->. unfold add64. by rewrite bool_decide_false by lia.
Qed.

Lemma room_answered limit now item files when_short used s k :
  canonical (storage_tags s) → kept_blobs order w (storage_tags s) = Ok k →
  uncounted_bytes k files = Some (bytes_to_come k files) → (all_bytes k + bytes_to_come k files ≤ u64_max)%N →
  ∃ s' r, evict_for order visit w (Some limit) now item files when_short (Ok used) s = Some (s', r) ∧
    (∀ b x, has_tag (storage_tags s) b x → x.1 ≠ Cache ∨ x.2 = item → has_tag (storage_tags s') b x) ∧
    (is_ok r = true → ∀ i b, i ∈ held (storage_held s) → i ∉ held (storage_held s') → ¬ has_tag (storage_tags s') b (Cache, i)) ∧
    ∀ k', kept_blobs order w (storage_tags s') = Ok k' →
      match r with
      | Ok Made => (all_bytes k' + bytes_to_come k files ≤ limit)%N
      | Ok (Short n) => (0 < n)%N ∧ if decide (when_short = EvictNothing) then s' = s
                                    else (all_bytes k' + bytes_to_come k files = limit + n)%N
      | Err _ => True
      end.
Proof.
  intros Hc Hk Hu Hmax. unfold evict_for. rewrite Hk, Hu. simpl. set (needed := bytes_to_come k files) in *.
  pose proof (kept_blobs_describes _ _ Hc Hk) as Hd.
  destruct (evictions_some k (visit k) item needed limit used (Hvisit k) (describes_tagged _ _ _ Hd) Hmax)
    as (n & _ & He). rewrite He. simpl. set (items := take n _) in *.
  set (short := (needed + all_bytes (release items k) - limit)%N) in *.
  destruct (bool_decide (0 < short)%N && bool_decide (when_short = EvictNothing)) eqn:Eb.
  { apply andb_prop in Eb as [Hs%bool_decide_eq_true Hw%bool_decide_eq_true]. eexists s, _.
    split_and!; [done|done|done|]. intros k' _. split; [done|]. by rewrite decide_True. }
  unfold fbind. destruct (evict_each order w now items s) as [s1 [u|e]] eqn:Ee; apply evict_each_spec in Ee as [Ho Hok]; try done.
  all: assert (∀ b x, has_tag (storage_tags s) b x → x.1 ≠ Cache ∨ x.2 = item → has_tag (storage_tags s1) b x) as Hkeep.
  1, 3: intros b x Hx Hor; destruct Ho as (_ & _ & Hkept); apply Hkept; [done|]; intros [Hx1 Hx2]; destruct Hor as [|Hi]; [done|];
    rewrite Hi in Hx2; unfold items in Hx2; apply subseteq_take, list_elem_of_fmap in Hx2 as (c & Hci & Hcin);
    apply elem_of_eviction_candidates in Hcin as (_ & Hne & _); by rewrite Hci in Hne.
  - eexists s1, _. split; [done|]. split; [done|]. destruct (Hok eq_refl) as [[(Hcan & Hsub & Hkept) Hgone] Hheld]. split.
    { intros _ i b Hi Hno Hb. apply (Hgone b _ Hb). split; [done|]. rewrite Hheld in Hno. set_solver. }
    intros k' Hk'. assert (all_bytes k' = all_bytes (release items k)) as Hbytes.
    { apply (describes_bytes (has_tag (storage_tags s1)) size_of).
      - apply kept_blobs_describes; [auto|done].
      - eapply describes_iff; [|apply describes_release, Hd]. intros b x. split.
        + intros [Hx Hn]. by apply Hkept.
        + intros Hx. split; [by apply Hsub | by apply (Hgone b)]. }
    rewrite Hbytes. destruct (decide (short = 0)%N) as [Hz|Hz]; unfold short in *.
    + rewrite bool_decide_true by done. lia.
    + rewrite bool_decide_false by done. split; [lia|].
      apply andb_false_iff in Eb as [Eb|Eb]; apply bool_decide_eq_false in Eb; [lia|]. rewrite decide_False by done. lia.
  - by eexists s1, _.
Qed.

End blobs.

(** ** Serving *)

(** A request is allowed only to the member its connection told it is
    from, and only when that member may have every blob of it; only blobs of
    allowed requests are told as served, no more waiting than the channel
    holds; and a connection that told nobody, or is closed, gets nothing. *)
Theorem served_only_if_allowed allows m s s' answer :
  serve allows m s = (s', answer) →
  length (served s) ≤ SERVED_WAITING →
  length (served s') ≤ SERVED_WAITING ∧
  (∀ connection hashes,
     m = GetManyRequest connection hashes ∨ (∃ hash, m = GetRequest connection hash ∧ hashes = [hash]) →
     requesters s' = requesters s ∧
     (answer = true ↔ ∃ requester, requesters s !! connection = Some requester ∧
        ∀ hash, hash ∈ hashes → allows requester hash = true) ∧
     (∀ hash, hash ∈ served s' → hash ∈ served s ∨ answer = true ∧ hash ∈ hashes)).
Proof.
  intros Hs Hlen.
  assert (∀ hashes l, length l ≤ SERVED_WAITING → length (foldl (λ l h, try_send h l) l hashes) ≤ SERVED_WAITING ∧
    ∀ hash, hash ∈ foldl (λ l h, try_send h l) l hashes → hash ∈ l ∨ hash ∈ hashes) as Hsend.
  { induction hashes as [|h hashes IH]; intros l Hl; [by auto|]. cbn [foldl].
    assert (length (try_send h l) ≤ SERVED_WAITING) as Hl' by (unfold try_send; case_decide; rewrite ?length_app; cbn [length]; lia).
    destruct (IH _ Hl') as [Hb Hin]. split; [done|]. intros hash Hh. apply Hin in Hh as [Hh|Hh]; [|set_solver].
    unfold try_send in Hh. case_decide; set_solver. }
  assert (∀ requester hashes, judge allows requester hashes (served s) = (served s', answer) →
    length (served s') ≤ SERVED_WAITING ∧
    (answer = true ↔ ∃ r, requester = Some r ∧ ∀ hash, hash ∈ hashes → allows r hash = true) ∧
    (∀ hash, hash ∈ served s' → hash ∈ served s ∨ answer = true ∧ hash ∈ hashes)) as Hjudge.
  { intros requester hashes. unfold judge. destruct requester as [r|]; [|intros [= <- <-]; naive_solver].
    destruct (forallb (allows r) hashes) eqn:E; intros [= Hsv <-].
    - destruct (Hsend hashes (served s) Hlen) as [Hb Hin]. rewrite Hsv in *. split; [done|]. split; [|naive_solver].
      split; [|done]. intros _. exists r. split; [done|]. intros hash Hh. rewrite forallb_forall in E.
      apply E. by apply list_elem_of_In.
    - split; [congruence|]. split; [|rewrite Hsv; auto]. split; [done|]. intros (r' & [= <-] & Hall).
      apply not_true_iff_false in E. destruct E. apply forallb_forall. intros hash Hh. apply Hall. by apply list_elem_of_In. }
  destruct m as [c e|c|c hash|c hashes|size now]; simpl in Hs.
  1, 2, 5: injection Hs as <- <-; split; [done|]; intros ? ? [?|(? & ? & ?)]; done.
  - destruct (judge allows (requesters s !! c) [hash] (served s)) as [told allowed] eqn:Ej. injection Hs as <- <-.
    destruct (Hjudge _ _ Ej) as (Hb & Ha & Hin). split; [done|].
    intros c' hashes [?|(hash' & [= -> ->] & ->)]; [done|]. by split_and!.
  - destruct (judge allows (requesters s !! c) hashes (served s)) as [told allowed] eqn:Ej. injection Hs as <- <-.
    destruct (Hjudge _ _ Ej) as (Hb & Ha & Hin). split; [done|].
    intros c' hashes' [[= -> ->]|(? & ? & _)]; [|done]. by split_and!.
Qed.

(** ** Concrete runs *)

Definition any_order : Tags → list (string * ContentHash) := map_to_list.
Definition any_visit : KeptBlobs → list (ContentHash * KeptBlob) := map_to_list.

(** Every blob is complete, of ten bytes, and nothing fails. *)
Definition ten_bytes_each : StoreWorld :=
  MkStoreWorld (λ _, Ok (Complete 10)) (λ _, Ok tt) (λ _, Ok tt) (λ _, Ok tt).

(** Item 1 cached, item 2 this node's own. *)
Definition two_items : StorageState :=
  MkStorage (keep ten_bytes_each Own (MkItemId (id32 2)) (MkContentHash (id32 6))
               (keep ten_bytes_each Cache (MkItemId (id32 1)) (MkContentHash (id32 5)) ∅).1).1
    (MkHeldSet {[MkItemId (id32 1); MkItemId (id32 2)]} 0).

Lemma two_items_canonical : canonical (storage_tags two_items).
Proof.
  eapply (keep_canonical ten_bytes_each); [|apply surjective_pairing].
  eapply (keep_canonical ten_bytes_each); [|apply surjective_pairing].
  intros name r i b. rewrite dom_empty. set_solver.
Qed.

(** What is kept fits the sum. *)
Definition two_items_fit : bool :=
  match kept_blobs any_order ten_bytes_each (storage_tags two_items) with
  | Ok k => bool_decide (all_bytes k + 0 ≤ u64_max)%N
  | Err _ => false
  end.
Lemma two_items_fit_true : two_items_fit = true.
Proof. by vm_compute. Qed.


(** The cached item goes, and room is made. *)
Example cached_item_goes :
  (λ '(s, r), (r, bool_decide (dom (storage_tags s) = {[tag Own (MkItemId (id32 2)) (MkContentHash (id32 6))]}),
               bool_decide (held (storage_held s) = {[MkItemId (id32 2)]})))
    <$> evict_for any_order any_visit ten_bytes_each (Some 12%N) 3 (MkItemId (id32 3)) [] EvictAnyway
          (Ok (λ _, None)) two_items = Some (Ok Made, true, true).
Proof. by vm_compute. Qed.

Lemma served_only_if_allowed_witness :
  let s := MkServing {[1%N := MkMemberId (id32 9)]} None [] in
  let allows := λ (m : MemberId) (h : ContentHash), bool_decide (h = MkContentHash (id32 5)) in
  let hashes := [MkContentHash (id32 5); MkContentHash (id32 6)] in
  length (served (serve allows (GetManyRequest 1 hashes) s).1) ≤ SERVED_WAITING.
Proof.
  refine (proj1 (served_only_if_allowed
    (λ (m : MemberId) (h : ContentHash), bool_decide (h = MkContentHash (id32 5)))
    (GetManyRequest 1 [MkContentHash (id32 5); MkContentHash (id32 6)])
    (MkServing {[1%N := MkMemberId (id32 9)]} None []) _ _ (surjective_pairing _) _)).
  unfold SERVED_WAITING. simpl. lia.
Defined.
