(* ===== verification/Links.v ===== *)
(** * Open connections, one per peer and protocol

    [crates/distlib-net/src/connections.rs]. A connection is the number of a
    row of the endpoint's table ([Hooks.conns]); dialling is the endpoint's,
    whose outcome is an argument, and happens with the lock released, so
    another task may run between the look and the dial. *)

From S2P Require Import Prelude Ids Hooks Heartbeats Blobs.

(** [Connections]: its key is the peer and the protocol. *)
Notation Links := (gmap (MemberId * string) N).

Definition new_links : Links := ∅.

Section links.
Context (table : gmap N Connection).

(** [is_live] of a connection of the table. *)
Definition is_live (n : N) : bool := match table !! n with Some c => conn_is_live c | None => false end.

(** [Connections::cached]: a closed one is forgotten. *)
Definition cached (peer : MemberId) (alpn : string) (l : Links) : Links * option N :=
  match l !! (peer, alpn) with
  | Some n => if is_live n then (l, Some n) else (delete (peer, alpn) l, None)
  | None => (l, None)
  end.

(** What [get_or_connect] does once it has dialled. *)
Definition remember_dialled (peer : MemberId) (alpn : string) (dialled : result NetError N) (l : Links)
  : Links * result NetError N :=
  match dialled with
  | Ok n => (<[(peer, alpn) := n]> l, Ok n)
  | Err e => (l, Err e)
  end.

(** [Connections::get_or_connect]: [meanwhile] is what other tasks do to the
    set while it dials. *)
Definition get_or_connect (peer : MemberId) (alpn : string) (dialled : result NetError N) (meanwhile : Links → Links) (l : Links)
  : Links * result NetError N :=
  match cached peer alpn l with
  | (l, Some n) => (l, Ok n)
  | (l, None) => remember_dialled peer alpn dialled (meanwhile l)
  end.
End links.

(** [Connections::forget] and [forget_peer]. *)
Definition forget_link (peer : MemberId) (alpn : string) (l : Links) : Links := delete (peer, alpn) l.
Definition forget_peer (peer : MemberId) (l : Links) : Links := filter (λ e, e.1.1 ≠ peer) l.
Definition links_len (l : Links) : nat := size l.
Definition links_is_empty (l : Links) : bool := bool_decide (links_len l = 0).

(** ** Properties *)

(** What is handed out is open, or was just dialled; a closed connection is
    replaced, never handed out; what is dialled is handed out again while it
    is open, and only it; and looking for one peer and protocol touches no
    other's connection. *)
Theorem no_closed_link_is_handed_out table peer alpn dialled l l' r :
  get_or_connect table peer alpn dialled id l = (l', r) →
  match r with
  | Ok n => l' !! (peer, alpn) = Some n ∧
      (is_live table n = true ∧ l !! (peer, alpn) = Some n ∨
       dialled = Ok n ∧ ∀ m, l !! (peer, alpn) = Some m → is_live table m = false) ∧
      ∀ table', is_live table' n = true → ∀ other meanwhile, get_or_connect table' peer alpn other meanwhile l' = (l', Ok n)
  | Err e => dialled = Err e ∧ l' !! (peer, alpn) = None
  end ∧
  ∀ key, key ≠ (peer, alpn) → l' !! key = l !! key.
Proof.
  unfold get_or_connect, cached, remember_dialled. destruct (l !! (peer, alpn)) as [m|] eqn:El.
  - destruct (is_live table m) eqn:Em.
    + intros [= <- <-]. split; [|done]. split_and!; [done|by left|]. intros table' Hl other meanwhile. by rewrite El, Hl.
    + destruct dialled as [n|e]; intros [= <- <-]; cbn [id].
      * split; [split_and!|].
        -- apply lookup_insert_eq.
        -- right. split; [done|]. intros m' [= <-]. done.
        -- intros table' Hl other meanwhile. by rewrite lookup_insert_eq, Hl.
        -- intros key Hne. by rewrite lookup_insert_ne, lookup_delete_ne.
      * split; [split; [done|apply lookup_delete_eq]|]. intros key Hne. by rewrite lookup_delete_ne.
  - destruct dialled as [n|e]; intros [= <- <-]; cbn [id].
    + split; [split_and!|].
      * apply lookup_insert_eq.
      * right. split; [done|]. by intros m'.
      * intros table' Hl other meanwhile. by rewrite lookup_insert_eq, Hl.
      * intros key Hne. by rewrite lookup_insert_ne.
    + split; [done|]. done.
Qed.

(** What [forget_peer] leaves. *)
Lemma forget_peer_spec peer l key : forget_peer peer l !! key = if decide (key.1 = peer) then None else l !! key.
Proof.
  unfold forget_peer. destruct (decide (key.1 = peer)) as [Heq|Hne].
  - apply map_lookup_filter_None. right. intros n _. cbn. tauto.
  - destruct (l !! key) as [n|] eqn:El; [by apply map_lookup_filter_Some|]. apply map_lookup_filter_None. by left.
Qed.
