(* ===== verification/RaftNetwork.v ===== *)
(** * Raft RPC: who is answered, and what a client makes of it

    [crates/distlib-consensus/src/raft/network.rs] and [seat.rs]. openraft's
    requests and what its [Raft] answers are the class [RaftRpc]; a stream is
    a request and what is sent back, or the connection closed. *)

From S2P Require Import Prelude Ids GroupSettings Events Membership RaftLog RaftState CoreGroup CoreGroupProps Heartbeats Directory Hooks Blobs Links.

(** openraft's [Raft] and its three RPCs. *)
Class RaftRpc `{RaftConfig} : Type := {
  Raft : Type;
  AppendEntriesRequest : Type;
  VoteRequest : Type;
  InstallSnapshotRequest : Type;
  AppendEntriesAnswer : Type;
  VoteAnswer : Type;
  InstallSnapshotAnswer : Type;
  append_entries : AppendEntriesRequest → Raft → Raft * result string AppendEntriesAnswer;
  vote : VoteRequest → Raft → Raft * result string VoteAnswer;
  install_snapshot : InstallSnapshotRequest → Raft → Raft * result string InstallSnapshotAnswer;
  (** The configuration it acts on, committed or not. *)
  effective : Raft → RaftMembership;
}.

(** ** The seat *)

Section seat.
Context {A : Type}.

(** [Seat]. *)
Definition seat_empty : option A := None.
Definition seat_holding (raft : A) : option A := Some raft.
Definition seat_is_taken (seat : option A) : bool := bool_decide (is_Some seat).
Definition seat_take (raft : A) (seat : option A) : option A := Some raft.
Definition seat_vacate (seat : option A) : option A * option A := (None, seat).
End seat.

Section network.
Context `{RaftRpc} `{!Postcard}.

Definition MAX_RPC_BYTES : N := 16 * 1024 * 1024.
Definition NOT_A_VOTER : N := 0x1001.

Inductive Request : Type :=
| AppendEntries (rpc : AppendEntriesRequest)
| RequestVote (rpc : VoteRequest)
| InstallSnapshot (rpc : InstallSnapshotRequest)
| Retired
| ForgetMe.

Inductive Response : Type :=
| AppendedEntries (answer : result string AppendEntriesAnswer)
| Voted (answer : result string VoteAnswer)
| InstalledSnapshot (answer : result string InstallSnapshotAnswer)
| HasRetired (retired : bool)
| Forgotten (forgotten : bool).

(** [TrustedCore]. *)
Definition trusts (trusted : gset MemberId) (peer : MemberId) : bool := bool_decide (peer ∈ trusted).

(** [RaftProtocol]. *)
Record RaftProtocol : Type := MkRaftProtocol {
  seat : option Raft;
  state_machine : Store;
  trusted : gset MemberId;
}.

(** [TrustedCore::replace]. *)
Definition replace_trusted (members : gset MemberId) (p : RaftProtocol) : RaftProtocol :=
  MkRaftProtocol (seat p) (state_machine p) members.

(** What the state machine answers: the projection, and Raft's applied
    configuration. *)
Definition projection (p : RaftProtocol) : MembershipState := state (applied (state_machine p)).
Definition applied_config (p : RaftProtocol) : RaftMembership := stored_config (announced_raft (state_machine p)).

(** [applied_voter]. *)
Definition applied_voter (p : RaftProtocol) (peer : MemberId) : bool :=
  bool_decide (raw_of_member peer ∈ voter_ids (applied_config p)).

(** [may_speak_raft]. *)
Definition may_speak_raft (p : RaftProtocol) (raft : Raft) (peer : MemberId) : bool :=
  if match promotion (state_machine p) with Some held => bool_decide (peer ∈ promotion_voters held) | None => false end then true
  else if applied_voter p peer then true
  else if decide (voter_ids (effective raft) ≠ []) then
    existsb (λ voter, match member_of_raw voter with Some member => bool_decide (member = peer) | None => false end)
      (voter_ids (effective raft))
  else bool_decide (group (projection p) = None) && trusts (trusted p) peer.

(** [may_query_retirement]. *)
Definition may_query_retirement (p : RaftProtocol) (peer : MemberId) : bool :=
  match seat p with Some raft => may_speak_raft p raft peer | None => false end ||
  is_core (projection p) peer ||
  bool_decide (is_Some (raft_nodes (applied_config p) !! raw_of_member peer)).

(** [forget_retired]: what it asks of Raft, and what it answers if that is
    done in time, or not. *)
Definition forget_retired (p : RaftProtocol) (peer : MemberId) (changed_in_time : bool) : option ChangeMembers * bool :=
  match seat p with
  | None => (None, false)
  | Some _ =>
      if is_member (projection p) peer || negb (bool_decide (length (joint_config (applied_config p)) = 1%nat)) ||
         bool_decide (raw_of_member peer ∈ voter_ids (applied_config p))
      then (None, false)
      else (Some (RemoveNodes {[raw_of_member peer]}), changed_in_time)
  end.

(** [RaftProtocol::answer]: what it answers, and the Raft after. *)
Definition answer (p : RaftProtocol) (raft : Raft) (request : Request) : Raft * Response :=
  match request with
  | Retired => (raft, HasRetired (negb (seat_is_taken (seat p))))
  | ForgetMe => (raft, Forgotten false)
  | AppendEntries rpc => let '(raft, a) := append_entries rpc raft in (raft, AppendedEntries a)
  | RequestVote rpc => let '(raft, a) := vote rpc raft in (raft, Voted a)
  | InstallSnapshot rpc => let '(raft, a) := install_snapshot rpc raft in (raft, InstalledSnapshot a)
  end.

(** What becomes of a stream: an answer, with the Raft after and the change
    asked of it; the connection closed; or an error of its own. *)
Inductive Served : Type :=
| Answered (raft : option Raft) (asked : option ChangeMembers) (response : Response)
| ClosedWith (code : N)
| Malformed.

(** A turn of [accept]: the node as it is when the loop comes round, and as it
    is once the request, [None] if it does not decode, has been read. *)
Definition accept (before p : RaftProtocol) (peer : MemberId) (request : option Request) (changed_in_time : bool) : Served :=
  if negb (may_query_retirement before peer) then ClosedWith NOT_A_VOTER
  else match request with
       | None => Malformed
       | Some request =>
           let authorized :=
             match seat p with None => applied_voter p peer | Some raft => may_speak_raft p raft peer end in
           let may_query := may_query_retirement p peer in
           let consensus :=
             match seat p with
             | Some raft =>
                 if authorized then let '(raft, response) := answer p raft request in Answered (Some raft) None response
                 else ClosedWith NOT_A_VOTER
             | None => ClosedWith NOT_A_VOTER
             end in
           match request with
           | Retired => if may_query then Answered (seat p) None (HasRetired (negb (seat_is_taken (seat p)))) else consensus
           | ForgetMe =>
               if may_query then
                 let '(asked, forgotten) := forget_retired p peer changed_in_time in Answered (seat p) asked (Forgotten forgotten)
               else consensus
           | _ => consensus
           end
       end.

(** ** The client *)

(** [RPCError], with what it is about. *)
Inductive RpcError : Type :=
| RpcUnreachable (why : string)
| RpcNetwork (why : string)
| RpcRemote (target : RawMemberId) (answer : string).

(** [RaftClient]: whom it calls, and where. *)
Record RaftClient : Type := MkRaftClient { target : RawMemberId; client_addr : NodeAddr }.

(** [new_client]: it does not connect. *)
Definition new_client (id : RawMemberId) (addr : NodeAddr) : RaftClient := MkRaftClient id addr.

Section client.
Context `{Lookup} (table : gmap N Connection).

(** [endpoint_addr]. *)
Definition endpoint_addr (c : RaftClient) : result RpcError EndpointAddr :=
  match member_of_raw (target c) with
  | None => Err (RpcUnreachable "it is no member id")
  | Some member =>
      let addr := foldr with_ip_addr (endpoint_new member) (elements (direct (client_addr c))) in
      match relay (client_addr c) with
      | None => Ok addr
      | Some url => match parse_relay url with
                    | Some u => Ok (with_relay_url u addr)
                    | None => Err (RpcUnreachable "it lists an unparseable relay url")
                    end
      end
  end.

(** What the steps of an exchange come to: dialling, if need be, and each step
    on the stream. *)
Record Wire : Type := MkWire {
  request_encodes : result string unit;
  dialled : result NetError N;
  stream : result string unit;
  reply : result string Response;
}.

(** [connection]. *)
Definition connection (c : RaftClient) (w : Wire) (l : Links) : Links * result RpcError N :=
  match member_of_raw (target c) with
  | None => (l, Err (RpcUnreachable "it is no member id"))
  | Some peer =>
      match endpoint_addr c with
      | Err e => (l, Err e)
      | Ok _ =>
          match get_or_connect table peer RAFT (dialled w) id l with
          | (l, Ok n) => (l, Ok n)
          | (l, Err _) => (l, Err (RpcUnreachable "it could not be connected to"))
          end
      end
  end.

(** [exchange]. *)
Definition exchange (c : RaftClient) (w : Wire) (l : Links) : Links * result RpcError Response :=
  match request_encodes w with
  | Err e => (l, Err (RpcNetwork e))
  | Ok _ =>
      match connection c w l with
      | (l, Err e) => (l, Err e)
      | (l, Ok _) =>
          (l, match stream w with
              | Err e => Err (RpcNetwork e)
              | Ok _ => match reply w with Ok r => Ok r | Err e => Err (RpcNetwork e) end
              end)
      end
  end.

(** [call]: a failure drops the connection. *)
Definition call (c : RaftClient) (w : Wire) (l : Links) : Links * result RpcError Response :=
  match exchange c w l with
  | (l, Ok response) => (l, Ok response)
  | (l, Err e) =>
      (match member_of_raw (target c) with Some peer => forget_link peer RAFT l | None => l end, Err e)
  end.

(** [mismatched]. *)
Definition mismatched {A} : result RpcError A := Err (RpcNetwork "it answered a different request than it was asked").

(** [remote]. *)
Definition remote {A} (c : RaftClient) (answered : result string A) : result RpcError A :=
  match answered with Ok a => Ok a | Err e => Err (RpcRemote (target c) e) end.

(** [retired], and the three RPCs, of what [call] answered. *)
Definition client_retired (called : result RpcError Response) : result RpcError bool :=
  r ←? called ;; match r with HasRetired b => Ok b | _ => mismatched end.
Definition client_append_entries (c : RaftClient) (called : result RpcError Response) : result RpcError AppendEntriesAnswer :=
  r ←? called ;; match r with AppendedEntries a => remote c a | _ => mismatched end.
Definition client_vote (c : RaftClient) (called : result RpcError Response) : result RpcError VoteAnswer :=
  r ←? called ;; match r with Voted a => remote c a | _ => mismatched end.
Definition client_install_snapshot (c : RaftClient) (called : result RpcError Response) : result RpcError InstallSnapshotAnswer :=
  r ←? called ;; match r with InstalledSnapshot a => remote c a | _ => mismatched end.

(** [forget_me]: [rejected] is whether the connection was closed as a refusal. *)
Definition forget_me (c : RaftClient) (connected : result NetError unit) (called : result RpcError Response) (rejected : bool) : bool :=
  match member_of_raw (target c) with
  | None => false
  | Some _ =>
      match endpoint_addr c with
      | Err _ => false
      | Ok _ =>
          match connected with
          | Err (RejectedError _ true) => true
          | Err _ => false
          | Ok _ => match called with Ok (Forgotten true) => true | _ => rejected end
          end
      end
  end.
End client.
End network.

(** ** Raft answers its voters and nobody else *)

Section props.
Context `{RaftRpc} `{!RaftConfigLaws} `{!Postcard}.

(** A voter a node may know of: of a promotion it is replaying, of the
    configuration it has applied, or of the one its Raft acts on. *)
Definition known_voter (p : RaftProtocol) (raft : Raft) (peer : MemberId) : Prop :=
  (∃ held, promotion (state_machine p) = Some held ∧ peer ∈ promotion_voters held) ∨
  raw_of_member peer ∈ voter_ids (applied_config p) ∨
  raw_of_member peer ∈ voter_ids (effective raft).

(** Who stands in for the voters of a Raft that has none, before there is a
    group. *)
Definition founding_voter (p : RaftProtocol) (raft : Raft) (peer : MemberId) : Prop :=
  group (projection p) = None ∧ voter_ids (effective raft) = [] ∧ peer ∈ trusted p.

Lemma may_speak_raft_spec p raft peer :
  may_speak_raft p raft peer = true ↔ known_voter p raft peer ∨ founding_voter p raft peer.
Proof.
  unfold may_speak_raft, known_voter, founding_voter.
  destruct (match promotion (state_machine p) with Some held => _ | None => false end) eqn:Ep.
  { destruct (promotion (state_machine p)) as [held|]; [|done]. apply bool_decide_eq_true in Ep. split; [|done].
    intros _. left. left. by exists held. }
  assert (¬ ∃ held, promotion (state_machine p) = Some held ∧ peer ∈ promotion_voters held) as Hnp.
  { intros (held & Hh & Hin). rewrite Hh in Ep. by apply bool_decide_eq_false in Ep. }
  unfold applied_voter. case_bool_decide as Ha; [split; [|done]; intros _; left; right; by left|].
  assert (existsb (λ voter, match member_of_raw voter with Some member => bool_decide (member = peer) | None => false end)
    (voter_ids (effective raft)) = true ↔ raw_of_member peer ∈ voter_ids (effective raft)) as He.
  { rewrite existsb_exists. split.
    - intros (voter & Hin & Hm). destruct (member_of_raw voter) as [member|] eqn:Er; [|done].
      apply bool_decide_eq_true in Hm as ->. apply raw_of_member_of in Er as ->. by apply list_elem_of_In.
    - intros Hin. exists (raw_of_member peer). split; [by apply list_elem_of_In|]. by rewrite member_of_raw_of, bool_decide_true. }
  destruct (decide (voter_ids (effective raft) ≠ [])) as [Hv|Hv].
  - rewrite He. split; [by intros; left; right; right|]. intros [[?|[?|?]]|(_ & ? & _)]; done.
  - apply dec_stable in Hv. unfold trusts. rewrite andb_true_iff, !bool_decide_eq_true, Hv. split.
    + intros [? ?]. by right.
    + intros [[?|[?|Hin]]|(? & _ & ?)]; [done|done|by apply elem_of_nil in Hin|done].
Qed.

(** What [forget_retired] asks of Raft. *)
Lemma forget_retired_spec p peer in_time ch b :
  forget_retired p peer in_time = (Some ch, b) →
  ch = RemoveNodes {[raw_of_member peer]} ∧ is_member (projection p) peer = false ∧
  raw_of_member peer ∉ voter_ids (applied_config p) ∧ ∃ V, joint_config (applied_config p) = [V].
Proof.
  unfold forget_retired. destruct (seat p); [|done]. destruct (is_member (projection p) peer); [done|]. cbn [orb].
  destruct (decide (length (joint_config (applied_config p)) = 1%nat)) as [Hu|Hu];
    [rewrite bool_decide_true by done|by rewrite bool_decide_false]. cbn [negb orb].
  case_bool_decide; [done|]. intros [= <- _]. split_and!; [done|done|done|].
  destruct (joint_config (applied_config p)) as [|V [|]]; [done| |done]. by exists V.
Qed.

(** What is an answer of Raft itself. *)
Definition is_consensus (r : Response) : Prop :=
  match r with AppendedEntries _ | Voted _ | InstalledSnapshot _ => True | HasRetired _ | Forgotten _ => False end.

(** What may be done about a request of [peer]. *)
Definition served_well (p : RaftProtocol) (peer : MemberId) (s : Served) : Prop :=
  match s with
  | Answered raft' asked response =>
      (is_consensus response ∨ raft' ≠ seat p →
        ∃ raft, seat p = Some raft ∧ (known_voter p raft peer ∨ founding_voter p raft peer)) ∧
      (∀ ch, asked = Some ch →
        ch = RemoveNodes {[raw_of_member peer]} ∧ is_member (projection p) peer = false ∧
        raw_of_member peer ∉ voter_ids (applied_config p) ∧ ∃ V, joint_config (applied_config p) = [V]) ∧
      (response = HasRetired true → seat p = None)
  | ClosedWith code => code = NOT_A_VOTER
  | Malformed => True
  end.

Lemma answer_served_well p raft peer request :
  seat p = Some raft → may_speak_raft p raft peer = true →
  served_well p peer (let '(raft, response) := answer p raft request in Answered (Some raft) None response).
Proof.
  intros Hs Hm. destruct (answer p raft request) as [raft' response] eqn:Ea. split_and!.
  - intros _. exists raft. split; [done|]. by apply may_speak_raft_spec.
  - done.
  - intros ->. unfold answer, seat_is_taken in Ea. rewrite Hs in Ea.
    destruct request; simplify_eq/=; repeat case_match; simplify_eq/=.
Qed.

(** An answer that changes nothing. *)
Lemma kept_served_well p peer asked response :
  ¬ is_consensus response → (∀ ch, asked = Some ch →
    ch = RemoveNodes {[raw_of_member peer]} ∧ is_member (projection p) peer = false ∧
    raw_of_member peer ∉ voter_ids (applied_config p) ∧ ∃ V, joint_config (applied_config p) = [V]) →
  (response = HasRetired true → seat p = None) → served_well p peer (Answered (seat p) asked response).
Proof. intros Hr Ha Hret. split_and!; [by intros []|done|done]. Qed.

(** C17: Whatever a peer asks and however the node changes while it waits, its
    Raft answers an RPC, or is changed by one, only for a voter it may know of
    or, before there is a group and while it has no voters, for one of the core
    it was told to trust; otherwise the connection is closed and nothing
    changes. What else is answered changes nothing but that a node that is no
    member and no voter has itself, and nobody else, forgotten; and a node says
    that it has retired only when it has no Raft. *)
Theorem raft_answers_voters_alone before p peer request in_time :
  served_well p peer (accept before p peer request in_time).
Proof.
  unfold accept. destruct (may_query_retirement before peer); [|done]. cbn [negb].
  destruct request as [request|]; [|done].
  set (consensus := match seat p with Some _ => _ | None => ClosedWith NOT_A_VOTER end).
  assert (served_well p peer consensus) as Hcons.
  { subst consensus. destruct (seat p) as [raft|] eqn:Es; [|done]. destruct (may_speak_raft p raft peer) eqn:Em; [|done].
    by apply answer_served_well. }
  destruct request; try exact Hcons; (destruct (may_query_retirement p peer); [|exact Hcons]).
  - apply kept_served_well; [by intros []|done|]. intros [= Hr]. unfold seat_is_taken in Hr.
    apply negb_true_iff, bool_decide_eq_false in Hr. by apply eq_None_not_Some.
  - destruct (forget_retired p peer in_time) as [asked forgotten] eqn:Ef.
    apply kept_served_well; [by intros []| |done]. intros ch ->. by eapply forget_retired_spec.
Qed.
End props.
