(* ===== verification/Memberlog.v ===== *)
(** * What a member says to a core node about the log

    [crates/distlib-consensus/src/raft/memberlog.rs] but for the page that is
    served, which is [RaftLog.fetch]. Raft's [client_write] and the streams are
    outcomes; what one exchange asks and is answered is a value. *)

From S2P Require Import Prelude Ids GroupSettings Events Membership RaftLog RaftState Follower CoreGroup Heartbeats Directory Hooks Blobs Links RaftNetwork.

(** In nanoseconds. *)
Definition COMMIT_TIMEOUT : N := 30 * 1000000000.
Definition EXCHANGE_TIMEOUT : N := 45 * 1000000000.
Definition CONNECT_TIMEOUT : N := 3 * 1000000000.
Definition FETCH_TIMEOUT : N := 5 * 1000000000.

(** What came of a call made under a limit. *)
Inductive timed (A : Type) : Type := InTime (a : A) | TooLate.
#[global] Arguments InTime {A}.
#[global] Arguments TooLate {A}.

Section memberlog.
Context `{RaftRpc} `{!Postcard} `{!HeartbeatCodec} `{Lookup}.

Inductive LogRequest : Type :=
| Propose (event : SignedEvent)
| From (cursor : N)
| AskDirectory.

Inductive ProposeOutcome : Type :=
| AppliedAt (index : N)
| Rejected (error : ConsensusError)
| NotCommitted (why : string).

Inductive LogResponse : Type :=
| Proposed (outcome : ProposeOutcome)
| FetchedPage (fetched : Fetched)
| DirectoryOf (addresses : list SignedAddress).

(** [ProposeError], of a proposal handed to [member]. *)
Inductive ProposeError : Type :=
| ProposeUnreachable (member : MemberId) (why : string)
| ProposeNotCommitted (why : string)
| ProposeRejected (error : ConsensusError).

(** [Failure::of]. *)
Definition failure_of (error : NetError) : Failure :=
  match error with RejectedError _ true => FetchRefused | _ => FetchUnreachable end.

(** ** Answering *)

(** [client_write]: what Raft made of an event. *)
Inductive Write : Type :=
| Wrote (index : N) (verdict : result ConsensusError unit)
| ForwardToLeader (leader : option RawMemberId) (node : option NodeAddr)
| WriteFailed (why : string).

(** [forward]: the leader's answer passed back. *)
Definition unreachable_text : string := "the leader could not be reached".
Definition forward (answered : result ProposeError N) : ProposeOutcome :=
  match answered with
  | Ok index => AppliedAt index
  | Err (ProposeRejected error) => Rejected error
  | Err (ProposeNotCommitted why) => NotCommitted why
  | Err (ProposeUnreachable _ _) => NotCommitted unreachable_text
  end.

(** [commit_or_forward]: [hand_on] is [propose_to_leader]. *)
Definition not_leader_text : string := "this node is not the leader".
Definition commit_or_forward (membership : MembershipState) (sender : MemberId) (write : timed Write)
    (hand_on : RawMemberId → NodeAddr → timed (result ProposeError N)) : timed ProposeOutcome :=
  match write with
  | InTime (Wrote index (Ok _)) => InTime (AppliedAt index)
  | InTime (Wrote _ (Err rejected)) => InTime (Rejected rejected)
  | InTime (ForwardToLeader (Some leader) (Some addr)) =>
      if negb (is_core membership sender) then
        match hand_on leader addr with
        | InTime answered => InTime (forward answered)
        | TooLate => TooLate
        end
      else InTime (NotCommitted not_leader_text)
  | InTime (ForwardToLeader _ _) => InTime (NotCommitted not_leader_text)
  | InTime (WriteFailed why) => InTime (NotCommitted why)
  | TooLate => TooLate
  end.

(** [MemberlogProtocol::propose]: the limit is around the hand-over too. *)
Definition late_text : string := "the entry did not commit in time".
Definition propose (membership : MembershipState) (sender : MemberId) (signed : SignedEvent) (write : timed Write)
    (hand_on : RawMemberId → NodeAddr → timed (result ProposeError N)) : ProposeOutcome :=
  match ev ←? event signed ;; within_limits ev with
  | Err refused => Rejected refused
  | Ok _ =>
      match commit_or_forward membership sender write hand_on with
      | InTime outcome => outcome
      | TooLate => NotCommitted late_text
      end
  end.

(** [MemberlogProtocol], with where its Raft's metrics say the voters are. *)
Record MemberlogProtocol : Type := MkMemberlogProtocol {
  log_seat : option Raft;
  current_leader : option RawMemberId;
  log : LogStore;
  store : Store;
  heard_directory : Directory;
}.

(** [serve_directory]. *)
Definition serve_directory (p : MemberlogProtocol) : list SignedAddress :=
  filter (λ a, is_member (state (applied (store p))) (address_member a) = true) (everything (heard_directory p)).

(** [MemberlogProtocol::fetch]: without a Raft, the voters are those applied. *)
Definition serve_page (p : MemberlogProtocol) (raft : option Raft) (cursor : N) : Fetched :=
  fetch (log p) (state (applied (store p))) (last_applied_index (store p))
    (match raft with
     | Some raft => source (effective raft) (current_leader p)
     | None => source (stored_config (announced_raft (store p))) None
     end) cursor.

(** [MemberlogProtocol::answer]. *)
Definition answer_log (p : MemberlogProtocol) (raft : Raft) (sender : MemberId) (request : LogRequest)
    (write : timed Write) (hand_on : RawMemberId → NodeAddr → timed (result ProposeError N)) : LogResponse :=
  match request with
  | Propose signed => Proposed (propose (state (applied (store p))) sender signed write hand_on)
  | From cursor => FetchedPage (serve_page p (Some raft) cursor)
  | AskDirectory => DirectoryOf (serve_directory p)
  end.

(** A stream of [accept]: an answer, or the connection closed. *)
Definition accept_log (p : MemberlogProtocol) (sender : MemberId) (request : option LogRequest)
    (write : timed Write) (hand_on : RawMemberId → NodeAddr → timed (result ProposeError N)) : result N LogResponse :=
  match request with
  | None => Err 0
  | Some request =>
      match log_seat p with
      | Some raft => Ok (answer_log p raft sender request write hand_on)
      | None =>
          match request with
          | From cursor =>
              if bool_decide (cursor < last_applied_index (store p))%N then Ok (FetchedPage (serve_page p None cursor))
              else Ok (FetchedPage (Redirect
                {| source_core := map_entries (core (state (applied (store p)))); source_leader := None |}))
          | _ => Err NOT_A_VOTER
          end
      end
  end%N.

(** ** Asking *)

(** [Rebuffed]. *)
Record Rebuffed : Type := MkRebuffed { rebuffed_message : string; why : Failure }.
Definition rebuffed_new (message : string) : Rebuffed := MkRebuffed message FetchUnreachable.
Definition from_peer (what : string) (error : NetError) : Rebuffed := MkRebuffed what (failure_of error).

(** What the steps of an exchange come to. *)
Record LogWire : Type := MkLogWire {
  log_request_encodes : result string unit;
  log_dialled : timed (result NetError N);
  log_stream : result NetError unit;
  log_finish : result string unit;
  log_read : result NetError unit;
  log_reply : result string LogResponse;
}.

(** [alpn::MEMBERLOG]. *)
Definition MEMBERLOG : string := "distlib/memberlog/0".

Section asking.
Context (table : gmap N Connection).

(** [try_exchange]. *)
Definition try_exchange (member : MemberId) (addr : NodeAddr) (w : LogWire) (l : Links) : Links * result Rebuffed LogResponse :=
  match log_request_encodes w with
  | Err e => (l, Err (rebuffed_new e))
  | Ok _ =>
      match to_endpoint_addr member addr with
      | Err (_, url) => (l, Err (rebuffed_new url))
      | Ok _ =>
          let '(l, connected) :=
            match cached table member MEMBERLOG l with
            | (l, Some n) => (l, Ok n)
            | (l, None) =>
                match log_dialled w with
                | TooLate => (l, Err (rebuffed_new "connecting: no answer in time"))
                | InTime dialled =>
                    match remember_dialled member MEMBERLOG dialled l with
                    | (l, Ok n) => (l, Ok n)
                    | (l, Err e) => (l, Err (from_peer "connecting" e))
                    end
                end
            end in
          (l, connected ;?
              match log_stream w with
              | Err e => Err (from_peer "opening a stream or sending" e)
              | Ok _ =>
                  match log_finish w with
                  | Err e => Err (rebuffed_new e)
                  | Ok _ =>
                      match log_read w with
                      | Err e => Err (from_peer "reading the answer" e)
                      | Ok _ =>
                          match log_reply w with
                          | Ok response => Ok response
                          | Err e => Err (MkRebuffed e FetchUndecodable)
                          end
                      end
                  end
              end)
      end
  end.

(** [MemberlogClient::exchange]: a failure drops this peer's connection. *)
Definition exchange_log (member : MemberId) (addr : NodeAddr) (w : LogWire) (l : Links) : Links * result Rebuffed LogResponse :=
  match try_exchange member addr w l with
  | (l, Ok response) => (l, Ok response)
  | (l, Err rebuffed) => (forget_link member MEMBERLOG l, Err rebuffed)
  end.
End asking.

(** [MemberlogClient::propose]: what an exchange, made in time or not, says. *)
Definition propose_to (member : MemberId) (answer : timed (result Rebuffed LogResponse)) : result ProposeError N :=
  match answer with
  | TooLate => Err (ProposeUnreachable member "no answer in time")
  | InTime (Err rebuffed) => Err (ProposeUnreachable member (rebuffed_message rebuffed))
  | InTime (Ok (FetchedPage _)) | InTime (Ok (DirectoryOf _)) =>
      Err (ProposeNotCommitted "the peer answered something other than a proposal")
  | InTime (Ok (Proposed (AppliedAt index))) => Ok index
  | InTime (Ok (Proposed (Rejected error))) => Err (ProposeRejected error)
  | InTime (Ok (Proposed (NotCommitted why))) => Err (ProposeNotCommitted why)
  end.

(** [propose_to_leader]. *)
Definition propose_to_leader (leader : RawMemberId) (answer : MemberId → timed (result Rebuffed LogResponse))
  : result ProposeError N :=
  match member_of_raw leader with
  | None => Err (ProposeNotCommitted "the leader's id is not a member id")
  | Some leader => propose_to leader (answer leader)
  end.

(** [MemberlogClient::fetch]: what it answers, and the address book after. *)
Definition fetch_from (answer : timed (result Rebuffed LogResponse)) (book : MemoryLookup) : MemoryLookup * result Failure Fetched :=
  match answer with
  | TooLate => (book, Err FetchUnreachable)
  | InTime (Err rebuffed) => (book, Err (why rebuffed))
  | InTime (Ok (FetchedPage fetched)) =>
      (match fetched with
       | Entries _ _ _ from | Redirect from => learn_all (source_core from) book
       | NoGroup => book
       end, Ok fetched)
  | InTime (Ok (Proposed _)) | InTime (Ok (DirectoryOf _)) => (book, Err FetchUnreachable)
  end.

(** [learn_all]: what is learned, and how many statements were news. *)
Definition learn_one (s : Directory * nat) (a : SignedAddress) : Directory * nat :=
  match learn a s.1 with
  | (d, Ok true) => (d, S s.2)
  | (d, _) => (d, s.2)
  end.
Definition learn_directory (d : Directory) (addresses : list SignedAddress) : Directory * nat :=
  foldl learn_one (d, 0) addresses.

(** [MemberlogClient::directory]. *)
Definition ask_directory (answer : timed (result Rebuffed LogResponse)) (d : Directory) : Directory * result Failure nat :=
  match answer with
  | TooLate => (d, Err FetchUnreachable)
  | InTime (Err rebuffed) => (d, Err (why rebuffed))
  | InTime (Ok (DirectoryOf addresses)) => let '(d, n) := learn_directory d addresses in (d, Ok n)
  | InTime (Ok (FetchedPage _)) | InTime (Ok (Proposed _)) => (d, Err FetchUnreachable)
  end.

(** [ask_for_the_directory] of [follower.rs], over [candidates]: the first who
    says where the group is. *)
Fixpoint ask_for_the_directory (candidates : list (MemberId * NodeAddr))
    (answers : MemberId → NodeAddr → timed (result Rebuffed LogResponse)) (d : Directory) : Directory * bool :=
  match candidates with
  | [] => (d, false)
  | (member, addr) :: candidates =>
      match ask_directory (answers member addr) d with
      | (d, Ok _) => (d, true)
      | (d, Err _) => ask_for_the_directory candidates answers d
      end
  end.

(** [refresh_addresses] of [node.rs]. *)
Definition refresh_addresses (sources : Sources) (me : MemberId)
    (answers : MemberId → NodeAddr → timed (result Rebuffed LogResponse)) (d : Directory) : Directory * bool :=
  ask_for_the_directory (candidates sources me) answers d.
End memberlog.
