(* ===== verification/MemberlogProps.v ===== *)
(** * What a core node does for the members who ask it

    A proposal is applied by the Raft that was asked or by the leader it was
    handed to, and goes no further; who asks for the directory ends up knowing
    what the core node has heard of whoever is a member. *)

From S2P Require Import Prelude Ids GroupSettings Events Membership Fixtures RaftLog RaftState Follower RaftFixtures CoreGroup CoreGroupProps CoreGroupFixtures Holders Heartbeats HeartbeatFixtures Directory Hooks Blobs Links RaftNetwork Memberlog.

(** ** Proposals *)

Section proposals.
Context `{RaftRpc} `{!Postcard} `{!HeartbeatCodec} `{Lookup}.

(** A signature and limits that the log is not asked to judge. *)
Definition proposable (signed : SignedEvent) : Prop := ∃ ev, event signed = Ok ev ∧ within_limits ev = Ok ().

Lemma propose_applied membership sender signed write hand_on i :
  propose membership sender signed write hand_on = AppliedAt i →
  proposable signed ∧
  (write = InTime (Wrote i (Ok ())) ∨
   is_core membership sender = false ∧
   ∃ leader addr, write = InTime (ForwardToLeader (Some leader) (Some addr)) ∧ hand_on leader addr = InTime (Ok i)).
Proof.
  unfold propose, proposable. destruct (event signed) as [ev|e]; [|done]. simpl.
  destruct (within_limits ev) as [[]|e] eqn:El; [|done].
  intros Hc. split; [by exists ev|]. unfold commit_or_forward in Hc.
  destruct write as [[j [[]|e]|[leader|] [addr|]|why]|]; simplify_eq/=; [by left|]. right.
  destruct (is_core membership sender); [done|]. split; [done|]. exists leader, addr. split; [done|].
  destruct (hand_on leader addr) as [[j|[]]|]; by simplify_eq/=.
Qed.

Lemma accept_log_applied p sender signed write hand_on i :
  accept_log p sender (Some (Propose signed)) write hand_on = Ok (Proposed (AppliedAt i)) →
  is_Some (log_seat p) ∧ propose (state (applied (store p))) sender signed write hand_on = AppliedAt i.
Proof. unfold accept_log. destruct (log_seat p) as [raft|]; [|done]. intros [= ?]. by split. Qed.

(** What a proposer hears of the stream a core node answered. *)
Definition heard_of (answered : result N LogResponse) : timed (result Rebuffed LogResponse) :=
  InTime (match answered with
          | Ok response => Ok response
          | Err _ => Err (rebuffed_new "reading the answer")
          end).

Lemma propose_to_ok member answered i :
  propose_to member (heard_of answered) = Ok i → answered = Ok (Proposed (AppliedAt i)).
Proof. destruct answered as [[[]| |]|]; intros; by simplify_eq/=. Qed.

(** What a member proposes to a node [p], which hands it on to the leader
    [q] if Raft tells it that it is not the leader, is answered as applied at an
    index only if the signature and the limits were in order and Raft at [p], or
    at [q], wrote it at that very index and the state machine accepted it; [q],
    for which [p] is of the core group, never hands it on again, to whomever it
    would. *)
Theorem proposal_goes_one_hop p q me sender signed write write' hand_on i :
  is_core (state (applied (store q))) me = true →
  let at_leader := accept_log q me (Some (Propose signed)) write' hand_on in
  let at_p := accept_log p sender (Some (Propose signed)) write
    (λ leader _, InTime (propose_to_leader leader (λ _, heard_of at_leader))) in
  propose_to me (heard_of at_p) = Ok i →
  proposable signed ∧
  (write = InTime (Wrote i (Ok ())) ∧ is_Some (log_seat p) ∨
   write' = InTime (Wrote i (Ok ())) ∧ is_Some (log_seat q) ∧ is_core (state (applied (store p))) sender = false).
Proof.
  intros Hcore at_leader at_p Ha%propose_to_ok.
  apply accept_log_applied in Ha as [Hs Ha]. apply propose_applied in Ha as [Hok [->|(Hc & leader & addr & -> & Hl)]];
    split; [done|by left|done|]. right.
  injection Hl as Hl. unfold propose_to_leader in Hl. destruct (member_of_raw leader) as [m|]; [|done].
  apply propose_to_ok in Hl. apply accept_log_applied in Hl as [Hq Hl].
  apply propose_applied in Hl as [_ [->|(Hn & _)]]; [done|congruence].
Qed.
End proposals.

(** ** The directory *)

Section directories.
Context `{RaftRpc} `{!Postcard} `{!HeartbeatCodec} `{LookupLaws}.

(** What learning does to what is known of a member: it is kept, or replaced by
    a later statement of the member's own. *)
Definition no_worse (d d' : Directory) (m : MemberId) : Prop :=
  ∀ n, position_of d m = Some n → ∃ n', position_of d' m = Some n' ∧ (n ≤ n')%N.

Lemma no_worse_trans e1 e2 e3 m : no_worse e1 e2 m → no_worse e2 e3 m → no_worse e1 e3 m.
Proof. intros H12 H23 n (n' & (n'' & ? & ?)%H23 & ?)%H12. exists n''. split; [done|lia]. Qed.

(** A statement that can be used: signed by its member, and somewhere iroh can
    dial. *)
Definition usable (a : SignedAddress) : Prop :=
  address_of a = Ok (address_addr a) ∧ addr_is_empty (address_addr a) = false ∧
  ∃ endpoint, to_endpoint_addr (address_member a) (address_addr a) = Ok endpoint.

(** What becomes of a directory that learned the statements [l]. *)
Definition has_learned (l : list SignedAddress) (d d' : Directory) (n : nat) : Prop :=
  directory_true d' ∧ (∀ m, no_worse d d' m) ∧
  (∀ m, (∀ a, a ∈ l → address_member a ≠ m) → signed_addresses d' !! m = signed_addresses d !! m) ∧
  (∀ a, a ∈ l → usable a → ∃ n', position_of d' (address_member a) = Some n' ∧ (address_applied a ≤ n')%N) ∧
  wrap64 (learned d') = wrap64 (learned d + N.of_nat n) ∧ (n ≤ length l)%nat.

Lemma learn_newest a d d' r :
  learn a d = (d', r) → usable a → ∃ n', position_of d' (address_member a) = Some n' ∧ (address_applied a ≤ n')%N.
Proof.
  intros Hl (Ha & He & endpoint & Ht). unfold learn in Hl. rewrite Ha, He, Ht in Hl. unfold position_of.
  destruct (signed_addresses d !! address_member a) as [held|] eqn:Es.
  - case_bool_decide as Hlt.
    + injection Hl as <- <-. rewrite Es. exists (address_applied held). split; [done|lia].
    + case_decide; injection Hl as <- <-; simpl; rewrite lookup_insert_eq; by exists (address_applied a).
  - case_decide; injection Hl as <- <-; simpl; rewrite lookup_insert_eq; by exists (address_applied a).
Qed.

Lemma learn_one_spec a d :
  directory_true d → let s' := learn_one (d, 0%nat) a in has_learned [a] d s'.1 s'.2.
Proof.
  intros Hd. unfold learn_one. cbn [fst snd]. destruct (learn a d) as [d' r] eqn:El.
  pose proof (learn_learns a d d' r Hd El) as (Ht & Ho & Hm & _ & Hn).
  assert (no_worse d d' (address_member a)) as Hw.
  { intros n Hp. destruct Hm as [Hm|[Hm Hle]].
    - exists n. unfold position_of in *. by rewrite Hm.
    - exists (address_applied a). unfold position_of at 1. rewrite Hm. split; [done|]. by apply Hle. }
  assert (∀ n, wrap64 (learned d') = wrap64 (learned d + N.of_nat n) → (n ≤ 1)%nat → has_learned [a] d d' n) as Hall.
  { intros n Hc Hle. split_and!; [done| | | |done|done].
    - intros m. destruct (decide (m = address_member a)) as [->|Hne]; [done|].
      intros k Hk. exists k. unfold position_of in *. by rewrite (proj1 (Ho _ Hne)).
    - intros m Hne. apply Ho. intros ->. by apply (Hne a); [left|].
    - intros a' ->%list_elem_of_singleton. by eapply learn_newest. }
  destruct (decide (r = Ok true)) as [->|Hr].
  - apply Hall; [|done]. rewrite Hn. unfold wrap64. by rewrite N.Div0.mod_mod.
  - assert (has_learned [a] d d' 0) by (apply Hall; [by rewrite Hn, N.add_0_r|lia]).
    by destruct r as [[|]|e].
Qed.

Lemma learn_one_count d n a : learn_one (d, n) a = ((learn_one (d, 0%nat) a).1, ((learn_one (d, 0%nat) a).2 + n)%nat).
Proof. unfold learn_one. cbn [fst snd]. by destruct (learn a d) as [d' [[|]|e]]. Qed.

Lemma foldl_learn_one_count l d n :
  foldl learn_one (d, n) l = ((foldl learn_one (d, 0%nat) l).1, ((foldl learn_one (d, 0%nat) l).2 + n)%nat).
Proof.
  revert d n. induction l as [|a l IH]; intros d n; [done|]. cbn [foldl].
  rewrite (learn_one_count d n a). destruct (learn_one (d, 0%nat) a) as [d' k]. cbn [fst snd].
  rewrite (IH d' (k + n)%nat), (IH d' k). cbn [fst snd]. f_equal. lia.
Qed.

Lemma has_learned_app l1 l2 d1 d2 d3 n1 n2 :
  has_learned l1 d1 d2 n1 → has_learned l2 d2 d3 n2 → has_learned (l1 ++ l2) d1 d3 (n2 + n1).
Proof.
  intros (_ & Hw1 & Ho1 & Hu1 & Hn1 & Hl1) (Ht & Hw2 & Ho2 & Hu2 & Hn2 & Hl2). split_and!; [done| | | | |].
  - intros m. by apply no_worse_trans with d2.
  - intros m Hm. rewrite Ho2, Ho1; [done| |]; intros a Ha; apply Hm; rewrite elem_of_app; auto.
  - intros a [Ha|Ha]%elem_of_app Hu; [|by apply Hu2].
    destruct (Hu1 a Ha Hu) as (n' & (n'' & ? & ?)%Hw2 & ?). exists n''. split; [done|lia].
  - rewrite Hn2. unfold wrap64 in *. rewrite N.Div0.add_mod, Hn1, <-N.Div0.add_mod. f_equal. lia.
  - rewrite length_app. lia.
Qed.

(** What is learned of whatever a peer sends. *)
Lemma learn_directory_spec l d :
  directory_true d → has_learned l d (learn_directory d l).1 (learn_directory d l).2.
Proof.
  unfold learn_directory. revert d. induction l as [|a l IH]; intros d Hd.
  - split_and!; [done| |done| |cbn; by rewrite N.add_0_r|done].
    + intros m n Hn. by exists n.
    + by intros a Ha%elem_of_nil.
  - pose proof (learn_one_spec a d Hd) as H1s. cbn [foldl].
    destruct (learn_one (d, 0%nat) a) as [d' k]. cbn [fst snd] in *.
    rewrite foldl_learn_one_count. cbn [fst snd].
    apply (has_learned_app [a]) with d'; [done|]. apply IH. by destruct H1s.
Qed.

Lemma elem_of_everything d a : directory_true d → a ∈ everything d ↔ signed_addresses d !! address_member a = Some a.
Proof.
  intros Hd. unfold everything. rewrite list_elem_of_fmap. split.
  - intros ([m a'] & -> & Hin%elem_of_map_entries). pose proof (Hd m) as Hm. rewrite Hin in Hm. by destruct Hm as [<- _].
  - intros Ha. exists (address_member a, a). split; [done|]. by apply elem_of_map_entries.
Qed.

(** Who asks a core node for the directory, and hears its answer, then
    knows for every member of the group a position at least as late as the core
    node's; nothing changes about anybody whom the core node's log does not
    have in the group, nor goes back about anybody; the directory stays true to
    what was signed; and the answer is how many statements changed where
    somebody is dialled. *)
Theorem asking_brings_up_to_date p raft sender write hand_on d :
  directory_true (heard_directory p) → directory_true d → log_seat p = Some raft →
  let s := state (applied (store p)) in
  let '(d', asked) := ask_directory (heard_of (accept_log p sender (Some AskDirectory) write hand_on)) d in
  directory_true d' ∧
  (∀ m, is_member s m = true → no_worse (heard_directory p) d' m) ∧
  (∀ m, is_member s m = false → signed_addresses d' !! m = signed_addresses d !! m) ∧
  (∀ m, no_worse d d' m) ∧
  ∃ n, asked = Ok n ∧ wrap64 (learned d') = wrap64 (learned d + N.of_nat n).
Proof.
  intros Hp Hd Hs s. unfold accept_log. rewrite Hs. cbn [answer_log heard_of ask_directory].
  pose proof (learn_directory_spec (serve_directory p) d Hd) as Hl.
  destruct (learn_directory d (serve_directory p)) as [d' n]. cbn [fst snd] in Hl.
  destruct Hl as (Ht & Hw & Ho & Hu & Hn & _).
  assert (∀ a, a ∈ serve_directory p ↔ is_member s (address_member a) = true ∧
    signed_addresses (heard_directory p) !! address_member a = Some a) as Hserve.
  { intros a. unfold serve_directory. by rewrite list_elem_of_filter, elem_of_everything. }
  split_and!; [done| | |done|by exists n].
  - intros m Hm k Hk. unfold position_of in Hk. pose proof (Hp m) as Hheld.
    destruct (signed_addresses (heard_directory p) !! m) as [a|] eqn:Ea; [|done]. injection Hk as <-.
    destruct Hheld as (<- & Ha & He & endpoint & Hto & _). apply Hu; [by apply Hserve|]. split_and!; [done|done|by exists endpoint].
  - intros m Hm. apply Ho. intros a [Ha _]%Hserve Hid. rewrite Hid in Ha. congruence.
Qed.

(** Whatever a peer sends as the directory, a statement that its member
    did not sign costs only itself: what is learned, and how much of it is
    news, is what the signed ones alone would have left. *)
Theorem forgeries_cost_themselves l d :
  learn_directory d l = learn_directory d (filter (λ a, verify_address a = Ok ()) l).
Proof.
  unfold learn_directory. generalize (d, 0%nat). clear d. induction l as [|a l IH]; intros s; [done|].
  rewrite filter_cons. cbn [foldl]. case_decide as Ha; [by apply IH|]. rewrite <-IH. f_equal.
  unfold learn_one, learn, address_of. destruct (verify_address a) as [[]|e]; [done|]. by destruct s.
Qed.
End directories.

(** ** A core node that is asked

    A Raft that only counts terms, over the configurations of
    [CoreGroupFixtures]; a core node that holds two statements, one of them
    that of somebody who is not a member; and who may ask it. *)

#[local] Existing Instance plain_openraft.
#[local] Existing Instance plain_config.
#[local] Existing Instance plain_config_laws.

(** A term, and the configuration acted on; who is behind is refused. *)
#[local] Instance plain_rpc : RaftRpc := {|
  Raft := N * RaftMembership;
  AppendEntriesRequest := N;
  VoteRequest := N;
  InstallSnapshotRequest := N;
  AppendEntriesAnswer := bool;
  VoteAnswer := bool;
  InstallSnapshotAnswer := N;
  append_entries term raft := if bool_decide (raft.1 ≤ term)%N then ((term, raft.2), Ok true) else (raft, Ok false);
  vote term raft := if bool_decide (raft.1 < term)%N then ((term, raft.2), Ok true) else (raft, Ok false);
  install_snapshot term raft := ((N.max raft.1 term, raft.2), Ok (N.max raft.1 term));
  effective raft := raft.2;
|}.

Definition PlainLogId : Type := @LogId test_crypto plain_openraft.
Definition PlainApplied : Type := @Applied test_crypto plain_openraft.
#[local] Instance PlainLogId_eq_dec : EqDecision PlainLogId.
Proof. solve_decision. Defined.
#[local] Instance PlainLogId_countable : Countable PlainLogId.
Proof.
  refine (inj_countable' (A := N * N) (λ i : PlainLogId, (leader_id i, log_index i))
    (λ x, @Build_LogId test_crypto plain_openraft x.1 x.2) _).
  by intros [].
Defined.
#[local] Instance PlainStored_eq_dec : EqDecision (@StoredMembership test_crypto plain_openraft).
Proof. solve_decision. Defined.
#[local] Instance PlainApplied_eq_dec : EqDecision PlainApplied.
Proof. solve_decision. Defined.
#[local] Instance PlainApplied_countable : Countable PlainApplied.
Proof.
  refine (inj_countable' (A := option PlainLogId * (option PlainLogId * (list (gset MemberId) * gmap MemberId NodeAddr)) * MembershipState * N)
    (λ a : PlainApplied,
      (last_applied a, (stored_at (membership a), stored_config (membership a)), state a, followed_upto a))
    (λ x, @Build_Applied test_crypto plain_openraft x.1.1.1
      (@Build_StoredMembership test_crypto plain_openraft x.1.1.2.1 x.1.1.2.2) x.1.2 x.2) _).
  by intros [? [] ? ?].
Defined.
#[local] Instance plain_postcard : Postcard := {|
  encode_applied (a : PlainApplied) := [Npos (encode a)];
  decode_applied bytes := match bytes with [Npos p] => decode (A := PlainApplied) p | _ => None end;
|}.

(** Of the core is 1; members are 1 and 2; 3 once was; the voters are
    [before]'s, 1 and 2. *)
Definition everyone_applied : MembershipState := {|
  group := Some (MkGroupId (id32 1));
  members := <[member 1 := record_of (profile 1) 0 1]> (<[member 2 := record_of (profile 2) 0 1]> ∅);
  core := <[member 1 := placed 1]> ∅;
  pending := ∅; changed_at := 0; settings := default_settings; protocol := 1;
|}.
Definition core_store : Store := {|
  disk := empty_disk;
  applied := {| last_applied := None; membership := no_stored_membership; state := everyone_applied; followed_upto := 0 |};
  snapshot_seq := 0; generation := 0; announced := everyone_applied;
  announced_raft := {| stored_at := None; stored_config := before |}; promotion_held := None;
|}.

(** ** Its Raft is asked *)

Definition raft_at : N * RaftMembership := (3%N, before).
Definition raft_protocol : RaftProtocol := {| seat := Some raft_at; state_machine := core_store; trusted := ∅ |}.

(** A voter's is appended, and 3's connection is closed. *)
Definition appends (s : Served) : bool :=
  match s with Answered (Some (7%N, _)) None (AppendedEntries (Ok true)) => true | _ => false end.
Definition closes (s : Served) : bool := match s with ClosedWith code => bool_decide (code = NOT_A_VOTER) | _ => false end.

Lemma raft_answers_voters_alone_witness :
  appends (accept raft_protocol raft_protocol (member 2) (Some (AppendEntries (7%N : AppendEntriesRequest))) true) = true ∧
  closes (accept raft_protocol raft_protocol (member 3) (Some (AppendEntries (7%N : AppendEntriesRequest))) true) = true ∧
  served_well raft_protocol (member 2)
    (accept raft_protocol raft_protocol (member 2) (Some (AppendEntries (7%N : AppendEntriesRequest))) true).
Proof.
  split; [vm_compute; reflexivity|]. split; [vm_compute; reflexivity|].
  apply raft_answers_voters_alone.
Defined.

(** ** It is asked about the log *)

Definition says (n position : N) : SignedAddress :=
  MkSignedAddress (member n) (placed n) position (member n, ADDRESS_DOMAIN ++ [position]).
(** 1 and 3 say where they are, and 3 says where 2 would be. *)
Definition forged : SignedAddress := MkSignedAddress (member 2) (placed 3) 9 (member 3, ADDRESS_DOMAIN ++ [9%N]).
Definition heard : Directory := (learn_directory default_directory [says 1 4; says 3 4; forged]).1.
Definition log_protocol : MemberlogProtocol := {|
  log_seat := Some raft_at; current_leader := Some (raw_of_member (member 1)); log := empty_log_store;
  store := core_store; heard_directory := heard |}.

Lemma heard_true : directory_true heard.
Proof. apply (learn_directory_spec [says 1 4; says 3 4; forged] default_directory). apply default_directory_true. Qed.

Definition nobody_to_ask : RawMemberId → NodeAddr → timed (result ProposeError N) := λ _ _, TooLate.
Definition learned_by_asking : Directory * result Failure nat :=
  ask_directory (heard_of (accept_log log_protocol (member 2) (Some AskDirectory) TooLate nobody_to_ask)) default_directory.

(** Of the three it hands out 1's. *)
Lemma asking_brings_up_to_date_witness :
  (let r := learned_by_asking in
   bool_decide (position_of r.1 <$> [member 1; member 2; member 3] = [Some 4%N; None; None]) = true) ∧
  no_worse heard learned_by_asking.1 (member 1).
Proof.
  split; [vm_compute; reflexivity|].
  pose proof (asking_brings_up_to_date log_protocol raft_at (member 2) TooLate nobody_to_ask default_directory
    heard_true default_directory_true eq_refl) as H.
  unfold learned_by_asking. destruct (ask_directory _ _) as [d asked]. destruct H as (_ & H & _). apply H. reflexivity.
Defined.

Lemma forgeries_cost_themselves_witness :
  bool_decide (forged ∈ [says 1 4; forged; says 3 4]) = true ∧
  learn_directory default_directory [says 1 4; forged; says 3 4] =
    learn_directory default_directory (filter (λ a, verify_address a = Ok ()) [says 1 4; forged; says 3 4]).
Proof. split; [vm_compute; reflexivity|]. apply forgeries_cost_themselves. Defined.

(** 2, no core member, proposes to a node that hands it on to 1. *)
Definition joins : SignedEvent := signed_by 2 0 (MemberAdded (profile 4)).
Definition asked_first : N * Write := (7%N, ForwardToLeader (Some (raw_of_member (member 1))) (Some (placed 1))).

Lemma proposal_goes_one_hop_witness :
  is_core everyone_applied (member 1) = true ∧
  (proposable joins ∧
   (InTime asked_first.2 = InTime (Wrote 7 (Ok ())) ∧ is_Some (log_seat log_protocol) ∨
    InTime (Wrote 7 (Ok ())) = InTime (Wrote 7 (Ok ())) ∧ is_Some (log_seat log_protocol) ∧
    is_core (state (applied (store log_protocol))) (member 2) = false)).
Proof.
  split; [reflexivity|].
  apply (proposal_goes_one_hop log_protocol log_protocol (member 1) (member 2) joins (InTime asked_first.2)
    (InTime (Wrote 7 (Ok ()))) nobody_to_ask 7); vm_compute; reflexivity.
Defined.

(** ** A connection is kept *)

Lemma no_closed_link_is_handed_out_witness :
  let r := get_or_connect ∅ (member 1) "a" (Ok 3%N) id new_links in
  r.2 = Ok 3%N ∧ r.1 !! (member 1, "a") = Some 3%N.
Proof.
  split; [reflexivity|].
  exact (proj1 (proj1 (no_closed_link_is_handed_out ∅ (member 1) "a" (Ok 3%N) new_links _ (Ok 3%N) eq_refl))).
Defined.
