(* ===== verification/Proposing.v ===== *)
(** * Proposing an event: signing it, having it committed, hearing of it

    The proposing half of [crates/distlib-consensus/src/node.rs]. What Raft, a
    peer or the clock does is an argument: an attempt's outcomes, and the
    memberships this node comes to enforce while it waits. *)

From S2P Require Import Prelude Ids GroupSettings Events Membership MembershipSpec MembershipInv Fixtures MembershipProps RaftLog RaftState Follower CoreGroup CoreGroupProps CoreGroupFixtures Heartbeats HeartbeatFixtures Directory Hooks Blobs Links RaftNetwork Memberlog MemberlogProps.

Definition PROPOSE_ATTEMPTS : nat := 3.
(** In milliseconds. *)
Definition ELECTION_TIMEOUT_MAX : N := 2000.
(** In nanoseconds. *)
Definition LEADER_CHANGE_WAIT : N := (ELECTION_TIMEOUT_MAX + 1000) * 1000000.
Definition LEADERSHIP_TIMEOUT : N := 30 * 1000000000.
Definition ANNOUNCE_RETRY : N := 5 * 1000000000.

(** What [raft_config] sets of openraft's [Config]. *)
Record Config : Type := MkConfig {
  heartbeat_interval : N;
  election_timeout_min : N;
  election_timeout_max : N;
  max_in_snapshot_log_to_keep : N;
}.
Definition raft_config : Config := MkConfig 250 1000 ELECTION_TIMEOUT_MAX (2 ^ 64 - 1).

(** [sent_again_when_stale]. *)
Definition sent_again_when_stale (event : MembershipEvent) : bool :=
  match event with CoreGroupChanged _ | ProtocolSupported _ _ => false | _ => true end.

Section proposing.
Context `{RaftConfig} `{!Postcard} `{!HeartbeatCodec} `{Lookup}.

(** [NodeError]. *)
Inductive NodeError : Type :=
| DatabaseFailed (path : string)
| RaftFailed (why : string)
| EventRefused (error : ConsensusError)
| ForwardFailed (leader : RawMemberId) (source : ProposeError)
| NoLeader
| NotCore
| EndpointClosed
| BehindTheGroup (changed_at : N)
| NotYetApplied (index : N).

(** [?] of a [ConsensusError]. *)
Definition event_failed {A} (r : result ConsensusError A) : result NodeError A :=
  match r with Ok a => Ok a | Err e => Err (EventRefused e) end.

(** ** Committing *)

(** What an attempt meets: what Raft makes of the write, what a leader it names
    answers, and whether waiting for one to emerge fails. *)
Record Attempt : Type := MkAttempt {
  client_write : Write;
  leader_answers : RawMemberId → NodeAddr → result ProposeError N;
  no_leader_emerged : option string;
}.

(** The loop of [commit_as_core], with [attempts] left. *)
Fixpoint commit_attempts (attempts : nat) (k : nat) (world : nat → Attempt) (unreached : option (RawMemberId * ProposeError))
  : result NodeError N :=
  match attempts with
  | 0 => match unreached with
         | Some (leader, source) => Err (ForwardFailed leader source)
         | None => Err NoLeader
         end
  | S attempts =>
      let now := world k in
      match client_write now with
      | Wrote index (Ok _) => Ok index
      | Wrote _ (Err refused) => Err (EventRefused refused)
      | WriteFailed why => Err (RaftFailed why)
      | ForwardToLeader (Some leader) (Some addr) =>
          match leader_answers now leader addr with
          | Ok index => Ok index
          | Err (ProposeRejected error) => Err (EventRefused error)
          | Err error => commit_attempts attempts (S k) world (Some (leader, error))
          end
      | ForwardToLeader _ _ =>
          match no_leader_emerged now with
          | Some why => Err (RaftFailed why)
          | None => commit_attempts attempts (S k) world unreached
          end
      end
  end.

Definition commit_as_core (world : nat → Attempt) : result NodeError N :=
  commit_attempts PROPOSE_ATTEMPTS 0 world None.

(** The loop of [commit_as_follower]. *)
Fixpoint commit_through (candidates : list (MemberId * NodeAddr)) (answers : MemberId → NodeAddr → result ProposeError N)
    (unreached : option (MemberId * ProposeError)) : result NodeError N :=
  match candidates with
  | [] => match unreached with
          | Some (member, source) => Err (ForwardFailed (raw_of_member member) source)
          | None => Err NoLeader
          end
  | (member, addr) :: candidates =>
      match answers member addr with
      | Ok index => Ok index
      | Err (ProposeRejected error) => Err (EventRefused error)
      | Err error => commit_through candidates answers (Some (member, error))
      end
  end.

Definition commit_as_follower (sources : Sources) (me : MemberId) (answers : MemberId → NodeAddr → result ProposeError N)
  : result NodeError N :=
  commit_through (candidates sources me) answers None.

(** What the seat has a proposal go through, and what is met there; an index a
    peer answers is also what the follow loop is told. *)
Inductive Way : Type :=
| ThroughRaft (world : SignedEvent → nat → Attempt)
| ThroughPeers (sources : Sources) (me : MemberId) (answers : SignedEvent → MemberId → NodeAddr → result ProposeError N).

Definition commit (way : Way) (signed : SignedEvent) : result NodeError (N * option Hint) :=
  match way with
  | ThroughRaft world => index ←? commit_as_core (world signed) ;; Ok (index, None)
  | ThroughPeers sources me answers =>
      index ←? commit_as_follower sources me (answers signed) ;; Ok (index, Some (Reaches index))
  end.

(** ** Proposing *)

(** [propose_once]. *)
Definition propose_once (ev : MembershipEvent) (secret_key : SecretKey) (now : Timestamp) (seen : MembershipState) (way : Way)
  : result NodeError (N * option Hint) :=
  event_failed (within_limits ev) ;?
  signed ←? event_failed (sign secret_key ev now (changed_at seen)) ;;
  commit way signed.

(** [catch_up_to]: the membership enforced, and those that follow it before the
    time is up or the sender is gone; what is left is what follows then. *)
Fixpoint catch_up_to (at_ : N) (seen : MembershipState) (later : list MembershipState)
  : result NodeError (MembershipState * list MembershipState) :=
  if bool_decide (changed_at seen < at_)%N then
    match later with
    | [] => Err (BehindTheGroup at_)
    | seen :: later => catch_up_to at_ seen later
    end
  else Ok (seen, later).

(** [propose_and_retry], of an event proposed at [now] by one way and, if
    again, at [again] by the other. *)
Definition propose_and_retry (ev : MembershipEvent) (secret_key : SecretKey) (now again : Timestamp)
    (seen : MembershipState) (later : list MembershipState) (way way_again : Way)
  : result NodeError ((N * option Hint) * (MembershipState * list MembershipState)) :=
  match propose_once ev secret_key now seen way with
  | Err (EventRefused (StaleProposal seen_at current)) =>
      if sent_again_when_stale ev then
        caught ←? catch_up_to current seen later ;;
        committed ←? propose_once ev secret_key again caught.1 way_again ;;
        Ok (committed, caught)
      else Err (EventRefused (StaleProposal seen_at current))
  | Ok committed => Ok (committed, (seen, later))
  | Err other => Err other
  end.

(** [propose]: the index, what the follow loop was told, and the membership
    enforced when it is answered. *)
Definition propose_event (ev : MembershipEvent) (secret_key : SecretKey) (now again : Timestamp)
    (seen : MembershipState) (later : list MembershipState) (way way_again : Way)
  : result NodeError (N * option Hint * MembershipState) :=
  committed ←? propose_and_retry ev secret_key now again seen later way way_again ;;
  match catch_up_to committed.1.1 committed.2.1 committed.2.2 with
  | Ok (enforced, _) => Ok (committed.1, enforced)
  | Err _ => Err (NotYetApplied committed.1.1)
  end.

(** The voters [init_group] has Raft start with: of a [BTreeMap], the last of
    each id. *)
Definition founding_voters (founders : list (MemberProfile * NodeAddr)) : gmap RawMemberId NodeAddr :=
  collect_map ((λ f, (raw_of_member (profile_id f.1), f.2)) <$> founders).

(** [init_group], of the Raft in the seat: [initialize] is openraft's,
    [elected] what waiting to lead comes to, [propose] is [propose_event]. *)
Definition init_group {R} (founders : list (MemberProfile * NodeAddr)) (settings : GroupSettings) (now : Timestamp)
    (initialize : gmap RawMemberId NodeAddr → R → R * result string unit) (elected : result string unit)
    (propose : MembershipEvent → result NodeError N) (seat : option R) : option R * result NodeError unit :=
  match seat with
  | None => (None, Err NotCore)
  | Some raft =>
      match initialize (founding_voters founders) raft with
      | (raft, Err why) => (Some raft, Err (RaftFailed why))
      | (raft, Ok _) =>
          (Some raft,
           match elected with
           | Err why => Err (RaftFailed why)
           | Ok _ => ev ←? event_failed (found_event founders settings now) ;; propose ev ;? Ok ()
           end)
      end
  end.

(** ** Saying which protocols this build speaks *)

(** Whether the log says less of [me] than [max]. *)
Definition says_less (me : MemberId) (max : N) (s : MembershipState) : bool :=
  bool_decide (protocol s ≤ max)%N &&
  match members s !! me with Some record => bool_decide (protocol_max record < max)%N | None => false end.

(** What the loop does next. *)
Inductive AnnounceNext : Type := LookAgain | LookAgainAfter (nanos : N) | UntilItChanges.

(** A turn of [announce_protocol_support]: what it does after looking at
    [seen], and proposing if the log says less. *)
Definition announce_turn (me : MemberId) (max : N) (seen : MembershipState) (propose : MembershipEvent → result NodeError N)
  : option MembershipEvent * AnnounceNext :=
  if says_less me max seen then
    let ev := ProtocolSupported me max in
    (Some ev,
     match propose ev with
     | Ok _ => LookAgain
     | Err (EventRefused _) => UntilItChanges
     | Err _ => LookAgainAfter ANNOUNCE_RETRY
     end)
  else (None, UntilItChanges).
End proposing.

(** ** What a proposal comes to

    An index answered is one the group wrote and this node has applied; an
    event is signed anew only against a membership this node has reached; and
    an answer that is lost has the same event proposed to the membership it
    made itself. *)

Section props.
Context `{RaftConfig} `{!Postcard} `{!HeartbeatCodec} `{Lookup}.

Lemma catch_up_to_spec at_ seen later caught rest :
  catch_up_to at_ seen later = Ok (caught, rest) →
  (at_ ≤ changed_at caught)%N ∧ ∃ before, seen :: later = before ++ caught :: rest.
Proof.
  revert seen. induction later as [|s later IH]; intros seen; simpl.
  - case_bool_decide; [done|]. intros [= -> <-]. split; [lia|]. by exists [].
  - case_bool_decide; [|intros [= <- <-]; split; [lia|by exists []]].
    intros (Hle & before & ->)%IH. split; [done|]. by exists (seen :: before).
Qed.

Lemma catch_up_to_err at_ seen later e : catch_up_to at_ seen later = Err e → e = BehindTheGroup at_ ∧ Forall (λ s, (changed_at s < at_)%N) (seen :: later).
Proof.
  revert seen. induction later as [|s later IH]; intros seen; simpl; case_bool_decide; try done.
  - intros [= <-]. split; [done|]. by repeat constructor.
  - intros (-> & Hl)%IH. split; [done|]. by constructor.
Qed.

(** The signing of an event against a membership. *)
Definition signs (ev : MembershipEvent) (secret_key : SecretKey) (now : Timestamp) (s : MembershipState) (signed : SignedEvent) : Prop :=
  within_limits ev = Ok () ∧ sign secret_key ev now (changed_at s) = Ok signed.

(** That Raft, or the leader it named, or a peer wrote it and it was accepted. *)
Definition written (way : Way) (signed : SignedEvent) (index : N) : Prop :=
  match way with
  | ThroughRaft world =>
      ∃ k, (k < PROPOSE_ATTEMPTS)%nat ∧
        (client_write (world signed k) = Wrote index (Ok ()) ∨
         ∃ leader addr, client_write (world signed k) = ForwardToLeader (Some leader) (Some addr) ∧
           leader_answers (world signed k) leader addr = Ok index)
  | ThroughPeers sources me answers =>
      ∃ member addr, (member, addr) ∈ sources_core sources ∧ member ≠ me ∧ answers signed member addr = Ok index
  end.

Lemma commit_attempts_spec attempts k world unreached :
  match commit_attempts attempts k world unreached with
  | Ok index => ∃ j, (k ≤ j < k + attempts)%nat ∧
      (client_write (world j) = Wrote index (Ok ()) ∨
       ∃ leader addr, client_write (world j) = ForwardToLeader (Some leader) (Some addr) ∧
         leader_answers (world j) leader addr = Ok index)
  | Err (NotYetApplied _) => False
  | Err _ => True
  end.
Proof.
  revert k unreached. induction attempts as [|attempts IH]; intros k unreached; [by destruct unreached as [[]|]|].
  cbn [commit_attempts].
  assert (∀ u, match commit_attempts attempts (S k) world u with
    | Ok index => ∃ j, (k ≤ j < k + S attempts)%nat ∧
      (client_write (world j) = Wrote index (Ok ()) ∨
       ∃ leader addr, client_write (world j) = ForwardToLeader (Some leader) (Some addr) ∧
         leader_answers (world j) leader addr = Ok index)
    | Err (NotYetApplied _) => False | Err _ => True end) as IH'.
  { intros u. specialize (IH (S k) u). destruct (commit_attempts _ _ _ _) as [idx|]; [|done].
    destruct IH as (j & Hj & ?). exists j. split; [lia|done]. }
  destruct (client_write (world k)) as [i [[]|e]|[leader|] [addr|]|why] eqn:Ew;
    try (destruct (no_leader_emerged (world k)); [done|apply IH']); try done.
  - exists k. split; [lia|by left].
  - destruct (leader_answers (world k) leader addr) as [i|[]] eqn:El; try apply IH'; [|done].
    exists k. split; [lia|]. right. by exists leader, addr.
Qed.

Lemma commit_through_spec candidates answers unreached :
  match commit_through candidates answers unreached with
  | Ok index => ∃ member addr, (member, addr) ∈ candidates ∧ answers member addr = Ok index
  | Err (NotYetApplied _) => False
  | Err _ => True
  end.
Proof.
  revert unreached. induction candidates as [|[member addr] candidates IH]; intros unreached; [by destruct unreached as [[]|]|].
  cbn [commit_through].
  assert (∀ u, match commit_through candidates answers u with
    | Ok index => ∃ m a, (m, a) ∈ (member, addr) :: candidates ∧ answers m a = Ok index
    | Err (NotYetApplied _) => False | Err _ => True end) as IH'.
  { intros u. specialize (IH u). destruct (commit_through _ _ _) as [idx|]; [|done].
    destruct IH as (m & a & ? & ?). exists m, a. split; [by right|done]. }
  destruct (answers member addr) as [i|[]] eqn:Ea; try apply IH'; [|done]. exists member, addr. split; [by left|done].
Qed.

Lemma elem_of_candidates s me c : c ∈ candidates s me → c ∈ sources_core s ∧ c.1 ≠ me.
Proof. unfold candidates. rewrite elem_of_app, !list_elem_of_filter. tauto. Qed.

Lemma commit_spec way signed :
  match commit way signed with
  | Ok (index, hint) => written way signed index ∧ (hint = None ∨ hint = Some (Reaches index))
  | Err (NotYetApplied _) => False
  | Err _ => True
  end.
Proof.
  destruct way as [world|sources me answers]; simpl.
  - pose proof (commit_attempts_spec PROPOSE_ATTEMPTS 0 (world signed) None) as Hc. fold (commit_as_core (world signed)) in Hc.
    destruct (commit_as_core (world signed)) as [idx|]; [|done]. simpl. split; [|by left]. destruct Hc as (j & ? & ?). exists j. split; [lia|done].
  - pose proof (commit_through_spec (candidates sources me) (answers signed) None) as Hc.
    fold (commit_as_follower sources me (answers signed)) in Hc.
    destruct (commit_as_follower sources me (answers signed)) as [idx|]; [|done]. simpl. split; [|by right].
    destruct Hc as (m & a & [? ?]%elem_of_candidates & ?). by exists m, a.
Qed.

(** Limits and postcard never answer that a proposal is stale. *)
Lemma signing_never_stale ev secret_key now at_ seen current :
  within_limits ev ≠ Err (StaleProposal seen current) ∧ sign secret_key ev now at_ ≠ Err (StaleProposal seen current).
Proof.
  split.
  - assert (∀ l, try_for_each (λ f : MemberProfile * NodeAddr, within "display_name" (profile_name f.1) MAX_DISPLAY_NAME) l
      ≠ Err (StaleProposal seen current)) as Hl.
    { intros l. induction l as [|f l IH]; [done|]. simpl. unfold within. by case_bool_decide. }
    destruct ev; simpl; try done; unfold within; by case_bool_decide.
  - unfold sign, signing_payload. by destruct (postcard_event _ _ _ _).
Qed.

Lemma propose_once_spec ev secret_key now seen way :
  match propose_once ev secret_key now seen way with
  | Ok (index, hint) => ∃ signed, signs ev secret_key now seen signed ∧ written way signed index ∧
      (hint = None ∨ hint = Some (Reaches index))
  | Err (EventRefused (StaleProposal seen_at current)) => ∃ signed, signs ev secret_key now seen signed ∧
      commit way signed = Err (EventRefused (StaleProposal seen_at current))
  | Err (NotYetApplied _) => False
  | Err _ => True
  end.
Proof.
  unfold propose_once. destruct (within_limits ev) as [[]|e] eqn:El; simpl.
  2: { destruct e; try done. destruct (signing_never_stale ev secret_key now (changed_at seen) seen0 current). tauto. }
  destruct (sign secret_key ev now (changed_at seen)) as [signed|e] eqn:Es; simpl.
  2: { destruct e; try done. destruct (signing_never_stale ev secret_key now (changed_at seen) seen0 current). tauto. }
  pose proof (commit_spec way signed) as Hc. destruct (commit way signed) as [[index hint]|e] eqn:Ec.
  - exists signed. by destruct Hc.
  - destruct e as [| |e| | | | | |]; try done. destruct e; try done. by exists signed.
Qed.

(** What was signed, at first or again. *)
Definition signed_for (ev : MembershipEvent) (secret_key : SecretKey) (now again : Timestamp) (seen : MembershipState)
    (later : list MembershipState) (way : Way) (retried : bool) (signed : SignedEvent) : Prop :=
  if retried then
    sent_again_when_stale ev = true ∧
    ∃ first seen_at current view, signs ev secret_key now seen first ∧
      commit way first = Err (EventRefused (StaleProposal seen_at current)) ∧
      view ∈ seen :: later ∧ (current ≤ changed_at view)%N ∧ signs ev secret_key again view signed
  else signs ev secret_key now seen signed.

Lemma propose_and_retry_spec ev secret_key now again seen later way way' :
  match propose_and_retry ev secret_key now again seen later way way' with
  | Ok (index, hint, (view, rest)) =>
      (∃ before, seen :: later = before ++ view :: rest) ∧ (hint = None ∨ hint = Some (Reaches index)) ∧
      ∃ retried signed, signed_for ev secret_key now again seen later way retried signed ∧
        written (if retried then way' else way) signed index
  | Err (NotYetApplied _) => False
  | Err _ => True
  end.
Proof.
  unfold propose_and_retry. pose proof (propose_once_spec ev secret_key now seen way) as Hone.
  destruct (propose_once ev secret_key now seen way) as [[i h]|e].
  { destruct Hone as (signed & Hs & Hw & Hh). split_and!; [by exists []|done|]. by exists false, signed. }
  destruct e as [| |e| | | | | |]; try done. destruct e; try done. destruct Hone as (first & Hf & Hc).
  destruct (sent_again_when_stale ev) eqn:Es; [|done]. simpl.
  destruct (catch_up_to current seen later) as [[caught rest']|e] eqn:Eu; simpl; [|by destruct (catch_up_to_err _ _ _ _ Eu) as [-> _]].
  apply catch_up_to_spec in Eu as (Hle & before & Hb).
  pose proof (propose_once_spec ev secret_key again caught way') as Htwo.
  destruct (propose_once ev secret_key again caught way') as [[i h]|e]; simpl; [|by destruct e as [| |e| | | | | |]].
  destruct Htwo as (signed & Hs & Hw & Hh). split_and!; [by exists before|done|]. exists true, signed. split; [|done].
  split; [done|]. exists first, seen0, current, caught. split_and!; try done. rewrite Hb. set_solver.
Qed.

(** C14: What [propose] answers with an index was signed by this node's key
    within the limits, and Raft, the leader it named or a core node wrote it at
    that index and accepted it; by then the membership this node enforces has
    reached it, and its follow loop was told of that index or nothing. It was
    signed against the membership the node saw or, if that was refused as
    stale, once more, against one the node had come to and as new as the
    refusal said; then it is neither a core map nor a statement of protocols.
    Only what was written is called not yet applied. *)
Theorem proposed_is_applied_here ev secret_key now again seen later way way' :
  match propose_event ev secret_key now again seen later way way' with
  | Ok (index, hint, enforced) =>
      (index ≤ changed_at enforced)%N ∧ enforced ∈ seen :: later ∧ (hint = None ∨ hint = Some (Reaches index)) ∧
      ∃ retried signed, signed_for ev secret_key now again seen later way retried signed ∧
        written (if retried then way' else way) signed index
  | Err (NotYetApplied index) =>
      ∃ retried signed, signed_for ev secret_key now again seen later way retried signed ∧
        written (if retried then way' else way) signed index
  | Err _ => True
  end.
Proof.
  unfold propose_event. pose proof (propose_and_retry_spec ev secret_key now again seen later way way') as Hp.
  destruct (propose_and_retry ev secret_key now again seen later way way') as [[[index hint] [view rest]]|e]; simpl; [|by destruct e].
  destruct Hp as ((before & Hb) & Hh & Hs). destruct (catch_up_to index view rest) as [[enforced r]|] eqn:Eu; [|done].
  apply catch_up_to_spec in Eu as (Hle & b & Hb'). split_and!; [done| |done|done]. rewrite Hb, Hb'. set_solver.
Qed.

(** ** An answer that is lost *)

(** What a leader whose log has come to [s] answers of an entry it writes at
    [index]. *)
Definition verdict_at (index : N) (s : MembershipState) (signed : SignedEvent) : result ProposeError N :=
  match (apply index signed s).2 with Ok _ => Ok index | Err e => Err (ProposeRejected e) end.

(** A voter that hands its proposal to a leader: the first answer is [lost],
    though the leader wrote it; the next time the leader is at [s']. *)
Definition first_answer_lost (leader : RawMemberId) (addr : NodeAddr) (lost : ProposeError) (j : N) (s' : MembershipState) : Way :=
  ThroughRaft (λ signed k, MkAttempt (ForwardToLeader (Some leader) (Some addr))
    (λ _ _, if decide (k = 0%nat) then Err lost else verdict_at j s' signed) None).

Lemma apply_changed_at i signed s s' : apply i signed s = (s', Ok ()) → changed_at s' = i ∧ signed_changed_at signed = changed_at s.
Proof.
  intros Ha. apply apply_spec in Ha as (_ & Hseen & s1 & _ & ->). split; done.
Qed.

Lemma apply_stale i signed s :
  verify signed = Ok () → signed_changed_at signed ≠ changed_at s →
  (apply i signed s).2 = Err (StaleProposal (signed_changed_at signed) (changed_at s)).
Proof.
  intros Hv Hne. unfold apply, event. unfold fbind at 1, fcheck at 1. rewrite Hv. simpl.
  unfold fbind at 1, fget at 1. simpl. by rewrite bool_decide_true.
Qed.

(** When a voter's proposal is written by the leader and accepted, but the
    answer is lost on the way, the voter hands the very same entry over again,
    it is refused as stale because of itself, and [propose], taking that for
    somebody else's change, signs the event anew against the membership that
    already has it: the caller is told what becomes of the second. *)
Theorem lost_answer_is_proposed_again ev secret_key now again s s' i j first leader addr lost way' rest :
  sent_again_when_stale ev = true → signs ev secret_key now s first →
  apply i first s = (s', Ok ()) → (changed_at s < i)%N → (∀ e, lost ≠ ProposeRejected e) →
  propose_and_retry ev secret_key now again s (s' :: rest) (first_answer_lost leader addr lost j s') way' =
    (committed ←? propose_once ev secret_key again s' way' ;; Ok (committed, (s', rest))).
Proof.
  intros Hev (Hl & Hsign) Ha Hlt Hlost. pose proof (apply_changed_at _ _ _ _ Ha) as [Hi Hseen].
  assert (verify first = Ok ()) as Hv by (by apply apply_spec in Ha as (? & _)).
  unfold propose_and_retry. assert (propose_once ev secret_key now s (first_answer_lost leader addr lost j s') =
    Err (EventRefused (StaleProposal (signed_changed_at first) (changed_at s')))) as ->.
  { unfold propose_once. rewrite Hl, Hsign. simpl. unfold commit_as_core. cbn [commit_attempts PROPOSE_ATTEMPTS client_write leader_answers].
    rewrite decide_True by done. unfold verdict_at. rewrite apply_stale by (done || (rewrite Hseen; lia)).
    destruct lost as [m w|w|e]; [done|done|by destruct (Hlost e)]. }
  rewrite Hev. destruct rest; cbn [catch_up_to]; rewrite bool_decide_true by lia; rewrite bool_decide_false by lia; done.
Qed.

(** ** Founding *)

Context `{!RaftConfigLaws}.

Lemma founding_voters_core founders m :
  founding_voters founders !! raw_of_member m = (collect_map ((λ f, (profile_id f.1, f.2)) <$> founders) : gmap MemberId NodeAddr) !! m.
Proof.
  unfold founding_voters. induction founders as [|f founders IH] using rev_ind; [done|].
  rewrite !fmap_app. cbn [fmap list_fmap]. rewrite !collect_map_snoc. destruct (decide (profile_id f.1 = m)) as [<-|Hne].
  - by rewrite !lookup_insert_eq.
  - rewrite !lookup_insert_ne; [done|done|]. intros Heq. apply Hne.
    assert (Some (profile_id f.1) = Some m) as [= ?]; [|done]. by rewrite <-!member_of_raw_of, Heq.
Qed.

(** Founding proposes one event, and the voters Raft was started with are
    exactly the core group, each at its address, of the membership any log
    comes to that accepts that event as its first. *)
Theorem founders_are_the_voters {R} founders settings now initialize elected propose (raft raft' : R) :
  init_group founders settings now initialize elected propose (Some raft) = (Some raft', Ok ()) →
  ∃ g index, initialize (founding_voters founders) raft = (raft', Ok ()) ∧
    propose (GroupFounded g founders settings) = Ok index ∧
    ∀ i signed s, signed_event signed = GroupFounded g founders settings → apply i signed new_state = (s, Ok ()) →
      group s = Some g ∧ ∀ m, core s !! m = founding_voters founders !! raw_of_member m.
Proof.
  unfold init_group. destruct (initialize (founding_voters founders) raft) as [r [[]|why]] eqn:Ei; [|done].
  intros [= -> Hr]. destruct elected as [[]|why]; [|done]. unfold found_event in Hr.
  destruct (checked_ids founders) as [ids|]; [|done]. simpl in Hr. destruct (check_settings settings) as [[]|]; [|done]. simpl in Hr.
  match type of Hr with context [GroupFounded ?g _ _] => exists g end.
  destruct (propose _) as [index|] eqn:Ep; [|done]. exists index. split_and!; [done|done|].
  intros i signed s Hsig Ha. apply apply_spec in Ha as (_ & _ & s1 & Hstep & ->). rewrite Hsig in Hstep.
  inversion Hstep; subst; try done. split; [done|]. intros m. by rewrite founding_voters_core.
Qed.

(** Founding has Raft started before it looks at what it founds: with
    founders or settings that no log accepts it answers what is wrong with them,
    but from then on no founding of this node's, however right, can succeed. *)
Theorem bad_founding_blocks_founding {R} founders settings now initialize elected propose (raft raft' : R) e
    (Honce : ∀ V r r', initialize V r = (r', Ok ()) → ∀ V', ∃ why, initialize V' r' = (r', Err why))
    (Hbad : found_event founders settings now = Err e)
    (Hinit : initialize (founding_voters founders) raft = (raft', Ok ()))
    (Hled : elected = Ok ()) :
  init_group founders settings now initialize elected propose (Some raft) = (Some raft', Err (EventRefused e)) ∧
  ∀ founders' settings' now' elected' propose', ∃ why,
    init_group founders' settings' now' initialize elected' propose' (Some raft') = (Some raft', Err (RaftFailed why)).
Proof.
  split.
  - unfold init_group. by rewrite Hinit, Hled, Hbad.
  - intros founders' settings' now' elected' propose'. destruct (Honce _ _ _ Hinit (founding_voters founders')) as [why Hw].
    exists why. unfold init_group. by rewrite Hw.
Qed.
End props.

(** ** Concrete runs *)

#[local] Existing Instance plain_openraft.
#[local] Existing Instance plain_config.
#[local] Existing Instance plain_config_laws.

(** 1, of three, proposes to expel 2, which the leader 3 writes at 2; the
    answer is lost, and the next entry would be at 4. *)
Definition three_of_us : MembershipState := fold_log (base_log [1; 2; 3]%N).
Definition key1 : @SecretKey test_crypto := 1%N.
Definition expulsion : MembershipEvent := MemberExpelled (member 2) "spam".
Definition first_expulsion : SignedEvent := signed_by 1 1 expulsion.
Definition with_expulsion : MembershipState := (apply 2 first_expulsion three_of_us).1.
Definition told_first : ProposeError := ProposeUnreachable (member 3) "no answer in time".
Definition directly : Way :=
  ThroughRaft (λ signed k, MkAttempt (Wrote 5 (apply 5 signed with_expulsion).2) (λ _ _, Err told_first) None).
Definition lost_run : result NodeError ((N * option Hint) * (MembershipState * list MembershipState)) :=
  propose_and_retry expulsion key1 (MkTimestamp 1) (MkTimestamp 2) three_of_us [with_expulsion]
    (first_answer_lost (raw_of_member (member 3)) (placed 3) told_first 4 with_expulsion) directly.

(** The proposal waits for approvals, and its proposer is told that it was
    refused. *)
Lemma lost_answer_is_proposed_again_witness :
  (match lost_run with Err (EventRefused (AlreadyPending 2)) => true | _ => false end) = true ∧
  bool_decide (is_Some (pending with_expulsion !! 2%N)) = true ∧
  lost_run = (committed ←? propose_once expulsion key1 (MkTimestamp 2) with_expulsion directly ;; Ok (committed, (with_expulsion, []))).
Proof.
  split; [vm_compute; reflexivity|]. split; [vm_compute; reflexivity|].
  apply (lost_answer_is_proposed_again expulsion key1 (MkTimestamp 1) (MkTimestamp 2) three_of_us with_expulsion 2 4
    first_expulsion (raw_of_member (member 3)) (placed 3) told_first directly []).
  - reflexivity.
  - split; reflexivity.
  - apply injective_projections; [reflexivity|]. vm_compute. reflexivity.
  - reflexivity.
  - intros e. discriminate.
Defined.

(** A Raft that is started once. *)
Definition initialize_once {V : Type} (voters : V) (started : bool) : bool * result string unit :=
  if started then (true, Err "not allowed") else (true, Ok ()).

Definition two_founders : list (MemberProfile * NodeAddr) := [founder 1; founder 2].
Lemma two_founders_found :
  init_group two_founders default_settings (MkTimestamp 5) initialize_once (Ok ()) (λ ev, Ok 1%N) (Some false) = (Some true, Ok ()).
Proof.
  unfold init_group, initialize_once. assert (is_ok (found_event two_founders default_settings (MkTimestamp 5)) = true) as Hok
    by (vm_compute; reflexivity).
  by destruct (found_event two_founders default_settings (MkTimestamp 5)).
Qed.

Lemma founders_are_the_voters_witness :
  is_ok (found_event two_founders default_settings (MkTimestamp 5)) = true ∧
  ∃ g, ∀ i signed s, signed_event signed = GroupFounded g two_founders default_settings → apply i signed new_state = (s, Ok ()) →
    group s = Some g ∧ ∀ m, core s !! m = founding_voters two_founders !! raw_of_member m.
Proof.
  split; [vm_compute; reflexivity|].
  destruct (founders_are_the_voters two_founders default_settings (MkTimestamp 5) initialize_once (Ok ())
    (λ ev, Ok 1%N) false true two_founders_found) as (g & index & _ & _ & H).
  exists g. exact H.
Defined.

(** A founder is listed twice. *)
Definition one_twice : list (MemberProfile * NodeAddr) := [founder 1; founder 1].
Lemma bad_founding_blocks_founding_witness :
  found_event one_twice default_settings (MkTimestamp 5) = Err (DuplicateFounder (member 1)) ∧
  ∃ why, init_group two_founders default_settings (MkTimestamp 6) initialize_once (Ok ()) (λ ev, Ok 1%N) (Some true) =
    (Some true, Err (RaftFailed why)).
Proof.
  split; [vm_compute; reflexivity|].
  apply (bad_founding_blocks_founding one_twice default_settings (MkTimestamp 5) initialize_once (Ok ())
    (λ ev, Ok 1%N) false true (DuplicateFounder (member 1))).
  - intros V r r' Hr V'. exists "not allowed". destruct r; [discriminate|]. injection Hr as <-. reflexivity.
  - vm_compute. reflexivity.
  - reflexivity.
  - reflexivity.
Defined.
