(* ===== verification/Roles.v ===== *)
(** * Which role a node has, and how it changes

    The role of a node in [crates/distlib-consensus/src/node.rs]: a voter has a
    Raft in its seat and reconciles the core group; another follows the log.
    [role_move] is what the task that runs [serve_role] does between two waits,
    [role_turn] all it does when it is woken; the other tasks are the other
    steps of [role_step]. A task that is aborted stops at its next wait, and
    what it gave to the blocking pool runs on: what a stopped follow loop still
    does is in [role_lingering]. Making a [Raft] and what a voter answers are
    arguments. *)

From S2P Require Import Prelude Ids GroupSettings Events Membership RaftLog RaftState Follower CoreGroup Heartbeats Directory Hooks Blobs Links RaftNetwork.

Section roles.
Context `{RaftRpc} `{!Postcard}.

(** What [serve_role] is in the middle of; taking a seat has three waits, for
    the promotion to be prepared, for its write and for the Raft to start. *)
Inductive RoleTask : Type :=
| TakingSeat
| Promoting (seen_at : N)
| Blanking (seen_at : N) (p : Promotion)
| StartingRaft (seen_at : N)
| Seated (seated_at : N)
| FinishingExpulsion
| RoleEnded.

(** ** Where the follow loop is

    [apply_followed] folds a batch in memory, waits for the transaction that
    keeps it, which runs on the blocking pool, and announces it. *)
Record FollowWrite : Type := MkFollowWrite {
  written : Applied;
  written_predecessors : gmap MemberId (gset MemberId);
}.

Inductive FollowAt : Type :=
| Fetching
| Writing (w : FollowWrite)
| Written (w : FollowWrite).

Definition fold_followed (up_to : N) (events : list (N * SignedEvent)) (s : Store) : Store * FollowWrite :=
  let '(st, upto, predecessors, _) :=
    follow_events events up_to (followed_upto (applied s)) (state (applied s)) (default ∅ (disk_predecessors (disk s))) [] in
  let a := with_followed upto (with_state st (applied s)) in
  (set_applied a s, MkFollowWrite a predecessors).
Definition commit_followed (w : FollowWrite) : Store → Store :=
  set_disk (λ d, put_predecessors (written_predecessors w) (put_applied (encode_applied (written w)) d)).
Definition announce_followed (w : FollowWrite) (s : Store) : Store := announce (state (written w)) s.

(** [Role], with which of its two tasks run, where the follow loop is, and
    where the ones that were stopped were. *)
Record Role : Type := MkRole {
  role_me : MemberId;
  role_store : Store;
  role_seat : option Raft;
  role_trusted : gset MemberId;
  role_sources : Sources;
  follow_runs : bool;
  follow_at : FollowAt;
  role_lingering : list FollowAt;
  core_group_runs : bool;
  role_expelled : bool;
  role_task : RoleTask;
}.

Definition with_task (t : RoleTask) (r : Role) : Role :=
  MkRole (role_me r) (role_store r) (role_seat r) (role_trusted r) (role_sources r) (follow_runs r) (follow_at r)
    (role_lingering r) (core_group_runs r) (role_expelled r) t.
Definition with_store (s : Store) (r : Role) : Role :=
  MkRole (role_me r) s (role_seat r) (role_trusted r) (role_sources r) (follow_runs r) (follow_at r)
    (role_lingering r) (core_group_runs r) (role_expelled r) (role_task r).
Definition with_follow (runs : bool) (at_ : FollowAt) (lingering : list FollowAt) (r : Role) : Role :=
  MkRole (role_me r) (role_store r) (role_seat r) (role_trusted r) (role_sources r) runs at_
    lingering (core_group_runs r) (role_expelled r) (role_task r).
Definition with_core_group (b : bool) (r : Role) : Role :=
  MkRole (role_me r) (role_store r) (role_seat r) (role_trusted r) (role_sources r) (follow_runs r) (follow_at r)
    (role_lingering r) b (role_expelled r) (role_task r).
Definition with_seat (seat : option Raft) (r : Role) : Role :=
  MkRole (role_me r) (role_store r) seat (role_trusted r) (role_sources r) (follow_runs r) (follow_at r)
    (role_lingering r) (core_group_runs r) (role_expelled r) (role_task r).
Definition with_trusted (trusted : gset MemberId) (r : Role) : Role :=
  MkRole (role_me r) (role_store r) (role_seat r) trusted (role_sources r) (follow_runs r) (follow_at r)
    (role_lingering r) (core_group_runs r) (role_expelled r) (role_task r).
Definition with_sources (sources : Sources) (r : Role) : Role :=
  MkRole (role_me r) (role_store r) (role_seat r) (role_trusted r) sources (follow_runs r) (follow_at r)
    (role_lingering r) (core_group_runs r) (role_expelled r) (role_task r).
Definition with_expelled (b : bool) (r : Role) : Role :=
  MkRole (role_me r) (role_store r) (role_seat r) (role_trusted r) (role_sources r) (follow_runs r) (follow_at r)
    (role_lingering r) (core_group_runs r) b (role_task r).

(** [start] of the follow loop, and [stop]: [JoinHandle::abort] asks no more of
    it, and what it was at goes on to its next wait, or on the blocking pool to
    its end. *)
Definition start_follow (r : Role) : Role := with_follow true Fetching (role_lingering r) r.
Definition stop_follow (r : Role) : Role :=
  with_follow false Fetching (if follow_runs r then role_lingering r ++ [follow_at r] else role_lingering r) r.

(** The membership a store answers, and the Raft configuration it publishes. *)
Definition current (s : Store) : MembershipState := state (applied s).
Definition published_config (s : Store) : RaftMembership := stored_config (announced_raft s).
Definition is_voter (m : RaftMembership) (me : MemberId) : bool := bool_decide (raw_of_member me ∈ voter_ids m).

(** [starts_as_core]. *)
Definition starts_as_core (s : Store) (me : MemberId) (core_ : list (MemberId * NodeAddr)) : bool :=
  match promotion s with
  | Some _ => true
  | None =>
      if bool_decide (is_Some (group (current s))) then is_core (current s) me || is_voter (published_config s) me
      else bool_decide (me ∈ core_.*1)
  end.

(** The voters of a configuration whose ids and nodes can be read. *)
Definition config_voters (m : RaftMembership) : list (MemberId * NodeAddr) :=
  omap (λ id, member ← member_of_raw id; addr ← get_node m id; Some (member, addr)) (voter_ids m).

(** [initial_sources]: [or_insert_with] keeps what the log says. *)
Definition initial_sources (s : Store) (core_ : list (MemberId * NodeAddr)) : list (MemberId * NodeAddr) :=
  if bool_decide (is_Some (group (current s))) then
    map_entries (foldl (λ known '(m, a), if decide (is_Some (known !! m)) then known else <[m := a]> known)
      (core (current s)) (config_voters (published_config s)))
  else core_.

(** [retired_and_expelled]. *)
Definition retired_and_expelled (r : Role) : bool :=
  let s := role_store r in
  bool_decide (is_Some (group (current s))) && negb (is_member (current s) (role_me r)) &&
  bool_decide (is_Some (stored_at (announced_raft s))).

(** [may_retire]. *)
Definition may_retire (wanted : MembershipState) (applied_ : StoredMembership) (me : MemberId) (seated_at : N) : bool :=
  bool_decide (is_Some (group wanted)) && bool_decide (seated_at ≤ changed_at wanted)%N && negb (is_core wanted me) &&
  match stored_at applied_ with Some id => bool_decide (seated_at ≤ log_index id)%N | None => false end &&
  bool_decide (length (joint_config (stored_config applied_)) = 1%nat) && negb (is_voter (stored_config applied_) me).

(** ** Starting *)

(** What [MembershipNode::start], [start_first_role] and the start of
    [serve_role] make of a store; [new_raft] is the Raft, if it starts. *)
Definition start_first_role (r : Role) : Role :=
  match role_seat r with
  | Some _ => with_core_group true r
  | None => if retired_and_expelled r then r else start_follow r
  end.

Definition first_task (r : Role) : RoleTask :=
  match role_seat r with
  | None => if retired_and_expelled r then FinishingExpulsion else TakingSeat
  | Some _ => Seated (match promotion (role_store r) with Some p => promotion_at p | None => changed_at (current (role_store r)) end)
  end.

Definition start_node (me : MemberId) (s : Store) (core_ : list (MemberId * NodeAddr)) (new_raft : option Raft) : option Role :=
  let role seat := MkRole me s seat (list_to_set core_.*1)
    {| sources_core := initial_sources s core_; sources_leader := None |} false Fetching [] false false TakingSeat in
  let started r := with_task (first_task r) (start_first_role r) in
  if starts_as_core s me core_ then raft ← new_raft; Some (started (role (Some raft)))
  else Some (started (role None)).

(** ** The role task *)

(** [take_the_seat], wait by wait. Woken, it does nothing until the log says
    this node votes; then it stops the follow loop. *)
Definition see_the_promotion (r : Role) : Role :=
  let seen := announced (role_store r) in
  if is_core seen (role_me r) then with_task (Promoting (changed_at seen)) (stop_follow r) else r.

(** [prepare_promotion], up to its transaction: what the promotion is, and a
    blank projection in memory. *)
Definition promotion_for (me : MemberId) (s : Store) : Promotion :=
  let st := current s in
  let predecessors := default ∅ (disk_predecessors (disk s)) in
  {| promotion_at := changed_at st;
     promotion_voters := filter (λ member, is_member st member) (dom (core st) ∪ default ∅ (predecessors !! me)) |}.
Definition blank_the_projection (seen_at : N) (r : Role) : Role :=
  let p := promotion_for (role_me r) (role_store r) in
  with_task (Blanking seen_at p) (with_store (next_generation (set_applied new_applied (role_store r))) r).

(** Its transaction and what follows it. *)
Definition keep_the_promotion (txn : bool) (seen_at : N) (p : Promotion) (r : Role) : Role :=
  if txn then
    let s := set_disk (λ d, put_promotion (Some p) (put_snapshot None (put_applied (encode_applied new_applied) d))) (role_store r) in
    let s := announce new_state (announce_raft no_stored_membership (set_promotion (Some p) s)) in
    with_task (StartingRaft seen_at) (with_trusted (promotion_voters p) (with_store s r))
  else with_task RoleEnded r.

(** [new_raft], and the seat taken. *)
Definition start_the_raft (new_raft : option Raft) (seen_at : N) (r : Role) : Role :=
  match new_raft with
  | None => with_task RoleEnded r
  | Some raft => with_task (Seated seen_at) (with_core_group true (with_seat (Some raft) r))
  end.

(** [stand_down], woken. *)
Definition stand_down (seated_at : N) (txn : bool) (r : Role) : Role :=
  if may_retire (announced (role_store r)) (announced_raft (role_store r)) (role_me r) seated_at then
    let r := with_seat None (with_core_group false r) in
    let r := with_store (resume_following txn (role_store r)).1 r in
    let r := with_sources
      {| sources_core := config_voters (published_config (role_store r)); sources_leader := None |} r in
    if is_member (current (role_store r)) (role_me r) then with_task TakingSeat (start_follow r)
    else with_task FinishingExpulsion r
  else r.

(** A round of [finish_expulsion]: whether a voter confirms, in time, that it
    has forgotten this node. *)
Definition finish_expulsion (forgets : MemberId → NodeAddr → bool) (r : Role) : Role :=
  if existsb (λ c, forgets c.1 c.2) (candidates (role_sources r) (role_me r))
  then with_task RoleEnded (with_expelled true r)
  else r.

(** What [serve_role] does from one wait to the next. *)
Definition role_move (txn : bool) (new_raft : option Raft) (forgets : MemberId → NodeAddr → bool) (r : Role) : Role :=
  match role_task r with
  | TakingSeat => see_the_promotion r
  | Promoting seen_at => blank_the_projection seen_at r
  | Blanking seen_at p => keep_the_promotion txn seen_at p r
  | StartingRaft seen_at => start_the_raft new_raft seen_at r
  | Seated seated_at => stand_down seated_at txn r
  | FinishingExpulsion => finish_expulsion forgets r
  | RoleEnded => r
  end.

(** [take_the_seat] from end to end, nothing else happening meanwhile, and a
    turn of [serve_role] so. *)
Definition take_the_seat (txn : bool) (new_raft : option Raft) (r : Role) : Role :=
  let seen_at := changed_at (announced (role_store r)) in
  let p := promotion_for (role_me r) (role_store r) in
  if is_core (announced (role_store r)) (role_me r) then
    let r := keep_the_promotion txn seen_at p (blank_the_projection seen_at (see_the_promotion r)) in
    match role_task r with RoleEnded => r | _ => start_the_raft new_raft seen_at r end
  else r.

Definition role_turn (txn : bool) (new_raft : option Raft) (forgets : MemberId → NodeAddr → bool) (r : Role) : Role :=
  match role_task r with
  | TakingSeat => take_the_seat txn new_raft r
  | _ => role_move txn new_raft forgets r
  end.

(** ** The tasks of a node, step by step *)

(** Whether Raft's applied configuration is of [n] or later. *)
Definition config_reaches (s : Store) (n : N) : bool :=
  match stored_at (announced_raft s) with Some id => bool_decide (n ≤ log_index id)%N | None => false end.

(** A later store of a Raft, whose configurations only go forward. *)
Definition goes_forward (s s' : Store) : Prop := ∀ n, config_reaches s n = true → config_reaches s' n = true.

(** Who takes a step: the role task, the follow loop, the Raft, what a stopped
    loop left, or whoever restarts the process. *)
Inductive Actor : Type := ByRole | ByFollow | ByRaft | ByStopped | ByRestart.

(** What is left of a stopped loop ends: the poll it was in comes to a wait,
    where it is let go of, or what is on the blocking pool is done. *)
Inductive linger (txn : bool) : FollowAt → Store → option FollowAt → Store → Prop :=
| LetGo at_ s : match at_ with Writing _ => False | _ => True end → linger txn at_ s None s
| FoldsLate up_to events s :
    linger txn Fetching s (Some (Writing (fold_followed up_to events s).2)) (fold_followed up_to events s).1
| Lands w s : txn = true → linger txn (Writing w) s None (commit_followed w s)
| NeverLands w s : linger txn (Writing w) s None s
| AnnouncesLate w s : linger txn (Written w) s None (announce_followed w s).

(** [follow] ends for good when it finds the node expelled, or a protocol this
    build does not speak. With [settled], a batch is followed and a turn of the
    role task is taken from end to end; without, one wait at a time. *)
Inductive role_step (settled txn : bool) (r : Role) : Actor → Role → Prop :=
| RoleTurns new_raft forgets :
    settled = true → role_step settled txn r ByRole (role_turn txn new_raft forgets r)
| RoleMoves new_raft forgets :
    settled = false → role_step settled txn r ByRole (role_move txn new_raft forgets r)
| Follows up_to events sources :
    settled = true → follow_runs r = true → follow_at r = Fetching →
    role_step settled txn r ByFollow
      (with_sources sources (with_store (apply_followed up_to events txn (role_store r)).1 r))
| FollowFolds up_to events sources :
    settled = false → follow_runs r = true → follow_at r = Fetching →
    role_step settled txn r ByFollow
      (with_follow true (Writing (fold_followed up_to events (role_store r)).2) (role_lingering r)
        (with_sources sources (with_store (fold_followed up_to events (role_store r)).1 r)))
| FollowCommits w :
    settled = false → txn = true → follow_runs r = true → follow_at r = Writing w →
    role_step settled txn r ByFollow
      (with_follow true (Written w) (role_lingering r) (with_store (commit_followed w (role_store r)) r))
| FollowLoses w :
    settled = false → txn = false → follow_runs r = true → follow_at r = Writing w →
    role_step settled txn r ByFollow (with_follow true Fetching (role_lingering r) r)
| FollowAnnounces w :
    settled = false → follow_runs r = true → follow_at r = Written w →
    role_step settled txn r ByFollow
      (with_follow true Fetching (role_lingering r) (with_store (announce_followed w (role_store r)) r))
| StopsFollowing expelled :
    follow_runs r = true → follow_at r = Fetching →
    role_step settled txn r ByFollow
      (with_follow false Fetching (role_lingering r) (with_expelled (role_expelled r || expelled) r))
| RaftApplies raft raft' entries :
    role_seat r = Some raft → goes_forward (role_store r) (apply_batch entries txn (role_store r)).1 →
    role_step settled txn r ByRaft (with_seat (Some raft') (with_store (apply_batch entries txn (role_store r)).1 r))
| RaftInstalls raft raft' meta data :
    role_seat r = Some raft → goes_forward (role_store r) (RaftState.install_snapshot meta data txn (role_store r)).1 →
    role_step settled txn r ByRaft
      (with_seat (Some raft') (with_store (RaftState.install_snapshot meta data txn (role_store r)).1 r))
| StoppedEnds before at_ after next s :
    settled = false → role_lingering r = before ++ at_ :: after → linger txn at_ (role_store r) next s →
    role_step settled txn r ByStopped
      (with_follow (follow_runs r) (follow_at r) (before ++ option_list next ++ after) (with_store s r))
| Restarts s core_ new_raft r' :
    from_database (disk (role_store r)) = Ok s → start_node (role_me r) s core_ new_raft = Some r' →
    role_step settled txn r ByRestart r'.

(** With [durable], every write succeeds. *)
Inductive role_run (settled durable : bool) (r : Role) : Role → Prop :=
| RoleAtRest : role_run settled durable r r
| RoleRuns r1 r2 txn who :
    role_run settled durable r r1 → (durable = true → txn = true) → role_step settled txn r1 who r2 →
    role_run settled durable r r2.

(** What stopped loops may still do: fold and write, or write, or announce. *)
Definition left_of (at_ : FollowAt) : nat := match at_ with Fetching => 2 | _ => 1 end.
Definition still_to_land (r : Role) : nat := sum_list (left_of <$> role_lingering r).
End roles.
