(* ===== verification/RolesProps.v ===== *)
(** * A node's role: one writer of the log's state, and a seat that is left
    only for good *)

From S2P Require Import Prelude Ids GroupSettings Events Membership Fixtures RaftLog RaftState Follower CoreGroup CoreGroupProps CoreGroupFixtures Heartbeats Directory Hooks Blobs Links RaftNetwork Memberlog MemberlogProps Roles.

Section props.
Context `{RaftRpc} `{!Postcard}.

(** ** A turn from end to end *)

(** With nothing else in between, the waits of [take_the_seat] come to what
    [prepare_promotion] does, and a batch is followed as [apply_followed] does. *)
Lemma take_the_seat_whole txn new_raft r :
  take_the_seat txn new_raft r =
  let seen := announced (role_store r) in
  if is_core seen (role_me r) then
    let r := stop_follow r in
    match prepare_promotion (role_me r) txn (role_store r) with
    | (s, Err _) => with_task RoleEnded (with_store s r)
    | (s, Ok p) =>
        let r := with_trusted (promotion_voters p) (with_store s r) in
        match new_raft with
        | None => with_task RoleEnded r
        | Some raft => with_task (Seated (changed_at seen)) (with_core_group true (with_seat (Some raft) r))
        end
    end
  else r.
Proof.
  unfold take_the_seat. cbv zeta. destruct (is_core _ _) eqn:Ec; [|done].
  unfold see_the_promotion. rewrite Ec. unfold prepare_promotion, reset_projection, write_txn. run.
  unfold keep_the_promotion. destruct txn; [|by run]. run. by destruct new_raft.
Qed.

(** ** Who writes *)

Definition role_ok (r : Role) : Prop :=
  (follow_runs r = true → role_seat r = None) ∧
  (core_group_runs r = true ↔ is_Some (role_seat r)) ∧
  match role_task r with
  | Seated _ => is_Some (role_seat r)
  | TakingSeat => role_seat r = None
  | _ => role_seat r = None ∧ follow_runs r = false
  end.

Lemma start_node_ok me s core_ new_raft r : start_node me s core_ new_raft = Some r → role_ok r.
Proof.
  unfold start_node, start_first_role, first_task, role_ok.
  destruct (starts_as_core s me core_); [destruct new_raft as [raft|]; [|done]|]; intros [= <-]; cbn.
  - split_and!; [done|by split; [eexists|]|by eexists].
  - destruct (retired_and_expelled _); cbn; split_and!; try done; split; try done; by intros [].
Qed.

Lemma stand_down_ok at_ txn r : role_ok r → role_task r = Seated at_ → role_ok (stand_down at_ txn r).
Proof.
  intros Hok Et. pose proof Hok as (Hf & Hc & Ht). rewrite Et in Ht. unfold stand_down. destruct (may_retire _ _ _ _); [|done].
  assert (follow_runs r = false) as Hno by (destruct (follow_runs r); [destruct Ht as [? Ht]; by rewrite Hf in Ht|done]).
  destruct (is_member _ _); (split; [done|]); (split; [cbn; by split; [|intros [? ?]]|done]).
Qed.

Lemma finish_expulsion_ok forgets r : role_ok r → role_task r = FinishingExpulsion → role_ok (finish_expulsion forgets r).
Proof.
  intros Hok Et. pose proof Hok as (Hf & Hc & Ht). rewrite Et in Ht. unfold finish_expulsion. destruct (existsb _ _); [|done].
  destruct Ht. split_and!; cbn; done.
Qed.

Lemma role_move_ok txn new_raft forgets r : role_ok r → role_ok (role_move txn new_raft forgets r).
Proof.
  intros Hok. unfold role_move. pose proof Hok as (Hf & Hc & Ht). destruct (role_task r) eqn:Et; rewrite ?Et in Ht.
  - unfold see_the_promotion. destruct (is_core _ _); [|done]. split; [done|]. by split; [exact Hc|].
  - split; [exact Hf|]. by split; [exact Hc|].
  - unfold keep_the_promotion. destruct Ht as [Hn Hr]. destruct txn; (split; [exact Hf|]); (split; [exact Hc|]); done.
  - unfold start_the_raft. destruct Ht as [Hn Hr]. destruct new_raft as [raft|].
    + split; [cbn; congruence|]. split; cbn; [by split; [eexists|]|by eexists].
    + split; [exact Hf|]. by split; [exact Hc|].
  - by apply stand_down_ok.
  - by apply finish_expulsion_ok.
  - done.
Qed.

Lemma role_turn_ok txn new_raft forgets r : role_ok r → role_ok (role_turn txn new_raft forgets r).
Proof.
  intros Hok. unfold role_turn. pose proof Hok as (Hf & Hc & Ht). destruct (role_task r) eqn:Et; try by apply role_move_ok.
  rewrite take_the_seat_whole. cbv zeta. destruct (is_core _ _); [|done]. destruct (prepare_promotion _ _ _) as [s [p|e]].
  - destruct new_raft as [raft|]; (split; [done|]); split; cbn; [by split; [eexists|]|by eexists| |done].
    exact Hc.
  - split; [done|]. by split; [exact Hc|].
Qed.

Lemma with_raft_ok s raft raft' r : role_seat r = Some raft → role_ok r → role_ok (with_seat (Some raft') (with_store s r)).
Proof.
  intros Hr (Hn & Hc & Ht). rewrite Hr in *. split_and!; cbn; [intros Hf; by apply Hn in Hf|by rewrite Hc|].
  destruct (role_task r); try done; by destruct Ht.
Qed.

Lemma role_step_ok settled txn who r r' : role_ok r → role_step settled txn r who r' → role_ok r'.
Proof.
  intros Hok Hs. pose proof Hok as (Hn & Hc & Ht). destruct Hs.
  - by apply role_turn_ok.
  - by apply role_move_ok.
  - exact Hok.
  - split; [intros _; by apply Hn|]. split; [exact Hc|]. cbn. destruct (role_task r); try done; by destruct Ht; congruence.
  - split; [intros _; by apply Hn|]. split; [exact Hc|]. cbn. destruct (role_task r); try done; by destruct Ht; congruence.
  - split; [intros _; by apply Hn|]. split; [exact Hc|]. cbn. destruct (role_task r); try done; by destruct Ht; congruence.
  - split; [intros _; by apply Hn|]. split; [exact Hc|]. cbn. destruct (role_task r); try done; by destruct Ht; congruence.
  - split_and!; cbn; [done|done|]. destruct (role_task r); try done; by destruct Ht.
  - by eapply with_raft_ok.
  - by eapply with_raft_ok.
  - exact Hok.
  - by eapply start_node_ok.
Qed.

Lemma role_run_ok settled durable me s core_ new_raft r0 r :
  start_node me s core_ new_raft = Some r0 → role_run settled durable r0 r → role_ok r.
Proof. intros Hst. induction 1 as [|r1 r2 txn who _ IH _ Hs]; [by eapply start_node_ok|by eapply role_step_ok]. Qed.

(** *** What a stopped loop leaves *)

Lemma linger_ends txn at_ s next s' :
  linger txn at_ s next s' → sum_list (left_of <$> option_list next) < left_of at_.
Proof. destruct 1 as [[] ? Ha| | | |]; cbn; try done; lia. Qed.

Lemma stopped_step_ends settled txn r r' : role_step settled txn r ByStopped r' → still_to_land r' < still_to_land r.
Proof.
  inversion 1 as [| | | | | | | | | |before at_ after next s _ Hl Hlin|]; subst. unfold still_to_land. rewrite Hl. cbn.
  apply linger_ends in Hlin. rewrite !fmap_app, !sum_list_with_app || rewrite !fmap_app, !sum_list_app. cbn. lia.
Qed.

(** A seated node stops no loop. *)
Lemma seated_step_lands settled txn who r r' at_ :
  role_task r = Seated at_ → role_step settled txn r who r' → who ≠ ByFollow → still_to_land r' ≤ still_to_land r.
Proof.
  intros Ht Hs Hwho. destruct Hs as [nr forgets|nr forgets| | | | | | | | | |s core_ nr r' _ Hst]; try done.
  - unfold role_turn. rewrite Ht. unfold role_move. rewrite Ht. unfold stand_down. destruct (may_retire _ _ _ _); [|done].
    by destruct (is_member _ _).
  - unfold role_move. rewrite Ht. unfold stand_down. destruct (may_retire _ _ _ _); [|done]. by destruct (is_member _ _).
  - by apply Nat.lt_le_incl, (stopped_step_ends settled txn), (StoppedEnds _ _ _ before at_0 after next s).
  - unfold start_node, start_first_role in Hst.
    destruct (starts_as_core _ _ _); [destruct nr; [|done]|]; injection Hst as <-; [apply Nat.le_0_l|]. cbn.
    destruct (retired_and_expelled _); apply Nat.le_0_l.
Qed.


(** *** A settled run is one of all runs *)

Lemma followed_whole up_to events txn s :
  (apply_followed up_to events txn s).1 =
  let '(s', w) := fold_followed up_to events s in
  if txn then announce_followed w (commit_followed w s') else s'.
Proof.
  unfold apply_followed, fold_followed, write_txn. run. destruct (follow_events _ _ _ _ _ _) as [[[st upto] pred] vs].
  by destruct txn.
Qed.

Lemma role_run_trans settled durable r1 r2 r3 :
  role_run settled durable r1 r2 → role_run settled durable r2 r3 → role_run settled durable r1 r3.
Proof. intros Hrun. induction 1 as [|r r' txn who _ IH Hd Hs]; [done|by eapply RoleRuns]. Qed.

Section one_step_at_a_time.
Context (durable txn : bool) (Htxn : durable = true → txn = true).

Lemma moves_run new_raft forgets r : role_run false durable r (role_move txn new_raft forgets r).
Proof. eapply RoleRuns; [apply RoleAtRest|exact Htxn|by apply RoleMoves]. Qed.

(** A seat is taken in four moves. *)
Lemma taking_runs new_raft r : role_task r = TakingSeat → role_run false durable r (take_the_seat txn new_raft r).
Proof.
  intros Ht. unfold take_the_seat. cbv zeta. destruct (is_core _ _) eqn:Ec; [|apply RoleAtRest].
  set (r1 := see_the_promotion r).
  assert (r1 = with_task (Promoting (changed_at (announced (role_store r)))) (stop_follow r)) as Hr1
    by (unfold r1, see_the_promotion; by rewrite Ec).
  assert (role_run false durable r r1) as Hrun1.
  { pose proof (moves_run None (λ _ _, false) r) as Hm. unfold role_move in Hm. by rewrite Ht in Hm. }
  assert (role_run false durable r (blank_the_projection (changed_at (announced (role_store r))) r1)) as Hrun2.
  { eapply role_run_trans; [exact Hrun1|]. pose proof (moves_run None (λ _ _, false) r1) as Hm. unfold role_move in Hm. by rewrite Hr1 in *. }
  eapply role_run_trans; [exact Hrun2|]. rewrite Hr1.
  eapply role_run_trans; [exact (moves_run None (λ _ _, false) _)|]. cbn [role_move role_task with_task blank_the_projection].
  change (promotion_for _ _) with (promotion_for (role_me r) (role_store r)). unfold keep_the_promotion.
  pose proof (moves_run new_raft (λ _ _, false)) as Hm. destruct txn; [|apply RoleAtRest]. cbn [role_task with_task].
  match goal with |- role_run _ _ ?x _ => exact (Hm x) end.
Qed.

(** A batch is followed in three steps, or in two if it is not kept. *)
Lemma following_runs up_to events sources r :
  follow_runs r = true → follow_at r = Fetching →
  role_run false durable r (with_sources sources (with_store (apply_followed up_to events txn (role_store r)).1 r)).
Proof.
  intros Hf Ha. rewrite followed_whole. destruct (fold_followed up_to events (role_store r)) as [s w] eqn:E.
  pose proof (FollowFolds false txn r up_to events sources eq_refl Hf Ha) as Hrun1. rewrite E in Hrun1.
  eapply RoleRuns in Hrun1; [|apply RoleAtRest|exact Htxn]. eapply role_run_trans; [exact Hrun1|].
  destruct r as [me st seat trusted src runs at_ lingering cg ex task]; cbn in *; subst. clear E. destruct txn.
  - match goal with |- role_run _ _ ?r1 _ => pose proof (FollowCommits false true r1 w eq_refl eq_refl eq_refl eq_refl) as Hs end.
    pose proof (RoleRuns false durable _ _ _ true _ (RoleAtRest _ _ _) Htxn Hs) as Hrun2. eapply RoleRuns; [exact Hrun2|exact Htxn|].
    match type of Hrun2 with role_run _ _ _ ?r2 => exact (FollowAnnounces false true r2 w eq_refl eq_refl eq_refl) end.
  - eapply RoleRuns; [apply RoleAtRest|exact Htxn|].
    match goal with |- role_step _ _ ?r1 _ _ => exact (FollowLoses false false r1 w eq_refl eq_refl eq_refl eq_refl) end.
Qed.
End one_step_at_a_time.

(** So what is shown of all runs holds of the settled ones. *)
Theorem settled_runs_are_runs durable r0 r : role_run true durable r0 r → role_run false durable r0 r.
Proof.
  induction 1 as [|r r' txn who _ IH Hd Hs]; [apply RoleAtRest|]. eapply role_run_trans; [exact IH|].
  destruct Hs as [nr forgets|nr forgets| | | | | |expelled Hf Ha|raft raft' entries Hr Hg|raft raft' meta data Hr Hg| |s core_ nr r' Hdb Hst]; try done.
  - unfold role_turn. destruct (role_task r) eqn:Et; [by apply taking_runs|by apply moves_run..].
  - by apply following_runs.
  - eapply RoleRuns; [apply RoleAtRest|exact Hd|by apply StopsFollowing].
  - eapply RoleRuns; [apply RoleAtRest|exact Hd|by eapply RaftApplies].
  - eapply RoleRuns; [apply RoleAtRest|exact Hd|by eapply RaftInstalls].
  - eapply RoleRuns; [apply RoleAtRest|exact Hd|by eapply Restarts].
Qed.

(** ** What a restart finds *)

Context `{!RaftConfigLaws} (Hlaw : ∀ a, decode_applied (encode_applied a) = Some a).

(** What is in memory, published and on disk is one, as it is while writes
    succeed. *)
Definition kept (s : Store) : Prop :=
  announced s = current s ∧ announced_raft s = membership (applied s) ∧
  (disk_applied (disk s) = None ∧ applied s = new_applied ∨
   ∃ data, disk_applied (disk s) = Some data ∧ decode_applied data = Some (applied s)) ∧
  flatten (disk_promotion (disk s)) = promotion_held s.

Lemma from_database_kept d s : from_database d = Ok s → kept s ∧ disk s = d.
Proof.
  unfold from_database, kept. destruct (disk_applied d) as [data|] eqn:Ed.
  - destruct (decode_applied data) as [a|] eqn:Ea; [|done]. intros [= <-]. cbn.
    split; [|done]. split_and!; try done. right. by exists data.
  - intros [= <-]. cbn. split; [|done]. split_and!; try done. by left.
Qed.

(** A restart reads what was kept. *)
Lemma kept_restart s s' :
  kept s → from_database (disk s) = Ok s' →
  applied s' = applied s ∧ announced_raft s' = announced_raft s ∧ announced s' = announced s ∧ promotion_held s' = promotion_held s.
Proof.
  intros (Ha & Hr & Hd & Hp) Hs. pose proof (from_database_kept _ _ Hs) as ((Ha' & Hr' & Hd' & Hp') & Hdisk).
  rewrite Hdisk in Hd', Hp'. assert (applied s' = applied s) as Happ.
  { destruct Hd as [[Hn Hnew]|(data & Hs1 & Hdec)]; destruct Hd' as [[Hn' Hnew']|(data' & Hs1' & Hdec')]; congruence. }
  unfold current in *. split_and!; congruence.
Qed.

Lemma announce_fields st s :
  disk (announce st s) = disk s ∧ applied (announce st s) = applied s ∧ announced (announce st s) = st ∧
  announced_raft (announce st s) = announced_raft s ∧ promotion_held (announce st s) = promotion_held s.
Proof. unfold announce. by case_bool_decide. Qed.

Lemma announce_raft_fields m s :
  disk (announce_raft m s) = disk s ∧ applied (announce_raft m s) = applied s ∧ announced (announce_raft m s) = announced s ∧
  announced_raft (announce_raft m s) = m ∧ promotion_held (announce_raft m s) = promotion_held s.
Proof. unfold announce_raft. by case_bool_decide. Qed.

(** A store after a commit of [a], published. *)
Lemma kept_commit s a data (f : Disk → Disk) :
  (∀ d, disk_applied (f d) = Some data) → (∀ d, disk_promotion (f d) = disk_promotion d) →
  decode_applied data = Some a → flatten (disk_promotion (disk s)) = promotion_held s →
  kept (announce (state a) (announce_raft (membership a) (set_disk f (set_applied a s)))).
Proof.
  intros Hf Hp Hd Hs. unfold kept, current.
  pose proof (announce_fields (state a) (announce_raft (membership a) (set_disk f (set_applied a s)))) as (-> & -> & -> & -> & ->).
  pose proof (announce_raft_fields (membership a) (set_disk f (set_applied a s))) as (-> & -> & _ & -> & ->). cbn.
  split_and!; [done|done| |by rewrite Hp]. right. exists data. by rewrite Hf.
Qed.

Lemma kept_apply_batch entries s :
  kept s → kept (apply_batch entries true s).1 ∧ promotion_held (apply_batch entries true s).1 = promotion_held s.
Proof.
  intros (_ & _ & _ & Hp). unfold apply_batch, write_txn. run. destruct (apply_entries entries (applied s)) as [a rs]. cbn.
  split.
  - apply (kept_commit s a (encode_applied a) (put_applied (encode_applied a))); done.
  - by rewrite (proj2 (proj2 (proj2 (proj2 (announce_fields _ _))))), (proj2 (proj2 (proj2 (proj2 (announce_raft_fields _ _))))).
Qed.

Lemma kept_install meta data s :
  kept s → kept (RaftState.install_snapshot meta data true s).1 ∧
    promotion_held (RaftState.install_snapshot meta data true s).1 = promotion_held s.
Proof.
  intros Hk. pose proof Hk as (_ & _ & _ & Hp). unfold RaftState.install_snapshot, write_txn.
  destruct (decode_applied data) as [a|] eqn:Ed; [|done]. run. split.
  - apply (kept_commit s a data (λ d, put_snapshot (Some {| snapshot_meta := meta; snapshot_data := data |}) (put_applied data d))); done.
  - by rewrite (proj2 (proj2 (proj2 (proj2 (announce_fields _ _))))), (proj2 (proj2 (proj2 (proj2 (announce_raft_fields _ _))))).
Qed.

Lemma kept_apply_followed up_to events s : kept s → kept (apply_followed up_to events true s).1.
Proof.
  intros (Ha & Hr & _ & Hp). unfold apply_followed, write_txn. run.
  destruct (follow_events _ _ _ _ _ _) as [[[st upto] pred] vs]. cbn. unfold kept, current.
  match goal with |- context [RaftState.announce st ?x] => pose proof (announce_fields st x) as (-> & -> & -> & -> & ->) end. cbn.
  split_and!; [done|by rewrite Hr| |done]. right. eexists. split; [done|]. by rewrite Hlaw.
Qed.

Lemma kept_resume s :
  kept s → let s' := (resume_following true s).1 in
  kept s' ∧ current s' = current s ∧ announced s' = announced s ∧ announced_raft s' = announced_raft s ∧ promotion_held s' = promotion_held s.
Proof.
  intros (Ha & Hr & _ & Hp). unfold resume_following, write_txn. run. cbn. split_and!; try done. unfold kept, current. cbn.
  split_and!; [done|done| |done]. right. eexists. split; [done|]. by rewrite Hlaw.
Qed.

Lemma kept_prepare me s s' r :
  kept s → prepare_promotion me true s = (s', r) →
  kept s' ∧ announced_raft s' = no_stored_membership ∧
  ∃ p, r = Ok p ∧ promotion_held s' = Some p ∧ promotion_at p = changed_at (announced s) ∧
    ∀ m, m ∈ promotion_voters p → is_member (announced s) m = true ∧
      (is_core (announced s) m = true ∨ m ∈ default ∅ (default ∅ (disk_predecessors (disk s)) !! me)).
Proof.
  intros (Ha & Hr & _ & Hp). unfold prepare_promotion, reset_projection, write_txn. run.
  set (p := {| promotion_at := _; promotion_voters := _ |}). intros [= <- <-]. unfold kept, current.
  match goal with |- context [announce new_state ?x] => pose proof (announce_fields new_state x) as (-> & -> & -> & -> & ->) end.
  match goal with |- context [announce_raft no_stored_membership ?x] =>
    pose proof (announce_raft_fields no_stored_membership x) as (-> & -> & _ & -> & ->) end. cbn.
  split_and!; [done|done| |done|done|].
  - right. eexists. split; [done|]. by rewrite Hlaw.
  - exists p. rewrite Ha. unfold current. split_and!; [done|done|done|]. intros m Hm. subst p. cbn in Hm.
    apply elem_of_filter in Hm as [Hm [Hc|Hc]%elem_of_union]; (split; [by apply Is_true_eq_true|]); [left|by right].
    unfold is_core. apply bool_decide_eq_true. by apply elem_of_dom in Hc.
Qed.

(** ** A seat is left for good *)

(** What a seated node remembers of its promotion; a settled run rests
    between two turns of the role task. *)
Definition between_turns (t : RoleTask) : Prop :=
  match t with Promoting _ | Blanking _ _ | StartingRaft _ => False | _ => True end.
Definition seated_well (r : Role) : Prop :=
  kept (role_store r) ∧ between_turns (role_task r) ∧
  ∀ at_ p, role_task r = Seated at_ → promotion_held (role_store r) = Some p →
    (promotion_at p ≤ at_)%N ∨ config_reaches (role_store r) (promotion_at p) = true.

Lemma promotion_none s p : promotion_held s = Some p → promotion s = None ↔ config_reaches s (promotion_at p) = true.
Proof.
  intros Hp. unfold promotion, config_reaches. rewrite Hp. cbn. destruct (stored_at (announced_raft s)) as [id|]; [|done].
  case_bool_decide; case_bool_decide; try done; lia.
Qed.

Lemma start_seated_well me s core_ new_raft r d :
  from_database d = Ok s → start_node me s core_ new_raft = Some r → seated_well r ∧ role_me r = me.
Proof.
  intros Hd Hst. apply from_database_kept in Hd as [Hk _].
  assert (role_store r = s ∧ role_task r = first_task r ∧ role_me r = me) as (Hs & Ht & Hme).
  { unfold start_node in Hst. destruct (starts_as_core s me core_); [destruct new_raft; [|done]|]; injection Hst as <-; [done|].
    unfold start_first_role, first_task, retired_and_expelled. cbn.
    match goal with |- context [if ?b then _ else _] => destruct b eqn:E end; cbn; by rewrite E. }
  split; [|done]. rewrite <-Hs in Hk. split; [done|].
  split; [rewrite Ht; unfold first_task; destruct (role_seat r); [done|by destruct (retired_and_expelled r)]|].
  intros at_ p Hat Hp. rewrite Ht in Hat. unfold first_task in Hat.
  destruct (role_seat r); [|by destruct (retired_and_expelled r)].
  destruct (promotion (role_store r)) as [q|] eqn:Eq.
  - injection Hat as <-. left. unfold promotion in Eq. rewrite Hp in Eq. cbn in Eq.
    destruct (stored_at _); [case_bool_decide; [|done]|]; by injection Eq as <-.
  - right. by apply (promotion_none _ _ Hp).
Qed.

Lemma take_the_seat_well nr r :
  kept (role_store r) → role_task r = TakingSeat →
  seated_well (take_the_seat true nr r) ∧ role_me (take_the_seat true nr r) = role_me r.
Proof.
  intros Hk Et. rewrite take_the_seat_whole. cbv zeta. destruct (is_core _ _); [|split; [split; [done|by rewrite Et]|done]].
  change (role_me (stop_follow r)) with (role_me r). change (role_store (stop_follow r)) with (role_store r).
  destruct (prepare_promotion (role_me r) true (role_store r)) as [s' res] eqn:Ep.
  apply kept_prepare in Ep as (Hk' & _ & p & -> & Hheld & Hat & _); [|done].
  destruct nr as [raft|]; (split; [split; [exact Hk'|split; [done|]]|reflexivity]); [|done].
  cbn. intros at_ q [= <-] Hq. left. rewrite Hheld in Hq. injection Hq as <-. by rewrite Hat.
Qed.

Lemma stand_down_well at_ r :
  seated_well r → role_task r = Seated at_ →
  seated_well (stand_down at_ true r) ∧ role_me (stand_down at_ true r) = role_me r.
Proof.
  intros (Hk & Hb & Hp) Et. unfold stand_down. destruct (may_retire _ _ _ _); [|by split].
  pose proof (kept_resume _ Hk) as (Hk' & _). destruct (is_member _ _); (split; [split; [exact Hk'|done]|done]).
Qed.

Lemma role_turn_well nr forgets r :
  seated_well r → seated_well (role_turn true nr forgets r) ∧ role_me (role_turn true nr forgets r) = role_me r.
Proof.
  intros Hw. pose proof Hw as (Hk & Hb & Hp). unfold role_turn.
  destruct (role_task r) as [|at_|at_ p|at_|at_| |] eqn:Et; try done; unfold role_move; rewrite ?Et.
  - by apply take_the_seat_well.
  - apply stand_down_well; done.
  - unfold finish_expulsion. destruct (existsb _ _); (split; [|done]); [by split|done].
  - by split.
Qed.

Lemma with_raft_well s raft raft' r :
  role_seat r = Some raft → kept s → promotion_held s = promotion_held (role_store r) → goes_forward (role_store r) s →
  seated_well r → seated_well (with_seat (Some raft') (with_store s r)).
Proof.
  intros Hr Hk' Hh Hg (Hk & Hb & Hp). split; [exact Hk'|]. split; [exact Hb|]. intros at_ p Ht Hheld.
  cbn [with_seat with_store role_store role_task] in *. rewrite Hh in Hheld. destruct (Hp at_ p Ht Hheld) as [?|?]; [by left|right]. by apply Hg.
Qed.

Lemma role_step_well r who r' : role_ok r → seated_well r → role_step true true r who r' → seated_well r' ∧ role_me r' = role_me r.
Proof.
  intros Hok Hw Hs. pose proof Hw as (Hk & Hb & Hp).
  destruct Hs as [nr forgets|nr forgets|up_to events sources _ Hf| | | | |expelled Hf|raft raft' entries Hr Hg|raft raft' meta data Hr Hg| |s core_ nr r' Hd Hst]; try done.
  - by apply role_turn_well.
  - split; [split; [by apply kept_apply_followed|split; [done|]]|done]. cbn. intros at_ p Ht. destruct Hok as (Hn & _ & Hok). rewrite Ht in Hok.
    destruct Hok as [raft Hok]. by rewrite (Hn Hf) in Hok.
  - pose proof (kept_apply_batch entries _ Hk) as [Hk' Hh]. split; [by eapply with_raft_well|done].
  - pose proof (kept_install meta data _ Hk) as [Hk' Hh]. split; [by eapply with_raft_well|done].
  - by eapply start_seated_well.
Qed.

Lemma role_run_well d me s core_ nr r0 r :
  from_database d = Ok s → start_node me s core_ nr = Some r0 → role_run true true r0 r →
  role_ok r ∧ seated_well r ∧ role_me r = me.
Proof.
  intros Hd Hst Hrun. induction Hrun as [|r1 r2 txn who _ (Hok & Hw & Hme) Hd' Hs]; [|rewrite (Hd' eq_refl) in Hs].
  - pose proof (start_seated_well _ _ _ _ _ _ Hd Hst) as [? ?]. split_and!; [by eapply start_node_ok|done..].
  - pose proof (role_step_well _ _ _ Hok Hw Hs) as [Hw' Hme']. split_and!; [by eapply role_step_ok|done|by rewrite Hme'].
Qed.

(** A node whose seat the role task vacates. *)
Definition vacates (r r' : Role) : Prop := is_Some (role_seat r) ∧ role_seat r' = None.

Lemma turn_vacates nr forgets r r' :
  role_ok r → r' = role_turn true nr forgets r → vacates r r' →
  ∃ at_, role_task r = Seated at_ ∧ r' = stand_down at_ true r ∧
    may_retire (announced (role_store r)) (announced_raft (role_store r)) (role_me r) at_ = true.
Proof.
  intros (_ & _ & Hok) -> [[raft Hs] Hn]. unfold role_turn, role_move in *.
  destruct (role_task r) as [|at_|at_ p|at_|at_| |]; try congruence; try (destruct Hok; congruence).
  exists at_. split_and!; [done|done|]. unfold stand_down in Hn. destruct (may_retire _ _ _ _); [done|]. congruence.
Qed.

(** C10: In every run of a node's tasks in which writes succeed and a batch is
    followed, and a seat taken, with nothing in between, the seat is given up
    only when the log, at least as new as what seated the node, does
    not list it, and the applied configuration, uniform and as new, does not
    count its vote; and that is for good: whatever the configuration file says,
    a restart on what is then on disk starts no Raft. *)
Theorem retired_stays_retired d me s core_ nr r0 r nr' forgets :
  from_database d = Ok s → start_node me s core_ nr = Some r0 → role_run true true r0 r →
  let r' := role_turn true nr' forgets r in
  vacates r r' →
  (∃ at_, role_task r = Seated at_ ∧ (at_ ≤ changed_at (announced (role_store r)))%N ∧ is_core (announced (role_store r)) me = false ∧
    config_reaches (role_store r) at_ = true ∧ (∃ V, joint_config (published_config (role_store r)) = [V]) ∧
    raw_of_member me ∉ voter_ids (published_config (role_store r))) ∧
  ∀ s' core', from_database (disk (role_store r')) = Ok s' → starts_as_core s' me core' = false.
Proof.
  intros Hd Hst Hrun r' Hv. destruct (role_run_well _ _ _ _ _ _ _ Hd Hst Hrun) as (Hok & (Hk & _ & Hp) & Hme).
  destruct (turn_vacates nr' forgets r r' Hok eq_refl Hv) as (at_ & Ht & Hr' & Hmr). rewrite Hme in Hmr.
  pose proof Hmr as Hmr2. unfold may_retire in Hmr2. rewrite !andb_true_iff in Hmr2.
  destruct Hmr2 as [[[[[Hg Hat] Hcore] Hreach] Huni] Hvoter].
  apply bool_decide_eq_true in Hg, Hat, Huni. apply negb_true_iff in Hcore, Hvoter.
  assert (config_reaches (role_store r) at_ = true) as Hreach' by exact Hreach.
  split.
  - exists at_. split_and!; [done|done|done|done| |by apply bool_decide_eq_false in Hvoter].
    unfold published_config. destruct (joint_config _) as [|V [|]]; [done| |done]. by exists V.
  - intros s' core' Hs'. pose proof (kept_resume _ Hk) as (Hk' & Hcur & Hann & Hraft & Hheld).
    assert (role_store r' = (resume_following true (role_store r)).1) as Hst'.
    { rewrite Hr'. unfold stand_down. rewrite Hme, Hmr. by destruct (is_member _ _). }
    rewrite Hst' in Hs'. destruct (kept_restart _ _ Hk' Hs') as (Happ & Hraft' & Hann' & Hheld').
    assert (current s' = announced (role_store r)) as Hcur'.
    { destruct Hk as [-> _]. unfold current in *. congruence. }
    assert (promotion s' = None) as Hprom.
    { rewrite Hheld in Hheld'. destruct (promotion_held s') as [p|] eqn:Eh; [|by unfold promotion; rewrite Eh].
      apply (promotion_none s' p Eh). unfold config_reaches. rewrite Hraft', Hraft. fold (config_reaches (role_store r) (promotion_at p)).
      destruct (Hp at_ p Ht (eq_sym Hheld')) as [Hle|?]; [|done]. unfold config_reaches in *.
      destruct (stored_at _); [|done]. apply bool_decide_eq_true in Hreach'. apply bool_decide_eq_true. lia. }
    unfold starts_as_core. rewrite Hprom, Hcur', bool_decide_true by done. unfold published_config. rewrite Hraft', Hraft.
    by rewrite Hcore, Hvoter.
Qed.

(** C12: In every run in which writes succeed and a batch is followed, and a
    seat taken, with nothing in between, a node that the log promotes takes its seat in one turn, trusting only members its own log says are or
    were of the core; and as long as the Raft it joined has not come to the
    entry that promoted it, no turn unseats it, whatever older memberships it
    goes through, and a restart has it vote again at the same boundary. *)
Theorem promotion_holds_until_caught_up d me s core_ nr r0 r nr' forgets :
  from_database d = Ok s → start_node me s core_ nr = Some r0 → role_run true true r0 r →
  (∀ raft, role_task r = TakingSeat → is_core (announced (role_store r)) me = true →
    let r' := role_turn true (Some raft) forgets r in
    role_seat r' = Some raft ∧ role_task r' = Seated (changed_at (announced (role_store r))) ∧
    ∃ p, promotion (role_store r') = Some p ∧ promotion_at p = changed_at (announced (role_store r)) ∧
      role_trusted r' = promotion_voters p ∧
      ∀ m, m ∈ promotion_voters p → is_member (announced (role_store r)) m = true ∧
        (is_core (announced (role_store r)) m = true ∨ m ∈ default ∅ (default ∅ (disk_predecessors (disk (role_store r))) !! me))) ∧
  (∀ p, promotion (role_store r) = Some p →
    (∀ at_, role_task r = Seated at_ → role_turn true nr' forgets r = r) ∧
    ∀ s' core' raft, from_database (disk (role_store r)) = Ok s' →
      ∃ r', start_node me s' core' (Some raft) = Some r' ∧ role_seat r' = Some raft ∧
        role_task r' = Seated (promotion_at p) ∧ promotion (role_store r') = Some p).
Proof.
  intros Hd Hst Hrun. destruct (role_run_well _ _ _ _ _ _ _ Hd Hst Hrun) as (Hok & (Hk & _ & Hp) & Hme). split.
  - intros raft Ht Hc r'. subst r'. unfold role_turn. rewrite Ht, take_the_seat_whole. cbv zeta. rewrite Hme, Hc.
    change (role_me (stop_follow r)) with (role_me r). change (role_store (stop_follow r)) with (role_store r).
    rewrite Hme. destruct (prepare_promotion me true (role_store r)) as [s' res] eqn:Ep.
    apply kept_prepare in Ep as (_ & Hraft & p & -> & Hheld & Hat & Hv); [|done]. split_and!; [done|done|]. exists p.
    cbn [with_task with_core_group with_seat with_trusted with_store role_store role_trusted].
    split_and!; [|done|done|done]. unfold promotion. by rewrite Hheld, Hraft.
  - intros p Hprom. assert (promotion_held (role_store r) = Some p ∧ config_reaches (role_store r) (promotion_at p) = false) as [Hheld Hno].
    { unfold promotion in Hprom. destruct (promotion_held (role_store r)) as [q|]; [|done]. cbn in Hprom. unfold config_reaches.
      destruct (stored_at _) as [id|]; [case_bool_decide as Hlt; [|done]|]; injection Hprom as ->; (split; [done|]); [|done].
      apply bool_decide_eq_false. lia. }
    split.
    + intros at_ Ht. unfold role_turn, role_move. rewrite Ht. unfold stand_down.
      destruct (may_retire _ _ _ _) eqn:Em; [|done]. unfold may_retire in Em. rewrite !andb_true_iff in Em.
      destruct Em as [[[_ Hreach] _] _]. destruct (Hp at_ p Ht Hheld) as [Hle|?]; [|congruence].
      unfold config_reaches in Hno. destruct (stored_at _); [|done]. apply bool_decide_eq_true in Hreach.
      apply bool_decide_eq_false in Hno. lia.
    + intros s' core' raft Hs'. destruct (kept_restart _ _ Hk Hs') as (Happ & Hraft' & _ & Hheld').
      assert (promotion s' = Some p) as Hprom' by (unfold promotion in *; by rewrite Hheld', Hraft').
      unfold start_node, starts_as_core. rewrite Hprom'. cbn. eexists. split; [done|]. cbn. split_and!; [done| |done].
      unfold first_task. cbn. by rewrite Hprom'.
Qed.
(** ** What lands on the blanking

    Promoted while a batch it follows is on the blocking pool, a node blanks
    its projection and starts its Raft, and the batch lands afterwards: in
    memory the projection is blank, as Raft replays the log into it, and the
    disk has the batch's. A restart then is at the promotion again, and starts
    its Raft over a projection that is not blank. *)
Theorem stopped_batch_lands_on_the_blanking me r w raft raft' core' :
  role_me r = me → role_task r = TakingSeat → follow_runs r = true → follow_at r = Writing w →
  is_core (announced (role_store r)) me = true → role_lingering r = [] → stored_at (membership (written w)) = None →
  let taken := take_the_seat true (Some raft) r in
  ∃ landed s' restarted, role_run false true r taken ∧ role_step false true taken ByStopped landed ∧
    role_seat landed = Some raft ∧ applied (role_store landed) = new_applied ∧
    from_database (disk (role_store landed)) = Ok s' ∧ applied s' = written w ∧
    promotion s' = Some (promotion_for me (role_store r)) ∧
    start_node me s' core' (Some raft') = Some restarted ∧ role_seat restarted = Some raft' ∧
    applied (role_store restarted) = written w.
Proof.
  intros <- Ht Hf Ha Hc Hl Hnever taken. pose proof (taking_runs true true (λ _, eq_refl) (Some raft) r Ht) as Hrun. fold taken in Hrun.
  assert (role_seat taken = Some raft ∧ applied (role_store taken) = new_applied ∧ role_lingering taken = [Writing w] ∧
    disk_promotion (disk (role_store taken)) = Some (Some (promotion_for (role_me r) (role_store r)))) as (Hs & Hn & Hlin & Hprom).
  { unfold taken. rewrite take_the_seat_whole. cbv zeta. rewrite Hc. unfold prepare_promotion, reset_projection, write_txn. run.
    rewrite Hf, Hl, Ha. match goal with |- context [announce new_state ?x] => pose proof (announce_fields new_state x) as (-> & -> & _) end.
    match goal with |- context [announce_raft no_stored_membership ?x] =>
      pose proof (announce_raft_fields no_stored_membership x) as (-> & -> & _) end. by split_and!. }
  set (landed := with_follow (follow_runs taken) (follow_at taken) ([] ++ option_list None ++ []) (with_store (commit_followed w (role_store taken)) taken)).
  assert (role_step false true taken ByStopped landed) as Hstep.
  { exact (StoppedEnds false true taken [] (Writing w) [] None _ eq_refl Hlin (Lands true w _ eq_refl)). }
  destruct (from_database (disk (role_store landed))) as [s'|e] eqn:Ed; cycle 1.
  { unfold from_database in Ed. cbn in Ed. by rewrite Hlaw in Ed. }
  assert (applied s' = written w ∧ promotion s' = Some (promotion_for (role_me r) (role_store r))) as [Hw Hp].
  { unfold from_database in Ed. cbn in Ed. rewrite Hlaw in Ed. injection Ed as <-. split; [done|].
    unfold promotion. cbn. rewrite Hprom. cbn. by rewrite Hnever. }
  assert (∃ restarted, start_node (role_me r) s' core' (Some raft') = Some restarted ∧ role_seat restarted = Some raft' ∧ role_store restarted = s')
    as (restarted & Hstart & Hseat & Hstore).
  { unfold start_node, starts_as_core. rewrite Hp. by eexists. }
  exists landed, s', restarted. rewrite Hstore. by split_and!.
Qed.
End props.

(** ** A voter that stands down and a follower that is promoted

    Over the openraft of [CoreGroupFixtures] and the Raft of
    [MemberlogFixtures]. *)

#[local] Existing Instance plain_openraft.
#[local] Existing Instance plain_config.
#[local] Existing Instance plain_config_laws.
#[local] Existing Instance plain_rpc.
#[local] Existing Instance plain_postcard.

Lemma plain_law (a : PlainApplied) : decode_applied (encode_applied a) = Some a.
Proof. apply decode_encode. Qed.

(** The log lists [core_] as the core of 1 and 2, changed at 5. *)
Definition group_with (core_ : gmap MemberId NodeAddr) : MembershipState := {|
  group := Some (MkGroupId (id32 1));
  members := <[member 1 := record_of (profile 1) 0 1]> (<[member 2 := record_of (profile 2) 0 1]> ∅);
  core := core_; pending := ∅; changed_at := 5; settings := default_settings; protocol := 1;
|}.
Definition applied_with (core_ : gmap MemberId NodeAddr) (config : StoredMembership) : PlainApplied :=
  {| last_applied := None; membership := config; state := group_with core_; followed_upto := 5 |}.
Definition disk_with (a : PlainApplied) : Disk := put_applied (encode_applied a) empty_disk.
Definition opened (a : PlainApplied) : Store := {|
  disk := disk_with a; applied := a; snapshot_seq := 0; generation := 0;
  announced := state a; announced_raft := membership a; promotion_held := None |}.

Lemma opens a : from_database (disk_with a) = Ok (opened a).
Proof. unfold from_database, disk_with. cbn [disk_applied put_applied]. by rewrite plain_law. Qed.

Definition a_raft : @Raft _ _ _ plain_rpc := (3%N, before).
Definition nobody_forgets : MemberId → NodeAddr → bool := λ _ _, false.

(** ** 1 votes with 2, and the log has only 2 *)

Definition only_2 : gmap MemberId NodeAddr := <[member 2 := placed 2]> ∅.
Definition logged (index : N) : PlainLogId := @Build_LogId test_crypto plain_openraft 1%N index.
Definition voting : Store := opened (applied_with only_2 {| stored_at := Some (logged 10); stored_config := before |}).
Definition without_1 : RaftMembership := ([{[member 2]} : gset MemberId], only_2).
Definition removal : Entry := {| log_id := logged 11; payload := Reconfigured without_1 |}.
Definition seated_1 : Role :=
  let r := MkRole (member 1) voting (Some a_raft) ∅ {| sources_core := initial_sources voting []; sources_leader := None |}
    false Fetching [] false false TakingSeat in
  with_task (first_task r) (start_first_role r).
Definition removed_1 : Role := with_seat (Some a_raft) (with_store (apply_batch [removal] true (role_store seated_1)).1 seated_1).

Lemma seated_1_starts : start_node (member 1) voting [] (Some a_raft) = Some seated_1.
Proof.
  unfold start_node. assert (starts_as_core voting (member 1) [] = true) as -> by (vm_compute; reflexivity). reflexivity.
Qed.

Lemma removal_goes_forward : goes_forward (role_store seated_1) (apply_batch [removal] true (role_store seated_1)).1.
Proof.
  intros n. change (config_reaches (role_store seated_1) n) with (bool_decide (n ≤ 10)%N). intros Hn%bool_decide_eq_true.
  change (config_reaches (apply_batch [removal] true (role_store seated_1)).1 n) with (bool_decide (n ≤ 11)%N).
  apply bool_decide_eq_true. lia.
Qed.

Lemma removed_1_run : role_run true true seated_1 removed_1.
Proof.
  eapply RoleRuns; [apply RoleAtRest|intros _; reflexivity|]. apply RaftApplies with a_raft; [reflexivity|apply removal_goes_forward].
Qed.

Lemma retired_stays_retired_witness :
  (let r' := role_turn true None nobody_forgets removed_1 in
   bool_decide (is_Some (role_seat removed_1)) && follow_runs r' && negb (bool_decide (is_Some (role_seat r')))) = true ∧
  ∀ s' core', from_database (disk (role_store (role_turn true None nobody_forgets removed_1))) = Ok s' →
    starts_as_core s' (member 1) core' = false.
Proof.
  split; [vm_compute; reflexivity|].
  apply (retired_stays_retired plain_law (disk_with (applied_with only_2 {| stored_at := Some (logged 10); stored_config := before |}))
    (member 1) voting [] (Some a_raft) seated_1 removed_1 None nobody_forgets (opens _) seated_1_starts removed_1_run).
  split; [by eexists|reflexivity].
Defined.

(** ** 1 follows 2, and the log promotes it *)

Definition no_config : @StoredMembership test_crypto plain_openraft := no_stored_membership.
Definition watching : Store := opened (applied_with only_2 no_config).
Definition following_1 : Role :=
  let r := MkRole (member 1) watching None ∅ {| sources_core := initial_sources watching []; sources_leader := None |}
    false Fetching [] false false TakingSeat in
  with_task (first_task r) (start_first_role r).
Definition promotes_1 : list (N * SignedEvent) :=
  [(6%N, signed_by 2 5 (CoreGroupChanged [(member 1, placed 1); (member 2, placed 2)]))].
Definition promoted_1 : Role :=
  with_sources (role_sources following_1) (with_store (apply_followed 6 promotes_1 true (role_store following_1)).1 following_1).

Lemma following_1_starts : start_node (member 1) watching [] (Some a_raft) = Some following_1.
Proof.
  unfold start_node. assert (starts_as_core watching (member 1) [] = false) as -> by (vm_compute; reflexivity). reflexivity.
Qed.

Lemma promoted_1_run : role_run true true following_1 promoted_1.
Proof.
  eapply RoleRuns; [apply RoleAtRest|intros _; reflexivity|]. apply Follows; reflexivity.
Qed.

(** It is at the batch of 7 when the role task wakes. *)
Definition founded_7 : list (N * SignedEvent) := [(7%N, signed_by 2 6 (CoreGroupChanged [(member 1, placed 1)]))].
Definition writing_1 : Role :=
  with_follow true (Writing (fold_followed 7 founded_7 (role_store promoted_1)).2) (role_lingering promoted_1)
    (with_sources (role_sources promoted_1) (with_store (fold_followed 7 founded_7 (role_store promoted_1)).1 promoted_1)).
Definition taken_1 : Role := take_the_seat true (Some a_raft) writing_1.

Lemma writing_1_run : role_run false true following_1 writing_1.
Proof.
  eapply RoleRuns; [apply settled_runs_are_runs, promoted_1_run|intros _; reflexivity|].
  refine (FollowFolds false true promoted_1 7 founded_7 (role_sources promoted_1) _ _ _); reflexivity.
Qed.

Lemma taken_1_run : role_run false true following_1 taken_1.
Proof. eapply role_run_trans; [apply writing_1_run|]. apply taking_runs; [done|]. vm_compute. reflexivity. Qed.


Lemma stopped_batch_lands_on_the_blanking_witness :
  (match follow_at writing_1 with Writing w => bool_decide (changed_at (state (written w)) = 7%N) | _ => false end) = true ∧
  ∃ landed, role_step false true (take_the_seat true (Some a_raft) writing_1) ByStopped landed ∧ role_seat landed = Some a_raft.
Proof.
  split; [vm_compute; reflexivity|].
  edestruct (stopped_batch_lands_on_the_blanking plain_law (member 1) writing_1
    (fold_followed 7 founded_7 (role_store promoted_1)).2 a_raft a_raft [])
    as (landed & s' & restarted & _ & Hstep & Hseat & _); [reflexivity..|vm_compute; reflexivity|reflexivity|reflexivity|].
  by exists landed.
Defined.

(** It trusts 2, who lists it, and itself. *)
Lemma promotion_holds_until_caught_up_witness :
  (let r' := role_turn true (Some a_raft) nobody_forgets promoted_1 in
   bool_decide (role_trusted r' = {[member 1; member 2]}) && negb (follow_runs r') &&
   match role_task r' with Seated 6 => true | _ => false end) = true ∧
  role_seat (role_turn true (Some a_raft) nobody_forgets promoted_1) = Some a_raft.
Proof.
  split; [vm_compute; reflexivity|].
  refine (proj1 (proj1 (promotion_holds_until_caught_up plain_law (disk_with (applied_with only_2 no_config))
    (member 1) watching [] (Some a_raft) following_1 promoted_1 None nobody_forgets (opens _) following_1_starts promoted_1_run) a_raft _ _)).
  - reflexivity.
  - vm_compute. reflexivity.
Defined.
