(* ===== verification/Enforcing.v ===== *)
(** * The log's membership, carried to the endpoint

    [follow_membership] and what it starts from, in
    [crates/distlib-consensus/src/node.rs], over the hooks and the address book
    of [distlib-net]. A turn reads what is published of the store one watch
    after the other, and another task may publish in between, so it has the
    store as it was when the membership was read, and as it was after. *)

From S2P Require Import Prelude Ids GroupSettings Events Membership Fixtures RaftLog RaftState Follower CoreGroup CoreGroupProps CoreGroupFixtures Heartbeats HeartbeatFixtures Directory Hooks Blobs Links RaftNetwork MemberlogProps Roles RolesProps.

(** [alpns], with [PING] and [GOSSIP_ALPN] of [alpn.rs] and iroh-gossip. *)
Definition PING : string := "distlib/ping/0".
Definition alpns (GOSSIP_ALPN MEMBERLOG : string) : list string := [PING; GOSSIP_ALPN; RAFT; MEMBERLOG].

Section enforcing.
Context `{RaftRpc} `{!Postcard} `{!HeartbeatCodec} `{Lookup}.

(** The state of [follow_membership], with the hooks and the address book it
    writes and the membership it publishes. *)
Record Enforcer : Type := MkEnforcer {
  enf_hooks : Hooks;
  enf_book : MemoryLookup;
  published : gmap MemberId NodeAddr;
  enforced : MembershipState;
}.

(** [install_address_book_and_client] of the book, and [enforce_membership]. *)
Definition install_address_book (core_ : list (MemberId * NodeAddr)) : MemoryLookup := learn_all core_ empty_lookup.
Definition enforce_membership (s : Store) (core_ : list (MemberId * NodeAddr)) (h : Hooks) : Enforcer :=
  MkEnforcer h (install_address_book core_) ∅ (current s).

(** [let_go_of_the_moved]. *)
Definition has_moved_from (published : gmap MemberId NodeAddr) (member : MemberId) (addr : NodeAddr) : bool :=
  match published !! member with Some was => bool_decide (was ≠ addr) | None => false end.
Definition let_go_of_the_moved (published core : gmap MemberId NodeAddr) (h : Hooks) : Hooks :=
  foldl (λ h e, if has_moved_from published e.1 e.2 then (close_connections_to e.1 h).1 else h) h (map_entries core).

(** Who may speak Raft without being a member. *)
Definition raft_peers_of (s : Store) : gset MemberId :=
  list_to_set (omap (λ e, member_of_raw e.1) (map_to_list (raft_nodes (published_config s)))) ∪
  match promotion s with Some p => promotion_voters p | None => ∅ end.

Definition is_replaying (seen : MembershipState) (s : Store) : bool :=
  match promotion s with Some p => bool_decide (changed_at seen < promotion_at p)%N | None => false end.

(** A turn of [follow_membership]. *)
Definition enforce_turn (early late : Store) (e : Enforcer) : Enforcer :=
  let seen := announced early in
  let h := set_raft_peers (raft_peers_of late) (enf_hooks e) in
  let replaying := is_replaying seen late in
  let enforced_ := if negb replaying then seen else enforced e in
  if bool_decide (is_Some (group seen)) && negb replaying then
    let core_ := core (current late) in
    let book := learn_all (core_addresses late) (enf_book e) in
    let h := let_go_of_the_moved (published e) core_ h in
    MkEnforcer (replace (list_to_set (allowlist seen)) h) book core_ enforced_
  else MkEnforcer h (enf_book e) (published e) enforced_.
End enforcing.

(** ** What is enforced is what the log says

    A turn that is not replaying a promotion admits the log's members and
    nobody else, lets go of whom it moved, and only then says so; a replay
    changes nothing of it, unless it ends between two reads. *)

(** ** Letting go *)

Definition movers (published core : gmap MemberId NodeAddr) : list MemberId :=
  (filter (λ e, has_moved_from published e.1 e.2 = true) (map_entries core)).*1.

Lemma let_go_steps published core h :
  let_go_of_the_moved published core h = foldl hook_step h (Moved <$> movers published core).
Proof.
  unfold let_go_of_the_moved, movers. revert h. induction (map_entries core) as [|e l IH]; intros h; [done|].
  rewrite filter_cons. cbn [foldl]. destruct (has_moved_from published e.1 e.2) eqn:Em.
  - rewrite decide_True by done. cbn [fmap list_fmap foldl hook_step]. apply IH.
  - rewrite decide_False by done. apply IH.
Qed.

Lemma elem_of_movers published core m :
  m ∈ movers published core ↔ ∃ was now, published !! m = Some was ∧ core !! m = Some now ∧ was ≠ now.
Proof.
  unfold movers. rewrite list_elem_of_fmap. split.
  - intros ([k now] & -> & [Hm Hin]%list_elem_of_filter). apply elem_of_map_entries in Hin. unfold has_moved_from in Hm. cbn in *.
    destruct (published !! k) as [was|] eqn:Ep; [|done]. apply bool_decide_eq_true in Hm. by exists was, now.
  - intros (was & now & Hp & Hc & Hne). exists (m, now). split; [done|]. apply list_elem_of_filter.
    split; [|by apply elem_of_map_entries]. unfold has_moved_from. cbn. rewrite Hp. by apply bool_decide_eq_true.
Qed.

Lemma moved_rest p h :
  self_id (close_connections_to p h).1 = self_id h ∧ allowed (close_connections_to p h).1 = allowed h ∧
  raft_peers (close_connections_to p h).1 = raft_peers h.
Proof. unfold close_connections_to. simpl. pose proof (foldr_close_rest MOVED (filter (handle_is_live h) (default [] (connections h !! p))) h). tauto. Qed.

Lemma moved_live l p h n c :
  watched_but l h → n ∉ l → conns (close_connections_to p h).1 !! n = Some c → conn_is_live c = true →
  conns h !! n = Some c ∧ conn_peer c ≠ p.
Proof.
  intros [Hl _] Hno Hc Hlive. unfold close_connections_to in Hc. simpl in Hc. apply live_after_close in Hc as [Hc Hn]; [|done].
  split; [done|]. intros <-. apply Hn. apply list_elem_of_filter. split; [|by apply Hl].
  unfold handle_is_live, upgrade. by rewrite Hc, Hlive.
Qed.

Lemma moves_spec l ps h :
  watched_but l h → handles_known h →
  let h' := foldl hook_step h (Moved <$> ps) in
  watched_but l h' ∧ handles_known h' ∧ self_id h' = self_id h ∧ allowed h' = allowed h ∧ raft_peers h' = raft_peers h ∧
  ∀ n c, n ∉ l → conns h' !! n = Some c → conn_is_live c = true → conns h !! n = Some c ∧ conn_peer c ∉ ps.
Proof.
  revert h. induction ps as [|p ps IH]; intros h Hw Hk; cbn [fmap list_fmap foldl].
  - split_and!; try done. intros n c _ Hc Hlive. split; [done|]. by intros ?%elem_of_nil.
  - destruct (hook_step_watched l (Moved p) h Hw Hk) as [Hw' Hk']. pose proof (moved_rest p h) as (Hs & Ha & Hr).
    destruct (IH _ Hw' Hk') as (Hw2 & Hk2 & Hs2 & Ha2 & Hr2 & Hlive2). cbn [hook_step] in *.
    split_and!; [done|done|by rewrite Hs2|by rewrite Ha2|by rewrite Hr2|].
    intros n c Hno Hc Hlive. apply Hlive2 in Hc as [Hc Hn]; [|done|done]. apply (moved_live l) in Hc as [Hc Hne]; [|done..].
    split; [done|]. intros [?|?]%elem_of_cons; done.
Qed.

Section props.
Context `{RaftRpc} `{!Postcard} `{!HeartbeatCodec} `{Lookup}.

Lemma set_raft_peers_watched l peers h :
  watched_but l h → handles_known h → watched_but l (set_raft_peers peers h) ∧ handles_known (set_raft_peers peers h).
Proof. intros Hw Hk. exact (hook_step_watched l (RaftPeers peers) h Hw Hk). Qed.

(** C13: A turn of enforcement reads the membership first, and what it makes of
    the rest afterwards, maybe of a later store. If it has read a group, and is
    then not within the replay of a promotion, it admits that membership's
    members and nobody else, calls it the membership, and, once the evictions
    have run, whoever has a connection open, of those open before and recorded by the
    hooks, is this node, a member by it, or speaks Raft and is a node of Raft's applied
    configuration or a voter of a promotion in force; and no connection is left
    to a core member that the log now places elsewhere than when it was last
    looked at. Without a group, or within a replay, it changes nothing of whom
    the node admits but who may speak Raft, where it dials and what it holds
    open; and within a replay nothing of what it calls the membership. A replay
    that ends between the two reads has an older membership enforced until the
    next turn ([replay_may_be_enforced]). *)
Theorem enforcement_follows_the_log early late halfway e :
  watched_but halfway (enf_hooks e) → handles_known (enf_hooks e) →
  let seen := announced early in let e' := enforce_turn early late e in
  raft_peers (enf_hooks e') = raft_peers_of late ∧
  (is_Some (group seen) ∧ is_replaying seen late = false →
    enforced e' = seen ∧ published e' = core (current late) ∧ allowed (enf_hooks e') = dom (members seen) ∧
    ∀ n c, n ∉ halfway → conns (evict_once (enf_hooks e')) !! n = Some c → conn_is_live c = true →
      (conn_peer c = self_id (enf_hooks e) ∨ is_member seen (conn_peer c) = true ∨
       conn_alpn c = RAFT ∧ conn_peer c ∈ raft_peers_of late) ∧
      conns (enf_hooks e) !! n = Some c ∧
      ∀ was, published e !! conn_peer c = Some was → default was (core (current late) !! conn_peer c) = was) ∧
  (group seen = None ∨ is_replaying seen late = true →
    published e' = published e ∧ enf_book e' = enf_book e ∧ allowed (enf_hooks e') = allowed (enf_hooks e) ∧
    conns (enf_hooks e') = conns (enf_hooks e) ∧ connections (enf_hooks e') = connections (enf_hooks e) ∧
    enforced e' = if is_replaying seen late then enforced e else seen).
Proof.
  intros Hw Hk seen e'. subst e'. unfold enforce_turn. fold seen.
  destruct (set_raft_peers_watched halfway (raft_peers_of late) _ Hw Hk) as [Hw1 Hk1].
  destruct (moves_spec halfway (movers (published e) (core (current late))) _ Hw1 Hk1) as (Hw2 & Hk2 & Hs2 & Ha2 & Hr2 & Hlive).
  set (replaying := is_replaying seen late). split_and!.
  - destruct (_ && _); cbn [enf_hooks replace raft_peers]; [|done]. by rewrite let_go_steps, Hr2.
  - intros [Hg ->]. rewrite bool_decide_true by done. cbn [negb andb enforced published enf_hooks].
    set (members_ := list_to_set (allowlist seen) : gset MemberId).
    assert (members_ = dom (members seen)) as Hm.
    { unfold members_, allowlist. apply set_eq. intros m. rewrite elem_of_list_to_set, elem_of_map_keys. by rewrite elem_of_dom. }
    rewrite let_go_steps. set (h2 := foldl hook_step _ _) in *. split_and!; [done|done|exact Hm|]. intros n c Hno Hc Hl.
    assert (watched_but halfway (replace members_ h2)) as Hw3 by (exact (proj1 (hook_step_watched halfway (Replaced members_) h2 Hw2 Hk2))).
    apply (evict_live halfway) in Hc as [Hc Hadm]; [|done|done]. specialize (Hadm Hno). destruct (Hlive n c Hno Hc Hl) as [Hc0 Hnm]. split_and!; [|exact Hc0|].
    + unfold admits, is_allowed in Hadm. cbn [self_id allowed raft_peers replace] in Hadm. rewrite Hs2, Hr2 in Hadm. cbn [set_raft_peers self_id raft_peers] in Hadm.
      rewrite !orb_true_iff, andb_true_iff, !bool_decide_eq_true in Hadm. destruct Hadm as [[?|Hin]|?]; [by left| |by right; right].
      right. left. rewrite Hm, elem_of_dom in Hin. by apply bool_decide_eq_true.
    + intros was Hwas. destruct (core (current late) !! conn_peer c) as [now|] eqn:En; [|done]. cbn.
      destruct (decide (now = was)) as [|Hne]; [done|]. destruct Hnm. apply elem_of_movers. exists was, now. done.
  - intros [Hg|Hr].
    + rewrite bool_decide_false by (rewrite Hg; by intros []). by destruct replaying.
    + rewrite Hr, andb_false_r. by split_and!.
Qed.

(** A turn reads the membership first and whether it replays last. When a
    batch of entries that ends a replay is applied in between, the older
    membership that was read is enforced as if it were the group's: whoever was
    a member then, though expelled since, is admitted, and called a member. *)
Theorem replay_may_be_enforced early entries p e m (Hlaw : ∀ a, decode_applied (encode_applied a) = Some a) :
  kept early → promotion early = Some p → (changed_at (announced early) < promotion_at p)%N →
  is_Some (group (announced early)) → is_member (announced early) m = true →
  let late := (apply_batch entries true early).1 in
  config_reaches late (promotion_at p) = true →
  is_replaying (announced early) early = true ∧
  enforced (enforce_turn early late e) = announced early ∧ is_allowed (enf_hooks (enforce_turn early late e)) m = true.
Proof.
  intros Hk Hp Hlt Hg Hm late Hreach. split.
  - unfold is_replaying. rewrite Hp. by apply bool_decide_eq_true.
  - assert (promotion late = None) as Hl.
    { assert (promotion_held early = Some p) as Hheld.
      { unfold promotion in Hp. destruct (promotion_held early) as [q|]; [|done]. cbn in Hp.
        destruct (stored_at _); [case_bool_decide; [|done]|]; by injection Hp as ->. }
      apply (promotion_none late p); [|done]. unfold late. by rewrite (proj2 (kept_apply_batch Hlaw entries early Hk)). }
    unfold enforce_turn, is_replaying. rewrite Hl, bool_decide_true by done. cbn [negb andb enforced enf_hooks]. split; [done|].
    unfold is_allowed. apply orb_true_iff. right. cbn [allowed replace]. apply bool_decide_eq_true.
    apply elem_of_list_to_set, elem_of_map_keys. by apply bool_decide_eq_true in Hm.
Qed.
End props.

(** ** Concrete turns *)

#[local] Existing Instance plain_openraft.
#[local] Existing Instance plain_config.
#[local] Existing Instance plain_rpc.
#[local] Existing Instance plain_postcard.

(** 1 enforces what it has of the group of 1 and 2; 3 is connected. *)
Definition connected_hooks : Hooks :=
  (hook_run (new_hooks (member 1) {[member 2; member 3]})
    [Connected 0 (member 3) "blobs" 5; Connected 1 (member 2) "blobs" 5]).1.
Definition enforcer_1 : Enforcer := enforce_membership watching [(member 2, placed 2)] connected_hooks.

Lemma connected_ok : watched connected_hooks ∧ handles_known connected_hooks.
Proof. apply (run_watched (member 1)). Qed.

Definition open_conns (h : Hooks) : list N := (filter (λ e, conn_is_live e.2 = true) (map_to_list (conns h))).*1.

(** Promoted at 6, 1 has come to the membership of 5 again. *)
Definition replaying_1 : Store := {|
  disk := put_promotion (Some {| promotion_at := 6; promotion_voters := {[member 2]} |}) (disk_with (applied_with only_2 no_config));
  applied := applied_with only_2 no_config; snapshot_seq := 0; generation := 0;
  announced := group_with only_2; announced_raft := no_config;
  promotion_held := Some {| promotion_at := 6; promotion_voters := {[member 2]} |} |}.

Lemma enforcement_follows_the_log_witness :
  (let e' := enforce_turn watching watching enforcer_1 in
   bool_decide (open_conns (enf_hooks enforcer_1) ≡ₚ [0; 1]%N) && bool_decide (open_conns (evict_once (enf_hooks e')) = [1%N])) = true ∧
  (enforced (enforce_turn watching watching enforcer_1) = announced watching ∧
  ∀ c, conns (evict_once (enf_hooks (enforce_turn watching watching enforcer_1))) !! 1%N = Some c → conn_is_live c = true →
    conns connected_hooks !! 1%N = Some c) ∧
  is_replaying (announced replaying_1) replaying_1 = true ∧
  allowed (enf_hooks (enforce_turn replaying_1 replaying_1 enforcer_1)) = allowed (enf_hooks enforcer_1).
Proof.
  split; [vm_compute; reflexivity|]. split; [|split; [reflexivity|]]; cycle 1.
  { destruct (enforcement_follows_the_log replaying_1 replaying_1 [] enforcer_1 (proj1 connected_ok) (proj2 connected_ok)) as (_ & _ & Hrest).
    by destruct (Hrest (or_intror eq_refl)) as (_ & _ & Ha & _). }
  destruct (enforcement_follows_the_log watching watching [] enforcer_1 (proj1 connected_ok) (proj2 connected_ok)) as (_ & Hall & _).
  destruct Hall as (He & _ & _ & Hc); [split; [by eexists|reflexivity]|]. split; [exact He|].
  intros c Hn Hl. by destruct (Hc 1%N c (not_elem_of_nil _) Hn Hl) as (_ & ? & _).
Defined.

(** 2 is expelled at 7, and the configuration of 11 ends the replay. *)
Definition rest_of_the_log : list Entry := [removal].
Lemma replay_may_be_enforced_witness :
  config_reaches (apply_batch rest_of_the_log true replaying_1).1 6 = true ∧
  is_allowed (enf_hooks (enforce_turn replaying_1 (apply_batch rest_of_the_log true replaying_1).1 enforcer_1)) (member 2) = true.
Proof.
  split; [reflexivity|].
  refine (proj2 (proj2 (replay_may_be_enforced replaying_1 rest_of_the_log {| promotion_at := 6; promotion_voters := {[member 2]} |}
    enforcer_1 (member 2) plain_law _ _ _ _ _ _))); try reflexivity; [|by eexists].
  split; [reflexivity|]. split; [reflexivity|]. split; [|reflexivity]. right. eexists. split; [reflexivity|]. apply plain_law.
Defined.
