(* ===== verification/Coverage.v ===== *)
(** * Coverage: what the other custodians announce of what this node holds

    [crates/distlib-custody/src/coverage.rs]. A count is a [usize] of items held
    in memory and cannot overflow, so it is a [nat]. The task that repeats the
    count is [run]: a count that fails leaves the last one in place. *)

From S2P Require Import Prelude Ids GroupSettings Events Membership Custody CustodyProps CustodyView CustodyFixtures Fixtures.

Record MemberCoverage : Type := MkCoverage { expected : nat; announced : nat }.
Definition default_coverage : MemberCoverage := MkCoverage 0 0.

Definition is_low (c : MemberCoverage) : bool := bool_decide (announced c < expected c).

(** [to_judge]. *)
Definition to_judge (online : list MemberId) (knows_holdings_of : MemberId → bool)
  : gset MemberId := list_to_set (filter (λ m, knows_holdings_of m = true) online).

Section coverage.
Context `{Placement}.
Implicit Types (g : CustodyGroup) (judged : gset MemberId) (counted : gmap MemberId MemberCoverage).

(** The body of the inner loop. *)
Definition count_one (announced_by : list MemberId) counted (custodian : MemberId)
  : gmap MemberId MemberCoverage :=
  let coverage := default default_coverage (counted !! custodian) in
  <[custodian := MkCoverage (S (expected coverage))
      (if bool_decide (custodian ∈ announced_by) then S (announced coverage)
       else announced coverage)]> counted.

Definition count_item (select : nat → list Ranked → list Ranked) g judged
    (holders : ItemId → list MemberId) counted (item : CustodyItem) : gmap MemberId MemberCoverage :=
  foldl (count_one (holders (custody_item item))) counted
    (filter (λ m, m ∈ judged) (custodians select g item)).

(** [count]: [counted] starts with every judged member, at nothing. *)
Definition count (select : nat → list Ranked → list Ranked) g (held : list (CustodyItem * N))
    judged (holders : ItemId → list MemberId) (old_enough : N → bool)
  : gmap MemberId MemberCoverage :=
  foldl (count_item select g judged holders) (gset_to_gmap default_coverage judged)
    (filter (λ e, old_enough e.2 = true) held).*1.

(** [count_now]: [custody.assignments] of what is held gives the group and
    since when each item has its custodians; the store is asked about each
    item, and a failure of it ends the count. *)
Fixpoint stored_items {E} (item : ItemId → E + option CustodyItem) (since : list (ItemId * N))
  : E + list (CustodyItem * N) :=
  match since with
  | [] => inr []
  | (id, at') :: rest =>
      match item id with
      | inl e => inl e
      | inr stored =>
          match stored_items item rest with
          | inl e => inl e
          | inr held => inr (match stored with Some i => (i, at') :: held | None => held end)
          end
      end
  end.

(** [Custody::assignments] of [lib.rs]. *)
Definition assignments (view : option CustodyView) (items : list ItemId)
  : option (CustodyGroup * list (ItemId * N)) :=
  view ← view;
  Some (view_group view, omap (λ item, (λ since, (item, since)) <$> assigned_since view item) items).

Definition count_now {E} (select : nat → list Ranked → list Ranked)
    (assignments : option (CustodyGroup * list (ItemId * N))) (max_settle now : N)
    (online : list MemberId) (knows_holdings_of : MemberId → bool)
    (item : ItemId → E + option CustodyItem) (holders : ItemId → list MemberId)
  : E + gmap MemberId MemberCoverage :=
  match assignments with
  | None => inr ∅
  | Some (g, since) =>
      match stored_items item since with
      | inl e => inl e
      | inr held =>
          inr (count select g held (to_judge online knows_holdings_of) holders
                 (λ since, bool_decide (max_settle ≤ now - since)%N))
      end
  end.

(** One turn of [run]: what the inner map is after it. *)
Definition recount {E} (result : E + gmap MemberId MemberCoverage) counted
  : gmap MemberId MemberCoverage :=
  match result with inl _ => counted | inr counted' => counted' end.

(** [Coverage::of] and [Coverage::low]. *)
Definition coverage_of counted (m : MemberId) : option MemberCoverage := counted !! m.
Definition low counted : gset MemberId := dom (filter (λ e, is_low e.2 = true) counted).

(** ** What one item adds *)

Definition charged (adds exp : bool) (c : MemberCoverage) : MemberCoverage :=
  MkCoverage (Nat.b2n exp + expected c) (Nat.b2n (exp && adds) + announced c).

Lemma count_one_lookup by_ counted c m :
  c ∈ dom counted →
  count_one by_ counted c !! m =
    charged (bool_decide (m ∈ by_)) (bool_decide (m = c)) <$> counted !! m.
Proof.
  intros [x Hx]%elem_of_dom. unfold count_one. rewrite Hx. cbn [default].
  destruct (decide (m = c)) as [->|Hne].
  - rewrite lookup_insert_eq, Hx. cbn. unfold charged.
    rewrite (bool_decide_true (c = c)) by done. by case_bool_decide.
  - rewrite lookup_insert_ne by done. rewrite (bool_decide_false (m = c)) by done.
    by destruct (counted !! m) as [[]|].
Qed.

Lemma charge_each by_ l counted m :
  NoDup l → (∀ c, c ∈ l → c ∈ dom counted) →
  foldl (count_one by_) counted l !! m =
    charged (bool_decide (m ∈ by_)) (bool_decide (m ∈ l)) <$> counted !! m.
Proof.
  revert counted. induction l as [|c l IH]; intros counted Hnd Hdom; cbn [foldl].
  { rewrite (bool_decide_false (m ∈ [])) by apply not_elem_of_nil.
    by destruct (counted !! m) as [[]|]. }
  apply NoDup_cons in Hnd as [Hc Hnd].
  pose proof (count_one_lookup by_ counted c) as Hone.
  assert (Hin : c ∈ dom counted) by (apply Hdom; left).
  rewrite IH; [|done|].
  - rewrite Hone by done. destruct (counted !! m) as [[e a]|]; [|done]. cbn. f_equal.
    unfold charged; cbn. destruct (decide (m = c)) as [->|Hne].
    + rewrite (bool_decide_false (c ∈ l)), (bool_decide_true (c = c)) by done.
      by rewrite (bool_decide_true (c ∈ c :: l)) by left.
    + rewrite (bool_decide_false (m = c)) by done. cbn.
      rewrite (bool_decide_ext (m ∈ c :: l) (m ∈ l)); [done|]. rewrite elem_of_cons. tauto.
  - intros c' Hc'. apply elem_of_dom. rewrite Hone by done.
    apply fmap_is_Some, elem_of_dom, Hdom. by right.
Qed.

Lemma count_item_lookup select g judged holders counted item m :
  selects select → distinct_group g → dom counted = judged →
  count_item select g judged holders counted item !! m =
    charged (bool_decide (m ∈ holders (custody_item item)))
      (bool_decide (m ∈ custodians select g item)) <$> counted !! m.
Proof.
  intros Hsel Hd Hdom. unfold count_item. rewrite charge_each.
  - destruct (counted !! m) as [x|] eqn:E; [|done]. cbn. do 2 f_equal.
    apply bool_decide_ext. rewrite list_elem_of_filter.
    assert (m ∈ judged) by (rewrite <-Hdom; by eapply elem_of_dom_2). tauto.
  - apply NoDup_filter. by apply custodians_NoDup.
  - intros c [Hc _]%list_elem_of_filter. by rewrite Hdom.
Qed.

Lemma charged_dom (f : MemberId → MemberCoverage → MemberCoverage) counted counted' :
  (∀ m, counted' !! m = f m <$> counted !! m) → dom counted' = dom counted.
Proof.
  intros Hl. apply set_eq. intros m. rewrite !elem_of_dom, Hl. apply fmap_is_Some.
Qed.

(** How many of [items] a test holds of. *)
Definition how_many (p : CustodyItem → bool) (items : list CustodyItem) : nat :=
  length (filter (λ i, p i = true) items).

Lemma how_many_cons p i items : how_many p (i :: items) = Nat.b2n (p i) + how_many p items.
Proof. unfold how_many. cbn. destruct (p i); by case_decide. Qed.

Lemma count_items select g judged holders items counted m :
  selects select → distinct_group g → dom counted = judged →
  foldl (count_item select g judged holders) counted items !! m =
    (λ c, MkCoverage
      (how_many (λ i, bool_decide (m ∈ custodians select g i)) items + expected c)
      (how_many (λ i, bool_decide (m ∈ custodians select g i) &&
                      bool_decide (m ∈ holders (custody_item i))) items + announced c))
    <$> counted !! m.
Proof.
  intros Hsel Hd. revert counted. induction items as [|i items IH]; intros counted Hdom; cbn [foldl].
  { by destruct (counted !! m) as [[]|]. }
  pose proof (count_item_lookup select g judged holders counted i) as Hone.
  rewrite IH.
  - rewrite Hone by done. destruct (counted !! m) as [[e a]|]; [|done].
    rewrite !how_many_cons. unfold charged; cbn [fmap option_fmap option_map expected announced].
    do 2 f_equal; lia.
  - trans (dom counted); [|done]. apply (charged_dom (λ m, charged (bool_decide (m ∈ holders (custody_item i)))
      (bool_decide (m ∈ custodians select g i)))). intros m'. by apply Hone.
Qed.

(** every member online whose holdings are known is judged, and nobody
    else; of the items this node has held with the same custodians for long
    enough, [expected] is the number the member is a custodian of and
    [announced] how many of those it announces, so a member is low exactly
    when there is an item it should hold and does not announce. *)
Theorem count_exact select g held judged holders old_enough m
    (Hsel : selects select) (Hd : distinct_group g) :
  let items := (filter (λ e, old_enough e.2 = true) held).*1 in
  let its_items := filter (λ i, m ∈ custodians select g i) items in
  coverage_of (count select g held judged holders old_enough) m =
    (if bool_decide (m ∈ judged) then
       Some (MkCoverage (length its_items)
               (length (filter (λ i, m ∈ holders (custody_item i)) its_items)))
     else None) ∧
  (m ∈ low (count select g held judged holders old_enough) ↔
    m ∈ judged ∧ ∃ i since, (i, since) ∈ held ∧ old_enough since = true ∧
      m ∈ custodians select g i ∧ m ∉ holders (custody_item i)).
Proof.
  intros items its_items.
  assert (Hof : coverage_of (count select g held judged holders old_enough) m =
    (if bool_decide (m ∈ judged) then
       Some (MkCoverage (length its_items)
               (length (filter (λ i, m ∈ holders (custody_item i)) its_items)))
     else None)).
  { unfold coverage_of, count. rewrite count_items; [|done|done|apply dom_gset_to_gmap].
    fold items. rewrite lookup_gset_to_gmap. unfold its_items, how_many, default_coverage.
    case_bool_decide as Hj.
    - rewrite option_guard_True by done. cbn. rewrite list_filter_filter, !Nat.add_0_r.
      f_equal. f_equal; f_equal; apply list_filter_iff; intros i;
        rewrite ?andb_true_iff, ?bool_decide_eq_true; tauto.
    - by rewrite option_guard_False by done. }
  split; [exact Hof|].
  unfold low. rewrite elem_of_dom. unfold is_Some. setoid_rewrite map_lookup_filter_Some.
  unfold coverage_of in Hof. rewrite Hof. unfold is_low. case_bool_decide as Hj; split.
  - intros (c & [= <-] & Hlow%bool_decide_eq_true). cbn in Hlow. split; [done|].
    destruct (decide (Forall (λ i, m ∈ holders (custody_item i)) its_items)) as [Hall|Hex].
    { rewrite (filter_all _ its_items) in Hlow; [lia|]. exact (proj1 (Forall_forall _ _) Hall). }
    apply not_Forall_Exists, Exists_exists in Hex as (i & Hi & Hno); [|intros x; apply _].
    unfold its_items in Hi. apply list_elem_of_filter in Hi as [Hc Hi].
    apply list_elem_of_fmap in Hi as ([i' since] & -> & [Hold Hin]%list_elem_of_filter).
    by exists i', since.
  - intros (_ & i & since & Hin & Hold & Hc & Hno). eexists. split; [done|].
    apply bool_decide_eq_true. cbn. apply length_filter_lt with i; [|done].
    apply list_elem_of_filter. split; [done|]. apply list_elem_of_fmap.
    exists (i, since). split; [done|]. by apply list_elem_of_filter.
  - intros (c & [=] & _).
  - intros [? _]. done.
Qed.
End coverage.

(** ** The group of [CustodyFixtures]: member 3 announces the first of two old
    items, member 2 both, and a third item is too young to count *)

Definition test_held : list (CustodyItem * N) := [(test_item 1, 0); (test_item 2, 0); (test_item 3, 90)]%N.
Definition test_holders (item : ItemId) : list MemberId :=
  if bool_decide (item = custody_item (test_item 1)) then [member 2; member 3] else [member 2].
Definition test_old (since : N) : bool := bool_decide (50 ≤ 100 - since)%N.

Lemma count_exact_witness :
  coverage_of (count (λ _ l, ranking l) test_group test_held {[member 2; member 3]}
    test_holders test_old) (member 3) = Some (MkCoverage 2 1) ∧
  member 3 ∈ low (count (λ _ l, ranking l) test_group test_held {[member 2; member 3]}
    test_holders test_old).
Proof.
  assert (Hd : distinct_group test_group) by apply new_group_distinct.
  destruct (count_exact (λ _ l, ranking l) test_group test_held {[member 2; member 3]}
    test_holders test_old (member 3) ranking_selects Hd) as [Hc Hl].
  split.
  - rewrite Hc. vm_compute. reflexivity.
  - apply Hl. split; [by_decision|]. exists (test_item 2), 0%N.
    split_and!; [by right; left|reflexivity|by_decision|by_decision].
Defined.
