(* ===== verification/Community.v ===== *)
(** * What members say about items

    [crates/distlib-core/src/community.rs]: the keys, the values at them, and
    how a wish is resolved. JSON is the class [Json], the texts of ids
    [IdText]; serde's [try_from] runs the constructor's check when a value is
    read too. *)

From Stdlib Require Import Ascii.
From stdpp Require Import strings.
From S2P Require Import Prelude Ids Keeping Failures Heartbeats Texts Items ItemsProps.

(** ** Keys *)

(** The [random_id!]s. *)
Record BookmarkId : Type := MkBookmarkId {
  bookmark_num : N;
  bookmark_bound : bool_decide (bookmark_num < 2 ^ 128)%N;
}.
Record WishId : Type := MkWishId { wish_id32 : Id32 }.

#[export] Instance WishId_eq_dec : EqDecision WishId.
Proof. solve_decision. Defined.
#[export] Instance WishId_countable : Countable WishId.
Proof. by apply (inj_countable' wish_id32 MkWishId); intros []. Defined.

Lemma BookmarkId_eq (a b : BookmarkId) : bookmark_num a = bookmark_num b → a = b.
Proof. destruct a as [a pa], b as [b pb]. simpl. intros ->. f_equal. apply proof_irrel. Qed.

#[export] Instance BookmarkId_eq_dec : EqDecision BookmarkId.
Proof.
  refine (λ a b, cast_if (decide (bookmark_num a = bookmark_num b))); [by apply BookmarkId_eq | by intros ->].
Defined.
#[export] Program Instance BookmarkId_ord : OrdKey BookmarkId := {| ord_num := bookmark_num |}.
Next Obligation. intros a b. apply BookmarkId_eq. Qed.
#[export] Program Instance WishId_ord : OrdKey WishId := {| ord_num := λ w, id_num (wish_id32 w) |}.
Next Obligation. intros [a] [b] Heq. simpl in Heq. f_equal. by apply Id32_eq. Qed.

Definition RATING : string := "rating".
Definition REVIEW : string := "review".
Definition BOOKMARK : string := "bookmark".
Definition WISH : string := "wish".
Definition WISH_COMMENT : string := "wish_comment".
Definition PROBE : string := "probe".

Definition REVIEW_MAX_BYTES : N := 16 * 1024.
Definition NOTE_MAX_BYTES : N := 4 * 1024.
Definition POSITION_MAX_BYTES : N := 256.
Definition WISH_MAX_BYTES : N := 16 * 1024.
Definition COMMENT_MAX_BYTES : N := 4 * 1024.

Inductive CommunityKey : Type :=
| RatingKey (item : ItemId) (member : MemberId)
| ReviewKey (item : ItemId) (member : MemberId)
| BookmarkKey (item : ItemId) (member : MemberId) (bookmark : BookmarkId)
| WishKey (wish : WishId) (member : MemberId)
| WishCommentKey (wish : WishId) (member : MemberId)
| ProbeFailureKey (custodian prober : MemberId).

#[export] Instance CommunityKey_eq_dec : EqDecision CommunityKey.
Proof. solve_decision. Defined.

(** The member who says it. *)
Definition key_member (k : CommunityKey) : MemberId :=
  match k with
  | RatingKey _ m | ReviewKey _ m | BookmarkKey _ m _ | WishKey _ m | WishCommentKey _ m
  | ProbeFailureKey _ m => m
  end.

Section keys.
Context `{IdText ItemId, IdText MemberId, IdText BookmarkId, IdText WishId}.

(** [CommunityKey::encode]. *)
Definition encode_community (k : CommunityKey) : string :=
  match k with
  | RatingKey item member => RATING +:+ "/" +:+ show_id item +:+ "/" +:+ show_id member
  | ReviewKey item member => REVIEW +:+ "/" +:+ show_id item +:+ "/" +:+ show_id member
  | BookmarkKey item member bookmark =>
      BOOKMARK +:+ "/" +:+ show_id item +:+ "/" +:+ show_id member +:+ "/" +:+ show_id bookmark
  | WishKey wish member => WISH +:+ "/" +:+ show_id wish +:+ "/" +:+ show_id member
  | WishCommentKey wish member => WISH_COMMENT +:+ "/" +:+ show_id wish +:+ "/" +:+ show_id member
  | ProbeFailureKey custodian prober => PROBE +:+ "/" +:+ show_id custodian +:+ "/" +:+ show_id prober
  end.

(** [CommunityKey::parse]: only in the one spelling [encode_community] writes. *)
Definition parse_community (key : string) : option CommunityKey :=
  text ← from_utf8 key;
  parsed ←
    match split_on slash text with
    | [] => None
    | kind :: parts =>
        if decide (kind = RATING) then
          '(item, parts) ← segment parts; '(member, _) ← segment parts; Some (RatingKey item member)
        else if decide (kind = REVIEW) then
          '(item, parts) ← segment parts; '(member, _) ← segment parts; Some (ReviewKey item member)
        else if decide (kind = BOOKMARK) then
          '(item, parts) ← segment parts; '(member, parts) ← segment parts;
          '(bookmark, _) ← segment parts; Some (BookmarkKey item member bookmark)
        else if decide (kind = WISH) then
          '(wish, parts) ← segment parts; '(member, _) ← segment parts; Some (WishKey wish member)
        else if decide (kind = WISH_COMMENT) then
          '(wish, parts) ← segment parts; '(member, _) ← segment parts; Some (WishCommentKey wish member)
        else if decide (kind = PROBE) then
          '(custodian, parts) ← segment parts; '(prober, _) ← segment parts;
          Some (ProbeFailureKey custodian prober)
        else None
    end;
  if decide (encode_community parsed = key) then Some parsed else None.

(** The prefixes to read. *)
Definition ratings_of (item : ItemId) : string := RATING +:+ "/" +:+ show_id item +:+ "/".
Definition reviews_of (item : ItemId) : string := REVIEW +:+ "/" +:+ show_id item +:+ "/".
Definition bookmarks_of (item : ItemId) : string := BOOKMARK +:+ "/" +:+ show_id item +:+ "/".
Definition all_bookmarks : string := BOOKMARK +:+ "/".
Definition wish_entries_of (wish : WishId) : string := WISH +:+ "/" +:+ show_id wish +:+ "/".
Definition comments_on (wish : WishId) : string := WISH_COMMENT +:+ "/" +:+ show_id wish +:+ "/".
Definition all_wish_entries : string := WISH +:+ "/".
Definition all_probe_failures : string := PROBE +:+ "/".
End keys.

(** ** Values *)

Definition text_len (text : string) : N := N.of_nat (String.length text).

Definition capped (what text : string) (max : N) : result CoreError string :=
  if bool_decide (max < text_len text)%N then Err (TextTooLong what (text_len text) max) else Ok text.

Record Rating : Type := MkRating { rating_get : N }.
Definition rating_try_from (value : N) : result CoreError Rating :=
  if bool_decide (1 ≤ value)%N && bool_decide (value ≤ 5)%N then Ok (MkRating value)
  else Err (InvalidRating value).

(** The [capped_text!]s. *)
Record Review : Type := MkReview { review_text : string }.
Definition review_try_from (text : string) : result CoreError Review :=
  t ←? capped "review" text REVIEW_MAX_BYTES ;; Ok (MkReview t).
Record Comment : Type := MkComment { comment_text : string }.
Definition comment_try_from (text : string) : result CoreError Comment :=
  t ←? capped "comment" text COMMENT_MAX_BYTES ;; Ok (MkComment t).

(** [Bookmark], whose fields [BookmarkFields] are before they are checked. *)
Record Bookmark : Type := MkBookmark { position : string; note : string; created_at : N }.
Definition new_bookmark (position note : string) (created_at : N) : result CoreError Bookmark :=
  p ←? capped "bookmark position" position POSITION_MAX_BYTES ;;
  n ←? capped "bookmark note" note NOTE_MAX_BYTES ;;
  Ok (MkBookmark p n created_at).

Inductive WishStatus : Type := Open | Fulfilled (item_id : ItemId).

Record WishFields : Type := MkWishFields {
  wish_kind : option ItemKind;
  wish_title : option string;
  wish_authors : option (list string);
  wish_description : option string;
  wish_created_at : option N;
  wish_status : WishStatus;
}.
Record Wish : Type := MkWish { wish_fields : WishFields }.

#[export] Instance Rating_eq_dec : EqDecision Rating.
Proof. solve_decision. Defined.
#[export] Instance Review_eq_dec : EqDecision Review.
Proof. solve_decision. Defined.
#[export] Instance Comment_eq_dec : EqDecision Comment.
Proof. solve_decision. Defined.
#[export] Instance Bookmark_eq_dec : EqDecision Bookmark.
Proof. solve_decision. Defined.
#[export] Instance WishStatus_eq_dec : EqDecision WishStatus.
Proof. solve_decision. Defined.
#[export] Instance WishFields_eq_dec : EqDecision WishFields.
Proof. solve_decision. Defined.
#[export] Instance Wish_eq_dec : EqDecision Wish.
Proof. solve_decision. Defined.

(** The JSON the values are made of. *)
Class CommunityJson : Type := {
  json_item :: ItemJson;
  json_u8 :: Json N;
  json_bookmark :: Json Bookmark;
  json_wish :: Json WishFields;
  json_failure :: Json ProbeFailure;
}.

Section values.
Context `{CommunityJson}.

(** What reading a value and checking it gives. *)
Definition checked {A B} (try_from : A → result CoreError B) (a : option A) : option B :=
  match a with
  | None => None
  | Some a => match try_from a with Ok b => Some b | Err _ => None end
  end.

Definition encode_rating (r : Rating) : list N := to_json (rating_get r).
Definition decode_rating (value : list N) : option Rating := checked rating_try_from (from_json value).
Definition encode_review (r : Review) : list N := to_json (review_text r).
Definition decode_review (value : list N) : option Review := checked review_try_from (from_json value).
Definition encode_comment (c : Comment) : list N := to_json (comment_text c).
Definition decode_comment (value : list N) : option Comment := checked comment_try_from (from_json value).
Definition encode_bookmark (b : Bookmark) : list N := to_json b.
Definition decode_bookmark (value : list N) : option Bookmark :=
  checked (λ f : Bookmark, new_bookmark (position f) (note f) (created_at f)) (from_json value).
Definition encode_failure (f : ProbeFailure) : list N := to_json f.
Definition decode_failure (value : list N) : option ProbeFailure := from_json value.

(** [Wish::new]: one cap for the whole entry. *)
Definition new_wish (fields : WishFields) : result CoreError Wish :=
  let len := N.of_nat (length (to_json fields)) in
  if bool_decide (WISH_MAX_BYTES < len)%N then Err (TextTooLong "wish" len WISH_MAX_BYTES)
  else Ok (MkWish fields).
Definition encode_wish (w : Wish) : list N := to_json (wish_fields w).
Definition decode_wish (value : list N) : option Wish := checked new_wish (from_json value).
End values.

(** ** Wishes *)

Record ResolvedWish : Type := MkResolvedWish {
  creator : MemberId;
  wished : WishFields;
  fulfilled_by : gmap MemberId ItemId;
}.

Definition has_title (w : Wish) : bool := bool_decide (is_Some (wish_title (wish_fields w))).

(** The key entries are compared by; the earlier of two. *)
Definition made_at (e : MemberId * Wish) : N := default u64_max (wish_created_at (wish_fields e.2)).
Definition earlier (best e : MemberId * Wish) : MemberId * Wish :=
  if bool_decide (made_at e < made_at best ∨ made_at e = made_at best ∧ ord_num e.1 < ord_num best.1)%N
  then e else best.

(** [ResolvedWish::resolve]. *)
Definition resolve (entries : gmap MemberId Wish) : option ResolvedWish :=
  match filter (λ e, has_title e.2 = true) (map_entries entries) with
  | [] => None
  | e :: es =>
      let '(creator, wished) := foldl earlier e es in
      Some (MkResolvedWish creator (wish_fields wished)
        (omap (λ w, match wish_status (wish_fields w) with Fulfilled i => Some i | Open => None end) entries))
  end.

Definition is_fulfilled (w : ResolvedWish) : bool := bool_decide (fulfilled_by w ≠ ∅).

(** ** Properties of the community keys, values and wishes *)

Section keys.
Context `{IdTextLaws ItemId 64} `{IdTextLaws ContentHash 64} `{IdTextLaws MemberId 64}.
Context `{IdTextLaws BookmarkId 32} `{IdTextLaws WishId 64}.

Definition community_parts (k : CommunityKey) : list string :=
  match k with
  | RatingKey item member => [RATING; show_id item; show_id member]
  | ReviewKey item member => [REVIEW; show_id item; show_id member]
  | BookmarkKey item member bookmark => [BOOKMARK; show_id item; show_id member; show_id bookmark]
  | WishKey wish member => [WISH; show_id wish; show_id member]
  | WishCommentKey wish member => [WISH_COMMENT; show_id wish; show_id member]
  | ProbeFailureKey custodian prober => [PROBE; show_id custodian; show_id prober]
  end.

Lemma encode_community_parts k : encode_community k = joined (community_parts k).
Proof. by destruct k. Qed.

Lemma community_parts_plain k : Forall (λ p, plain p = true) (community_parts k).
Proof.
  destruct k; repeat (apply Forall_cons; split); try apply Forall_nil; try done; apply show_plain.
Qed.

Lemma community_parts_cons k : community_parts k ≠ [].
Proof. by destruct k. Qed.

Lemma parse_encode_community k : parse_community (encode_community k) = Some k.
Proof.
  unfold parse_community. rewrite encode_community_parts at 1. rewrite utf8_joined by apply community_parts_plain.
  cbn [mbind option_bind]. rewrite split_joined by auto using community_parts_cons, community_parts_plain.
  destruct k; cbn [community_parts];
    repeat first [rewrite decide_True by done | rewrite decide_False by done];
    repeat (cbn [segment]; rewrite read_show; cbn [mbind option_bind]); by rewrite decide_True.
Qed.

Lemma parse_community_some key k : parse_community key = Some k → key = encode_community k.
Proof.
  unfold parse_community. intros (text & _ & (parsed & _ & Hd)%bind_Some)%bind_Some.
  case_decide; [|done]. by injection Hd as <-.
Qed.

(** A community key has one spelling: it reads back as itself, and what
    reads as a key is what that key is written as; so there is no second key
    for the same member and thing. *)
Theorem one_spelling key k : parse_community key = Some k ↔ key = encode_community k.
Proof. split; [apply parse_community_some | intros ->; apply parse_encode_community]. Qed.

(** ** No key begins another *)

Lemma same_width {A} `{IdTextLaws A n} (a b : A) y : show_id b = show_id a +:+ y → y = "".
Proof.
  intros Heq. apply (append_length_0 (show_id a)). by rewrite <-Heq, !show_width.
Qed.

Lemma begins_id {A} `{IdTextLaws A n} (a b : A) y : show_id b = show_id a +:+ y → a = b.
Proof.
  intros Heq. pose proof (same_width a b y Heq) as ->. rewrite append_nil_r in Heq.
  apply (f_equal read_id) in Heq. rewrite !read_show in Heq. congruence.
Qed.

Lemma show_id_inj {A} `{IdTextLaws A n} (a b : A) : show_id a = show_id b → a = b.
Proof. intros Heq. apply (f_equal read_id) in Heq. rewrite !read_show in Heq. congruence. Qed.

(** The parts of a key but the last, and the last. *)
Lemma begins_parts ps qs :
  ps ≠ [] → qs ≠ [] → Forall (λ p, plain p = true) ps → Forall (λ p, plain p = true) qs →
  is_Some (strip_prefix (joined ps) (joined qs)) →
  ∃ init x y rest, ps = init ++ [x] ∧ qs = init ++ (x +:+ y) :: rest.
Proof.
  intros Hps Hqs Pp Pq [r Hr%strip_prefix_inv].
  destruct (exists_last Hps) as (init & x & ->).
  destruct (joined_prefix init x qs r Pp Hqs Pq Hr) as (y & rest & ->). eauto 10.
Qed.

Lemma field_begins f f' y : field_as_str f' = field_as_str f +:+ y → f = f'.
Proof. destruct f, f'; try done; intros Heq; by cbv in Heq. Qed.

Lemma field_file f y : FILE ≠ field_as_str f +:+ y.
Proof. destruct f; intros Heq; by cbv in Heq. Qed.

(** A key of either kind. *)
Definition any_parts (k : Key + CommunityKey) : list string :=
  match k with inl k => key_parts k | inr k => community_parts k end.
Definition encode_any (k : Key + CommunityKey) : string :=
  match k with inl k => encode_key k | inr k => encode_community k end.

Lemma any_parts_last k init x :
  any_parts k = init ++ [x] → init = removelast (any_parts k) ∧ x = List.last (any_parts k) "".
Proof. intros ->. by rewrite removelast_last, last_last. Qed.

Lemma any_begins k k' init x y rest :
  any_parts k = init ++ [x] → any_parts k' = init ++ (x +:+ y) :: rest → k = k'.
Proof.
  intros [-> ->]%any_parts_last Hk'.
  destruct k as [[i f|i b]|[]], k' as [[i' f'|i' b']|[]]; cbn in Hk'; try discriminate Hk';
    injection Hk'; intros; subst;
    repeat match goal with
      | He : @show_id ?A _ _ = show_id _ |- _ => apply show_id_inj in He; subst
      | He : show_id _ = show_id _ +:+ _ |- _ => apply begins_id in He; subst
      | He : field_as_str _ = field_as_str _ +:+ _ |- _ => apply field_begins in He; subst
      | He : FILE = field_as_str _ +:+ _ |- _ => by apply field_file in He
      | He : field_as_str _ = FILE |- _ => by apply field_not_file in He
      end; done.
Qed.

(** No key of the document, an item's or a member's, begins another, so
    writing one, which deletes its author's longer keys beneath it, deletes
    nothing else. *)
Theorem no_key_begins_another k k' : is_Some (strip_prefix (encode_any k) (encode_any k')) → k = k'.
Proof.
  intros Hb. assert (∀ k, encode_any k = joined (any_parts k)) as He.
  { intros [c|c]; [apply encode_key_parts | apply encode_community_parts]. }
  rewrite !He in Hb. apply begins_parts in Hb as (init & x & y & rest & Hk & Hk').
  - by eapply any_begins.
  - destruct k; [apply key_parts_cons | apply community_parts_cons].
  - destruct k'; [apply key_parts_cons | apply community_parts_cons].
  - destruct k; [apply key_parts_plain | apply community_parts_plain].
  - destruct k'; [apply key_parts_plain | apply community_parts_plain].
Qed.
End keys.

(** ** Values *)

Definition bookmark_holds (b : Bookmark) : Prop := (created_at b ≤ u64_max)%N.
Definition wish_holds (f : WishFields) : Prop := fits u64_max (wish_created_at f).
Definition failure_holds (f : ProbeFailure) : Prop :=
  (failure_chunk f ≤ u64_max)%N ∧ (failure_in_a_row f ≤ u32_max)%N.

Class CommunityJsonLaws `{CommunityJson} : Prop := {
  item_json_laws :: ItemJsonLaws;
  u8_laws :: JsonLaws N (λ n, n ≤ 255)%N;
  bookmark_laws :: JsonLaws Bookmark bookmark_holds;
  wish_laws :: JsonLaws WishFields wish_holds;
  failure_laws :: JsonLaws ProbeFailure failure_holds;
}.

(** Within the limits the constructors check. *)
Definition rating_ok (r : Rating) : Prop := (1 ≤ rating_get r ≤ 5)%N.
Definition review_ok (r : Review) : Prop := (text_len (review_text r) ≤ REVIEW_MAX_BYTES)%N.
Definition comment_ok (c : Comment) : Prop := (text_len (comment_text c) ≤ COMMENT_MAX_BYTES)%N.
Definition bookmark_ok (b : Bookmark) : Prop :=
  (text_len (position b) ≤ POSITION_MAX_BYTES)%N ∧ (text_len (note b) ≤ NOTE_MAX_BYTES)%N.
Definition wish_ok `{CommunityJson} (w : Wish) : Prop :=
  (N.of_nat (length (to_json (wish_fields w))) ≤ WISH_MAX_BYTES)%N.

Lemma capped_ok what text max t : capped what text max = Ok t ↔ t = text ∧ (text_len text ≤ max)%N.
Proof.
  unfold capped. case_bool_decide; split.
  - done.
  - intros [_ Hle]. lia.
  - intros [= <-]. split; [done|]. lia.
  - by intros [-> _].
Qed.

Section values.
Context `{CommunityJsonLaws}.

Lemma checked_some {A B} (f : A → result CoreError B) o b :
  checked f o = Some b ↔ ∃ a, o = Some a ∧ f a = Ok b.
Proof.
  unfold checked. destruct o as [a|].
  - destruct (f a) as [b'|e] eqn:E; split; [intros [= <-]; eauto|intros (? & [= <-] & ?); congruence|done|].
    intros (? & [= <-] & ?); congruence.
  - split; [done|]. by intros (? & ? & _).
Qed.

Lemma new_bookmark_ok p n t b : new_bookmark p n t = Ok b ↔ b = MkBookmark p n t ∧ bookmark_ok b.
Proof.
  unfold new_bookmark, bookmark_ok. split.
  - destruct (capped "bookmark position" p _) as [p'|] eqn:Ep; [|done].
    destruct (capped "bookmark note" n _) as [n'|] eqn:En; [|done].
    apply capped_ok in Ep as [-> Hp]. apply capped_ok in En as [-> Hn]. by intros [= <-].
  - intros [-> [Hp Hn]]. cbn in Hp, Hn.
    rewrite (proj2 (capped_ok _ p _ p)) by done. cbn. by rewrite (proj2 (capped_ok _ n _ n)).
Qed.

(** A rating, review, comment, bookmark or wish entry read from the
    document is within its limits, whoever wrote the bytes, and one made
    within them reads back from what it is written as. *)
Theorem values_keep_their_limits :
  (∀ v r, decode_rating v = Some r → rating_ok r) ∧ (∀ v r, decode_review v = Some r → review_ok r) ∧
  (∀ v c, decode_comment v = Some c → comment_ok c) ∧ (∀ v b, decode_bookmark v = Some b → bookmark_ok b) ∧
  (∀ v w, decode_wish v = Some w → wish_ok w) ∧
  (∀ r, rating_ok r → decode_rating (encode_rating r) = Some r) ∧
  (∀ r, review_ok r → decode_review (encode_review r) = Some r) ∧
  (∀ c, comment_ok c → decode_comment (encode_comment c) = Some c) ∧
  (∀ b, bookmark_ok b → bookmark_holds b → decode_bookmark (encode_bookmark b) = Some b) ∧
  (∀ w, wish_ok w → wish_holds (wish_fields w) → decode_wish (encode_wish w) = Some w) ∧
  (∀ f, failure_holds f → decode_failure (encode_failure f) = Some f).
Proof.
  split_and!; unfold decode_rating, decode_review, decode_comment, decode_bookmark, decode_wish, decode_failure.
  - intros v r (n & _ & Hr)%checked_some. revert Hr. unfold rating_try_from, rating_ok.
    destruct (_ && _) eqn:E; [|done]. apply andb_true_iff in E as [?%bool_decide_eq_true ?%bool_decide_eq_true].
    by intros [= <-].
  - intros v r (t & _ & Hr)%checked_some. revert Hr. unfold review_try_from.
    destruct (capped _ _ _) as [t'|] eqn:E; [|done]. apply capped_ok in E as [-> Ht]. by intros [= <-].
  - intros v r (t & _ & Hr)%checked_some. revert Hr. unfold comment_try_from.
    destruct (capped _ _ _) as [t'|] eqn:E; [|done]. apply capped_ok in E as [-> Ht]. by intros [= <-].
  - intros v b (f & _ & Hb)%checked_some. by apply new_bookmark_ok in Hb as [_ ?].
  - intros v w (f & _ & Hw)%checked_some. revert Hw. unfold new_wish.
    case_bool_decide; [done|]. intros [= <-]. unfold wish_ok. cbn. lia.
  - intros [n] [Hlo Hhi]. cbn in Hlo, Hhi. apply checked_some. exists n.
    split; [apply (from_to_json (holds := λ n, n ≤ 255)%N); cbn; lia|].
    unfold rating_try_from.
    rewrite (bool_decide_true (1 ≤ n)%N), (bool_decide_true (n ≤ 5)%N) by lia. done.
  - intros [t] Ht. apply checked_some. exists t. split; [exact (from_to_json t I)|].
    unfold review_try_from. by rewrite (proj2 (capped_ok _ _ _ t)).
  - intros [t] Ht. apply checked_some. exists t. split; [exact (from_to_json t I)|].
    unfold comment_try_from. by rewrite (proj2 (capped_ok _ _ _ t)).
  - intros b Hb Hh. apply checked_some. exists b. split; [by apply from_to_json|].
    apply new_bookmark_ok. split; [by destruct b|done].
  - intros [f] Hw Hh. apply checked_some. exists f. split; [by apply from_to_json|].
    unfold new_wish. rewrite bool_decide_false; [done|]. unfold wish_ok in Hw. cbn in Hw. lia.
  - intros f Hf. by apply from_to_json.
Qed.
End values.

(** ** Wishes *)

(** At least as early: when it was made, then who made it. *)
Definition as_early (a b : MemberId * Wish) : Prop :=
  (made_at a < made_at b ∨ made_at a = made_at b ∧ ord_num a.1 ≤ ord_num b.1)%N.

Lemma foldl_earlier e es :
  foldl earlier e es ∈ e :: es ∧ ∀ x, x ∈ e :: es → as_early (foldl earlier e es) x.
Proof.
  revert e. induction es as [|e' es IH]; intros e; cbn [foldl].
  { split; [by left|]. intros x ->%list_elem_of_singleton. right. split; [done|lia]. }
  destruct (IH (earlier e e')) as [Hin Hle]. split.
  - apply elem_of_cons in Hin as [->|Hin]; [|by do 2 right].
    unfold earlier. case_bool_decide; [right; left|left].
  - intros x Hx. assert (as_early (foldl earlier (earlier e e') es) (earlier e e')) as Hb by (apply Hle; left).
    assert (as_early (earlier e e') e ∧ as_early (earlier e e') e') as [He He'].
    { unfold earlier, as_early. case_bool_decide; split; lia. }
    apply elem_of_cons in Hx as [->|[->|Hx]%elem_of_cons].
    + unfold as_early in *. lia.
    + unfold as_early in *. lia.
    + apply Hle. by right.
Qed.

(** A wish is whose titled entry was made first, the lower member on a
    tie, and it wishes for what that entry says; there is none while no entry
    has a title; and it is fulfilled by exactly the members who say so, with
    the items they name. *)
Theorem earliest_title_creates ws :
  (resolve ws = None ↔ ∀ m w, ws !! m = Some w → has_title w = false) ∧
  ∀ r, resolve ws = Some r →
    (∃ w, ws !! creator r = Some w ∧ has_title w = true ∧ wished r = wish_fields w ∧
       ∀ m w', ws !! m = Some w' → has_title w' = true → as_early (creator r, w) (m, w')) ∧
    (∀ m i, fulfilled_by r !! m = Some i ↔
       ∃ w, ws !! m = Some w ∧ wish_status (wish_fields w) = Fulfilled i).
Proof.
  unfold resolve. set (titled := filter _ (map_entries ws)).
  assert (∀ m w, (m, w) ∈ titled ↔ ws !! m = Some w ∧ has_title w = true) as Hin.
  { intros m w. unfold titled. rewrite list_elem_of_filter, elem_of_map_entries. cbn. tauto. }
  destruct titled as [|e es] eqn:Et.
  { split; [|done]. split; [|done]. intros _ m w Hw. destruct (has_title w) eqn:E; [|done].
    pose proof (proj2 (Hin m w) (conj Hw E)) as Hx. by apply elem_of_nil in Hx. }
  destruct (foldl earlier e es) as [c w] eqn:Ef.
  destruct (foldl_earlier e es) as [Hmem Hmin]. rewrite Ef in Hmem, Hmin.
  apply Hin in Hmem as [Hc Ht]. split.
  - split; [done|]. intros Hno. by rewrite (Hno c w Hc) in Ht.
  - intros r [= <-]. cbn. split.
    + exists w. split_and!; try done. intros m w' Hw' Ht'. apply Hmin. by apply Hin.
    + intros m i. rewrite lookup_omap_Some. split.
      * intros (w' & Hs & Hw'). exists w'. split; [done|]. destruct (wish_status _); [done|]. by injection Hs as <-.
      * intros (w' & Hw' & Hs). exists w'. by rewrite Hs.
Qed.
