(* ===== verification/Catalogue.v ===== *)
(** * The catalogue: one document for the group

    [crates/distlib-sync/src/catalogue.rs]. iroh-docs is the class [Documents]: a
    document of entries, one per author and key, that answers the queries the
    code makes; a query's answer is a stream that may end in an error. The
    content of an entry is asked of the blob store. [None] for the document is
    a node that is in no group yet. *)

From Stdlib Require Import Ascii.
From stdpp Require Import strings.
From S2P Require Import Prelude Ids Events Heartbeats Keeping Failures Statements Blobs Texts Items Community.

(** ** Documents *)

(** [Entry]: an author is any 32 bytes. *)
Record Entry : Type := MkEntry {
  entry_key : string;
  entry_author : Id32;
  content_hash : ContentHash;
  content_len : N;
  timestamp : N;
}.

#[export] Instance Entry_eq_dec : EqDecision Entry.
Proof. solve_decision. Defined.

Inductive Query : Type :=
| LatestPerKey (prefix : string)
| AllEntries (prefix : string)
| LatestAt (key : string).

(** What [get_many] streams. *)
Notation Stream := (result string (list (result string Entry))).

Class Documents : Type := {
  Doc : Type;
  get_many : Query → Doc → Stream;
  (** At a time by the writer's clock. *)
  set_bytes : Id32 → string → list N → N → Doc → result string Doc;
  del : Id32 → string → N → Doc → result string Doc;
}.

(** What the blob store answers about a hash, and whether 32 bytes are a
    public key. *)
Record ContentWorld : Type := MkContentWorld {
  has_content : ContentHash → result string BlobStatus;
  reads_content : ContentHash → result string (list N);
  is_public_key : Id32 → bool;
}.

Section catalogue.
Context `{IdText ItemId, IdText ContentHash, IdText MemberId, IdText BookmarkId, IdText WishId}.
Context `{CommunityJson, Documents}.
Context (me : MemberId) (w : ContentWorld).

Notation Catalogue := (option Doc).

(** [Catalogue::document]. *)
Definition document (c : Catalogue) : result SyncError Doc :=
  match c with Some d => Ok d | None => Err NoGroupYet end.

(** [Catalogue::put] and [delete]. *)
Definition put (now : N) (key : string) (value : list N) : fallible Catalogue SyncError unit := λ c,
  match document c with
  | Err e => (c, Err e)
  | Ok d => match set_bytes (member_id32 me) key value now d with
            | Ok d => (Some d, Ok tt)
            | Err e => (c, Err (Docs "written to" e))
            end
  end.

Definition delete_entry (now : N) (key : string) : fallible Catalogue SyncError unit := λ c,
  match document c with
  | Err e => (c, Err e)
  | Ok d => match del (member_id32 me) key now d with
            | Ok d => (Some d, Ok tt)
            | Err e => (c, Err (Docs "deleted from" e))
            end
  end.

(** [Catalogue::content]: [None] is content that has not arrived. *)
Definition content (e : Entry) : result SyncError (option (list N)) :=
  match has_content w (content_hash e) with
  | Err s => Err (Content "asked whether an entry's content is here" s)
  | Ok (Complete _) =>
      match reads_content w (content_hash e) with
      | Ok bytes => Ok (Some bytes)
      | Err s => Err (Content "reading an entry's content" s)
      end
  | Ok (Partial _) | Ok NotFound => Ok None
  end.

Definition hash_string (h : ContentHash) : string := show_id h.

(** [Catalogue::get]. *)
Definition get (key : string) (c : Catalogue) : result SyncError (option (list N)) :=
  d ←? document c ;;
  match get_many (LatestAt key) d with
  | Err s => Err (Docs "read from" s)
  | Ok [] => Ok None
  | Ok (Err s :: _) => Err (Docs "read from" s)
  | Ok (Ok e :: _) =>
      value ←? content e ;;
      match value with
      | Some v => Ok (Some v)
      | None => Err (MissingContent (hash_string (content_hash e)))
      end
  end.

(** A loop over a stream: the first error ends it. *)
Fixpoint over_stream {A} (f : A → Entry → result SyncError A) (acc : A) (es : list (result string Entry))
  : result SyncError A :=
  match es with
  | [] => Ok acc
  | Err s :: _ => Err (Docs "read from" s)
  | Ok e :: es => acc ←? f acc e ;; over_stream f acc es
  end.

Definition read_query {A} (q : Query) (f : A → Entry → result SyncError A) (acc : A) (c : Catalogue)
  : result SyncError A :=
  d ←? document c ;;
  match get_many q d with
  | Err s => Err (Docs "read from" s)
  | Ok es => over_stream f acc es
  end.

(** ** Writing *)

(** [Catalogue::write]: one put per entry, until one fails. *)
Fixpoint put_all (now : N) (es : list (string * list N)) : fallible Catalogue SyncError unit :=
  match es with
  | [] => fret tt
  | (key, value) :: es => put now key value ;! put_all now es
  end.
Definition write (now : N) (i : Item) : fallible Catalogue SyncError unit := put_all now (entries i).

Definition rate (now : N) (item : ItemId) (rating : Rating) :=
  put now (encode_community (RatingKey item me)) (encode_rating rating).
Definition review (now : N) (item : ItemId) (r : Review) :=
  put now (encode_community (ReviewKey item me)) (encode_review r).
Definition clear_rating (now : N) (item : ItemId) := delete_entry now (encode_community (RatingKey item me)).
Definition clear_review (now : N) (item : ItemId) := delete_entry now (encode_community (ReviewKey item me)).
Definition bookmark (now : N) (item : ItemId) (id : BookmarkId) (b : Bookmark) :=
  put now (encode_community (BookmarkKey item me id)) (encode_bookmark b).
Definition delete_bookmark (now : N) (item : ItemId) (id : BookmarkId) :=
  delete_entry now (encode_community (BookmarkKey item me id)).
Definition wish (now : N) (wish : WishId) (entry : Wish) :=
  put now (encode_community (WishKey wish me)) (encode_wish entry).
Definition wish_comment (now : N) (wish : WishId) (comment : Comment) :=
  put now (encode_community (WishCommentKey wish me)) (encode_comment comment).
Definition clear_wish_comment (now : N) (wish : WishId) :=
  delete_entry now (encode_community (WishCommentKey wish me)).
Definition record_probe_failure (now : N) (custodian : MemberId) (failure : ProbeFailure) :=
  put now (encode_community (ProbeFailureKey custodian me)) (encode_failure failure).
Definition clear_probe_failure (now : N) (custodian : MemberId) :=
  delete_entry now (encode_community (ProbeFailureKey custodian me)).

(** ** Reading what members say *)

Record CommunityEntry (T : Type) : Type := MkCommunityEntry {
  community_key : CommunityKey;
  community_value : T;
  written_at : N;
}.
#[global] Arguments MkCommunityEntry {T}.
#[global] Arguments community_key {T}.
#[global] Arguments community_value {T}.
#[global] Arguments written_at {T}.

Record CommunityEntries (T : Type) : Type := MkCommunityEntries {
  counted_entries : list (CommunityEntry T);
  waiting : bool;
}.
#[global] Arguments MkCommunityEntries {T}.
#[global] Arguments counted_entries {T}.
#[global] Arguments waiting {T}.

(** One entry of [read_community_entries]: it counts only if its author is the
    member its key names, its content is here, and it decodes. *)
Definition count_entry {T} (decode : list N → option T) (acc : CommunityEntries T) (e : Entry)
  : result SyncError (CommunityEntries T) :=
  match parse_community (entry_key e) with
  | None => Ok acc
  | Some parsed =>
      if bool_decide (entry_author e ≠ member_id32 (key_member parsed)) then Ok acc
      else
        value ←? content e ;;
        match value with
        | None => Ok (MkCommunityEntries (counted_entries acc) true)
        | Some value =>
            match decode value with
            | None => Ok acc
            | Some value =>
                Ok (MkCommunityEntries
                      (counted_entries acc ++ [MkCommunityEntry parsed value (timestamp e)]) (waiting acc))
            end
        end
  end.

Definition read_community_entries {T} (prefix : string) (decode : list N → option T) (c : Catalogue)
  : result SyncError (CommunityEntries T) :=
  read_query (AllEntries prefix) (count_entry decode) (MkCommunityEntries [] false) c.

Definition values_by_member {T} (es : list (CommunityEntry T)) : gmap MemberId T :=
  collect_map ((λ e, (key_member (community_key e), community_value e)) <$> es).

Definition by_member {T} (r : result SyncError (CommunityEntries T)) : result SyncError (gmap MemberId T) :=
  es ←? r ;; Ok (values_by_member (counted_entries es)).

Definition ratings (item : ItemId) (c : Catalogue) := by_member (read_community_entries (ratings_of item) decode_rating c).
Definition reviews (item : ItemId) (c : Catalogue) := by_member (read_community_entries (reviews_of item) decode_review c).
Definition wishes (wish : WishId) (c : Catalogue) := by_member (read_community_entries (wish_entries_of wish) decode_wish c).
Definition wish_comments (wish : WishId) (c : Catalogue) :=
  by_member (read_community_entries (comments_on wish) decode_comment c).

(** [Catalogue::probe_failures]. *)
Definition recorded_failure (e : CommunityEntry ProbeFailure) : option RecordedFailure :=
  match community_key e with
  | ProbeFailureKey custodian prober => Some (MkRecordedFailure custodian prober (community_value e) (written_at e))
  | _ => None
  end.
Definition probe_failures (c : Catalogue) : result SyncError (list RecordedFailure) :=
  es ←? read_community_entries all_probe_failures decode_failure c ;;
  Ok (omap recorded_failure (counted_entries es)).

(** [Catalogue::read_bookmarks]. *)
Record ReadBookmark : Type := MkReadBookmark {
  bookmark_member : MemberId;
  bookmark_id : BookmarkId;
  read_mark : Bookmark;
  bookmark_modified : N;
}.
Definition read_bookmark (e : CommunityEntry Bookmark) : option ReadBookmark :=
  match community_key e with
  | BookmarkKey _ member bookmark => Some (MkReadBookmark member bookmark (community_value e) (written_at e))
  | _ => None
  end.
Definition bookmark_le (a b : ReadBookmark) : Prop :=
  (ord_num (bookmark_member a) < ord_num (bookmark_member b) ∨
   ord_num (bookmark_member a) = ord_num (bookmark_member b) ∧
   ord_num (bookmark_id a) ≤ ord_num (bookmark_id b))%N.
#[export] Instance bookmark_le_dec : RelDecision bookmark_le.
Proof. intros a b. unfold bookmark_le. apply _. Defined.
Definition read_bookmarks (item : ItemId) (c : Catalogue) : result SyncError (list ReadBookmark * bool) :=
  es ←? read_community_entries (bookmarks_of item) decode_bookmark c ;;
  Ok (merge_sort bookmark_le (omap read_bookmark (counted_entries es)), waiting es).

(** [Catalogue::read_wish]. *)
Record ReadWish : Type := MkReadWish {
  wish_entries : gmap MemberId Wish;
  wish_comments_read : gmap MemberId Comment;
  wish_waiting : bool;
}.
Definition read_wish (wish : WishId) (c : Catalogue) : result SyncError ReadWish :=
  es ←? read_community_entries (wish_entries_of wish) decode_wish c ;;
  cs ←? read_community_entries (comments_on wish) decode_comment c ;;
  Ok (MkReadWish (values_by_member (counted_entries es)) (values_by_member (counted_entries cs))
        (waiting es || waiting cs)).

(** ** Reading items *)

(** One entry of [read_item]: what was read, when, whether something is
    missing, and whether anything was found. *)
Record Reading : Type := MkReading {
  reading : Item;
  last_modified : N;
  waiting_for_content : bool;
  found : bool;
}.
Definition read_entry (r : Reading) (e : Entry) : result SyncError Reading :=
  let modified := N.max (last_modified r) (timestamp e) in
  value ←? content e ;;
  Ok (match value with
      | None => MkReading (reading r) modified true true
      | Some value =>
          MkReading (absorb (entry_key e) value (reading r)).1 modified (waiting_for_content r) true
      end).

(** [read_file_authors]. *)
Definition add_author (authors : gmap ContentHash (gset MemberId)) (e : Entry)
  : result SyncError (gmap ContentHash (gset MemberId)) :=
  Ok (match parse_key (entry_key e) with
      | Some (FileKey _ blob) =>
          if is_public_key w (entry_author e)
          then <[blob := {[MkMemberId (entry_author e)]} ∪ default ∅ (authors !! blob)]> authors
          else authors
      | _ => authors
      end).
Definition read_file_authors (id : ItemId) (c : Catalogue) : result SyncError (gmap ContentHash (gset MemberId)) :=
  read_query (AllEntries (prefix_of id)) add_author ∅ c.

Record ReadItem : Type := MkReadItem {
  read_back : Item;
  item_ratings : gmap MemberId Rating;
  item_reviews : gmap MemberId Review;
  file_authors : gmap ContentHash (gset MemberId);
  item_modified : N;
  item_waiting : bool;
}.

(** [Catalogue::read_item]. *)
Definition read_item (id : ItemId) (c : Catalogue) : result SyncError (option ReadItem) :=
  r ←? read_query (LatestPerKey (prefix_of id)) read_entry (MkReading (new_item id) 0 false false) c ;;
  if negb (found r) then Ok None
  else
    ratings ←? read_community_entries (ratings_of id) decode_rating c ;;
    reviews ←? read_community_entries (reviews_of id) decode_review c ;;
    authors ←? read_file_authors id c ;;
    Ok (Some (MkReadItem (reading r) (values_by_member (counted_entries ratings))
                (values_by_member (counted_entries reviews)) authors (last_modified r)
                (waiting_for_content r || waiting ratings || waiting reviews))).
Definition item (id : ItemId) (c : Catalogue) : result SyncError (option Item) :=
  r ←? read_item id c ;; Ok (read_back <$> r).

(** ** What there is *)

Definition add_wish (ids : gset WishId) (e : Entry) : result SyncError (gset WishId) :=
  Ok (match parse_community (entry_key e) with Some (WishKey wish _) => {[wish]} ∪ ids | _ => ids end).
Definition wish_ids (c : Catalogue) : result SyncError (gset WishId) :=
  read_query (LatestPerKey all_wish_entries) add_wish ∅ c.

Definition add_bookmarked (ids : gset ItemId) (e : Entry) : result SyncError (gset ItemId) :=
  Ok (match parse_community (entry_key e) with Some (BookmarkKey item _ _) => {[item]} ∪ ids | _ => ids end).
Definition bookmarked_item_ids (c : Catalogue) : result SyncError (gset ItemId) :=
  read_query (LatestPerKey all_bookmarks) add_bookmarked ∅ c.

(** [items_in] of [changes.rs], over the keys read. *)
Definition items_in (keys : list string) : gset ItemId := list_to_set (key_item <$> omap parse_key keys).
Definition item_ids (c : Catalogue) : result SyncError (gset ItemId) :=
  keys ←? read_query (LatestPerKey all_items) (λ keys e, Ok (keys ++ [entry_key e])) [] c ;;
  Ok (items_in keys).
End catalogue.
