(* ===== verification/CatalogueProps.v ===== *)
(** * Properties of the catalogue

    What iroh-docs documents of a document is [DocumentsLaws]: an entry per
    author and key, queries that answer with the entries held, and writes that
    delete the author's longer keys beneath the one written. *)

From Stdlib Require Import Ascii.
From stdpp Require Import strings.
From S2P Require Import Prelude Ids Events Heartbeats Keeping Failures Statements Blobs.
From S2P Require Import Texts Items ItemsProps Community Catalogue.

Definition begins (p s : string) : Prop := is_Some (strip_prefix p s).
#[export] Instance begins_dec p s : Decision (begins p s).
Proof. unfold begins. apply _. Defined.

Class DocumentsLaws `{Crypto, Documents} : Type := {
  held : Doc → gmap (Id32 * string) Entry;
  held_at d a k e : held d !! (a, k) = Some e → entry_author e = a ∧ entry_key e = k;
  get_all p d es : get_many (AllEntries p) d = Ok (Ok <$> es) →
    NoDup es ∧ ∀ e, e ∈ es ↔ held d !! (entry_author e, entry_key e) = Some e ∧ begins p (entry_key e);
  get_latest p d es : get_many (LatestPerKey p) d = Ok (Ok <$> es) →
    NoDup (entry_key <$> es) ∧
    (∀ e, e ∈ es → held d !! (entry_author e, entry_key e) = Some e ∧ begins p (entry_key e) ∧
       ∀ a e', held d !! (a, entry_key e) = Some e' → (timestamp e' ≤ timestamp e)%N) ∧
    ∀ a k e', held d !! (a, k) = Some e' → begins p k → ∃ e, e ∈ es ∧ entry_key e = k;
  set_held a k v now d d' a' k' : set_bytes a k v now d = Ok d' →
    held d' !! (a', k') =
      if decide (a' = a ∧ k' = k) then Some (MkEntry k a (MkContentHash (blake3 v)) (N.of_nat (length v)) now)
      else if decide (a' = a ∧ begins k k') then None else held d !! (a', k');
  del_held a k now d d' a' k' : del a k now d = Ok d' →
    held d' !! (a', k') = if decide (a' = a ∧ begins k k') then None else held d !! (a', k');
}.

Lemma over_stream_ok {A} (f : A → Entry → result SyncError A) acc es r :
  over_stream f acc es = Ok r → ∃ l, es = Ok <$> l ∧ over_stream f acc (Ok <$> l) = Ok r.
Proof.
  revert acc. induction es as [|[e|s] es IH]; intros acc; cbn; [by exists []| |done].
  destruct (f acc e) as [acc'|] eqn:E; [|done]. cbn. intros (l & -> & Hl)%IH.
  exists (e :: l). split; [done|]. cbn. by rewrite E.
Qed.

Lemma begins_refl k : begins k k.
Proof. unfold begins. rewrite <-(append_nil_r k) at 2. rewrite strip_prefix_app. by eexists. Qed.

Section catalogue.
Context `{IdTextLaws ItemId 64} `{IdTextLaws ContentHash 64} `{IdTextLaws MemberId 64}.
Context `{IdTextLaws BookmarkId 32} `{IdTextLaws WishId 64}.
Context `{CommunityJson} `{Crypto} `{DD : Documents} `{DL : !DocumentsLaws}.
Context (me : MemberId) (w : ContentWorld).

(** What one entry counts for. *)
Definition counts {T} (decode : list N → option T) (e : Entry) : option (CommunityEntry T) :=
  k ← parse_community (entry_key e);
  if decide (entry_author e = member_id32 (key_member k)) then
    match content w e with
    | Ok (Some bytes) => v ← decode bytes; Some (MkCommunityEntry k v (timestamp e))
    | _ => None
    end
  else None.

Lemma over_stream_counts {T} (decode : list N → option T) l acc r :
  over_stream (count_entry w decode) acc (Ok <$> l) = Ok r →
  counted_entries r = counted_entries acc ++ omap (counts decode) l.
Proof.
  revert acc. induction l as [|e l IH]; intros acc; [by intros [= <-]; rewrite app_nil_r|].
  rewrite omap_cons_eq. change (omap (counts decode) l) with (omap (counts decode) l) in IH.
  cbn [fmap list_fmap over_stream]. unfold count_entry at 1, counts at 1.
  destruct (parse_community (entry_key e)) as [k|]; cbn [result_bind mbind option_bind]; [|apply IH].
  destruct (decide (entry_author e = member_id32 (key_member k))) as [Ha|Ha].
  - rewrite bool_decide_false by tauto. destruct (content w e) as [[bytes|]|]; cbn [result_bind]; [| |done].
    + destruct (decode bytes) as [v|]; cbn [mbind option_bind]; [|apply IH].
      intros Hr. apply IH in Hr. rewrite Hr. cbn. by rewrite <-app_assoc.
    + intros Hr. by apply IH in Hr.
  - rewrite bool_decide_true by done. apply IH.
Qed.

Lemma counts_some {T} (decode : list N → option T) e x :
  counts decode e = Some x ↔
  entry_key e = encode_community (community_key x) ∧ entry_author e = member_id32 (key_member (community_key x)) ∧
  timestamp e = written_at x ∧ ∃ bytes, content w e = Ok (Some bytes) ∧ decode bytes = Some (community_value x).
Proof.
  unfold counts. split.
  - intros (k & Hk & Hx)%bind_Some. case_decide as Ha; [|done].
    destruct (content w e) as [[bytes|]|]; [|done..].
    apply bind_Some in Hx as (v & Hv & [= <-]). cbn. apply parse_community_some in Hk. eauto 10.
  - intros (Hk & Ha & Ht & bytes & Hc & Hd). rewrite Hk, parse_encode_community. cbn [mbind option_bind].
    rewrite decide_True, Hc by done. cbn. rewrite Hd. cbn. rewrite Ht. by destruct x.
Qed.

(** What is counted under a prefix, exactly. *)
Lemma counted_exact {T} prefix (decode : list N → option T) d r x :
  read_community_entries w prefix decode (Some d) = Ok r →
  x ∈ counted_entries r ↔
  begins prefix (encode_community (community_key x)) ∧
  ∃ e bytes, held d !! (member_id32 (key_member (community_key x)), encode_community (community_key x)) = Some e ∧
    timestamp e = written_at x ∧ content w e = Ok (Some bytes) ∧ decode bytes = Some (community_value x).
Proof.
  unfold read_community_entries, read_query. cbn [document result_bind].
  destruct (get_many (AllEntries prefix) d) as [es|] eqn:Hg; [|done].
  intros (l & -> & Hl)%over_stream_ok. apply over_stream_counts in Hl. rewrite Hl. cbn [counted_entries app].
  apply get_all in Hg as [_ Hin]. rewrite list_elem_of_omap. split.
  - intros (e & He & (Hk & Ha & Ht & bytes & Hc & Hd)%counts_some). apply Hin in He as [He Hp].
    rewrite Hk in Hp. split; [done|]. exists e, bytes. by rewrite <-Ha, <-Hk.
  - intros (Hp & e & bytes & He & Ht & Hc & Hd). destruct (held_at _ _ _ _ He) as [Ha Hk].
    exists e. split; [apply Hin; rewrite Ha, Hk; done|]. apply counts_some. eauto 10.
Qed.

(** ** Who is heard *)

(** C21: Whatever another member writes, at whatever key, with whatever value
    and claiming whatever time, what a member is read to say is the same:
    ratings, reviews, bookmarks, wishes, comments and probe failures alike. *)
Theorem nobody_speaks_for_another {T} prefix (decode : list N → option T) author key value now d d' r r' m :
  set_bytes author key value now d = Ok d' → author ≠ member_id32 m →
  read_community_entries w prefix decode (Some d) = Ok r →
  read_community_entries w prefix decode (Some d') = Ok r' →
  ∀ x, key_member (community_key x) = m → x ∈ counted_entries r' ↔ x ∈ counted_entries r.
Proof.
  intros Hset Hne Hr Hr' x Hx.
  rewrite (counted_exact _ _ _ _ _ Hr), (counted_exact _ _ _ _ _ Hr'), Hx.
  rewrite (set_held _ _ _ _ _ _ _ _ Hset), !decide_False by (intros [? _]; congruence). done.
Qed.

(** A member's own keys do not delete one another. *)
Lemma begins_own k k' : begins (encode_community k) (encode_community k') ↔ k = k'.
Proof.
  split; [|intros ->; apply begins_refl]. intros Hb.
  assert (inr k = inr k' :> Key + CommunityKey) as [= ->]; [|done].
  by apply no_key_begins_another.
Qed.

(** What a member says replaces what the same member said there before,
    is read back as it was said, at the time it was, once its content is here,
    and changes nothing else that anybody says. *)
Theorem saying_changes_only_that {T} prefix (decode : list N → option T) k value now d c' r r' :
  key_member k = me →
  put me now (encode_community k) value (Some d) = (c', Ok tt) →
  has_content w (MkContentHash (blake3 value)) = Ok (Complete (N.of_nat (length value))) →
  reads_content w (MkContentHash (blake3 value)) = Ok value →
  read_community_entries w prefix decode (Some d) = Ok r →
  read_community_entries w prefix decode c' = Ok r' →
  ∀ x, x ∈ counted_entries r' ↔
    (community_key x = k ∧ begins prefix (encode_community k) ∧ written_at x = now ∧
     decode value = Some (community_value x)) ∨
    (community_key x ≠ k ∧ x ∈ counted_entries r).
Proof.
  intros Hme Hput Hhas Hreads Hr Hr' x. unfold put in Hput. cbn [document] in Hput.
  destruct (set_bytes _ _ _ _ _) as [d'|] eqn:Hset; [|done]. injection Hput as <-.
  rewrite (counted_exact _ _ _ _ _ Hr), (counted_exact _ _ _ _ _ Hr').
  rewrite (set_held _ _ _ _ _ _ _ _ Hset).
  destruct (decide (community_key x = k)) as [Hk|Hk].
  - rewrite Hk, Hme, decide_True by done. split.
    + intros (Hp & e & bytes & [= <-] & Ht & Hc & Hd). left. cbn in Ht.
      unfold content in Hc. cbn in Hc. rewrite Hhas, Hreads in Hc. injection Hc as <-. done.
    + intros [(_ & Hp & Ht & Hd)|[? _]]; [|done]. split; [done|].
      eexists _, value. split_and!; [done|done| |done].
      unfold content. cbn. by rewrite Hhas, Hreads.
  - rewrite decide_False, decide_False.
    + tauto.
    + intros [_ Hb%begins_own]. congruence.
    + intros [_ Heq]. apply Hk. apply (f_equal parse_community) in Heq.
      rewrite !parse_encode_community in Heq. congruence.
Qed.

(** Clearing it takes back just that. *)
Theorem clearing_takes_back_only_that {T} prefix (decode : list N → option T) k now d c' r r' :
  key_member k = me →
  delete_entry me now (encode_community k) (Some d) = (c', Ok tt) →
  read_community_entries w prefix decode (Some d) = Ok r →
  read_community_entries w prefix decode c' = Ok r' →
  ∀ x, x ∈ counted_entries r' ↔ community_key x ≠ k ∧ x ∈ counted_entries r.
Proof.
  intros Hme Hdel Hr Hr' x. unfold delete_entry in Hdel. cbn [document] in Hdel.
  destruct (del _ _ _ _) as [d'|] eqn:Hset; [|done]. injection Hdel as <-.
  rewrite (counted_exact _ _ _ _ _ Hr), (counted_exact _ _ _ _ _ Hr').
  rewrite (del_held _ _ _ _ _ _ _ Hset).
  destruct (decide (community_key x = k)) as [Hk|Hk].
  - rewrite Hk, Hme, decide_True by (split; [done|apply begins_refl]).
    split; [by intros (_ & e & bytes & ? & _)|]. by intros [? _].
  - rewrite decide_False; [tauto|]. intros [_ Hb%begins_own]. congruence.
Qed.

(** ** What each prefix holds *)

Lemma begins_three a b k :
  plain a = true → plain b = true → begins (a +:+ "/" +:+ b +:+ "/") (encode_community k) →
  ∃ p ps, community_parts k = a :: b :: p :: ps.
Proof.
  intros Ha Hb Hbeg. change (a +:+ "/" +:+ b +:+ "/") with (joined [a; b; ""]) in Hbeg.
  rewrite encode_community_parts in Hbeg.
  apply begins_parts in Hbeg as (init & x & y & rest & Hi & Hk);
    [|done|apply community_parts_cons|by repeat constructor|apply community_parts_plain].
  change [a; b; ""] with ([a; b] ++ [""]) in Hi. apply app_inj_2 in Hi as [<- [= <-]]; [|done].
  by exists y, rest.
Qed.

(** A prefix holds the keys of one kind, of one thing. *)
Lemma begins_key (K : MemberId → CommunityKey) a b :
  (∀ m, community_parts (K m) = [a; b; show_id m]) → ∀ m, begins (a +:+ "/" +:+ b +:+ "/") (encode_community (K m)).
Proof.
  intros HK m. unfold begins. rewrite encode_community_parts, HK. cbn [joined].
  replace (a +:+ "/" +:+ b +:+ "/" +:+ show_id m) with ((a +:+ "/" +:+ b +:+ "/") +:+ show_id m) by (by rewrite !string_app_assoc).
  rewrite strip_prefix_app. by eexists.
Qed.
Ltac one_kind := match goal with
  | |- begins _ (encode_community ?k) ↔ _ => split;
      [intros (p & ps & Hk)%begins_three; [|done|apply show_plain]; destruct k; try discriminate Hk; injection Hk as Hi%show_id_inj _; subst; eauto
      |intros [m ->]; by apply (begins_key (λ m, _ m))]
  end.

Lemma in_ratings_of item k : begins (ratings_of item) (encode_community k) ↔ ∃ m, k = RatingKey item m.
Proof. unfold ratings_of. one_kind. Qed.
Lemma in_wish_entries_of wish k : begins (wish_entries_of wish) (encode_community k) ↔ ∃ m, k = WishKey wish m.
Proof. unfold wish_entries_of. one_kind. Qed.
Lemma in_bookmarks_of item k : begins (bookmarks_of item) (encode_community k) → ∃ m mark, k = BookmarkKey item m mark.
Proof.
  unfold bookmarks_of. intros (p & ps & Hk)%begins_three; [|done|apply show_plain].
  destruct k; try discriminate Hk. injection Hk as Hi%show_id_inj _. subst. eauto.
Qed.

(** What each member is read to say of one thing: what is at the key that names
    them, written by them, once its content is here and if it can be read. *)
Lemma by_member_exact {T} prefix (decode : list N → option T) (K : MemberId → CommunityKey) d vs m v :
  (∀ k, begins prefix (encode_community k) ↔ ∃ m, k = K m) → (∀ m, key_member (K m) = m) →
  by_member (read_community_entries w prefix decode (Some d)) = Ok vs →
  vs !! m = Some v ↔
  ∃ e bytes, held d !! (member_id32 m, encode_community (K m)) = Some e ∧
    content w e = Ok (Some bytes) ∧ decode bytes = Some v.
Proof.
  intros Hp HK. unfold by_member.
  destruct (read_community_entries w prefix decode (Some d)) as [r|] eqn:Hr; [|done].
  intros [= <-]. pose proof (λ x, counted_exact _ _ _ _ x Hr) as Hx.
  assert (∀ m v, (m, v) ∈ ((λ e, (key_member (community_key e), community_value e)) <$> counted_entries r) ↔
    ∃ e bytes, held d !! (member_id32 m, encode_community (K m)) = Some e ∧
      content w e = Ok (Some bytes) ∧ decode bytes = Some v) as Hin.
  { intros m' v'. rewrite list_elem_of_fmap. split.
    - intros (x & [= -> ->] & Hin). apply Hx in Hin as (Hb & e & bytes & He & _ & Hc & Hd).
      apply Hp in Hb as [m'' Hk]. rewrite Hk, HK in *. eauto.
    - intros (e & bytes & He & Hc & Hd). exists (MkCommunityEntry (K m') v' (timestamp e)).
      split; [by cbn; rewrite HK|]. apply Hx. cbn. rewrite HK. split; [apply Hp; by eexists|]. by exists e, bytes. }
  rewrite <-Hin. unfold values_by_member. split; [apply collect_map_elem|].
  intros Hmv. destruct (collect_map _ !! m) as [v'|] eqn:Hl.
  - apply collect_map_elem, Hin in Hl as (e & bytes & He & Hc & Hd).
    apply Hin in Hmv as (e' & bytes' & He' & Hc' & Hd'). congruence.
  - apply eq_None_not_Some in Hl. destruct Hl. apply collect_map_is_Some, list_elem_of_fmap. by exists (m, v).
Qed.

(** A member's rating of an item is the one at the key that names them,
    written by them, once its content is here and if it is a rating at all;
    nothing else in the document makes one. *)
Theorem rating_is_the_members_own item d rs m v :
  ratings w item (Some d) = Ok rs →
  rs !! m = Some v ↔
  ∃ e bytes, held d !! (member_id32 m, encode_community (RatingKey item m)) = Some e ∧
    content w e = Ok (Some bytes) ∧ decode_rating bytes = Some v.
Proof. by apply (by_member_exact _ _ (RatingKey item)); [apply in_ratings_of|]. Qed.

(** ** What an item is read to say *)

Definition says (i : Item) (s : Saying) : Prop :=
  match s with
  | SayKind v => kind i = Some v | SayTitle v => title i = Some v | SayAuthors v => authors i = Some v
  | SayGenres v => genres i = Some v | SaySeries v => series i = Some v | SayYear v => year i = Some v
  | SayLang v => lang i = Some v | SayDescription v => description i = Some v
  | SayFile b r => files i !! b = Some r
  end.

(** The value reads as what is said. *)
Definition reads_as (value : list N) (s : Saying) : Prop :=
  match s with
  | SayKind v => from_json value = Some v | SayTitle v => from_json value = Some v
  | SayAuthors v => from_json value = Some v | SayGenres v => from_json value = Some v
  | SaySeries v => from_json value = Some v | SayYear v => from_json value = Some v
  | SayLang v => from_json value = Some v | SayDescription v => from_json value = Some v
  | SayFile _ r => from_json value = Some r
  end.

Lemma absorb_item_id key value i : item_id (absorb key value i).1 = item_id i.
Proof.
  unfold absorb. destruct (parse_key key) as [k|]; [|done]. case_decide; [|done].
  destruct k as [id f|id b]; [|by destruct (from_json value)].
  destruct i, f; cbn; unfold take_value; by destruct (from_json value).
Qed.

(** An entry at the key of [s] says it, if its value reads so. *)
Lemma absorb_there value i s :
  ¬ says i s →
  says (absorb (encode_key (saying_key (item_id i) s)) value i).1 s ↔ reads_as value s.
Proof.
  intros Hno. unfold absorb. rewrite parse_encode_key.
  rewrite decide_True by by destruct s.
  destruct i as [id k t a g se y la d f], s; cbn in Hno |- *; unfold take_value;
    match goal with |- context [@from_json ?A ?J value] => destruct (@from_json A J value) as [x|] eqn:E end;
    cbn; try (split; [intros [= ->]; done | by intros [= ->]]); try (split; [by intros Hs | done]).
  - rewrite lookup_insert_eq. done.
Qed.

(** An entry anywhere else says nothing about it. *)
Lemma absorb_elsewhere key value i s :
  parse_key key ≠ Some (saying_key (item_id i) s) → says (absorb key value i).1 s ↔ says i s.
Proof.
  intros Hne. unfold absorb. destruct (parse_key key) as [k|]; [|done]. case_decide as Hid; [|done].
  destruct k as [id f|id b]; cbn in Hid; subst id.
  - destruct i as [id k t a g se y la d fs]; cbn in Hne.
    destruct f, s; cbn in Hne |- *; try congruence; unfold take_value;
      match goal with |- context [@from_json ?A ?J value] => by destruct (@from_json A J value) end.
  - destruct (from_json value) as [r|]; [|done]. destruct i as [id k t a g se y la d fs].
    destruct s; cbn in Hne |- *; try done. rewrite lookup_insert_ne by congruence. done.
Qed.

(** What an entry makes an item say, it says itself, at a key of that. *)
Lemma absorb_says key value i s :
  says (absorb key value i).1 s → says i s ∨ parse_key key = Some (saying_key (item_id i) s) ∧ reads_as value s.
Proof.
  destruct (decide (parse_key key = Some (saying_key (item_id i) s))) as [Hp|Hp]; [|rewrite absorb_elsewhere by done; by left].
  unfold absorb. rewrite Hp. rewrite decide_True by by destruct s.
  destruct i as [id k t a g se y la d f], s as [v|v|v|v|v|v|v|v|b r]; cbn; unfold take_value;
    match goal with |- context [@from_json ?A ?J value] => destruct (@from_json A J value) as [x|] eqn:E end;
    cbn; try (intros [= ->]; by right); try (by left).
  rewrite lookup_insert_eq. intros [= ->]. by right.
Qed.

(** The item after a stream of entries. *)
Definition absorb_entry (i : Item) (e : Entry) : Item :=
  match content w e with Ok (Some value) => (absorb (entry_key e) value i).1 | _ => i end.

Lemma absorb_entry_id i e : item_id (absorb_entry i e) = item_id i.
Proof. unfold absorb_entry. destruct (content w e) as [[v|]|]; [apply absorb_item_id|done..]. Qed.

Lemma over_stream_read l r r' :
  over_stream (read_entry w) r (Ok <$> l) = Ok r' →
  reading r' = foldl absorb_entry (reading r) l ∧ (found r' = true ↔ found r = true ∨ l ≠ []) ∧
  last_modified r' = foldl N.max (last_modified r) (timestamp <$> l) ∧
  (waiting_for_content r' = true ↔ waiting_for_content r = true ∨ ∃ e, e ∈ l ∧ content w e = Ok None).
Proof.
  revert r. induction l as [|e l IH]; intros r.
  { intros [= <-]. cbn. split_and!; [done|tauto|done|]. split; [tauto|]. by intros [?|(e & []%elem_of_nil & _)]. }
  cbn [fmap list_fmap over_stream]. unfold read_entry at 1.
  destruct (content w e) as [o|] eqn:Hc; [|done]. cbn [result_bind]. intros Hr. apply IH in Hr as (Hi & Hf & Hm & Hw).
  assert (absorb_entry (reading r) e = match o with Some v => (absorb (entry_key e) v (reading r)).1 | None => reading r end)
    as Ha by (unfold absorb_entry; rewrite Hc; by destruct o).
  cbn [foldl fmap list_fmap]. rewrite Ha.
  destruct o as [value|]; cbn in Hi, Hf, Hm, Hw; (split_and!; [done|naive_solver|done|]); rewrite Hw.
  - split; [intros [?|(e' & ? & ?)]; [by left|right; exists e'; by split; [right|]]|].
    intros [?|(e' & [->|?]%elem_of_cons & ?)]; [by left|congruence|right; by exists e'].
  - split; [intros _; right; exists e; by split; [left|]|]. by left.
Qed.

Lemma foldl_said l i s : says (foldl absorb_entry i l) s → says i s ∨
  ∃ e value, e ∈ l ∧ parse_key (entry_key e) = Some (saying_key (item_id i) s) ∧ content w e = Ok (Some value) ∧ reads_as value s.
Proof.
  revert i. induction l as [|e l IH]; intros i; cbn [foldl]; [by left|]. intros [Hs|(e' & v & Hin & Hrest)]%IH.
  - unfold absorb_entry in Hs. destruct (content w e) as [[v|]|] eqn:Hc; [|by left..].
    apply absorb_says in Hs as [?|[Hp Hv]]; [by left|]. right. exists e, v. by split; [left|].
  - right. rewrite absorb_entry_id in Hrest. exists e', v. by split; [right|].
Qed.

Lemma foldl_says l i s :
  NoDup (entry_key <$> l) → ¬ says i s →
  (∀ e, e ∈ l → parse_key (entry_key e) = Some (saying_key (item_id i) s) → entry_key e = encode_key (saying_key (item_id i) s)) →
  says (foldl absorb_entry i l) s ↔
  ∃ e value, e ∈ l ∧ entry_key e = encode_key (saying_key (item_id i) s) ∧
    content w e = Ok (Some value) ∧ reads_as value s.
Proof.
  revert i. induction l as [|e l IH]; intros i Hnd Hno Hcan.
  { split; [done|]. by intros (e & v & []%elem_of_nil & _). }
  cbn [fmap list_fmap] in Hnd. apply NoDup_cons in Hnd as [Hnin Hnd]. cbn [foldl].
  set (K := encode_key (saying_key (item_id i) s)).
  destruct (decide (entry_key e = K)) as [Hk|Hk].
  - assert (∀ e', e' ∈ l → parse_key (entry_key e') ≠ Some (saying_key (item_id i) s)) as Hrest.
    { intros e' He' Hp. apply Hnin, list_elem_of_fmap. exists e'. split; [|done].
      rewrite Hk. symmetry. apply (Hcan e'); [by right|done]. }
    assert (∀ i', item_id i' = item_id i → says (foldl absorb_entry i' l) s ↔ says i' s) as Hkeep.
    { clear IH Hnd Hnin Hcan. induction l as [|e' l IHl]; intros i' Hi'; [done|]. cbn [foldl].
      rewrite IHl; [|intros; apply Hrest; by right|by rewrite absorb_entry_id].
      unfold absorb_entry. destruct (content w e') as [[v|]|]; [|done..].
      apply absorb_elsewhere. rewrite Hi'. apply Hrest. by left. }
    rewrite Hkeep by apply absorb_entry_id. unfold absorb_entry. split.
    + destruct (content w e) as [[v|]|] eqn:Hc; [|done..]. rewrite Hk. unfold K. intros Hs.
      apply absorb_there in Hs; [|done]. exists e, v. split_and!; [by left|done..].
    + intros (e' & v & [->|Hin]%elem_of_cons & Hk' & Hc & Hs).
      * rewrite Hc, Hk'. by apply absorb_there.
      * destruct Hnin. apply list_elem_of_fmap. exists e'. by rewrite Hk, Hk'.
  - assert (says (absorb_entry i e) s ↔ says i s) as Hsame.
    { unfold absorb_entry. destruct (content w e) as [[v|]|]; [|done..].
      apply absorb_elsewhere. intros Hp. apply Hk. apply (Hcan e); [by left|done]. }
    rewrite IH; [|done|by rewrite Hsame|rewrite absorb_entry_id; intros e' ?; apply Hcan; by right].
    rewrite absorb_entry_id. fold K. split.
    + intros (e' & v & Hin & Hrest). exists e', v. by split; [right|].
    + intros (e' & v & [->|Hin]%elem_of_cons & Hk' & Hrest); [done|]. by exists e', v.
Qed.

(** No entry of the item says it at a key spelled in another way, as a file's
    can be, since a hash reads from hex of either case. *)
Definition one_spelling_of (d : Doc) (id : ItemId) (s : Saying) : Prop :=
  ∀ a key e, held d !! (a, key) = Some e → begins (prefix_of id) key → parse_key key = Some (saying_key id s) →
    key = encode_key (saying_key id s).

Lemma split_alone c s x : split_on c s = [x] → s = x.
Proof.
  revert x. induction s as [|a s IH]; intros x; cbn [split_on]; [by intros [= <-]|].
  case_bool_decide; [intros [= _ Hs]; by destruct (split_on_cons c s) as (? & ? & ?); congruence|].
  destruct (split_on c s) as [|y ys] eqn:E; [by destruct (split_on_cons c s) as (? & ? & ?); congruence|].
  intros [= <- ->]. by rewrite (IH y).
Qed.

(** A field is named in one way only. *)
Lemma field_has_one_spelling id f key : begins (prefix_of id) key → parse_key key = Some (FieldKey id f) → key = encode_key (FieldKey id f).
Proof.
  intros [rest Hr%strip_prefix_inv] Hp. unfold parse_key in Hp. subst key. unfold prefix_of in *. rewrite !string_app_assoc in *.
  destruct (from_utf8 _) as [text|] eqn:Eu; [|done]. unfold from_utf8 in Eu. case_match; [|done]. injection Eu as <-. cbn [mbind option_bind] in Hp.
  rewrite split_on_part in Hp by done. rewrite decide_True in Hp by done. rewrite split_on_part in Hp by apply show_plain.
  cbn [segment] in Hp. rewrite read_show in Hp. cbn [mbind option_bind] in Hp.
  destruct (split_on_cons slash rest) as (third & parts & Hs). rewrite Hs in Hp.
  case_decide; [destruct (segment parts) as [[b l]|]; [|done]; cbn [mbind option_bind] in Hp; by case_decide|].
  destruct (parse_field third) as [f'|] eqn:Ef; [|done]. cbn [mbind option_bind] in Hp. case_decide; [|done]. injection Hp as ->. subst parts.
  apply split_alone in Hs as ->. apply List.find_some in Ef as [_ <-%bool_decide_eq_true]. done.
Qed.

Lemma fields_are_spelled_once d id s : (∀ b r, s ≠ SayFile b r) → one_spelling_of d id s.
Proof.
  intros Hno a key e _ Hb. destruct s as [v|v|v|v|v|v|v|v|b r]; cbn [saying_key]; try by apply field_has_one_spelling.
  by destruct (Hno b r).
Qed.

(** No author's entry at the key is newer. *)
Definition newest (d : Doc) (key : string) (e : Entry) : Prop :=
  ∀ a e', held d !! (a, key) = Some e' → (timestamp e' ≤ timestamp e)%N.

Lemma begins_prefix_of id s : begins (prefix_of id) (encode_key (saying_key id s)).
Proof.
  assert (∀ a b c e : string, begins (a +:+ b +:+ c +:+ "/") (a +:+ b +:+ c +:+ "/" +:+ e)) as Hb.
  { intros a b c e. unfold begins. exists e.
    rewrite <-(strip_prefix_app (a +:+ b +:+ c +:+ "/") e). f_equal. by rewrite !string_app_assoc. }
  destruct s; apply Hb.
Qed.

Lemma new_item_silent id s : ¬ says (new_item id) s.
Proof. by destruct s. Qed.

Lemma foldl_max_le n l x : (x ≤ n)%N ∨ (∃ y, y ∈ l ∧ x ≤ y)%N → (x ≤ foldl N.max n l)%N.
Proof.
  revert n. induction l as [|y l IH]; intros n; cbn; [by intros [?|(z & []%elem_of_nil & _)]|].
  intros [Hx|(z & [->|Hz]%elem_of_cons & Hx)]; apply IH; [left; lia|left; lia|right; eauto].
Qed.

(** C22: An item is there exactly when some entry of it is, and whatever it
    says, of a field or a file, is what the newest entry at a key of that says,
    whoever wrote it, its content here and readable. Where one entry is strictly
    the newest at a field's key, and here and readable, its value is what the
    item says; and so at a file's, if no entry of the item is at another
    spelling of that key: a hash reads from hex of either case, and of two
    spellings either may be what the item says. Two members who write different
    fields lose nothing, and the item was changed no earlier than any of its
    entries that count. *)
Theorem item_says_what_was_written_last id d r :
  read_item w id (Some d) = Ok r →
  (r = None ↔ ∀ a key e, held d !! (a, key) = Some e → ¬ begins (prefix_of id) key) ∧
  ∀ x, r = Some x →
    (∀ s, says (read_back x) s → ∃ a key e value,
       held d !! (a, key) = Some e ∧ parse_key key = Some (saying_key id s) ∧ newest d key e ∧
       content w e = Ok (Some value) ∧ reads_as value s) ∧
    (∀ s a e value, held d !! (a, encode_key (saying_key id s)) = Some e →
       match s with SayFile _ _ => one_spelling_of d id s | _ => True end →
       (∀ a' e', a' ≠ a → held d !! (a', encode_key (saying_key id s)) = Some e' → (timestamp e' < timestamp e)%N) →
       content w e = Ok (Some value) → reads_as value s → says (read_back x) s) ∧
    (∀ a key e, held d !! (a, key) = Some e → begins (prefix_of id) key → (timestamp e ≤ item_modified x)%N).
Proof.
  intros Hr. unfold read_item, read_query in Hr. cbn [document result_bind] in Hr.
  destruct (get_many (LatestPerKey (prefix_of id)) d) as [es|] eqn:Hg; [|done].
  destruct (over_stream (read_entry w) _ es) as [r0|] eqn:Hs; [|done]. cbn [result_bind] in Hr.
  apply over_stream_ok in Hs as (l & -> & Hs). apply over_stream_read in Hs as (Hi & Hf & Hm & _). cbn in Hi, Hf, Hm.
  apply get_latest in Hg as (Hnd & Hin & Hall).
  assert (r = None ↔ l = []) as Hnone.
  { destruct (found r0); cbn [negb] in Hr.
    - split; [|intros ->; by destruct (proj1 Hf eq_refl)].
      destruct (read_community_entries w (ratings_of id) _ _) as [rs|]; [|done].
      destruct (read_community_entries w (reviews_of id) _ _) as [vs|]; [|done].
      destruct (read_file_authors w id _) as [au|]; [|done]. cbn in Hr. by injection Hr as <-.
    - injection Hr as <-. split; [|done]. intros _. destruct l; [done|].
      exfalso. assert (false = true); [apply Hf; by right|done]. }
  split.
  { rewrite Hnone. split.
    - intros -> a key e He Hb. by destruct (Hall a key e He Hb) as (e' & []%elem_of_nil & _).
    - intros Hno. destruct l as [|e l]; [done|]. destruct (Hin e ltac:(by left)) as (He & Hb & _).
      by destruct (Hno _ _ _ He). }
  intros x ->. assert (read_back x = reading r0 ∧ item_modified x = last_modified r0) as [-> ->].
  { destruct (found r0); [|done]. cbn [negb] in Hr.
    destruct (read_community_entries w (ratings_of id) _ _) as [rs|]; [|done].
    destruct (read_community_entries w (reviews_of id) _ _) as [vs|]; [|done].
    destruct (read_file_authors w id _) as [au|]; [|done]. cbn in Hr. by injection Hr as <-. }
  rewrite Hi, Hm.
  split_and!.
  - intros s [Hs|(e & value & He & Hk & Hc & Hv)]%foldl_said; [by apply new_item_silent in Hs|].
    apply Hin in He as (He & _ & Hnew). by exists (entry_author e), (entry_key e), e, value.
  - intros s a e value He Hone Hnew Hc Hv.
    assert (one_spelling_of d id s) as Hsp by (destruct s; try done; by apply fields_are_spelled_once).
    apply foldl_says; [done|apply new_item_silent| |].
    { intros e' He' Hk. apply Hin in He' as (Hh & Hb & _). by apply (Hsp _ _ _ Hh). }
    destruct (Hall a _ e He (begins_prefix_of id s)) as (e' & He' & Hk').
    destruct (Hin e' He') as (Hh & _ & Hle). rewrite Hk' in *.
    assert (e' = e) as <-; [|by exists e', value].
    destruct (decide (entry_author e' = a)) as [<-|Hne]; [congruence|].
    specialize (Hnew _ _ Hne Hh). specialize (Hle a e He). lia.
  - intros a key e He Hb. destruct (Hall a key e He Hb) as (e' & He' & <-).
    apply foldl_max_le. right. exists (timestamp e'). split; [by apply list_elem_of_fmap_2|].
    destruct (Hin e' He') as (_ & _ & Hle). by apply (Hle a).
Qed.
End catalogue.
