(* ===== verification/CatalogueFixtures.v ===== *)
(** * A document as a finite map, and a few things said in it *)

From Stdlib Require Import Ascii.
From stdpp Require Import strings.
From S2P Require Import Prelude Ids Events Heartbeats Keeping KeepingFixtures Failures Statements Blobs.
From S2P Require Import Fixtures Texts Items ItemsProps TextFixtures Community Catalogue CatalogueProps.

(** ** Texts and values *)

#[export] Instance test_wish_text : IdText WishId := {|
  show_id x := hex_text 64 (id_num (wish_id32 x));
  read_id s := MkWishId <$> Id32_of_num (hex_value s);
|}.
#[export] Instance test_wish_text_laws : IdTextLaws WishId 64.
Proof.
  split; intros [i]; cbn [show_id read_id test_wish_text wish_id32]; try apply hex_text_laws.
  by rewrite hex_value_text, Id32_of_num_id by apply id32_text_bound.
Qed.

Definition bookmark_of_num (n : N) : option BookmarkId :=
  match decide (bool_decide (n < 2 ^ 128)%N) with left H => Some (MkBookmarkId n H) | right _ => None end.
Lemma bookmark_of_num_id b : bookmark_of_num (bookmark_num b) = Some b.
Proof.
  unfold bookmark_of_num. destruct (decide _) as [Hd|Hn]; [f_equal; by apply BookmarkId_eq|].
  destruct Hn. apply bookmark_bound.
Qed.
#[export] Instance test_bookmark_text : IdText BookmarkId := {|
  show_id b := hex_text 32 (bookmark_num b);
  read_id s := bookmark_of_num (hex_value s);
|}.
#[export] Instance test_bookmark_text_laws : IdTextLaws BookmarkId 32.
Proof.
  split; intros b; cbn [show_id read_id test_bookmark_text]; try apply hex_text_laws.
  rewrite hex_value_text; [apply bookmark_of_num_id|].
  change (16 ^ N.of_nat 32)%N with (2 ^ 128)%N. exact (bool_decide_unpack _ (bookmark_bound b)).
Qed.

#[export] Instance Bookmark_countable : Countable Bookmark.
Proof.
  refine (inj_countable' (λ b, (position b, note b, created_at b)) (λ '(p, n, c), MkBookmark p n c) _). by intros [].
Defined.
#[export] Instance WishStatus_countable : Countable WishStatus.
Proof.
  refine (inj_countable' (λ s, match s with Open => None | Fulfilled i => Some i end)
    (λ o, match o with None => Open | Some i => Fulfilled i end) _). by intros [].
Defined.
#[export] Instance WishFields_countable : Countable WishFields.
Proof.
  refine (inj_countable' (λ f, (wish_kind f, wish_title f, wish_authors f, wish_description f, (wish_created_at f, wish_status f)))
    (λ '(a, b, c, d, (e, f)), MkWishFields a b c d e f) _). by intros [].
Defined.
#[export] Instance ProbeFailure_countable : Countable ProbeFailure.
Proof.
  refine (inj_countable' (λ f, (failure_item f, failure_blob f, failure_chunk f, failure_in_a_row f))
    (λ '(a, b, c, d), MkProbeFailure a b c d) _). by intros [].
Defined.
#[export] Instance wish_holds_dec f : Decision (wish_holds f).
Proof. unfold wish_holds, fits. destruct (wish_created_at f); apply _. Defined.
#[export] Instance test_community_json : CommunityJson := {|
  json_item := test_item_json; json_u8 := coded_json; json_bookmark := coded_json; json_wish := strict_json wish_holds;
  json_failure := coded_json;
|}.
#[export] Instance test_community_json_laws : CommunityJsonLaws.
Proof. split; [apply test_item_json_laws|apply coded_json_laws|apply coded_json_laws|by apply strict_json_laws|apply coded_json_laws]. Qed.

(** ** Documents *)

Notation TestDoc := (gmap (Id32 * string) Entry).

Definition under (p : string) (d : TestDoc) : list Entry := filter (λ e, begins p (entry_key e)) (map_to_list d).*2.

(** Newer, and of two written at once the one by the greater author. *)
Definition newer (a b : Entry) : bool :=
  bool_decide (timestamp b < timestamp a ∨
    timestamp a = timestamp b ∧ id_num (entry_author b) < id_num (entry_author a))%N.
Definition is_latest (l : list Entry) (e : Entry) : bool :=
  forallb (λ x, negb (bool_decide (entry_key x = entry_key e) && newer x e)) l.
Definition latest_of (l : list Entry) : list Entry := filter (λ e, is_latest l e = true) l.

Definition write_entry (a : Id32) (k : string) (v : list N) (now : N) (d : TestDoc) : TestDoc :=
  <[(a, k) := MkEntry k a (MkContentHash (blake3 v)) (N.of_nat (length v)) now]>
    (filter (λ x, ¬ (x.1.1 = a ∧ begins k x.1.2)) d).

(** An entry is stored under its author and key. *)
Definition filed (d : TestDoc) : Prop := map_Forall (λ x e, entry_author e = x.1 ∧ entry_key e = x.2) d.

#[export] Instance filed_dec d : Decision (filed d).
Proof. unfold filed. apply _. Defined.

Record FiledDoc : Type := MkFiled { the_doc : TestDoc; is_filed : filed the_doc }.

Lemma filed_filter (P : (Id32 * string) * Entry → Prop) `{∀ x, Decision (P x)} d : filed d → filed (filter P d).
Proof. intros Hf x e [He _]%map_lookup_filter_Some. by apply (Hf x). Qed.

Lemma filed_write a k v now d : filed d → filed (write_entry a k v now d).
Proof. intros Hf. apply map_Forall_insert_2; [done|]. by apply filed_filter. Qed.

Definition delete_beneath (a : Id32) (k : string) (d : TestDoc) : TestDoc :=
  filter (λ x, ¬ (x.1.1 = a ∧ begins k x.1.2)) d.

#[export] Instance test_documents : Documents := {|
  Doc := FiledDoc;
  get_many q d := Ok (Ok <$> match q with
    | AllEntries p => under p (the_doc d)
    | LatestPerKey p => latest_of (under p (the_doc d))
    | LatestAt k => latest_of (filter (λ e, entry_key e = k) (map_to_list (the_doc d)).*2)
    end);
  set_bytes a k v now d := Ok (MkFiled _ (filed_write a k v now (the_doc d) (is_filed d)));
  del a k _ d := Ok (MkFiled (delete_beneath a k (the_doc d)) (filed_filter _ (the_doc d) (is_filed d)));
|}.

Lemma elem_of_under p d e : filed d →
  e ∈ under p d ↔ d !! (entry_author e, entry_key e) = Some e ∧ begins p (entry_key e).
Proof.
  intros Hf. unfold under. rewrite list_elem_of_filter, list_elem_of_fmap. split.
  - intros (Hb & [[a k] x] & -> & Hin%elem_of_map_to_list). destruct (Hf _ _ Hin) as [Ha Hk]. cbn in *.
    rewrite Hk in Hb |- *. by rewrite Ha.
  - intros [Hd Hb]. split; [done|]. exists (entry_author e, entry_key e, e). by rewrite elem_of_map_to_list.
Qed.

Lemma NoDup_under p d : filed d → NoDup (under p d).
Proof.
  intros Hf. unfold under. apply NoDup_filter.
  assert (∀ l : list ((Id32 * string) * Entry), NoDup l → (∀ x, x ∈ l → entry_author x.2 = x.1.1 ∧ entry_key x.2 = x.1.2) →
    NoDup l.*2) as Hl.
  { induction l as [|[[a k] e] l IH]; [by intros; apply NoDup_nil|]. intros [Hx Hnd]%NoDup_cons Hall.
    cbn. apply NoDup_cons. split; [|apply IH; [done|]; intros; apply Hall; by right].
    intros ([[a' k'] e'] & -> & Hin)%list_elem_of_fmap. apply Hx.
    destruct (Hall (a, k, e') ltac:(by left)) as [Ha Hk]. destruct (Hall (a', k', e') ltac:(by right)) as [Ha' Hk'].
    cbn in *. by subst. }
  apply Hl; [apply NoDup_map_to_list|]. intros [[a k] e] Hin%elem_of_map_to_list. by apply (Hf (a, k)).
Qed.

Lemma is_latest_spec l e : is_latest l e = true ↔
  ∀ x, x ∈ l → entry_key x = entry_key e → newer x e = false.
Proof.
  unfold is_latest. rewrite forallb_forall. split.
  - intros Hall x Hx%list_elem_of_In Hk. specialize (Hall x Hx). rewrite bool_decide_true in Hall by done.
    cbn in Hall. by apply negb_true_iff in Hall.
  - intros Hall x Hx%list_elem_of_In. destruct (decide (entry_key x = entry_key e)) as [Hk|Hk].
    + by rewrite (Hall x Hx Hk), andb_false_r.
    + by rewrite bool_decide_false.
Qed.

Lemma newer_false a b : newer a b = false → newer b a = false → entry_author a = entry_author b.
Proof.
  unfold newer. rewrite !bool_decide_eq_false. intros Ha Hb. apply Id32_eq. lia.
Qed.

(** Some entry of a list is the newest of those at its key. *)
Lemma latest_exists l k e : e ∈ l → entry_key e = k →
  ∃ x, x ∈ l ∧ entry_key x = k ∧ is_latest l x = true.
Proof.
  intros He Hk. set (at_k := filter (λ x, entry_key x = k) l).
  assert (∀ at_k : list Entry, (∃ e, e ∈ at_k) → ∃ x, x ∈ at_k ∧ ∀ y, y ∈ at_k → newer y x = false) as Hmax.
  { clear. induction at_k as [|a [|b rest] IH]; [by intros (e & []%elem_of_nil)| |]; intros _.
    - exists a. split; [by left|]. intros y ->%list_elem_of_singleton. unfold newer. apply bool_decide_eq_false. lia.
    - destruct IH as (x & Hx & Hall); [exists b; by left|]. destruct (newer a x) eqn:E.
      + exists a. split; [by left|]. intros y [->|Hy]%elem_of_cons; [unfold newer; apply bool_decide_eq_false; lia|].
        specialize (Hall y Hy). unfold newer in *. rewrite bool_decide_eq_true in E.
        rewrite bool_decide_eq_false in *. lia.
      + exists x. split; [by right|]. intros y [->|Hy]%elem_of_cons; [done|by apply Hall]. }
  destruct (Hmax at_k) as (x & Hx & Hall).
  { exists e. by apply list_elem_of_filter. }
  apply list_elem_of_filter in Hx as [Hkx Hx]. exists x. split_and!; [done..|].
  apply is_latest_spec. intros y Hy Hky. apply Hall, list_elem_of_filter. by rewrite Hky.
Qed.

#[export] Instance test_documents_laws : DocumentsLaws.
Proof.
  refine {| held := the_doc |}.
  - intros d a k e He. exact (is_filed d (a, k) e He).
  - intros p d es Hg. cbn in Hg. injection Hg as Hg. apply fmap_ok_inj in Hg as <-.
    split; [apply NoDup_under, is_filed|]. intros e. apply elem_of_under, is_filed.
  - intros p d es Hg. cbn in Hg. injection Hg as Hg. apply fmap_ok_inj in Hg as <-.
    pose proof (is_filed d) as Hf. split_and!.
    + apply NoDup_fmap_2_strong; [|by apply NoDup_filter, NoDup_under].
      intros x y [Hlx Hx]%list_elem_of_filter [Hly Hy]%list_elem_of_filter Hk.
      rewrite is_latest_spec in Hlx, Hly.
      assert (entry_author x = entry_author y) as Ha by (apply newer_false; auto).
      apply elem_of_under in Hx as [Hx _]; [|done]. apply elem_of_under in Hy as [Hy _]; [|done].
      rewrite Ha, Hk in Hx. congruence.
    + intros e [Hl Hin]%list_elem_of_filter. rewrite is_latest_spec in Hl.
      pose proof Hin as [He Hb]%elem_of_under; [|done]. split_and!; [done..|].
      intros a e' He'. destruct (Hf _ _ He') as [Ha Hk]. cbn in Ha, Hk.
      assert (newer e' e = false) as Hn.
      { apply Hl; [|done]. apply elem_of_under; [done|]. by rewrite Ha, Hk. }
      unfold newer in Hn. apply bool_decide_eq_false in Hn. lia.
    + intros a k e' He' Hb. destruct (Hf _ _ He') as [Ha Hk]. cbn in Ha, Hk.
      destruct (latest_exists (under p (the_doc d)) k e') as (x & Hx & Hkx & Hl).
      * apply elem_of_under; [done|]. by rewrite Ha, Hk.
      * done.
      * exists x. split; [|done]. by apply list_elem_of_filter.
  - intros a k v now d d' a' k' Hs. cbn in Hs. injection Hs as <-. cbn. unfold write_entry.
    case_decide as Hd; [by destruct Hd as [-> ->]; rewrite lookup_insert_eq|].
    rewrite lookup_insert_ne by (intros [= -> ->]; by destruct Hd).
    case_decide as Hb.
    + apply map_lookup_filter_None. right. intros e _ Hno. cbn in Hno. tauto.
    + destruct (the_doc d !! (a', k')) as [e|] eqn:E.
      * apply map_lookup_filter_Some. split; [done|]. cbn. tauto.
      * apply map_lookup_filter_None. by left.
  - intros a k now d d' a' k' Hs. cbn in Hs. injection Hs as <-. cbn. unfold delete_beneath.
    case_decide as Hb.
    + apply map_lookup_filter_None. right. intros e _ Hno. cbn in Hno. tauto.
    + destruct (the_doc d !! (a', k')) as [e|] eqn:E.
      * apply map_lookup_filter_Some. split; [done|]. cbn. tauto.
      * apply map_lookup_filter_None. by left.
Defined.

(** ** Members 1 and 2 rate an item *)

(** Every content is here, as the one byte string there is. *)
Definition all_here (v : list N) : ContentWorld := {|
  has_content _ := Ok (Complete (N.of_nat (length v)));
  reads_content _ := Ok v;
  is_public_key _ := true;
|}.

Definition empty_doc : FiledDoc := MkFiled ∅ (map_Forall_empty _).
Definition stars (n : N) : list N := encode_rating (MkRating n).
Definition rating_key (m : N) : string := encode_community (RatingKey (MkItemId (id32 7)) (member m)).
Definition after {A} (d : A) (r : result string A) : A := match r with Ok d => d | Err _ => d end.
Definition rated (author named at_ : N) (d : FiledDoc) : FiledDoc :=
  after d (set_bytes (member_id32 (member author)) (rating_key named) (stars 5) at_ d).

Lemma set_ok (a : Id32) k v now (d : FiledDoc) :
  set_bytes a k v now d = Ok (after d (set_bytes a k v now d)).
Proof. reflexivity. Qed.
Lemma del_ok (a : Id32) k now (d : FiledDoc) : del a k now d = Ok (after d (del a k now d)).
Proof. reflexivity. Qed.
Lemma put_ok (m : MemberId) k v now (d : FiledDoc) :
  put m now k v (Some d) = (Some (after d (set_bytes (member_id32 m) k v now d)), Ok tt).
Proof. reflexivity. Qed.
Lemma delete_ok (m : MemberId) k now (d : FiledDoc) :
  delete_entry m now k (Some d) = (Some (after d (del (member_id32 m) k now d)), Ok tt).
Proof. reflexivity. Qed.

(** Member 1 rates the item, and member 2 writes at member 1's key later. *)
Definition honest : FiledDoc := rated 1 1 10 empty_doc.
Definition forged : FiledDoc := rated 2 1 20 honest.
Definition world : ContentWorld := all_here (stars 5).
Definition book : ItemId := MkItemId (id32 7).

Definition read_ratings (d : FiledDoc) : result SyncError (CommunityEntries Rating) :=
  read_community_entries world (ratings_of book) decode_rating (Some d).
Definition heard_ratings (d : FiledDoc) : CommunityEntries Rating :=
  match read_ratings d with Ok r => r | Err _ => MkCommunityEntries [] false end.
Lemma heard_ok d : is_ok (read_ratings d) = true →
  read_community_entries world (ratings_of book) decode_rating (Some d) = Ok (heard_ratings d).
Proof. change (is_ok (read_ratings d) = true → read_ratings d = Ok (heard_ratings d)). unfold heard_ratings. by destruct (read_ratings d). Qed.

Lemma nobody_speaks_for_another_witness :
  length (counted_entries (heard_ratings honest)) = 1 ∧
  ∀ x, key_member (community_key x) = member 1 →
    x ∈ counted_entries (heard_ratings forged) ↔ x ∈ counted_entries (heard_ratings honest).
Proof.
  split; [vm_compute; reflexivity|].
  refine (nobody_speaks_for_another world (ratings_of book) decode_rating (member_id32 (member 2)) (rating_key 1) (stars 5) 20
    honest forged _ _ (member 1) (set_ok _ _ _ _ _) _ (heard_ok honest _) (heard_ok forged _)).
  - by_decision.
  - vm_compute. reflexivity.
  - vm_compute. reflexivity.
Defined.

Lemma saying_changes_only_that_witness :
  length (counted_entries (heard_ratings (rated 2 2 20 honest))) = 2 ∧
  ∀ x, x ∈ counted_entries (heard_ratings (rated 2 2 20 honest)) ↔
    (community_key x = RatingKey book (member 2) ∧ begins (ratings_of book) (encode_community (RatingKey book (member 2))) ∧
     written_at x = 20%N ∧ decode_rating (stars 5) = Some (community_value x)) ∨
    (community_key x ≠ RatingKey book (member 2) ∧ x ∈ counted_entries (heard_ratings honest)).
Proof.
  split; [vm_compute; reflexivity|].
  refine (saying_changes_only_that (member 2) world (ratings_of book) decode_rating (RatingKey book (member 2)) (stars 5) 20
    honest (Some (rated 2 2 20 honest)) _ _ eq_refl (put_ok _ _ _ _ _) eq_refl eq_refl (heard_ok honest _) (heard_ok (rated 2 2 20 honest) _)).
  - vm_compute. reflexivity.
  - vm_compute. reflexivity.
Defined.

Lemma clearing_takes_back_only_that_witness :
  length (counted_entries (heard_ratings (after honest (del (member_id32 (member 1)) (rating_key 1) 30 honest)))) = 0 ∧
  ∀ x, x ∈ counted_entries (heard_ratings (after honest (del (member_id32 (member 1)) (rating_key 1) 30 honest))) ↔
    community_key x ≠ RatingKey book (member 1) ∧ x ∈ counted_entries (heard_ratings honest).
Proof.
  split; [vm_compute; reflexivity|].
  refine (clearing_takes_back_only_that (member 1) world (ratings_of book) decode_rating (RatingKey book (member 1)) 30
    honest (Some (after honest (del (member_id32 (member 1)) (rating_key 1) 30 honest))) _ _ eq_refl (delete_ok _ _ _ _)
    (heard_ok honest _) (heard_ok (after honest (del (member_id32 (member 1)) (rating_key 1) 30 honest)) _)).
  - vm_compute. reflexivity.
  - vm_compute. reflexivity.
Defined.

Definition ok_or {E A} (a : A) (r : result E A) : A := match r with Ok x => x | Err _ => a end.
Lemma is_ok_eq {E A} (a : A) (r : result E A) : is_ok r = true → r = Ok (ok_or a r).
Proof. by destruct r. Qed.

Definition rating_map (d : FiledDoc) : gmap MemberId Rating := ok_or ∅ (ratings world book (Some d)).

Lemma rating_is_the_members_own_witness :
  rating_map forged !! member 1 = Some (MkRating 5) ↔
  ∃ e bytes, held forged !! (member_id32 (member 1), rating_key 1) = Some e ∧
    content world e = Ok (Some bytes) ∧ decode_rating bytes = Some (MkRating 5).
Proof.
  refine (rating_is_the_members_own world book forged (rating_map forged) (member 1) (MkRating 5)
    (is_ok_eq ∅ (ratings world book (Some forged)) _)).
  vm_compute. reflexivity.
Defined.

(** A title written by member 1, and another later by member 2. *)
Definition titled (author at_ : N) (d : FiledDoc) : FiledDoc :=
  after d (set_bytes (member_id32 (member author)) (encode_key (FieldKey book FTitle)) (to_json "Dune") at_ d).
Definition retitled : FiledDoc := titled 2 20 (titled 1 10 empty_doc).
Definition read_book : result SyncError (option ReadItem) := read_item (all_here (to_json "Dune")) book (Some retitled).
Definition the_book : ReadItem :=
  match read_book with Ok (Some x) => x | _ => MkReadItem (new_item book) ∅ ∅ ∅ 0 false end.
Lemma the_book_ok :
  match read_book with Ok (Some _) => true | _ => false end = true →
  read_item (all_here (to_json "Dune")) book (Some retitled) = Ok (Some the_book).
Proof.
  change (match read_book with Ok (Some _) => true | _ => false end = true → read_book = Ok (Some the_book)).
  unfold the_book. by destruct read_book as [[x|]|]. Qed.

Lemma item_says_what_was_written_last_witness :
  title (read_back the_book) = Some "Dune" ∧
  ∃ a key e value, held retitled !! (a, key) = Some e ∧ parse_key key = Some (FieldKey book FTitle) ∧
    newest retitled key e ∧ content (all_here (to_json "Dune")) e = Ok (Some value) ∧ reads_as value (SayTitle "Dune").
Proof.
  split; [vm_compute; reflexivity|].
  refine (proj1 (proj2 (item_says_what_was_written_last (all_here (to_json "Dune")) book retitled (Some the_book)
    (the_book_ok _)) the_book eq_refl) (SayTitle "Dune") _).
  - vm_compute. reflexivity.
  - vm_compute. reflexivity.
Defined.

Lemma no_key_begins_another_witness :
  (inl (FieldKey book FTitle) : Key + CommunityKey) = inl (FieldKey book FTitle).
Proof.
  refine (no_key_begins_another (inl (FieldKey book FTitle)) (inl (FieldKey book FTitle)) _).
  apply begins_refl.
Defined.

(** A rating's key, and the same with something after it. *)
Lemma one_spelling_witness :
  (parse_community (rating_key 1) = Some (RatingKey book (member 1)) ↔ rating_key 1 = encode_community (RatingKey book (member 1))) ∧
  parse_community (rating_key 1 +:+ "/x") = None.
Proof.
  split; [|vm_compute; reflexivity].
  exact (one_spelling (rating_key 1) (RatingKey book (member 1))).
Defined.
