(* ===== verification/Changes.v ===== *)
(** * What the read model is told to read again

    [crates/distlib-sync/src/changes.rs]. A [Batch] of what changed is filled
    by the pump and the content sweep and taken whole by one reader; a watch
    channel, whose versions are counted, wakes it. The pump's side of a note
    and the wake after it are two steps, and so are the reader's mark and its
    look, so the interleavings are steps of their own. *)

From stdpp Require Import strings.
From S2P Require Import Prelude Ids Events Keeping Failures Texts Items Community Catalogue.

(** ** Batches *)

Record Batch : Type := MkBatch {
  batch_items : gset ItemId;
  items_with_changed_bookmarks : gset ItemId;
  changed_wishes : gset WishId;
  content_arrived : bool;
}.

#[export] Instance Batch_eq_dec : EqDecision Batch.
Proof. solve_decision. Defined.

Definition default_batch : Batch := MkBatch ∅ ∅ ∅ false.

Definition batch_is_empty (b : Batch) : bool :=
  bool_decide (batch_items b = ∅) && bool_decide (items_with_changed_bookmarks b = ∅) &&
  bool_decide (changed_wishes b = ∅) && negb (content_arrived b).

(** [BTreeSet::insert], with whether it was new. *)
Definition insert_new {A} `{Countable A} (a : A) (s : gset A) : gset A * bool := ({[a]} ∪ s, bool_decide (a ∉ s)).

Section note.
Context `{IdText ItemId, IdText ContentHash, IdText MemberId, IdText BookmarkId, IdText WishId}.

(** [note]: the batch, whether there is news, and whether a probe failure may
    have changed. *)
Definition note_key (key : string) (b : Batch) : Batch * bool * bool :=
  match parse_key key with
  | Some parsed =>
      let '(s, new) := insert_new (key_item parsed) (batch_items b) in
      (MkBatch s (items_with_changed_bookmarks b) (changed_wishes b) (content_arrived b), new, false)
  | None =>
      match parse_community key with
      | Some (RatingKey item _) | Some (ReviewKey item _) =>
          let '(s, new) := insert_new item (batch_items b) in
          (MkBatch s (items_with_changed_bookmarks b) (changed_wishes b) (content_arrived b), new, false)
      | Some (BookmarkKey item _ _) =>
          let '(s, new) := insert_new item (items_with_changed_bookmarks b) in
          (MkBatch (batch_items b) s (changed_wishes b) (content_arrived b), new, false)
      | Some (WishKey wish _) | Some (WishCommentKey wish _) =>
          let '(s, new) := insert_new wish (changed_wishes b) in
          (MkBatch (batch_items b) (items_with_changed_bookmarks b) s (content_arrived b), new, false)
      | Some (ProbeFailureKey _ _) => (b, false, true)
      | None => (b, false, false)
      end
  end.

(** [News::mark_content_landed]. *)
Definition mark_content_landed (b : Batch) : Batch * bool :=
  (MkBatch (batch_items b) (items_with_changed_bookmarks b) (changed_wishes b) true, negb (content_arrived b)).

(** ** The pump *)

Record LastSync : Type := MkLastSync { finished : N; sync_ok : bool }.
Record SyncState : Type := MkSyncState { neighbours : gset MemberId; last_sync : gmap MemberId LastSync }.

(** [LiveEvent], with the clock of the moment it is read; the entries as
    their keys. *)
Inductive LiveEvent : Type :=
| InsertLocal (key : string)
| InsertRemote (key : string)
| ContentReady
| PendingContentReady
| NeighborUp (peer : MemberId) (now : N)
| NeighborDown (peer : MemberId)
| SyncFinished (peer : MemberId) (sync_started sync_finished : N) (result_ok : bool).

(** [probe_failures] and [woke] count what their channels were sent. *)
Record Pump : Type := MkPump {
  pending : Batch;
  woke : N;
  probe_failures_sent : N;
  sync : SyncState;
  up_since : gmap MemberId N;
}.

Definition feed : Pump := MkPump default_batch 0 0 (MkSyncState ∅ ∅) ∅.

Definition set_batch (b : Batch) (probe : bool) (p : Pump) : Pump :=
  MkPump b (woke p) (if probe then probe_failures_sent p + 1 else probe_failures_sent p)%N (sync p) (up_since p).
Definition wake (p : Pump) : Pump :=
  MkPump (pending p) (woke p + 1) (probe_failures_sent p) (sync p) (up_since p).

(** [Pump::began_before_neighbour]. *)
Definition began_before_neighbour (peer : MemberId) (started : N) (p : Pump) : bool :=
  match up_since p !! peer with Some up => bool_decide (started < up)%N | None => false end.

(** [Pump::note]: the pump, whether the read model has news, and whom to sync
    with again. *)
Definition note_event (e : LiveEvent) (p : Pump) : Pump * bool * option MemberId :=
  match e with
  | InsertLocal key | InsertRemote key =>
      let '(b, news, probe) := note_key key (pending p) in (set_batch b probe p, news, None)
  | ContentReady | PendingContentReady =>
      let '(b, news) := mark_content_landed (pending p) in (set_batch b true p, news, None)
  | NeighborUp peer now =>
      (MkPump (pending p) (woke p) (probe_failures_sent p)
         (MkSyncState ({[peer]} ∪ neighbours (sync p)) (last_sync (sync p))) (<[peer := now]> (up_since p)), false, None)
  | NeighborDown peer =>
      (MkPump (pending p) (woke p) (probe_failures_sent p)
         (MkSyncState (neighbours (sync p) ∖ {[peer]}) (last_sync (sync p))) (delete peer (up_since p)), false, None)
  | SyncFinished peer started finished ok =>
      (MkPump (pending p) (woke p) (probe_failures_sent p)
         (MkSyncState (neighbours (sync p)) (<[peer := MkLastSync finished ok]> (last_sync (sync p)))) (up_since p),
       false, if began_before_neighbour peer started p then Some peer else None)
  end.

(** [Pump::run]: an event that could not be read is passed over. *)
Definition run_one (s : Pump * list MemberId) (e : option LiveEvent) : Pump * list MemberId :=
  match e with
  | None => s
  | Some e =>
      let '(p, news, again) := note_event e s.1 in
      (if news then wake p else p, s.2 ++ option_to_list again)
  end.
Definition run (events : list (option LiveEvent)) (p : Pump) : Pump * list MemberId := foldl run_one (p, []) events.

(** [News::content_landed], of the content sweep. *)
Definition content_landed (p : Pump) : Pump :=
  let '(b, news) := mark_content_landed (pending p) in
  let p := set_batch b true p in if news then wake p else p.
End note.

(** ** The reader, and who runs when *)

Inductive Reader : Type := Starting | Looking | Waiting.

(** [wakers] have noted news and not yet sent the wake; [taken] is what the
    reader was given and [noted] what was ever noted, kept for the theorems. *)
Record Channel : Type := MkChannel {
  remaining : Batch;
  sent : N;
  seen : N;
  wakers : nat;
  reader : Reader;
  taken : Batch;
  noted : Batch;
}.

Definition both (a b : Batch) : Batch :=
  MkBatch (batch_items a ∪ batch_items b) (items_with_changed_bookmarks a ∪ items_with_changed_bookmarks b)
    (changed_wishes a ∪ changed_wishes b) (content_arrived a || content_arrived b).

Definition new_channel : Channel := MkChannel default_batch 0 0 0 Starting default_batch default_batch.

(** One turn of the loop of [Changes::take]: mark the version seen, look at
    the set, and wait for another version if there is nothing in it. *)
Definition reader_step (c : Channel) : Channel :=
  match reader c with
  | Starting => MkChannel (remaining c) (sent c) (sent c) (wakers c) Looking (taken c) (noted c)
  | Looking =>
      if batch_is_empty (remaining c)
      then MkChannel (remaining c) (sent c) (seen c) (wakers c) Waiting (taken c) (noted c)
      else MkChannel default_batch (sent c) (seen c) (wakers c) Starting (both (taken c) (remaining c)) (noted c)
  | Waiting =>
      if decide (seen c = sent c) then c
      else MkChannel (remaining c) (sent c) (seen c) (wakers c) Starting (taken c) (noted c)
  end.

(** What a writer notes: an entry's key, or content landing. *)
Inductive Noting : Type := NoteKey (key : string) | NoteContent.

Inductive ChannelStep : Type :=
| Notes (n : Noting)
| Wakes
| Reads.

Section steps.
Context `{IdText ItemId, IdText ContentHash, IdText MemberId, IdText BookmarkId, IdText WishId}.

Definition note_one (n : Noting) (b : Batch) : Batch * bool :=
  match n with NoteKey key => (note_key key b).1 | NoteContent => mark_content_landed b end.

Definition channel_step (c : Channel) (s : ChannelStep) : Channel :=
  match s with
  | Notes n =>
      let '(b, news) := note_one n (remaining c) in
      MkChannel b (sent c) (seen c) (if news then S (wakers c) else wakers c) (reader c) (taken c)
        (both (noted c) (note_one n default_batch).1)
  | Wakes =>
      match wakers c with
      | O => c
      | S k => MkChannel (remaining c) (sent c + 1) (seen c) k (reader c) (taken c) (noted c)
      end
  | Reads => reader_step c
  end.

(** ** Properties *)

Lemma batch_ext a b :
  batch_items a = batch_items b → items_with_changed_bookmarks a = items_with_changed_bookmarks b →
  changed_wishes a = changed_wishes b → content_arrived a = content_arrived b → a = b.
Proof. destruct a, b. cbn. by intros -> -> -> ->. Qed.

Lemma batch_is_empty_spec b : batch_is_empty b = true ↔ b = default_batch.
Proof.
  unfold batch_is_empty. rewrite !andb_true_iff, !bool_decide_eq_true, negb_true_iff. split.
  - intros [[[? ?] ?] ?]. by apply batch_ext.
  - by intros ->.
Qed.

Lemma both_default a : both a default_batch = a.
Proof. apply batch_ext; cbn; rewrite ?(right_id_L ∅ (∪)), ?orb_false_r; done. Qed.

Lemma both_assoc a b c : both a (both b c) = both (both a b) c.
Proof. apply batch_ext; cbn; rewrite ?(assoc_L (∪)), ?orb_assoc; done. Qed.

Lemma both_idem a : both a a = a.
Proof. apply batch_ext; cbn; rewrite ?(idemp_L (∪)), ?orb_diag; done. Qed.

(** A note adds the same to any batch, and is news when it adds something. *)
Lemma note_one_spec n b :
  (note_one n b).1 = both b (note_one n default_batch).1 ∧ ((note_one n b).2 = false → (note_one n b).1 = b).
Proof.
  assert (∀ {A} `{Countable A} (a : A) (s : gset A), bool_decide (a ∉ s) = false → {[a]} ∪ s = s) as Hin.
  { intros A ? ? a s Hd%bool_decide_eq_false. apply dec_stable in Hd. set_solver. }
  destruct n as [key|]; cbn.
  - unfold note_key. destruct (parse_key key) as [k|]; [|destruct (parse_community key) as [[]|]]; cbn;
      (split; [apply batch_ext; cbn; rewrite ?orb_false_r; set_solver|]); intros Hb; apply batch_ext; cbn; auto.
  - split; [apply batch_ext; cbn; rewrite ?orb_true_r; set_solver|].
    intros Hb%negb_false_iff. by apply batch_ext.
Qed.

#[local] Arguments both : simpl never.
#[local] Arguments batch_is_empty : simpl never.
#[local] Arguments default_batch : simpl never.

(** What holds however the steps interleave. *)
Definition channel_ok (c : Channel) : Prop :=
  noted c = both (taken c) (remaining c) ∧
  (reader c = Waiting → remaining c ≠ default_batch → wakers c ≠ 0 ∨ seen c ≠ sent c) ∧
  (reader c = Waiting → (seen c ≤ sent c)%N) ∧ (reader c = Looking → (seen c ≤ sent c)%N).

Lemma channel_step_ok c s : channel_ok c → channel_ok (channel_step c s).
Proof.
  intros (Hn & Hw & Hle & Hll). destruct s as [n| |]; cbn.
  - destruct (note_one n (remaining c)) as [b news] eqn:E.
    destruct (note_one_spec n (remaining c)) as [Hb Hnews]. rewrite E in Hb, Hnews. cbn in Hb, Hnews.
    split_and!; cbn; [rewrite Hn, Hb; symmetry; apply both_assoc| |done..].
    intros Hr Hne. destruct news; [by left|]. rewrite Hnews in Hne by done. by apply Hw.
  - destruct (wakers c) as [|k] eqn:Ek; [by unfold channel_ok; rewrite Ek|].
    split_and!; cbn; [done| |intros Hr; apply Hle in Hr; lia|intros Hr; apply Hll in Hr; lia].
    intros Hr _. right. specialize (Hle Hr). lia.
  - unfold reader_step. destruct (reader c) eqn:Er.
    + split_and!; cbn; [done|done|done|]. lia.
    + destruct (batch_is_empty (remaining c)) eqn:Ee.
      * apply batch_is_empty_spec in Ee. split_and!; cbn; [done|by rewrite Ee|intros _; by apply Hll|done].
      * split_and!; cbn; [by rewrite both_default, Hn|done..].
    + case_decide; [split_and!; rewrite ?Er; auto|]. by split_and!.
Qed.

Lemma channel_reachable steps : channel_ok (foldl channel_step new_channel steps).
Proof.
  assert (channel_ok new_channel) as Hnew by (split_and!; [apply batch_ext; cbn; set_solver|done..]).
  revert Hnew. generalize new_channel. induction steps as [|s steps IH]; intros c Hc; [done|].
  cbn. apply IH. by apply channel_step_ok.
Qed.

(** Every wake sent that was still to be sent. *)
Fixpoint wake_all (k : nat) (c : Channel) : Channel :=
  match k with O => c | S k => wake_all k (channel_step c Wakes) end.

Lemma wake_all_spec k c : wakers c = k →
  wake_all k c = MkChannel (remaining c) (sent c + N.of_nat k) (seen c) 0 (reader c) (taken c) (noted c).
Proof.
  revert c. induction k as [|k IH]; intros c Hk; cbn.
  - rewrite <-Hk. destruct c; cbn in *. subst. f_equal. lia.
  - rewrite Hk. rewrite IH by done. cbn. f_equal. lia.
Qed.

(** C28: However the pump, the content sweep and the reader interleave, nothing
    noted is lost: it was taken or is still there to take. The reader never
    sleeps on something to take unless its wake is on the way; and once the
    wakes on the way have been sent, the reader's next three turns take
    everything that was noted. *)
Theorem no_change_is_missed steps :
  let c := foldl channel_step new_channel steps in
  noted c = both (taken c) (remaining c) ∧
  (reader c = Waiting → remaining c ≠ default_batch → wakers c ≠ 0 ∨ seen c ≠ sent c) ∧
  let c' := reader_step (reader_step (reader_step (wake_all (wakers c) c))) in
  remaining c' = default_batch ∧ taken c' = noted c.
Proof.
  intros c. destruct (channel_reachable steps) as (Hn & Hw & Hle & Hll). fold c in Hn, Hw, Hle, Hll.
  split; [done|]. split; [done|]. cbv zeta. rewrite wake_all_spec by done. set (s := (sent c + N.of_nat (wakers c))%N).
  unfold reader_step at 3. cbn.
  destruct (batch_is_empty (remaining c)) eqn:Ee.
  - pose proof Ee as Hl%batch_is_empty_spec. rewrite Hl, both_default in Hn. rewrite Hl, Hn.
    assert (batch_is_empty default_batch = true) as Hd by by apply batch_is_empty_spec.
    destruct (reader c); unfold reader_step; cbn; rewrite ?Hl, ?Hd; cbn;
      repeat (case_decide; cbn; rewrite ?Hl, ?Hd; cbn); by rewrite ?Hd.
  - assert (remaining c ≠ default_batch) as Hne by (intros Hl%batch_is_empty_spec; congruence).
    destruct (reader c) eqn:Er; unfold reader_step; cbn; rewrite ?Ee; cbn; rewrite ?Ee; cbn; auto.
    rewrite decide_False; [cbn; rewrite Ee; cbn; auto|].
    specialize (Hw eq_refl Hne). specialize (Hle eq_refl). unfold s. lia.
Qed.
End steps.
