(* ===== verification/Sweep.v ===== *)
(** * Keeping the catalogue whole

    The tasks of [crates/distlib-sync/src/catalogue.rs]: opening the group's
    document, offering its peers, and fetching the content nobody offered.
    Instants and durations are nanoseconds. iroh-docs' [start_sync] and the
    downloader are outcomes; what woke a [select!] is a step of its own, since
    of two arms that are ready it takes either. *)

From stdpp Require Import strings.
From S2P Require Import Prelude Ids GroupSettings Events Membership Fixtures Keeping Failures Heartbeats HeartbeatFixtures Directory Statements Gossip Texts Items Blobs Community Catalogue.

(** [b"distlib.catalogue.v1"]. *)
Definition CATALOGUE_TAG : list N :=
  [100; 105; 115; 116; 108; 105; 98; 46; 99; 97; 116; 97; 108; 111; 103; 117; 101; 46; 118; 49]%N.

(** [catalogue_key]: the secret of the document's namespace. *)
Definition catalogue_key `{Crypto} (group : GroupId) : Id32 := blake3 (CATALOGUE_TAG ++ id_bytes (group_id32 group)).

Definition seconds (n : N) : N := n * NANOS.
Definition SETTLE : N := seconds 1.
Definition BACKSTOP : N := seconds 600.
Definition LEAST_BETWEEN_OFFERS : N := seconds 2.
Definition FETCH_AGAIN : N := seconds 5.
Definition ASK_AGAIN : N := seconds 300.
Definition FETCH_DEADLINE : N := seconds 20.

(** ** Whom to sync with *)

Section peers.
Context `{HeartbeatCodec} `{Lookup}.

(** [sync_with]. *)
Definition sync_with_one (r : MemberId * NodeAddr) : option EndpointAddr :=
  match to_endpoint_addr r.1 r.2 with Ok addr => Some addr | Err _ => None end.
Definition sync_with (membership : MembershipState) (me : MemberId) (d : Directory) : list EndpointAddr :=
  omap sync_with_one (reachable membership me d).

(** The first part of [open_when_founded]: the first membership seen that has
    a group, and the peers known then. *)
Fixpoint wait_until_founded (seen : list (MembershipState * Directory)) (me : MemberId)
  : option (GroupId * list EndpointAddr) :=
  match seen with
  | [] => None
  | (m, d) :: seen =>
      match group m with
      | Some group => Some (group, sync_with m me d)
      | None => wait_until_founded seen me
      end
  end.

(** The rest of it: what is opened, whether its events are read, and whom it
    syncs with first. *)
Record Opened : Type := MkOpened {
  opened_key : Id32;
  watched : bool;
  first_peers : list EndpointAddr;
}.
Definition open_when_founded (seen : list (MembershipState * Directory)) (me : MemberId)
    (imports subscribes syncs : result string unit) : option Opened :=
  '(group, peers) ← wait_until_founded seen me;
  match imports, syncs with
  | Ok _, Ok _ => Some (MkOpened (catalogue_key group) (is_ok subscribes) peers)
  | _, _ => None
  end.

(** [sync_again_when_asked]: each request taken in turn, and when it is acted
    on; a sync takes [took]. *)
Fixpoint sync_again_when_asked (now : N) (asked : list (MemberId * N * N)) : list (N * EndpointAddr) :=
  match asked with
  | [] => []
  | (peer, at_, took) :: asked =>
      let start := N.max now at_ + SETTLE in
      (start, endpoint_new peer) :: sync_again_when_asked (start + took) asked
  end%N.

(** ** Offering peers *)

Record Offers : Type := MkOffers {
  offered : gmap MemberId EndpointAddr;
  last_full : N;
  still_learning : bool;
}.

Definition new_offers (now : N) : Offers := MkOffers ∅ now true.

(** The arm of the [select!] that is taken. *)
Inductive Woken : Type :=
| OpenedClosed
| Learned (directory_gone : bool)
| MembershipChanged (log_gone : bool)
| BackstopDue.

(** The peers of an offer, by their ids. *)
Definition by_id (peers : list EndpointAddr) : list (MemberId * EndpointAddr) := (λ p, (endpoint_id p, p)) <$> peers.
Definition is_news (o : Offers) (peer : EndpointAddr) : bool := bool_decide (offered o !! endpoint_id peer ≠ Some peer).

(** What a turn that offers offers. *)
Definition offer (repair : bool) (now : N) (reach : list EndpointAddr) (o : Offers) : Offers * list EndpointAddr :=
  if repair then (MkOffers (collect_map (by_id reach)) now (still_learning o), reach)
  else
    let news := filter (λ p, is_news o p = true) reach in
    (MkOffers (foldl (λ m e, <[e.1 := e.2]> m) (offered o) (by_id news)) (last_full o) (still_learning o), news).

(** Whether the arm means that the set itself may be wrong. *)
Definition is_repair (woken : Woken) : bool :=
  match woken with MembershipChanged _ | BackstopDue => true | _ => false end.

(** A turn of [offer_peers_as_they_are_learned]; [None] ends it. *)
Definition offer_turn (woken : Woken) (now : N) (reach : list EndpointAddr) (o : Offers)
  : option (Offers * list EndpointAddr) :=
  match woken with
  | OpenedClosed | MembershipChanged true => None
  | _ =>
      let o := match woken with
               | Learned true => MkOffers (offered o) (last_full o) false
               | _ => o
               end in
      let repair := is_repair woken || bool_decide (BACKSTOP ≤ now - last_full o)%N in
      Some (offer repair now reach o)
  end.

(** What a turn waits for: the loop's two signals, each of which keeps only
    that there was one. [offer_turn]'s [borrow_and_update] takes the change of
    the membership, whichever arm was taken. *)
Record Signals : Type := MkSignals {
  offers : Offers;
  address_learned : bool;
  membership_changed : bool;
}.

Definition arm_ready (woken : Woken) (now : N) (s : Signals) : bool :=
  match woken with
  | OpenedClosed => false
  | Learned gone => negb gone && address_learned s && still_learning (offers s)
  | MembershipChanged gone => negb gone && membership_changed s
  | BackstopDue => bool_decide (last_full (offers s) + BACKSTOP ≤ now)%N
  end.

Definition signals_turn (woken : Woken) (now : N) (reach : list EndpointAddr) (s : Signals)
  : option (Signals * list EndpointAddr) :=
  if arm_ready woken now s then
    '(o, peers) ← offer_turn woken now reach (offers s);
    Some (MkSignals o (match woken with Learned _ => false | _ => address_learned s end) false, peers)
  else None.
End peers.

(** ** Fetching content *)

Record Retry : Type := MkRetry { retry_at : N; waited : N }.

Notation Unanswered := (gmap ContentHash Retry).

Definition due (u : Unanswered) (hash : ContentHash) (now : N) : bool :=
  match u !! hash with None => true | Some retry => bool_decide (retry_at retry ≤ now)%N end.

Definition next_wait (before : option Retry) : N :=
  match before with None => FETCH_AGAIN | Some retry => N.min (waited retry * 2) ASK_AGAIN end.

(** [Unanswered::failed]. *)
Definition failed (hash : ContentHash) (now : N) (u : Unanswered) : Unanswered :=
  let wait := next_wait (u !! hash) in <[hash := MkRetry (now + wait) wait]> u.

(** [Unanswered::forget_all]. *)
Definition forget_all (u : Unanswered) : Unanswered := ∅.

(** [wait_for_the_next_round], started at [now]: the changes of the
    membership heard meanwhile, the last of which may be that it is gone. *)
Fixpoint wait_for_the_next_round (changes : list bool) (u : Unanswered) : bool * Unanswered :=
  match changes with
  | [] => (true, u)
  | gone :: changes => if gone then (false, u) else wait_for_the_next_round changes (forget_all u)
  end.

(** What came of a download. *)
Inductive Download : Type := Downloaded | NoMemberHad (why : string) | GaveUp.

(** [fetch_one]: what is told of it, and whether it arrived. *)
Definition fetch_one (asked : Download) : bool := match asked with Downloaded => true | _ => false end.

(** The loop of [fetch_content_nobody_offered] over the hashes wanted: the
    hashes asked for, with whether each arrived. [ends] is when an attempt at
    a hash is over. *)
Definition ask_for (ask : ContentHash → Download) (ends : ContentHash → N) (round : N)
    (s : Unanswered * list (ContentHash * bool)) (hash : ContentHash) : Unanswered * list (ContentHash * bool) :=
  if due s.1 hash round then
    let arrived := fetch_one (ask hash) in
    (if arrived then s.1 else failed hash (ends hash) s.1, s.2 ++ [(hash, arrived)])
  else s.

(** A round of it once the wait is over. [wanted] is iterated in any order. *)
Definition sweep_round (providers : list MemberId) (wanted : result SyncError (list ContentHash))
    (ask : ContentHash → Download) (ends : ContentHash → N) (round : N) (u : Unanswered)
  : Unanswered * list (ContentHash * bool) :=
  match providers with
  | [] => (u, [])
  | _ :: _ =>
      match wanted with
      | Err _ => (u, [])
      | Ok wanted => foldl (ask_for ask ends round) (filter (λ e, e.1 ∈ wanted) u, []) wanted
      end
  end.

Section wanted.
Context `{Documents} (w : ContentWorld).

(** [content_not_here]. *)
Definition want_entry (wanted : gset ContentHash) (e : Entry) : result SyncError (gset ContentHash) :=
  if bool_decide (content_len e = 0%N) || bool_decide (content_hash e ∈ wanted) then Ok wanted
  else match has_content w (content_hash e) with
       | Err s => Err (Content "asked whether an entry's content is here" s)
       | Ok (Complete _) => Ok wanted
       | Ok _ => Ok ({[content_hash e]} ∪ wanted)
       end.
Definition content_not_here (d : Doc) : result SyncError (gset ContentHash) :=
  match get_many (AllEntries "") d with
  | Err s => Err (Docs "read from" s)
  | Ok es => over_stream want_entry ∅ es
  end.
End wanted.

(** ** Properties of the tasks that keep the catalogue whole *)

Section offers.
Context `{HeartbeatCodec} `{Lookup}.

(** ** What is offered *)

Lemma fold_insert_lookup (l : list (MemberId * EndpointAddr)) (m : gmap MemberId EndpointAddr) k :
  NoDup l.*1 →
  foldl (λ m e, <[e.1 := e.2]> m) m l !! k =
  match List.find (λ e, bool_decide (e.1 = k)) l with Some e => Some e.2 | None => m !! k end.
Proof.
  revert m. induction l as [|[a x] l IH]; intros m Hnd; [done|]. cbn [foldl List.find fst snd].
  apply NoDup_cons in Hnd as [Ha Hnd]. rewrite IH by done. case_bool_decide as Heq.
  - subst a. destruct (List.find _ l) as [e|] eqn:Ef; [|by rewrite lookup_insert_eq].
    apply List.find_some in Ef as [Hin%list_elem_of_In Hk]. apply bool_decide_eq_true in Hk. subst k.
    exfalso. exact (Ha (list_elem_of_fmap_2 fst _ _ Hin)).
  - destruct (List.find _ l); [done|]. by rewrite lookup_insert_ne.
Qed.

Lemma by_id_fst peers : (by_id peers).*1 = endpoint_id <$> peers.
Proof. unfold by_id. by rewrite <-list_fmap_compose. Qed.

Lemma find_by_id peers p :
  NoDup (endpoint_id <$> peers) → p ∈ peers →
  List.find (λ e, bool_decide (e.1 = endpoint_id p)) (by_id peers) = Some (endpoint_id p, p).
Proof.
  induction peers as [|q peers IH]; [by intros _ ?%elem_of_nil|]. cbn. intros [Hq Hnd]%NoDup_cons Hin.
  apply elem_of_cons in Hin as [->|Hin]; [by rewrite bool_decide_true|].
  rewrite bool_decide_false; [by apply IH|]. intros Heq. apply Hq. rewrite Heq. by apply list_elem_of_fmap_2.
Qed.

Lemma find_by_id_none peers m :
  m ∉ endpoint_id <$> peers → List.find (λ e, bool_decide (e.1 = m)) (by_id peers) = None.
Proof.
  induction peers as [|q peers IH]; [done|]. cbn. rewrite not_elem_of_cons. intros [Hq Hin].
  rewrite bool_decide_false by congruence. by apply IH.
Qed.

Lemma NoDup_filter_ids (f : EndpointAddr → bool) peers :
  NoDup (endpoint_id <$> peers) → NoDup (endpoint_id <$> filter (λ p, f p = true) peers).
Proof.
  induction peers as [|p peers IH]; [done|]. rewrite filter_cons. rewrite fmap_cons. intros [Hp Hnd]%NoDup_cons.
  case_decide; [|by apply IH]. rewrite fmap_cons. apply NoDup_cons. split; [|by apply IH].
  intros (q & Heq & Hq)%list_elem_of_fmap. apply list_elem_of_filter in Hq as [_ Hq].
  apply Hp. rewrite Heq. by apply list_elem_of_fmap_2.
Qed.

(** After a turn every reachable peer has been offered at its address, and a
    reaction forgets nothing of the others. *)
Lemma offer_spec repair now reach o o' peers :
  NoDup (endpoint_id <$> reach) → offer repair now reach o = (o', peers) →
  (∀ p, p ∈ peers ↔ p ∈ reach ∧ (repair = true ∨ offered o !! endpoint_id p ≠ Some p)) ∧
  (∀ p, p ∈ reach → offered o' !! endpoint_id p = Some p) ∧
  (∀ m, m ∉ endpoint_id <$> reach → offered o' !! m = if repair then None else offered o !! m) ∧
  last_full o' = (if repair then now else last_full o) ∧ still_learning o' = still_learning o.
Proof.
  intros Hnd. unfold offer. destruct repair; intros [= <- <-]; cbn [offered last_full still_learning].
  - split_and!; [naive_solver| | |done..].
    + intros p Hp. apply collect_map_nodup; [by rewrite by_id_fst|].
      by apply (list_elem_of_fmap_2 (λ p, (endpoint_id p, p))).
    + intros m Hm. apply eq_None_not_Some. by rewrite collect_map_is_Some, by_id_fst.
  - pose proof (NoDup_filter_ids (is_news o) _ Hnd) as Hnd'. split_and!; [| | |done..].
    + intros p. rewrite list_elem_of_filter. unfold is_news. rewrite bool_decide_eq_true. naive_solver.
    + intros p Hp. rewrite fold_insert_lookup by (by rewrite by_id_fst).
      destruct (is_news o p) eqn:En.
      * rewrite find_by_id; [done|done|]. by apply list_elem_of_filter.
      * rewrite find_by_id_none; [by apply bool_decide_eq_false, dec_stable in En|].
        intros (q & Heq & Hq)%list_elem_of_fmap. apply list_elem_of_filter in Hq as [Hn Hq].
        assert (q = p) as ->; [|congruence].
        apply list_elem_of_lookup in Hp as [i Hi]. apply list_elem_of_lookup in Hq as [j Hj].
        assert (i = j) as ->; [|congruence]. eapply (NoDup_lookup _ _ _ _ Hnd); rewrite list_lookup_fmap.
        -- by rewrite Hi.
        -- by rewrite Hj, Heq.
    + intros m Hm. rewrite fold_insert_lookup by (by rewrite by_id_fst). rewrite find_by_id_none; [done|].
      intros (q & -> & Hq)%list_elem_of_fmap. apply list_elem_of_filter in Hq as [_ Hq].
      apply Hm. by apply list_elem_of_fmap_2.
Qed.

(** Whether a turn is a repair. *)
Definition repairs (woken : Woken) (now : N) (o : Offers) : bool :=
  is_repair woken || bool_decide (BACKSTOP ≤ now - last_full o)%N.

Lemma offer_turn_spec woken now reach o o' peers :
  offer_turn woken now reach o = Some (o', peers) →
  ∃ learning, offer (repairs woken now o) now reach (MkOffers (offered o) (last_full o) learning) = (o', peers).
Proof.
  unfold offer_turn, repairs. destruct o as [sent full learning].
  destruct woken as [|[]|[]|]; try done; cbn [is_repair orb last_full offered still_learning];
    intros Heq%(inj Some); eexists; exact Heq.
Qed.

(** A turn of the loop that offers peers offers everybody reachable when the
    membership changed or ten minutes have passed since everybody was, and
    otherwise only those whose address it has not offered; either way everybody
    reachable has then been offered at the address they have, and what was
    offered of the others is forgotten only by offering everybody. *)
Theorem offers_are_exact woken now reach o o' peers :
  NoDup (endpoint_id <$> reach) → offer_turn woken now reach o = Some (o', peers) →
  (∀ p, p ∈ peers ↔ p ∈ reach ∧ (repairs woken now o = true ∨ offered o !! endpoint_id p ≠ Some p)) ∧
  (∀ p, p ∈ reach → offered o' !! endpoint_id p = Some p) ∧
  (∀ m, m ∉ endpoint_id <$> reach → offered o' !! m = if repairs woken now o then None else offered o !! m) ∧
  (repairs woken now o = true ↔ is_repair woken = true ∨ (BACKSTOP ≤ now - last_full o)%N).
Proof.
  intros Hnd (learning & Ho)%offer_turn_spec. destruct (offer_spec _ _ _ _ _ _ Hnd Ho) as (Hp & Hr & Hm & _).
  split_and!; [done..|]. unfold repairs. by rewrite orb_true_iff, bool_decide_eq_true.
Qed.

(** ** How long the whole set goes without being offered *)

(** The loop's turns, each with what woke it, when, whom it could reach, and how long its
    offer took, at most [slow]. It is ready for its next turn [LEAST_BETWEEN_OFFERS]
    after its offer; and since the backstop's arm is ready from then on, a turn
    comes no later than the backstop, or at once if it is past. *)
Inductive offering (slow : N) : N → Offers → list N → Prop :=
| OfferingEnds ready o : offering slow ready o []
| OfferingTurns ready o woken now reach took o' peers gaps :
    (ready ≤ now ≤ N.max ready (last_full o + BACKSTOP))%N → (took ≤ slow)%N →
    offer_turn woken now reach o = Some (o', peers) →
    offering slow (now + took + LEAST_BETWEEN_OFFERS) o' gaps →
    offering slow ready o ((now - last_full o)%N :: gaps).

Lemma offer_turn_full woken now reach o o' peers :
  offer_turn woken now reach o = Some (o', peers) →
  last_full o' = if repairs woken now o then now else last_full o.
Proof.
  intros (learning & Ho)%offer_turn_spec. revert Ho. unfold offer. destruct (repairs woken now o); by intros [= <- <-].
Qed.

(** However often the loop is woken for other reasons, the time since
    everybody was last offered never passes the backstop by more than the floor
    between two offers and the time an offer takes. *)
Theorem everybody_is_offered_by_the_backstop slow started gaps :
  offering slow started (new_offers started) gaps →
  ∀ gap, gap ∈ gaps → (gap ≤ BACKSTOP + LEAST_BETWEEN_OFFERS + slow)%N.
Proof.
  assert (∀ ready o, offering slow ready o gaps → (ready ≤ last_full o + BACKSTOP + LEAST_BETWEEN_OFFERS + slow)%N →
    (last_full o ≤ ready)%N → ∀ gap, gap ∈ gaps → (gap ≤ BACKSTOP + LEAST_BETWEEN_OFFERS + slow)%N) as Hall.
  { intros ready o Hrun. induction Hrun as [|ready o woken now reach took o' peers gaps Hnow Htook Hturn Hrun IH].
    - intros _ _ gap ?%elem_of_nil. done.
    - intros Hready Hle gap [->|Hin]%elem_of_cons; [lia|].
      pose proof (offer_turn_full _ _ _ _ _ _ Hturn) as Hfull. unfold repairs in Hfull.
      apply IH; [| |done]; rewrite Hfull; destruct (is_repair woken); cbn [orb]; [lia| |lia|]; case_bool_decide; lia. }
  intros Hrun. apply (Hall _ _ Hrun); unfold new_offers; cbn [last_full]; lia.
Qed.

(** When an address was learned and the membership changed since the last
    turn, the turn may take the first of the two, and then the change is gone
    as well: nobody is offered but who has a new address, though a change of
    the membership is to offer everybody. *)
Theorem change_is_taken_for_news s now reach :
  address_learned s = true → membership_changed s = true → still_learning (offers s) = true →
  (now - last_full (offers s) < BACKSTOP)%N →
  arm_ready (MembershipChanged false) now s = true ∧
  ∃ s', signals_turn (Learned false) now reach s = Some (s', filter (λ p, is_news (offers s) p = true) reach) ∧
    membership_changed s' = false ∧ last_full (offers s') = last_full (offers s) ∧
    ∀ later, (later - last_full (offers s) < BACKSTOP)%N → ∀ woken, arm_ready woken later s' = false.
Proof.
  intros Hl Hm Hs Hn. split; [done|]. unfold signals_turn. cbn [arm_ready negb andb]. rewrite Hl, Hs. cbn [andb].
  unfold offer_turn. cbn [is_repair orb]. rewrite bool_decide_false by lia. cbn [offer mbind option_bind].
  eexists. split; [done|]. cbn [membership_changed offers last_full]. split_and!; [done..|].
  intros later Hlater woken. destruct woken as [|gone|gone|]; cbn [arm_ready address_learned membership_changed offers last_full].
  - done.
  - by rewrite andb_false_r.
  - by rewrite andb_false_r.
  - apply bool_decide_eq_false. lia.
Qed.
End offers.

(** ** What is asked for, and when again *)

Section fetching.
Implicit Types (u : gmap ContentHash Retry) (h : ContentHash) (wanted : list ContentHash).

Lemma ask_for_hash ask ends round u asked h :
  (ask_for ask ends round (u, asked) h).1 !! h =
  (if due u h round then
     if fetch_one (ask h) then u !! h else Some (MkRetry (ends h + next_wait (u !! h)) (next_wait (u !! h)))
   else u !! h) ∧
  (∀ h', h' ≠ h → (ask_for ask ends round (u, asked) h).1 !! h' = u !! h') ∧
  (ask_for ask ends round (u, asked) h).2 = asked ++ (if due u h round then [(h, fetch_one (ask h))] else []).
Proof.
  unfold ask_for, failed. cbn [fst snd]. destruct (due u h round); [|by rewrite app_nil_r].
  destruct (fetch_one (ask h)); cbn [fst snd]; split_and!; try done.
  - by rewrite lookup_insert_eq.
  - intros h' Hne. by rewrite lookup_insert_ne.
Qed.

Lemma filter_due u u' round wanted :
  (∀ h, h ∈ wanted → u' !! h = u !! h) →
  filter (λ h, due u' h round = true) wanted = filter (λ h, due u h round = true) wanted.
Proof.
  induction wanted as [|h wanted IH]; intros Heq; [done|]. rewrite !filter_cons.
  assert (due u' h round = due u h round) as Hd by (unfold due; rewrite Heq; [done|apply elem_of_cons; by left]).
  rewrite Hd. rewrite IH; [done|]. intros x Hx. apply Heq. apply elem_of_cons. by right.
Qed.

Lemma ask_for_all ask ends round wanted : NoDup wanted → ∀ u asked,
  let s := foldl (ask_for ask ends round) (u, asked) wanted in
  (∀ h, s.1 !! h =
     if bool_decide (h ∈ wanted) && due u h round && negb (fetch_one (ask h))
     then Some (MkRetry (ends h + next_wait (u !! h)) (next_wait (u !! h))) else u !! h) ∧
  s.2 = asked ++ ((λ h, (h, fetch_one (ask h))) <$> filter (λ h, due u h round = true) wanted).
Proof.
  induction wanted as [|h wanted IH]; intros Hnd u asked.
  - cbn. split; [done|by rewrite app_nil_r].
  - apply NoDup_cons in Hnd as [Hh Hnd]. cbn [foldl].
    destruct (ask_for_hash ask ends round u asked h) as (Hsame & Hother & Hasked).
    destruct (ask_for ask ends round (u, asked) h) as [u' asked'] eqn:Ea. cbn [fst snd] in *.
    destruct (IH Hnd u' asked') as [Hu Hs]. split.
    + intros h'. rewrite Hu. destruct (decide (h' = h)) as [->|Hne].
      * rewrite (bool_decide_false (h ∈ wanted)) by done. cbn [andb]. rewrite bool_decide_true by (apply elem_of_cons; by left).
        rewrite Hsame. cbn [andb]. by destruct (due u h round), (fetch_one (ask h)).
      * rewrite (bool_decide_ext (h' ∈ h :: wanted) (h' ∈ wanted)) by (rewrite elem_of_cons; naive_solver).
        unfold due. by rewrite Hother.
    + rewrite Hs, Hasked, filter_cons.
      rewrite (filter_due u u') by (intros x Hx; apply Hother; by intros ->).
      destruct (due u h round) eqn:Ed; case_decide; try congruence; cbn [fmap list_fmap app].
      * by rewrite <-app_assoc.
      * by rewrite app_nil_r.
Qed.

(** The wait after a hash failed [n + 1] times in a row, in nanoseconds. *)
Definition wait_after (n : nat) : N := N.min (FETCH_AGAIN * 2 ^ N.of_nat n) ASK_AGAIN.

Lemma next_wait_after n at_ : next_wait (Some (MkRetry at_ (wait_after n))) = wait_after (S n).
Proof.
  unfold next_wait, wait_after. cbn [waited]. rewrite Nat2N.inj_succ, N.pow_succ_r'. lia.
Qed.

Lemma failed_lookup h now u :
  failed h now u !! h = Some (MkRetry (now + next_wait (u !! h)) (next_wait (u !! h))).
Proof. apply lookup_insert_eq. Qed.

Lemma failed_in_a_row h times u :
  u !! h = None → times ≠ [] →
  ∃ latest n, last times = Some latest ∧ length times = S n ∧
    foldl (λ u at_, failed h at_ u) u times !! h = Some (MkRetry (latest + wait_after n) (wait_after n)).
Proof.
  intros Hu. induction times as [|at_ times IH] using rev_ind; [done|]. intros _.
  rewrite foldl_app, length_app. cbn [foldl length]. exists at_, (length times).
  split_and!; [by rewrite last_snoc|lia|]. rewrite failed_lookup.
  destruct (decide (times = [])) as [->|Hne].
  - cbn [foldl]. by rewrite Hu.
  - destruct (IH Hne) as (l & n & _ & Hn & Hf). rewrite Hf, next_wait_after. by rewrite Hn.
Qed.

(** A round of the sweep with anybody to ask asks once for every hash that
    is wanted and due, and for no other; what did not arrive waits longer than
    before, five seconds, then ten, and so on up to five minutes, and what is
    no longer wanted is forgotten. The [n + 1]st failure in a row leaves a hash
    not due until that wait is over, and due from then on. *)
Theorem sweep_asks_what_is_due provider providers wanted ask ends round u :
  NoDup wanted →
  let s := sweep_round (provider :: providers) (Ok wanted) ask ends round u in
  s.2 = ((λ h, (h, fetch_one (ask h))) <$> filter (λ h, due u h round = true) wanted) ∧
  (∀ h, s.1 !! h =
     if decide (h ∈ wanted) then
       if due u h round && negb (fetch_one (ask h))
       then Some (MkRetry (ends h + next_wait (u !! h)) (next_wait (u !! h))) else u !! h
     else None) ∧
  ∀ h times n now, length times = S n →
    due (foldl (λ u at_, failed h at_ u) (forget_all u) times) h now = true ↔
    (default 0 (last times) + N.min (seconds 5 * 2 ^ N.of_nat n) (seconds 300) ≤ now)%N.
Proof.
  intros Hnd s. subst s. unfold sweep_round.
  destruct (ask_for_all ask ends round wanted Hnd (filter (λ e, e.1 ∈ wanted) u) []) as [Hu Hs].
  assert (∀ h, h ∈ wanted → filter (λ e, e.1 ∈ wanted) u !! h = u !! h) as Hkept.
  { intros h Hh. destruct (u !! h) as [r|] eqn:Er; [by apply map_lookup_filter_Some|].
    apply map_lookup_filter_None. by left. }
  split; [|split].
  - rewrite Hs. cbn [app]. by rewrite (filter_due u) by apply Hkept.
  - intros h. rewrite Hu. destruct (decide (h ∈ wanted)) as [Hh|Hh].
    + rewrite bool_decide_true by done. unfold due. by rewrite Hkept.
    + rewrite bool_decide_false by done. cbn [andb]. apply map_lookup_filter_None. by right.
  - intros h times n now Hn.
    destruct (failed_in_a_row h times (forget_all u)) as (latest & m & Hl & Hm & Hf); [done|by destruct times|].
    assert (m = n) as -> by lia. unfold due. rewrite Hf, Hl. cbn [retry_at default].
    rewrite bool_decide_eq_true. done.
Qed.
End fetching.

(** ** What is missing *)

Section missing.
Context `{Documents} (w : ContentWorld).

Lemma want_all es : ∀ acc wanted,
  over_stream (want_entry w) acc es = Ok wanted →
  ∀ h, h ∈ wanted ↔ h ∈ acc ∨ ∃ e, Ok e ∈ es ∧ content_hash e = h ∧ content_len e ≠ 0%N ∧
    ∃ status, has_content w h = Ok status ∧ ∀ n, status ≠ Complete n.
Proof.
  induction es as [|[e|s] es IH]; intros acc wanted; [|cbn; unfold want_entry at 1|done].
  - intros [= <-] h. split; [by left|]. intros [?|(e & ?%elem_of_nil & _)]; done.
  - destruct (bool_decide (content_len e = 0%N) || bool_decide (content_hash e ∈ acc)) eqn:Eskip; cbn [result_bind].
    + intros Hrest h. rewrite (IH _ _ Hrest). split.
      * intros [Ha|(x & Hx & Hrest')]; [by left|]. right. exists x. split; [by apply elem_of_cons; right|done].
      * intros [Ha|(x & [[= ->]|Hx]%elem_of_cons & Hh & Hl & Hst)]; [by left| |right; by exists x].
        left. apply orb_true_iff in Eskip as [E%bool_decide_eq_true|E%bool_decide_eq_true]; congruence.
    + apply orb_false_iff in Eskip as [Elen%bool_decide_eq_false Ein].
      destruct (has_content w (content_hash e)) as [status|s] eqn:Est; [|done].
      assert ((∃ n, status = Complete n) ∨ ¬ ∃ n, status = Complete n) as [[n ->]|Hno]
        by (destruct status; [left; by eexists|right; naive_solver..]).
      { cbn [result_bind]. intros Hrest h. rewrite (IH _ _ Hrest). split.
        - intros [Ha|(x & Hx & Hrest')]; [by left|]. right. exists x. split; [by apply elem_of_cons; right|done].
        - intros [Ha|(x & [[= ->]|Hx]%elem_of_cons & <- & Hl & st & Hst & Hn)]; [by left| |right; exists x; naive_solver].
          rewrite Est in Hst. injection Hst as <-. by destruct (Hn n). }
      intros Hrest. assert (over_stream (want_entry w) ({[content_hash e]} ∪ acc) es = Ok wanted) as Hrest'.
      { destruct status; [naive_solver|exact Hrest..]. }
      intros h. rewrite (IH _ _ Hrest'), elem_of_union, elem_of_singleton. split.
      * intros [[->|Ha]|(x & Hx & Hrest'')]; [|by left|].
        -- right. exists e. split_and!; [by apply elem_of_cons; left|done|done|]. exists status. split; [done|].
           intros n ->. apply Hno. by exists n.
        -- right. exists x. split; [by apply elem_of_cons; right|done].
      * intros [Ha|(x & [[= ->]|Hx]%elem_of_cons & <- & Hl & st & Hst & Hn)]; [by left; right|by left; left|].
        right. exists x. naive_solver.
Qed.

(** What is missing is the content of exactly the entries that have any,
    whoever wrote them, and that is not here whole. *)
Theorem missing_is_what_is_not_here d es wanted :
  get_many (AllEntries "") d = Ok es → content_not_here w d = Ok wanted →
  ∀ h, h ∈ wanted ↔ ∃ e, Ok e ∈ es ∧ content_hash e = h ∧ content_len e ≠ 0%N ∧
    ∃ status, has_content w h = Ok status ∧ ∀ n, status ≠ Complete n.
Proof.
  intros Hes. unfold content_not_here. rewrite Hes. intros Hw h. rewrite (want_all _ _ _ Hw). set_solver.
Qed.
End missing.

(** ** Concrete turns *)

Definition at_port (n port : N) : MemberId * list string * gset SocketAddr := (member n, [], {[SocketV4 port port]}).
Definition offered_two : Offers := MkOffers (collect_map (by_id [at_port 1 1; at_port 2 2])) 0 true.

Lemma offers_are_exact_witness :
  NoDup (endpoint_id <$> [at_port 1 1; at_port 2 3; at_port 3 3]) ∧
  (at_port 2 3 ∈ [at_port 2 3; at_port 3 3] ↔
   at_port 2 3 ∈ [at_port 1 1; at_port 2 3; at_port 3 3] ∧
   (repairs (Learned false) 5 offered_two = true ∨ offered offered_two !! endpoint_id (at_port 2 3) ≠ Some (at_port 2 3))).
Proof.
  split; [by_decision|].
  refine (proj1 (offers_are_exact (Learned false) 5 [at_port 1 1; at_port 2 3; at_port 3 3] offered_two
    (MkOffers (<[member 3 := at_port 3 3]> (<[member 2 := at_port 2 3]> (offered offered_two))) 0 true)
    [at_port 2 3; at_port 3 3] _ _) (at_port 2 3)).
  - by_decision.
  - reflexivity.
Defined.

Lemma everybody_is_offered_by_the_backstop_witness :
  offering 3 7 (new_offers 7) [5%N] ∧ ∀ gap, gap ∈ [5%N] → (gap ≤ BACKSTOP + LEAST_BETWEEN_OFFERS + 3)%N.
Proof.
  assert (offering 3 7 (new_offers 7) [5%N]) as Hrun.
  { refine (OfferingTurns 3 7 (new_offers 7) (Learned true) 12 [] 1 (MkOffers ∅ 7 false) [] [] _ _ eq_refl (OfferingEnds 3 _ _));
      vm_compute; intuition discriminate. }
  split; [exact Hrun|]. exact (everybody_is_offered_by_the_backstop 3 7 [5%N] Hrun).
Defined.

(** Member 2 left and came back, where it was, and member 3 moved: the turn
    offers member 3 alone. *)
Definition came_back : Signals := MkSignals offered_two true true.

Lemma change_is_taken_for_news_witness :
  filter (λ p, is_news (offers came_back) p = true) [at_port 2 2; at_port 3 3] = [at_port 3 3] ∧
  ∃ s', signals_turn (Learned false) 5 [at_port 2 2; at_port 3 3] came_back =
    Some (s', filter (λ p, is_news (offers came_back) p = true) [at_port 2 2; at_port 3 3]) ∧ membership_changed s' = false.
Proof.
  split; [vm_compute; reflexivity|].
  refine (match proj2 (change_is_taken_for_news came_back 5 [at_port 2 2; at_port 3 3] eq_refl eq_refl eq_refl eq_refl)
          with ex_intro _ s' (conj Ht (conj Hc _)) => ex_intro _ s' (conj Ht Hc) end).
Defined.

Definition not_found (n : N) : ContentHash := MkContentHash (id32 n).

Lemma sweep_asks_what_is_due_witness :
  (sweep_round [member 1] (Ok [not_found 1; not_found 2]) (λ _, GaveUp) (λ _, 30%N) 10
     (<[not_found 1 := MkRetry 11 FETCH_AGAIN]> ∅)).2 = [(not_found 2, false)].
Proof.
  refine (proj1 (sweep_asks_what_is_due (member 1) [] [not_found 1; not_found 2] (λ _, GaveUp) (λ _, 30%N) 10
    (<[not_found 1 := MkRetry 11 FETCH_AGAIN]> ∅) _)).
  by_decision.
Defined.
