(* ===== verification/ReadModel.v ===== *)
(** * The read model's tables

    [crates/distlib-store/src/store.rs] and [schema.rs]: what SQLite is asked,
    each statement as what it does to the tables. A table is a map from its
    primary key; ids are text in it, lists and wishes the JSON the catalogue
    writes, and an integer is one SQLite can hold or it is refused. [TOTAL]
    and whether a statement runs at all are SQLite's. *)

From Stdlib Require Import Ascii SpecFloat.
From stdpp Require Import strings.
From S2P Require Import Prelude Ids Custody Heartbeats Keeping Failures Texts Items Community.

Definition READ_MODEL_VERSION : N := 8.

(** ** Errors *)

Inductive SqlError : Type :=
| OutOfRange
| UniqueViolated
| UnreadableColumn (column : string)
| PatternTooComplex
| SqliteRefused (why : string).

Inductive StoreError : Type :=
| OpenFailed (source : string)
| Sql (doing : string) (source : SqlError)
| IndexFailed (doing source : string)
| QueryError (query source : string)
| StoppedPool
| ProjectionGone
| IndexClosed
| Corrupt (text : string).

(** ** Values *)

Definition i64_max : N := 2 ^ 63 - 1.

(** rusqlite's [fallible_uint]. *)
Definition to_sql (n : N) : result SqlError N := if bool_decide (n ≤ i64_max)%N then Ok n else Err OutOfRange.
Definition to_sql_opt (n : option N) : result SqlError (option N) :=
  match n with None => Ok None | Some n => m ←? to_sql n ;; Ok (Some m) end.

(** [word] and [from_word], of the enums renamed to lower case. *)
Definition kind_word (k : ItemKind) : string :=
  match k with Ebook => "ebook" | Audiobook => "audiobook" | Video => "video" | OtherKind => "other" end.
Definition role_word (r : FileRole) : string :=
  match r with
  | ContentFile => "content" | CoverFile => "cover" | SubtitleFile => "subtitle"
  | MetadataFile => "metadata" | OtherFile => "other"
  end.
Definition kind_from_word (w : string) : option ItemKind :=
  List.find (λ k, bool_decide (kind_word k = w)) [Ebook; Audiobook; Video; OtherKind].
Definition role_from_word (w : string) : option FileRole :=
  List.find (λ r, bool_decide (role_word r = w)) [ContentFile; CoverFile; SubtitleFile; MetadataFile; OtherFile].

(** An [f32] is exact in a [REAL], and comes back the same; what is no number
    is stored as [NULL]. *)
Definition real (x : spec_float) : option spec_float := match x with S754_nan => None | x => Some x end.

Definition unreadable {A} (column : string) (o : option A) : result SqlError A :=
  match o with Some a => Ok a | None => Err (UnreadableColumn column) end.
Definition from_core {A} (column : string) (r : result CoreError A) : result SqlError A :=
  match r with Ok a => Ok a | Err _ => Err (UnreadableColumn column) end.
Definition opt_read {A B} (f : A → result SqlError B) (o : option A) : result SqlError (option B) :=
  match o with None => Ok None | Some a => b ←? f a ;; Ok (Some b) end.

(** [identifier]. *)
Definition identifier {A} `{IdText A} (column : string) (text : string) : result SqlError A :=
  unreadable column (read_id text).

(** [millis_since_epoch], of a time in nanoseconds from the epoch. *)
Definition millis_since_epoch (at_ : Z) : N := N.min (Z.to_N (at_ / 1000000)) u64_max.
Definition time_of_millis (millis : N) : Z := (Z.of_N millis * 1000000)%Z.

(** ** What is written and read *)

Record StoredItem : Type := MkStoredItem {
  stored_item : Item;
  stored_ratings : gmap MemberId Rating;
  stored_reviews : gmap MemberId Review;
  stored_file_authors : gmap ContentHash (gset MemberId);
  stored_modified : N;
}.

Record StoredBookmark : Type := MkStoredBookmark {
  bookmark_of : MemberId;
  bookmark_named : BookmarkId;
  bookmarked : Bookmark;
  bookmark_last_modified : N;
}.

Record BookmarkFilter : Type := MkBookmarkFilter {
  filter_text : option string;
  filter_member : option MemberId;
  filter_item : option ItemId;
}.

Record ListedBookmark : Type := MkListedBookmark {
  listed_item : ItemId;
  listed_title : option string;
  listed_name : option string;
  listed_stored : StoredBookmark;
}.

Record StoredWish : Type := MkStoredWish {
  stored_entries : gmap MemberId Wish;
  stored_comments : gmap MemberId Comment;
}.
Definition default_wish : StoredWish := MkStoredWish ∅ ∅.

Record StoredMember : Type := MkStoredMember {
  stored_member : MemberId;
  stored_name : string;
  stored_pledge : N;
  stored_is_core : bool;
}.

Record Page (T : Type) : Type := MkPage { page_items : list T; page_total : nat }.
#[global] Arguments MkPage {T}.
#[global] Arguments page_items {T}.
#[global] Arguments page_total {T}.

Inductive Upserted : Type := Created | Updated.

(** [StoredItem::creators], [creators_of] and [custody_item]. *)
Definition creators_of (authors : gmap ContentHash (gset MemberId)) : gset MemberId := ⋃ (map_to_list authors).*2.
Definition stored_creators (s : StoredItem) : gset MemberId := creators_of (stored_file_authors s).
Definition stored_custody_item (s : StoredItem) : CustodyItem :=
  Build_CustodyItem (item_id (stored_item s)) (set_entries (stored_creators s))
    (foldl saturating_add64 0%N (file_size <$> (map_entries (files (stored_item s))).*2)).

(** ** The tables *)

Record ItemRow : Type := MkItemRow {
  row_kind : option string;
  row_title : option string;
  row_authors : option (list N);
  row_genres : option (list N);
  row_series : option string;
  row_series_index : option spec_float;
  row_year : option Z;
  row_lang : option string;
  row_description : option string;
  row_modified : N;
}.

Record FileRow : Type := MkFileRow {
  row_role : string;
  row_format : string;
  row_size : N;
  row_filename : string;
  row_seq : option N;
  row_disc : option N;
  row_file_title : option string;
  row_duration : option N;
}.

Record BookmarkRow : Type := MkBookmarkRow {
  row_position : string;
  row_note : string;
  row_created_at : N;
  row_bookmark_modified : N;
}.

Record MemberRow : Type := MkMemberRow { row_name : string; row_pledge : N; row_is_core : bool }.

Record Tables : Type := MkTables {
  items_table : gmap string ItemRow;
  files_table : gmap (string * string) FileRow;
  authors_table : gmap (string * (string * string)) unit;
  ratings_table : gmap (string * string) N;
  reviews_table : gmap (string * string) string;
  bookmarks_table : gmap (string * (string * string)) BookmarkRow;
  wish_entries_table : gmap (string * string) (list N);
  wish_comments_table : gmap (string * string) string;
  members_table : gmap string MemberRow;
  last_used_table : gmap string N;
  blob_last_used_table : gmap string N;
}.

Definition no_tables : Tables := MkTables ∅ ∅ ∅ ∅ ∅ ∅ ∅ ∅ ∅ ∅ ∅.

(** *** Rows that belong to a key *)

Section owned.
Context {K R : Type} `{Countable K}.

(** [OwnedRows::replace]: what was the key's goes, and [rows] are inserted,
    each worked out as it is come to. *)
Definition delete_of (key : string) (t : gmap (string * K) R) : gmap (string * K) R :=
  filter (λ x, x.1.1 ≠ key) t.
Fixpoint insert_rows (key : string) (rows : list (result SqlError (K * R))) (t : gmap (string * K) R)
  : result SqlError (gmap (string * K) R) :=
  match rows with
  | [] => Ok t
  | Err e :: _ => Err e
  | Ok (k, r) :: rows =>
      if bool_decide (is_Some (t !! (key, k))) then Err UniqueViolated
      else insert_rows key rows (<[(key, k) := r]> t)
  end.
Definition replace (key : string) (rows : list (result SqlError (K * R))) (t : gmap (string * K) R)
  : result SqlError (gmap (string * K) R) := insert_rows key rows (delete_of key t).

(** [select_item_rows]: every row, or one key's. *)
Definition select_rows (only : option string) (t : gmap (string * K) R) : list (string * K * R) :=
  match only with
  | Some key => filter (λ x, x.1.1 = key) (map_to_list t)
  | None => map_to_list t
  end.
End owned.

(** The loops over rows: the first that cannot be read ends them. *)
Fixpoint each_row {A B} (f : B → A → result SqlError B) (acc : B) (rows : list A) : result SqlError B :=
  match rows with [] => Ok acc | r :: rows => acc ←? f acc r ;; each_row f acc rows end.

(** [entry(a).or_default().insert(b, c)]. *)
Definition put_under {A B C} `{Countable A, Countable B} (a : A) (b : B) (c : C) (m : gmap A (gmap B C)) : gmap A (gmap B C) :=
  <[a := <[b := c]> (default ∅ (m !! a))]> m.

(** ** Statements *)

Section statements.
Context `{IdText ItemId, IdText ContentHash, IdText MemberId, IdText BookmarkId, IdText WishId}.
Context `{CommunityJson}.

(** [upsert_item]: the row of the item itself. *)
Definition item_row (s : StoredItem) : result SqlError ItemRow :=
  let i := stored_item s in
  modified ←? to_sql (stored_modified s) ;;
  Ok (MkItemRow (kind_word <$> kind i) (title i) (to_json <$> authors i) (to_json <$> genres i)
        (series_name <$> series i) (s ← series i; x ← series_index s; real x)
        (year i) (lang i) (description i) modified).

Definition file_row (f : FileRecord) : result SqlError FileRow :=
  size ←? to_sql (file_size f) ;;
  duration ←? to_sql_opt (duration f) ;;
  Ok (MkFileRow (role_word (role f)) (format f) size (filename f) (seq_no f) (disc f) (file_title f) duration).

Definition file_rows (i : Item) : list (result SqlError (string * FileRow)) :=
  (λ e, r ←? file_row e.2 ;; Ok (show_id e.1, r)) <$> map_entries (files i).
Definition author_rows (authors : gmap ContentHash (gset MemberId)) : list (result SqlError (string * string * unit)) :=
  map_entries authors ≫= λ e, (λ author, Ok (show_id e.1, show_id author, tt)) <$> set_entries e.2.
Definition member_rows {A R} (row : A → R) (values : gmap MemberId A) : list (result SqlError (string * R)) :=
  (λ e, Ok (show_id e.1, row e.2)) <$> map_entries values.

Definition upsert_item (s : StoredItem) (t : Tables) : result SqlError (Tables * Upserted) :=
  let id := show_id (item_id (stored_item s)) in
  let existed := bool_decide (is_Some (items_table t !! id)) in
  row ←? item_row s ;;
  files ←? replace id (file_rows (stored_item s)) (files_table t) ;;
  authors ←? replace id (author_rows (stored_file_authors s)) (authors_table t) ;;
  ratings ←? replace id (member_rows rating_get (stored_ratings s)) (ratings_table t) ;;
  reviews ←? replace id (member_rows review_text (stored_reviews s)) (reviews_table t) ;;
  Ok (MkTables (<[id := row]> (items_table t)) files authors ratings reviews (bookmarks_table t) (wish_entries_table t)
        (wish_comments_table t) (members_table t) (last_used_table t) (blob_last_used_table t),
      if existed then Updated else Created).

Definition bookmark_row (b : StoredBookmark) : result SqlError (string * string * BookmarkRow) :=
  made ←? to_sql (created_at (bookmarked b)) ;;
  modified ←? to_sql (bookmark_last_modified b) ;;
  Ok (show_id (bookmark_of b), show_id (bookmark_named b),
      MkBookmarkRow (position (bookmarked b)) (note (bookmarked b)) made modified).

Definition replace_bookmarks (item : ItemId) (bookmarks : list StoredBookmark) (t : Tables) : result SqlError (Tables * unit) :=
  rows ←? replace (show_id item) (bookmark_row <$> bookmarks) (bookmarks_table t) ;;
  Ok (MkTables (items_table t) (files_table t) (authors_table t) (ratings_table t) (reviews_table t) rows
        (wish_entries_table t) (wish_comments_table t) (members_table t) (last_used_table t) (blob_last_used_table t), tt).

Definition replace_wish (wish : WishId) (s : StoredWish) (t : Tables) : result SqlError (Tables * unit) :=
  entries ←? replace (show_id wish) (member_rows encode_wish (stored_entries s)) (wish_entries_table t) ;;
  comments ←? replace (show_id wish) (member_rows comment_text (stored_comments s)) (wish_comments_table t) ;;
  Ok (MkTables (items_table t) (files_table t) (authors_table t) (ratings_table t) (reviews_table t) (bookmarks_table t)
        entries comments (members_table t) (last_used_table t) (blob_last_used_table t), tt).

Fixpoint insert_members (members : list StoredMember) (rows : gmap string MemberRow) : result SqlError (gmap string MemberRow) :=
  match members with
  | [] => Ok rows
  | m :: members =>
      pledge ←? to_sql (stored_pledge m) ;;
      if bool_decide (is_Some (rows !! show_id (stored_member m))) then Err UniqueViolated
      else insert_members members (<[show_id (stored_member m) := MkMemberRow (stored_name m) pledge (stored_is_core m)]> rows)
  end.

Definition set_members (members : list StoredMember) (t : Tables) : result SqlError (Tables * unit) :=
  rows ←? insert_members members ∅ ;;
  Ok (MkTables (items_table t) (files_table t) (authors_table t) (ratings_table t) (reviews_table t) (bookmarks_table t)
        (wish_entries_table t) (wish_comments_table t) rows (last_used_table t) (blob_last_used_table t), tt).

Definition mark_used (item : ItemId) (at_ : Z) (t : Tables) : result SqlError (Tables * unit) :=
  millis ←? to_sql (millis_since_epoch at_) ;;
  Ok (MkTables (items_table t) (files_table t) (authors_table t) (ratings_table t) (reviews_table t) (bookmarks_table t)
        (wish_entries_table t) (wish_comments_table t) (members_table t) (<[show_id item := millis]> (last_used_table t))
        (blob_last_used_table t), tt).

Definition mark_used_by_blob (blob : ContentHash) (at_ : Z) (t : Tables) : result SqlError (Tables * unit) :=
  millis ←? to_sql (millis_since_epoch at_) ;;
  Ok (MkTables (items_table t) (files_table t) (authors_table t) (ratings_table t) (reviews_table t) (bookmarks_table t)
        (wish_entries_table t) (wish_comments_table t) (members_table t) (last_used_table t)
        (<[show_id blob := millis]> (blob_last_used_table t)), tt).

(** *** Reading *)

Definition row_to_item (id : string) (r : ItemRow) : result SqlError StoredItem :=
  id ←? identifier "id" id ;;
  kind ←? opt_read (λ w, unreadable "kind" (kind_from_word w)) (row_kind r) ;;
  authors ←? opt_read (λ j, unreadable "authors" (from_json j)) (row_authors r) ;;
  genres ←? opt_read (λ j, unreadable "genres" (from_json j)) (row_genres r) ;;
  Ok (MkStoredItem
        (MkItem id kind (row_title r) authors genres
           ((λ name, MkSeries name (row_series_index r)) <$> row_series r)
           (row_year r) (row_lang r) (row_description r) ∅)
        ∅ ∅ ∅ (row_modified r)).

Definition read_file (r : FileRow) : result SqlError FileRecord :=
  role ←? unreadable "role" (role_from_word (row_role r)) ;;
  Ok (MkFileRecord role (row_format r) (row_size r) (row_filename r) (row_seq r) (row_disc r) (row_file_title r) (row_duration r)).

Definition files_of (only : option ItemId) (t : Tables) : result SqlError (gmap ItemId (gmap ContentHash FileRecord)) :=
  each_row (λ grouped x,
      record ←? read_file x.2 ;;
      item ←? identifier "item" x.1.1 ;;
      blob ←? identifier "blob" x.1.2 ;;
      Ok (put_under item blob record grouped))
    ∅ (select_rows (show_id <$> only) (files_table t)).

Definition file_authors_of (only : option ItemId) (t : Tables) : result SqlError (gmap ItemId (gmap ContentHash (gset MemberId))) :=
  each_row (λ grouped x,
      item ←? identifier "item" x.1.1 ;;
      blob ←? identifier "blob" x.1.2.1 ;;
      member ←? identifier "member" x.1.2.2 ;;
      Ok (put_under item blob ({[member]} ∪ default ∅ (default ∅ (grouped !! item) !! blob)) grouped))
    ∅ (select_rows (show_id <$> only) (authors_table t)).

Definition member_values_by_item {R V} (value : R → result SqlError V) (only : option ItemId) (t : gmap (string * string) R)
  : result SqlError (gmap ItemId (gmap MemberId V)) :=
  each_row (λ grouped x,
      item ←? identifier "item" x.1.1 ;;
      member ←? identifier "member" x.1.2 ;;
      v ←? value x.2 ;;
      Ok (put_under item member v grouped))
    ∅ (select_rows (show_id <$> only) t).

Record ItemDetails : Type := MkItemDetails {
  detail_files : gmap ItemId (gmap ContentHash FileRecord);
  detail_authors : gmap ItemId (gmap ContentHash (gset MemberId));
  detail_ratings : gmap ItemId (gmap MemberId Rating);
  detail_reviews : gmap ItemId (gmap MemberId Review);
}.

(** [ItemDetails::read] and [attach_to]. *)
Definition read_details (only : option ItemId) (t : Tables) : result SqlError ItemDetails :=
  files ←? files_of only t ;;
  authors ←? file_authors_of only t ;;
  ratings ←? member_values_by_item (λ n, from_core "rating" (rating_try_from n)) only (ratings_table t) ;;
  reviews ←? member_values_by_item (λ s, from_core "review" (review_try_from s)) only (reviews_table t) ;;
  Ok (MkItemDetails files authors ratings reviews).

Definition with_files (fs : gmap ContentHash FileRecord) (i : Item) : Item :=
  MkItem (item_id i) (kind i) (title i) (authors i) (genres i) (series i) (year i) (lang i) (description i) fs.
Definition attach (d : ItemDetails) (s : StoredItem) : StoredItem :=
  let id := item_id (stored_item s) in
  MkStoredItem (with_files (default ∅ (detail_files d !! id)) (stored_item s))
    (default ∅ (detail_ratings d !! id)) (default ∅ (detail_reviews d !! id))
    (default ∅ (detail_authors d !! id)) (stored_modified s).

(** [Store::item_fields] and [item]. *)
Definition item_fields (id : ItemId) (t : Tables) : result SqlError (option StoredItem) :=
  match items_table t !! show_id id with
  | None => Ok None
  | Some r => s ←? row_to_item (show_id id) r ;; Ok (Some s)
  end.
Definition item (id : ItemId) (t : Tables) : result SqlError (option StoredItem) :=
  details ←? read_details (Some id) t ;;
  s ←? item_fields id t ;;
  Ok (attach details <$> s).

(** [ORDER BY id]: texts are compared by their bytes. *)
Definition by_text {A} (x y : string * A) : Prop := String.le x.1 y.1.
#[export] Instance by_text_dec {A} : RelDecision (by_text (A := A)).
Proof. intros x y. unfold by_text. apply _. Defined.
Definition text_entries {A} (t : gmap string A) : list (string * A) := merge_sort by_text (map_to_list t).

(** [Store::items]. *)
Definition items (t : Tables) : result SqlError (list StoredItem) :=
  details ←? read_details None t ;;
  each_row (λ acc x, s ←? row_to_item x.1 x.2 ;; Ok (acc ++ [attach details s])) [] (text_entries (items_table t)).

Definition stored_bookmark (member id : string) (r : BookmarkRow) : result SqlError StoredBookmark :=
  member ←? identifier "member" member ;;
  id ←? identifier "id" id ;;
  b ←? from_core "bookmark" (new_bookmark (row_position r) (row_note r) (row_created_at r)) ;;
  Ok (MkStoredBookmark member id b (row_bookmark_modified r)).

(** [ORDER BY member, id]. *)
Definition by_texts (x y : string * string) : Prop := if decide (x.1 = y.1) then String.le x.2 y.2 else String.le x.1 y.1.
#[export] Instance by_texts_dec : RelDecision by_texts.
Proof. intros x y. unfold by_texts. case_decide; apply _. Defined.
Definition member_order (x y : string * (string * string) * BookmarkRow) : Prop := by_texts x.1.2 y.1.2.
#[export] Instance member_order_dec : RelDecision member_order.
Proof. intros x y. unfold member_order. apply _. Defined.

(** [Store::bookmarks_of]. *)
Definition bookmarks_of (item : ItemId) (t : Tables) : result SqlError (list StoredBookmark) :=
  each_row (λ acc x, b ←? stored_bookmark x.1.2.1 x.1.2.2 x.2 ;; Ok (acc ++ [b])) []
    (merge_sort member_order (select_rows (Some (show_id item)) (bookmarks_table t))).

(** [Store::wish] and [all_wishes]. *)
Definition read_members {R V} (value : R → result SqlError V) (rows : list (string * string * R)) : result SqlError (gmap MemberId V) :=
  each_row (λ acc x, m ←? identifier "member" x.1.2 ;; v ←? value x.2 ;; Ok (<[m := v]> acc)) ∅ rows.
Definition read_entry_json (j : list N) : result SqlError Wish := unreadable "entry" (decode_wish j).
Definition read_comment (s : string) : result SqlError Comment := from_core "comment" (comment_try_from s).
Definition wish (w : WishId) (t : Tables) : result SqlError StoredWish :=
  entries ←? read_members read_entry_json (select_rows (Some (show_id w)) (wish_entries_table t)) ;;
  comments ←? read_members read_comment (select_rows (Some (show_id w)) (wish_comments_table t)) ;;
  Ok (MkStoredWish entries comments).
Definition with_entry (m : MemberId) (e : Wish) (s : StoredWish) : StoredWish :=
  MkStoredWish (<[m := e]> (stored_entries s)) (stored_comments s).
Definition with_comment (m : MemberId) (c : Comment) (s : StoredWish) : StoredWish :=
  MkStoredWish (stored_entries s) (<[m := c]> (stored_comments s)).
Definition all_wishes (t : Tables) : result SqlError (gmap WishId StoredWish) :=
  wishes ←? each_row (λ acc x,
      w ←? identifier "wish" x.1.1 ;; m ←? identifier "member" x.1.2 ;; e ←? read_entry_json x.2 ;;
      Ok (<[w := with_entry m e (default default_wish (acc !! w))]> acc))
    ∅ (select_rows None (wish_entries_table t)) ;;
  each_row (λ acc x,
      c ←? read_comment x.2 ;; w ←? identifier "wish" x.1.1 ;; m ←? identifier "member" x.1.2 ;;
      Ok (<[w := with_comment m c (default default_wish (acc !! w))]> acc))
    wishes (select_rows None (wish_comments_table t)).

(** [Store::members]. *)
Definition read_member (x : string * MemberRow) : result SqlError StoredMember :=
  m ←? identifier "id" x.1 ;; Ok (MkStoredMember m (row_name x.2) (row_pledge x.2) (row_is_core x.2)).
Definition members (t : Tables) : result SqlError (list StoredMember) :=
  each_row (λ acc x, m ←? read_member x ;; Ok (acc ++ [m])) [] (text_entries (members_table t)).

(** *** Looking across tables *)

(** [TOTAL] of a column, as the code takes it for a [u64]: a float, so exact
    only while a float is. *)
Context (total_u64 : list N → N).

(** [Store::custody_items]. *)
Definition sizes_of (id : string) (t : Tables) : list N := row_size <$> (select_rows (Some id) (files_table t)).*2.
Definition custody_items (t : Tables) : result SqlError (list CustodyItem) :=
  authors ←? file_authors_of None t ;;
  each_row (λ acc x,
      item ←? identifier "id" x.1 ;;
      Ok (acc ++ [Build_CustodyItem item (set_entries (default ∅ (creators_of <$> authors !! item)))
                    (total_u64 (sizes_of x.1 t))]))
    [] (text_entries (items_table t)).

(** [Store::added_bytes]: grouped by member, the files joined by their key. *)
Definition added_files (t : Tables) : list (string * N) :=
  omap (λ x, f ← files_table t !! (x.1.1, x.1.2.1);
             if decide (row_role f = "content") then Some (x.1.2.2, row_size f) else None)
       (map_to_list (authors_table t)).
Definition added_of (m : string) (added : list (string * N)) : list N := (filter (λ x, x.1 = m) added).*2.
Definition added_bytes (t : Tables) : result SqlError (gmap MemberId N) :=
  let added := added_files t in
  each_row (λ acc m, member ←? identifier "member" m ;; Ok (<[member := total_u64 (added_of m added)]> acc))
    ∅ (remove_dups added.*1).

(** [Store::is_content_file]. *)
Definition is_content_file (blob : ContentHash) (t : Tables) : bool :=
  bool_decide (Exists (λ x, x.1.2 = show_id blob ∧ row_role x.2 = "content") (map_to_list (files_table t))).

(** [Store::last_used]: every stamp, an item's own and its files', and the
    latest of each item's. *)
Definition stamps (t : Tables) : list (string * N) :=
  map_to_list (last_used_table t) ++
  omap (λ x, at_ ← blob_last_used_table t !! x.1.2; Some (x.1.1, at_)) (map_to_list (files_table t)).
Definition latest_of (item : string) (l : list (string * N)) : N := foldr N.max 0%N (filter (λ x, x.1 = item) l).*2.
Definition last_used (t : Tables) : result SqlError (gmap ItemId Z) :=
  let l := stamps t in
  each_row (λ acc text, item ←? identifier "item" text ;; Ok (<[item := time_of_millis (latest_of text l)]> acc))
    ∅ (remove_dups l.*1).

(** [COLLATE NOCASE] and [LIKE] fold the case of ASCII letters. *)
Definition fold_char (c : ascii) : ascii :=
  let n := N_of_ascii c in if between 65 90 n then ascii_of_N (n + 32) else c.
Fixpoint fold_case (s : string) : string :=
  match s with EmptyString => EmptyString | String c s => String (fold_char c) (fold_case s) end.

(** [Store::page]: untitled items last, then by title, then by id. *)
Definition title_key (r : ItemRow) : bool * string :=
  match row_title r with None => (true, "") | Some t => (false, fold_case t) end.
Definition browse_le (x y : string * ItemRow) : Prop :=
  let '(no_x, tx) := title_key x.2 in let '(no_y, ty) := title_key y.2 in
  match no_x, no_y with
  | false, true => True
  | true, false => False
  | _, _ => by_texts (tx, x.1) (ty, y.1)
  end.
#[export] Instance browse_le_dec : RelDecision browse_le.
Proof. intros x y. unfold browse_le. destruct (title_key x.2) as [[] tx], (title_key y.2) as [[] ty]; apply _. Defined.

Definition browse_order (t : Tables) : list (string * ItemRow) := merge_sort browse_le (map_to_list (items_table t)).
Definition page_of (offset limit : N) {A} (l : list A) : list A :=
  take (N.to_nat (N.min limit i64_max)) (drop (N.to_nat (N.min offset i64_max)) l).
Definition page (offset limit : N) (t : Tables) : result SqlError (Page StoredItem) :=
  rows ←? each_row (λ acc x, s ←? row_to_item x.1 x.2 ;; Ok (acc ++ [s])) [] (page_of offset limit (browse_order t)) ;;
  Ok (MkPage rows (size (items_table t))).

(** [like_anywhere]. *)
Definition backslash : ascii := "\"%char.
Definition percent : ascii := "%"%char.
Definition underscore : ascii := "_"%char.
Fixpoint replace_char (c : ascii) (by_ : string) (s : string) : string :=
  match s with
  | EmptyString => EmptyString
  | String d s => if bool_decide (d = c) then by_ +:+ replace_char c by_ s else String d (replace_char c by_ s)
  end.
Definition escaped (text : string) : string :=
  replace_char underscore "\_" (replace_char percent "\%" (replace_char backslash "\\" text)).
Definition like_anywhere (text : string) : string := "%" +:+ (escaped text +:+ "%").

(** A pattern of [LIKE … ESCAPE '\']: what follows the escape stands for
    itself, and nothing is like an escape of nothing. [Many] is any run, [One]
    any character of UTF-8. *)
Inductive LikeToken : Type := Many | One | Char (c : ascii) | Never.
Fixpoint like_tokens (pattern : string) : list LikeToken :=
  match pattern with
  | EmptyString => []
  | String c rest =>
      if bool_decide (c = backslash) then
        match rest with EmptyString => [Never] | String d rest => Char d :: like_tokens rest end
      else (if bool_decide (c = percent) then Many else if bool_decide (c = underscore) then One else Char c) :: like_tokens rest
  end.
Fixpoint after_char (s : string) : string :=
  match s with String c s' => if continuation (N_of_ascii c) then after_char s' else s | EmptyString => s end.
Fixpoint suffixes (s : string) : list string :=
  s :: match s with EmptyString => [] | String _ s => suffixes s end.
Fixpoint like_match (tokens : list LikeToken) (s : string) : bool :=
  match tokens with
  | [] => bool_decide (s = "")
  | Never :: _ => false
  | Many :: tokens => existsb (like_match tokens) (suffixes s)
  | One :: tokens => match s with EmptyString => false | String _ s => like_match tokens (after_char s) end
  | Char c :: tokens =>
      match s with EmptyString => false | String d s => bool_decide (fold_char c = fold_char d) && like_match tokens s end
  end.

(** [SQLITE_MAX_LIKE_PATTERN_LENGTH], beyond which SQLite refuses a match. *)
Definition LIKE_PATTERN_MAX : nat := 50000.
Definition like (pattern text : string) : result SqlError bool :=
  if bool_decide (LIKE_PATTERN_MAX < String.length pattern) then Err PatternTooComplex
  else Ok (like_match (like_tokens pattern) text).

(** [OR] stops at the first that matches; [NULL] is like nothing. *)
Fixpoint like_any (pattern : string) (texts : list (option string)) : result SqlError bool :=
  match texts with
  | [] => Ok false
  | None :: texts => like_any pattern texts
  | Some text :: texts => m ←? like pattern text ;; if m : bool then Ok true else like_any pattern texts
  end.

(** [Store::find_bookmarks]: the bookmarks joined with what is known of their
    items and members. *)
Record JoinedRow : Type := MkJoinedRow {
  joined_key : string * (string * string);
  joined_row : BookmarkRow;
  joined_title : option string;
  joined_name : option string;
}.
Definition joined_rows (t : Tables) : list JoinedRow :=
  (λ x, MkJoinedRow x.1 x.2 (r ← items_table t !! x.1.1; row_title r)
          (row_name <$> members_table t !! x.1.2.1)) <$> map_to_list (bookmarks_table t).
Definition lets_through (f : BookmarkFilter) (r : JoinedRow) : result SqlError bool :=
  matches ←? match filter_text f with
             | None => Ok true
             | Some text => like_any (like_anywhere text) [Some (row_note (joined_row r)); joined_title r; joined_name r]
             end ;;
  Ok (matches && (match filter_member f with None => true | Some m => bool_decide ((joined_key r).2.1 = show_id m) end)
      && (match filter_item f with None => true | Some i => bool_decide ((joined_key r).1 = show_id i) end)).
Fixpoint filter_rows {A} (p : A → result SqlError bool) (l : list A) : result SqlError (list A) :=
  match l with
  | [] => Ok []
  | x :: l => keep ←? p x ;; l ←? filter_rows p l ;; Ok (if keep : bool then x :: l else l)
  end.
(** Newest first, then by item, member and id. *)
Definition newest_first (x y : JoinedRow) : Prop :=
  (row_created_at (joined_row y) < row_created_at (joined_row x))%N ∨
  row_created_at (joined_row x) = row_created_at (joined_row y) ∧
  (if decide ((joined_key x).1 = (joined_key y).1) then by_texts (joined_key x).2 (joined_key y).2
   else String.le (joined_key x).1 (joined_key y).1).
#[export] Instance newest_first_dec : RelDecision newest_first.
Proof. intros x y. unfold newest_first. apply or_dec; [apply _|]. apply and_dec; [apply _|]. case_decide; apply _. Defined.
Definition read_listed (r : JoinedRow) : result SqlError ListedBookmark :=
  item ←? identifier "item" (joined_key r).1 ;;
  stored ←? stored_bookmark (joined_key r).2.1 (joined_key r).2.2 (joined_row r) ;;
  Ok (MkListedBookmark item (joined_title r) (joined_name r) stored).
Definition find_bookmarks (f : BookmarkFilter) (t : Tables) : result SqlError (list ListedBookmark) :=
  found ←? filter_rows (lets_through f) (joined_rows t) ;;
  each_row (λ acc r, l ←? read_listed r ;; Ok (acc ++ [l])) [] (merge_sort newest_first found).
End statements.

(** ** Running a statement *)

(** Whether SQLite and the pool its statements run on do their part. *)
Inductive Pool : Type := Runs | Refuses (why : string) | PoolGone.

(** [Store::write]: a transaction, undone unless it commits. *)
Definition write {A} (doing : string) (pool : Pool) (work : Tables → result SqlError (Tables * A)) : fallible Tables StoreError A := λ t,
  match pool with
  | PoolGone => (t, Err StoppedPool)
  | Refuses why => (t, Err (Sql doing (SqliteRefused why)))
  | Runs => match work t with Ok (t', a) => (t', Ok a) | Err e => (t, Err (Sql doing e)) end
  end.

(** [Store::read]. *)
Definition read {A} (pool : Pool) (work : Tables → result SqlError A) (t : Tables) : result StoreError A :=
  match pool with
  | PoolGone => Err StoppedPool
  | Refuses why => Err (Sql "read from" (SqliteRefused why))
  | Runs => match work t with Ok a => Ok a | Err e => Err (Sql "read from" e) end
  end.

(** ** Opening *)

Record Database : Type := MkDatabase { user_version : N; tables : Tables }.
Definition new_database : Database := MkDatabase 0 no_tables.

Inductive OpenStep : Type := CreateDir | Connect | SetUp | AskVersion | Clear | GiveTables | GiveVersion.
#[export] Instance OpenStep_eq_dec : EqDecision OpenStep.
Proof. solve_decision. Defined.

(** [Store::open_blocking]: the tables of another version, all of them, are
    dropped in a transaction; the version is written last. *)
Definition step_refused (refused : OpenStep → option string) (s : OpenStep) (e : string → StoreError) : fallible Database StoreError unit :=
  match refused s with Some why => ferr (e why) | None => fret tt end.
Definition sql_refused (doing why : string) : StoreError := Sql doing (SqliteRefused why).
Definition open_blocking (refused : OpenStep → option string) : fallible Database StoreError unit :=
  step_refused refused CreateDir OpenFailed ;!
  step_refused refused Connect OpenFailed ;!
  step_refused refused SetUp (sql_refused "set up") ;!
  step_refused refused AskVersion (sql_refused "asked its version") ;!
  d ←! fget ;;
  (if bool_decide (user_version d = READ_MODEL_VERSION) then fret tt
   else step_refused refused Clear (sql_refused "cleared for a new version") ;!
        fmodify (λ d, MkDatabase (user_version d) no_tables)) ;!
  step_refused refused GiveTables (sql_refused "given its tables") ;!
  step_refused refused GiveVersion (sql_refused "given its version") ;!
  fmodify (λ d, MkDatabase READ_MODEL_VERSION (tables d)).
