(* ===== verification/Projecting.v ===== *)
(** * The search index, and the projection that fills both halves

    [crates/distlib-store/src/index.rs] and [projection.rs]. tantivy is told
    here only what the code relies on: what is staged is searched once
    committed, and what a query finds is ranked by it. The projection task is
    its turns, one item, bookmark list or wish at a time, since the document
    may change between any two. *)

From stdpp Require Import strings.
From S2P Require Import Prelude Ids Events Membership Heartbeats Keeping Failures Statements Blobs Texts Items Community Catalogue Changes Held ReadModel.

(** ** The index *)

(** The fields of a document, each only if the item has it. *)
Record Indexed : Type := MkIndexed {
  index_title : option string;
  index_authors : option string;
  index_genres : option string;
  index_series : option string;
  index_description : option string;
  index_lang : option string;
}.

(** The boosts, in hundredths. *)
Definition TITLE_BOOST : N := 300.
Definition AUTHORS_BOOST : N := 200.
Definition SERIES_BOOST : N := 150.
Definition GENRES_BOOST : N := 125.
Definition DESCRIPTION_BOOST : N := 100.
Definition LANG_BOOST : N := 50.

(** [[T]::join]. *)
Fixpoint join (sep : string) (l : list string) : string :=
  match l with [] => "" | [s] => s | s :: l => s +:+ sep +:+ join sep l end.

Definition index_document (i : Item) : Indexed :=
  MkIndexed (title i) (join " " <$> authors i) (join " " <$> genres i) (series_name <$> series i) (description i) (lang i).

(** [writer] is there until the index is closed. *)
Record SearchIndex : Type := MkSearchIndex {
  writer : bool;
  staged : gmap string Indexed;
  searched : gmap string Indexed;
}.

Inductive Told : Type := Done | Failed (why : string) | Gone.

Section index.
Context `{IdText ItemId}.

(** [SearchIndex::index_item] and [upsert]: the old document goes even when
    the new one is refused. *)
Definition index_item (told : Told) (i : Item) : fallible SearchIndex StoreError unit := λ x,
  match told with
  | Gone => (x, Err StoppedPool)
  | _ =>
      if writer x then
        let id := show_id (item_id i) in
        match told with
        | Failed why => (MkSearchIndex true (delete id (staged x)) (searched x), Err (IndexFailed "written to" why))
        | _ => (MkSearchIndex true (<[id := index_document i]> (staged x)) (searched x), Ok tt)
        end
      else (x, Err IndexClosed)
  end.

(** [SearchIndex::commit]: a reader that does not reload goes on with what it
    had. *)
Definition commit (told reloaded : Told) : fallible SearchIndex StoreError unit := λ x,
  match told with
  | Gone => (x, Err StoppedPool)
  | _ =>
      if writer x then
        match told, reloaded with
        | Failed why, _ => (x, Err (IndexFailed "committed" why))
        | _, Failed why => (x, Err (IndexFailed "reloaded" why))
        | _, _ => (MkSearchIndex true (staged x) (staged x), Ok tt)
        end
      else (x, Err IndexClosed)
  end.

(** [SearchIndex::close]. *)
Definition close (told : Told) : fallible SearchIndex StoreError unit := λ x,
  match told with
  | Gone => (x, Err StoppedPool)
  | _ =>
      (MkSearchIndex false (staged x) (searched x),
       match told with Failed why => if writer x then Err (IndexFailed "closed" why) else Ok tt | _ => Ok tt end)
  end.

(** [read_id]. *)
Definition read_hit (text : string) : result StoreError ItemId :=
  match read_id text with Some id => Ok id | None => Err (Corrupt text) end.
Fixpoint read_hits (l : list string) : result StoreError (list ItemId) :=
  match l with [] => Ok [] | t :: l => id ←? read_hit t ;; l ←? read_hits l ;; Ok (id :: l) end.

(** [SearchIndex::search_page]: [rank] is the query as tantivy reads it and
    what it then finds, best first. *)
Context (rank : string → result string (gmap string Indexed → list string)).
Definition search_page (query : string) (offset limit : nat) (x : SearchIndex) : result StoreError (Page ItemId) :=
  match rank query with
  | Err why => Err (QueryError query why)
  | Ok ranked =>
      let hits := ranked (searched x) in
      if bool_decide (limit = 0) then Ok (MkPage [] (length hits))
      else
        let offset := Nat.min offset (size (searched x)) in
        ids ←? read_hits (take limit (drop offset hits)) ;;
        Ok (MkPage ids (length hits))
  end.
(** [SearchIndex::search]. *)
Definition search (query : string) (limit : nat) (x : SearchIndex) : result StoreError (list ItemId) :=
  p ←? search_page query 0 limit x ;; Ok (page_items p).
End index.

(** *** Opening it *)

(** What a directory holds: the version's file, and the index if tantivy would
    open it, which it does only with the schema it was made with. *)
Record IndexDir : Type := MkIndexDir { version_file : option string; index_there : option (bool * gmap string Indexed) }.
Definition VERSION_TEXT : string := "8".

(** [open_or_create]: [None] is a schema it did not expect. *)
Definition open_or_create (d : IndexDir) : IndexDir * option (gmap string Indexed) :=
  match index_there d with
  | None => (MkIndexDir (version_file d) (Some (true, ∅)), Some ∅)
  | Some (true, docs) => (d, Some docs)
  | Some (false, _) => (d, None)
  end.
Definition start_afresh : IndexDir := MkIndexDir None None.

(** [open_versioned], when the file system does as it is told. *)
Definition open_versioned (d : IndexDir) : IndexDir * option (gmap string Indexed) :=
  let d := if bool_decide (version_file d = Some VERSION_TEXT) then d else start_afresh in
  let '(d, opened) := match open_or_create d with
                      | (_, None) => open_or_create start_afresh
                      | opened => opened
                      end in
  (MkIndexDir (Some VERSION_TEXT) (index_there d), opened).

(** ** The projection *)

Inductive Event : Type :=
| ItemAdded (item_id : ItemId)
| ItemChanged (item_id : ItemId)
| BookmarkChanged (item_id : ItemId)
| WishChanged (wish_id : WishId).

(** [ReadModelWriter], with the two stores it writes. *)
Record Writer : Type := MkWriter {
  store : Tables;
  index : SearchIndex;
  holdings : HeldSet;
  projected_for : gset MemberId;
  replays : N;
  items_waiting : gset ItemId;
  bookmarks_waiting : gset ItemId;
  wishes_waiting : gset WishId;
}.

Definition with_store (s : Tables) (p : Writer) : Writer :=
  MkWriter s (index p) (holdings p) (projected_for p) (replays p) (items_waiting p) (bookmarks_waiting p) (wishes_waiting p).
Definition with_index (x : SearchIndex) (p : Writer) : Writer :=
  MkWriter (store p) x (holdings p) (projected_for p) (replays p) (items_waiting p) (bookmarks_waiting p) (wishes_waiting p).
Definition with_holdings (h : HeldSet) (p : Writer) : Writer :=
  MkWriter (store p) (index p) h (projected_for p) (replays p) (items_waiting p) (bookmarks_waiting p) (wishes_waiting p).
Definition with_members (m : gset MemberId) (p : Writer) : Writer :=
  MkWriter (store p) (index p) (holdings p) m (replays p) (items_waiting p) (bookmarks_waiting p) (wishes_waiting p).
Definition with_items_waiting (w : gset ItemId) (p : Writer) : Writer :=
  MkWriter (store p) (index p) (holdings p) (projected_for p) (replays p) w (bookmarks_waiting p) (wishes_waiting p).
Definition with_bookmarks_waiting (w : gset ItemId) (p : Writer) : Writer :=
  MkWriter (store p) (index p) (holdings p) (projected_for p) (replays p) (items_waiting p) w (wishes_waiting p).
Definition with_wishes_waiting (w : gset WishId) (p : Writer) : Writer :=
  MkWriter (store p) (index p) (holdings p) (projected_for p) (replays p) (items_waiting p) (bookmarks_waiting p) w.
Definition count_replay (p : Writer) : Writer :=
  MkWriter (store p) (index p) (holdings p) (projected_for p) (replays p + 1) (items_waiting p) (bookmarks_waiting p) (wishes_waiting p).

(** What one pass over an item, a bookmark list or a wish meets. *)
Record Meets : Type := MkMeets {
  meets_pool : Pool;
  meets_index : Told;
  kept_listings : list (result SyncError (list ContentHash));
  file_status : ContentHash → result SyncError bool;
  meets_now : N;
}.

Definition remember {A} `{Countable A} (waits : bool) (a : A) (s : gset A) : gset A :=
  if waits then {[a]} ∪ s else s ∖ {[a]}.

Section projection.
Context `{IdText ItemId, IdText ContentHash, IdText MemberId, IdText BookmarkId, IdText WishId}.
Context `{CommunityJson, Documents}.

(** [BTreeMap::retain] of the members'. *)
Definition of_members {A} (members : gset MemberId) (values : gmap MemberId A) : gmap MemberId A :=
  filter (λ x, x.1 ∈ members) values.

(** What is written of what was read. *)
Definition to_store (members : gset MemberId) (r : ReadItem) : StoredItem :=
  MkStoredItem (read_back r) (of_members members (item_ratings r)) (of_members members (item_reviews r))
    (Catalogue.file_authors r) (item_modified r).
Definition bookmark_to_store (b : ReadBookmark) : StoredBookmark :=
  MkStoredBookmark (bookmark_member b) (bookmark_id b) (read_mark b) (bookmark_modified b).
Definition bookmarks_to_store (members : gset MemberId) (l : list ReadBookmark) : list StoredBookmark :=
  bookmark_to_store <$> filter (λ b, bookmark_member b ∈ members) l.
Definition wish_to_store (members : gset MemberId) (r : ReadWish) : StoredWish :=
  let entries := of_members members (wish_entries r) in
  MkStoredWish entries (if decide (entries = ∅) then ∅ else of_members members (wish_comments_read r)).

(** A turn of the loop of [project_items]: whether the index was written, and
    the event. *)
Definition project_item (w : ContentWorld) (c : option Doc) (meets : Meets) (id : ItemId) (p : Writer) : Writer * bool * option Event :=
  match read_item w id c with
  | Err _ | Ok None => (p, false, None)
  | Ok (Some r) =>
      let p := with_items_waiting (remember (item_waiting r) id (items_waiting p)) p in
      let p := with_holdings (recheck (kept_listings meets) (file_status meets) (meets_now meets) (item_id (read_back r))
                                ((λ e, (e.1, role e.2)) <$> map_entries (files (read_back r))) (holdings p)).1 p in
      let '(x, indexed) := index_item (meets_index meets) (read_back r) (index p) in
      let p := with_index x p in
      let '(s, wrote) := write "written to" (meets_pool meets) (upsert_item (to_store (projected_for p) r)) (store p) in
      (with_store s p, is_ok indexed,
       match wrote with
       | Ok Created => Some (ItemAdded id)
       | Ok Updated => Some (ItemChanged id)
       | Err _ => None
       end)
  end.

(** A turn of the loop of [project_bookmarks]. *)
Definition project_bookmark (w : ContentWorld) (c : option Doc) (meets : Meets) (item : ItemId) (p : Writer) : Writer * option Event :=
  match read_bookmarks w item c with
  | Err _ => (p, None)
  | Ok (l, waits) =>
      let p := with_bookmarks_waiting (remember waits item (bookmarks_waiting p)) p in
      let '(s, wrote) := write "given an item's bookmarks" (meets_pool meets)
                           (replace_bookmarks item (bookmarks_to_store (projected_for p) l)) (store p) in
      (with_store s p, if is_ok wrote then Some (BookmarkChanged item) else None)
  end.

(** A turn of the loop of [project_wishes]. *)
Definition project_wish (w : ContentWorld) (c : option Doc) (meets : Meets) (wish : WishId) (p : Writer) : Writer * option Event :=
  match read_wish w wish c with
  | Err _ => (p, None)
  | Ok r =>
      let p := with_wishes_waiting (remember (wish_waiting r) wish (wishes_waiting p)) p in
      let '(s, wrote) := write "given a wish" (meets_pool meets) (replace_wish wish (wish_to_store (projected_for p) r)) (store p) in
      (with_store s p, if is_ok wrote then Some (WishChanged wish) else None)
  end.

(** [project_members], with whose words are projected from now on. *)
Definition members_seen (m : MembershipState) : list StoredMember :=
  (λ e, MkStoredMember (member_id e.2) (display_name e.2) (pledge_bytes e.2) (is_core m (member_id e.2))) <$> map_entries (Membership.members m).
Definition project_members (pool : Pool) (m : MembershipState) (s : Tables) : Tables * gset MemberId :=
  let seen := members_seen m in
  ((write "given the group's members" pool (set_members seen) s).1, list_to_set (stored_member <$> seen)).

(** ** The task *)

(** What is left of a pass; a replay tells nobody, and is counted. *)
Record Pass : Type := MkPass {
  left_items : list ItemId;
  left_bookmarks : list ItemId;
  left_wishes : list WishId;
  any_indexed : bool;
  written : list Event;
  is_replay : bool;
}.

(** [Waiting] for the document, between passes, in one, or stopped. *)
Inductive Phase : Type := NotReady | Between | Within (pass : Pass) | StoppedTask.

Record Task : Type := MkTask { phase : Phase; read_model : Writer; published : list Event }.

Definition begin_pass (items bookmarked : gset ItemId) (wishes : gset WishId) (replaying : bool) (t : Task) : Task :=
  MkTask (Within (MkPass (set_entries items) (set_entries bookmarked) (set_entries wishes) false [] replaying)) (read_model t) (published t).

(** The beginning of [replay]. *)
Definition begin_replay (c : option Doc) (t : Task) : Task :=
  match item_ids c, bookmarked_item_ids c, wish_ids c with
  | Ok items, Ok bookmarked, Ok wishes => begin_pass items bookmarked wishes true t
  | _, _, _ => MkTask Between (read_model t) (published t)
  end.

(** The end of a pass. *)
Definition end_pass (pass : Pass) (t : Task) : Task :=
  if is_replay pass then MkTask Between (count_replay (read_model t)) (published t)
  else MkTask Between (read_model t) (published t ++ written pass).

(** A pass goes on: items, the index's commit, bookmarks, wishes. *)
Definition pass_turn (w : ContentWorld) (c : option Doc) (meets : Meets) (committed : Told * Told) (pass : Pass) (t : Task) : Task :=
  let p := read_model t in
  match left_items pass with
  | id :: rest =>
      let '(p, indexed, event) := project_item w c meets id p in
      let any := any_indexed pass || indexed in
      let p := if bool_decide (rest = []) && any then with_index (commit committed.1 committed.2 (index p)).1 p else p in
      MkTask (Within (MkPass rest (left_bookmarks pass) (left_wishes pass) any (written pass ++ option_to_list event) (is_replay pass)))
        p (published t)
  | [] =>
      match left_bookmarks pass with
      | item :: rest =>
          let '(p, event) := project_bookmark w c meets item p in
          MkTask (Within (MkPass [] rest (left_wishes pass) (any_indexed pass) (written pass ++ option_to_list event) (is_replay pass)))
            p (published t)
      | [] =>
          match left_wishes pass with
          | wish :: rest =>
              let '(p, event) := project_wish w c meets wish p in
              MkTask (Within (MkPass [] [] rest (any_indexed pass) (written pass ++ option_to_list event) (is_replay pass)))
                p (published t)
          | [] => end_pass pass t
          end
      end
  end.

(** The arms of [run], each with what it is woken with. *)
Inductive Woken : Type :=
| Ready (m : MembershipState) (watches : bool)
| TakeBatch (b : option Batch)
| MembersMoved (m : option MembershipState)
| ReindexAsked
| GoesOn.

Definition run_turn (w : ContentWorld) (c : option Doc) (meets : Meets) (committed : Told * Told) (woken : Woken) (t : Task) : Task :=
  match phase t, woken with
  | NotReady, Ready m watches =>
      if watches then
        let '(s, members) := project_members (meets_pool meets) m (store (read_model t)) in
        begin_replay c (MkTask Between (with_members members (with_store s (read_model t))) (published t))
      else MkTask StoppedTask (read_model t) (published t)
  | Between, TakeBatch None => MkTask StoppedTask (read_model t) (published t)
  | Between, TakeBatch (Some b) =>
      let p := read_model t in
      let arrived := content_arrived b in
      begin_pass (if arrived then batch_items b ∪ items_waiting p else batch_items b)
        (if arrived then items_with_changed_bookmarks b ∪ bookmarks_waiting p else items_with_changed_bookmarks b)
        (if arrived then changed_wishes b ∪ wishes_waiting p else changed_wishes b) false t
  | Between, MembersMoved None => MkTask StoppedTask (read_model t) (published t)
  | Between, MembersMoved (Some m) =>
      let '(s, members) := project_members (meets_pool meets) m (store (read_model t)) in
      let p := with_store s (read_model t) in
      if bool_decide (members = projected_for p) then MkTask Between p (published t)
      else begin_replay c (MkTask Between (with_members members p) (published t))
  | Between, ReindexAsked => begin_replay c t
  | Within pass, GoesOn => pass_turn w c meets committed pass t
  | _, _ => t
  end.

(** A task over a store left by an earlier run. *)
Definition start (s : Tables) (x : SearchIndex) (h : HeldSet) : Task :=
  MkTask NotReady (MkWriter s x h ∅ 0 ∅ ∅ ∅) [].
End projection.
