(* ===== verification/ReadModelProps.v ===== *)
(** * The tables are the catalogue's maps

    What the store is written is what it reads back: the tables encode maps of
    items, bookmarks, wishes and members, every statement that succeeds is the
    update of those maps, and one that fails leaves them. *)

From Stdlib Require Import Ascii SpecFloat.
From stdpp Require Import strings.
From S2P Require Import Prelude Ids Custody Heartbeats Keeping Failures Texts Items ItemsProps Community ReadModel.

(** ** Tables that encode a map *)

Section encodes.
Context {X K R V : Type} `{Countable X} `{!EqDecision K}.

(** The rows of [t] are those of [m], its keys and values written [kx] and
    [rv]. *)
Definition encodes (kx : K → X) (rv : V → R) (t : gmap X R) (m : K → option V) : Prop :=
  ∀ x r, t !! x = Some r ↔ ∃ k v, m k = Some v ∧ x = kx k ∧ r = rv v.

Context (kx : K → X) `{!Inj (=) (=) kx} (rv : V → R).

Lemma encodes_at t m k : encodes kx rv t m → t !! kx k = rv <$> m k.
Proof.
  intros He. destruct (m k) as [v|] eqn:Em; cbn.
  - apply He. eauto.
  - apply eq_None_not_Some. intros [r Hr]. apply He in Hr as (k' & v & Hm & Hk%(inj kx) & _). congruence.
Qed.

Lemma encodes_ext t m m' : (∀ k, m k = m' k) → encodes kx rv t m → encodes kx rv t m'.
Proof. intros Hm He x r. rewrite (He x r). by setoid_rewrite Hm. Qed.

Lemma encodes_insert t m m' k v :
  (∀ k', m' k' = if decide (k' = k) then Some v else m k') → encodes kx rv t m → encodes kx rv (<[kx k := rv v]> t) m'.
Proof using Inj0.
  intros Hm He x r. destruct (decide (x = kx k)) as [->|Hne].
  - rewrite lookup_insert_eq. split.
    + intros [= <-]. exists k, v. by rewrite Hm, decide_True.
    + intros (k' & v' & Hk & Heq%(inj kx) & ->). subst k'. rewrite Hm, decide_True in Hk by done. by simplify_eq.
  - rewrite lookup_insert_ne by done. rewrite (He x r). split; intros (k' & v' & Hk & -> & ->); exists k', v'.
    + rewrite Hm, decide_False by congruence. done.
    + rewrite Hm in Hk. case_decide as Hd; [congruence|done].
Qed.

Lemma encodes_list t m : encodes kx rv t m →
  ∃ l : list (K * V), map_to_list t = (λ e, (kx e.1, rv e.2)) <$> l ∧ NoDup l.*1 ∧ ∀ e, e ∈ l ↔ m e.1 = Some e.2.
Proof using Inj0.
  intros He.
  assert (∃ l : list (K * V), map_to_list t = (λ e, (kx e.1, rv e.2)) <$> l ∧ ∀ e, e ∈ l → m e.1 = Some e.2) as (l & Hl & Hm).
  { assert (∀ x, x ∈ map_to_list t → t !! x.1 = Some x.2) as Hin by (intros [x r]; apply elem_of_map_to_list).
    induction (map_to_list t) as [|[x r] l IH]; [exists []; split; [done|by intros ? ?%elem_of_nil]|].
    destruct IH as (l' & -> & Hl'). { intros y Hy. apply Hin. by right. }
    destruct (proj1 (He x r)) as (k & v & Hk & -> & ->); [apply (Hin (x, r)); by left|].
    exists ((k, v) :: l'). split; [done|]. intros e [->|Hin']%elem_of_cons; [done|by apply Hl']. }
  exists l. split; [done|]. split.
  - pose proof (NoDup_fst_map_to_list t) as Hn. rewrite Hl in Hn.
    apply (NoDup_fmap_1 kx). assert (((λ e : K * V, (kx e.1, rv e.2)) <$> l).*1 = kx <$> l.*1) as <-; [|done].
    by rewrite <-!list_fmap_compose.
  - intros e. split; [apply Hm|]. intros Hk.
    assert ((kx e.1, rv e.2) ∈ map_to_list t) as Hin by (apply elem_of_map_to_list, He; eauto).
    rewrite Hl in Hin. apply list_elem_of_fmap in Hin as (e' & [= Hk' _] & Hin). apply (inj kx) in Hk'.
    specialize (Hm e' Hin). destruct e, e'; cbn in *. congruence.
Qed.
End encodes.

(** *** Rows that belong to a key *)

Section owned.
Context {I K K' R V : Type} `{Countable K'} `{!EqDecision I} `{!EqDecision K}.
Context (ki : I → string) `{!Inj (=) (=) ki} (kx : K → K') `{!Inj (=) (=) kx} (rv : V → R).

Definition pair_key (k : I * K) : string * K' := (ki k.1, kx k.2).
#[export] Instance pair_key_inj : Inj (=) (=) pair_key.
Proof using Inj0 Inj1. intros [i k] [j k'] [= ->%(inj ki) ->%(inj kx)]. done. Qed.

Lemma insert_rows_ok key (rows : list (result SqlError (K' * R))) t t' : insert_rows key rows t = Ok t' →
  ∃ l, rows = Ok <$> l ∧ NoDup l.*1 ∧ (∀ k', k' ∈ l.*1 → t !! (key, k') = None) ∧
    ∀ x r, t' !! x = Some r ↔ t !! x = Some r ∨ x.1 = key ∧ (x.2, r) ∈ l.
Proof.
  revert t. induction rows as [|[[k1 r1]|e] rows IH]; intros t; cbn [insert_rows]; [| |done].
  - intros [= <-]. exists []. split_and!; [done|constructor|by intros ? ?%elem_of_nil|].
    intros x r. split; [by left|]. by intros [?|[_ ?%elem_of_nil]].
  - case_bool_decide as Hnew; [done|]. intros (l & -> & Hn & Hnone & Hl)%IH. apply eq_None_not_Some in Hnew.
    assert (k1 ∉ l.*1) as Hk1 by (intros Hin%Hnone; by rewrite lookup_insert_eq in Hin).
    exists ((k1, r1) :: l). cbn. split_and!; [done|by constructor| |].
    + intros k' [->|Hin]%elem_of_cons; [done|]. apply Hnone in Hin. by apply lookup_insert_None in Hin as [? _].
    + intros [k k'] r. rewrite Hl. cbn. rewrite elem_of_cons. destruct (decide ((k, k') = (key, k1))) as [[= -> ->]|Hne].
      * rewrite lookup_insert_eq. split.
        -- intros [[= ->]|[_ Hin]]; [right; by split; [|left]|right; by split; [|right]].
        -- intros [Hr|[_ [[= ->]|Hin]]]; [congruence|by left|by right].
      * rewrite lookup_insert_ne by congruence. split; [intros [?|[-> ?]]; [by left|right; by split; [|right]]|].
        intros [?|[-> [[= ? ?]|?]]]; [by left|congruence|by right].
Qed.

(** What [replace] leaves is the key's new rows and the other keys' old. *)
Lemma replace_encodes i (rows : list (result SqlError (K' * R))) t t' m m' (new : K → option V) :
  replace (ki i) rows t = Ok t' → encodes pair_key rv t m →
  (∀ l, rows = Ok <$> l → ∀ k' r, (k', r) ∈ l ↔ ∃ k v, new k = Some v ∧ k' = kx k ∧ r = rv v) →
  (∀ j k, m' (j, k) = if decide (j = i) then new k else m (j, k)) →
  encodes pair_key rv t' m'.
Proof using Inj0 Inj1.
  intros Ht He Hrows Hm'. apply insert_rows_ok in Ht as (l & Hl & Hn & _ & Hget). specialize (Hrows l Hl).
  intros [k k'] r. rewrite Hget. cbn. unfold delete_of. rewrite map_lookup_filter_Some, Hrows, (He (k, k') r). cbn. split.
  - intros [[([j k0] & v & Hk & [= -> ->] & ->) Hne]|(-> & k0 & v & Hk & -> & ->)].
    + exists (j, k0), v. rewrite Hm', decide_False by naive_solver. done.
    + exists (i, k0), v. by rewrite Hm', decide_True.
  - intros ([j k0] & v & Hk & [= -> ->] & ->). rewrite Hm' in Hk. case_decide as Hj.
    + subst j. right. split; [done|]. eauto.
    + left. split; [|by intros ?%(inj ki)]. exists (j, k0), v. done.
Qed.

Lemma select_encodes only t m : encodes pair_key rv t m →
  ∃ l : list (I * K * V), select_rows (ki <$> only) t = (λ e, (pair_key e.1, rv e.2)) <$> l ∧ NoDup l.*1 ∧
    ∀ e, e ∈ l ↔ m e.1 = Some e.2 ∧ (match only with Some i => e.1.1 = i | None => True end).
Proof using Inj0 Inj1.
  intros (l & Hl & Hn & Hin)%(encodes_list pair_key rv). unfold select_rows. destruct only as [i|]; cbn.
  - exists (filter (λ e, ki e.1.1 = ki i) l). rewrite Hl. split_and!.
    + clear. induction l as [|e l IH]; [done|]. rewrite fmap_cons, !filter_cons.
      change ((pair_key e.1, rv e.2).1.1) with (ki e.1.1). destruct (decide (ki e.1.1 = ki i)); [|done]. by rewrite fmap_cons, IH.
    + eapply sublist_NoDup; [exact Hn|]. apply fmap_sublist, sublist_filter.
    + intros e. rewrite list_elem_of_filter, Hin. split; [intros [?%(inj ki) ?]|intros [? ->]]; done.
  - exists l. split_and!; [done|done|]. intros e. rewrite Hin. naive_solver.
Qed.
End owned.

(** *** Reading rows *)

Lemma each_row_all {A B C} (f : B → A → result SqlError B) (enc : C → A) (g : B → C → B) l acc :
  (∀ acc c, c ∈ l → f acc (enc c) = Ok (g acc c)) → each_row f acc (enc <$> l) = Ok (foldl g acc l).
Proof.
  revert acc. induction l as [|c l IH]; intros acc Hf; cbn; [done|]. rewrite Hf by left. cbn. apply IH.
  intros acc' c' Hc. apply Hf. by right.
Qed.

Lemma each_row_list {A B C} (f : A → result SqlError B) (enc : C → A) (g : C → B) l :
  (∀ c, c ∈ l → f (enc c) = Ok (g c)) →
  each_row (λ acc x, b ←? f x ;; Ok (acc ++ [b])) [] (enc <$> l) = Ok (g <$> l).
Proof.
  intros Hf. rewrite (each_row_all _ _ (λ acc c, acc ++ [g c])).
  - f_equal. assert (∀ acc, foldl (λ acc c, acc ++ [g c]) acc l = acc ++ (g <$> l)) as ->; [|done]. clear Hf.
    induction l as [|c l IH]; intros acc; [by rewrite app_nil_r|]. cbn [foldl]. by rewrite IH, <-app_assoc.
  - intros acc c Hc. by rewrite Hf.
Qed.

Section grouping.
Context {A B C : Type} `{Countable A} `{Countable B}.

Lemma put_under_at a b (c : C) (g : gmap A (gmap B C)) i j :
  default ∅ (put_under a b c g !! i) !! j = if decide (i = a ∧ j = b) then Some c else default ∅ (g !! i) !! j.
Proof.
  unfold put_under. destruct (decide (i = a)) as [->|Hi].
  - rewrite lookup_insert_eq. cbn. destruct (decide (j = b)) as [->|Hj].
    + by rewrite lookup_insert_eq, decide_True.
    + rewrite lookup_insert_ne by done. by rewrite decide_False by naive_solver.
  - rewrite lookup_insert_ne by done. by rewrite decide_False by naive_solver.
Qed.

(** Rows grouped by their first key are the map they are of. *)
Lemma grouped_rows (l : list (A * B * C)) (m : A * B → option C) (only : option A) i :
  NoDup l.*1 → (∀ e, e ∈ l ↔ m e.1 = Some e.2 ∧ (match only with Some a => e.1.1 = a | None => True end)) →
  (match only with Some a => i = a | None => True end) →
  ∀ j, default ∅ (foldl (λ g e, put_under e.1.1 e.1.2 e.2 g) ∅ l !! i) !! j = m (i, j).
Proof.
  intros Hn Hin Hi j.
  assert (∀ (g : gmap A (gmap B C)) c, default ∅ (foldl (λ g e, put_under e.1.1 e.1.2 e.2 g) g l !! i) !! j = Some c ↔
    ((i, j), c) ∈ l ∨ (i, j) ∉ l.*1 ∧ default ∅ (g !! i) !! j = Some c) as Hall.
  { clear Hin. induction l as [|[[a b] c0] l IH]; intros g c; cbn [foldl].
    - split; [right; split; [by apply not_elem_of_nil|done]|]. by intros [?%elem_of_nil|[_ ?]].
    - cbn in Hn. apply NoDup_cons in Hn as [Hnew Hn]. rewrite (IH Hn), put_under_at. cbn. rewrite !elem_of_cons.
      assert (((i, j), c) ∈ l → (i, j) ∈ l.*1) as Hl by (intros ?; apply list_elem_of_fmap; by exists ((i, j), c)).
      destruct (decide (i = a ∧ j = b)) as [[-> ->]|Hne].
      + split; [intros [?|[_ [= ->]]]; [by left; right|by left; left]|].
        intros [[[= ->]|?]|[Hno _]]; [right; by split|by left|]. destruct Hno. by left.
      + split; [intros [?|[? ?]]; [by left; right|right; split; [|done]]|intros [[[= ? ? ?]|?]|[Hno ?]]].
        * intros [[= ? ?]|?]; naive_solver.
        * naive_solver.
        * by left.
        * right. split; [|done]. intros ?. apply Hno. by right. }
  apply option_eq. intros c. rewrite Hall, Hin, lookup_empty. cbn. rewrite lookup_empty. split.
  - intros [[? _]|[_ ?]]; done.
  - intros ?. left. split; [done|]. by destruct only.
Qed.
End grouping.

(** ** The maps *)

Definition file_row_of (f : FileRecord) : FileRow :=
  MkFileRow (role_word (role f)) (format f) (file_size f) (filename f) (seq_no f) (disc f) (file_title f) (duration f).
Definition bookmark_row_of (b : Bookmark * N) : BookmarkRow := MkBookmarkRow (position b.1) (note b.1) (created_at b.1) b.2.

#[export] Instance BookmarkId_countable : Countable BookmarkId.
Proof.
  refine (inj_countable bookmark_num (λ n, match decide (bool_decide (n < 2 ^ 128)%N) with left p => Some (MkBookmarkId n p) | _ => None end) _).
  intros [n p]. cbn. destruct (decide _) as [q|]; [|done]. do 2 f_equal. apply proof_irrel.
Defined.

(** What the read model holds, as maps. *)
Record View : Type := MkView {
  v_items : gmap ItemId StoredItem;
  v_bookmarks : gmap ItemId (gmap (MemberId * BookmarkId) (Bookmark * N));
  v_wishes : gmap WishId StoredWish;
  v_members : gmap MemberId MemberRow;
}.

Definition files_at (v : View) (k : ItemId * ContentHash) : option FileRecord :=
  s ← v_items v !! k.1; files (stored_item s) !! k.2.
Definition authors_at (v : View) (k : ItemId * (ContentHash * MemberId)) : option unit :=
  s ← v_items v !! k.1;
  if decide (k.2.2 ∈ default ∅ (stored_file_authors s !! k.2.1)) then Some tt else None.
Definition ratings_at (v : View) (k : ItemId * MemberId) : option Rating := s ← v_items v !! k.1; stored_ratings s !! k.2.
Definition reviews_at (v : View) (k : ItemId * MemberId) : option Review := s ← v_items v !! k.1; stored_reviews s !! k.2.
Definition bookmarks_at (v : View) (k : ItemId * (MemberId * BookmarkId)) : option (Bookmark * N) :=
  b ← v_bookmarks v !! k.1; b !! k.2.
Definition entries_at (v : View) (k : WishId * MemberId) : option Wish := s ← v_wishes v !! k.1; stored_entries s !! k.2.
Definition comments_at (v : View) (k : WishId * MemberId) : option Comment := s ← v_wishes v !! k.1; stored_comments s !! k.2.

Section view.
Context `{IdTextLaws ItemId 64} `{IdTextLaws ContentHash 64} `{IdTextLaws MemberId 64}.
Context `{IdTextLaws BookmarkId 32} `{IdTextLaws WishId 64} `{CommunityJsonLaws}.

#[export] Instance show_inj {A} `{IdTextLaws A n} : Inj (=) (=) (show_id (A := A)).
Proof. intros a b. apply show_id_inj. Qed.

Definition item_row_of (s : StoredItem) : ItemRow :=
  let i := stored_item s in
  MkItemRow (kind_word <$> kind i) (title i) (to_json <$> authors i) (to_json <$> genres i)
    (series_name <$> series i) (s ← series i; x ← series_index s; real x) (year i) (lang i) (description i) (stored_modified s).

(** What the constructors of these values see to. *)
Definition storable (s : StoredItem) : Prop :=
  (match series (stored_item s) with Some se => series_index se ≠ Some S754_nan | None => True end) ∧
  map_Forall (λ _ authors, authors ≠ ∅) (stored_file_authors s) ∧
  map_Forall (λ _ r, rating_ok r) (stored_ratings s) ∧ map_Forall (λ _ r, review_ok r) (stored_reviews s).
Definition wish_storable (s : StoredWish) : Prop :=
  map_Forall (λ _ w, decode_wish (encode_wish w) = Some w) (stored_entries s) ∧
  map_Forall (λ _ c, comment_ok c) (stored_comments s).

Definition two_ids {A B} `{IdText A, IdText B} (k : A * B) : string * string := (show_id k.1, show_id k.2).
#[export] Instance two_ids_inj {A B} `{IdTextLaws A n} `{IdTextLaws B k} : Inj (=) (=) (two_ids (A := A) (B := B)).
Proof. intros [a b] [c d] [= ->%(inj show_id) ->%(inj show_id)]. done. Qed.

(** The tables that hold [v]. *)
Record represents (v : View) (t : Tables) : Prop := {
  items_encode : encodes show_id item_row_of (items_table t) (λ i, v_items v !! i);
  files_encode : encodes (pair_key show_id show_id) file_row_of (files_table t) (files_at v);
  authors_encode : encodes (pair_key show_id two_ids) id (authors_table t) (authors_at v);
  ratings_encode : encodes (pair_key show_id show_id) rating_get (ratings_table t) (ratings_at v);
  reviews_encode : encodes (pair_key show_id show_id) review_text (reviews_table t) (reviews_at v);
  bookmarks_encode : encodes (pair_key show_id two_ids) bookmark_row_of (bookmarks_table t) (bookmarks_at v);
  entries_encode : encodes (pair_key show_id show_id) encode_wish (wish_entries_table t) (entries_at v);
  comments_encode : encodes (pair_key show_id show_id) comment_text (wish_comments_table t) (comments_at v);
  members_encode : encodes show_id id (members_table t) (λ m, v_members v !! m);
  items_named : map_Forall (λ i s, item_id (stored_item s) = i ∧ storable s) (v_items v);
  bookmarks_checked : map_Forall (λ _ b, map_Forall (λ _ x, bookmark_ok x.1) b) (v_bookmarks v);
  wishes_checked : map_Forall (λ _ s, wish_storable s) (v_wishes v);
}.

(** *** What is read back *)

Definition bare (s : StoredItem) : StoredItem := MkStoredItem (with_files ∅ (stored_item s)) ∅ ∅ ∅ (stored_modified s).

Lemma identifier_show {A} `{IdTextLaws A n} column (a : A) : identifier column (show_id a) = Ok a.
Proof. unfold identifier. by rewrite read_show. Qed.


Lemma row_to_item_reads s : storable s → row_to_item (show_id (item_id (stored_item s))) (item_row_of s) = Ok (bare s).
Proof.
  intros (Hs & _). destruct s as [[i k t a g se y l d fs] rs vs au n]. unfold row_to_item, bare, with_files, item_row_of.
  cbn [stored_item series item_id kind title authors genres year lang description stored_modified
    row_kind row_authors row_genres row_series row_series_index row_title row_year row_lang row_description row_modified] in *.
  rewrite identifier_show. cbn [result_bind].
  assert (∀ o : option (list string), opt_read (λ j, unreadable "authors" (from_json j)) (to_json <$> o) = Ok o ∧
    opt_read (λ j, unreadable "genres" (from_json j)) (to_json <$> o) = Ok o) as Hj.
  { intros [x|]; [|done]. cbn. by rewrite (from_to_json (holds := λ _, True)). }
  assert (opt_read (λ w, unreadable "kind" (kind_from_word w)) (kind_word <$> k) = Ok k) as -> by by destruct k as [[]|].
  rewrite (proj1 (Hj a)), (proj2 (Hj g)). cbn. destruct se as [[name [x|]]|]; [|done|done]. by destruct x.
Qed.

Lemma read_file_reads f : read_file (file_row_of f) = Ok f.
Proof. by destruct f as [[] ? ? ? ? ? ? ?]. Qed.

(** Which items a read is of. *)
Definition among (only : option ItemId) (i : ItemId) : Prop := match only with Some a => i = a | None => True end.

Lemma files_of_reads only v t : represents v t → ∃ g, files_of only t = Ok g ∧
  ∀ i, among only i → default ∅ (g !! i) = default ∅ ((λ s, files (stored_item s)) <$> v_items v !! i).
Proof.
  intros Hr. destruct (select_encodes show_id show_id file_row_of only _ _ (files_encode v t Hr)) as (l & Hl & Hn & Hin).
  unfold files_of. rewrite Hl. eexists. split.
  - apply each_row_all with (g := λ g e, put_under e.1.1 e.1.2 e.2 g). intros acc [[i h] f] _. cbn.
    by rewrite read_file_reads, !identifier_show.
  - intros i Hi. apply map_eq. intros h. rewrite (grouped_rows l (files_at v) only i Hn Hin Hi). unfold files_at. cbn.
    by destruct (v_items v !! i).
Qed.

Lemma values_reads {R V} (value : R → result SqlError V) (enc : V → R) (ok : V → Prop) (values : StoredItem → gmap MemberId V) only v t :
  (∀ x, ok x → value (enc x) = Ok x) →
  encodes (pair_key show_id show_id) enc t (λ k, s ← v_items v !! k.1; values s !! k.2) →
  map_Forall (λ _ s, map_Forall (λ _ x, ok x) (values s)) (v_items v) →
  ∃ g, member_values_by_item value only t = Ok g ∧
    ∀ i, among only i → default ∅ (g !! i) = default ∅ (values <$> v_items v !! i).
Proof.
  intros Hv He Hok. destruct (select_encodes show_id show_id enc only _ _ He) as (l & Hl & Hn & Hin).
  unfold member_values_by_item. rewrite Hl. eexists. split.
  - apply each_row_all with (g := λ g e, put_under e.1.1 e.1.2 e.2 g). intros acc [[i m] x] Hx. cbn.
    rewrite !identifier_show. cbn. rewrite Hv; [done|]. apply Hin in Hx as [Hx _]. cbn in Hx.
    apply bind_Some in Hx as (s & Hs & Hx). by apply (Hok i s Hs m x).
  - intros i Hi. apply map_eq. intros m.
    rewrite (grouped_rows l (λ k, s ← v_items v !! k.1; values s !! k.2) only i Hn Hin Hi). cbn. by destruct (v_items v !! i).
Qed.

Lemma grouped_authors (l : list (ItemId * (ContentHash * MemberId) * unit)) (g : gmap ItemId (gmap ContentHash (gset MemberId))) i h m :
  let add g e := put_under e.1.1 e.1.2.1 ({[e.1.2.2]} ∪ default ∅ (default ∅ (g !! e.1.1) !! e.1.2.1)) g in
  m ∈ default ∅ (default ∅ (foldl add g l !! i) !! h) ↔ ((i, (h, m)), tt) ∈ l ∨ m ∈ default ∅ (default ∅ (g !! i) !! h).
Proof.
  intros add. revert g. induction l as [|[[i0 [h0 m0]] []] l IH]; intros g; cbn [foldl].
  - split; [by right|]. by intros [?%elem_of_nil|?].
  - rewrite IH, elem_of_cons. unfold add at 1. rewrite put_under_at. cbn [fst snd]. case_decide as Hd.
    + destruct Hd as [-> ->]. cbn. rewrite elem_of_union, elem_of_singleton. naive_solver.
    + naive_solver.
Qed.

Lemma grouped_authors_some (l : list (ItemId * (ContentHash * MemberId) * unit)) (g : gmap ItemId (gmap ContentHash (gset MemberId))) i :
  let add g e := put_under e.1.1 e.1.2.1 ({[e.1.2.2]} ∪ default ∅ (default ∅ (g !! e.1.1) !! e.1.2.1)) g in
  map_Forall (λ _ s, s ≠ ∅) (default ∅ (g !! i)) → map_Forall (λ _ s, s ≠ ∅) (default ∅ (foldl add g l !! i)).
Proof.
  intros add. revert g. induction l as [|[[i0 [h0 m0]] []] l IH]; intros g Hg; cbn [foldl]; [done|]. apply IH.
  intros h s. unfold add. rewrite put_under_at. cbn [fst snd]. case_decide; [intros [= <-]; set_solver|apply Hg].
Qed.

Lemma file_authors_reads only v t : represents v t → ∃ g, file_authors_of only t = Ok g ∧
  ∀ i, among only i → default ∅ (g !! i) = default ∅ (stored_file_authors <$> v_items v !! i).
Proof.
  intros Hr. destruct (select_encodes show_id two_ids id only _ _ (authors_encode v t Hr)) as (l & Hl & _ & Hin).
  unfold file_authors_of. rewrite Hl. eexists. split.
  - apply each_row_all with (g := λ g e, put_under e.1.1 e.1.2.1 ({[e.1.2.2]} ∪ default ∅ (default ∅ (g !! e.1.1) !! e.1.2.1)) g).
    intros acc [[i [h m]] []] _. cbn. by rewrite !identifier_show.
  - intros i Hi. pose proof (grouped_authors_some l ∅ i) as Hne. pose proof (grouped_authors l ∅ i) as Hm. cbn zeta in Hne, Hm.
    set (g := foldl _ ∅ l) in *.
    assert (∀ h m, m ∈ default ∅ (default ∅ (g !! i) !! h) ↔ authors_at v (i, (h, m)) = Some tt) as Hall.
    { intros h m. rewrite Hm, Hin, lookup_empty. cbn. rewrite lookup_empty. cbn. split; [intros [[? _]|?%elem_of_empty]; done|].
      intros ?. left. split; [done|]. by destruct only. }
    assert (map_Forall (λ _ s, s ≠ ∅) (default ∅ (stored_file_authors <$> v_items v !! i))) as Hne'.
    { destruct (v_items v !! i) as [s|] eqn:Es; [|apply map_Forall_empty]. cbn.
      destruct (items_named v t Hr i s Es) as [_ (_ & Hs & _)]. exact Hs. }
    assert (map_Forall (λ _ s, s ≠ ∅) (default ∅ (g !! i))) as Hne1 by (apply Hne; rewrite lookup_empty; apply map_Forall_empty).
    clear Hne Hm. apply map_eq. intros h.
    assert (∀ m, m ∈ default ∅ (default ∅ (g !! i) !! h) ↔ m ∈ default ∅ (default ∅ (stored_file_authors <$> v_items v !! i) !! h)) as Hset.
    { intros m. rewrite Hall. unfold authors_at. cbn. destruct (v_items v !! i) as [s|]; cbn.
      - case_decide; naive_solver.
      - rewrite lookup_empty. cbn. by rewrite elem_of_empty. }
    destruct (default ∅ (g !! i) !! h) as [a|] eqn:Ea, (default ∅ (stored_file_authors <$> v_items v !! i) !! h) as [b|] eqn:Eb; cbn in Hset; [|..|done].
    + f_equal. by apply set_eq.
    + destruct (Hne1 h a Ea). by apply set_eq.
    + destruct (Hne' h b Eb). apply set_eq. intros m. by rewrite <-Hset.
Qed.

Lemma rating_reads r : rating_ok r → from_core "rating" (rating_try_from (rating_get r)) = Ok r.
Proof. destruct r as [n]. unfold rating_ok, rating_try_from. cbn. intros [? ?]. by rewrite !bool_decide_true. Qed.
Lemma review_reads r : review_ok r → from_core "review" (review_try_from (review_text r)) = Ok r.
Proof. destruct r as [s]. unfold review_ok, review_try_from, capped. cbn. intros ?. rewrite bool_decide_false by lia. done. Qed.
Lemma comment_reads c : comment_ok c → read_comment (comment_text c) = Ok c.
Proof. destruct c as [s]. unfold comment_ok, read_comment, comment_try_from, capped. cbn. intros ?. rewrite bool_decide_false by lia. done. Qed.

Lemma details_read only v t : represents v t → ∃ d, read_details only t = Ok d ∧
  ∀ i s, among only i → v_items v !! i = Some s → attach d (bare s) = s.
Proof.
  intros Hr. destruct (files_of_reads only v t Hr) as (gf & Hf & Gf). destruct (file_authors_reads only v t Hr) as (ga & Ha & Ga).
  assert (map_Forall (λ _ s, map_Forall (λ _ x, rating_ok x) (stored_ratings s)) (v_items v) ∧
    map_Forall (λ _ s, map_Forall (λ _ x, review_ok x) (stored_reviews s)) (v_items v)) as [Ho1 Ho2].
  { split; intros i s Hs; by destruct (items_named v t Hr i s Hs) as [_ (_ & _ & ? & ?)]. }
  destruct (values_reads (λ n, from_core "rating" (rating_try_from n)) rating_get rating_ok stored_ratings only v _ rating_reads (ratings_encode v t Hr) Ho1) as (gr & Hrr & Gr).
  destruct (values_reads (λ n, from_core "review" (review_try_from n)) review_text review_ok stored_reviews only v _ review_reads (reviews_encode v t Hr) Ho2) as (gv & Hv & Gv).
  unfold read_details. rewrite Hf, Ha, Hrr, Hv. eexists. split; [done|]. intros i s Hi Hs.
  destruct (items_named v t Hr i s Hs) as [Hid _]. unfold attach. cbn. rewrite Hid, Gf, Ga, Gr, Gv, Hs by done. cbn.
  by destruct s as [[] ? ? ? ?].
Qed.

Lemma item_reads i v t : represents v t → item i t = Ok (v_items v !! i).
Proof.
  intros Hr. destruct (details_read (Some i) v t Hr) as (d & Hd & Ha). unfold item. rewrite Hd. cbn. unfold item_fields.
  rewrite (encodes_at show_id item_row_of _ _ i (items_encode v t Hr)). destruct (v_items v !! i) as [s|] eqn:Es; [|done]. cbn.
  destruct (items_named v t Hr i s Es) as [Hid Hst]. rewrite <-Hid, row_to_item_reads by done. cbn. by rewrite (Ha i s).
Qed.

(** *** Listings *)

Lemma encodes_perm {X K R V} `{Countable X, Countable K} (kx : K → X) `{!Inj (=) (=) kx} (rv : V → R) (t : gmap X R) (m : gmap K V) :
  encodes kx rv t (λ k, m !! k) → ∃ l, map_to_list t = (λ e, (kx e.1, rv e.2)) <$> l ∧ l ≡ₚ map_to_list m.
Proof.
  intros (l & Hl & Hn & Hin)%(encodes_list kx rv). exists l. split; [done|]. apply NoDup_Permutation.
  - by apply (NoDup_fmap_1 fst).
  - apply NoDup_map_to_list.
  - intros [k v]. by rewrite Hin, elem_of_map_to_list.
Qed.

Lemma sorted_perm {A B} (R : A → A → Prop) `{!RelDecision R} (f : B → A) l : ∃ l', merge_sort R (f <$> l) = f <$> l' ∧ l' ≡ₚ l.
Proof.
  pose proof (merge_sort_Permutation R (f <$> l)) as Hp. apply Permutation_map_inv in Hp as (l' & -> & Hp). by exists l'.
Qed.

Lemma items_read v t : represents v t → ∃ l, items t = Ok l ∧ l ≡ₚ (map_to_list (v_items v)).*2.
Proof.
  intros Hr. destruct (details_read None v t Hr) as (d & Hd & Ha). unfold items. rewrite Hd. cbn [result_bind].
  destruct (encodes_perm show_id item_row_of _ _ (items_encode v t Hr)) as (l & Hl & Hp). unfold text_entries. rewrite Hl.
  destruct (sorted_perm by_text (λ e : ItemId * StoredItem, (show_id e.1, item_row_of e.2)) l) as (l' & -> & Hp'). exists l'.*2.
  split; [|by rewrite Hp', Hp].
  assert (∀ e, e ∈ l' → v_items v !! e.1 = Some e.2) as Hin.
  { intros [i s] Hin. rewrite Hp', Hp in Hin. by apply elem_of_map_to_list in Hin. }
  rewrite (each_row_all _ _ (λ acc e, acc ++ [e.2])).
  - f_equal. assert (∀ acc, foldl (λ acc e, acc ++ [e.2]) acc l' = acc ++ l'.*2) as ->; [|done]. clear.
    induction l' as [|e l IH]; intros acc; [by rewrite app_nil_r|]. cbn [foldl]. by rewrite IH, <-app_assoc.
  - intros acc [i s] Hin'. cbn [fst snd]. specialize (Hin _ Hin'). cbn in Hin. destruct (items_named v t Hr i s Hin) as [Hid Hst].
    rewrite <-Hid, row_to_item_reads by done. cbn. by rewrite (Ha i s).
Qed.

Definition listed_bookmark (e : MemberId * BookmarkId * (Bookmark * N)) : StoredBookmark :=
  MkStoredBookmark e.1.1 e.1.2 e.2.1 e.2.2.

Lemma bookmark_reads i v t : represents v t → ∃ l, bookmarks_of i t = Ok l ∧
  l ≡ₚ listed_bookmark <$> map_to_list (default ∅ (v_bookmarks v !! i)).
Proof.
  intros Hr. destruct (select_encodes show_id two_ids bookmark_row_of (Some i) _ _ (bookmarks_encode v t Hr)) as (l & Hl & Hn & Hin).
  unfold bookmarks_of. change (Some (show_id i)) with (show_id <$> Some i). rewrite Hl.
  destruct (sorted_perm member_order (λ e : ItemId * (MemberId * BookmarkId) * (Bookmark * N), (pair_key show_id two_ids e.1, bookmark_row_of e.2)) l)
    as (l' & -> & Hp).
  exists ((λ e, listed_bookmark (e.1.2, e.2)) <$> l'). split.
  - apply (each_row_list (λ x, stored_bookmark x.1.2.1 x.1.2.2 x.2)). intros [[j [m b]] [bm n]] He. rewrite Hp in He.
    apply Hin in He as [He _]. cbn in He. apply bind_Some in He as (bs & Hbs & He).
    pose proof (bookmarks_checked v t Hr j bs Hbs (m, b) _ He) as Hok. cbn in Hok. unfold stored_bookmark. cbn.
    rewrite !identifier_show. cbn. destruct bm as [p no c]. cbn in Hok |- *.
    by rewrite (proj2 (new_bookmark_ok p no c (MkBookmark p no c))).
  - rewrite Hp. assert (l ≡ₚ (λ e, ((i, e.1), e.2)) <$> map_to_list (default ∅ (v_bookmarks v !! i))) as ->.
    { apply NoDup_Permutation.
      - by apply (NoDup_fmap_1 fst).
      - apply NoDup_fmap; [|apply NoDup_map_to_list]. by intros [? ?] [? ?] [= -> ->].
      - intros [[j k] x]. rewrite Hin, list_elem_of_fmap. unfold bookmarks_at. cbn. split.
        + intros [Hx ->]. exists (k, x). split; [done|]. apply elem_of_map_to_list. by destruct (v_bookmarks v !! i).
        + intros ([k' x'] & [= -> -> ->] & Hx%elem_of_map_to_list). split; [|done]. destruct (v_bookmarks v !! i); [done|cbn in Hx; by rewrite lookup_empty in Hx]. }
    rewrite <-list_fmap_compose. done.
Qed.

Lemma foldl_insert {I V} (l : list (I * MemberId * V)) (acc : gmap MemberId V) m x : NoDup (e ← l; [e.1.2]) →
  foldl (λ acc e, <[e.1.2 := e.2]> acc) acc l !! m = Some x ↔
    (∃ i, (i, m, x) ∈ l) ∨ m ∉ (e ← l; [e.1.2]) ∧ acc !! m = Some x.
Proof.
  revert acc. induction l as [|[[i m0] y] l IH]; intros acc Hn; cbn [foldl].
  - cbn. split; [right; split; [apply not_elem_of_nil|done]|]. by intros [[? ?%elem_of_nil]|[_ ?]].
  - cbn in Hn |- *. apply NoDup_cons in Hn as [Hnew Hn]. rewrite IH by done. cbn in *. rewrite lookup_insert_Some.
    assert (∀ i x, (i, m, x) ∈ l → m ∈ (e ← l; [e.1.2])) as Hl.
    { intros j z Hz. apply list_elem_of_bind. exists (j, m, z). split; [by apply list_elem_of_singleton|done]. }
    setoid_rewrite elem_of_cons. split.
    + intros [[j Hj]|[Hno [[-> ->]|[Hne Hx]]]]; [left; exists j; by right|left; exists i; by left|right].
      split; [|done]. intros [->|?]; done.
    + intros [[j [[= -> -> ->]|Hj]]|[Hno Hx]].
      * right. split; [done|]. by left.
      * left. by exists j.
      * right. split; [naive_solver|]. right. split; [naive_solver|done].
Qed.

Lemma members_of_wish {R V} (value : R → result SqlError V) (enc : V → R) (values : StoredWish → gmap MemberId V) (ok : V → Prop) wi v t :
  (∀ x, ok x → value (enc x) = Ok x) →
  encodes (pair_key show_id show_id) enc t (λ k, s ← v_wishes v !! k.1; values s !! k.2) →
  map_Forall (λ _ s, map_Forall (λ _ x, ok x) (values s)) (v_wishes v) →
  read_members value (select_rows (Some (show_id wi)) t) = Ok (default ∅ (values <$> v_wishes v !! wi)).
Proof.
  intros Hv He Hok. destruct (select_encodes show_id show_id enc (Some wi) _ _ He) as (l & Hl & Hn & Hin).
  unfold read_members. change (Some (show_id wi)) with (show_id <$> Some wi). rewrite Hl.
  rewrite (each_row_all _ _ (λ acc e, <[e.1.2 := e.2]> acc)).
  - f_equal. apply map_eq. intros m. apply option_eq. intros x. rewrite foldl_insert.
    + rewrite lookup_empty. split.
      * intros [[j Hj]|[_ ?]]; [|done]. apply Hin in Hj as [Hx Hj]. cbn in *. subst j. by destruct (v_wishes v !! wi).
      * intros Hx. left. exists wi. apply Hin. split; [|done]. cbn. destruct (v_wishes v !! wi); [done|cbn in Hx; by rewrite lookup_empty in Hx].
    + assert ((e ← l; [e.1.2]) = l.*1.*2) as ->. { clear. induction l as [|e l IH]; [done|]. cbn. by f_equal. }
      apply (NoDup_fmap_1 (pair wi)). assert (pair wi <$> l.*1.*2 = l.*1) as ->; [|done].
      rewrite <-!list_fmap_compose. apply list_fmap_ext. intros k e He'%list_elem_of_lookup_2. apply Hin in He' as [_ <-].
      by destruct e as [[]].
  - intros acc [[j m] x] Hx. apply Hin in Hx as [Hx _]. cbn in *. rewrite identifier_show. cbn. rewrite Hv; [done|].
    apply bind_Some in Hx as (s & Hs & Hx). by apply (Hok j s Hs m).
Qed.

Lemma wish_reads wi v t : represents v t → wish wi t = Ok (default default_wish (v_wishes v !! wi)).
Proof.
  intros Hr. unfold wish.
  rewrite (members_of_wish read_entry_json encode_wish stored_entries (λ w, decode_wish (encode_wish w) = Some w) wi v).
  - cbn [result_bind]. rewrite (members_of_wish read_comment comment_text stored_comments comment_ok wi v).
    + cbn. by destruct (v_wishes v !! wi) as [[]|].
    + apply comment_reads.
    + apply (comments_encode v t Hr).
    + intros j s Hs. apply (wishes_checked v t Hr j s Hs).
  - intros x Hx. unfold read_entry_json. by rewrite Hx.
  - apply (entries_encode v t Hr).
  - intros j s Hs. apply (wishes_checked v t Hr j s Hs).
Qed.

Lemma members_read v t : represents v t → ∃ l, members t = Ok l ∧
  l ≡ₚ (λ e, MkStoredMember e.1 (row_name e.2) (row_pledge e.2) (row_is_core e.2)) <$> map_to_list (v_members v).
Proof.
  intros Hr. destruct (encodes_perm show_id id _ _ (members_encode v t Hr)) as (l & Hl & Hp). unfold members, text_entries. rewrite Hl.
  destruct (sorted_perm by_text (λ e : MemberId * MemberRow, (show_id e.1, id e.2)) l) as (l' & -> & Hp'). eexists. split.
  - apply each_row_list with (g := λ e, MkStoredMember e.1 (row_name e.2) (row_pledge e.2) (row_is_core e.2)).
    intros [m r] _. unfold read_member. cbn. by rewrite identifier_show.
  - by rewrite Hp', Hp.
Qed.

(** *** What is written *)

Definition v_upsert (s : StoredItem) (v : View) : View :=
  MkView (<[item_id (stored_item s) := s]> (v_items v)) (v_bookmarks v) (v_wishes v) (v_members v).
Definition bookmark_map (l : list StoredBookmark) : gmap (MemberId * BookmarkId) (Bookmark * N) :=
  list_to_map ((λ b, ((bookmark_of b, bookmark_named b), (bookmarked b, bookmark_last_modified b))) <$> l).
Definition v_replace_bookmarks (i : ItemId) (l : list StoredBookmark) (v : View) : View :=
  MkView (v_items v) (<[i := bookmark_map l]> (v_bookmarks v)) (v_wishes v) (v_members v).
Definition v_replace_wish (w : WishId) (s : StoredWish) (v : View) : View :=
  MkView (v_items v) (v_bookmarks v) (<[w := s]> (v_wishes v)) (v_members v).
Definition v_set_members (l : list StoredMember) (v : View) : View :=
  MkView (v_items v) (v_bookmarks v) (v_wishes v)
    (list_to_map ((λ m, (stored_member m, MkMemberRow (stored_name m) (stored_pledge m) (stored_is_core m))) <$> l)).

Lemma rows_of_all {A B R} `{Countable A, OrdKey A} (f : A * B → result SqlError (string * R)) (kx : A → string) (rv : B → R) (m : gmap A B) l :
  (∀ a b x, f (a, b) = Ok x → x = (kx a, rv b)) → f <$> map_entries m = Ok <$> l →
  ∀ k r, (k, r) ∈ l ↔ ∃ a b, m !! a = Some b ∧ k = kx a ∧ r = rv b.
Proof.
  intros Hf Hl k r.
  assert ((k, r) ∈ l ↔ Ok (k, r) ∈ (Ok <$> l : list (result SqlError (string * R)))) as ->.
  { rewrite list_elem_of_fmap. split; [by eauto|]. by intros (x & [= <-] & ?). }
  rewrite <-Hl, list_elem_of_fmap. split.
  - intros ([a b] & Heq & Hin%elem_of_map_entries). symmetry in Heq. apply Hf in Heq as [= -> ->]. by exists a, b.
  - intros (a & b & Hab & -> & ->). exists (a, b). split; [|by apply elem_of_map_entries].
    assert (f (a, b) ∈ (Ok <$> l : list (result SqlError (string * R)))) as Hin.
    { rewrite <-Hl. apply list_elem_of_fmap. exists (a, b). split; [done|]. by apply elem_of_map_entries. }
    apply list_elem_of_fmap in Hin as (x & Hx & _). rewrite Hx. by apply Hf in Hx as ->.
Qed.

Lemma to_sql_ok n m : to_sql n = Ok m → m = n.
Proof. unfold to_sql. case_bool_decide; [by intros [= <-]|done]. Qed.
Lemma to_sql_opt_ok o p : to_sql_opt o = Ok p → p = o.
Proof. destruct o as [n|]; cbn; [|by intros [= <-]]. destruct (to_sql n) eqn:E; [|done]. cbn. intros [= <-]. by apply to_sql_ok in E as ->. Qed.
Lemma file_row_ok f r : file_row f = Ok r → r = file_row_of f.
Proof.
  unfold file_row, file_row_of. destruct (to_sql (file_size f)) eqn:Es; [|done]. destruct (to_sql_opt (duration f)) eqn:Ed; [|done].
  intros [= <-]. by apply to_sql_ok in Es as ->; apply to_sql_opt_ok in Ed as ->.
Qed.
Lemma item_row_ok s r : item_row s = Ok r → r = item_row_of s.
Proof.
  unfold item_row, item_row_of. destruct (to_sql (stored_modified s)) eqn:Es; [|done]. intros [= <-]. by apply to_sql_ok in Es as ->.
Qed.

Lemma author_rows_spec (authors : gmap ContentHash (gset MemberId)) l : author_rows authors = Ok <$> l →
  ∀ k r, (k, r) ∈ l ↔ ∃ x u, (if decide (x.2 ∈ default ∅ (authors !! x.1)) then Some tt else None) = Some u ∧ k = two_ids x ∧ r = id u.
Proof.
  intros Hl k [].
  assert ((k, tt) ∈ l ↔ Ok (k, tt) ∈ (Ok <$> l : list (result SqlError (string * string * unit)))) as ->.
  { rewrite list_elem_of_fmap. split; [by eauto|]. by intros (x & [= <-] & ?). }
  rewrite <-Hl. unfold author_rows. rewrite list_elem_of_bind. setoid_rewrite list_elem_of_fmap. split.
  - intros ([h ms] & (m & [= ->] & Hm) & Hin%elem_of_map_entries). exists (h, m), tt. cbn. rewrite Hin. cbn.
    apply elem_of_sort_keys, elem_of_elements in Hm. by rewrite decide_True.
  - intros ([h m] & [] & Hd & -> & _). cbn in Hd. case_decide as Hm; [|done]. destruct (authors !! h) as [ms|] eqn:Eh; [|done].
    exists (h, ms). split; [|by apply elem_of_map_entries]. exists m. split; [done|]. by apply elem_of_sort_keys, elem_of_elements.
Qed.

Lemma items_view_insert {C D} (f : StoredItem → D → option C) s v j (k : D) :
  (s' ← v_items (v_upsert s v) !! j; f s' k) = if decide (j = item_id (stored_item s)) then f s k else s' ← v_items v !! j; f s' k.
Proof. cbn. case_decide as Hd; [subst j; by rewrite lookup_insert_eq|by rewrite lookup_insert_ne]. Qed.

Lemma upsert_represents s v t t' u : represents v t → storable s → upsert_item s t = Ok (t', u) →
  represents (v_upsert s v) t' ∧ u = (if decide (is_Some (v_items v !! item_id (stored_item s))) then Updated else Created).
Proof.
  intros Hr Hs. unfold upsert_item. destruct (item_row s) as [row|] eqn:Ei; [|done]. apply item_row_ok in Ei as ->. cbn [result_bind].
  destruct (replace _ (file_rows _) _) as [fs|] eqn:Ef; [|done]. destruct (replace _ (author_rows _) _) as [au|] eqn:Ea; [|done].
  destruct (replace _ (member_rows rating_get _) _) as [rs|] eqn:Er; [|done].
  destruct (replace _ (member_rows review_text _) _) as [vs|] eqn:Ev; [|done]. intros [= <- <-].
  split; [|rewrite (encodes_at show_id item_row_of _ _ _ (items_encode v t Hr));
    destruct (v_items v !! _); cbn; by rewrite ?bool_decide_true, ?decide_True, ?bool_decide_false, ?decide_False by (done || by intros [? ?])].
  set (i := item_id (stored_item s)) in *. split; cbn -[v_upsert].
  - eapply encodes_insert; [apply _| |apply (items_encode v t Hr)]. intros j. cbn. case_decide as Hd; [subst j; by rewrite lookup_insert_eq|by rewrite lookup_insert_ne].
  - eapply replace_encodes with (new := λ h, files (stored_item s) !! h);
      [apply _|apply _|exact Ef|apply (files_encode v t Hr)| |intros j k; apply (items_view_insert (λ s h, files (stored_item s) !! h))].
    intros l Hl. eapply rows_of_all; [|exact Hl]. intros h f x. cbn. destruct (file_row f) eqn:E; [|done].
    intros [= <-]. by apply file_row_ok in E as ->.
  - eapply replace_encodes with (new := λ x, if decide (x.2 ∈ default ∅ (stored_file_authors s !! x.1)) then Some tt else None);
      [apply _|apply _|exact Ea|apply (authors_encode v t Hr)|apply author_rows_spec|
       intros j k; exact (items_view_insert
         (λ (s : StoredItem) (x : ContentHash * MemberId), if decide (x.2 ∈ default ∅ (stored_file_authors s !! x.1)) then Some tt else None) s v j k)].
  - eapply replace_encodes with (new := λ m, stored_ratings s !! m);
      [apply _|apply _|exact Er|apply (ratings_encode v t Hr)| |intros j k; apply (items_view_insert (λ s m, stored_ratings s !! m))].
    intros l Hl. eapply rows_of_all; [|exact Hl]. intros m x y. by intros [= <-].
  - eapply replace_encodes with (new := λ m, stored_reviews s !! m);
      [apply _|apply _|exact Ev|apply (reviews_encode v t Hr)| |intros j k; apply (items_view_insert (λ s m, stored_reviews s !! m))].
    intros l Hl. eapply rows_of_all; [|exact Hl]. intros m x y. by intros [= <-].
  - apply (bookmarks_encode v t Hr).
  - apply (entries_encode v t Hr).
  - apply (comments_encode v t Hr).
  - apply (members_encode v t Hr).
  - cbn. apply map_Forall_insert_2; [done|apply (items_named v t Hr)].
  - apply (bookmarks_checked v t Hr).
  - apply (wishes_checked v t Hr).
Qed.

Lemma bookmark_row_ok b x : bookmark_row b = Ok x →
  x = (two_ids (bookmark_of b, bookmark_named b), bookmark_row_of (bookmarked b, bookmark_last_modified b)).
Proof.
  unfold bookmark_row, bookmark_row_of, two_ids. destruct (to_sql (created_at _)) eqn:Ec; [|done].
  destruct (to_sql (bookmark_last_modified b)) eqn:Em; [|done]. intros [= <-]. by apply to_sql_ok in Ec as ->; apply to_sql_ok in Em as ->.
Qed.

Lemma bookmark_rows_spec bs l : bookmark_row <$> bs = Ok <$> l → NoDup l.*1 →
  ∀ k r, (k, r) ∈ l ↔ ∃ x b, bookmark_map bs !! x = Some b ∧ k = two_ids x ∧ r = bookmark_row_of b.
Proof.
  intros Hl Hn k r.
  assert (l = (λ e, (two_ids e.1, bookmark_row_of e.2)) <$>
    ((λ b, ((bookmark_of b, bookmark_named b), (bookmarked b, bookmark_last_modified b))) <$> bs)) as ->.
  { clear Hn. revert l Hl. induction bs as [|b bs IH]; intros [|x l]; try done. cbn. intros [= Hx Hl].
    apply bookmark_row_ok in Hx as ->. f_equal. by apply IH. }
  unfold bookmark_map. set (es := _ <$> bs) in *. rewrite list_elem_of_fmap.
  assert (NoDup es.*1) as Hes.
  { apply (NoDup_fmap_1 two_ids). assert (((λ e, (two_ids e.1, bookmark_row_of e.2)) <$> es).*1 = two_ids <$> es.*1) as <-; [|done].
    by rewrite <-!list_fmap_compose. }
  split.
  - intros ([x b] & [= -> ->] & Hin). exists x, b. split; [by apply elem_of_list_to_map_1|done].
  - intros (x & b & Hin%elem_of_list_to_map_2 & -> & ->). by exists (x, b).
Qed.

Lemma replace_bookmarks_represents i bs v t t' : represents v t → Forall (λ b, bookmark_ok (bookmarked b)) bs →
  replace_bookmarks i bs t = Ok (t', tt) →
  represents (v_replace_bookmarks i bs v) t' ∧ NoDup ((λ b, (bookmark_of b, bookmark_named b)) <$> bs).
Proof.
  intros Hr Hok. unfold replace_bookmarks. destruct (replace _ _ _) as [rows|] eqn:Eb; [|done]. intros [= <-].
  pose proof Eb as Eb'. unfold replace in Eb'. apply insert_rows_ok in Eb' as (l & Hl & Hn & _).
  split; [split; cbn -[v_replace_bookmarks]|].
  1-5: by destruct Hr.
  - eapply replace_encodes with (new := λ x, bookmark_map bs !! x);
      [apply _|apply _|exact Eb|apply (bookmarks_encode v t Hr)| |].
    + intros l' Hl'. assert (l' = l) as -> by (apply (fmap_ok_inj (E := SqlError)); congruence). by apply bookmark_rows_spec.
    + intros j k. unfold bookmarks_at. cbn. case_decide as Hd; [subst j; by rewrite lookup_insert_eq|by rewrite lookup_insert_ne].
  - apply (entries_encode v t Hr).
  - apply (comments_encode v t Hr).
  - apply (members_encode v t Hr).
  - apply (items_named v t Hr).
  - cbn. apply map_Forall_insert_2; [|apply (bookmarks_checked v t Hr)]. intros x [b n] Hx%elem_of_list_to_map_2.
    apply list_elem_of_fmap in Hx as (y & [= -> -> ->] & Hin). rewrite Forall_forall in Hok. by apply Hok.
  - apply (wishes_checked v t Hr).
  - apply (NoDup_fmap_1 two_ids). assert (two_ids <$> ((λ b, (bookmark_of b, bookmark_named b)) <$> bs) = l.*1) as ->; [|done].
    clear -Hl. revert l Hl. induction bs as [|b bs IH]; intros [|x l]; try done. cbn. intros [= Hx Hl].
    apply bookmark_row_ok in Hx as ->. f_equal. by apply IH.
Qed.

Lemma replace_wish_represents w s v t t' : represents v t → wish_storable s → replace_wish w s t = Ok (t', tt) →
  represents (v_replace_wish w s v) t'.
Proof.
  intros Hr Hok. unfold replace_wish. destruct (replace _ (member_rows encode_wish _) _) as [es|] eqn:Ee; [|done].
  destruct (replace _ (member_rows comment_text _) _) as [cs|] eqn:Ec; [|done]. intros [= <-].
  assert (∀ {C D} (f : StoredWish → D → option C) j (k : D),
    (s' ← v_wishes (v_replace_wish w s v) !! j; f s' k) = if decide (j = w) then f s k else s' ← v_wishes v !! j; f s' k) as Hat.
  { intros C D f j k. cbn. case_decide as Hd; [subst j; by rewrite lookup_insert_eq|by rewrite lookup_insert_ne]. }
  split; cbn -[v_replace_wish].
  1-6: by destruct Hr.
  - eapply replace_encodes with (new := λ m, stored_entries s !! m);
      [apply _|apply _|exact Ee|apply (entries_encode v t Hr)| |intros j k; apply (Hat _ _ (λ s m, stored_entries s !! m))].
    intros l Hl. eapply rows_of_all; [|exact Hl]. intros m x y. by intros [= <-].
  - eapply replace_encodes with (new := λ m, stored_comments s !! m);
      [apply _|apply _|exact Ec|apply (comments_encode v t Hr)| |intros j k; apply (Hat _ _ (λ s m, stored_comments s !! m))].
    intros l Hl. eapply rows_of_all; [|exact Hl]. intros m x y. by intros [= <-].
  - apply (members_encode v t Hr).
  - apply (items_named v t Hr).
  - apply (bookmarks_checked v t Hr).
  - cbn. apply map_Forall_insert_2; [done|apply (wishes_checked v t Hr)].
Qed.

Definition member_row_of (m : StoredMember) : MemberRow := MkMemberRow (stored_name m) (stored_pledge m) (stored_is_core m).

Lemma insert_members_ok ms rows rows' : insert_members ms rows = Ok rows' →
  Forall (λ m, (stored_pledge m ≤ i64_max)%N) ms ∧ NoDup (stored_member <$> ms) ∧
  (∀ m, m ∈ ms → rows !! show_id (stored_member m) = None) ∧
  ∀ x r, rows' !! x = Some r ↔ rows !! x = Some r ∨ ∃ m, m ∈ ms ∧ x = show_id (stored_member m) ∧ r = member_row_of m.
Proof.
  revert rows. induction ms as [|m ms IH]; intros rows; cbn [insert_members].
  - intros [= <-]. split_and!; [done|constructor|by intros ? ?%elem_of_nil|]. intros x r. split; [by left|].
    by intros [?|(? & ?%elem_of_nil & _)].
  - destruct (to_sql (stored_pledge m)) as [p|] eqn:Ep; [|done]. cbn [result_bind]. case_bool_decide as Hnew; [done|].
    apply eq_None_not_Some in Hnew.
    assert (stored_pledge m ≤ i64_max ∧ p = stored_pledge m)%N as [Hle ->].
    { split; [|by apply to_sql_ok in Ep]. unfold to_sql in Ep. by case_bool_decide. }
    intros (Hall & Hn & Hnone & Hget)%IH. split_and!; [by constructor| | |].
    + cbn. constructor; [|done]. intros (m' & Heq & Hin)%list_elem_of_fmap. apply Hnone in Hin.
      rewrite <-Heq, lookup_insert_eq in Hin. done.
    + intros m' [->|Hin]%elem_of_cons; [done|]. apply Hnone in Hin. by apply lookup_insert_None in Hin as [? _].
    + intros x r. rewrite Hget. setoid_rewrite elem_of_cons. destruct (decide (x = show_id (stored_member m))) as [->|Hne].
      * rewrite lookup_insert_eq, Hnew. split.
        -- intros [[= <-]|(m' & Hin & ? & ->)]; right; [by exists m; split; [left|]|by exists m'; split; [right|]].
        -- intros [?|(m' & [->|Hin] & ? & ->)]; [done|by left|right; by exists m'].
      * rewrite lookup_insert_ne by done. split.
        -- intros [?|(m' & Hin & ? & ->)]; [by left|right; by exists m'; split; [right|]].
        -- intros [?|(m' & [->|Hin] & ? & ->)]; [by left|done|right; by exists m'].
Qed.

Lemma set_members_represents ms v t t' : represents v t → set_members ms t = Ok (t', tt) →
  represents (v_set_members ms v) t' ∧ Forall (λ m, (stored_pledge m ≤ i64_max)%N) ms.
Proof.
  intros Hr. unfold set_members. destruct (insert_members ms ∅) as [rows|] eqn:Ei; [|done]. intros [= <-].
  apply insert_members_ok in Ei as (Hall & Hn & _ & Hget). split; [|done]. split; cbn -[v_set_members].
  1-8: by destruct Hr.
  - intros x r. rewrite Hget. cbn. fold member_row_of.
    assert (NoDup ((λ m, (stored_member m, member_row_of m)) <$> ms).*1) as Hn' by by rewrite <-list_fmap_compose.
    split.
    + intros [?|(m & Hin & -> & ->)]; [done|]. exists (stored_member m), (member_row_of m). split; [|done].
      apply elem_of_list_to_map_1; [done|]. apply list_elem_of_fmap. by exists m.
    + intros (k & r' & Hk%elem_of_list_to_map_2 & -> & ->). apply list_elem_of_fmap in Hk as (m & [= -> ->] & Hin).
      right. by exists m.
  - apply (items_named v t Hr).
  - apply (bookmarks_checked v t Hr).
  - apply (wishes_checked v t Hr).
Qed.

(** *** What is refused *)

Definition holds_numbers (s : StoredItem) : Prop :=
  (stored_modified s ≤ i64_max)%N ∧
  map_Forall (λ _ f, (file_size f ≤ i64_max)%N ∧ (match duration f with Some d => d ≤ i64_max | None => True end)%N) (files (stored_item s)).

Lemma insert_rows_succeeds {K R} `{Countable K} (key : string) (l : list (K * R)) (t : gmap (string * K) R) :
  NoDup l.*1 → (∀ k, k ∈ l.*1 → t !! (key, k) = None) → is_ok (insert_rows key (Ok <$> l) t) = true.
Proof.
  revert t. induction l as [|[k r] l IH]; intros t Hn Hnone; [done|]. cbn in Hn, Hnone |- *. apply NoDup_cons in Hn as [Hk Hn].
  rewrite Hnone by left. rewrite bool_decide_false by (intros [? ?]; done). apply IH; [done|]. intros k' Hin.
  rewrite lookup_insert_ne; [apply Hnone; by right|]. intros [= ->]. done.
Qed.

Lemma replace_succeeds {K R} `{Countable K} (key : string) (l : list (K * R)) (t : gmap (string * K) R) :
  NoDup l.*1 → is_ok (replace key (Ok <$> l) t) = true.
Proof.
  intros Hn. apply insert_rows_succeeds; [done|]. intros k _. apply map_lookup_filter_None. right. by intros r _ [].
Qed.

Lemma to_sql_fits n : is_ok (to_sql n) = bool_decide (n ≤ i64_max)%N.
Proof. unfold to_sql. by case_bool_decide. Qed.
Lemma file_row_fits f : (file_size f ≤ i64_max)%N ∧ (match duration f with Some d => d ≤ i64_max | None => True end)%N ↔
  file_row f = Ok (file_row_of f).
Proof.
  unfold file_row, file_row_of, to_sql, to_sql_opt, to_sql. destruct (duration f) as [d|]; cbn.
  - case_bool_decide; cbn; [|by split; [intros [? _]|]]. case_bool_decide; cbn; [done|]. by split; [intros [_ ?]|].
  - case_bool_decide; cbn; [done|]. by split; [intros [? _]|].
Qed.

Lemma file_rows_fit i : map_Forall (λ _ f, file_row f = Ok (file_row_of f)) (files i) ↔
  file_rows i = Ok <$> ((λ e, (show_id e.1, file_row_of e.2)) <$> map_entries (files i)).
Proof.
  unfold file_rows. rewrite <-list_fmap_compose. split.
  - intros Hf. apply list_fmap_ext. intros k [h f] Hin%list_elem_of_lookup_2. apply elem_of_map_entries in Hin. cbn.
    by rewrite (Hf h f Hin).
  - intros Heq h f Hf%elem_of_map_entries. apply list_elem_of_lookup in Hf as [k Hk].
    apply (f_equal (lookup k)) in Heq. rewrite !list_lookup_fmap, Hk in Heq. cbn in Heq.
    destruct (file_row f) as [r|] eqn:E; cbn in Heq; [|done]. congruence.
Qed.

Lemma shown_keys_distinct {A B R} `{IdTextLaws A n, Countable A, OrdKey A} (m : gmap A B) (f : B → R) :
  NoDup ((λ e, (show_id e.1, f e.2)) <$> map_entries m).*1.
Proof.
  assert (((λ e, (show_id e.1, f e.2)) <$> map_entries m).*1 = show_id <$> map_keys m) as ->.
  { unfold map_keys. by rewrite <-!list_fmap_compose. }
  apply NoDup_fmap; [apply _|apply NoDup_map_keys].
Qed.

Lemma author_rows_ok (authors : gmap ContentHash (gset MemberId)) :
  ∃ l, author_rows authors = Ok <$> l ∧ NoDup l.*1.
Proof.
  exists (map_entries authors ≫= λ e, (λ author, (show_id e.1, show_id author, tt)) <$> set_entries e.2). split.
  - unfold author_rows. induction (map_entries authors) as [|e l IH]; [done|]. cbn. rewrite fmap_app, IH, <-list_fmap_compose. done.
  - pose proof (NoDup_map_keys authors) as Hn. unfold map_keys in Hn. induction (map_entries authors) as [|[h ms] l IH]; cbn; [constructor|].
    cbn in Hn. apply NoDup_cons in Hn as [Hh Hn]. rewrite fmap_app. apply NoDup_app. split_and!; [| |by apply IH].
    + rewrite <-list_fmap_compose. apply NoDup_fmap; [intros x y [= ?%(inj show_id)]; done|].
      unfold set_entries. rewrite sort_keys_perm. apply NoDup_elements.
    + intros k Hk Hk'. rewrite <-list_fmap_compose in Hk. apply list_elem_of_fmap in Hk as (m & -> & _). cbn in Hk'.
      apply list_elem_of_fmap in Hk' as ([k u] & Hke & Hin). cbn in Hke. subst k. apply list_elem_of_bind in Hin as ([h' ms'] & Hin & Hl).
      apply list_elem_of_fmap in Hin as (m' & [= Hh' _ _] & _). apply (inj show_id) in Hh' as <-. apply Hh, list_elem_of_fmap. by exists (h, ms').
Qed.

Lemma upsert_refuses s t : is_ok (upsert_item s t) = true ↔ holds_numbers s.
Proof.
  unfold upsert_item, holds_numbers, item_row. pose proof (to_sql_fits (stored_modified s)) as Hm.
  destruct (to_sql (stored_modified s)) as [n|]; cbn [result_bind is_ok] in *;
    [symmetry in Hm; apply bool_decide_eq_true in Hm|symmetry in Hm; apply bool_decide_eq_false in Hm; split; [done|by intros [? _]]].
  set (i := stored_item s). split.
  - intros Hok. split; [done|]. destruct (replace _ (file_rows i) _) as [fs|] eqn:Ef; [|done].
    unfold replace in Ef. apply insert_rows_ok in Ef as (l & Hl & _). intros h f Hf%elem_of_map_entries. apply file_row_fits.
    assert ((r ←? file_row f ;; Ok (show_id h, r)) ∈ file_rows i) as Hin by (apply list_elem_of_fmap; by exists (h, f)).
    rewrite Hl in Hin. apply list_elem_of_fmap in Hin as (x & Hx & _). destruct (file_row f) as [r|] eqn:E; [|done].
    by apply file_row_ok in E as ->.
  - intros [_ Hf]. assert (map_Forall (λ _ f, file_row f = Ok (file_row_of f)) (files i)) as Hrows.
    { intros h f Hhf. by apply file_row_fits, (Hf h). }
    rewrite (proj1 (file_rows_fit i) Hrows).
    pose proof (replace_succeeds (show_id (item_id i)) _ (files_table t) (shown_keys_distinct (files i) file_row_of)) as Hone.
    destruct (replace _ (Ok <$> _) (files_table t)); [|done]. cbn [result_bind].
    destruct (author_rows_ok (stored_file_authors s)) as (l & -> & Hn).
    pose proof (replace_succeeds (show_id (item_id i)) l (authors_table t) Hn) as Htwo. destruct (replace _ _ (authors_table t)); [|done]. cbn [result_bind].
    assert (∀ A R (row : A → R) (m : gmap MemberId A), member_rows row m = Ok <$> ((λ e, (show_id e.1, row e.2)) <$> map_entries m)) as Hrow
      by (intros; unfold member_rows; by rewrite <-list_fmap_compose).
    rewrite !Hrow.
    pose proof (replace_succeeds (show_id (item_id i)) _ (ratings_table t) (shown_keys_distinct (stored_ratings s) rating_get)) as Hthree.
    destruct (replace _ _ (ratings_table t)); [|done]. cbn [result_bind].
    pose proof (replace_succeeds (show_id (item_id i)) _ (reviews_table t) (shown_keys_distinct (stored_reviews s) review_text)) as Hfour.
    by destruct (replace _ _ (reviews_table t)).
Qed.

(** C20: The tables are the catalogue's maps. Whatever the store holds, an item,
    an item's bookmarks, a wish and the members read back as they are; and each
    statement that succeeds is the update of those maps, an item said to be new
    exactly if it was, whatever of it was there before. An item is refused only
    for a number SQLite cannot hold. *)
Theorem store_is_the_maps v t : represents v t →
  ((∀ i, item i t = Ok (v_items v !! i)) ∧
   (∃ l, items t = Ok l ∧ l ≡ₚ (map_to_list (v_items v)).*2) ∧
   (∀ i, ∃ l, bookmarks_of i t = Ok l ∧ l ≡ₚ listed_bookmark <$> map_to_list (default ∅ (v_bookmarks v !! i))) ∧
   (∀ w, wish w t = Ok (default default_wish (v_wishes v !! w))) ∧
   ∃ l, members t = Ok l ∧ l ≡ₚ (λ e, MkStoredMember e.1 (row_name e.2) (row_pledge e.2) (row_is_core e.2)) <$> map_to_list (v_members v)) ∧
  (∀ s, is_ok (upsert_item s t) = true ↔ holds_numbers s) ∧
  (∀ s t' u, storable s → upsert_item s t = Ok (t', u) →
     represents (v_upsert s v) t' ∧ u = (if decide (is_Some (v_items v !! item_id (stored_item s))) then Updated else Created)) ∧
  (∀ i bs t', Forall (λ b, bookmark_ok (bookmarked b)) bs → replace_bookmarks i bs t = Ok (t', tt) → represents (v_replace_bookmarks i bs v) t') ∧
  (∀ w s t', wish_storable s → replace_wish w s t = Ok (t', tt) → represents (v_replace_wish w s v) t') ∧
  (∀ ms t', set_members ms t = Ok (t', tt) → represents (v_set_members ms v) t').
Proof.
  intros Hr. split_and!.
  - intros i. by apply item_reads.
  - by apply items_read.
  - intros i. by apply bookmark_reads.
  - intros w. by apply wish_reads.
  - by apply members_read.
  - intros s. apply upsert_refuses.
  - intros s t' u Hs Hu. by apply (upsert_represents s v t t' u).
  - intros i bs t' Hok Hb. by apply (replace_bookmarks_represents i bs v t t').
  - intros w s t' Hok Hw. by apply (replace_wish_represents w s v t t').
  - intros ms t' Hm. by apply (set_members_represents ms v t t').
Qed.

(** ** Searching bookmarks *)

Fixpoint chars (s : string) : list LikeToken :=
  match s with EmptyString => [] | String c s => Char c :: chars s end.

Lemma append_assoc (a b c : string) : (a +:+ b) +:+ c = a +:+ b +:+ c.
Proof. induction a as [|d a IH]; [done|]. by apply (f_equal (String d)). Qed.

Lemma replace_char_app c by_ a b : replace_char c by_ (a +:+ b) = replace_char c by_ a +:+ replace_char c by_ b.
Proof.
  induction a as [|d a IH]; [done|]. change (String d a +:+ b) with (String d (a +:+ b)). cbn [replace_char]. rewrite IH.
  by case_bool_decide; [rewrite append_assoc|].
Qed.

Lemma tokens_escaped text s : like_tokens (escaped text +:+ s) = chars text ++ like_tokens s.
Proof.
  unfold escaped. induction text as [|c text IH]; [done|]. cbn [replace_char chars app].
  case_bool_decide as Hone; [subst c; rewrite !replace_char_app; cbn; by rewrite <-IH|].
  cbn [replace_char]. case_bool_decide as Htwo; [subst c; rewrite !replace_char_app; cbn; by rewrite <-IH|].
  cbn [replace_char]. case_bool_decide as Hthree; [subst c; cbn; by rewrite <-IH|].
  rewrite <-IH. generalize (replace_char underscore "\_" (replace_char percent "\%" (replace_char backslash "\\" text))). intros e.
  change (String c e +:+ s) with (String c (e +:+ s)). cbn [like_tokens]. by rewrite !bool_decide_false.
Qed.

Lemma fold_case_app a b : fold_case (a +:+ b) = fold_case a +:+ fold_case b.
Proof. induction a as [|c a IH]; [done|]. change (String c a +:+ b) with (String c (a +:+ b)). cbn [fold_case]. by rewrite IH. Qed.

Lemma elem_of_suffixes s t : t ∈ suffixes s ↔ ∃ a, s = a +:+ t.
Proof.
  revert t. induction s as [|c s IH]; intros t; cbn.
  - rewrite list_elem_of_singleton. split; [intros ->; by exists ""|]. intros ([|] & Ha); [done|]. done.
  - rewrite elem_of_cons, IH. split.
    + intros [->|(a & ->)]; [by exists ""|by exists (String c a)].
    + intros ([|d a] & Ha); [by left|]. injection Ha as -> ->. right. by exists a.
Qed.

Lemma like_many tokens s : like_match (Many :: tokens) s = true ↔ ∃ a b, s = a +:+ b ∧ like_match tokens b = true.
Proof.
  cbn [like_match]. rewrite existsb_exists. setoid_rewrite <-list_elem_of_In. setoid_rewrite elem_of_suffixes. naive_solver.
Qed.

Lemma like_chars text tokens s : like_match (chars text ++ tokens) s = true ↔
  ∃ a b, s = a +:+ b ∧ fold_case a = fold_case text ∧ like_match tokens b = true.
Proof.
  revert s. induction text as [|c text IH]; intros s; cbn [chars app].
  - split; [intros ?; by exists "", s|]. by intros ([|] & b & -> & ? & ?).
  - cbn [like_match]. destruct s as [|d s]; [split; [done|]|].
    + by intros ([|] & b & ? & ? & _).
    + rewrite andb_true_iff, bool_decide_eq_true, IH. split.
      * intros [Hc (a & b & -> & Ha & Hb)]. exists (String d a), b. cbn. by rewrite Hc, Ha.
      * intros ([|d' a] & b & Hs & Ha & Hb); [done|]. injection Hs as <- ->. injection Ha as Hc Ha.
        split; [done|]. by exists a, b.
Qed.

(** What [LIKE] says of the pattern made of a text: whether the text is in
    there, whatever its letters' case and whatever of it means something in a
    pattern. *)
Definition contains (text s : string) : Prop := ∃ a b, fold_case s = a +:+ fold_case text +:+ b.

Lemma fold_case_split s a b : fold_case s = a +:+ b → ∃ a' b', s = a' +:+ b' ∧ fold_case a' = a ∧ fold_case b' = b.
Proof.
  revert a. induction s as [|c s IH]; intros [|d a] He.
  - change (fold_case "" = b) in He. subst b. by exists "", "".
  - done.
  - change (fold_case (String c s) = b) in He. subst b. by exists "", (String c s).
  - change (String (fold_char c) (fold_case s) = String d (a +:+ b)) in He. injection He as <- He.
    destruct (IH a He) as (a' & b' & -> & <- & <-). by exists (String c a'), b'.
Qed.

Lemma like_contains text s : like_match (like_tokens (like_anywhere text)) s = true ↔ contains text s.
Proof.
  unfold like_anywhere. change (like_tokens ("%" +:+ (escaped text +:+ "%"))) with (Many :: like_tokens (escaped text +:+ "%")).
  rewrite tokens_escaped, like_many. setoid_rewrite like_chars. unfold contains. split.
  - intros (a & b & -> & a' & b' & -> & Ha & _). exists (fold_case a), (fold_case b'). by rewrite !fold_case_app, Ha.
  - intros (a & b & (a1 & b1 & -> & <- & Hb)%fold_case_split). apply fold_case_split in Hb as (a2 & b2 & -> & Ha2 & <-).
    exists a1, (a2 +:+ b2). split; [done|]. exists a2, b2. split_and!; [done|done|].
    change (like_tokens "%") with [Many]. apply like_many. exists b2, "". by rewrite append_nil_r.
Qed.

Lemma filter_rows_all {A B} (p : A → result SqlError bool) (f : B → A) (q : B → bool) (l : list B) :
  (∀ x, x ∈ l → p (f x) = Ok (q x)) → filter_rows p (f <$> l) = Ok (f <$> filter (λ x, q x = true) l).
Proof.
  induction l as [|x l IH]; intros Hp; [done|]. cbn [fmap list_fmap filter_rows]. rewrite Hp by left. cbn [result_bind].
  rewrite IH by (intros y Hy; apply Hp; by right). cbn [result_bind]. rewrite filter_cons. by destruct (q x) eqn:E; case_decide.
Qed.

Lemma filter_rows_refused {A} (p : A → result SqlError bool) (l : list A) e :
  l ≠ [] → (∀ x, x ∈ l → p x = Err e) → filter_rows p l = Err e.
Proof. destruct l as [|x l]; [done|]. intros _ Hp. cbn. by rewrite Hp by left. Qed.

(** A text in what there is of it. *)
Definition contains_opt (text : string) (s : option string) : Prop := match s with Some s => contains text s | None => False end.

Lemma like_any_spec text texts : String.length (like_anywhere text) ≤ LIKE_PATTERN_MAX →
  ∃ b, like_any (like_anywhere text) texts = Ok b ∧ (b = true ↔ Exists (contains_opt text) texts).
Proof.
  intros Hlen. induction texts as [|[s|] texts (b & Hb & IH)]; cbn [like_any].
  - exists false. split; [done|]. split; [done|]. intros Hex. inversion Hex.
  - unfold like. rewrite bool_decide_false by lia. cbn [result_bind].
    destruct (like_match _ s) eqn:E.
    + exists true. split; [done|]. split; [|done]. intros _. left. by apply like_contains.
    + exists b. split; [done|]. rewrite IH, Exists_cons. cbn. split; [by right|]. intros [Hc|?]; [|done].
      apply like_contains in Hc. congruence.
  - exists b. split; [done|]. rewrite IH, Exists_cons. cbn. naive_solver.
Qed.

(** A bookmark as a listing shows it, and whether a filter is for it. *)
Definition listed (v : View) (e : ItemId * (MemberId * BookmarkId) * (Bookmark * N)) : ListedBookmark :=
  MkListedBookmark e.1.1 (s ← v_items v !! e.1.1; title (stored_item s)) (row_name <$> v_members v !! e.1.2.1)
    (listed_bookmark (e.1.2, e.2)).
Definition wanted_by (f : BookmarkFilter) (b : ListedBookmark) : Prop :=
  (match filter_text f with
   | Some text => Exists (contains_opt text) [Some (note (bookmarked (listed_stored b))); listed_title b; listed_name b]
   | None => True end) ∧
  (match filter_member f with Some m => bookmark_of (listed_stored b) = m | None => True end) ∧
  (match filter_item f with Some i => listed_item b = i | None => True end).
Definition searchable (f : BookmarkFilter) : Prop :=
  match filter_text f with Some text => String.length (like_anywhere text) ≤ LIKE_PATTERN_MAX | None => True end.

Definition joined_of (v : View) (e : ItemId * (MemberId * BookmarkId) * (Bookmark * N)) : JoinedRow :=
  MkJoinedRow (pair_key show_id two_ids e.1) (bookmark_row_of e.2) (listed_title (listed v e)) (listed_name (listed v e)).

Lemma joined_rows_read v t : represents v t → ∃ l, joined_rows t = joined_of v <$> l ∧ NoDup l.*1 ∧ ∀ e, e ∈ l ↔ bookmarks_at v e.1 = Some e.2.
Proof.
  intros Hr. destruct (encodes_list (pair_key show_id two_ids) bookmark_row_of _ _ (bookmarks_encode v t Hr)) as (l & Hl & Hn & Hin).
  exists l. split; [|done]. unfold joined_rows. rewrite Hl, <-list_fmap_compose. apply list_fmap_ext. intros _ [[i [m b]] x] _.
  unfold joined_of. cbn. f_equal.
  - rewrite (encodes_at show_id item_row_of _ _ i (items_encode v t Hr)). by destruct (v_items v !! i).
  - rewrite (encodes_at show_id id _ _ m (members_encode v t Hr)). by destruct (v_members v !! m).
Qed.

Lemma lets_through_spec v f e : searchable f → ∃ b, lets_through f (joined_of v e) = Ok b ∧ (b = true ↔ wanted_by f (listed v e)).
Proof.
  intros Hf. destruct e as [[i [m b]] [bm n]]. unfold lets_through, wanted_by. cbn -[like_any].
  assert (∀ P Q R (b1 b2 b3 : bool), (b1 = true ↔ P) → (b2 = true ↔ Q) → (b3 = true ↔ R) → (b1 && b2 && b3 = true ↔ P ∧ Q ∧ R)) as Hand.
  { intros P Q R b1 b2 b3 <- <- <-. rewrite !andb_true_iff. tauto. }
  assert (∀ A (shown : A → string) `{!Inj (=) (=) shown} (o : option A) (a : A),
    (match o with None => true | Some x => bool_decide (shown a = shown x) end) = true ↔ match o with Some x => a = x | None => True end) as Hopt.
  { intros A shown Hinj [x|] a; [|done]. rewrite bool_decide_eq_true. split; [apply (inj shown)|by intros ->]. }
  unfold searchable in Hf. destruct (filter_text f) as [text|].
  - destruct (like_any_spec text [Some (note bm); s ← v_items v !! i; title (stored_item s); row_name <$> v_members v !! m] Hf) as (x & -> & Hx).
    eexists. split; [done|]. apply Hand; [done|by apply (Hopt _ show_id _)|by apply (Hopt _ show_id _)].
  - eexists. split; [done|]. apply Hand; [done|by apply (Hopt _ show_id _)|by apply (Hopt _ show_id _)].
Qed.

#[export] Instance by_texts_total : Total by_texts.
Proof. intros x y. unfold by_texts. do 2 case_decide; try congruence; apply (total String.le). Qed.

#[export] Instance newest_first_total : Total newest_first.
Proof.
  intros x y. unfold newest_first. destruct (N.lt_trichotomy (row_created_at (joined_row x)) (row_created_at (joined_row y))) as [?|[Heq|?]];
    [right; by left|rewrite Heq|left; by left].
  assert (∀ P Q R : Prop, P ∨ Q → (R ∨ row_created_at (joined_row y) = row_created_at (joined_row y) ∧ P) ∨
    (R ∨ row_created_at (joined_row y) = row_created_at (joined_row y) ∧ Q)) as Hor by naive_solver.
  apply Hor. do 2 case_decide; try congruence; [apply (total by_texts)|apply (total String.le)].
Qed.

(** A search of the bookmarks finds exactly those the filter is for, newest
    first: each bookmark of the item and the member asked for whose note, item's
    title or member's name has the text in it, the case of its ASCII letters
    aside and every character of it taken as it is, [%] and [_] too. A text
    longer than SQLite takes for a pattern is refused. *)
Theorem bookmarks_are_found_by_what_they_say v t f : represents v t →
  (searchable f → ∃ l, find_bookmarks f t = Ok l ∧ NoDup l ∧
     (∀ b, b ∈ l ↔ ∃ e, bookmarks_at v e.1 = Some e.2 ∧ b = listed v e ∧ wanted_by f b) ∧
     Sorted (λ a b, (created_at (bookmarked (listed_stored b)) ≤ created_at (bookmarked (listed_stored a)))%N) l) ∧
  (¬ searchable f → bookmarks_table t ≠ ∅ → find_bookmarks f t = Err PatternTooComplex).
Proof.
  intros Hr. destruct (joined_rows_read v t Hr) as (l & Hl & Hn & Hin). unfold find_bookmarks. rewrite Hl. split.
  - intros Hf. set (q e := match lets_through f (joined_of v e) with Ok b => b | Err _ => false end).
    assert (∀ e, (q e = true ↔ wanted_by f (listed v e)) ∧ lets_through f (joined_of v e) = Ok (q e)) as Hq.
    { intros e. destruct (lets_through_spec v f e Hf) as (b & Hb & Hw). unfold q. by rewrite Hb. }
    rewrite (filter_rows_all _ (joined_of v) q) by (intros e _; apply Hq). cbn [result_bind]. set (k := filter _ l).
    destruct (sorted_perm newest_first (joined_of v) k) as (k' & Hk & Hp). pose proof (Sorted_merge_sort newest_first (joined_of v <$> k)) as Hs.
    rewrite Hk in *. exists (listed v <$> k'). split_and!.
    + rewrite (each_row_list read_listed (joined_of v) (listed v)); [done|]. intros [[i [m b]] [bm n]] He. rewrite Hp in He.
      apply list_elem_of_filter in He as [_ He]. apply Hin in He. cbn in He. apply bind_Some in He as (bs & Hbs & He).
      pose proof (bookmarks_checked v t Hr i bs Hbs (m, b) _ He) as Hok. unfold read_listed, stored_bookmark. cbn. rewrite !identifier_show. cbn.
      cbn in Hok. destruct bm as [p no c]. cbn in *. by rewrite (proj2 (new_bookmark_ok p no c (MkBookmark p no c))).
    + apply NoDup_fmap_2_strong; [|rewrite Hp; by apply NoDup_filter, (NoDup_fmap_1 fst)].
      by intros [[? [? ?]] [? ?]] [[? [? ?]] [? ?]] _ _ [= -> _ _ -> -> -> ->].
    + intros b. rewrite list_elem_of_fmap. split.
      * intros (e & -> & He). rewrite Hp in He. apply list_elem_of_filter in He as [Hw He%Hin]. exists e. split_and!; [done|done|by apply Hq].
      * intros (e & He%Hin & -> & Hw). exists e. split; [done|]. rewrite Hp. apply list_elem_of_filter. split; [by apply Hq|done].
    + clear -Hs. induction k' as [|e k' IH]; [constructor|]. cbn in Hs |- *. apply Sorted_inv in Hs as [Hs Hd]. constructor; [by apply IH|].
      destruct k' as [|e' k']; constructor. apply HdRel_inv in Hd. unfold newest_first in Hd. cbn in *. lia.
  - intros Hf Hne. unfold searchable in Hf. destruct (filter_text f) as [text|] eqn:Et; [|done].
    rewrite (filter_rows_refused _ _ PatternTooComplex); [done| |].
    + intros Hz. apply Hne, map_to_list_empty_iff. apply (f_equal length) in Hl. unfold joined_rows in Hl. rewrite Hz, length_fmap in Hl.
      by apply nil_length_inv.
    + intros x (e & -> & _)%list_elem_of_fmap. unfold lets_through. rewrite Et. unfold joined_of. cbn [joined_row like_any].
      unfold like. by rewrite bool_decide_true by lia.
Qed.
End view.
