(* ===== verification/ProjectingProps.v ===== *)
(** * The read model follows the document

    Whatever the members write, whatever content comes late and whoever comes
    and goes, once the projection is idle its tables say what the document
    does, of the current members, but for what it could not read or write. *)

From Stdlib Require Import Ascii SpecFloat.
From stdpp Require Import strings.
From S2P Require Import Prelude Ids Events Membership Heartbeats Keeping Failures Statements Blobs Texts Items ItemsProps.
From S2P Require Import Community Catalogue CatalogueProps Changes Held ReadModel ReadModelProps Projecting.

(** What the projection writes at once. *)
Inductive Row : Type := RItem (i : ItemId) | RBookmarks (i : ItemId) | RWish (w : WishId).
#[export] Instance Row_eq_dec : EqDecision Row.
Proof. solve_decision. Defined.

Definition row_of_key (k : Key + CommunityKey) : option Row :=
  match k with
  | inl k => Some (RItem (key_item k))
  | inr (RatingKey i _) | inr (ReviewKey i _) => Some (RItem i)
  | inr (BookmarkKey i _ _) => Some (RBookmarks i)
  | inr (WishKey w _) | inr (WishCommentKey w _) => Some (RWish w)
  | inr (ProbeFailureKey _ _) => None
  end.

(** What reading JSON gives is in range, and never not a number. *)
Class JsonReads `{CommunityJson} : Prop := {
  series_reads (bs : list N) (se : Series) : from_json bs = Some se → series_index se ≠ Some S754_nan;
  wish_fields_read (bs : list N) (f : WishFields) : from_json bs = Some f → wish_holds f;
}.

Section reading.
Context `{IdTextLaws ItemId 64} `{IdTextLaws ContentHash 64} `{IdTextLaws MemberId 64}.
Context `{IdTextLaws BookmarkId 32} `{IdTextLaws WishId 64}.
Context `{CommunityJsonLaws} `{!JsonReads} `{Crypto} `{DD : Documents} `{DL : !DocumentsLaws}.

(** ** What a row is read from *)

Definition prefixes (r : Row) : list string :=
  match r with
  | RItem i => [prefix_of i; ratings_of i; reviews_of i]
  | RBookmarks i => [Community.bookmarks_of i]
  | RWish w => [wish_entries_of w; comments_on w]
  end.

Lemma begins_two a b k : plain a = true → plain b = true → begins (a +:+ "/" +:+ b +:+ "/") (encode_any k) →
  ∃ p ps, any_parts k = a :: b :: p :: ps.
Proof.
  intros Ha Hb Hbeg. change (a +:+ "/" +:+ b +:+ "/") with (joined [a; b; ""]) in Hbeg.
  assert (encode_any k = joined (any_parts k)) as He by (destruct k; [apply encode_key_parts|apply encode_community_parts]).
  rewrite He in Hbeg. apply begins_parts in Hbeg as (init & x & y & rest & Hi & Hk); [|done| |by repeat constructor|].
  - change [a; b; ""] with ([a; b] ++ [""]) in Hi. apply app_inj_2 in Hi as [<- [= <-]]; [|done]. by exists y, rest.
  - destruct k; [apply key_parts_cons|apply community_parts_cons].
  - destruct k; [apply key_parts_plain|apply community_parts_plain].
Qed.

(** Only what a row's own keys hold is read for it. *)
Lemma prefix_of_row r k p : p ∈ prefixes r → begins p (encode_any k) → row_of_key k = Some r.
Proof.
  destruct r as [i|i|wi]; cbn; intros Hp Hb;
    repeat (apply elem_of_cons in Hp as [->|Hp]); try (by apply elem_of_nil in Hp);
    apply begins_two in Hb as (q & qs & Hk); try done; try apply show_plain;
    destruct k as [[]|[]]; try discriminate Hk; injection Hk as Hi; apply show_id_inj in Hi; by subst.
Qed.

(** An entry has come at the key [s]: whatever is asked of other keys is
    answered as before. *)
Definition touched (s : string) (d d' : Doc) : Prop :=
  ∀ p, ¬ begins p s →
    get_many (AllEntries p) d' = get_many (AllEntries p) d ∧ get_many (LatestPerKey p) d' = get_many (LatestPerKey p) d.

(** A row none of whose keys begin so. *)
Definition elsewhere (s : string) (r : Row) : Prop := ∀ p, p ∈ prefixes r → ¬ begins p s.

Lemma read_query_same {A} q (f : A → Entry → result SyncError A) acc d d' :
  get_many q d' = get_many q d → read_query q f acc (Some d') = read_query q f acc (Some d).
Proof. intros Hq. unfold read_query. cbn. by rewrite Hq. Qed.

Lemma read_item_untouched w s d d' i : touched s d d' → elsewhere s (RItem i) →
  read_item w i (Some d') = read_item w i (Some d).
Proof.
  intros Ht Hk. assert (∀ p, p ∈ prefixes (RItem i) →
    get_many (AllEntries p) d' = get_many (AllEntries p) d ∧ get_many (LatestPerKey p) d' = get_many (LatestPerKey p) d) as Hsame
    by (intros p Hp; by apply Ht, Hk). cbn [prefixes] in Hsame.
  unfold read_item, read_community_entries, read_file_authors.
  rewrite (read_query_same (LatestPerKey (prefix_of i)) _ _ d d') by (apply Hsame; set_solver).
  rewrite (read_query_same (AllEntries (ratings_of i)) _ _ d d') by (apply Hsame; set_solver).
  rewrite (read_query_same (AllEntries (reviews_of i)) _ _ d d') by (apply Hsame; set_solver).
  by rewrite (read_query_same (AllEntries (prefix_of i)) _ _ d d') by (apply Hsame; set_solver).
Qed.

Lemma read_entries_untouched {T} w (decode : list N → option T) s d d' r p : touched s d d' → elsewhere s r → p ∈ prefixes r →
  read_community_entries w p decode (Some d') = read_community_entries w p decode (Some d).
Proof. intros Ht Hk Hp. apply read_query_same. by apply Ht, Hk. Qed.

(** ** Content that arrives *)

(** The content of one hash, not here till now. *)
Definition lands (h : ContentHash) (bytes : list N) (w w' : ContentWorld) : Prop :=
  (∃ s, has_content w h = Ok s ∧ ∀ n, s ≠ Complete n) ∧
  has_content w' h = Ok (Complete (N.of_nat (length bytes))) ∧ reads_content w' h = Ok bytes ∧
  (∀ g, g ≠ h → has_content w' g = has_content w g ∧ reads_content w' g = reads_content w g) ∧
  (∀ a, is_public_key w' a = is_public_key w a).

Lemma content_lands h bytes w w' e : lands h bytes w w' → content w' e = content w e ∨ content w e = Ok None ∧ ∃ v, content w' e = Ok (Some v).
Proof.
  intros ((s & Hs & Hno) & Hhas & Hreads & Hsame & _). unfold content.
  destruct (decide (content_hash e = h)) as [->|Hne].
  - right. rewrite Hs, Hhas, Hreads. split; [|by exists bytes]. destruct s as [n| |]; [by destruct (Hno n)|done|done].
  - left. by destruct (Hsame _ Hne) as [-> ->].
Qed.

Lemma count_entry_lands {T} (decode : list N → option T) h bytes w w' acc e r :
  lands h bytes w w' → count_entry w decode acc e = Ok r →
  (waiting acc = true → waiting r = true) ∧
  (waiting r = false → count_entry w' decode acc e = Ok r) ∧ is_ok (count_entry w' decode acc e) = true.
Proof.
  intros Hl. unfold count_entry. destruct (parse_community (entry_key e)) as [k|]; [|by intros [= <-]].
  case_bool_decide; [by intros [= <-]|]. destruct (content_lands h bytes w w' e Hl) as [->|[-> [v ->]]]; cbn [result_bind].
  - destruct (content w e) as [[v|]|]; cbn [result_bind]; [|by intros [= <-]|done]. by destruct (decode v); intros [= <-].
  - intros [= <-]. cbn. split_and!; [done|done|]. by destruct (decode v).
Qed.

Lemma entries_land {T} (decode : list N → option T) h bytes w w' es acc r :
  lands h bytes w w' → over_stream (count_entry w decode) acc es = Ok r →
  (waiting acc = true → waiting r = true) ∧ (waiting r = false → over_stream (count_entry w' decode) acc es = Ok r).
Proof.
  intros Hl. revert acc. induction es as [|[e|s] es IH]; intros acc; cbn [over_stream]; [by intros [= <-]| |done].
  destruct (count_entry w decode acc e) as [a|] eqn:E; [|done]. cbn [result_bind].
  destruct (count_entry_lands decode h bytes w w' acc e a Hl E) as (Hw & Heq & _). intros (Hw' & Heq')%IH.
  split; [auto|]. intros Hr. assert (waiting a = false) as Ha by (destruct (waiting a); [by rewrite Hw' in Hr|done]).
  rewrite (Heq Ha). cbn [result_bind]. by apply Heq'.
Qed.

(** What could not be read still cannot. *)
Lemma entries_still_fail {T} (decode : list N → option T) h bytes w w' es acc acc' e :
  lands h bytes w w' → over_stream (count_entry w decode) acc es = Err e → is_ok (over_stream (count_entry w' decode) acc' es) = false.
Proof.
  intros Hl. revert acc acc'. induction es as [|[x|s] es IH]; intros acc acc'; cbn [over_stream]; [done| |done].
  destruct (count_entry w decode acc x) as [a|e'] eqn:E; cbn [result_bind].
  - intros Hr. destruct (count_entry w' decode acc' x); [|done]. by eapply IH.
  - intros _. unfold count_entry in E |- *. destruct (parse_community (entry_key x)) as [k|]; [|done].
    case_bool_decide; [done|]. destruct (content_lands h bytes w w' x Hl) as [->|[Hc _]]; [|by rewrite Hc in E].
    by destruct (content w x) as [[v|]|]; cbn [result_bind] in *; [destruct (decode v)| |].
Qed.

Lemma read_entries_land {T} (decode : list N → option T) h bytes w w' p c r' :
  lands h bytes w w' → read_community_entries w' p decode c = Ok r' →
  ∃ r, read_community_entries w p decode c = Ok r ∧ (waiting r = false → r' = r).
Proof.
  intros Hl. unfold read_community_entries, read_query. destruct (document c) as [d|]; [|done]. cbn [result_bind].
  destruct (get_many (AllEntries p) d) as [es|]; [|done]. intros Hr.
  destruct (over_stream (count_entry w decode) _ es) as [r|e] eqn:E.
  - exists r. split; [done|]. intros Hw. destruct (entries_land decode h bytes w w' es _ r Hl E) as [_ Heq]. specialize (Heq Hw). congruence.
  - apply (entries_still_fail decode h bytes w w' es _ (MkCommunityEntries [] false) e Hl) in E. by rewrite Hr in E.
Qed.

Lemma reading_lands h bytes w w' es acc acc' r' :
  lands h bytes w w' → found acc' = found acc → over_stream (read_entry w') acc' es = Ok r' →
  ∃ r, over_stream (read_entry w) acc es = Ok r ∧ found r' = found r ∧
    (waiting_for_content acc = true → waiting_for_content r = true) ∧
    (waiting_for_content r = false → acc' = acc → r' = r).
Proof.
  intros Hl. revert acc acc'. induction es as [|[e|s] es IH]; intros acc acc' Hf; cbn [over_stream]; [|  |done].
  - intros [= <-]. by exists acc.
  - unfold read_entry at 1 3. destruct (content_lands h bytes w w' e Hl) as [Hc|[Hc [v Hv]]].
    + rewrite Hc. set (modified := N.max (last_modified acc) (timestamp e)).
      destruct (content w e) as [[v|]|]; cbn [result_bind]; [| |done].
      * intros (r & Hr & Hfr & Hw & Heq)%(IH (MkReading (absorb (entry_key e) v (reading acc)).1 modified (waiting_for_content acc) true)); [|done].
        exists r. split_and!; [done|done|done|]. intros Hno ->. by apply Heq.
      * intros (r & Hr & Hfr & Hw & Heq)%(IH (MkReading (reading acc) modified true true)); [|done].
        exists r. split_and!; [done|done|intros _; by apply Hw|]. intros Hno ->. by apply Heq.
    + rewrite Hc, Hv. cbn [result_bind]. intros (r & Hr & Hfr & Hw & Heq)%(IH (MkReading (reading acc) (N.max (last_modified acc) (timestamp e)) true true)); [|done].
      exists r. split_and!; [done|done|intros _; by apply Hw|]. intros Hno. cbn in Hw. by rewrite Hw in Hno.
Qed.

Lemma read_item_lands h bytes w w' i c o' : lands h bytes w w' → read_item w' i c = Ok o' →
  ∃ o, read_item w i c = Ok o ∧ (o = None ↔ o' = None) ∧ ∀ r, o = Some r → item_waiting r = false → o' = Some r.
Proof.
  intros Hl. unfold read_item, read_query. destruct (document c) as [d|] eqn:Ed; [|done]. cbn [result_bind].
  destruct (get_many (LatestPerKey (prefix_of i)) d) as [es|]; [|done].
  destruct (over_stream (read_entry w') _ es) as [r'|] eqn:Er; [|done]. cbn [result_bind].
  destruct (reading_lands h bytes w w' es (MkReading (new_item i) 0 false false) (MkReading (new_item i) 0 false false) r' Hl eq_refl Er) as (r & -> & Hf & _ & Heq). cbn [result_bind]. rewrite <-Hf.
  destruct (negb (found r')) eqn:En; [intros [= <-]; exists None; split_and!; [done|done|by intros ? ?]|].
  destruct (read_community_entries w' (ratings_of i) decode_rating c) as [rs'|] eqn:E1; [|done].
  destruct (read_entries_land decode_rating h bytes w w' _ _ rs' Hl E1) as (rs & -> & Hrs). cbn [result_bind].
  destruct (read_community_entries w' (reviews_of i) decode_review c) as [vs'|] eqn:E2; [|done].
  destruct (read_entries_land decode_review h bytes w w' _ _ vs' Hl E2) as (vs & -> & Hvs). cbn [result_bind].
  assert (read_file_authors w' i c = read_file_authors w i c) as ->.
  { unfold read_file_authors, read_query. rewrite Ed. cbn [result_bind]. destruct (get_many (AllEntries (prefix_of i)) d) as [fs|]; [|done].
    generalize (∅ : gmap ContentHash (gset MemberId)) as acc. induction fs as [|[e|s] fs IH]; intros acc; cbn [over_stream]; [done| |done].
    unfold add_author at 1 3. cbn [result_bind]. destruct Hl as (_ & _ & _ & _ & ->). apply IH. }
  destruct (read_file_authors w i c) as [au|]; [|done]. cbn [result_bind]. intros [= <-].
  eexists. split_and!; [done|by split|]. intros x [= <-] Hw. cbn in Hw.
  apply orb_false_iff in Hw as [Hw Hv%Hvs]. apply orb_false_iff in Hw as [Hr%Heq Hr2%Hrs]; [|done]. by subst.
Qed.

(** ** What the document names *)

(** Every key under the item is one this build reads, of the item. *)
Definition item_keyed (d : Doc) (i : ItemId) : Prop :=
  ∀ a k e, CatalogueProps.held d !! (a, k) = Some e → begins (prefix_of i) k → ∃ key, parse_key k = Some key ∧ key_item key = i.

Lemma over_stream_adds {B} `{Countable B} (get : Entry → option B) (f : gset B → Entry → result SyncError (gset B)) es acc ids :
  (∀ acc e, f acc e = Ok (match get e with Some b => {[b]} ∪ acc | None => acc end)) →
  over_stream f acc es = Ok ids → ∃ l, es = Ok <$> l ∧ ∀ b, b ∈ ids ↔ b ∈ acc ∨ ∃ e, e ∈ l ∧ get e = Some b.
Proof.
  intros Hf. revert acc. induction es as [|[e|s] es IH]; intros acc; cbn [over_stream]; [| |done].
  - intros [= <-]. exists []. split; [done|]. intros b. split; [by left|]. by intros [?|(? & ?%elem_of_nil & _)].
  - rewrite Hf. cbn [result_bind]. intros (l & -> & Hl)%IH. exists (e :: l). split; [done|]. intros b. rewrite Hl.
    setoid_rewrite elem_of_cons. destruct (get e) as [b'|] eqn:E.
    + rewrite elem_of_union, elem_of_singleton. naive_solver.
    + naive_solver.
Qed.

Lemma begins_trans p q s : begins p q → begins q s → begins p s.
Proof.
  intros [r Hr%strip_prefix_inv] [u Hu%strip_prefix_inv]. subst. unfold begins. rewrite string_app_assoc, strip_prefix_app. eauto.
Qed.

Lemma keys_read es acc ks : over_stream (λ keys e, Ok (keys ++ [entry_key e])) acc es = Ok ks →
  ∃ l, es = Ok <$> l ∧ ks = acc ++ (entry_key <$> l).
Proof.
  revert acc. induction es as [|[e|s] es IH]; intros acc; cbn [over_stream]; [| |done].
  - intros [= <-]. exists []. by rewrite app_nil_r.
  - cbn [result_bind]. intros (l & -> & ->)%IH. exists (e :: l). split; [done|]. by rewrite <-app_assoc.
Qed.

Lemma item_is_named w d i r ids : item_keyed d i → read_item w i (Some d) = Ok (Some r) → item_ids (Some d) = Ok ids → i ∈ ids.
Proof.
  intros Hk. unfold read_item, item_ids, read_query. cbn [document result_bind].
  destruct (get_many (LatestPerKey (prefix_of i)) d) as [es|] eqn:Ep; [|done].
  destruct (over_stream (read_entry w) _ es) as [x|] eqn:Er; [|done]. cbn [result_bind].
  destruct (negb (found x)) eqn:En; [done|]. intros _.
  destruct (get_many (LatestPerKey all_items) d) as [es'|] eqn:Ea; [|done].
  destruct (over_stream _ [] es') as [ks|] eqn:Ek; [|done]. cbn [result_bind]. intros [= <-].
  apply over_stream_ok in Er as (l & -> & Hl). apply over_stream_read in Hl as (_ & Hf & _).
  apply negb_false_iff, Hf in En as [?|Hne]; [done|]. destruct l as [|e l]; [done|]. clear Hf Hne.
  apply get_latest in Ep as (_ & Hin & _). destruct (Hin e) as (Hheld & Hb & _); [by left|].
  apply keys_read in Ek as (l' & -> & ->). apply get_latest in Ea as (_ & _ & Hall).
  assert (begins all_items (prefix_of i)) as Hp by (unfold begins, all_items, prefix_of; rewrite <-string_app_assoc, strip_prefix_app; eauto).
  destruct (Hall _ _ _ Hheld (begins_trans _ _ _ Hp Hb)) as (e' & Hin' & He').
  destruct (Hk _ _ _ Hheld Hb) as (key & Hkey & <-).
  unfold items_in. apply elem_of_list_to_set, list_elem_of_fmap. exists key. split; [done|]. apply list_elem_of_omap.
  exists (entry_key e'). split; [|by rewrite He']. cbn [app]. apply list_elem_of_fmap. by exists e'.
Qed.

Lemma entries_or_none {T} w p (decode : list N → option T) d r : read_community_entries w p decode (Some d) = Ok r →
  r = MkCommunityEntries [] false ∨ ∃ a e k, CatalogueProps.held d !! (a, encode_community k) = Some e ∧ begins p (encode_community k).
Proof.
  unfold read_community_entries, read_query. cbn [document result_bind]. destruct (get_many (AllEntries p) d) as [es|] eqn:Ep; [|done].
  intros Hr. apply over_stream_ok in Hr as (l & -> & Hl). apply get_all in Ep as [_ Hin].
  destruct (decide (Forall (λ e, parse_community (entry_key e) = None) l)) as [Hno|Hex].
  - left. clear Hin. revert Hl. generalize (@MkCommunityEntries T [] false) as acc. induction Hno as [|e l He Hno IH]; intros acc; cbn; [by intros [= <-]|].
    unfold count_entry at 1. rewrite He. cbn [result_bind]. apply IH.
  - right. apply not_Forall_Exists, Exists_exists in Hex as (e & He & Hk); [|apply _]. destruct (parse_community (entry_key e)) as [k|] eqn:Ek; [|done].
    apply parse_community_some in Ek. apply Hin in He as [Hh Hb]. exists (entry_author e), e, k. by rewrite <-Ek.
Qed.

Lemma bookmarks_are_named {T} w d i (decode : list N → option T) r ids : read_community_entries w (Community.bookmarks_of i) decode (Some d) = Ok r →
  r ≠ MkCommunityEntries [] false → bookmarked_item_ids (Some d) = Ok ids → i ∈ ids.
Proof.
  intros [?|(a & e & k & Hh & Hb)]%entries_or_none Hne; [done|]. unfold bookmarked_item_ids, read_query. cbn [document result_bind].
  destruct (get_many (LatestPerKey all_bookmarks) d) as [es|] eqn:Ep; [|done].
  intros (l & -> & Hl)%(over_stream_adds (λ e, match parse_community (entry_key e) with Some (BookmarkKey i _ _) => Some i | _ => None end)).
  - assert (begins all_bookmarks (Community.bookmarks_of i)) as Hp
      by (unfold begins, all_bookmarks, Community.bookmarks_of; rewrite <-string_app_assoc, strip_prefix_app; eauto).
    apply get_latest in Ep as (_ & _ & Hall). destruct (Hall _ _ _ Hh (begins_trans _ _ _ Hp Hb)) as (e' & Hin & He').
    assert (row_of_key (inr k) = Some (RBookmarks i)) as Hk by (apply (prefix_of_row _ _ (Community.bookmarks_of i)); [cbn; set_solver|done]).
    apply Hl. right. exists e'. split; [done|]. rewrite He', parse_encode_community. destruct k; try discriminate Hk. by injection Hk as ->.
  - intros acc x. unfold add_bookmarked. by destruct (parse_community (entry_key x)) as [[]|].
Qed.

Lemma wish_is_named {T} w d wi (decode : list N → option T) r ids : read_community_entries w (wish_entries_of wi) decode (Some d) = Ok r →
  r ≠ MkCommunityEntries [] false → wish_ids (Some d) = Ok ids → wi ∈ ids.
Proof.
  intros [?|(a & e & k & Hh & Hb)]%entries_or_none Hne; [done|]. unfold wish_ids, read_query. cbn [document result_bind].
  destruct (get_many (LatestPerKey all_wish_entries) d) as [es|] eqn:Ep; [|done].
  intros (l & -> & Hl)%(over_stream_adds (λ e, match parse_community (entry_key e) with Some (WishKey w _) => Some w | _ => None end)).
  - assert (begins all_wish_entries (wish_entries_of wi)) as Hp
      by (unfold begins, all_wish_entries, wish_entries_of; rewrite <-string_app_assoc, strip_prefix_app; eauto).
    apply get_latest in Ep as (_ & _ & Hall). destruct (Hall _ _ _ Hh (begins_trans _ _ _ Hp Hb)) as (e' & Hin & He').
    assert (∃ m, k = WishKey wi m) as [m ->].
    { apply (begins_two WISH (show_id wi) (inr k)) in Hb as (q & qs & Hq); [|done|apply show_plain].
      destruct k; try discriminate Hq. injection Hq as Hi _. apply show_id_inj in Hi as ->. eauto. }
    apply Hl. right. exists e'. split; [done|]. by rewrite He', parse_encode_community.
  - intros acc x. unfold add_wish. by destruct (parse_community (entry_key x)) as [[]|].
Qed.

(** ** What is written is what may be stored *)

Lemma counted_decoded {T} w p (decode : list N → option T) c r : read_community_entries w p decode c = Ok r →
  ∀ x, x ∈ counted_entries r → ∃ bytes, decode bytes = Some (community_value x).
Proof.
  unfold read_community_entries, read_query. destruct (document c) as [d|]; [|done]. cbn [result_bind].
  destruct (get_many (AllEntries p) d) as [es|]; [|done]. intros (l & -> & Hl)%over_stream_ok.
  apply over_stream_counts in Hl. rewrite Hl. cbn [counted_entries app]. intros x (e & _ & Hx)%list_elem_of_omap.
  apply counts_some in Hx as (_ & _ & _ & bytes & _ & Hd). eauto.
Qed.

Lemma values_decoded {T} w p (decode : list N → option T) c r m x : read_community_entries w p decode c = Ok r →
  values_by_member (counted_entries r) !! m = Some x → ∃ bytes, decode bytes = Some x.
Proof.
  intros Hr Hx. unfold values_by_member in Hx. apply collect_map_elem, list_elem_of_fmap in Hx as (e & [= _ ->] & He).
  by apply (counted_decoded w p decode c r Hr).
Qed.

Lemma of_members_some {A} ms (values : gmap MemberId A) m x : of_members ms values !! m = Some x → values !! m = Some x.
Proof. by intros [? _]%map_lookup_filter_Some. Qed.

Definition series_ok (i : Item) : Prop := match series i with Some se => series_index se ≠ Some S754_nan | None => True end.

Lemma absorb_series key value i : series_ok i → series_ok (absorb key value i).1.
Proof.
  intros Hi. unfold absorb. destruct (parse_key key) as [k|]; [|done]. case_decide; [|done].
  destruct k as [id f|id b]; [|by destruct (from_json value)].
  destruct i as [iid k t a g se y l d fs], f; cbn; unfold take_value; try (by destruct (from_json value)).
  destruct (from_json value) as [x|] eqn:E; [|done]. cbn. by apply (series_reads value).
Qed.

Lemma foldl_series w l i : series_ok i → series_ok (foldl (absorb_entry w) i l).
Proof.
  revert i. induction l as [|e l IH]; intros i Hi; [done|]. cbn. apply IH. unfold absorb_entry.
  destruct (content w e) as [[v|]|]; [by apply absorb_series|done..].
Qed.
Lemma foldl_item_id w l i : item_id (foldl (absorb_entry w) i l) = item_id i.
Proof. revert i. induction l as [|e l IH]; intros i; [done|]. cbn. by rewrite IH, absorb_entry_id. Qed.

Lemma authors_kept w es acc r : map_Forall (λ _ s, s ≠ ∅) acc → over_stream (add_author w) acc es = Ok r → map_Forall (λ _ s, s ≠ ∅) r.
Proof.
  revert acc. induction es as [|[e|s] es IH]; intros acc Hacc; cbn [over_stream]; [by intros [= <-]| |done].
  unfold add_author at 1. cbn [result_bind]. apply IH. destruct (parse_key (entry_key e)) as [[|i b]|]; [done| |done].
  destruct (is_public_key w (entry_author e)); [|done]. apply map_Forall_insert_2; [set_solver|done].
Qed.

Lemma read_item_storable w i c r ms : read_item w i c = Ok (Some r) → storable (to_store ms r) ∧ item_id (stored_item (to_store ms r)) = i.
Proof.
  unfold read_item, read_query. destruct (document c) as [d|] eqn:Ed; [|done]. cbn [result_bind].
  destruct (get_many (LatestPerKey (prefix_of i)) d) as [es|]; [|done].
  destruct (over_stream (read_entry w) _ es) as [x|] eqn:Er; [|done]. cbn [result_bind]. destruct (negb (found x)); [done|].
  destruct (read_community_entries w (ratings_of i) decode_rating c) as [rs|] eqn:E1; [|done].
  destruct (read_community_entries w (reviews_of i) decode_review c) as [vs|] eqn:E2; [|done]. cbn [result_bind].
  destruct (read_file_authors w i c) as [au|] eqn:E3; [|done]. cbn [result_bind]. intros [= <-]. unfold to_store. cbn.
  apply over_stream_ok in Er as (l & -> & Hl). apply over_stream_read in Hl as (Hi & _). cbn in Hi.
  destruct values_keep_their_limits as (Hrate & Hrev & _).
  split; [split_and!|]; cbn.
  - change (series_ok (reading x)). rewrite Hi. by apply foldl_series.
  - unfold read_file_authors, read_query in E3. rewrite Ed in E3. cbn [result_bind] in E3. destruct (get_many (AllEntries (prefix_of i)) d) as [fs|]; [|done].
    eapply authors_kept; [|exact E3]. apply map_Forall_empty.
  - intros m y Hy%of_members_some. apply (values_decoded w (ratings_of i) decode_rating c rs) in Hy as (b & Hb); [|done]. by apply (Hrate b).
  - intros m y Hy%of_members_some. apply (values_decoded w (reviews_of i) decode_review c vs) in Hy as (b & Hb); [|done]. by apply (Hrev b).
  - by rewrite Hi, foldl_item_id.
Qed.

Lemma read_bookmarks_storable w i c l b ms : read_bookmarks w i c = Ok (l, b) → Forall (λ s, bookmark_ok (bookmarked s)) (bookmarks_to_store ms l).
Proof.
  unfold read_bookmarks. destruct (read_community_entries _ _ _ _) as [es|] eqn:E; [|done]. cbn [result_bind]. intros [= <- <-].
  apply Forall_forall. intros s Hs. unfold bookmarks_to_store in Hs. apply list_elem_of_fmap in Hs as (x & -> & Hx).
  apply list_elem_of_filter in Hx as [_ Hx]. rewrite merge_sort_Permutation in Hx. apply list_elem_of_omap in Hx as (y & Hy & Hx).
  apply (counted_decoded w (Community.bookmarks_of i) decode_bookmark c es E) in Hy as (bytes & Hb). unfold read_bookmark in Hx.
  destruct (community_key y); try done. injection Hx as <-. cbn. destruct values_keep_their_limits as (_ & _ & _ & Hbm & _). by apply (Hbm bytes).
Qed.

Lemma read_wish_storable w wi c r ms : read_wish w wi c = Ok r → wish_storable (wish_to_store ms r).
Proof.
  unfold read_wish. destruct (read_community_entries w (wish_entries_of wi) decode_wish c) as [es|] eqn:E1; [|done].
  destruct (read_community_entries w (comments_on wi) decode_comment c) as [cs|] eqn:E2; [|done]. cbn [result_bind]. intros [= <-].
  destruct values_keep_their_limits as (_ & _ & Hc & _ & Hw & _ & _ & _ & _ & Hback & _). split; cbn.
  - intros m x Hx%of_members_some. apply (values_decoded w (wish_entries_of wi) decode_wish c es) in Hx as (b & Hb); [|done]. apply Hback; [by apply (Hw b)|].
    unfold decode_wish in Hb. apply checked_some in Hb as (f & Hf & Hn). unfold new_wish in Hn. case_bool_decide; [done|].
    injection Hn as <-. by apply (wish_fields_read b).
  - intros m x Hx. case_decide; [by rewrite lookup_empty in Hx|]. apply of_members_some in Hx.
    apply (values_decoded w (comments_on wi) decode_comment c cs) in Hx as (b & Hb); [|done]. by apply (Hc b).
Qed.

(** ** A row and what it is of *)

(** What the tables show of a row, and what the document says of it. *)
Inductive Shown : Type :=
| ShownItem (s : option StoredItem)
| ShownBookmarks (b : gmap (MemberId * BookmarkId) (Bookmark * N))
| ShownWish (s : StoredWish).

Definition shown (v : View) (r : Row) : Shown :=
  match r with
  | RItem i => ShownItem (v_items v !! i)
  | RBookmarks i => ShownBookmarks (default ∅ (v_bookmarks v !! i))
  | RWish wi => ShownWish (default default_wish (v_wishes v !! wi))
  end.

Definition document_says (ms : gset MemberId) (w : ContentWorld) (c : option Doc) (r : Row) : result SyncError (option Shown) :=
  match r with
  | RItem i => o ←? read_item w i c ;; Ok ((λ x, ShownItem (Some (to_store ms x))) <$> o)
  | RBookmarks i => x ←? read_bookmarks w i c ;; Ok (Some (ShownBookmarks (bookmark_map (bookmarks_to_store ms x.1))))
  | RWish wi => x ←? read_wish w wi c ;; Ok (Some (ShownWish (wish_to_store ms x)))
  end.

Definition agrees (v : View) (ms : gset MemberId) (w : ContentWorld) (c : option Doc) (r : Row) : Prop :=
  ∀ x, document_says ms w c r = Ok (Some x) → shown v r = x.

(** Whether content that is still to come can change what is said. A wish's
    comments count only with an entry. *)
Definition waits (w : ContentWorld) (c : option Doc) (r : Row) : Prop :=
  match r with
  | RItem i => ∃ x, read_item w i c = Ok (Some x) ∧ item_waiting x = true
  | RBookmarks i => ∃ l, read_bookmarks w i c = Ok (l, true)
  | RWish wi => ∃ es cs, read_community_entries w (wish_entries_of wi) decode_wish c = Ok es ∧
      read_community_entries w (comments_on wi) decode_comment c = Ok cs ∧
      (waiting es = true ∨ counted_entries es ≠ [] ∧ waiting cs = true)
  end.
Definition remembered (p : Writer) (r : Row) : Prop :=
  match r with RItem i => i ∈ items_waiting p | RBookmarks i => i ∈ bookmarks_waiting p | RWish wi => wi ∈ wishes_waiting p end.

Definition row_ok (p : Writer) (v : View) (w : ContentWorld) (c : option Doc) (r : Row) : Prop :=
  agrees v (projected_for p) w c r ∧ (waits w c r → remembered p r).

(** Nothing about a row changes when another's key is written, and little
    when content comes. *)
Lemma says_untouched ms w s d d' r : touched s d d' → elsewhere s r →
  document_says ms w (Some d') r = document_says ms w (Some d) r ∧ (waits w (Some d') r ↔ waits w (Some d) r).
Proof.
  intros Ht Hk. destruct r as [i|i|wi]; cbn [document_says waits].
  - by rewrite (read_item_untouched w s d d' i).
  - unfold read_bookmarks. by rewrite (read_entries_untouched w decode_bookmark s d d' (RBookmarks i)) by (done || cbn; set_solver).
  - unfold read_wish. rewrite (read_entries_untouched w decode_wish s d d' (RWish wi)) by (done || cbn; set_solver).
    by rewrite (read_entries_untouched w decode_comment s d d' (RWish wi)) by (done || cbn; set_solver).
Qed.

Lemma row_ok_lands p v h bytes w w' c r : lands h bytes w w' → row_ok p v w c r → ¬ waits w c r → row_ok p v w' c r.
Proof.
  intros Hl [Ha _] Hno. destruct r as [i|i|wi]; cbn [document_says waits] in *; unfold agrees in Ha; cbn [document_says] in Ha.
  - assert (∀ x, read_item w' i c = Ok (Some x) → read_item w i c = Ok (Some x)) as Hback.
    { intros x Hx. destruct (read_item_lands h bytes w w' i c _ Hl Hx) as (o & Ho & Hnone & Heq).
      destruct o as [y|]; [|by destruct (proj1 Hnone eq_refl)]. rewrite Ho. rewrite (Heq y) by (done || by destruct (item_waiting y) eqn:E; [destruct Hno; eauto|]).
      done. }
    split; cbn.
    + intros x Hx. unfold document_says in Hx. destruct (read_item w' i c) as [[y|]|] eqn:E; [|done..]. rewrite (Hback y eq_refl) in Ha. by apply Ha.
    + intros (x & Hx%Hback & Hw). destruct Hno. eauto.
  - assert (∀ x, read_bookmarks w' i c = Ok x → read_bookmarks w i c = Ok x) as Hback.
    { intros x. unfold read_bookmarks in *. destruct (read_community_entries w' _ _ c) as [es'|] eqn:E; [|done].
      destruct (read_entries_land decode_bookmark h bytes w w' _ c es' Hl E) as (es & Hes & Heq). cbn [result_bind]. intros [= <-].
      rewrite Hes in Hno |- *. cbn [result_bind] in *. rewrite Heq; [done|]. destruct (waiting es) eqn:Ew; [|done]. destruct Hno. eauto. }
    split; cbn.
    + intros x Hx. unfold document_says in Hx. destruct (read_bookmarks w' i c) as [y|] eqn:E; [|done]. rewrite (Hback y eq_refl) in Ha. by apply Ha.
    + intros (l & Hx%Hback). destruct Hno. eauto.
  - unfold row_ok, agrees, document_says, waits, read_wish in *.
    destruct (read_community_entries w' (wish_entries_of wi) decode_wish c) as [es'|] eqn:E1; [|split; [done|by intros (? & ? & ? & _)]].
    destruct (read_community_entries w' (comments_on wi) decode_comment c) as [cs'|] eqn:E2; [|split; [done|by intros (? & ? & _ & ? & _)]].
    destruct (read_entries_land decode_wish h bytes w w' _ c es' Hl E1) as (es & Hes & Heq1).
    destruct (read_entries_land decode_comment h bytes w w' _ c cs' Hl E2) as (cs & Hcs & Heq2).
    rewrite Hes, Hcs in *. cbn [result_bind] in *.
    assert (es' = es) as -> by (apply Heq1; destruct (waiting es) eqn:Ew; [|done]; destruct Hno; exists es, cs; auto).
    destruct (decide (counted_entries es = [])) as [Hnil|Hne].
    + split.
      * intros x [= <-]. rewrite (Ha _ eq_refl). f_equal. unfold wish_to_store. cbn. by rewrite Hnil.
      * intros (? & ? & [= <-] & [= <-] & [Hw|[? _]]); [|done]. destruct Hno. exists es, cs. auto.
    + assert (cs' = cs) as -> by (apply Heq2; destruct (waiting cs) eqn:Ew; [|done]; destruct Hno; exists es, cs; auto 6).
      split; [done|]. intros Hw. by destruct Hno.
Qed.

(** ** Projecting a row *)

Definition project_row (w : ContentWorld) (c : option Doc) (meets : Meets) (r : Row) (p : Writer) : Writer :=
  match r with
  | RItem i => (project_item w c meets i p).1.1
  | RBookmarks i => (project_bookmark w c meets i p).1
  | RWish wi => (project_wish w c meets wi p).1
  end.

(** Whether what was read of a row was written. *)
Definition row_done (w : ContentWorld) (c : option Doc) (meets : Meets) (r : Row) (p : Writer) : bool :=
  match r with
  | RItem i =>
      match read_item w i c with
      | Err _ => false
      | Ok None => true
      | Ok (Some x) => is_ok (write "written to" (meets_pool meets) (upsert_item (to_store (projected_for p) x)) (store p)).2
      end
  | RBookmarks i =>
      match read_bookmarks w i c with
      | Err _ => false
      | Ok (l, _) => is_ok (write "given an item's bookmarks" (meets_pool meets) (replace_bookmarks i (bookmarks_to_store (projected_for p) l)) (store p)).2
      end
  | RWish wi =>
      match read_wish w wi c with
      | Err _ => false
      | Ok x => is_ok (write "given a wish" (meets_pool meets) (replace_wish wi (wish_to_store (projected_for p) x)) (store p)).2
      end
  end.

Lemma write_cases {A} doing pool (work : Tables → result SqlError (Tables * A)) t :
  (∃ t' a, work t = Ok (t', a) ∧ write doing pool work t = (t', Ok a)) ∨ ∃ e, write doing pool work t = (t, Err e).
Proof. unfold write. destruct pool as [|why|]; [|right; eauto..]. destruct (work t) as [[t' a]|e]; [left|right]; eauto. Qed.

Lemma remember_spec {A} `{Countable A} b (a x : A) s : x ∈ remember b a s ↔ if decide (x = a) then b = true else x ∈ s.
Proof. unfold remember. destruct b; case_decide; set_solver. Qed.

(** What projecting [r] leaves of the others. *)
Definition others_kept (r : Row) (p p' : Writer) (v v' : View) : Prop :=
  projected_for p' = projected_for p ∧ ∀ r', r' ≠ r → shown v' r' = shown v r' ∧ (remembered p' r' ↔ remembered p r').

Lemma project_item_spec w c meets i p v : represents v (store p) → ∃ v',
  represents v' (store (project_row w c meets (RItem i) p)) ∧ others_kept (RItem i) p (project_row w c meets (RItem i) p) v v' ∧
  (row_done w c meets (RItem i) p = true → row_ok (project_row w c meets (RItem i) p) v' w c (RItem i)).
Proof.
  intros Hr. cbn [project_row row_done]. unfold project_item.
  destruct (read_item w i c) as [[x|]|e] eqn:Ex.
  2-3: exists v; split_and!; [done|by split|intros _; split; [intros y; unfold document_says; by rewrite Ex|cbn; rewrite Ex; by intros (? & ? & _)]].
  set (h := (recheck _ _ _ _ _ _).1). destruct (index_item _ _ _) as [ix indexed]. cbn [projected_for store with_index with_holdings with_items_waiting].
  destruct (read_item_storable w i c x (projected_for p) Ex) as [Hst Hid].
  change (item_id (read_back x) = i) in Hid. destruct (write_cases "written to" (meets_pool meets) (upsert_item (to_store (projected_for p) x)) (store p)) as [(t' & u & Hu & ->)|(e & ->)].
  - destruct (upsert_represents _ v _ _ _ Hr Hst Hu) as [Hr' _]. eexists. split; [exact Hr'|]. split.
    + split; [done|]. intros r Hne. split.
      * destruct r as [j|j|j]; try done. cbn. rewrite Hid, lookup_insert_ne; [done|congruence].
      * destruct r as [j|j|j]; try done. cbn. rewrite remember_spec. case_decide; [congruence|done].
    + intros _. split.
      * intros y. unfold document_says. rewrite Ex. intros [= <-]. cbn. by rewrite Hid, lookup_insert_eq.
      * intros (y & Hy & Hw). cbn. rewrite remember_spec, decide_True by done. congruence.
  - exists v. split; [done|]. split; [|done]. split; [done|]. intros r Hne. split; [done|].
    destruct r as [j|j|j]; try done. cbn. rewrite remember_spec. case_decide; [congruence|done].
Qed.

Lemma project_bookmark_spec w c meets i p v : represents v (store p) → ∃ v',
  represents v' (store (project_row w c meets (RBookmarks i) p)) ∧ others_kept (RBookmarks i) p (project_row w c meets (RBookmarks i) p) v v' ∧
  (row_done w c meets (RBookmarks i) p = true → row_ok (project_row w c meets (RBookmarks i) p) v' w c (RBookmarks i)).
Proof.
  intros Hr. cbn [project_row row_done]. unfold project_bookmark. destruct (read_bookmarks w i c) as [[l b]|e] eqn:Ex; [|by exists v].
  cbn [projected_for store with_bookmarks_waiting]. pose proof (read_bookmarks_storable w i c l b (projected_for p) Ex) as Hst.
  destruct (write_cases "given an item's bookmarks" (meets_pool meets) (replace_bookmarks i (bookmarks_to_store (projected_for p) l)) (store p))
    as [(t' & [] & Hu & ->)|(e & ->)].
  - destruct (replace_bookmarks_represents _ _ v _ _ Hr Hst Hu) as [Hr' _]. eexists. split; [exact Hr'|]. split.
    + split; [done|]. intros r Hne. split.
      * destruct r as [j|j|j]; try done. cbn. rewrite lookup_insert_ne; [done|congruence].
      * destruct r as [j|j|j]; try done. cbn. rewrite remember_spec. case_decide; [congruence|done].
    + intros _. split.
      * intros y. unfold document_says. rewrite Ex. intros [= <-]. cbn. by rewrite lookup_insert_eq.
      * intros (y & Hy). cbn. rewrite remember_spec, decide_True by done. congruence.
  - exists v. split; [done|]. split; [|done]. split; [done|]. intros r Hne. split; [done|].
    destruct r as [j|j|j]; try done. cbn. rewrite remember_spec. case_decide; [congruence|done].
Qed.

Lemma project_wish_spec w c meets wi p v : represents v (store p) → ∃ v',
  represents v' (store (project_row w c meets (RWish wi) p)) ∧ others_kept (RWish wi) p (project_row w c meets (RWish wi) p) v v' ∧
  (row_done w c meets (RWish wi) p = true → row_ok (project_row w c meets (RWish wi) p) v' w c (RWish wi)).
Proof.
  intros Hr. cbn [project_row row_done]. unfold project_wish. destruct (read_wish w wi c) as [x|e] eqn:Ex; [|by exists v].
  cbn [projected_for store with_wishes_waiting]. pose proof (read_wish_storable w wi c x (projected_for p) Ex) as Hst.
  destruct (write_cases "given a wish" (meets_pool meets) (replace_wish wi (wish_to_store (projected_for p) x)) (store p))
    as [(t' & [] & Hu & ->)|(e & ->)].
  - pose proof (replace_wish_represents _ _ v _ _ Hr Hst Hu) as Hr'. eexists. split; [exact Hr'|]. split.
    + split; [done|]. intros r Hne. split.
      * destruct r as [j|j|j]; try done. cbn. rewrite lookup_insert_ne; [done|congruence].
      * destruct r as [j|j|j]; try done. cbn. rewrite remember_spec. case_decide; [congruence|done].
    + intros _. split.
      * intros y. unfold document_says. rewrite Ex. intros [= <-]. cbn. by rewrite lookup_insert_eq.
      * intros (es & cs & He & Hc & Hw). cbn. rewrite remember_spec, decide_True by done.
        unfold read_wish in Ex. rewrite He, Hc in Ex. injection Ex as <-. cbn. destruct Hw as [->|[_ ->]]; [done|by rewrite orb_true_r].
  - exists v. split; [done|]. split; [|done]. split; [done|]. intros r Hne. split; [done|].
    destruct r as [j|j|j]; try done. cbn. rewrite remember_spec. case_decide; [congruence|done].
Qed.

Lemma project_row_spec w c meets r p v : represents v (store p) → ∃ v',
  represents v' (store (project_row w c meets r p)) ∧ others_kept r p (project_row w c meets r p) v v' ∧
  (row_done w c meets r p = true → row_ok (project_row w c meets r p) v' w c r).
Proof. destruct r; [apply project_item_spec|apply project_bookmark_spec|apply project_wish_spec]. Qed.

Lemma row_ok_kept r p p' v v' w c r' : others_kept r p p' v v' → r' ≠ r → row_ok p v w c r' → row_ok p' v' w c r'.
Proof.
  intros [Hp Hk] Hne [Ha Hw]. destruct (Hk r' Hne) as [Hs Hm]. split.
  - intros x Hx. rewrite Hs. apply Ha. by rewrite Hp in Hx.
  - intros ?. by apply Hm, Hw.
Qed.

(** Whom the read model is for matters only to what the document names. *)
Lemma row_ok_members p p' v v' d w r items bookmarked wishes :
  (∀ i, r = RItem i → item_keyed d i) → item_ids (Some d) = Ok items → bookmarked_item_ids (Some d) = Ok bookmarked → wish_ids (Some d) = Ok wishes →
  shown v' r = shown v r → (remembered p r → remembered p' r) →
  (match r with RItem i => i ∉ items | RBookmarks i => i ∉ bookmarked | RWish wi => wi ∉ wishes end) →
  row_ok p v w (Some d) r → row_ok p' v' w (Some d) r.
Proof.
  intros Hk Hi Hb Hw Hs Hm Hno [Ha Hwait]. destruct r as [i|i|wi]; (split; [|by intros ?; apply Hm, Hwait]); intros x; unfold document_says in *.
  - destruct (read_item w i (Some d)) as [[y|]|] eqn:E; [|done..]. destruct Hno. eapply item_is_named; [by apply Hk|done..].
  - unfold agrees, document_says in Ha. unfold read_bookmarks in *.
    destruct (read_community_entries w (Community.bookmarks_of i) decode_bookmark (Some d)) as [es|] eqn:E; [|done]. cbn [result_bind] in *.
    assert (es = MkCommunityEntries [] false) as ->; [|intros [= <-]; rewrite Hs; by apply Ha].
    destruct es as [[|a l] []]; [|done| |]; destruct Hno; by eapply bookmarks_are_named.
  - unfold agrees, document_says in Ha. unfold read_wish in *.
    destruct (read_community_entries w (wish_entries_of wi) decode_wish (Some d)) as [es|] eqn:E; [|done]. cbn [result_bind] in *.
    destruct (read_community_entries w (comments_on wi) decode_comment (Some d)) as [cs|]; [|done]. cbn [result_bind] in *.
    assert (es = MkCommunityEntries [] false) as ->; [|intros [= <-]; rewrite Hs; by apply Ha].
    destruct es as [[|a l] []]; [|done| |]; destruct Hno; by eapply wish_is_named.
Qed.

(** What the tables of an earlier run leave of a row the document no longer
    names. *)
Definition blank (v : View) (r : Row) : Prop :=
  match r with RItem _ => True | RBookmarks _ => shown v r = ShownBookmarks ∅ | RWish _ => shown v r = ShownWish default_wish end.

Lemma row_ok_unnamed p v d w r items bookmarked wishes :
  (∀ i, r = RItem i → item_keyed d i) → item_ids (Some d) = Ok items → bookmarked_item_ids (Some d) = Ok bookmarked → wish_ids (Some d) = Ok wishes →
  blank v r → (match r with RItem i => i ∉ items | RBookmarks i => i ∉ bookmarked | RWish wi => wi ∉ wishes end) →
  row_ok p v w (Some d) r.
Proof.
  intros Hk Hi Hb Hw Hs Hno. destruct r as [i|i|wi]; cbn in Hs.
  - assert (∀ x, read_item w i (Some d) ≠ Ok (Some x)) as Hnone by (intros x Hx; destruct Hno; eapply item_is_named; [by apply Hk|done..]).
    split; [|intros (x & Hx & _); by destruct (Hnone x)]. intros x. unfold document_says.
    destruct (read_item w i (Some d)) as [[y|]|]; [by destruct (Hnone y)|done..].
  - unfold row_ok, agrees, document_says, waits, read_bookmarks. destruct (read_community_entries w _ decode_bookmark _) as [es|] eqn:E;
      [|split; [done|by intros (? & ?)]]. cbn [result_bind].
    assert (es = MkCommunityEntries [] false) as -> by (destruct es as [[|a l] []]; [|done| |]; destruct Hno; by eapply bookmarks_are_named).
    split; [by intros x [= <-]|by intros (? & ?)].
  - unfold row_ok, agrees, document_says, waits, read_wish. destruct (read_community_entries w _ decode_wish _) as [es|] eqn:E;
      [|split; [done|by intros (? & ? & ? & _)]]. cbn [result_bind].
    assert (es = MkCommunityEntries [] false) as -> by (destruct es as [[|a l] []]; [|done| |]; destruct Hno; by eapply wish_is_named).
    destruct (read_community_entries w (comments_on wi) decode_comment _) as [cs|]; [|split; [done|by intros (? & ? & _ & ? & _)]].
    split; [by intros x [= <-]|]. intros (? & ? & [= <-] & _ & [?|[? _]]); done.
Qed.

(** ** The projection among the others *)

(** What an event of a key has marked. *)
Definition row_noted (key : string) : option Row :=
  match parse_key key with
  | Some k => Some (RItem (key_item k))
  | None => k ← parse_community key; row_of_key (inr k)
  end.

(** [missed] is what the last attempt at failed, as it logs; [lost] whether a
    replay could not ask the document what there is; [strange] the rows under
    which there has been a key this build does not read. *)
Record Node : Type := MkNode {
  the_doc : option Doc;
  contents : ContentWorld;
  log_says : MembershipState;
  log_moved : bool;
  on_the_way : list LiveEvent;
  the_pump : Pump;
  the_task : Task;
  missed : list Row;
  lost : bool;
  strange : list Row;
}.

Definition head_row (pass : Pass) : option Row :=
  match left_items pass, left_bookmarks pass, left_wishes pass with
  | i :: _, _, _ => Some (RItem i)
  | [], i :: _, _ => Some (RBookmarks i)
  | [], [], wi :: _ => Some (RWish wi)
  | [], [], [] => None
  end.
Definition todo (pass : Pass) : list Row :=
  (RItem <$> left_items pass) ++ (RBookmarks <$> left_bookmarks pass) ++ (RWish <$> left_wishes pass).
Definition rows_left (t : Task) : list Row := match phase t with Within pass => todo pass | _ => [] end.

Definition can_list (c : option Doc) : bool := is_ok (item_ids c) && is_ok (bookmarked_item_ids c) && is_ok (wish_ids c).

(** The arms of the task's [select!], in the phases that wait for them. *)
Definition may_wake (n : Node) (woken : Woken) : Prop :=
  match phase (the_task n), woken with
  | NotReady, Ready m watches => is_Some (the_doc n) ∧ m = log_says n ∧ watches = true
  | Between, TakeBatch b => b = Some (pending (the_pump n))
  | Between, MembersMoved m => log_moved n = true ∧ m = Some (log_says n)
  | Between, ReindexAsked | Within _, GoesOn => True
  | _, _ => False
  end.

Definition after_turn (n : Node) (meets : Meets) (committed : Told * Told) (woken : Woken) : Node :=
  MkNode (the_doc n) (contents n) (log_says n)
    (match woken with Ready _ _ | MembersMoved _ => false | _ => log_moved n end) (on_the_way n)
    (match woken with TakeBatch _ => set_batch default_batch false (the_pump n) | _ => the_pump n end)
    (run_turn (contents n) (the_doc n) meets committed woken (the_task n))
    (match phase (the_task n) with
     | Within pass =>
         match head_row pass with
         | Some r => if row_done (contents n) (the_doc n) meets r (read_model (the_task n)) then filter (λ x, x ≠ r) (missed n) else r :: missed n
         | None => missed n
         end
     | _ => missed n
     end)
    (match woken with Ready _ _ | MembersMoved _ | ReindexAsked => lost n || negb (can_list (the_doc n)) | _ => lost n end) (strange n).

Inductive node_step (n : Node) : Node → Prop :=
| KeyWritten d d' key rows : the_doc n = Some d → touched key d d' →
    (∀ r p, p ∈ prefixes r → begins p key → row_noted key = Some r ∨ r ∈ rows) →
    (∀ i, RItem i ∉ rows ++ strange n → item_keyed d' i) →
    node_step n (MkNode (Some d') (contents n) (log_says n) (log_moved n) (on_the_way n ++ [InsertRemote key])
                   (the_pump n) (the_task n) (missed n) (lost n) (rows ++ strange n))
| DocOpened d rows : phase (the_task n) = NotReady → (∀ i, RItem i ∉ rows ++ strange n → item_keyed d i) →
    node_step n (MkNode (Some d) (contents n) (log_says n) (log_moved n) (on_the_way n) (the_pump n) (the_task n) (missed n) (lost n)
                   (rows ++ strange n))
| ContentLanded h bytes w' : lands h bytes (contents n) w' →
    node_step n (MkNode (the_doc n) w' (log_says n) (log_moved n) (on_the_way n ++ [ContentReady]) (the_pump n) (the_task n) (missed n) (lost n) (strange n))
| Pumped e rest : on_the_way n = e :: rest →
    node_step n (MkNode (the_doc n) (contents n) (log_says n) (log_moved n) rest (note_event e (the_pump n)).1.1 (the_task n) (missed n) (lost n) (strange n))
| LogMoved m :
    node_step n (MkNode (the_doc n) (contents n) m true (on_the_way n) (the_pump n) (the_task n) (missed n) (lost n) (strange n))
| TaskTurns meets committed woken : may_wake n woken → node_step n (after_turn n meets committed woken).

Definition marked (b : Batch) (r : Row) : Prop :=
  match r with RItem i => i ∈ batch_items b | RBookmarks i => i ∈ items_with_changed_bookmarks b | RWish wi => wi ∈ changed_wishes b end.
Definition nudged (n : Node) : Prop := content_arrived (pending (the_pump n)) = true ∨ ContentReady ∈ on_the_way n.
Definition keyed (n : Node) (r : Row) : Prop := ∃ key, InsertRemote key ∈ on_the_way n ∧ row_noted key = Some r.

(** A row is as the document says, or something still to come sees to it. *)
Definition seen_to (n : Node) (v : View) (r : Row) : Prop :=
  row_ok (read_model (the_task n)) v (contents n) (the_doc n) r ∨ r ∈ rows_left (the_task n) ∨ marked (pending (the_pump n)) r ∨
  keyed n r ∨ (remembered (read_model (the_task n)) r ∧ nudged n) ∨ r ∈ missed n.

Definition member_set (m : MembershipState) : gset MemberId := list_to_set (stored_member <$> members_seen m).

Definition in_step (n : Node) : Prop := ∃ v,
  represents v (store (read_model (the_task n))) ∧ (∀ d i, the_doc n = Some d → RItem i ∉ strange n → item_keyed d i) ∧
  phase (the_task n) ≠ StoppedTask ∧
  (phase (the_task n) = NotReady → ∀ r, blank v r ∨ r ∈ missed n) ∧
  (phase (the_task n) ≠ NotReady → is_Some (the_doc n) ∧
     (log_moved n = true ∨ projected_for (read_model (the_task n)) = member_set (log_says n)) ∧
     (lost n = false → ∀ r, r ∉ strange n → seen_to n v r)).

(** *** Each of the others' steps *)

#[export] Instance waits_dec w c r : Decision (waits w c r).
Proof.
  destruct r as [i|i|wi]; cbn.
  - destruct (read_item w i c) as [[x|]|]; [|right; by intros (? & ? & _)..].
    destruct (item_waiting x) eqn:E; [left; eauto|right; intros (? & [= <-] & ?); congruence].
  - destruct (read_bookmarks w i c) as [[l []]|]; [left; eauto|right; by intros (? & ?)..].
  - destruct (read_community_entries w (wish_entries_of wi) decode_wish c) as [es|]; [|right; by intros (? & ? & ? & _)].
    destruct (read_community_entries w (comments_on wi) decode_comment c) as [cs|]; [|right; by intros (? & ? & _ & ? & _)].
    destruct (waiting es) eqn:Ee; [left; eauto 7|]. destruct (waiting cs) eqn:Ec.
    + destruct (counted_entries es) as [|a l] eqn:El; [right|left; exists es, cs; rewrite El; auto 7].
      intros (? & ? & [= <-] & [= <-] & [?|[? _]]); congruence.
    + right. intros (? & ? & [= <-] & [= <-] & [?|[_ ?]]); congruence.
Defined.

Lemma parse_key_of_community k : parse_key (encode_community k) = None.
Proof.
  unfold parse_key. rewrite encode_community_parts, utf8_joined by apply community_parts_plain. cbn [mbind option_bind].
  rewrite split_joined by (apply community_parts_plain || apply community_parts_cons). by destruct k.
Qed.

Lemma row_noted_key k : row_noted (encode_any k) = row_of_key k.
Proof.
  unfold row_noted. destruct k as [k|k]; cbn [encode_any]; [by rewrite parse_encode_key|].
  by rewrite parse_key_of_community, parse_encode_community.
Qed.

(** A key this build writes is not strange to it. *)
Lemma known_key_written n d d' k : the_doc n = Some d → touched (encode_any k) d d' → (∀ i, RItem i ∉ strange n → item_keyed d' i) →
  node_step n (MkNode (Some d') (contents n) (log_says n) (log_moved n) (on_the_way n ++ [InsertRemote (encode_any k)])
                 (the_pump n) (the_task n) (missed n) (lost n) (strange n)).
Proof.
  intros Hd Ht Hk. apply (KeyWritten n d d' (encode_any k) []); [done|done| |done].
  intros r p Hp Hb. left. rewrite row_noted_key. by eapply prefix_of_row.
Qed.

Lemma note_key_marks key b r : row_noted key = Some r → marked (note_key key b).1.1 r.
Proof.
  unfold row_noted, note_key. destruct (parse_key key) as [k|].
  - intros [= <-]. cbn. set_solver.
  - destruct (parse_community key) as [k|]; [|done]. cbn [mbind option_bind].
    destruct k; intros Hk; try discriminate Hk; injection Hk as <-; cbn; set_solver.
Qed.

Lemma note_key_keeps key b : (∀ r, marked b r → marked (note_key key b).1.1 r) ∧ content_arrived (note_key key b).1.1 = content_arrived b.
Proof.
  unfold note_key. destruct (parse_key key) as [k|]; [|destruct (parse_community key) as [[]|]]; cbn;
    (split; [intros []; cbn; set_solver|done]).
Qed.

Lemma note_event_keeps e p r :
  (marked (pending p) r → marked (pending (note_event e p).1.1) r) ∧
  (content_arrived (pending p) = true → content_arrived (pending (note_event e p).1.1) = true).
Proof.
  destruct e as [key|key| | |m t|m|m s f ok]; cbn; try done.
  - destruct (note_key_keeps key (pending p)) as [Hm Hc]. destruct (note_key key (pending p)) as [[b x] y] eqn:E. cbn in *. split; [apply Hm|by rewrite Hc].
  - destruct (note_key_keeps key (pending p)) as [Hm Hc]. destruct (note_key key (pending p)) as [[b x] y] eqn:E. cbn in *. split; [apply Hm|by rewrite Hc].
Qed.

Lemma key_written_ok n d d' key rows : the_doc n = Some d → touched key d d' →
  (∀ r p, p ∈ prefixes r → begins p key → row_noted key = Some r ∨ r ∈ rows) →
  (∀ i, RItem i ∉ rows ++ strange n → item_keyed d' i) → in_step n →
  in_step (MkNode (Some d') (contents n) (log_says n) (log_moved n) (on_the_way n ++ [InsertRemote key])
             (the_pump n) (the_task n) (missed n) (lost n) (rows ++ strange n)).
Proof.
  intros Hd Ht Hrows Hk (v & Hr & _ & Hph & Hno & Hyes). exists v. cbn. split_and!; [done|by intros ? i [= <-]; apply Hk|done|done|].
  intros Hp. destruct (Hyes Hp) as (_ & Hm & Hall). split_and!; [by eexists|done|]. intros Hlost r [Hn1 Hn2]%not_elem_of_app.
  destruct (decide (row_noted key = Some r)) as [Hrow|Hrow].
  - do 3 right. left. exists key. split; [cbn; set_solver|done].
  - assert (elsewhere key r) as Helse by (intros p Hpr Hb; by destruct (Hrows r p Hpr Hb)).
    destruct (Hall Hlost r Hn2) as [[Ha Hw]|[?|[?|[(k' & Hin & ?)|[[? Hn]|?]]]]].
    + left. cbn. rewrite Hd in Ha, Hw. destruct (says_untouched (projected_for (read_model (the_task n))) (contents n) key d d' r Ht Helse) as [Hs Hw'].
      split; [intros x; rewrite Hs; apply Ha|rewrite Hw'; apply Hw].
    + right. by left.
    + do 2 right. by left.
    + do 3 right. left. exists k'. split; [cbn; set_solver|done].
    + do 4 right. left. split; [done|]. destruct Hn; [by left|right; cbn; set_solver].
    + do 5 right. done.
Qed.

Lemma content_landed_ok n h bytes w' : lands h bytes (contents n) w' → in_step n →
  in_step (MkNode (the_doc n) w' (log_says n) (log_moved n) (on_the_way n ++ [ContentReady]) (the_pump n) (the_task n) (missed n) (lost n) (strange n)).
Proof.
  intros Hl (v & Hr & Hk & Hph & Hno & Hyes). exists v. cbn. split_and!; try done.
  intros Hp. destruct (Hyes Hp) as (Hd & Hm & Hall). split_and!; [done|done|]. intros Hlost r Hodd.
  destruct (Hall Hlost r Hodd) as [Hok|[?|[?|[(k' & Hin & ?)|[[? Hn]|?]]]]].
  - destruct (decide (waits (contents n) (the_doc n) r)) as [Hw|Hw].
    + do 4 right. left. split; [by apply Hok|right; cbn; set_solver].
    + left. by eapply row_ok_lands.
  - right. by left.
  - do 2 right. by left.
  - do 3 right. left. exists k'. split; [cbn; set_solver|done].
  - do 4 right. left. split; [done|right; cbn; set_solver].
  - do 5 right. done.
Qed.

Lemma pumped_ok n e rest : on_the_way n = e :: rest → in_step n →
  in_step (MkNode (the_doc n) (contents n) (log_says n) (log_moved n) rest (note_event e (the_pump n)).1.1 (the_task n) (missed n) (lost n) (strange n)).
Proof.
  intros He (v & Hr & Hk & Hph & Hno & Hyes). exists v. cbn. split_and!; try done.
  intros Hp. destruct (Hyes Hp) as (Hd & Hm & Hall). split_and!; [done|done|]. intros Hlost r Hodd.
  destruct (note_event_keeps e (the_pump n) r) as [Hmark Hland].
  destruct (Hall Hlost r Hodd) as [?|[?|[?|[(k' & Hin & Hrow)|[[? Hn]|?]]]]].
  - by left.
  - right. by left.
  - do 2 right. left. by apply Hmark.
  - rewrite He in Hin. apply elem_of_cons in Hin as [<-|Hin].
    + do 2 right. left. cbn. pose proof (note_key_marks k' (pending (the_pump n)) r Hrow) as Hmk.
      by destruct (note_key k' (pending (the_pump n))) as [[b x] y].
    + do 3 right. left. by exists k'.
  - do 4 right. left. split; [done|]. destruct Hn as [Hn|Hn]; [left; by apply Hland|].
    rewrite He in Hn. apply elem_of_cons in Hn as [<-|Hn]; [by left|by right].
  - do 5 right. done.
Qed.

(** *** Each turn of the task *)

Lemma project_members_spec pool m s v : represents v s → ∃ v', represents v' (project_members pool m s).1 ∧
  (∀ r, shown v' r = shown v r) ∧ (project_members pool m s).2 = member_set m.
Proof.
  intros Hr. unfold project_members. cbn [fst snd].
  destruct (write_cases "given the group's members" pool (set_members (members_seen m)) s) as [(t' & [] & Hm & ->)|(e & ->)].
  - destruct (set_members_represents _ v _ _ Hr Hm) as [Hr' _]. eexists. split_and!; [exact Hr'|by intros []|done].
  - by exists v.
Qed.

Definition named_in (items bookmarked : gset ItemId) (wishes : gset WishId) (r : Row) : Prop :=
  match r with RItem i => i ∈ items | RBookmarks i => i ∈ bookmarked | RWish wi => wi ∈ wishes end.

Lemma elem_of_set_entries {A} `{Countable A, OrdKey A} (s : gset A) a : a ∈ set_entries s ↔ a ∈ s.
Proof. unfold set_entries. by rewrite elem_of_sort_keys, elem_of_elements. Qed.

Lemma begun_rows items bookmarked wishes replaying t r : r ∈ rows_left (begin_pass items bookmarked wishes replaying t) ↔ named_in items bookmarked wishes r.
Proof.
  unfold rows_left, todo, begin_pass. cbn. rewrite !elem_of_app, !list_elem_of_fmap. destruct r as [i|i|wi]; cbn; setoid_rewrite elem_of_set_entries.
  - split; [intros [(? & [= <-] & ?)|[(? & ? & _)|(? & ? & _)]]; done|]. intros ?. left. eauto.
  - split; [intros [(? & ? & _)|[(? & [= <-] & ?)|(? & ? & _)]]; done|]. intros ?. right. left. eauto.
  - split; [intros [(? & ? & _)|[(? & ? & _)|(? & [= <-] & ?)]]; done|]. intros ?. right. right. eauto.
Qed.

Lemma begin_replay_cases c t : read_model (begin_replay c t) = read_model t ∧ phase (begin_replay c t) ≠ StoppedTask ∧ phase (begin_replay c t) ≠ NotReady ∧
  (can_list c = true → ∃ items bookmarked wishes, item_ids c = Ok items ∧ bookmarked_item_ids c = Ok bookmarked ∧ wish_ids c = Ok wishes ∧
     ∀ r, r ∈ rows_left (begin_replay c t) ↔ named_in items bookmarked wishes r).
Proof.
  unfold begin_replay, can_list.
  destruct (item_ids c) as [items|]; [|by split_and!]. destruct (bookmarked_item_ids c) as [bookmarked|]; [|by split_and!].
  destruct (wish_ids c) as [wishes|]; [|by split_and!]. split_and!; [done|done|done|]. intros _. exists items, bookmarked, wishes.
  split_and!; [done..|]. intros r. apply begun_rows.
Qed.

#[export] Instance named_in_dec items bookmarked wishes r : Decision (named_in items bookmarked wishes r).
Proof. destruct r; cbn; apply _. Defined.

Lemma ready_ok n meets committed : phase (the_task n) = NotReady → is_Some (the_doc n) → in_step n →
  in_step (after_turn n meets committed (Ready (log_says n) true)).
Proof.
  intros Hp [d Hd] (v & Hr & Hk & _ & Hno & _). unfold after_turn. rewrite Hp. unfold run_turn. rewrite Hp.
  destruct (project_members_spec (meets_pool meets) (log_says n) (store (read_model (the_task n))) v Hr) as (v' & Hr' & Hs & Hms).
  destruct (project_members _ _ _) as [s ms]. cbn in Hr', Hms. set (t := MkTask Between _ _).
  destruct (begin_replay_cases (the_doc n) t) as (Hrm & Hns & Hnr & Hlist). exists v'. cbn. rewrite Hrm. split_and!; [done|done|done|done|].
  intros _. split_and!; [by exists d|by right|]. intros [_ Hcan%negb_false_iff]%orb_false_iff r Hodd.
  destruct (Hlist Hcan) as (items & bookmarked & wishes & Hi & Hb & Hw & Hrows). unfold seen_to. cbn. rewrite Hrm, Hrows.
  destruct (decide (named_in items bookmarked wishes r)) as [|Hnamed]; [right; by left|].
  destruct (Hno Hp r) as [Hblank|?]; [|by do 5 right]. left. rewrite Hd in *.
  eapply row_ok_unnamed; [by intros i ->; apply Hk|done..| |by destruct r]. destruct r; cbn -[shown] in *; by rewrite ?Hs.
Qed.

Lemma replay_ok n meets committed woken t' v v' :
  (∀ r, shown v' r = shown v r) → represents v' (store (read_model t')) →
  items_waiting (read_model t') = items_waiting (read_model (the_task n)) →
  bookmarks_waiting (read_model t') = bookmarks_waiting (read_model (the_task n)) →
  wishes_waiting (read_model t') = wishes_waiting (read_model (the_task n)) →
  (∀ d i, the_doc n = Some d → RItem i ∉ strange n → item_keyed d i) → is_Some (the_doc n) → can_list (the_doc n) = true →
  phase (the_task n) = Between → (∀ r, r ∉ strange n → seen_to n v r) →
  run_turn (contents n) (the_doc n) meets committed woken (the_task n) = begin_replay (the_doc n) t' →
  (∀ b, woken ≠ TakeBatch b) →
  ∀ r, r ∉ strange n → seen_to (after_turn n meets committed woken) v' r.
Proof.
  intros Hs Hr Hw1 Hw2 Hw3 Hk [d Hd] Hcan Hp Hall Hturn Hwoken r Hodd. unfold seen_to, keyed, nudged, after_turn. rewrite Hturn, Hp. cbn.
  destruct (begin_replay_cases (the_doc n) t') as (Hrm & _ & _ & Hlist). rewrite Hrm.
  destruct (Hlist Hcan) as (items & bookmarked & wishes & Hi & Hb & Hw & Hrows). rewrite Hrows.
  destruct (decide (named_in items bookmarked wishes r)) as [|Hnamed]; [right; by left|].
  assert (match woken with TakeBatch _ => set_batch default_batch false (the_pump n) | _ => the_pump n end = the_pump n) as ->
    by (destruct woken; [done|by destruct (Hwoken b)|done..]).
  assert (remembered (read_model (the_task n)) r → remembered (read_model t') r) as Hrem by (destruct r; cbn; by rewrite ?Hw1, ?Hw2, ?Hw3).
  destruct (Hall r Hodd) as [Hok|[Hleft|[?|[?|[[? ?]|?]]]]].
  - left. rewrite Hd in *. eapply row_ok_members; [by intros i ->; apply Hk|done..|apply Hs|done| |done]. by destruct r.
  - unfold rows_left in Hleft. rewrite Hp in Hleft. by apply elem_of_nil in Hleft.
  - do 2 right. by left.
  - do 3 right. by left.
  - do 4 right. left. split; [by apply Hrem|done].
  - by do 5 right.
Qed.

Lemma members_moved_ok n meets committed : phase (the_task n) = Between → in_step n →
  in_step (after_turn n meets committed (MembersMoved (Some (log_says n)))).
Proof.
  intros Hp (v & Hr & Hk & _ & _ & Hyes). destruct (Hyes ltac:(by rewrite Hp)) as (Hd & _ & Hall).
  destruct (project_members_spec (meets_pool meets) (log_says n) (store (read_model (the_task n))) v Hr) as (v' & Hr' & Hs & Hms).
  exists v'. set (turned := run_turn (contents n) (the_doc n) meets committed (MembersMoved (Some (log_says n))) (the_task n)).
  assert (turned = turned) as Ht by done. unfold turned at 2, run_turn in Ht. rewrite Hp in Ht.
  destruct (project_members _ _ _) as [s ms] eqn:Epm. cbn in Hr', Hms. cbn [projected_for with_store] in Ht.
  unfold after_turn. fold turned. rewrite Hp. cbn [the_doc contents log_says log_moved on_the_way the_pump the_task missed lost strange].
  case_bool_decide as Hsame.
  - rewrite Ht. split_and!; try done. intros _. split_and!; [done|by right; cbn; rewrite <-Hsame|]. intros [Hlost _]%orb_false_iff r Hodd.
    destruct (Hall Hlost r Hodd) as [[Ha Hw]|[Hleft|[?|[?|[?|?]]]]].
    + left. cbn. split; [intros x; rewrite Hs; apply Ha|done].
    + unfold rows_left in Hleft. rewrite Hp in Hleft. by apply elem_of_nil in Hleft.
    + do 2 right. by left.
    + do 3 right. by left.
    + do 4 right. by left.
    + by do 5 right.
  - destruct (begin_replay_cases (the_doc n) (MkTask Between (with_members ms (with_store s (read_model (the_task n)))) (published (the_task n))))
      as (Hrm & Hns & Hnr & _). rewrite <-Ht in Hrm, Hns, Hnr. rewrite Hrm. split_and!; [done|done|done|done|].
    intros _. split_and!; [done|by right|]. intros [Hlost Hcan%negb_false_iff]%orb_false_iff r Hodd.
    pose proof (replay_ok n meets committed (MembersMoved (Some (log_says n)))
      (MkTask Between (with_members ms (with_store s (read_model (the_task n)))) (published (the_task n))) v v' Hs Hr' eq_refl eq_refl eq_refl Hk Hd Hcan Hp (Hall Hlost) Ht ltac:(done) r Hodd) as Hseen.
    unfold after_turn in Hseen. rewrite Hp in Hseen. exact Hseen.
Qed.

Lemma reindex_ok n meets committed : phase (the_task n) = Between → in_step n → in_step (after_turn n meets committed ReindexAsked).
Proof.
  intros Hp (v & Hr & Hk & _ & _ & Hyes). destruct (Hyes ltac:(by rewrite Hp)) as (Hd & Hm & Hall). exists v.
  assert (run_turn (contents n) (the_doc n) meets committed ReindexAsked (the_task n) = begin_replay (the_doc n) (the_task n)) as Ht
    by (unfold run_turn; by rewrite Hp).
  destruct (begin_replay_cases (the_doc n) (the_task n)) as (Hrm & Hns & Hnr & _). unfold after_turn. rewrite Ht.
  cbn [the_doc contents log_says log_moved on_the_way the_pump the_task missed lost strange]. rewrite Hrm.
  split_and!; [done|done|done|done|]. intros _. split_and!; [done|done|]. intros [Hlost Hcan%negb_false_iff]%orb_false_iff r Hodd.
  pose proof (replay_ok n meets committed ReindexAsked (the_task n) v v ltac:(done) Hr eq_refl eq_refl eq_refl Hk Hd Hcan Hp (Hall Hlost) Ht ltac:(done) r Hodd) as Hseen.
  unfold after_turn in Hseen. rewrite Ht in Hseen. exact Hseen.
Qed.

Lemma take_batch_ok n meets committed : phase (the_task n) = Between → in_step n →
  in_step (after_turn n meets committed (TakeBatch (Some (pending (the_pump n))))).
Proof.
  intros Hp (v & Hr & Hk & _ & _ & Hyes). destruct (Hyes ltac:(by rewrite Hp)) as (Hd & Hm & Hall). exists v.
  unfold after_turn. rewrite Hp. unfold run_turn. rewrite Hp. cbn [the_doc contents log_says log_moved on_the_way the_pump the_task missed lost strange].
  set (b := pending (the_pump n)) in *. split_and!; [done|done|done|done|]. intros _. split_and!; [done|done|]. intros Hlost r Hodd.
  unfold seen_to, keyed, nudged. cbn [the_doc contents log_says log_moved on_the_way the_pump the_task missed lost strange]. rewrite begun_rows.
  destruct (Hall Hlost r Hodd) as [?|[Hleft|[Hmark|[?|[[Hrem [Hn|Hn]]|?]]]]].
  - by left.
  - unfold rows_left in Hleft. rewrite Hp in Hleft. by apply elem_of_nil in Hleft.
  - right. left. destruct r; cbn in *; destruct (content_arrived b); set_solver.
  - do 3 right. by left.
  - right. left. fold b in Hn. destruct r; cbn in *; rewrite Hn; set_solver.
  - do 4 right. left. split; [done|by right].
  - by do 5 right.
Qed.

Definition same_but_index (p q : Writer) : Prop :=
  store p = store q ∧ projected_for p = projected_for q ∧ ∀ r, remembered p r ↔ remembered q r.

Lemma pass_turn_row w c meets committed pass t r : head_row pass = Some r → ∃ pass' p,
  pass_turn w c meets committed pass t = MkTask (Within pass') p (published t) ∧ todo pass = r :: todo pass' ∧
  same_but_index p (project_row w c meets r (read_model t)).
Proof.
  unfold head_row, pass_turn, todo. destruct (left_items pass) as [|i rest] eqn:E1; [destruct (left_bookmarks pass) as [|i rest] eqn:E2; [destruct (left_wishes pass) as [|wi ws] eqn:E3|]|].
  - done.
  - intros [= <-]. cbn [project_row]. destruct (project_wish w c meets wi (read_model t)) as [p ev]. eexists _, _. split; [done|]. split; [done|]. by split_and!.
  - intros [= <-]. cbn [project_row]. destruct (project_bookmark w c meets i (read_model t)) as [p ev]. eexists _, _. split; [done|]. split; [done|]. by split_and!.
  - intros [= <-]. cbn [project_row]. destruct (project_item w c meets i (read_model t)) as [[p ix] ev]. eexists _, _. split; [done|]. split; [done|].
    cbn [fst]. destruct (bool_decide (rest = []) && (any_indexed pass || ix)); split_and!; try done; by intros [].
Qed.

Lemma goes_on_ok n meets committed pass : phase (the_task n) = Within pass → in_step n → in_step (after_turn n meets committed GoesOn).
Proof.
  intros Hp (v & Hr & Hk & _ & _ & Hyes). destruct (Hyes ltac:(by rewrite Hp)) as (Hd & Hm & Hall).
  unfold after_turn. rewrite Hp. unfold run_turn. rewrite Hp. destruct (head_row pass) as [r|] eqn:Eh.
  - destruct (pass_turn_row (contents n) (the_doc n) meets committed pass (the_task n) r Eh) as (pass' & p & -> & Htodo & Hst & Hpf & Hrem).
    destruct (project_row_spec (contents n) (the_doc n) meets r (read_model (the_task n)) v Hr) as (v' & Hr' & [Hpf' Hothers] & Hdone).
    exists v'. cbn. rewrite Hst, Hpf, Hpf'. split_and!; [done|done|done|done|]. intros _. split_and!; [done|done|]. intros Hlost r' Hodd.
    unfold seen_to, keyed, nudged. cbn.
    assert (∀ r0, row_ok (project_row (contents n) (the_doc n) meets r (read_model (the_task n))) v' (contents n) (the_doc n) r0 →
      row_ok p v' (contents n) (the_doc n) r0) as Hokp by (intros r0 [Ha Hw]; split; [by rewrite Hpf|intros ?; by apply Hrem, Hw]).
    destruct (decide (r' = r)) as [->|Hne].
    + destruct (row_done _ _ _ _ _); [left; by apply Hokp, Hdone|]. do 5 right. by left.
    + destruct (Hothers r' Hne) as [_ Hrm]. destruct (Hall Hlost r' Hodd) as [Hok|[Hleft|[?|[?|[[? ?]|Hmiss]]]]].
      * left. apply Hokp. by eapply row_ok_kept.
      * right. left. unfold rows_left in Hleft. rewrite Hp, Htodo in Hleft. by apply elem_of_cons in Hleft as [?|?].
      * do 2 right. by left.
      * do 3 right. by left.
      * do 4 right. left. split; [by apply Hrem, Hrm|done].
      * do 5 right. destruct (row_done _ _ _ _ _); [by apply list_elem_of_filter|by right].
  - exists v. assert (todo pass = [] ∧ pass_turn (contents n) (the_doc n) meets committed pass (the_task n) = end_pass pass (the_task n)) as [Htodo ->].
    { unfold head_row, todo, pass_turn in *. by destruct (left_items pass), (left_bookmarks pass), (left_wishes pass). }
    assert (∃ p, read_model (end_pass pass (the_task n)) = p ∧ same_but_index p (read_model (the_task n)) ∧ phase (end_pass pass (the_task n)) = Between)
      as (p & Hrm & (Hst & Hpf & Hrem) & Hph) by (unfold end_pass; destruct (is_replay pass); eexists; split_and!; try done; by intros []).
    cbn. rewrite Hrm, Hst, Hpf, Hph. split_and!; [done|done|done|done|]. intros _. split_and!; [done|done|]. intros Hlost r Hodd.
    unfold seen_to, keyed, nudged, rows_left. cbn. rewrite Hrm, Hph. destruct (Hall Hlost r Hodd) as [[Ha Hw]|[Hleft|[?|[?|[[? ?]|?]]]]].
    + left. split; [by rewrite Hpf|intros ?; by apply Hrem, Hw].
    + unfold rows_left in Hleft. rewrite Hp, Htodo in Hleft. by apply elem_of_nil in Hleft.
    + do 2 right. by left.
    + do 3 right. by left.
    + do 4 right. left. split; [by apply Hrem|done].
    + by do 5 right.
Qed.

Lemma node_step_ok n n' : node_step n n' → in_step n → in_step n'.
Proof.
  intros Hs Hok. destruct Hs as [d d' key rows Hd Ht Hrows Hk|d rows Hp Hk|h bytes w' Hl|e rest He|m|meets committed woken Hw].
  - by eapply key_written_ok.
  - destruct Hok as (v & Hr & _ & Hst & Hno & _). exists v. cbn. split_and!; [done|by intros ? i [= <-]; apply Hk|done|done|]. by intros ?.
  - by eapply content_landed_ok.
  - by apply pumped_ok.
  - destruct Hok as (v & Hr & Hk & Hst & Hno & Hyes). exists v. cbn. split_and!; [done..|]. intros Hp.
    destruct (Hyes Hp) as (Hd & _ & Hall). split_and!; [done|by left|done].
  - unfold may_wake in Hw. destruct (phase (the_task n)) as [| |pass|] eqn:Ep, woken as [m watches|b|m| |]; try done.
    + destruct Hw as (? & -> & ->). by apply ready_ok.
    + rewrite Hw. by apply take_batch_ok.
    + destruct Hw as [_ ->]. by apply members_moved_ok.
    + by apply reindex_ok.
    + by eapply goes_on_ok.
Qed.

Lemma node_run_ok n n' : rtc node_step n n' → in_step n → in_step n'.
Proof. induction 1 as [|a b z Hs _ IH]; [done|]. intros Ha. apply IH. by eapply node_step_ok. Qed.

(** Nothing is on its way, and the task has nothing to do. *)
Definition quiet (n : Node) : Prop :=
  phase (the_task n) = Between ∧ on_the_way n = [] ∧ batch_is_empty (pending (the_pump n)) = true ∧ log_moved n = false.

(** A node as it starts, over tables an earlier run may have left. *)
Definition started (s : Tables) (x : SearchIndex) (h : HeldSet) (c : option Doc) (w : ContentWorld) (m : MembershipState) (left_behind unread : list Row) : Node :=
  MkNode c w m false [] feed (start s x h) left_behind false unread.

Lemma bookmark_map_back (b : gmap (MemberId * BookmarkId) (Bookmark * N)) l : l ≡ₚ listed_bookmark <$> map_to_list b → bookmark_map l = b.
Proof.
  intros Hl. unfold bookmark_map.
  assert ((λ b, ((bookmark_of b, bookmark_named b), (bookmarked b, bookmark_last_modified b))) <$> l ≡ₚ map_to_list b) as Hp.
  { rewrite Hl, <-list_fmap_compose, (list_fmap_ext _ id), list_fmap_id; [done|]. by intros _ [[? ?] [? ?]] _. }
  rewrite <-(list_to_map_to_list b). apply list_to_map_proper; [|done]. rewrite Hp. apply NoDup_fst_map_to_list.
Qed.


(** A key this build does not read makes an item, and counts for when it was
    last changed, when the item is read; but it tells the projection nothing. *)
Theorem unread_keys_count_unnoted w acc e b :
  parse_key (entry_key e) = None → parse_community (entry_key e) = None →
  note_key (entry_key e) b = (b, false, false) ∧
  ∀ r, read_entry w acc e = Ok r →
    found r = true ∧ last_modified r = N.max (last_modified acc) (timestamp e) ∧ reading r = reading acc.
Proof.
  intros Hk Hc. split; [unfold note_key; by rewrite Hk, Hc|]. intros r. unfold read_entry.
  destruct (content w e) as [[v|]|]; cbn [result_bind]; [|by intros [= <-]|done]. intros [= <-]. split_and!; [done|done|].
  cbn. unfold absorb. by rewrite Hk.
Qed.

(** ** What a restart does not repair *)

Definition turn_of (w : ContentWorld) (c : option Doc) (t : Task) (x : Meets * (Told * Told) * Woken) : Task :=
  run_turn w c x.1.1 x.1.2 x.2 t.

(** No turn of these is told of the item's bookmarks. *)
Definition untold (i : ItemId) (x : Meets * (Told * Told) * Woken) : Prop :=
  match x.2 with TakeBatch (Some b) => i ∉ items_with_changed_bookmarks b | _ => True end.

Definition leaves_alone (i : ItemId) (shows : Shown) (t : Task) : Prop := ∃ v,
  represents v (store (read_model t)) ∧ shown v (RBookmarks i) = shows ∧ RBookmarks i ∉ rows_left t ∧ ¬ remembered (read_model t) (RBookmarks i).

Lemma replay_leaves_alone i shows c t bookmarked : bookmarked_item_ids c = Ok bookmarked → i ∉ bookmarked →
  leaves_alone i shows t → leaves_alone i shows (begin_replay c t).
Proof.
  intros Hb Hi (v & Hr & Hs & _ & Hm). exists v. destruct (begin_replay_cases c t) as (-> & _). split_and!; [done..| |done].
  unfold begin_replay. rewrite Hb. destruct (item_ids c); [|by intros ?%elem_of_nil]. destruct (wish_ids c); [|by intros ?%elem_of_nil].
  by rewrite begun_rows.
Qed.

Lemma turn_leaves_alone i shows w c bookmarked t x : bookmarked_item_ids c = Ok bookmarked → i ∉ bookmarked → untold i x →
  leaves_alone i shows t → leaves_alone i shows (turn_of w c t x).
Proof.
  intros Hb Hi Hx Ht. destruct x as [[meets committed] woken]. unfold turn_of, run_turn. cbn [fst snd].
  pose proof Ht as (v & Hr & Hs & Hrows & Hm).
  assert (∀ ph p e, match ph with Within _ => False | _ => True end → represents v (store p) →
    bookmarks_waiting p = bookmarks_waiting (read_model t) → leaves_alone i shows (MkTask ph p e)) as Hidle.
  { intros ph p e Hph Hp Hw. exists v. split_and!; [done|done| |cbn in *; by rewrite Hw]. destruct ph; [..|done|]; by intros ?%elem_of_nil. }
  destruct (phase t) as [| |pass|] eqn:Ep, woken as [m watches|[b|]|[m|]| |]; try done; try (by apply Hidle).
  - destruct watches; [|by apply Hidle]. destruct (project_members_spec (meets_pool meets) m (store (read_model t)) v Hr) as (v' & Hr' & Hs' & _).
    destruct (project_members _ _ _) as [s ms]. eapply replay_leaves_alone; [done|done|]. exists v'. cbn -[shown]. rewrite Hs'.
    split_and!; [done|done|by intros ?%elem_of_nil|done].
  - exists v. split_and!; [done|done| |done]. rewrite begun_rows. cbn. cbn in Hx, Hm. destruct (content_arrived b); set_solver.
  - destruct (project_members_spec (meets_pool meets) m (store (read_model t)) v Hr) as (v' & Hr' & Hs' & _).
    destruct (project_members _ _ _) as [s ms]. cbn in Hr'. case_bool_decide; [|eapply replay_leaves_alone; [done|done|]];
      exists v'; cbn -[shown]; rewrite Hs'; (split_and!; [done|done|by intros ?%elem_of_nil|done]).
  - by eapply replay_leaves_alone.
  - destruct (head_row pass) as [r|] eqn:Eh.
    + destruct (pass_turn_row w c meets committed pass t r Eh) as (pass' & p & -> & Htodo & Hst & _ & Hrem).
      unfold rows_left in Hrows. rewrite Ep, Htodo in Hrows. apply not_elem_of_cons in Hrows as [Hne Hrows].
      destruct (project_row_spec w c meets r (read_model t) v Hr) as (v' & Hr' & [_ Hothers] & _). destruct (Hothers _ Hne) as [Hs' Hm'].
      exists v'. cbn [read_model store]. rewrite Hst, Hs'. split_and!; [done|done|done|]. by rewrite Hrem, Hm'.
    + assert (pass_turn w c meets committed pass t = end_pass pass t) as ->.
      { unfold head_row, pass_turn in *. by destruct (left_items pass), (left_bookmarks pass), (left_wishes pass). }
      unfold end_pass. destruct (is_replay pass); by apply Hidle.
Qed.

(** C40: A bookmark deleted from the document but not yet from the read model
    when a node stops outlives the restart, for all the document is read again:
    a replay reads the bookmarks of the items the document names, and it names
    none of the item. Whatever the task then does, reindexing included, the
    bookmarks are listed as they were, until a change to one of the item's is
    noted. *)
Theorem deleted_bookmarks_outlive_a_restart v s x h d i bookmarked :
  represents v s → bookmarked_item_ids (Some d) = Ok bookmarked → i ∉ bookmarked →
  (∀ w l b, read_bookmarks w i (Some d) = Ok (l, b) → l = []) ∧
  ∀ w turns, Forall (untold i) turns →
    ∃ l, ReadModel.bookmarks_of i (store (read_model (foldl (turn_of w (Some d)) (start s x h) turns))) = Ok l ∧
      bookmark_map l = default ∅ (v_bookmarks v !! i).
Proof.
  intros Hr Hb Hi. split.
  - intros w l b. unfold read_bookmarks. destruct (read_community_entries w _ decode_bookmark _) as [es|] eqn:E; [|done]. cbn [result_bind].
    assert (es = MkCommunityEntries [] false) as -> by (destruct es as [[|a k] []]; [|done| |]; destruct Hi; by eapply bookmarks_are_named).
    by intros [= <- _].
  - intros w turns Hall.
    assert (leaves_alone i (shown v (RBookmarks i)) (start s x h)) as Ht.
    { exists v. split_and!; [done|done|by intros ?%elem_of_nil|cbn; set_solver]. }
    revert Ht. generalize (start s x h) as t. induction Hall as [|y turns Hy _ IH]; intros t Ht; cbn [foldl].
    + destruct Ht as (v' & Hr' & Hs & _). destruct (bookmark_reads i v' _ Hr') as (l & Hl & Hp). exists l. split; [done|].
      apply bookmark_map_back in Hp. cbn in Hs. congruence.
    + apply IH. by eapply turn_leaves_alone.
Qed.

(** A pledge no SQLite integer holds is in the log as any other, and while
    it is there no node's list of members changes, whoever comes or goes, though
    what is projected is of the members of the day. *)
Theorem absurd_pledge_freezes_the_members pool m s who :
  who ∈ members_seen m → (i64_max < stored_pledge who)%N →
  (project_members pool m s).1 = s ∧ (project_members pool m s).2 = member_set m.
Proof.
  intros Hin Hbig. split; [|done]. unfold project_members. cbn [fst].
  destruct (write_cases "given the group's members" pool (set_members (members_seen m)) s) as [(t' & [] & Hm & ->)|(e & ->)]; [|done].
  unfold set_members in Hm. destruct (insert_members (members_seen m) ∅) as [rows|] eqn:E; [|done].
  apply insert_members_ok in E as (Hall & _). rewrite Forall_forall in Hall. specialize (Hall who Hin). lia.
Qed.
End reading.
