(* ===== verification/ReadModelFixtures.v ===== *)
(** * A book in the read model, from its entry to its row *)

From Stdlib Require Import Ascii SpecFloat.
From stdpp Require Import strings.
From S2P Require Import Prelude Ids GroupSettings Events Membership Heartbeats Keeping KeepingFixtures Failures Statements Blobs Fixtures.
From S2P Require Import Texts Items ItemsProps TextFixtures Community Catalogue CatalogueProps CatalogueFixtures.
From S2P Require Import Changes Held ReadModel Projecting ReadModelProps ProjectingProps.

#[export] Instance test_json_reads : JsonReads.
Proof. split; intros bs a Ha; exact (strict_json_reads _ bs a Ha). Qed.

(** ** The tables *)

Definition empty_view : View := MkView ∅ ∅ ∅ ∅.

Lemma encodes_empty {X K R V} `{Countable X} (kx : K → X) (rv : V → R) (m : K → option V) : (∀ k, m k = None) → encodes kx rv ∅ m.
Proof. intros Hm x r. rewrite lookup_empty. split; [done|]. intros (k & v & Hk & _). congruence. Qed.

Lemma empty_represents : represents empty_view no_tables.
Proof.
  split; cbn; try (apply encodes_empty; intros k; done); apply map_Forall_empty.
Qed.

Definition stored_book : StoredItem :=
  MkStoredItem test_book {[member 1 := MkRating 4]} {[member 2 := MkReview "Long."]}
    {[MkContentHash (id32 1) := {[member 1]}]} 77.
Lemma book_storable : storable stored_book.
Proof. split_and!; [by_decision|by_decision|by_decision|by_decision]. Qed.

Definition ran {A} (r : result SqlError (Tables * A)) : Tables := match r with Ok (t, _) => t | Err _ => no_tables end.
Lemma ran_ok {A} (r : result SqlError (Tables * A)) : is_ok r = true → ∃ a, r = Ok (ran r, a).
Proof. destruct r as [[t a]|]; [|done]. by exists a. Qed.

Definition with_book : Tables := ran (upsert_item stored_book no_tables).
Definition book_view : View := v_upsert stored_book empty_view.
Lemma book_represents : represents book_view with_book.
Proof.
  destruct (ran_ok (upsert_item stored_book no_tables)) as [u Hu]; [vm_compute; reflexivity|].
  exact (proj1 (upsert_represents stored_book empty_view no_tables with_book u empty_represents book_storable Hu)).
Qed.

Lemma store_is_the_maps_witness :
  ReadModel.item (item_id test_book) with_book = Ok (Some stored_book) ∧
  ∃ l, members with_book = Ok l ∧ length l = 0.
Proof.
  pose proof (store_is_the_maps book_view with_book book_represents) as ((Hi & _ & _ & _ & l & Hl & Hp) & _).
  split; [exact (Hi (item_id test_book))|]. exists l. split; [exact Hl|]. rewrite Hp. reflexivity.
Defined.

(** ** A search *)

Definition mark_id : BookmarkId := MkBookmarkId 5 I.
Definition fifty_percent : StoredBookmark :=
  MkStoredBookmark (member 1) mark_id (MkBookmark "12" "Save 50% of_it" 9) 10.
Definition marked_book : Tables := ran (replace_bookmarks (item_id test_book) [fifty_percent] with_book).
Definition marked_view : View := v_replace_bookmarks (item_id test_book) [fifty_percent] book_view.
Lemma marked_represents : represents marked_view marked_book.
Proof.
  destruct (ran_ok (replace_bookmarks (item_id test_book) [fifty_percent] with_book)) as [[] Hu]; [vm_compute; reflexivity|].
  refine (proj1 (replace_bookmarks_represents (item_id test_book) [fifty_percent] book_view with_book marked_book book_represents _ Hu)).
  by_decision.
Qed.
Definition percent_of : BookmarkFilter := MkBookmarkFilter (Some "50% OF_") None (Some (item_id test_book)).
Definition listed_fifty : ListedBookmark := MkListedBookmark (item_id test_book) (Some "Dune") None fifty_percent.

Lemma percent_searchable : searchable percent_of.
Proof. apply Nat.leb_le. vm_compute. reflexivity. Qed.

Lemma bookmarks_are_found_by_what_they_say_witness :
  searchable percent_of ∧ ∃ l, find_bookmarks percent_of marked_book = Ok l ∧ listed_fifty ∈ l.
Proof.
  split; [exact percent_searchable|].
  destruct (proj1 (bookmarks_are_found_by_what_they_say marked_view marked_book percent_of marked_represents) percent_searchable) as (l & Hl & _ & Hin & _).
  exists l. split; [exact Hl|]. apply Hin. exists (item_id test_book, (member 1, mark_id), (MkBookmark "12" "Save 50% of_it" 9, 10%N)).
  split; [vm_compute; reflexivity|]. split; [vm_compute; reflexivity|]. split; [|split; [done|reflexivity]].
  left. exists "save ", "it". vm_compute. reflexivity.
Defined.

(** ** What a restart leaves *)

Definition some_index : SearchIndex := MkSearchIndex true ∅ ∅.
Definition nothing_held : HeldSet := MkHeldSet ∅ 0.
Definition meets_well : Meets := MkMeets Runs Done [] (λ _, Ok true) 0.

Lemma ok_decide {E A} `{EqDecision A} (r : result E A) a : (match r with Ok x => bool_decide (x = a) | Err _ => false end) = true → r = Ok a.
Proof. destruct r; [|done]. by intros ->%bool_decide_eq_true. Qed.

Lemma no_bookmarks_named : bookmarked_item_ids (Some empty_doc) = Ok ∅.
Proof. apply ok_decide. vm_compute. reflexivity. Qed.

Lemma deleted_bookmarks_outlive_a_restart_witness :
  read_bookmarks world (item_id test_book) (Some empty_doc) = Ok ([], false) ∧
  ∃ l, ReadModel.bookmarks_of (item_id test_book)
    (store (read_model (foldl (turn_of world (Some empty_doc)) (start marked_book some_index nothing_held)
      [(meets_well, (Done, Done), Ready new_state true); (meets_well, (Done, Done), GoesOn); (meets_well, (Done, Done), ReindexAsked)]))) = Ok l ∧
    bookmark_map l = bookmark_map [fifty_percent].
Proof.
  split; [vm_compute; reflexivity|].
  destruct (proj2 (deleted_bookmarks_outlive_a_restart (DD := test_documents) marked_view marked_book some_index nothing_held empty_doc (item_id test_book) ∅
    marked_represents no_bookmarks_named ltac:(apply not_elem_of_empty)) world
    [(meets_well, (Done, Done), Ready new_state true); (meets_well, (Done, Done), GoesOn); (meets_well, (Done, Done), ReindexAsked)]) as (l & Hl & Hm).
  - repeat constructor.
  - exists l. split; [exact Hl|]. rewrite Hm. cbn. by rewrite lookup_insert_eq.
Defined.

(** ** A pledge of 2{^63} bytes *)

Definition boaster : MemberRecord := record_of (profile 2) (2 ^ 63) 0.
Definition with_boaster : MembershipState :=
  Build_MembershipState None {[member 2 := boaster]} ∅ ∅ 0 default_settings 0.
Lemma absurd_pledge_freezes_the_members_witness :
  (project_members Runs with_boaster with_book).1 = with_book ∧ (project_members Runs with_boaster with_book).2 = member_set with_boaster.
Proof.
  refine (absurd_pledge_freezes_the_members Runs with_boaster with_book (MkStoredMember (member 2) "m" (2 ^ 63) false) _ _).
  - vm_compute. left.
  - vm_compute. reflexivity.
Defined.

(** ** A title whose content comes late *)

Definition titled_doc : FiledDoc := titled 1 10 empty_doc.
Definition title_hash : ContentHash := MkContentHash (blake3 (to_json "Dune")).
Definition before_it_lands : ContentWorld := {|
  has_content h := Ok NotFound; reads_content _ := Err "not here"; is_public_key _ := true;
|}.
Definition after_it_lands : ContentWorld := {|
  has_content h := if decide (h = title_hash) then Ok (Complete (N.of_nat (length (to_json "Dune")))) else Ok NotFound;
  reads_content h := if decide (h = title_hash) then Ok (to_json "Dune") else Err "not here";
  is_public_key _ := true;
|}.
Lemma title_lands : lands title_hash (to_json "Dune") before_it_lands after_it_lands.
Proof.
  split_and!; cbn.
  - exists NotFound. by split.
  - by rewrite decide_True.
  - by rewrite decide_True.
  - intros g Hg. by rewrite !decide_False.
  - done.
Qed.

Lemma titled_keyed i : item_keyed titled_doc i.
Proof.
  intros a k e He Hb. destruct (is_filed titled_doc (a, k) e He) as [_ Hk]. cbn in Hk. subst k.
  assert (Forall (λ x : (Id32 * string) * Entry, x.1.2 = encode_key (FieldKey book FTitle)) (map_to_list (CatalogueFixtures.the_doc titled_doc)))
    as Hall by by_decision.
  rewrite Forall_forall in Hall. assert (entry_key e = encode_key (FieldKey book FTitle)) as Hkey by exact (Hall _ (proj2 (elem_of_map_to_list _ _ _) He)).
  rewrite Hkey in *.
  exists (FieldKey book FTitle). split; [apply parse_encode_key|].
  assert (row_of_key (inl (FieldKey book FTitle)) = Some (RItem i)) as [= Hi]; [|exact Hi].
  apply (prefix_of_row _ _ (prefix_of i)); [left|exact Hb].
Qed.

(** A field of a later build. *)
Definition unread_entry : Entry := MkEntry (ITEMS +:+ "/" +:+ show_id book +:+ "/mood") (id32 1) title_hash 6 20.
Lemma unread_keys_count_unnoted_witness :
  note_key (entry_key unread_entry) default_batch = (default_batch, false, false) ∧
  last_modified (MkReading (new_item book) 20 false true) = 20%N.
Proof.
  split; [|reflexivity].
  refine (proj1 (unread_keys_count_unnoted after_it_lands (MkReading (new_item book) 0 false false) unread_entry default_batch _ _));
    vm_compute; reflexivity.
Defined.

Definition goes (woken : Woken) (n : Node) : Node := after_turn n meets_well (Done, Done) woken.
Definition node0 : Node := started no_tables some_index nothing_held None before_it_lands new_state [] [].
Definition node1 : Node := MkNode (Some titled_doc) (contents node0) (log_says node0) (log_moved node0) (on_the_way node0) (the_pump node0) (the_task node0) (missed node0) (lost node0) (strange node0).
Definition node2 : Node := goes GoesOn (goes GoesOn (goes (Ready (log_says node1) true) node1)).
Definition node3 : Node := MkNode (ProjectingProps.the_doc node2) after_it_lands (log_says node2) (log_moved node2) (on_the_way node2 ++ [ContentReady]) (the_pump node2) (the_task node2) (missed node2) (lost node2) (strange node2).
Definition node4 : Node := MkNode (ProjectingProps.the_doc node3) (contents node3) (log_says node3) (log_moved node3) [] (note_event ContentReady (the_pump node3)).1.1 (the_task node3) (missed node3) (lost node3) (strange node3).
Definition node5 : Node := goes GoesOn (goes GoesOn (goes (TakeBatch (Some (pending (the_pump node4)))) node4)).

Definition phase_is (p : Phase) (which : N) : bool :=
  match p with NotReady => N.eqb which 0 | Between => N.eqb which 1 | Within _ => N.eqb which 2 | StoppedTask => N.eqb which 3 end.
Lemma phase_between p : phase_is p 1 = true → p = Between.
Proof. by destruct p. Qed.
Lemma phase_not_ready p : phase_is p 0 = true → p = NotReady.
Proof. by destruct p. Qed.
Lemma goes_on_step n : phase_is (phase (the_task n)) 2 = true → node_step n (goes GoesOn n).
Proof. intros Hp. apply TaskTurns. unfold may_wake. by destruct (phase (the_task n)). Qed.

Lemma node5_reached : rtc node_step node0 node5.
Proof.
  eapply rtc_l; [apply (DocOpened node0 titled_doc []); [reflexivity|intros i _; apply titled_keyed]|]. fold node1.
  eapply rtc_l; [apply (TaskTurns node1 meets_well (Done, Done) (Ready (log_says node1) true)); unfold may_wake;
    rewrite (phase_not_ready (phase (the_task node1))) by (vm_compute; reflexivity); split; [by eexists|done]|].
  eapply rtc_l; [apply goes_on_step; vm_compute; reflexivity|]. eapply rtc_l; [apply goes_on_step; vm_compute; reflexivity|].
  eapply rtc_l; [apply (ContentLanded node2 title_hash (to_json "Dune") after_it_lands); exact title_lands|].
  eapply rtc_l; [apply (Pumped node3 ContentReady []); vm_compute; reflexivity|].
  eapply rtc_l; [apply (TaskTurns node4 meets_well (Done, Done) (TakeBatch (Some (pending (the_pump node4))))); unfold may_wake;
    rewrite (phase_between (phase (the_task node4))) by (vm_compute; reflexivity); done|].
  eapply rtc_l; [apply goes_on_step; vm_compute; reflexivity|]. eapply rtc_l; [apply goes_on_step; vm_compute; reflexivity|].
  apply rtc_refl.
Qed.

Lemma node5_quiet : quiet node5.
Proof.
  split; [apply phase_between; vm_compute; reflexivity|]. split; [reflexivity|]. split; [vm_compute; reflexivity|reflexivity].
Qed.
Lemma node5_missed_nothing : missed node5 = [] ∧ lost node5 = false.
Proof. split; vm_compute; reflexivity. Qed.

(** The title is nowhere before, and read after. *)
Definition read_late : result SyncError (option ReadItem) := read_item after_it_lands book (Some titled_doc).
Definition late_book : ReadItem := match read_late with Ok (Some x) => x | _ => MkReadItem (new_item book) ∅ ∅ ∅ 0 false end.
Lemma late_book_ok : match read_late with Ok (Some _) => true | _ => false end = true → read_late = Ok (Some late_book).
Proof. unfold late_book. by destruct read_late as [[x|]|]. Qed.

