(* ===== verification/Tasks.v ===== *)
(** * The downloads of a node, and how they are going
    [crates/distlib-api/src/tasks.rs]: the registry [library.task] answers
    from, the handle a download reports and ends through, and the bus. A call
    of a handle is the turns it takes in order, each a lock of the registry or
    a send, so that others' calls may come between. Times are nanoseconds. *)

From stdpp Require Import strings.
From S2P Require Import Prelude Ids.

Definition KEEP_ENDED : nat := 64.
Definition PUBLISH_EVERY : N := 250000000.

(** [Progress], of [distlib-core]. *)
Record Progress : Type := MkProgress {
  bytes_done : N;
  bytes_total : N;
  files_done : N;
  files_total : N;
}.

Inductive Source : Type := Network | FromStore | Destination.
Record Downloaded : Type := MkDownloaded {
  downloaded_file : ContentHash;
  downloaded_filename : string;
  downloaded_path : string;
  downloaded_from : Source;
}.
Inductive Outcome : Type :=
| Running
| Finished (files : list Downloaded)
| Failed (error : string).
Record TaskState : Type := MkTaskState {
  task_item : ItemId;
  task_title : option string;
  progress_of : Progress;
  outcome : Outcome;
}.
Record Registry : Type := MkRegistry { next : N; tasks : gmap N TaskState }.
Definition no_tasks : Registry := MkRegistry 0 ∅.

Inductive TaskEvent : Type :=
| DownloadProgress (task_id : N) (item_id : ItemId) (progress : Progress)
| DownloadFinished (task_id : N) (item_id : ItemId)
| DownloadFailed (task_id : N) (item_id : ItemId).

#[export] Instance Progress_eq_dec : EqDecision Progress.
Proof. solve_decision. Defined.
#[export] Instance Source_eq_dec : EqDecision Source.
Proof. solve_decision. Defined.
#[export] Instance Downloaded_eq_dec : EqDecision Downloaded.
Proof. solve_decision. Defined.
#[export] Instance Outcome_eq_dec : EqDecision Outcome.
Proof. solve_decision. Defined.
#[export] Instance TaskEvent_eq_dec : EqDecision TaskEvent.
Proof. solve_decision. Defined.

(** ** The registry *)

Definition is_running (t : TaskState) : bool := bool_decide (outcome t = Running).
Definition with_progress (p : Progress) (t : TaskState) : TaskState :=
  MkTaskState (task_item t) (task_title t) p (outcome t).
Definition with_outcome (o : Outcome) (t : TaskState) : TaskState :=
  MkTaskState (task_item t) (task_title t) (progress_of t) o.

(** [Tasks::get]. *)
Definition get (task_id : N) (r : Registry) : option TaskState := tasks r !! task_id.

(** [Tasks::running]. *)
Definition running (r : Registry) : list TaskEvent :=
  (λ e, DownloadProgress e.1 (task_item e.2) (progress_of e.2)) <$>
  filter (λ e, is_running e.2) (map_entries (tasks r)).

(** [Tasks::record]. *)
Definition record (task_id : N) (p : Progress) (r : Registry) : Registry :=
  MkRegistry (next r) (alter (with_progress p) task_id (tasks r)).

(** The ended, the first started first. *)
Definition ended_ids (t : gmap N TaskState) : list N :=
  (filter (λ e, negb (is_running e.2)) (map_entries t)).*1.

(** What [Tasks::end] prunes. *)
Definition prune (t : gmap N TaskState) : gmap N TaskState :=
  let ended := ended_ids t in
  foldl (λ t old, delete old t) t (take (length ended - KEEP_ENDED) ended).

(** [Tasks::end]. *)
Definition end_task (task_id : N) (o : Outcome) (r : Registry) : Registry :=
  MkRegistry (next r) (prune (alter (with_outcome o) task_id (tasks r))).

(** ** A download *)

Record Download : Type := MkDownload {
  download_task : N;
  download_item : ItemId;
  so_far : Progress;
  published_at : option N;
}.

(** [Tasks::start_download]. *)
Definition start_download (item : ItemId) (title : option string) (files bytes : N) (r : Registry) : Registry * Download :=
  let p := MkProgress 0 bytes 0 files in
  let id := wrap64 (next r + 1) in
  (MkRegistry id (<[id := MkTaskState item title p Running]> (tasks r)), MkDownload id item p None).

(** What a handle's calls do, in turns. *)
Inductive Act : Type :=
| RecordProgress (p : Progress)
| Publish (e : TaskEvent)
| EndTask (o : Outcome).

Definition with_so_far (p : Progress) (d : Download) : Download :=
  MkDownload (download_task d) (download_item d) p (published_at d).

(** [Download::publish_progress]. *)
Definition publish_progress (now : N) (d : Download) : Download * list Act :=
  (MkDownload (download_task d) (download_item d) (so_far d) (Some now),
   [Publish (DownloadProgress (download_task d) (download_item d) (so_far d))]).

(** [Download::progress]. *)
Definition progress (bytes now : N) (d : Download) : Download * list Act :=
  let p := so_far d in
  let d := with_so_far (MkProgress bytes (bytes_total p) (files_done p) (files_total p)) d in
  let due := match published_at d with None => true | Some at_ => bool_decide (PUBLISH_EVERY ≤ now - at_)%N end in
  if due then let '(d, acts) := publish_progress now d in (d, RecordProgress (so_far d) :: acts)
  else (d, [RecordProgress (so_far d)]).

(** [Download::file_written]. *)
Definition file_written (bytes now : N) (d : Download) : Download * list Act :=
  let p := so_far d in
  let d := with_so_far (MkProgress bytes (bytes_total p) (wrap64 (files_done p + 1)) (files_total p)) d in
  let '(d, acts) := publish_progress now d in (d, RecordProgress (so_far d) :: acts).

(** [Download::end]. *)
Definition end_download (o : Outcome) (e : TaskEvent) : list Act := [EndTask o; Publish e].

(** [Download::finish]. *)
Definition finish (files : list Downloaded) (now : N) (d : Download) : list Act :=
  let p := so_far d in
  let full := MkProgress (bytes_total p) (bytes_total p) (files_total p) (files_total p) in
  let '(d, acts) := publish_progress now (with_so_far full d) in
  RecordProgress full :: acts ++
  end_download (Finished files) (DownloadFinished (download_task d) (download_item d)).

(** [Download::failed]. *)
Definition failed (error : string) (d : Download) : list Act :=
  end_download (Failed error) (DownloadFailed (download_task d) (download_item d)).

Definition interrupted : string := "interrupted before it finished".

(** ** The node's downloads together *)

(** [Some] of the handle while it lives, and the turns its last call has left. *)
Record Work : Type := MkWork { handle : option Download; left_to_do : list Act }.
Record Tasks : Type := MkTasks { registry : Registry; bus : list TaskEvent; work : gmap N Work }.
Definition no_downloads : Tasks := MkTasks no_tasks [] ∅.

(** A turn of task [id]'s. *)
Definition act (id : N) (a : Act) (t : Tasks) : Tasks :=
  match a with
  | RecordProgress p => MkTasks (record id p (registry t)) (bus t) (work t)
  | Publish e => MkTasks (registry t) (bus t ++ [e]) (work t)
  | EndTask o => MkTasks (end_task id o (registry t)) (bus t) (work t)
  end.

Definition set_work (id : N) (w : Work) (t : Tasks) : Tasks := MkTasks (registry t) (bus t) (<[id := w]> (work t)).

(** What is called of a handle; those that end it consume it. *)
Inductive Call : Type :=
| CallProgress (bytes : N)
| CallFileWritten (bytes : N)
| CallFinish (files : list Downloaded)
| CallFail (error : string)
| Dropped.

Definition call (c : Call) (now : N) (d : Download) : Work :=
  match c with
  | CallProgress bytes => let '(d, acts) := progress bytes now d in MkWork (Some d) acts
  | CallFileWritten bytes => let '(d, acts) := file_written bytes now d in MkWork (Some d) acts
  | CallFinish files => MkWork None (finish files now d)
  | CallFail error => MkWork None (failed error d)
  | Dropped => MkWork None (failed interrupted d)
  end.

(** A download starts, of fewer than [2^64], a handle nothing is under way of is
    called, or a call takes its next turn. *)
Inductive task_step : Tasks → Tasks → Prop :=
| step_start item title files bytes r d t :
    (next (registry t) < u64_max)%N →
    start_download item title files bytes (registry t) = (r, d) →
    task_step t (MkTasks r (bus t) (<[download_task d := MkWork (Some d) []]> (work t)))
| step_call id d c now t :
    work t !! id = Some (MkWork (Some d) []) →
    task_step t (set_work id (call c now d) t)
| step_act id h a rest t :
    work t !! id = Some (MkWork h (a :: rest)) →
    task_step t (set_work id (MkWork h rest) (act id a t)).

(** ** What it comes to *)

Lemma next_id r : (next r < u64_max)%N → wrap64 (next r + 1) = (next r + 1)%N.
Proof. intros. unfold wrap64. apply N.mod_small. unfold u64_max in *. lia. Qed.

Lemma elem_of_ended_ids t id : id ∈ ended_ids t ↔ ∃ s, t !! id = Some s ∧ is_running s = false.
Proof.
  unfold ended_ids. rewrite list_elem_of_fmap. split.
  - intros ([k s] & -> & [Hs Hin%elem_of_map_entries]%list_elem_of_filter). exists s. split; [done|]. cbn in Hs. by destruct (is_running s).
  - intros (s & Hs & He). exists (id, s). split; [done|]. apply list_elem_of_filter. cbn. by rewrite He, elem_of_map_entries.
Qed.
Lemma ended_ids_sorted t : StronglySorted N.lt (ended_ids t).
Proof.
  unfold ended_ids. pose proof (map_entries_strict t) as Hs. induction Hs as [|x l Hs IH Hall]; [constructor|].
  cbn [filter list_filter]. destruct (decide _); [|done]. cbn. constructor; [done|].
  apply Forall_fmap, Forall_forall. intros y [_ Hy]%list_elem_of_filter. rewrite Forall_forall in Hall. by apply Hall.
Qed.
Lemma sorted_NoDup l : StronglySorted N.lt l → NoDup l.
Proof.
  induction 1 as [|x l Hs IH Hall]; constructor; [|done]. intros Hx. rewrite Forall_forall in Hall. specialize (Hall x Hx). lia.
Qed.

Lemma lookup_deletes {A} (l : list N) (t : gmap N A) id :
  foldl (λ t old, delete old t) t l !! id = if decide (id ∈ l) then None else t !! id.
Proof.
  revert t. induction l as [|x l IH]; intros t; cbn; [done|]. rewrite IH.
  destruct (decide (id = x)) as [->|Hne].
  - rewrite lookup_delete_eq. repeat case_decide; set_solver.
  - rewrite lookup_delete_ne by done. repeat case_decide; set_solver.
Qed.

Lemma lookup_prune t id :
  prune t !! id = if decide (id ∈ take (length (ended_ids t) - KEEP_ENDED) (ended_ids t)) then None else t !! id.
Proof. apply lookup_deletes. Qed.

Lemma prune_spares_running t id s : t !! id = Some s → is_running s = true → prune t !! id = Some s.
Proof.
  intros Hs Hr. rewrite lookup_prune. case_decide as Hin; [|done].
  apply elem_of_take in Hin as (i & Hi & _). apply list_elem_of_lookup_2, elem_of_ended_ids in Hi as (s' & Hs' & He). congruence.
Qed.

Lemma ended_after_prune t : length (ended_ids (prune t)) ≤ KEEP_ENDED.
Proof.
  set (k := length (ended_ids t) - KEEP_ENDED).
  assert (ended_ids (prune t) ⊆+ drop k (ended_ids t)) as Hsub.
  { apply NoDup_submseteq; [apply sorted_NoDup, ended_ids_sorted|]. intros id (s & Hs & He)%elem_of_ended_ids.
    rewrite lookup_prune in Hs. case_decide as Hin; [done|].
    assert (id ∈ ended_ids t) as Hid by (apply elem_of_ended_ids; eauto).
    rewrite <-(take_drop k (ended_ids t)), elem_of_app in Hid. destruct Hid; [done|done]. }
  apply submseteq_length in Hsub. rewrite length_drop in Hsub. unfold k in Hsub. lia.
Qed.

Lemma ids_after id l : StronglySorted N.lt l → id ∈ l → 
  ∃ l1 l2, l = l1 ++ id :: l2 ∧ filter (λ x, id < x)%N l = l2.
Proof.
  intros Hs Hid. apply list_elem_of_split in Hid as (l1 & l2 & ->). exists l1, l2. split; [done|].
  apply StronglySorted_app in Hs as (Hbefore & Hs1 & Hs2). inversion_clear Hs2 as [|? ? _ Hall].
  assert (filter (λ x, id < x)%N l1 = []) as Hnone.
  { assert (Forall (λ x, x < id)%N l1) as Hl1 by (apply Forall_forall; intros x Hx; apply Hbefore; [done|set_solver]).
    clear -Hl1. induction Hl1 as [|x l Hx Hl IH]; [done|]. by rewrite filter_cons_False by lia. }
  rewrite filter_app, Hnone, filter_cons_False by lia. cbn.
  clear -Hall. induction Hall as [|x l Hx Hl IH]; [done|]. rewrite filter_cons_True by done. by rewrite IH.
Qed.

Lemma prune_forgets t id : id ∈ ended_ids t → KEEP_ENDED ≤ length (filter (λ x, id < x)%N (ended_ids t)) → prune t !! id = None.
Proof.
  intros Hid Hlen. destruct (ids_after id _ (ended_ids_sorted t) Hid) as (l1 & l2 & Hl & Hf). rewrite Hf in Hlen.
  rewrite lookup_prune, decide_True; [done|]. rewrite Hl. apply elem_of_take. exists (length l1). split; [by apply list_lookup_middle|].
  rewrite length_app. cbn. lia.
Qed.

(** ** Every download's story *)

Definition event_task (e : TaskEvent) : N :=
  match e with DownloadProgress id _ _ | DownloadFinished id _ | DownloadFailed id _ => id end.
Definition is_progress (e : TaskEvent) : Prop := match e with DownloadProgress _ _ _ => True | _ => False end.
Definition events_of (id : N) (l : list TaskEvent) : list TaskEvent := filter (λ e, event_task e = id) l.

(** What is told of an outcome. *)
Definition ending (id : N) (item : ItemId) (o : Outcome) : TaskEvent :=
  match o with Finished _ => DownloadFinished id item | _ => DownloadFailed id item end.
Definition is_full (p : Progress) : Prop := bytes_done p = bytes_total p ∧ files_done p = files_total p.
(** A finished download's last progress is of all of it. *)
Definition full_last (id : N) (o : Outcome) (l : list TaskEvent) : Prop :=
  match o with Finished _ => ∃ ps item p, l = ps ++ [DownloadProgress id item p] ∧ is_full p | _ => True end.

Definition simple (id : N) (a : Act) : Prop :=
  match a with RecordProgress _ => True | Publish e => is_progress e ∧ event_task e = id | EndTask _ => False end.
Definition to_say (acts : list Act) : list TaskEvent :=
  omap (λ a, match a with Publish e => Some e | _ => None end) acts.

Definition status (id : N) (ended : option Outcome) (r : Registry) : Prop :=
  match ended with
  | None => ∃ s, get id r = Some s ∧ outcome s = Running
  | Some o => ∀ s, get id r = Some s → outcome s = o
  end.

(** A handle let go of: its ending is to come, is to be told, or was told. *)
Inductive ending_of (id : N) (r : Registry) : list Act → list TaskEvent → Prop :=
| to_end item o pre b :
    o ≠ Running → Forall (simple id) pre → Forall is_progress b → full_last id o (b ++ to_say pre) → status id None r →
    ending_of id r (pre ++ [EndTask o; Publish (ending id item o)]) b
| to_tell item o b :
    o ≠ Running → Forall is_progress b → full_last id o b → status id (Some o) r →
    ending_of id r [Publish (ending id item o)] b
| told item o b :
    o ≠ Running → Forall is_progress b → full_last id o b → status id (Some o) r →
    ending_of id r [] (b ++ [ending id item o]).

Definition work_ok (id : N) (w : Work) (t : Tasks) : Prop :=
  match handle w with
  | Some d => download_task d = id ∧ Forall (simple id) (left_to_do w) ∧ Forall is_progress (events_of id (bus t)) ∧ status id None (registry t)
  | None => ending_of id (registry t) (left_to_do w) (events_of id (bus t))
  end.

Record sound (t : Tasks) : Prop := {
  works_sound id w : work t !! id = Some w → (id ≤ next (registry t))%N ∧ work_ok id w t;
  tasks_worked id s : get id (registry t) = Some s → is_Some (work t !! id);
  events_worked e : e ∈ bus t → is_Some (work t !! event_task e);
}.

Lemma events_of_app id l k : events_of id (l ++ k) = events_of id l ++ events_of id k.
Proof. apply filter_app. Qed.
Lemma events_of_one id e : events_of id [e] = if decide (event_task e = id) then [e] else [].
Proof. unfold events_of. rewrite filter_cons. by case_decide. Qed.
Lemma ending_task id item o : event_task (ending id item o) = id.
Proof. by destruct o. Qed.

Lemma get_record id p r i : get i (record id p r) = (if decide (i = id) then with_progress p <$> get i r else get i r).
Proof. unfold get, record. cbn. case_decide as Hi; [subst; apply lookup_alter_eq|]. apply lookup_alter_ne. congruence. Qed.

Lemma status_record id p r i x : status i x r → status i x (record id p r).
Proof.
  unfold status. rewrite get_record. case_decide as Hi; [subst i|done]. destruct x as [o|].
  - intros Hs s Hg. destruct (get id r) as [s'|]; [|done]. injection Hg as <-. exact (Hs s' eq_refl).
  - intros (s & -> & Hr). exists (with_progress p s). by split.
Qed.
Lemma status_end_other id o r i x : i ≠ id → status i x r → status i x (end_task id o r).
Proof.
  intros Hne Hs. unfold status, get, end_task in *. cbn. destruct x as [o'|].
  - intros s. rewrite lookup_prune. case_decide; [done|]. rewrite lookup_alter_ne by done. apply Hs.
  - destruct Hs as (s & Hs & Hr). exists s. split; [|done]. apply prune_spares_running; [by rewrite lookup_alter_ne|].
    unfold is_running. by rewrite Hr.
Qed.
Lemma status_end id o r : status id None r → status id (Some o) (end_task id o r).
Proof.
  intros (s & Hs & _) s'. unfold get, end_task. cbn. rewrite lookup_prune. case_decide; [done|].
  unfold get in Hs. rewrite lookup_alter_eq, Hs. by intros [= <-].
Qed.

Lemma status_act id a t i x : i ≠ id → status i x (registry t) → status i x (registry (act id a t)).
Proof. destruct a; [intros _; apply status_record|done|by apply status_end_other]. Qed.

Lemma ending_of_status id r r' acts b :
  (∀ x, status id x r → status id x r') → ending_of id r acts b → ending_of id r' acts b.
Proof. intros Hr. destruct 1; constructor; auto. Qed.

Definition act_about (id : N) (a : Act) : Prop := match a with Publish e => event_task e = id | _ => True end.

Lemma events_of_act id a t i : act_about id a → i ≠ id → events_of i (bus (act id a t)) = events_of i (bus t).
Proof.
  destruct a as [p|e|o]; cbn [act bus act_about]; [done| |done]. intros He Hne. rewrite events_of_app, events_of_one, decide_False, app_nil_r by congruence. done.
Qed.

Lemma work_ok_other id a t i w : act_about id a → i ≠ id → work_ok i w t → work_ok i w (act id a t).
Proof.
  intros Ha Hne. unfold work_ok. rewrite events_of_act by done. destruct (handle w) as [d|].
  - intros (? & ? & ? & ?). split_and!; [done..|]. by apply status_act.
  - apply ending_of_status. intros x. by apply status_act.
Qed.

Lemma call_ok id c now d t : work_ok id (MkWork (Some d) []) t → work_ok id (call c now d) t.
Proof.
  intros (Hd & _ & Hb & Hr). cbn in Hr. set (item := download_item d).
  assert (∀ o, o ≠ Running → (∀ files, o ≠ Finished files) → ending_of id (registry t) ([] ++ [EndTask o; Publish (ending id item o)]) (events_of id (bus t))) as Hfail.
  { intros o Ho Hnf. apply (to_end id _ item o); [done|constructor|done| |done]. destruct o as [|files|]; [done|by destruct (Hnf files)|done]. }
  unfold work_ok. destruct c as [bytes|bytes|files|error|]; cbn [call handle left_to_do].
  - unfold progress. cbn. destruct (match published_at d with Some _ => _ | None => _ end); cbn; split_and!; try done; repeat constructor; done.
  - cbn. split_and!; try done. repeat constructor; done.
  - unfold finish. cbn. rewrite Hd. fold item. set (full := MkProgress _ _ _ _).
    apply (to_end id _ item (Finished files) [RecordProgress full; Publish (DownloadProgress id item full)]); [done|repeat constructor|done| |done].
    exists (events_of id (bus t)), item, full. by split.
  - unfold failed, end_download. rewrite Hd. by apply Hfail.
  - unfold failed, end_download. rewrite Hd. by apply Hfail.
Qed.

Lemma simple_about id a : simple id a → act_about id a.
Proof. destruct a as [|e|]; cbn; [done|by intros []|done]. Qed.

(** A turn of a call is about its own download, and leaves its story right. *)
Lemma act_ok id h a rest t : work_ok id (MkWork h (a :: rest)) t → act_about id a ∧ work_ok id (MkWork h rest) (act id a t).
Proof.
  assert (∀ e b, event_task e = id → events_of id (bus t) = b → events_of id (bus (act id (Publish e) t)) = b ++ [e]) as Hsay.
  { intros e b He <-. cbn [act bus]. by rewrite events_of_app, events_of_one, decide_True. }
  unfold work_ok. cbn [handle left_to_do]. destruct h as [d|].
  - intros (Hd & Hs & Hb & Hr). apply Forall_cons in Hs as [Ha Hs]. split; [by apply simple_about|]. split_and!; [done|done| |].
    + destruct a as [p|e|o]; [done| |done]. destruct Ha as [Hp He]. rewrite (Hsay e _ He eq_refl). apply Forall_app. by repeat constructor.
    + destruct a as [p|e|o]; [by apply status_record|done|done].
  - remember (events_of id (bus t)) as b eqn:Eb. remember (a :: rest) as acts eqn:El. destruct 1 as [item o pre b Ho Hs Hb Hf Hr|item o b Ho Hb Hf Hr|]; [| |done].
    + destruct pre as [|a' pre]; injection El as <- <-.
      * split; [done|]. rewrite app_nil_r in Hf. replace (events_of id (bus (act id (EndTask o) t))) with b by done.
        apply to_tell; [done..|]. by apply status_end.
      * apply Forall_cons in Hs as [Ha Hs]. split; [by apply simple_about|]. destruct a' as [p|e|o']; [| |done].
        -- replace (events_of id (bus (act id (RecordProgress p) t))) with b by done. apply to_end; [done..|]. by apply status_record.
        -- destruct Ha as [Hp He]. rewrite (Hsay e b He eq_refl). apply to_end; [done|done| | |done].
           ++ apply Forall_app. by repeat constructor.
           ++ by rewrite <-app_assoc.
    + injection El as <- <-. split; [apply ending_task|]. rewrite (Hsay _ b (ending_task _ _ _) eq_refl). by apply told.
Qed.

Lemma bus_act id a t : act_about id a → bus (act id a t) = bus t ∨ ∃ e, event_task e = id ∧ bus (act id a t) = bus t ++ [e].
Proof. destruct a as [|e|]; cbn; eauto. Qed.
Lemma work_act id a t : work (act id a t) = work t.
Proof. by destruct a. Qed.
Lemma next_act id a t : next (registry (act id a t)) = next (registry t).
Proof. by destruct a. Qed.
Lemma get_act id a t i : is_Some (get i (registry (act id a t))) → is_Some (get i (registry t)).
Proof.
  destruct a as [p|e|o]; cbn; [|done|].
  - rewrite get_record. case_decide as Hi; [subst i|done]. by rewrite fmap_is_Some.
  - unfold get, end_task. cbn. rewrite lookup_prune. case_decide; [by intros []|]. rewrite lookup_alter_is_Some. done.
Qed.

Lemma stays {A} (m : gmap N A) id x i : is_Some (m !! i) → is_Some (<[id := x]> m !! i).
Proof. rewrite lookup_insert_is_Some'. by right. Qed.

Lemma sound_none : sound no_downloads.
Proof. split; intros *; [done|done|]. by intros ?%elem_of_nil. Qed.

Lemma sound_step t t' : task_step t t' → sound t → sound t'.
Proof.
  intros Hstep Hs. destruct Hstep as [item title files bytes r d t Hn Hd|id d c now t Hw|id h a rest t Hw].
  - unfold start_download in Hd. injection Hd as <- <-. rewrite next_id by done. cbn [download_task]. set (id := (next (registry t) + 1)%N).
    assert (work t !! id = None) as Hfresh.
    { apply eq_None_not_Some. intros [w Hw]. apply (works_sound t Hs) in Hw as [? _]. lia. }
    split; cbn.
    + intros i w. destruct (decide (i = id)) as [->|Hne].
      * rewrite lookup_insert_eq. intros [= <-]. split; [done|]. unfold work_ok. cbn [handle left_to_do bus registry download_task]. split_and!; [done|constructor| |].
        -- assert (events_of id (bus t) = []) as ->; [|done]. unfold events_of. apply elem_of_nil_inv. intros e [He Hin]%list_elem_of_filter.
           apply (events_worked t Hs) in Hin. rewrite He, Hfresh in Hin. by destruct Hin.
        -- eexists. unfold get. cbn. by rewrite lookup_insert_eq.
      * rewrite lookup_insert_ne by done. intros Hw. apply (works_sound t Hs) in Hw as [? Hok]. split; [lia|].
        unfold work_ok, status, get in *. cbn. rewrite ?lookup_insert_ne by done. destruct (handle w); [done|].
        revert Hok. apply ending_of_status. intros x. unfold status, get. cbn. by rewrite lookup_insert_ne.
    + intros i s. unfold get. cbn. destruct (decide (i = id)) as [->|Hne]; [by rewrite !lookup_insert_eq|].
      rewrite !lookup_insert_ne by done. apply (tasks_worked t Hs).
    + intros e He. apply stays. by apply (events_worked t Hs).
  - split; cbn.
    + intros i w. destruct (decide (i = id)) as [->|Hne].
      * rewrite lookup_insert_eq. intros [= <-]. destruct (works_sound t Hs _ _ Hw) as [? Hok]. split; [done|].
        by apply (call_ok id c now d t).
      * rewrite lookup_insert_ne by done. apply (works_sound t Hs).
    + intros i s Hg. apply (tasks_worked t Hs) in Hg. by apply stays.
    + intros e He. apply (events_worked t Hs) in He. by apply stays.
  - destruct (works_sound t Hs _ _ Hw) as [Hle Hok]. apply act_ok in Hok as [Ha Hok].
    split; cbn; rewrite ?work_act, ?next_act.
    + intros i w. destruct (decide (i = id)) as [->|Hne].
      * rewrite lookup_insert_eq. intros [= <-]. by split.
      * rewrite lookup_insert_ne by done. intros Hi. apply (works_sound t Hs) in Hi as [? Hi]. split; [done|]. by apply (work_ok_other id a t).
    + intros i s Hg. assert (is_Some (work t !! i)) as Hi.
      { destruct (get_act id a t i) as [s' Hg']; [by exists s|]. by apply (tasks_worked t Hs) in Hg'. }
      by apply stays.
    + intros e He. assert (is_Some (work t !! event_task e)) as Hi.
      { destruct (bus_act id a t Ha) as [Hb|(e' & Hid & Hb)]; rewrite Hb in He; [by apply (events_worked t Hs)|].
        apply elem_of_app in He as [He|He%list_elem_of_singleton]; [by apply (events_worked t Hs)|]. subst e'. by rewrite Hid, Hw. }
      by apply stays.
Qed.

Lemma sound_run t : rtc task_step no_downloads t → sound t.
Proof.
  assert (∀ t t', rtc task_step t t' → sound t → sound t') as Hall.
  { induction 1; [done|]. intros. eauto using sound_step. }
  intros. by eapply Hall, sound_none.
Qed.

Lemma ending_is_no_progress id item o : ¬ is_progress (ending id item o).
Proof. destruct o; intros []. Qed.

(** C27: A download ends once, and is heard to end only when it has. Whatever is
    called of the handles of a node's downloads, in whatever order their turns
    come: one that was not let go of is running; one that was, dropped ones too,
    is over exactly when an ending of it was published, which is its last event,
    comes after a progress of the whole download if it finished, and says what
    the registry then answers, if it still has it. *)
Theorem every_download_ends_once t id w :
  rtc task_step no_downloads t → work t !! id = Some w →
  (w = MkWork None [] ↔ ∃ e, e ∈ events_of id (bus t) ∧ ¬ is_progress e) ∧
  (w = MkWork None [] → ∃ ps item o, events_of id (bus t) = ps ++ [ending id item o] ∧ Forall is_progress ps ∧
     full_last id o ps ∧ o ≠ Running ∧ ∀ s, get id (registry t) = Some s → outcome s = o) ∧
  (is_Some (handle w) → ∃ s, get id (registry t) = Some s ∧ outcome s = Running).
Proof.
  intros Hrun Hw. destruct (works_sound t (sound_run t Hrun) _ _ Hw) as [_ Hok].
  assert (∀ l, Forall is_progress l → ¬ ∃ e, e ∈ l ∧ ¬ is_progress e) as Hno.
  { intros l Hl (e & He & Hn). rewrite Forall_forall in Hl. by apply Hn, Hl. }
  unfold work_ok in Hok. destruct w as [[d|] acts]; cbn in *.
  - destruct Hok as (_ & _ & Hb & Hr). split_and!; [split; [by intros [=]|intros He; by destruct (Hno _ Hb)]|by intros [=]|by intros _].
  - inversion Hok as [item o pre b Ho Hs Hb Hf Hr Ha|item o b Ho Hb Hf Hr Ha|item o b Ho Hb Hf Hr Ha Heq]; subst.
    + assert (MkWork None (pre ++ [EndTask o; Publish (ending id item o)]) ≠ MkWork None []) as Hne by (intros [= Hn]; by apply app_eq_nil in Hn as [_ ?]).
      split_and!; [split; [done|intros He; by destruct (Hno _ Hb)]|done|by intros []].
    + split_and!; [split; [by intros [=]|intros He; by destruct (Hno _ Hb)]|by intros [=]|by intros []].
    +     split_and!; [|intros _; by exists b, item, o|by intros []]. split; [|done]. intros _.
    exists (ending id item o). split; [set_solver|apply ending_is_no_progress].
Qed.

(** ** The registry's bound *)

Lemma fewer_ended t t' : (∀ id, id ∈ ended_ids t' → id ∈ ended_ids t) → length (ended_ids t') ≤ length (ended_ids t).
Proof. intros H. apply submseteq_length, NoDup_submseteq; [apply sorted_NoDup, ended_ids_sorted|done]. Qed.

Lemma ended_bounded t : rtc task_step no_downloads t → length (ended_ids (tasks (registry t))) ≤ KEEP_ENDED.
Proof.
  assert (∀ t t', task_step t t' → length (ended_ids (tasks (registry t))) ≤ KEEP_ENDED → length (ended_ids (tasks (registry t'))) ≤ KEEP_ENDED) as Hstep.
  { intros ? ? Hs Hb. destruct Hs as [item title files bytes r d t0 _ Hd|id d c now t0 Hw|id h a rest t0 Hw]; cbn.
    - injection Hd as <- _. etrans; [apply fewer_ended|exact Hb]. cbn. intros i (s & Hs & Hr)%elem_of_ended_ids. apply elem_of_ended_ids. exists s.
      apply lookup_insert_Some in Hs as [[_ <-]|[_ ?]]; [by unfold is_running in Hr|done].
    - done.
    - destruct a as [p|e|o]; cbn; [|done|apply ended_after_prune].
      etrans; [apply fewer_ended|exact Hb]. intros i (s & Hs & Hr)%elem_of_ended_ids. apply elem_of_ended_ids.
      destruct (decide (i = id)) as [->|Hne]; [|rewrite lookup_alter_ne in Hs by done; by exists s].
      rewrite lookup_alter_eq in Hs. destruct (tasks (registry t0) !! id) as [s'|]; [|done]. injection Hs as <-. by exists s'. }
  intros Hrun. assert (length (ended_ids (tasks (registry no_downloads))) ≤ KEEP_ENDED) as H0 by (vm_compute; lia).
  induction Hrun as [|t1 t2 t3 Hs _ IH]; [done|]. by eapply IH, Hstep.
Qed.

(** Whether a download's ending is still to be recorded. *)
Definition unended (w : Work) : bool :=
  match handle w with Some _ => true | None => existsb (λ a, match a with EndTask _ => true | _ => false end) (left_to_do w) end.

Lemma running_iff_unended t id w : rtc task_step no_downloads t → work t !! id = Some w →
  (unended w = true ↔ ∃ s, get id (registry t) = Some s ∧ outcome s = Running).
Proof.
  intros Hrun Hw. destruct (works_sound t (sound_run t Hrun) _ _ Hw) as [_ Hok]. unfold work_ok, unended in *.
  assert (∀ o, o ≠ Running → status id (Some o) (registry t) → ¬ ∃ s, get id (registry t) = Some s ∧ outcome s = Running) as Hno.
  { intros o Ho Hs (s & Hg & Hr). apply Hs in Hg. congruence. }
  destruct (handle w); [split; [intros _; apply Hok|done]|]. inversion Hok as [item o pre b Ho Hs Hb Hf Hr|item o b Ho Hb Hf Hr|item o b Ho Hb Hf Hr].
  - split; [by intros _|]. intros _. rewrite existsb_app. cbn. by rewrite orb_true_r.
  - split; [done|]. intros He. by destruct (Hno o Ho Hr).
  - split; [done|]. intros He. by destruct (Hno o Ho Hr).
Qed.

(** C36: The registry is bounded and forgets nothing that runs. At any moment it
    holds every download whose ending is not recorded yet, as running, and of
    the others at most 64. *)
Theorem registry_is_bounded t :
  rtc task_step no_downloads t →
  (∀ id w, work t !! id = Some w → unended w = true → ∃ s, get id (registry t) = Some s ∧ outcome s = Running) ∧
  length (ended_ids (tasks (registry t))) ≤ 64 ∧
  size (tasks (registry t)) ≤ 64 + size (filter (λ x, unended x.2 = true) (work t)).
Proof.
  intros Hrun. pose proof (ended_bounded t Hrun) as Hb. split_and!; [|done|].
  - intros id w Hw. by apply (running_iff_unended t id w).
  - set (l := ended_ids (tasks (registry t))) in *.
    assert (dom (tasks (registry t)) ⊆ list_to_set l ∪ dom (filter (λ x, unended x.2 = true) (work t))) as Hsub.
    { intros id [s Hs]%elem_of_dom. apply elem_of_union. destruct (is_running s) eqn:Er.
      - right. destruct (tasks_worked t (sound_run t Hrun) id s Hs) as [w Hw]. apply elem_of_dom. exists w. apply map_lookup_filter_Some. split; [done|].
        cbn. apply (running_iff_unended t id w); [done..|]. exists s. split; [done|]. unfold is_running in Er. by case_bool_decide.
      - left. apply elem_of_list_to_set, elem_of_ended_ids. by exists s. }
    apply subseteq_size in Hsub. rewrite size_dom in Hsub. etrans; [exact Hsub|]. rewrite size_union_alt, size_list_to_set by apply sorted_NoDup, ended_ids_sorted.
    apply Nat.add_le_mono; [exact Hb|]. rewrite <-(size_dom (filter _ (work t))). apply subseteq_size. set_solver.
Qed.

(** A download that outlives 64 started after it is forgotten as it ends:
    whoever hears it has ended and asks is told there is no such task. *)
Theorem long_download_is_forgotten_as_it_ends t id o e :
  rtc task_step no_downloads t →
  work t !! id = Some (MkWork None [EndTask o; Publish e]) →
  KEEP_ENDED ≤ length (filter (λ x, id < x)%N (ended_ids (tasks (registry t)))) →
  ∃ t', rtc task_step t t' ∧ bus t' = bus t ++ [e] ∧ ¬ is_progress e ∧ event_task e = id ∧ get id (registry t') = None.
Proof.
  intros Hrun Hw Hmany. set (t1 := set_work id (MkWork None [Publish e]) (act id (EndTask o) t)).
  exists (set_work id (MkWork None []) (act id (Publish e) t1)). assert (work t1 !! id = Some (MkWork None [Publish e])) as Hw1 by apply lookup_insert_eq.
  destruct (works_sound t (sound_run t Hrun) _ _ Hw) as [_ Hok]. unfold work_ok in Hok. cbn in Hok.
  remember [EndTask o; Publish e] as l eqn:El. destruct Hok as [item o' pre b Ho Hs Hb Hf (s & Hs' & Hr)|?|?]; [|done|done].
  destruct pre as [|a pre]; [|apply (f_equal length) in El; cbn in El; rewrite length_app in El; cbn in El; lia]. injection El as <- <-.
  split_and!; [|done|apply ending_is_no_progress|apply ending_task|].
  - eapply rtc_l; [by apply (step_act id None)|]. apply rtc_once. by apply (step_act id None).
  - unfold get in Hs' |- *. cbn. apply prune_forgets.
    + apply elem_of_ended_ids. eexists. rewrite lookup_alter_eq, Hs'. split; [done|]. by destruct o'.
    + etrans; [exact Hmany|]. apply submseteq_length, NoDup_submseteq; [apply NoDup_filter, sorted_NoDup, ended_ids_sorted|].
      intros i [Hlt (s' & Hi & He)%elem_of_ended_ids]%list_elem_of_filter. apply list_elem_of_filter. split; [done|].
      apply elem_of_ended_ids. exists s'. by rewrite lookup_alter_ne by lia.
Qed.

(** ** Runs one can look at *)

Inductive Command : Type :=
| Starts (item : ItemId) (title : option string) (files bytes : N)
| Calls (id : N) (c : Call) (now : N)
| Turn (id : N).
Definition command (c : Command) (t : Tasks) : option Tasks :=
  match c with
  | Starts item title files bytes =>
      if bool_decide (next (registry t) < u64_max)%N then
        let '(r, d) := start_download item title files bytes (registry t) in
        Some (MkTasks r (bus t) (<[download_task d := MkWork (Some d) []]> (work t)))
      else None
  | Calls id c now => match work t !! id with Some (MkWork (Some d) []) => Some (set_work id (call c now d) t) | _ => None end
  | Turn id => match work t !! id with Some (MkWork h (a :: rest)) => Some (set_work id (MkWork h rest) (act id a t)) | _ => None end
  end.
Fixpoint commands (l : list Command) (t : Tasks) : option Tasks :=
  match l with [] => Some t | c :: l => t ← command c t; commands l t end.

Lemma commands_run l t t' : commands l t = Some t' → rtc task_step t t'.
Proof.
  revert t. induction l as [|c l IH]; intros t; cbn; [by intros [= ->]|].
  intros (t1 & Hc & Hl)%bind_Some. eapply rtc_l; [|by apply IH]. clear Hl IH. destruct c as [item title files bytes|id c now|id]; cbn in Hc.
  - case_bool_decide; [|done]. injection Hc as <-. by eapply step_start.
  - destruct (work t !! id) as [[[d|] [|]]|] eqn:Hw; simplify_eq. by apply step_call.
  - destruct (work t !! id) as [[h [|a rest]]|] eqn:Hw; simplify_eq. by apply step_act.
Qed.

(** Two downloads; the second is dropped while the first writes a file. *)
Definition two_downloads : list Command :=
  [Starts (MkItemId (id32 7)) None 2 100; Starts (MkItemId (id32 8)) None 1 10;
   Calls 1 (CallProgress 40) 5; Turn 1; Calls 2 Dropped 6; Turn 2; Turn 1;
   Calls 1 (CallFileWritten 60) 7; Turn 1; Turn 2; Turn 1;
   Calls 1 (CallFinish []) 8; Turn 1; Turn 1; Turn 1; Turn 1].
Definition two_over : Tasks := default no_downloads (commands two_downloads no_downloads).
(** 64 downloads start after the first and end before it. *)
Definition one_outlives : list Command :=
  Starts (MkItemId (id32 7)) None 2 100 ::
  mjoin ((λ n, [Starts (MkItemId (id32 8)) None 1 10; Calls n Dropped 6; Turn n; Turn n]) <$> (N.of_nat <$> seq 2 64)) ++
  [Calls 1 (CallFail "nobody had it") 7].
Definition outlived : Tasks := default no_downloads (commands one_outlives no_downloads).

Lemma reached l : commands l no_downloads = Some (default no_downloads (commands l no_downloads)) →
  rtc task_step no_downloads (default no_downloads (commands l no_downloads)).
Proof. apply commands_run. Qed.

Lemma every_download_ends_once_witness :
  (∃ ps item o, events_of 1 (bus two_over) = ps ++ [ending 1 item o] ∧ Forall is_progress ps ∧
     full_last 1 o ps ∧ o ≠ Running ∧ ∀ s, get 1 (registry two_over) = Some s → outcome s = o) ∧
  length (bus two_over) = 5.
Proof.
  split; [|vm_compute; reflexivity].
  apply (every_download_ends_once two_over 1 (MkWork None [])); [apply reached; vm_compute; reflexivity|vm_compute; reflexivity|reflexivity].
Defined.
Lemma registry_is_bounded_witness : length (ended_ids (tasks (registry outlived))) ≤ 64 ∧ size (tasks (registry outlived)) = 65.
Proof.
  split; [|vm_compute; reflexivity]. refine (proj1 (proj2 (registry_is_bounded outlived _))). apply reached. vm_compute. reflexivity.
Defined.
Lemma long_download_is_forgotten_as_it_ends_witness :
  ∃ t', rtc task_step outlived t' ∧ bus t' = bus outlived ++ [DownloadFailed 1 (MkItemId (id32 7))] ∧ ¬ is_progress (DownloadFailed 1 (MkItemId (id32 7))) ∧
    event_task (DownloadFailed 1 (MkItemId (id32 7))) = 1%N ∧ get 1 (registry t') = None.
Proof.
  apply (long_download_is_forgotten_as_it_ends outlived 1 (Failed "nobody had it")).
  - apply reached. vm_compute. reflexivity.
  - vm_compute. reflexivity.
  - apply Nat.leb_le. vm_compute. reflexivity.
Defined.
