(* ===== verification/Uploads.v ===== *)
(** * Files a browser sends

    [crates/distlib-api/src/uploads.rs]. The uploads directory is a map from
    the names in it; what a step of the file system answers, what the body
    sends next, and where a handler is dropped are arguments. Paths are Unix's,
    as the standard library reads them. *)

From Stdlib Require Import Ascii.
From stdpp Require Import strings.
From S2P Require Import Prelude Ids Keeping Texts.

(** ** Names *)

Definition dot : ascii := "."%char.

(** [Path::file_name]. *)
Definition components (path : string) : list string :=
  filter (λ c, c ≠ "" ∧ c ≠ ".") (split_on slash path).
Definition file_name (path : string) : option string :=
  name ← last (components path); if bool_decide (name = "..") then None else Some name.

(** What is before and after the last dot. *)
Fixpoint rsplit_dot (s : string) : option (string * string) :=
  match s with
  | EmptyString => None
  | String c rest =>
      match rsplit_dot rest with
      | Some (before, after) => Some (String c before, after)
      | None => if bool_decide (c = dot) then Some (EmptyString, rest) else None
      end
  end.
(** [Path::extension]. *)
Definition extension (path : string) : option string :=
  name ← file_name path; parts ← rsplit_dot name;
  if bool_decide (parts.1 = "") then None else Some parts.2.

(** The characters of [char::is_whitespace], as the bytes of UTF-8. *)
Definition spaces : list (list N) :=
  (((λ b, [b]) <$> [9; 10; 11; 12; 13; 32]) ++ [[0xC2; 0x85]; [0xC2; 0xA0]; [0xE1; 0x9A; 0x80]] ++
  ((λ b, [0xE2; 0x80; b]) <$> [0x80; 0x81; 0x82; 0x83; 0x84; 0x85; 0x86; 0x87; 0x88; 0x89; 0x8A; 0xA8; 0xA9; 0xAF]) ++
  [[0xE2; 0x81; 0x9F]; [0xE3; 0x80; 0x80]])%N.
(** Whether [str::trim] would leave the name as it is. *)
Definition starts_with (c s : list N) : bool := bool_decide (take (length c) s = c).
Definition untrimmed (s : string) : bool :=
  let b := bytes_of s in
  negb (existsb (λ c, starts_with c b || starts_with (rev c) (rev b)) spaces).

Definition first_char (s : string) : option ascii := head (String.list_ascii_of_string s).
Definition last_char (s : string) : option ascii := last (String.list_ascii_of_string s).
Definition has_char (c : ascii) (s : string) : bool := bool_decide (c ∈ String.list_ascii_of_string s).

Definition is_plain (name : string) : bool :=
  bool_decide (file_name name = Some name) && untrimmed name &&
  negb (bool_decide (first_char name = Some dot)) && negb (bool_decide (last_char name = Some dot)) &&
  bool_decide (is_Some (extension name)) &&
  negb (has_char "\" name || has_char ":" name || has_char "000" name).

(** ** Uploads *)

(** [UploadId([u8; 16])]. *)
Record UploadId : Type := MkUploadId { upload_num : N; upload_bound : bool_decide (upload_num < 2 ^ 128)%N }.
Record Uploaded : Type := MkUploaded { upload : UploadId; uploaded_name : string; uploaded_size : N }.
Inductive UploadError : Type :=
| Filename (name : string)
| TooLarge (max : N)
| Broken (why : string)
| Unknown (upload : UploadId)
| UploadIo (path source : string).

(** What is at a name of the directory. *)
Inductive Entry : Type :=
| Directory (files : gmap string (list N))
| File (bytes : list N).
Notation UploadDir := (gmap string Entry).

(** [Uploads]. *)
Record Uploads : Type := MkUploads { uploads_dir : string; max_bytes : N }.

(** How a step ends: the handler may be dropped while it waits. *)
Inductive Step : Type := Goes | Fails (why : string) | Gone.
(** What the body sends: a piece and how writing it goes, a failure, or
    nothing more ever. *)
Inductive Sent : Type := Piece (bytes : list N) (writing : Step) | BreaksOff (why : string) | Stalls.
(** [None] of an answer is a handler that was dropped, or panicked. The file
    system is worked on in a thread of its own, which a drop does not stop:
    [dir_late] and [file_late] are whether what was asked of it comes about
    after the drop, the directory once the guard is through, the file while
    the guard removes the directory, whose removal then fails. *)
Record Meets : Type := MkMeets {
  draw : result string UploadId;
  create_dir : Step;
  create_file : Step;
  body : list Sent;
  flush : Step;
  clears : bool;
  dir_late : bool;
  file_late : bool;
}.

Section uploads.
Context `{IdText UploadId}.

Definition join (dir name : string) : string := dir +:+ "/" +:+ name.
Definition dir_of (u : Uploads) (id : UploadId) : string := join (uploads_dir u) (show_id id).

(** [Staged::drop]; a removal may fail, and is not looked at. *)
Definition drop_staged (clears : bool) (id : UploadId) (d : UploadDir) : UploadDir :=
  if clears then delete (show_id id) d else d.

Definition put_file (id : UploadId) (name : string) (bytes : list N) (d : UploadDir) : UploadDir :=
  match d !! show_id id with
  | Some (Directory files) => <[show_id id := Directory (<[name := bytes]> files)]> d
  | _ => <[show_id id := Directory {[name := bytes]}]> d
  end.

(** The loop over the body's pieces: what was written, or why it ended. *)
Fixpoint receive_body (max : N) (io : string → UploadError) (so_far : list N) (size : N) (l : list Sent)
  : list N * option (result UploadError N) :=
  match l with
  | [] => (so_far, Some (Ok size))
  | BreaksOff why :: _ => (so_far, Some (Err (Broken why)))
  | Stalls :: _ => (so_far, None)
  | Piece bytes writing :: l =>
      match add64 size (N.of_nat (length bytes)) with
      | None => (so_far, None)
      | Some size =>
          if bool_decide (max < size)%N then (so_far, Some (Err (TooLarge max)))
          else match writing with
               | Goes => receive_body max io (so_far ++ bytes) size l
               | Fails why => (so_far, Some (Err (io why)))
               | Gone => (so_far, None)
               end
      end
  end.

(** [Uploads::receive]. *)
Definition receive (u : Uploads) (name : string) (m : Meets) (d : UploadDir) : UploadDir * option (result UploadError Uploaded) :=
  if negb (is_plain name) then (d, Some (Err (Filename name)))
  else match draw m with
  | Err why => (d, Some (Err (UploadIo (uploads_dir u) why)))
  | Ok id =>
      let path := join (dir_of u id) name in
      let ended d r := (drop_staged (clears m) id d, r) in
      let make d := match d !! show_id id with None => <[show_id id := Directory ∅]> d | _ => d end in
      match create_dir m with
      | Fails why => ended d (Some (Err (UploadIo path why)))
      | Gone => let d := drop_staged (clears m) id d in (if dir_late m then make d else d, None)
      | Goes =>
          let made := make d in
          match create_file m with
          | Fails why => ended made (Some (Err (UploadIo path why)))
          | Gone => if file_late m then (put_file id name [] made, None) else ended made None
          | Goes =>
              let '(bytes, answer) := receive_body (max_bytes u) (UploadIo path) [] 0 (body m) in
              let d := put_file id name bytes made in
              match answer with
              | None => ended d None
              | Some (Err e) => ended d (Some (Err e))
              | Some (Ok size) =>
                  match flush m with
                  | Fails why => ended d (Some (Err (UploadIo path why)))
                  | Gone => ended d None
                  | Goes => (d, Some (Ok (MkUploaded id name size)))
                  end
              end
          end
      end
  end.

(** [Uploads::take]: [None] where the directory cannot be read, and the guard
    dropped by a refusal clears it; an entry of it, and the file's path. *)
Definition take_upload (u : Uploads) (reads clears : bool) (id : UploadId) (d : UploadDir) : UploadDir * result UploadError (string * list N) :=
  match d !! show_id id with
  | Some (Directory files) =>
      match map_to_list files with
      | (name, bytes) :: _ => if reads then (d, Ok (join (dir_of u id) name, bytes)) else (drop_staged clears id d, Err (Unknown id))
      | [] => (drop_staged clears id d, Err (Unknown id))
      end
  | Some (File _) | None => (drop_staged clears id d, Err (Unknown id))
  end.

(** [Uploads::open]: what is named like an upload goes, in the order listed;
    one that is no directory ends it. *)
Definition is_upload_name (name : string) : bool := bool_decide (is_Some (read_id (A := UploadId) name)).
Fixpoint clear (names : list string) (d : UploadDir) : UploadDir * result string unit :=
  match names with
  | [] => (d, Ok tt)
  | name :: names =>
      if is_upload_name name then
        match d !! name with
        | Some (File _) => (d, Err (name +:+ ": not a directory"))
        | _ => clear names (delete name d)
        end
      else clear names d
  end.
Definition open (dir : string) (max : N) (d : UploadDir) : UploadDir * result string Uploads :=
  match clear (map_to_list d).*1 d with
  | (d, Ok _) => (d, Ok (MkUploads dir max))
  | (d, Err e) => (d, Err e)
  end.
End uploads.

(** ** What is left behind *)

Section facts.
Context `{IdText UploadId} {L : IdTextLaws UploadId 32}.

(** What the body sent before it ended. *)
Fixpoint sent (l : list Sent) : list N := match l with Piece bytes _ :: l => bytes ++ sent l | _ => [] end.

Lemma receive_body_ok max io so_far size l bytes n :
  receive_body max io so_far size l = (bytes, Some (Ok n)) → (size ≤ max)%N →
  bytes = so_far ++ sent l ∧ n = (size + N.of_nat (length (sent l)))%N ∧ (n ≤ max)%N.
Proof.
  revert so_far size. induction l as [|[piece [| |]| |] l IH]; intros so_far size; cbn; try (repeat case_match; done).
  - intros [= <- <-] ?. rewrite app_nil_r. split_and!; [done|lia|done].
  - unfold add64. case_bool_decide; [|done]. case_bool_decide as Hm; [done|]. intros Hr _.
    destruct (IH _ _ Hr) as (-> & -> & ?); [lia|]. rewrite length_app, app_assoc. split_and!; [done|lia|done].
Qed.

Lemma dropped_clears id x d : d !! show_id id = None → drop_staged true id (<[show_id id := x]> d) = d.
Proof. intros Hn. unfold drop_staged. by rewrite delete_insert_id. Qed.

(** [open] clears the uploads of a previous run, and nothing else. *)
Lemma open_clears dir max d :
  map_Forall (λ name e, is_upload_name name = true → ∃ files, e = Directory files) d →
  open dir max d = (filter (λ x, is_upload_name x.1 = false) d, Ok (MkUploads dir max)).
Proof.
  intros Hd. unfold open.
  assert (∀ names d, NoDup names → (∀ name, name ∈ names → is_Some (d !! name)) →
            map_Forall (λ name e, is_upload_name name = true → ∃ files, e = Directory files) d →
            clear names d = (filter (λ x, ¬ (x.1 ∈ names ∧ is_upload_name x.1 = true)) d, Ok tt)) as Hall.
  { clear d Hd. induction names as [|name names IH]; intros d Hn Hin Hd; cbn [clear].
    - f_equal. symmetry. apply map_filter_id. intros ? ? _ [?%elem_of_nil _]. done.
    - apply NoDup_cons in Hn as [Hnot Hn]. destruct (is_upload_name name) eqn:Eu.
      + destruct (Hin name) as [e He]; [by left|]. rewrite He. destruct (Hd _ _ He Eu) as [files ->]. rewrite IH; [|done| |].
        * f_equal. apply map_eq. intros k. apply option_eq. intros e. rewrite !map_lookup_filter_Some, lookup_delete_Some. cbn. set_solver.
        * intros k Hk. rewrite lookup_delete_ne; [apply Hin; by right|set_solver].
        * by apply map_Forall_delete.
      + rewrite IH; [|done|intros k Hk; apply Hin; by right|done].
        f_equal. apply map_eq. intros k. apply option_eq. intros e. rewrite !map_lookup_filter_Some. cbn.
        split; intros [He Hx]; (split; [done|]); intros [Hk Hu]; apply Hx; (split; [|done]); [|by right].
        apply elem_of_cons in Hk as [->|]; [congruence|done]. }
  rewrite Hall; [|apply NoDup_fst_map_to_list| |done].
  - f_equal. apply map_eq. intros k. apply option_eq. intros e. rewrite !map_lookup_filter_Some. cbn. split; intros [He Hx]; (split; [done|]).
    + destruct (is_upload_name k) eqn:Eu; [|done]. destruct Hx. split; [|done]. apply list_elem_of_fmap. exists (k, e). by rewrite elem_of_map_to_list.
    + intros [_ Hu]. congruence.
  - intros k ([k' e] & -> & He%elem_of_map_to_list)%list_elem_of_fmap. by exists e.
Qed.
Lemma open_same id files dir max d :
  d !! show_id id = None → map_Forall (λ name e, is_upload_name name = true → ∃ files, e = Directory files) d →
  open dir max (<[show_id id := Directory files]> d) = open dir max d.
Proof.
  intros Hn Hd. rewrite !open_clears; [|done|by apply map_Forall_insert_2; [eauto|]]. f_equal.
  rewrite map_filter_insert_not; [done|]. intros e. cbn. unfold is_upload_name.
  rewrite read_show. by rewrite bool_decide_true by (by eexists).
Qed.

(** What a receipt that was not answered may leave of [id]'s directory:
    nothing, or, where the removal failed or the handler was dropped while the
    directory or the file was being made, a directory. *)
Definition leaves (m : Meets) (name : string) (id : UploadId) (d d' : UploadDir) (r : option (result UploadError Uploaded)) : Prop :=
  d' = d ∨
  ∃ files, d' = <[show_id id := Directory files]> d ∧
    (clears m = false ∨
     r = None ∧ create_dir m = Gone ∧ dir_late m = true ∧ files = ∅ ∨
     r = None ∧ create_dir m = Goes ∧ create_file m = Gone ∧ file_late m = true ∧ files = {[name := []]}).

Lemma ended_leaves m name id d files r :
  d !! show_id id = None → leaves m name id d (drop_staged (clears m) id (<[show_id id := Directory files]> d)) r.
Proof.
  intros Hn. destruct (clears m) eqn:Ec; [left; by apply dropped_clears|]. right. exists files. by split; [|left].
Qed.

Lemma receive_spec u name m d id :
  draw m = Ok id → d !! show_id id = None →
  match receive u name m d with
  | (d', Some (Ok up)) =>
      is_plain name = true ∧ up = MkUploaded id name (N.of_nat (length (sent (body m)))) ∧ (uploaded_size up ≤ max_bytes u)%N ∧
      d' = <[show_id id := Directory {[name := sent (body m)]}]> d
  | (d', r) => leaves m name id d d' r
  end.
Proof.
  intros Hdraw Hfresh. unfold receive. destruct (is_plain name) eqn:Hp; [|by left]. cbn [negb]. rewrite Hdraw, Hfresh.
  assert (drop_staged (clears m) id d = d) as Hd by (unfold drop_staged; destruct (clears m); [by apply delete_id|done]).
  destruct (create_dir m) eqn:Ecd; [|rewrite Hd; by left|]; cycle 1.
  { rewrite Hd. destruct (dir_late m) eqn:El; [|by left]. right. exists ∅. rewrite Hfresh. split; [done|]. right. left. by split_and!. }
  assert (∀ b, put_file id name b (<[show_id id := Directory ∅]> d) = <[show_id id := Directory {[name := b]}]> d) as Hput.
  { intros b. unfold put_file. by rewrite lookup_insert_eq, insert_insert_eq. }
  destruct (create_file m) eqn:Ecf; [|by apply ended_leaves|]; cycle 1.
  { destruct (file_late m) eqn:El; [|by apply ended_leaves]. right. exists {[name := []]}. rewrite Hput. split; [done|].
    right. right. by split_and!. }
  destruct (receive_body _ _ _ _ _) as [bytes answer] eqn:Eb. rewrite Hput.
  destruct answer as [[size|e]|]; [|by apply ended_leaves..]. apply receive_body_ok in Eb as (-> & -> & Hle); [|lia]. cbn [app] in *.
  destruct (flush m); [|by apply ended_leaves..]. by split_and!.
Qed.

End facts.

(** *** Plain names *)

Lemma split_on_app c a b : split_on c (a +:+ String c b) = split_on c a ++ split_on c b.
Proof.
  induction a as [|x a IH].
  - change ("" +:+ String c b) with (String c b). cbn [split_on]. by rewrite bool_decide_true.
  - change (String x a +:+ String c b) with (String x (a +:+ String c b)). cbn [split_on]. rewrite IH. case_bool_decide; [done|].
    destruct (split_on c a) as [|p ps] eqn:E; [|done]. by destruct a; cbn in E; repeat case_match.
Qed.
Lemma split_on_none c s : (c ∉ String.list_ascii_of_string s) → split_on c s = [s].
Proof.
  induction s as [|x s IH]; [done|]. cbn [String.list_ascii_of_string split_on]. intros [Hx Hs]%not_elem_of_cons.
  rewrite bool_decide_false by congruence. by rewrite IH.
Qed.
Lemma split_on_part_free c s p : p ∈ split_on c s → c ∉ String.list_ascii_of_string p.
Proof.
  revert p. induction s as [|x s IH]; intros p; cbn [split_on].
  - intros ->%list_elem_of_singleton. apply not_elem_of_nil.
  - case_bool_decide as Hx.
    + intros [->|Hp]%elem_of_cons; [apply not_elem_of_nil|by apply IH].
    + destruct (split_on c s) as [|q qs]; [intros ->%list_elem_of_singleton; cbn; set_solver|].
      intros [->|Hp]%elem_of_cons; [|apply IH; by right]. cbn. apply not_elem_of_cons. split; [congruence|]. apply IH. by left.
Qed.

Lemma rsplit_dot_spec s before after : rsplit_dot s = Some (before, after) → s = before +:+ String dot after.
Proof.
  revert before after. induction s as [|x s IH]; intros before after; cbn; [done|]. destruct (rsplit_dot s) as [[b a]|].
  - intros [= <- <-]. by rewrite (IH b a eq_refl).
  - case_bool_decide; [|done]. by intros [= <- <-]; subst.
Qed.
Lemma last_char_app a c : last_char (a +:+ String c "") = Some c.
Proof.
  unfold last_char. induction a as [|x a IH]; [done|]. change (String x a +:+ String c "") with (String x (a +:+ String c "")).
  cbn [String.list_ascii_of_string]. destruct (String.list_ascii_of_string (a +:+ String c "")) as [|y l] eqn:E; [by destruct a|]. done.
Qed.

(** A plain name names one file of any directory it is joined to: the path
    has the directory's components and one more, the name, and an extension,
    not empty, that is the name's own. *)
Theorem plain_names_stay_put dir name :
  is_plain name = true →
  components (join dir name) = components dir ++ [name] ∧ file_name (join dir name) = Some name ∧
  ∃ ext, ext ≠ "" ∧ extension (join dir name) = Some ext ∧ extension name = Some ext.
Proof.
  unfold is_plain. rewrite !andb_true_iff, !negb_true_iff, !bool_decide_eq_true. intros (((((Hf & _) & _) & Hl) & [ext He]) & _).
  assert (name ∈ components name ∧ name ≠ "..") as [Hin Hup].
  { unfold file_name in Hf. apply bind_Some in Hf as (n & Hn & Hf). destruct (decide (n = "..")) as [->|Hne]; [done|].
    rewrite bool_decide_false in Hf by done. simplify_eq. split; [|done]. by apply last_Some_elem_of in Hn. }
  unfold components in Hin. apply list_elem_of_filter in Hin as [Hne Hin]. apply split_on_part_free in Hin.
  assert (components (join dir name) = components dir ++ [name]) as Hc.
  { unfold components, join. change ("/" +:+ name) with (String slash name). rewrite split_on_app, (split_on_none _ name) by done.
    by rewrite filter_app, filter_cons_True. }
  assert (file_name (join dir name) = Some name) as Hfile.
  { unfold file_name. rewrite Hc, last_snoc. cbn. by rewrite bool_decide_false. }
  split_and!; [done|done|]. exists ext. split; [|split; [|done]].
  - intros ->. apply bool_decide_eq_false in Hl. apply Hl. unfold extension in He. rewrite Hf in He. cbn in He.
    apply bind_Some in He as ([b a] & Hr & He). cbn in He. case_bool_decide; simplify_eq.
    apply rsplit_dot_spec in Hr. rewrite Hr. apply last_char_app.
  - unfold extension in *. by rewrite Hfile, Hf in *.
Qed.
