(* ===== verification/Api.v ===== *)
(** * What the local API refuses, and a pledge against its requirement

    [crates/distlib-api/src/rpc.rs] and the parts of [methods.rs] its methods
    share. A message is what it is formatted from. *)

From stdpp Require Import strings.
From S2P Require Import Prelude Ids GroupSettings Events Membership Heartbeats Keeping Texts Items Community Statements Blobs Held Uploads ReadModel.

(** ** Errors *)

Inductive Message : Type :=
| NoSuchMethod (method : string)
| NoGroupYetMessage
| NoSuchItem (item : ItemId)
| NoSuchWish (wish : WishId)
| NoSuchTask (task : N)
| NoBookmarkOfYours (item : ItemId) (bookmark : BookmarkId)
| NoEvidence (member : MemberId)
| ExpulsionNeedsReason
| AlreadyThere (member : MemberId)
| NotACoreNode (member : MemberId)
| PledgeNotBelowLimit (bytes limit : N)
| WouldRequire (what : string) (required pledge : N)
| NeedsAField
| NeedsATitle
| NeedsAFile
| FilesOrUploads
| NeedsThePledge (minimum : N)
| NotADirectory (path : string)
| NotAFilePath (path : string)
| NoExtension (path : string)
| SameName (first second name : string)
| OverTheLimit (mandatory limit : N)
| HasNoFile (item : ItemId) (file : ContentHash)
| NoFilesYet (item : ItemId)
| NotWritable (file : ContentHash) (name : string)
| BothCalled (file other : ContentHash) (path : string)
| NotThisFile (path : string)
| NoRoom (short_by : N)
| ByIo (path why : string)
| ByConsensus (error : ConsensusError)
| ByCore (error : CoreError)
| BySync (error : SyncError)
| ByNet (error : NetError)
| ByStore (error : StoreError)
| ByUpload (error : UploadError)
| Otherwise (why : string).

(** [Error]: its code says which. *)
Inductive ApiError : Type :=
| MethodNotFound (why : Message)
| InvalidParams (why : Message)
| Refused (why : Message).
Definition code (e : ApiError) : Z :=
  match e with MethodNotFound _ => -32601 | InvalidParams _ => -32602 | Refused _ => -32000 end.

Definition sync_error (e : SyncError) : ApiError := Refused (BySync e).
Definition net_error (e : NetError) : ApiError := Refused (ByNet e).
Definition query_error (e : StoreError) : ApiError :=
  match e with QueryError _ _ => InvalidParams (ByStore e) | _ => Refused (ByStore e) end.

(** [map_err]. *)
Definition map_err {E F A} (f : E → F) (r : result E A) : result F A :=
  match r with Ok a => Ok a | Err e => Err (f e) end.

(** A call of one part of the state, its errors made the API's. *)
Definition on {S T E F A} (get : S → T) (set : T → S → S) (f : E → F) (act : fallible T E A) : fallible S F A := λ s,
  let '(t, r) := act (get s) in (set t s, map_err f r).
Definition given {S E A} (r : result E A) : fallible S E A := λ s, (s, r).

(** [micros_since_epoch], of a time in nanoseconds from the epoch. *)
Definition micros_since_epoch (time : Z) : N := N.min (Z.to_N (time / 1000)) u64_max.

(** [ratings_summary]: the total and the count behind the average, and this
    member's own. *)
Definition ratings_summary (ratings : gmap MemberId Rating) (me : MemberId) : option (N * N) * nat * option Rating :=
  let values := (map_entries ratings).*2 in
  let total := foldl (λ t r, wrap32 (t + rating_get r)%N) 0%N values in
  (match values with [] => None | _ => Some (total, N.of_nat (length values)) end, length values, ratings !! me).

(** ** A pledge against what it is required to be *)

Record Requirement : Type := MkRequirement { against_pledge : N; required_bytes : N }.
Definition standing (r : Requirement) : PledgeStanding := standing_of (against_pledge r) (required_bytes r).
Definition far_under (what : string) (r : Requirement) : Message := WouldRequire what (required_bytes r) (against_pledge r).
Definition under_pledged (r : Requirement) : option (N * N) :=
  match standing r with Enough => None | Under | FarUnder => Some (against_pledge r, required_bytes r) end.

Section requirement.
Context `{IdText ItemId, IdText ContentHash, IdText MemberId}.
Context (total_u64 : list N → N).

(** [Api::requirement]. *)
Definition requirement (me : MemberId) (pool : Pool) (membership : MembershipState) (more : N) (t : Tables) : result ApiError Requirement :=
  added ←? map_err query_error (read pool (added_bytes total_u64) t) ;;
  Ok (MkRequirement (match Membership.members membership !! me with Some record => pledge_bytes record | None => 0 end)
        (required_pledge (settings membership) (saturating_add64 (default 0%N (added !! me)) more))).
End requirement.

(** ** Who is seen to have an item *)

(** [Seen]. *)
Record Seen : Type := MkSeen { seen_online : gset MemberId; seen_unknown : list MemberId }.
Definition seen_now (online : gset MemberId) (knows : MemberId → bool) : Seen :=
  MkSeen online (filter (λ m, negb (knows m)) (set_entries online)).
(** [counted]. *)
Definition counted (holders unknown : list MemberId) : option nat :=
  match unknown with [] => Some (length holders) | _ => None end.
Definition seen_holders (holders : list MemberId) (s : Seen) : list MemberId :=
  merge_sort key_le (filter (λ m, m ∈ seen_online s) holders).
Definition seen_providers (holders : list MemberId) (s : Seen) : option nat := counted (seen_holders holders s) (seen_unknown s).
(** [Api::providers_of]: the members but this one, in the order to ask. *)
Definition providers_of (draws : nat → nat → option N) (me : MemberId) (holders : list MemberId) (s : Seen) (membership : MembershipState) : list MemberId :=
  ask_order draws (seen_holders holders s) (seen_online s) (filter (λ m, m ≠ me) (member_id <$> (map_entries (Membership.members membership)).*2)).
