(* ===== verification/Downloading.v ===== *)
(** * Downloading an item's files

    [library.download] of [crates/distlib-api/src/methods.rs], and
    [Blobs::export] of [distlib-net/src/blobs.rs]. The file system is a map
    from paths; what the blob store, a fetch, the group's directory and the
    file system answer are arguments. A file's text is its bytes. *)

From stdpp Require Import strings.
From S2P Require Import Prelude Ids GroupSettings Events Membership Heartbeats Keeping Failures Texts Items Community Statements Blobs Held Storage Uploads ReadModel Tasks Api.

Inductive Node : Type := FileNode (bytes : list N) | DirNode.
Notation Disk := (gmap string Node).

(** [Target]. *)
Record Target : Type := MkTarget {
  target_hash : ContentHash;
  target_record : FileRecord;
  target_path : string;
  in_place : bool;
}.

(** [files_to_download]. *)
Definition files_to_download (item : ItemId) (files : gmap ContentHash FileRecord) (file : option ContentHash)
  : result ApiError (list (ContentHash * FileRecord)) :=
  wanted ←? match file with
            | Some hash => match files !! hash with
                           | Some record => Ok [(hash, record)]
                           | None => Err (InvalidParams (HasNoFile item hash))
                           end
            | None => Ok (map_entries files)
            end ;;
  if bool_decide (wanted = []) then Err (Refused (NoFilesYet item)) else Ok wanted.

Section downloading.
Context `{Crypto, Hex}.

(** [already_there]: what reading the file fails with, if it does. *)
Definition already_there (unreadable : string → option string) (path : string) (hash : ContentHash) (size : N) (d : Disk) : result ApiError bool :=
  match unreadable path with
  | Some why => Err (Refused (ByIo path why))
  | None =>
      Ok (match d !! path with
          | Some (FileNode bytes) => bool_decide (N.of_nat (length bytes) = size) && bool_decide (blake3 bytes = hash_id32 hash)
          | _ => false
          end)
  end.

(** [targets_in]. *)
Fixpoint targets_from (unreadable : string → option string) (dest : string) (wanted : list (ContentHash * FileRecord))
    (taken : gmap string ContentHash) (d : Disk) : result ApiError (list Target) :=
  match wanted with
  | [] => Ok []
  | (hash, record) :: wanted =>
      match file_name (filename record) with
      | None => Err (Refused (NotWritable hash (filename record)))
      | Some name =>
          let path := join dest name in
          match taken !! path with
          | Some other => Err (Refused (BothCalled hash other path))
          | None =>
              let exists_ := bool_decide (is_Some (d !! path)) in
              same ←? (if exists_ then already_there unreadable path hash (file_size record) d else Ok true) ;;
              if negb same then Err (Refused (NotThisFile path))
              else
                targets ←? targets_from unreadable dest wanted (<[path := hash]> taken) d ;;
                Ok (MkTarget hash record path exists_ :: targets)
          end
      end
  end.
Definition targets_in unreadable dest wanted d := targets_from unreadable dest wanted ∅ d.

(** ** Writing a blob out *)

(** [partial_of]: beside the target, hidden. *)
Definition partial_of (target : string) : string :=
  joined (removelast (split_on slash target) ++ ["." +:+ default "" (file_name target) +:+ ".partial"]).

(** How the copy and the rename go, and what is still at the partial name when
    one fails: nothing, if removing it goes, since that is not looked at. *)
Record Exporting : Type := MkExporting {
  copied : result string (list N);
  renamed : result string unit;
  part_stays : option (list N);
}.
Definition clear_partial (partial : string) (x : Exporting) (d : Disk) : Disk :=
  match part_stays x with None => delete partial d | Some bytes => <[partial := FileNode bytes]> d end.

(** [Blobs::export]. *)
Definition export (hash : ContentHash) (target : string) (x : Exporting) : fallible Disk NetError unit := λ d,
  let partial := partial_of target in
  match copied x with
  | Err why => (clear_partial partial x d, Err (ExportError hash target why))
  | Ok bytes =>
      match renamed x with
      | Ok _ => (<[target := FileNode bytes]> (delete partial d), Ok tt)
      | Err why => (clear_partial partial x d, Err (ExportError hash target why))
      end
  end.

(** ** Fetching and writing the targets *)

(** What a target meets: the blob store, a fetch, whether a core node answers
    where the providers are, a second fetch, and writing it out. *)
Record Trip : Type := MkTrip {
  trip_store : StoreWorld;
  first_fetch : result string (list DownloadProgressItem);
  core_answers : bool;
  second_fetch : result string (list DownloadProgressItem);
  exporting : Exporting;
}.

(** What the download changes, and what it calls of its task. *)
Record Local : Type := MkLocal { local_tags : Tags; local_disk : Disk; refresh_spent : bool; asked : nat; calls : list Call }.
Definition on_tags {A} (act : fallible Tags NetError A) : fallible Local ApiError A :=
  on local_tags (λ t l, MkLocal t (local_disk l) (refresh_spent l) (asked l) (calls l)) net_error act.
Definition on_disk {A} (act : fallible Disk NetError A) : fallible Local ApiError A :=
  on local_disk (λ d l, MkLocal (local_tags l) d (refresh_spent l) (asked l) (calls l)) net_error act.
Definition calls_task (c : list Call) : fallible Local ApiError unit :=
  fmodify (λ l, MkLocal (local_tags l) (local_disk l) (refresh_spent l) (asked l) (calls l ++ c)).

(** The offsets a fetch reports before it ends. *)
Fixpoint offsets (items : list DownloadProgressItem) : list N :=
  match items with
  | [] | Blobs.DownloadFailed _ :: _ | DownloadError :: _ => []
  | Blobs.Progress offset :: items => offset :: offsets items
  | OtherProgress :: items => offsets items
  end.

(** [Api::fetch]: each report is of the whole download. *)
Definition fetch_file (hash : ContentHash) (before : N) (started : result string (list DownloadProgressItem)) : fallible Local ApiError unit :=
  calls_task (match started with Ok items => (λ got, CallProgress (before + got)) <$> offsets items | Err _ => [] end) ;!
  given (map_err net_error (fetch_with_progress hash started).2).

(** [OneRefresh::spend], which asks a core node unless it was spent. *)
Definition spend (answers : bool) : fallible Local ApiError bool := λ l,
  (MkLocal (local_tags l) (local_disk l) true (if refresh_spent l then asked l else S (asked l)) (calls l),
   Ok (negb (refresh_spent l) && answers)).

(** The first fetch, and once per download a second. *)
Definition fetch_or_ask (hash : ContentHash) (done : N) (trip : Trip) : fallible Local ApiError unit := λ l,
  match fetch_file hash done (first_fetch trip) l with
  | (l, Ok _) => (l, Ok tt)
  | (l, Err failure) =>
      match spend (core_answers trip) l with
      | (l, Ok true) => fetch_file hash done (second_fetch trip) l
      | (l, _) => (l, Err failure)
      end
  end.

(** [Api::fetch_all]: [None] is a panic of the sum of the sizes. *)
Definition downloaded (t : Target) (from : Source) : Downloaded :=
  MkDownloaded (target_hash t) (filename (target_record t)) (target_path t) from.
Fixpoint fetch_all (item : ItemId) (targets : list (Target * Trip)) (done : N) : fallible Local ApiError (option (list Downloaded)) :=
  match targets with
  | [] => fret (Some [])
  | (t, trip) :: targets =>
      let after := add64 done (file_size (target_record t)) in
      if in_place t then
        match after with
        | None => fret None
        | Some done =>
            calls_task [CallFileWritten done] ;!
            files ←! fetch_all item targets done ;;
            fret (cons (downloaded t Destination) <$> files)
        end
      else
        on_tags (keep (trip_store trip) Cache item (target_hash t)) ;!
        here ←! given (map_err net_error (has (trip_store trip) (target_hash t))) ;;
        (if here : bool then fret tt else fetch_or_ask (target_hash t) done trip) ;!
        match after with
        | None => fret None
        | Some done =>
            on_disk (export (target_hash t) (target_path t) (exporting trip)) ;!
            calls_task [CallFileWritten done] ;!
            files ←! fetch_all item targets done ;;
            fret (cons (downloaded t (if here : bool then FromStore else Network)) <$> files)
        end
  end.

(** How [finish_download_in_background] ends the task; a panic drops it. *)
Definition ending_call (r : result ApiError (option (list Downloaded))) (told : ApiError → string) : Call :=
  match r with Ok (Some files) => CallFinish files | Ok None => Dropped | Err e => CallFail (told e) end.

(** ** The request *)

Record Front : Type := MkFront { front_tables : Tables; front_storage : StorageState; front_disk : Disk; front_tasks : Registry }.

Context `{IdText MemberId, CommunityJson}.
Context (order : Tags → list (string * ContentHash)) (visit : KeptBlobs → list (ContentHash * KeptBlob)).

(** [download_destination]: how making the node's own directory goes. *)
Definition download_destination (named : option string) (downloads : string) (makes : result string unit) (d : Disk) : Disk * result ApiError string :=
  let '(d, dest) := match named with
                    | Some dest => (d, Ok dest)
                    | None => match makes with
                              | Ok _ => (match d !! downloads with None => <[downloads := DirNode]> d | _ => d end, Ok downloads)
                              | Err why => (d, Err (Refused (ByIo downloads why)))
                              end
                    end in
  (d, dest ←? dest ;;
      match d !! dest with Some DirNode => Ok dest | _ => Err (InvalidParams (NotADirectory dest)) end).

(** What a request meets besides the state. *)
Record Asking : Type := MkAsking {
  makes_downloads : result string unit;
  unreadable : string → option string;
  reading_pool : Pool;
  marking_pool : Pool;
  room_store : StoreWorld;
  limit : option N;
  asked_at : Z;
  clock : N;
  uses : result string (ItemId → option Z);
}.

(** [make_room_for_download]. *)
Definition make_room_for_download (a : Asking) (item : ItemId) (targets : list Target) (s : StorageState) : option (StorageState * result ApiError unit) :=
  let files := (λ t, (target_hash t, file_size (target_record t))) <$> filter (λ t, in_place t = false) targets in
  '(s, room) ← make_room order visit (room_store a) (limit a) (clock a) item files (uses a) s;
  Some (s, match room with
           | Ok Made => Ok tt
           | Ok (Short short_by) => Err (Refused (NoRoom short_by))
           | Err (Storage.BlobsError e) => Err (net_error e)
           | Err (Storage.StoreError why) => Err (Refused (Otherwise why))
           end).

(** [Api::download], up to the task it starts; [None] is a panic. *)
Definition download_request (me : MemberId) (membership : MembershipState) (downloads : string)
    (item_id : ItemId) (named : option string) (file : option ContentHash) (a : Asking) (f : Front)
  : option (Front * result ApiError (Download * list Target)) :=
  let refuse f e := Some (f, Err e) in
  if negb (pledges_the_minimum membership me) then refuse f (Refused (NeedsThePledge (min_pledge_bytes (settings membership))))
  else
    let '(d, dest) := download_destination named downloads (makes_downloads a) (front_disk f) in
    let f := MkFront (front_tables f) (front_storage f) d (front_tasks f) in
    match (dest ←? dest ;;
           read_item ←? map_err (λ e, Refused (ByStore e)) (read (reading_pool a) (item item_id) (front_tables f)) ;;
           stored ←? match read_item with Some s => Ok s | None => Err (Refused (NoSuchItem item_id)) end ;;
           wanted ←? files_to_download item_id (files (stored_item stored)) file ;;
           targets ←? targets_in (unreadable a) dest wanted d ;;
           Ok (title (stored_item stored), targets)) with
    | Err e => refuse f e
    | Ok (title, targets) =>
        let '(t, marked) := write "told an item was used" (marking_pool a) (mark_used item_id (asked_at a)) (front_tables f) in
        let f := MkFront t (front_storage f) d (front_tasks f) in
        match marked with
        | Err e => refuse f (query_error e)
        | Ok _ =>
            '(s, room) ← make_room_for_download a item_id targets (front_storage f);
            let f := MkFront t s d (front_tasks f) in
            match room with
            | Err e => refuse f e
            | Ok _ =>
                bytes ← sum64 ((λ t, file_size (target_record t)) <$> targets);
                let '(r, task) := start_download item_id title (N.of_nat (length targets)) bytes (front_tasks f) in
                Some (MkFront t s d r, Ok (task, targets))
            end
        end
    end.
End downloading.

(** ** What is written *)

Section facts.
Context `{Crypto, Hex}.

(** A file of the blob. *)
Definition is_file (d : Disk) (path : string) (hash : ContentHash) : Prop :=
  ∃ bytes, d !! path = Some (FileNode bytes) ∧ blake3 bytes = hash_id32 hash.

(** What [targets_in] checked of a target. *)
Definition target_ok (d : Disk) (t : Target) : Prop :=
  if in_place t then is_file d (target_path t) (target_hash t) else d !! target_path t = None.

Lemma targets_from_ok unreadable dest wanted taken d ts :
  targets_from unreadable dest wanted taken d = Ok ts →
  (λ t, (target_hash t, target_record t)) <$> ts = wanted ∧ Forall (target_ok d) ts ∧
  NoDup (target_path <$> ts) ∧ Forall (λ t, taken !! target_path t = None) ts ∧
  Forall (λ t, ∃ name, file_name (filename (target_record t)) = Some name ∧ target_path t = join dest name) ts.
Proof.
  revert taken ts. induction wanted as [|[h r] wanted IH]; intros taken ts; cbn [targets_from].
  { intros [= <-]. split_and!; constructor. }
  destruct (file_name (filename r)) as [name|] eqn:En; [|done]. set (path := join dest name).
  destruct (taken !! path) eqn:Et; [done|]. intros Hok.
  destruct (if bool_decide _ then _ else _) as [same|] eqn:Es; [|done]. cbn [result_bind] in Hok. destruct same; [|done]. cbn [negb] in Hok.
  destruct (targets_from _ _ wanted _ d) as [ts'|] eqn:E; [|done]. injection Hok as <-.
  destruct (IH _ _ E) as (Hw & Ho & Hn & Htaken & Hnames). cbn [fmap list_fmap target_hash target_record]. rewrite Hw.
  assert (target_path <$> ts' ≠ [] → path ∉ target_path <$> ts') as Hfresh.
  { intros _ (t & Ht & Hin)%list_elem_of_fmap. rewrite Forall_forall in Htaken. specialize (Htaken t Hin).
    rewrite <-Ht, lookup_insert_eq in Htaken. done. }
  split_and!; [done| | | |].
  - constructor; [|done]. unfold target_ok. cbn. case_bool_decide as Hd.
    + unfold already_there in Es. destruct (unreadable path); [done|]. injection Es as Es. unfold is_file.
      destruct (d !! path) as [[bytes|]|]; [|done..]. apply andb_true_iff in Es as [_ Es%bool_decide_eq_true]. by exists bytes.
    + by apply eq_None_not_Some.
  - constructor; [|done]. cbn. destruct ts' as [|t ts']; [set_solver|]. by apply Hfresh.
  - constructor; [done|]. eapply Forall_impl; [exact Htaken|]. cbn. intros t Ht. by apply lookup_insert_None in Ht as [? _].
  - constructor; [by exists name|done].
Qed.

Lemma on_tags_disk {A} (act : fallible Tags NetError A) l : local_disk (on_tags act l).1 = local_disk l ∧
  asked (on_tags act l).1 = asked l ∧ refresh_spent (on_tags act l).1 = refresh_spent l ∧ calls (on_tags act l).1 = calls l.
Proof. unfold on_tags, on. by destruct (act _). Qed.

(** Progress but no file written. *)
Definition file_calls (c : list Call) : list N := omap (λ c, match c with CallFileWritten n => Some n | _ => None end) c.

(** What fetching leaves alone. *)
Record fetched (l l' : Local) : Prop := {
  fetched_disk : local_disk l' = local_disk l;
  fetched_calls : file_calls (calls l') = file_calls (calls l);
  fetched_asks : (refresh_spent l = true → refresh_spent l' = true ∧ asked l' = asked l) ∧
                 (refresh_spent l = false → asked l' ≤ asked l + (if refresh_spent l' then 1 else 0));
}.
Lemma fetch_file_leaves hash before started l : fetched l (fetch_file hash before started l).1.
Proof.
  assert (∀ c d, file_calls (c ++ ((λ got, CallProgress (before + got)) <$> d)) = file_calls c) as Hc.
  { intros c d. unfold file_calls. rewrite omap_app. replace (omap _ (_ <$> d)) with (@nil N); [apply app_nil_r|]. by induction d. }
  unfold fetch_file, calls_task, given. run.
  destruct (fetch_with_progress hash started).2; cbn; (split; cbn; [done| |split; [done|lia]]);
    (destruct started as [items|]; [apply Hc|by rewrite app_nil_r]).
Qed.
Lemma fetch_or_ask_leaves hash done trip l : fetched l (fetch_or_ask hash done trip l).1.
Proof.
  unfold fetch_or_ask. pose proof (fetch_file_leaves hash done (first_fetch trip) l) as [Hd Hc Ha].
  destruct (fetch_file hash done (first_fetch trip) l) as [l1 [[]|e]]; cbn [fst] in *; [by split|].
  unfold spend. destruct (negb (refresh_spent l1) && core_answers trip) eqn:Es; cbn -[fetch_file].
  - match goal with |- context [fetch_file hash done (second_fetch trip) ?x] =>
      pose proof (fetch_file_leaves hash done (second_fetch trip) x) as [Hd2 Hc2 Ha2];
      destruct (fetch_file hash done (second_fetch trip) x) as [l3 r] end. cbn [local_disk calls asked refresh_spent fst] in *. split; [congruence|congruence|].
    destruct Ha2 as [Ha2 _], Ha as [Hone Htwo]. destruct (Ha2 eq_refl) as [Hs3 Hn3]. rewrite Hs3, Hn3. split; intros Hs.
    + destruct (Hone Hs) as [Hs1 ->]. by rewrite Hs1.
    + specialize (Htwo Hs). destruct (refresh_spent l1); lia.
  - split; cbn; [done|done|]. destruct Ha as [Hone Htwo]. split; intros Hs.
    + destruct (Hone Hs) as [-> ->]. done.
    + specialize (Htwo Hs). destruct (refresh_spent l1); lia.
Qed.

(** Content is verified as it is exported: iroh-blobs' promise. *)
Definition verified (x : Target * Trip) : Prop :=
  ∀ bytes, copied (exporting x.2) = Ok bytes → blake3 bytes = hash_id32 (target_hash x.1).
(** No target is where another is written to before it is complete. *)
Definition apart (ts : list Target) : Prop := ∀ t u, t ∈ ts → u ∈ ts → target_path t ≠ partial_of (target_path u).

Fixpoint totals (done : N) (ts : list Target) : list N :=
  match ts with [] => [] | t :: ts => (done + file_size (target_record t))%N :: totals (done + file_size (target_record t))%N ts end.

(** A part of a target's file that could not be removed. *)
Definition part_left (ts : list (Target * Trip)) (p : string) : Prop :=
  ∃ x, x ∈ ts ∧ p = partial_of (target_path x.1) ∧ is_Some (part_stays (exporting x.2)).

(** What fetching targets does to the disk it finds, ending as it may. *)
Record files_kept (ts : list (Target * Trip)) (d d' : Disk) : Prop := {
  others_stay p n : d !! p = Some n →
    (∀ x, x ∈ ts → p ≠ partial_of (target_path x.1) ∧ (in_place x.1 = false → p ≠ target_path x.1)) → d' !! p = Some n;
  each_path p : d' !! p = d !! p ∨ d' !! p = None ∨
    (∃ x, x ∈ ts ∧ target_path x.1 = p ∧ is_file d' p (target_hash x.1)) ∨ part_left ts p;
}.
(** What it has done when it ends well. *)
Record files_given (ts : list Target) (done : N) (files : list Downloaded) (l l' : Local) : Prop := {
  all_told : (λ f, (downloaded_file f, downloaded_path f)) <$> files = (λ t, (target_hash t, target_path t)) <$> ts;
  all_counted : file_calls (calls l') = file_calls (calls l) ++ totals done ts;
}.

Lemma told_fsts (files : list Downloaded) (ts : list Target) :
  (λ f, (downloaded_file f, downloaded_path f)) <$> files = (λ t, (target_hash t, target_path t)) <$> ts →
  downloaded_file <$> files = ((λ t, (target_hash t, target_record t)) <$> ts).*1.
Proof. revert ts. induction files as [|f files IH]; intros [|t ts] [=]; [done|]. cbn. f_equal; [done|by apply IH]. Qed.
Lemma told_snds (files : list Downloaded) (ts : list Target) :
  (λ f, (downloaded_file f, downloaded_path f)) <$> files = (λ t, (target_hash t, target_path t)) <$> ts →
  downloaded_path <$> files = target_path <$> ts.
Proof. revert ts. induction files as [|f files IH]; intros [|t ts] [=]; [done|]. cbn. f_equal; [done|by apply IH]. Qed.

Lemma files_kept_refl ts d : files_kept ts d d.
Proof. split; [done|]. by left. Qed.

Lemma is_file_same d d' p h : d' !! p = d !! p → is_file d p h → is_file d' p h.
Proof. intros Heq (b & Hb & Hh). exists b. by rewrite Heq. Qed.

(** A target, then the rest. *)
Lemma files_kept_then x ts d d1 d' : files_kept [x] d d1 → files_kept ts d1 d' → files_kept (x :: ts) d d'.
Proof.
  intros Hk1 Hk2. split.
  - intros p n Hp Hn. apply (others_stay _ _ _ Hk2); [|intros u Hu; apply Hn; by right].
    apply (others_stay _ _ _ Hk1); [done|]. intros u ->%list_elem_of_singleton. apply Hn. by left.
  - intros p. destruct (each_path _ _ _ Hk2 p) as [Heq|[?|[(u & Hu & ? & ?)|(u & Hu & ? & ?)]]].
    + rewrite Heq. destruct (each_path _ _ _ Hk1 p) as [?|[?|[(u & Hu & ? & Hf)|(u & Hu & ? & ?)]]]; [by left|by right; left| |].
      * right. right. left. exists u. apply list_elem_of_singleton in Hu as ->. split_and!; [by left|done|]. by apply (is_file_same d1).
      * right. right. right. exists u. apply list_elem_of_singleton in Hu as ->. split_and!; [by left|done|done].
    + right. by left.
    + right. right. left. exists u. split; [by right|done].
    + right. right. right. exists u. split; [by right|done].
Qed.

Lemma export_keeps t trip (l : Disk) :
  in_place t = false → verified (t, trip) → let e := export (target_hash t) (target_path t) (exporting trip) l in
  files_kept [(t, trip)] l e.1 ∧ (is_ok e.2 = true → is_file e.1 (target_path t) (target_hash t)).
Proof.
  intros Hplace Hv. unfold export. set (partial := partial_of (target_path t)) in *.
  assert (files_kept [(t, trip)] l (clear_partial partial (exporting trip) l)) as Hdel.
  { unfold clear_partial. destruct (part_stays (exporting trip)) as [b|] eqn:Eb; split.
    - intros p n Hp Hpar. destruct (Hpar (t, trip)) as [Hne _]; [by left|]. rewrite lookup_insert_ne; [done|]. by intros <-.
    - intros p. destruct (decide (p = partial)) as [->|Hne]; [|left; by rewrite lookup_insert_ne].
      do 3 right. exists (t, trip). split_and!; [by left|done|cbn; by rewrite Eb].
    - intros p n Hp Hpar. destruct (Hpar (t, trip)) as [Hne _]; [by left|]. rewrite lookup_delete_ne; [done|]. by intros <-.
    - intros p. destruct (decide (p = partial)) as [->|Hne]; [right; left; apply lookup_delete_eq|left; by rewrite lookup_delete_ne]. }
  destruct (copied (exporting trip)) as [bytes|] eqn:Ec; [|by split]. destruct (renamed (exporting trip)); [|by split]. cbn. split.
  - split.
    + intros p n Hp Hpar. destruct (Hpar (t, trip)) as [Hne Hnt]; [by left|]. cbn in Hne, Hnt. specialize (Hnt Hplace). fold partial in Hne.
      rewrite lookup_insert_ne, lookup_delete_ne by congruence. done.
    + intros p. destruct (decide (p = target_path t)) as [->|Hd].
      * right. right. left. exists (t, trip). split_and!; [by left|done|]. exists bytes. rewrite lookup_insert_eq. split; [done|]. by apply Hv.
      * rewrite lookup_insert_ne by done. destruct (decide (p = partial)) as [->|Hne]; [right; left; apply lookup_delete_eq|left; by rewrite lookup_delete_ne].
  - intros _. exists bytes. rewrite lookup_insert_eq. split; [done|]. by apply Hv.
Qed.

(** One target's turn: it ends the download, or its file is there and the rest
    goes on. *)
Lemma fetch_all_turn item t trip ts done l l' r :
  verified (t, trip) → fetch_all item ((t, trip) :: ts) done l = (l', r) →
  (files_kept [(t, trip)] (local_disk l) (local_disk l') ∧ ∀ files, r ≠ Ok (Some files)) ∨
  ∃ l1 from r1, let after := (done + file_size (target_record t))%N in
    files_kept [(t, trip)] (local_disk l) (local_disk l1) ∧
    ((in_place t = true → is_file (local_disk l) (target_path t) (target_hash t)) → is_file (local_disk l1) (target_path t) (target_hash t)) ∧
    file_calls (calls l1) = file_calls (calls l) ++ [after] ∧
    fetch_all item ts after l1 = (l', r1) ∧
    r = match r1 with Ok files => Ok (cons (downloaded t from) <$> files) | Err e => Err e end.
Proof.
  intros Hv. cbn [fetch_all].
  assert (∀ after, add64 done (file_size (target_record t)) = Some after → after = (done + file_size (target_record t))%N) as Hafter.
  { intros after. unfold add64. case_bool_decide; [by intros [= <-]|done]. }
  destruct (in_place t) eqn:Eplace.
  - destruct (add64 _ _) as [after|]; [|intros [= <- <-]; left; by split; [apply files_kept_refl|]]. rewrite <-(Hafter after eq_refl). unfold fbind at 1, calls_task, fmodify.
    set (l1 := MkLocal _ _ _ _ _). unfold fbind, fret. destruct (fetch_all item ts after l1) as [l2 r1] eqn:E. intros Hr. right.
    exists l1, Destination, r1. split_and!; [apply files_kept_refl|intros Hf; by apply Hf| |by destruct r1; injection Hr as <-|by destruct r1; injection Hr as _ <-].
    cbn. unfold file_calls. by rewrite omap_app.
  - unfold fbind at 1. destruct (on_tags_disk (keep (trip_store trip) Cache item (target_hash t)) l) as (Hd & _ & _ & Hc).
    destruct (on_tags _ l) as [l1 [[]|e]]; cbn [fst] in *; [|intros [= <- <-]; left; rewrite Hd; split; [apply files_kept_refl|done]].
    unfold fbind at 1, given. destruct (map_err net_error (has (trip_store trip) (target_hash t))) as [here|e];
      [|intros [= <- <-]; left; rewrite Hd; split; [apply files_kept_refl|done]].
    unfold fbind at 1. set (get := if here then fret () else _).
    assert (fetched l1 (get l1).1) as [Hfd Hfc _] by (unfold get; destruct here; [by split; cbn; auto with lia|apply fetch_or_ask_leaves]).
    destruct (get l1) as [l2 [[]|e]]; cbn [fst] in *; [|intros [= <- <-]; left; rewrite Hfd, Hd; split; [apply files_kept_refl|done]].
    destruct (add64 _ _) as [after|]; [|intros [= <- <-]; left; rewrite Hfd, Hd; by split; [apply files_kept_refl|]]. rewrite <-(Hafter after eq_refl).
    destruct (export_keeps t trip (local_disk l2) Eplace Hv) as [Hk Hf]. rewrite Hfd, Hd in Hk, Hf.
    unfold fbind at 1, on_disk, on. rewrite Hfd, Hd. destruct (export (target_hash t) (target_path t) (exporting trip) (local_disk l)) as [d3 [[]|e]]; cbn [fst snd map_err] in *;
      [|intros [= <- <-]; left; by split]. unfold fbind at 1, calls_task, fmodify. set (l4 := MkLocal _ _ _ _ _). unfold fbind, fret.
    destruct (fetch_all item ts after l4) as [l5 r1] eqn:E. intros Hr. right.
    exists l4, (if here then FromStore else Network), r1. split_and!; [done|intros _; by apply Hf| |by destruct r1; injection Hr as <-|by destruct r1; injection Hr as _ <-].
    cbn. unfold file_calls in *. rewrite omap_app. cbn. by rewrite Hfc, Hc.
Qed.

Lemma fetch_all_ok item ts done l l' r :
  Forall verified ts → fetch_all item ts done l = (l', r) →
  files_kept ts (local_disk l) (local_disk l') ∧ ∀ files, r = Ok (Some files) → files_given ts.*1 done files l l'.
Proof.
  revert done l l' r. induction ts as [|[t trip] ts IH]; intros done l l' r Hv Hall; cbn [fmap list_fmap fst] in *.
  { cbn in Hall. injection Hall as <- <-. split; [apply files_kept_refl|]. intros files [= <-]. split; [done|by rewrite app_nil_r]. }
  apply Forall_cons in Hv as [Hv Hvs].
  apply fetch_all_turn in Hall as [[Hk Hno]|(l1 & from & r1 & Hk & _ & Hc & Hrest & ->)]; [| |done].
  { split; [|intros files ->; by destruct (Hno files)]. apply (files_kept_then _ _ _ _ _ Hk), files_kept_refl. }
  destruct (IH _ _ _ _ Hvs Hrest) as [Hk' Hg]. split; [by apply (files_kept_then _ _ _ (local_disk l1))|].
  intros files Hr. destruct r1 as [[files1|]|]; [|done..]. injection Hr as <-. destruct (Hg files1 eq_refl) as [Hl Hcalls]. split.
  - cbn. by rewrite Hl.
  - by rewrite Hcalls, Hc, <-app_assoc.
Qed.

(** With the targets apart, what is at one is of no other's doing. *)
Lemma apart_stays (x : Target * Trip) (ts : list (Target * Trip)) d d' h :
  apart (x.1 :: ts.*1) → target_path x.1 ∉ target_path <$> ts.*1 → files_kept ts d d' → is_file d (target_path x.1) h → is_file d' (target_path x.1) h.
Proof.
  intros Ha Hn Hk (b & Hb & Hh). exists b. split; [|done]. apply (others_stay _ _ _ Hk); [done|]. intros y Hy. split.
  - apply Ha; [by left|right; by apply list_elem_of_fmap_2].
  - intros _ Heq. apply Hn. rewrite Heq. by do 2 apply list_elem_of_fmap_2.
Qed.

Lemma fetch_all_there item ts done l l' files :
  Forall (λ t, in_place t = true → is_file (local_disk l) (target_path t) (target_hash t)) ts.*1 → NoDup (target_path <$> ts.*1) → apart ts.*1 →
  Forall verified ts → fetch_all item ts done l = (l', Ok (Some files)) →
  Forall (λ t, is_file (local_disk l') (target_path t) (target_hash t)) ts.*1.
Proof.
  revert done l files. induction ts as [|[t trip] ts IH]; intros done l files Hok Hn Ha Hv Hall; cbn [fmap list_fmap fst] in *; [constructor|].
  apply Forall_cons in Hok as [Hok Hoks], Hv as [Hv Hvs]. apply NoDup_cons in Hn as [Hnot Hn].
  apply fetch_all_turn in Hall as [[_ Hno]|(l1 & from & r1 & Hk & Hf & _ & Hrest & Hr)]; [by destruct (Hno files)| |done].
  destruct r1 as [[files1|]|]; [|done..]. specialize (Hf Hok).
  assert (apart ts.*1) as Has by (intros u v ? ?; apply Ha; by right).
  constructor.
  - destruct (fetch_all_ok item ts _ l1 l' (Ok (Some files1)) Hvs Hrest) as [Hk' _]. by apply (apart_stays (t, trip) ts (local_disk l1)).
  - apply (IH (done + file_size (target_record t))%N l1 files1); [|done..].
    rewrite Forall_forall in *. intros u Hu Hin. specialize (Hoks u Hu Hin). destruct Hoks as (b & Hb & Hh). exists b. split; [|done].
    apply (others_stay _ _ _ Hk); [done|]. intros y ->%list_elem_of_singleton. split; [apply Ha; [by right|by left]|].
    intros _ Heq. apply Hnot. cbn in Heq. rewrite <-Heq. by apply list_elem_of_fmap_2.
Qed.

(** At most one core node is asked, however many fetches fail. *)
Definition asks_once (l l' : Local) : Prop :=
  (refresh_spent l = true → refresh_spent l' = true ∧ asked l' = asked l) ∧
  (refresh_spent l = false → asked l' ≤ asked l + (if refresh_spent l' then 1 else 0)).

Lemma asks_once_bind {A B} (m : fallible Local ApiError A) (k : A → fallible Local ApiError B) :
  (∀ l, asks_once l (m l).1) → (∀ a l, asks_once l (k a l).1) → ∀ l, asks_once l (fbind m k l).1.
Proof.
  intros Hm Hk l. specialize (Hm l). unfold fbind. destruct (m l) as [l1 [a|e]]; [|done]. specialize (Hk a l1). cbn [fst] in *.
  destruct Hm as [H1 H2], Hk as [H3 H4]. split; intros Hs.
  - destruct (H1 Hs) as [Hs1 E1]. destruct (H3 Hs1) as [Hs2 E2]. split; [done|]. by rewrite E2, E1.
  - specialize (H2 Hs). destruct (refresh_spent l1).
    + destruct (H3 eq_refl) as [E1 E2]. rewrite E1, E2. lia.
    + specialize (H4 eq_refl). lia.
Qed.
Lemma asks_once_same l l' : refresh_spent l' = refresh_spent l → asked l' = asked l → asks_once l l'.
Proof. intros Hs Ha. split; intros H1; rewrite Ha; [by rewrite Hs|lia]. Qed.

Lemma fetch_all_asks item ts done l : asks_once l (fetch_all item ts done l).1.
Proof.
  assert (∀ A (a : A) l, asks_once l (fret (E := ApiError) a l).1) as Hret by (intros; by apply asks_once_same).
  assert (∀ c l, asks_once l (calls_task c l).1) as Hcalls by (intros; by apply asks_once_same).
  revert done l. induction ts as [|[t trip] ts IH]; intros done l; [apply Hret|]. cbn [fetch_all].
  assert (∀ from done l, asks_once l ((files ←! fetch_all item ts done ;; fret (cons (downloaded t from) <$> files)) l).1) as Hrest.
  { intros from d. apply asks_once_bind; [apply IH|intros; apply Hret]. }
  destruct (in_place t).
  - destruct (add64 _ _); [|apply Hret]. apply asks_once_bind; [done|intros _; apply Hrest].
  - apply asks_once_bind; [intros l1; destruct (on_tags_disk (keep (trip_store trip) Cache item (target_hash t)) l1) as (_ & ? & ? & _); by apply asks_once_same|].
    intros _. apply asks_once_bind; [intros; by apply asks_once_same|]. intros here. apply asks_once_bind.
    + intros l1. destruct here; [apply Hret|]. apply fetch_or_ask_leaves.
    + intros _ l1. destruct (add64 _ _); [|apply Hret]. revert l1. apply asks_once_bind; [|intros _; apply asks_once_bind; [done|intros _; apply Hrest]].
      intros l2. unfold on_disk, on. destruct (export _ _ _ _). by apply asks_once_same.
Qed.


(** A blob that is here is written out. *)
Lemma fetch_one_here item t trip tags d b :
  in_place t = false → (file_size (target_record t) ≤ u64_max)%N →
  (∀ tags, is_ok (keep (trip_store trip) Cache item (target_hash t) tags).2 = true) →
  has (trip_store trip) (target_hash t) = Ok true → exporting trip = MkExporting (Ok b) (Ok tt) None →
  ∃ l, fetch_all item [(t, trip)] 0 (MkLocal tags d false 0 []) = (l, Ok (Some [downloaded t FromStore])) ∧
    local_disk l = <[target_path t := FileNode b]> (delete (partial_of (target_path t)) d).
Proof.
  intros Hp Hsize Hkeep Hhas Hx. cbn [fetch_all]. rewrite Hp, Hhas, Hx, add64_some by lia. specialize (Hkeep tags).
  unfold on_tags, on_disk, on, given, calls_task, export. run.
  destruct (keep (trip_store trip) Cache item (target_hash t) tags) as [tags' [[]|e]]; [|done]. cbn. by eexists.
Qed.
Lemma one_target unreadable dest h r name d :
  file_name (filename r) = Some name → d !! join dest name = None →
  targets_in unreadable dest [(h, r)] d = Ok [MkTarget h r (join dest name) false].
Proof.
  intros Hf Hd. unfold targets_in. cbn [targets_from]. rewrite Hf, lookup_empty, Hd.
  rewrite bool_decide_false by by intros []. done.
Qed.

(** A file named as the part of another is, there before, is deleted by a
    download of that other which ends well. *)
Theorem file_named_as_a_part_is_lost unreadable dest h r name d item trip tags b n :
  file_name (filename r) = Some name → d !! join dest name = None → join dest name ≠ partial_of (join dest name) →
  d !! partial_of (join dest name) = Some n →
  (file_size r ≤ u64_max)%N → (∀ tags, is_ok (keep (trip_store trip) Cache item h tags).2 = true) → has (trip_store trip) h = Ok true →
  exporting trip = MkExporting (Ok b) (Ok tt) None →
  ∃ t l, targets_in unreadable dest [(h, r)] d = Ok [t] ∧
    fetch_all item [(t, trip)] 0 (MkLocal tags d false 0 []) = (l, Ok (Some [downloaded t FromStore])) ∧
    local_disk l !! partial_of (join dest name) = None.
Proof.
  intros Hname Hd Hne Hn Hsize Hkeep Hhas Hx. set (t := MkTarget h r (join dest name) false).
  destruct (fetch_one_here item t trip tags d b eq_refl Hsize Hkeep Hhas Hx) as (l & Hall & Hl).
  exists t, l. split_and!; [by apply one_target|done|]. rewrite Hl. cbn [t target_path].
  rewrite lookup_insert_ne by done. apply lookup_delete_eq.
Qed.

(** Two downloads of files with one name write over each other. Each looks
    whether its file is there before it starts, so of two started to one
    directory both go on, the second replaces what the first wrote, and both end
    well; had the first ended before, the second would have been refused. *)
Theorem concurrent_downloads_overwrite unreadable dest h1 r1 h2 r2 name d item1 item2 trip1 trip2 tags1 tags2 b1 b2 :
  file_name (filename r1) = Some name → file_name (filename r2) = Some name →
  d !! join dest name = None → join dest name ≠ partial_of (join dest name) → unreadable (join dest name) = None →
  blake3 b1 ≠ hash_id32 h2 →
  (file_size r1 ≤ u64_max)%N → (file_size r2 ≤ u64_max)%N →
  (∀ tags, is_ok (keep (trip_store trip1) Cache item1 h1 tags).2 = true) → has (trip_store trip1) h1 = Ok true → exporting trip1 = MkExporting (Ok b1) (Ok tt) None →
  (∀ tags, is_ok (keep (trip_store trip2) Cache item2 h2 tags).2 = true) → has (trip_store trip2) h2 = Ok true → exporting trip2 = MkExporting (Ok b2) (Ok tt) None →
  ∃ t1 t2, targets_in unreadable dest [(h1, r1)] d = Ok [t1] ∧ targets_in unreadable dest [(h2, r2)] d = Ok [t2] ∧
    let '(l1, e1) := fetch_all item1 [(t1, trip1)] 0 (MkLocal tags1 d false 0 []) in
    let '(l2, e2) := fetch_all item2 [(t2, trip2)] 0 (MkLocal tags2 (local_disk l1) false 0 []) in
    e1 = Ok (Some [downloaded t1 FromStore]) ∧ e2 = Ok (Some [downloaded t2 FromStore]) ∧
    downloaded_path (downloaded t1 FromStore) = join dest name ∧
    local_disk l2 !! join dest name = Some (FileNode b2) ∧
    targets_in unreadable dest [(h2, r2)] (local_disk l1) = Err (Refused (NotThisFile (join dest name))).
Proof.
  intros Hn1 Hn2 Hd Hpar Hread Hb Hs1 Hs2 Hk1 Hh1 Hx1 Hk2 Hh2 Hx2.
  exists (MkTarget h1 r1 (join dest name) false), (MkTarget h2 r2 (join dest name) false).
  split; [by apply one_target|]. split; [by apply one_target|].
  destruct (fetch_one_here item1 (MkTarget h1 r1 (join dest name) false) trip1 tags1 d b1) as (l1 & -> & Hl1); [done..|].
  destruct (fetch_one_here item2 (MkTarget h2 r2 (join dest name) false) trip2 tags2 (local_disk l1) b2) as (l2 & -> & Hl2); [done..|].
  cbn [target_path] in *. split_and!; [done|done|done|by rewrite Hl2, lookup_insert_eq|].
  unfold targets_in. cbn [targets_from]. rewrite Hn2, lookup_empty. unfold already_there. rewrite Hread, Hl1, lookup_insert_eq.
  rewrite bool_decide_true by by eexists. cbn. rewrite (bool_decide_false (blake3 b1 = _)) by done. by rewrite andb_false_r.
Qed.
End facts.
