(* ===== verification/Adding.v ===== *)
(** * Adding files as an item

    [library.add] of [crates/distlib-api/src/methods.rs]. What importing a
    file, the stores and the file system answer are arguments; so is the
    lower-casing of an extension. *)

From stdpp Require Import strings.
From S2P Require Import Prelude Ids GroupSettings Events Membership Heartbeats Keeping Failures Texts Items Community Statements Blobs Held Storage ItemsProps Catalogue Uploads ReadModel Api Downloading.

(** [ImportedFile]. *)
Record ImportedFile : Type := MkImported { imported_hash : ContentHash; imported_size : N }.
(** What a file is called is where it was, and how its import went. *)
Notation Imports := (list (string * result SyncError ImportedFile)).

Section adding.
Context `{Crypto} (lowercase : string → string).

(** [hash_file]. *)
Definition hash_file (path : string) (imports : result SyncError ImportedFile) : result ApiError (ImportedFile * FileRecord) :=
  filename ←? match file_name path with Some name => Ok name | None => Err (InvalidParams (NotAFilePath path)) end ;;
  format ←? match extension path with Some ext => Ok (lowercase ext) | None => Err (InvalidParams (NoExtension path)) end ;;
  file ←? match imports with
          | Ok file => Ok file
          | Err (LocalFile p why) => Err (InvalidParams (BySync (LocalFile p why)))
          | Err other => Err (Refused (BySync other))
          end ;;
  Ok (file, MkFileRecord ContentFile format (imported_size file) filename None None None None).

Definition with_file (hash : ContentHash) (r : FileRecord) (i : Item) : Item :=
  MkItem (item_id i) (kind i) (title i) (authors i) (genres i) (series i) (year i) (lang i) (description i) (<[hash := r]> (files i)).
Definition with_id (id : ItemId) (i : Item) : Item :=
  MkItem id (kind i) (title i) (authors i) (genres i) (series i) (year i) (lang i) (description i) (files i).

(** The loop of [item_from_files]. *)
Fixpoint gather (paths : Imports) (named : gmap string string) (item : Item) (imported : list ImportedFile)
  : result ApiError (Item * list ImportedFile) :=
  match paths with
  | [] => Ok (item, imported)
  | (path, imports) :: paths =>
      hashed ←? hash_file path imports ;;
      let '(file, record) := hashed in
      let hash := imported_hash file in
      let imported := imported ++ [file] in
      match (if bool_decide (is_Some (files item !! hash)) then None else named !! filename record) with
      | Some first => Err (InvalidParams (SameName first path (filename record)))
      | None => gather paths (<[filename record := path]> named) (with_file hash record item) imported
      end
  end.
(** [item_from_files]: [None] is the panic of no file at all. *)
Definition item_from_files (paths : Imports) : option (result ApiError (Item * list ImportedFile)) :=
  match gather paths ∅ (new_item (MkItemId (id32 0))) [] with
  | Err e => Some (Err e)
  | Ok (item, imported) => id ← fingerprint item; Some (Ok (with_id id item, imported))
  end.

(** [files_or_uploads]. *)
Definition files_or_uploads (files uploaded : list string) : result ApiError (list string) :=
  match files, uploaded with
  | _ :: _, [] => Ok files
  | [], _ :: _ => Ok uploaded
  | [], [] => Err (InvalidParams NeedsAFile)
  | _ :: _, _ :: _ => Err (InvalidParams FilesOrUploads)
  end.

(** ** The request *)

(** [Add], the params. *)
Record AddParams : Type := MkAdd {
  add_kind : ItemKind;
  add_files : list string;
  add_uploads : list UploadId;
  add_title : option string;
  add_authors : list string;
  add_genres : list string;
  add_series : option Series;
  add_year : option Z;
  add_lang : option string;
  add_description : option string;
}.

(** What an answer says. *)
Record Added : Type := MkAdded {
  added_item : ItemId;
  created : bool;
  added_title : option string;
  contributed : list ContentHash;
  added_under_pledged : option (N * N);
}.
End adding.

Section request.
Context `{Crypto, Hex, IdText MemberId, IdText BookmarkId, IdText WishId, IdText UploadId, CommunityJson, Documents}.
Context (lowercase : string → string) (total_u64 : list N → N).
Context (order : Tags → list (string * ContentHash)) (visit : KeptBlobs → list (ContentHash * KeptBlob)).

(** What an add may change. *)
Record Library : Type := MkLibrary { lib_uploads : UploadDir; lib_catalogue : option Doc; lib_storage : StorageState }.
Definition with_catalogue (c : option Doc) (l : Library) : Library := MkLibrary (lib_uploads l) c (lib_storage l).
Definition with_storage (s : StorageState) (l : Library) : Library := MkLibrary (lib_uploads l) (lib_catalogue l) s.
Definition lib_tags (l : Library) : Tags := storage_tags (lib_storage l).
Definition with_tags (t : Tags) (l : Library) : Library := with_storage (MkStorage t (storage_held (lib_storage l))) l.

(** The waits of an add once its files are imported, between two of which
    others may change the library. *)
Inductive AddMoment : Type :=
| CheckingRoom
| ReadingItem
| WritingItem
| KeepingFile (n : nat)
| Rechecking
| MakingRoom.

(** What one meets besides; [others] is what was done by anybody else before
    each moment. *)
Record Adds : Type := MkAdds {
  reads_upload : UploadId → bool;
  clears_upload : UploadId → bool;
  imports : nat → result SyncError ImportedFile;
  checked_store : StoreWorld;
  keeping_store : StoreWorld;
  add_limit : option N;
  contents : ContentWorld;
  contents_after : ContentWorld;
  added_pool : Pool;
  written_at : N;
  add_clock : N;
  add_uses : result string (ItemId → option Z);
  others : AddMoment → Library → Library;
}.

Context (u : Uploads) (me : MemberId) (a : Adds).

(** The guards dropped. *)
Definition drop_all (ids : list UploadId) (d : UploadDir) : UploadDir :=
  foldl (λ d id, drop_staged (clears_upload a id) id d) d ids.

(** [take_uploads]; a refusal drops the guards of those taken. *)
Fixpoint take_uploads (ids taken : list UploadId) (d : UploadDir) : UploadDir * result ApiError (list string) :=
  match ids with
  | [] => (d, Ok [])
  | id :: ids =>
      match take_upload u (reads_upload a id) (clears_upload a id) id d with
      | (d, Err e) => (drop_all taken d, Err (InvalidParams (ByUpload e)))
      | (d, Ok (path, _)) =>
          match take_uploads ids (taken ++ [id]) d with
          | (d, Ok paths) => (d, Ok (path :: paths))
          | (d, Err e) => (d, Err e)
          end
      end
  end.

Definition sizes_of_files (i : Item) : list (ContentHash * N) := (λ e, (e.1, file_size e.2)) <$> map_entries (files i).

(** [check_room_for]; [None] is a panic. *)
Definition check_room_for (i : Item) (t : Tags) : option (result ApiError unit) :=
  match add_limit a with
  | None => Some (Ok tt)
  | Some limit =>
      match kept_blobs order (checked_store a) t with
      | Err e => Some (Err (net_error e))
      | Ok kept =>
          growth ← mandatory_growth kept (sizes_of_files i);
          use ← usage (visit kept);
          before ← mandatory_bytes use;
          mandatory ← add64 before growth;
          Some (if bool_decide (0 < growth)%N && bool_decide (limit < mandatory)%N
                then Err (Refused (OverTheLimit mandatory limit)) else Ok tt)
      end
  end.

Definition lacks (existing : option Item) (hash : ContentHash) : bool :=
  match existing with None => true | Some existing => bool_decide (files existing !! hash = None) end.
(** The growth of what this member added. *)
Definition added_growth (i : Item) (existing : option Item) : N :=
  foldl saturating_add64 0%N (filter (λ e, lacks existing e.1 = true) (sizes_of_files i)).*2.

(** [add_missing_files]. *)
Definition missing_files (i existing : Item) : gmap ContentHash FileRecord :=
  filter (λ e, files existing !! e.1 = None) (files i).
Definition add_missing_files (i existing : Item) : fallible (option Doc) ApiError Added :=
  let missing := missing_files i existing in
  (if bool_decide (missing = ∅) then fret tt
   else λ c, let '(c, r) := Catalogue.write me (written_at a) (MkItem (item_id i) None None None None None None None None missing) c in
             (c, map_err sync_error r)) ;!
  fret (MkAdded (item_id i) false (title existing) (map_entries missing).*1 None).

(** [write_new_item]. *)
Definition some_if_any (l : list string) : option (list string) := match l with [] => None | _ => Some l end.
Definition described (p : AddParams) (i : Item) : Item :=
  MkItem (item_id i) (Some (add_kind p)) (add_title p) (some_if_any (add_authors p)) (some_if_any (add_genres p))
    (add_series p) (add_year p) (add_lang p) (add_description p) (files i).
Definition write_new_item (p : AddParams) (i : Item) : fallible (option Doc) ApiError Added := λ c,
  let i := described p i in
  let '(c, r) := Catalogue.write me (written_at a) i c in
  (c, _ ←? map_err sync_error r ;; Ok (MkAdded (item_id i) true (title i) [] None)).

(** The imported files kept as own, from the [n]th. *)
Fixpoint keep_each (n : nat) (id : ItemId) (imported : list ImportedFile) (l : Library) : Library * result NetError unit :=
  match imported with
  | [] => (l, Ok tt)
  | file :: imported =>
      let l := others a (KeepingFile n) l in
      match keep (keeping_store a) Own id (imported_hash file) (lib_tags l) with
      | (t, Err e) => (with_tags t l, Err e)
      | (t, Ok _) => keep_each (S n) id imported (with_tags t l)
      end
  end.

(** [recheck_holdings]: a failure is logged. *)
Definition kept_listings (id : ItemId) (t : Tags) : list (result SyncError (list ContentHash)) :=
  (λ r, match lists_tags (keeping_store a) (item_prefix r id) with
        | Err why => Err (Content "listed what is kept for an item" why)
        | Ok _ => Ok (filter (λ e, is_Some (strip_prefix (item_prefix r id) e.1)) (order t)).*2
        end) <$> all_reasons.
Definition file_is_here (hash : ContentHash) : result SyncError bool :=
  match status_of (keeping_store a) hash with
  | Ok (Complete _) => Ok true
  | Ok _ => Ok false
  | Err why => Err (Content "asked whether an item's file is here" why)
  end.
Definition recheck_holdings (id : ItemId) (c : option Doc) (s : StorageState) : StorageState :=
  match Catalogue.item (contents_after a) id c with
  | Ok (Some i) =>
      MkStorage (storage_tags s)
        (recheck (kept_listings id (storage_tags s)) file_is_here (add_clock a) (item_id i)
           ((λ e, (e.1, role e.2)) <$> map_entries (files i)) (storage_held s)).1
  | _ => s
  end.

(** [make_room_for_add]: what it answers is logged. *)
Definition make_room_for_add (id : ItemId) (imported : list ImportedFile) (s : StorageState) : option StorageState :=
  '(s, _) ← make_room order visit (keeping_store a) (add_limit a) (add_clock a) id
              ((λ f, (imported_hash f, imported_size f)) <$> imported) (add_uses a) s;
  Some s.

(** Whether an item may be added, by its files' pledge: what the document has
    of it, and what would be asked of this member. *)
Definition may_add (i : Item) (membership : MembershipState) (tables : Tables) (c : option Doc) : result ApiError (option Item * Requirement) :=
  existing ←? map_err sync_error (Catalogue.item (contents a) (item_id i) c) ;;
  let growth := added_growth i existing in
  needs ←? requirement total_u64 me (added_pool a) membership growth tables ;;
  if bool_decide (0 < growth)%N && match standing needs with FarUnder => true | _ => false end
  then Err (Refused (far_under "adding these files" needs))
  else Ok (existing, needs).

(** What follows the write. *)
Definition keep_added (id : ItemId) (imported : list ImportedFile) (answer : Added) (l : Library) : option (Library * result ApiError Added) :=
  match keep_each 0 id imported l with
  | (l, Err e) => Some (l, Err (net_error e))
  | (l, Ok _) =>
      let l := others a Rechecking l in
      let l := with_storage (recheck_holdings id (lib_catalogue l) (lib_storage l)) l in
      let l := others a MakingRoom l in
      s ← make_room_for_add id imported (lib_storage l);
      Some (with_storage s l, Ok answer)
  end.

(** [Api::add] once its files are imported. *)
Definition add_item (p : AddParams) (i : Item) (imported : list ImportedFile) (membership : MembershipState) (tables : Tables) (l : Library)
  : option (Library * result ApiError Added) :=
  let l := others a CheckingRoom l in
  room ← check_room_for i (lib_tags l);
  match room with
  | Err e => Some (l, Err e)
  | Ok _ =>
      let l := others a ReadingItem l in
      match may_add i membership tables (lib_catalogue l) with
      | Err e => Some (l, Err e)
      | Ok (existing, needs) =>
          let l := others a WritingItem l in
          match (match existing with Some existing => add_missing_files i existing | None => write_new_item p i end) (lib_catalogue l) with
          | (c, Err e) => Some (with_catalogue c l, Err e)
          | (c, Ok answer) =>
              let answer := MkAdded (added_item answer) (created answer) (added_title answer) (contributed answer) (under_pledged needs) in
              keep_added (item_id i) imported answer (with_catalogue c l)
          end
      end
  end.

(** [Api::add] once its uploads are taken. *)
Definition add_paths (p : AddParams) (uploaded : list string) (membership : MembershipState) (tables : Tables) (l : Library)
  : option (Library * result ApiError Added) :=
  match files_or_uploads (add_files p) uploaded with
  | Err e => Some (l, Err e)
  | Ok paths =>
      hashed ← item_from_files lowercase (imap (λ n path, (path, imports a n)) paths);
      match hashed with
      | Err e => Some (l, Err e)
      | Ok (i, imported) => add_item p i imported membership tables l
      end
  end.

(** [Api::add]; the guards of what it took are dropped as it ends. *)
Definition add (p : AddParams) (membership : MembershipState) (tables : Tables) (l : Library) : option (Library * result ApiError Added) :=
  match take_uploads (add_uploads p) [] (lib_uploads l) with
  | (d, Err e) => Some (MkLibrary d (lib_catalogue l) (lib_storage l), Err e)
  | (d, Ok uploaded) =>
      '(l, r) ← add_paths p uploaded membership tables (MkLibrary d (lib_catalogue l) (lib_storage l));
      Some (MkLibrary (drop_all (add_uploads p) (lib_uploads l)) (lib_catalogue l) (lib_storage l), r)
  end.
End request.

(** ** The item of files *)

Section facts.
Context `{Crypto} (lowercase : string → string).

(** What a loop of [item_from_files] leaves of what it was given. *)
Record gathered (i : Item) (before : list ImportedFile) (i' : Item) (after : list ImportedFile) : Prop := {
  gathered_before : ∃ more, after = before ++ more;
  gathered_keys h : is_Some (files i' !! h) ↔ is_Some (files i !! h) ∨ ∃ f, f ∈ drop (length before) after ∧ imported_hash f = h;
  gathered_files h r : files i' !! h = Some r → files i !! h = Some r ∨
    role r = ContentFile ∧ ∃ f, f ∈ drop (length before) after ∧ imported_hash f = h ∧ imported_size f = file_size r;
}.

Lemma hash_file_ok path imports f r :
  hash_file lowercase path imports = Ok (f, r) →
  role r = ContentFile ∧ imports = Ok f ∧ file_size r = imported_size f ∧ file_name path = Some (filename r).
Proof.
  unfold hash_file. destruct (file_name path) as [name|]; [|done]. cbn. destruct (extension path); [|done]. cbn.
  destruct imports as [f'|[]]; try done. cbn. by intros [= <- <-].
Qed.

Lemma drop_here {A} (l k : list A) : drop (length l) (l ++ k) = k.
Proof. by rewrite drop_app_le, drop_ge by lia. Qed.

Lemma gather_gathered paths named i before i' after :
  gather lowercase paths named i before = Ok (i', after) → gathered i before i' after.
Proof.
  revert named i before. induction paths as [|[path imports] paths IH]; intros named i before; cbn [gather].
  { intros [= <- <-]. split.
    - exists []. by rewrite app_nil_r.
    - intros h. rewrite drop_ge by done. split; [by left|]. intros [?|(f & ?%elem_of_nil & _)]; done.
    - by left. }
  destruct (hash_file lowercase path imports) as [[f r]|e] eqn:Eh; [|done]. cbn [result_bind].
  apply hash_file_ok in Eh as (Hr & _ & Hs & _).
  destruct (if bool_decide _ then _ else _); [done|]. intros Hg. destruct (IH _ _ _ Hg) as [[more ->] Hk Hf].
  rewrite drop_here in Hk, Hf. split.
  - exists ([f] ++ more). by rewrite app_assoc.
  - intros h. rewrite <-app_assoc, drop_here, Hk. cbn [files with_file]. destruct (decide (imported_hash f = h)) as [<-|Hne].
    + rewrite lookup_insert_eq. split; [|by left]. intros _. right. exists f. split; [by left|done].
    + rewrite lookup_insert_ne by done. set_solver.
  - intros h r'. rewrite <-app_assoc, drop_here. intros [Hl|(? & f' & ? & ? & ?)]%Hf; [|right; split; [done|]; exists f'; set_solver].
    cbn [files with_file] in Hl. apply lookup_insert_Some in Hl as [[<- <-]|[_ ?]]; [|by left].
    right. split; [done|]. exists f. split; [by left|done].
Qed.

(** With every name in use remembered, and no content given twice, no two files
    have one name. *)
Lemma gather_names paths named i before i' after :
  (∀ h r, files i !! h = Some r → is_Some (named !! filename r)) →
  (∀ h h' r r', files i !! h = Some r → files i !! h' = Some r' → filename r = filename r' → h = h') →
  (∀ h, is_Some (files i !! h) → h ∈ imported_hash <$> before) →
  gather lowercase paths named i before = Ok (i', after) → NoDup (imported_hash <$> after) →
  ∀ h h' r r', files i' !! h = Some r → files i' !! h' = Some r' → filename r = filename r' → h = h'.
Proof.
  revert named i before. induction paths as [|[path imports] paths IH]; intros named i before Hnamed Hone Hin; cbn [gather].
  { by intros [= <- <-] _. }
  destruct (hash_file lowercase path imports) as [[f r]|e] eqn:Eh; [|done]. cbn [result_bind].
  intros Hg Hnd. assert (files i !! imported_hash f = None) as Hnew.
  { apply eq_None_not_Some. intros Hs. apply Hin in Hs. destruct (if bool_decide _ then _ else _); [done|].
    destruct (gathered_before _ _ _ _ (gather_gathered _ _ _ _ _ _ Hg)) as [more ->].
    rewrite !fmap_app, !NoDup_app in Hnd. destruct Hnd as ((_ & Hnot & _) & _). apply (Hnot _ Hs). set_solver. }
  rewrite bool_decide_false in Hg by (rewrite Hnew; intros []; done). destruct (named !! filename r) eqn:En; [done|].
  revert Hg Hnd. apply IH; cbn [files with_file].
  - intros h r' [[<- <-]|[_ Hh]]%lookup_insert_Some; [by rewrite lookup_insert_eq|].
    destruct (decide (filename r = filename r')) as [->|Hne]; [by rewrite lookup_insert_eq|]. rewrite lookup_insert_ne by done. by apply (Hnamed h).
  - intros h h' r1 r2 [[<- <-]|[_ Hh]]%lookup_insert_Some [[<- <-]|[_ Hh']]%lookup_insert_Some Heq; [done|..|by eapply Hone].
    + apply Hnamed in Hh'. rewrite <-Heq, En in Hh'. by destruct Hh'.
    + apply Hnamed in Hh. rewrite Heq, En in Hh. by destruct Hh.
  - intros h. rewrite fmap_app, elem_of_app, lookup_insert_is_Some. intros [<-|[_ ?]]; [right; by left|left; by apply Hin].
Qed.

Lemma gather_imports paths named i before i' after :
  gather lowercase paths named i before = Ok (i', after) → ∃ more, after = before ++ more ∧ Ok <$> more = paths.*2.
Proof.
  revert named i before. induction paths as [|[path imports] paths IH]; intros named i before; cbn [gather].
  { intros [= <- <-]. exists []. by rewrite app_nil_r. }
  destruct (hash_file lowercase path imports) as [[f r]|e] eqn:Eh; [|done]. cbn [result_bind].
  apply hash_file_ok in Eh as (_ & -> & _). destruct (if bool_decide _ then _ else _); [done|].
  intros (more & -> & Hm)%IH. exists (f :: more). rewrite <-app_assoc. split; [done|]. cbn. by rewrite Hm.
Qed.

Lemma fingerprint_fields i j : files i = files j → fingerprint i = fingerprint j.
Proof. intros Hf. unfold fingerprint, item_content. by rewrite Hf. Qed.

(** What [item_from_files] answers with. *)
Record item_of (paths : Imports) (i : Item) (imported : list ImportedFile) : Prop := {
  item_imports : Ok <$> imported = paths.*2;
  item_contents h : is_Some (files i !! h) ↔ h ∈ imported_hash <$> imported;
  item_records h r : files i !! h = Some r → role r = ContentFile ∧ ∃ f, f ∈ imported ∧ imported_hash f = h ∧ imported_size f = file_size r;
  item_fingerprint : fingerprint i = Some (item_id i);
  item_names : NoDup (imported_hash <$> imported) →
    ∀ h h' r r', files i !! h = Some r → files i !! h' = Some r' → filename r = filename r' → h = h';
}.

Lemma item_from_files_ok paths i imported :
  item_from_files lowercase paths = Some (Ok (i, imported)) → item_of paths i imported.
Proof.
  unfold item_from_files. destruct (gather _ _ _ _ _) as [[j after]|e] eqn:E; [|done].
  destruct (fingerprint j) as [id|] eqn:Ef; [|done]. intros [= <- <-].
  pose proof (gather_gathered _ _ _ _ _ _ E) as [_ Hk Hf]. pose proof (gather_imports _ _ _ _ _ _ E) as (more & -> & Hm). cbn in Hk, Hf.
  split; [done| | |by rewrite (fingerprint_fields _ j)|].
  - intros h. cbn [files with_id]. rewrite Hk, list_elem_of_fmap. rewrite lookup_empty. split.
    + intros [[]|(f & ? & <-)]; [done|]. by exists f.
    + intros (f & -> & ?). right. by exists f.
  - intros h r. cbn [files with_id]. intros [Hl|[? (f & ? & ? & ?)]]%Hf; [by rewrite lookup_empty in Hl|]. split; [done|]. by exists f.
  - cbn [files with_id]. intros Hnd. eapply gather_names; [| | |exact E|exact Hnd]; cbn [files new_item].
    + intros h r. by rewrite lookup_empty.
    + intros h h' r r'. by rewrite lookup_empty.
    + intros h. rewrite lookup_empty. by intros [].
Qed.

Lemma item_from_files_total paths : paths ≠ [] → item_from_files lowercase paths ≠ None.
Proof.
  intros Hne E. unfold item_from_files in E. destruct (gather _ _ _ _ _) as [[j after]|e] eqn:Eg; [|done].
  pose proof (gather_gathered _ _ _ _ _ _ Eg) as [_ Hk Hf]. pose proof (gather_imports _ _ _ _ _ _ Eg) as (more & -> & Hm). cbn in Hk, Hf.
  destruct more as [|f more]; [by destruct paths|]. destruct (proj2 (Hk (imported_hash f))) as [r Hl]; [right; exists f; split; [by left|done]|].
  assert (fingerprint j = None) as Hnone by (by destruct (fingerprint j)).
  apply (fingerprint_is_of_content j j) with (r := r) in Hl as Hc; [|done]. apply Hc.
  destruct (Hf _ _ Hl) as [He|[? _]]; [by rewrite lookup_empty in He|done].
Qed.

(** C38: The item of some files is made of their contents alone. Files always
    give an item or a refusal; the item has just the contents imported, each of
    the size it was imported at; its id is the fingerprint of them, the same
    whoever adds them, in whatever order and under whatever names; and when no
    content is given twice no two of its files have one name. *)
Theorem item_is_its_contents paths :
  paths ≠ [] →
  ∃ r, item_from_files lowercase paths = Some r ∧
    match r with
    | Err _ => True
    | Ok (i, imported) =>
        Ok <$> imported = paths.*2 ∧
        (∀ h, is_Some (files i !! h) ↔ h ∈ imported_hash <$> imported) ∧
        (∀ h r, files i !! h = Some r → role r = ContentFile ∧ ∃ f, f ∈ imported ∧ imported_hash f = h ∧ imported_size f = file_size r) ∧
        (∀ paths' i' imported', item_from_files lowercase paths' = Some (Ok (i', imported')) →
           (∀ h, h ∈ imported_hash <$> imported ↔ h ∈ imported_hash <$> imported') → item_id i = item_id i') ∧
        (NoDup (imported_hash <$> imported) →
           ∀ h h' r r', files i !! h = Some r → files i !! h' = Some r' → filename r = filename r' → h = h')
    end.
Proof.
  intros Hne. destruct (item_from_files lowercase paths) as [r|] eqn:E.
  - exists r. split; [done|]. destruct r as [[i imported]|e]; [|done]. apply item_from_files_ok in E as [Hi Hc Hr Hf Hn]. split_and!; try done.
    intros paths' i' imported' E' Hsame. apply item_from_files_ok in E' as [_ Hc' Hr' Hf' _].
    assert (fingerprint i = fingerprint i') as Heq; [|by rewrite Hf, Hf' in Heq; injection Heq].
    apply (fingerprint_is_of_content i i'). intros h. rewrite !elem_of_item_content. split; intros (r & Hl & _).
    + destruct (proj2 (Hc' h)) as [r' Hl']; [apply Hsame, Hc; by exists r|]. exists r'. split; [done|]. by apply (Hr' h).
    + destruct (proj2 (Hc h)) as [r' Hl']; [apply Hsame, Hc'; by exists r|]. exists r'. split; [done|]. by apply (Hr h).
  - by apply item_from_files_total in E.
Qed.

Lemma NoDup_fmap_eq {A B} (f : A → B) l t u : NoDup (f <$> l) → t ∈ l → u ∈ l → f t = f u → t = u.
Proof.
  intros Hn [i Hi]%list_elem_of_lookup [j Hj]%list_elem_of_lookup Heq.
  assert (i = j) as ->; [|congruence]. apply (NoDup_lookup _ _ _ (f t) Hn); rewrite list_lookup_fmap; [by rewrite Hi|by rewrite Hj, Heq].
Qed.

(** Two files of one name cannot both be written. *)
Lemma one_name_no_targets unreadable dest fs h1 h2 r1 r2 d ts :
  fs !! h1 = Some r1 → fs !! h2 = Some r2 → h1 ≠ h2 → filename r1 = filename r2 →
  targets_in unreadable dest (map_entries fs) d ≠ Ok ts.
Proof.
  intros H1 H2 Hne Heq Hts. unfold targets_in in Hts. apply targets_from_ok in Hts as (Hw & _ & Hn & _ & Hnames).
  apply elem_of_map_entries in H1, H2. rewrite <-Hw in H1, H2.
  apply list_elem_of_fmap in H1 as (t1 & [= -> ->] & Ht1), H2 as (t2 & [= -> ->] & Ht2).
  rewrite Forall_forall in Hnames. destruct (Hnames t1 Ht1) as (n1 & Hn1 & Hp1), (Hnames t2 Ht2) as (n2 & Hn2 & Hp2).
  rewrite Heq in Hn1. simplify_eq. apply Hne. by rewrite (NoDup_fmap_eq target_path ts t1 t2 Hn Ht1 Ht2) by congruence.
Qed.

Lemma gather_next path name ext f paths named i before :
  file_name path = Some name → extension path = Some ext →
  (files i !! imported_hash f = None → named !! name = None) →
  gather lowercase ((path, Ok f) :: paths) named i before =
  gather lowercase paths (<[name := path]> named)
    (with_file (imported_hash f) (MkFileRecord ContentFile (lowercase ext) (imported_size f) name None None None None) i) (before ++ [f]).
Proof.
  intros Hn He Hfree. cbn [gather]. unfold hash_file. rewrite Hn. cbn. rewrite He. cbn.
  case_bool_decide as Hd; [done|]. apply eq_None_not_Some in Hd. by rewrite Hfree.
Qed.

(** A name given twice slips through. Of three files the last has the
    content of the first and the name of the second: the item it makes has two
    different files of one name, which no download of it writes anywhere,
    though the second and third alone are refused for just that. *)
Theorem same_name_slips_through a b c x y h1 h2 n1 n2 :
  file_name a = Some x → file_name b = Some y → file_name c = Some y → x ≠ y →
  is_Some (extension a) → is_Some (extension b) → is_Some (extension c) → h1 ≠ h2 →
  let pa := (a, Ok (MkImported h1 n1)) in let pb := (b, Ok (MkImported h2 n2)) in let pc := (c, Ok (MkImported h1 n1)) in
  (∃ i imported r1 r2, item_from_files lowercase [pa; pb; pc] = Some (Ok (i, imported)) ∧
    files i !! h1 = Some r1 ∧ files i !! h2 = Some r2 ∧ filename r1 = y ∧ filename r2 = y ∧
    ∀ unreadable dest d ts, targets_in unreadable dest (map_entries (files i)) d ≠ Ok ts) ∧
  item_from_files lowercase [pb; pc] = Some (Err (InvalidParams (SameName b c y))).
Proof.
  intros Ha Hb Hc Hxy [ea Hea] [eb Heb] [ec Hec] Hh. cbn zeta. split.
  - destruct (item_from_files lowercase [(a, Ok (MkImported h1 n1)); (b, Ok (MkImported h2 n2)); (c, Ok (MkImported h1 n1))]) as [r|] eqn:E;
      [|by apply item_from_files_total in E].
    unfold item_from_files in E. rewrite (gather_next a x ea), (gather_next b y eb), (gather_next c y ec) in E; try done.
    + cbn [gather imported_hash imported_size app] in E. destruct (fingerprint _) as [id|]; [|done]. injection E as <-. eexists _, _, _, _. split; [done|].
      cbn [files with_id with_file new_item]. rewrite lookup_insert_eq, lookup_insert_ne, lookup_insert_eq by done. split_and!; try done.
      intros unreadable dest d ts. eapply (one_name_no_targets _ _ _ h1 h2); [by rewrite lookup_insert_eq|by rewrite lookup_insert_ne, lookup_insert_eq|done|done].
    + cbn [files with_file imported_hash]. rewrite lookup_insert_ne, lookup_insert_eq by done. done.
    + by rewrite lookup_insert_ne.
  - unfold item_from_files. rewrite (gather_next b y eb) by (done || by rewrite lookup_empty). cbn [gather]. unfold hash_file. rewrite Hc. cbn. rewrite Hec. cbn.
    rewrite lookup_insert_ne by done. rewrite lookup_empty, lookup_insert_eq. by rewrite bool_decide_false by by intros [].
Qed.
End facts.
