(* ===== verification/AddingProps.v ===== *)
(** * What an add keeps

    The files an add imports are kept as this node's own, nothing that has to
    stay goes, and the storage limit is respected. *)

From stdpp Require Import strings.
From S2P Require Import Prelude Ids GroupSettings Events Membership Heartbeats Keeping KeepingProps Failures Texts Items Community Statements Blobs Held Storage StorageProps Catalogue Uploads ReadModel Api Downloading Adding.

(** ** What has to stay *)

(** Own or custody: never evicted. *)
Definition stays (x : KeepReason * ItemId) : Prop := x.1 ≠ Cache.

(** [mandatory_bytes] is the sum over what has to stay. *)
Lemma mandatory_sum kept visit u n :
  visit ≡ₚ map_to_list kept → usage visit = Some u → mandatory_bytes u = Some n → n = sum_over mandatory_for kept.
Proof.
  intros Hp Hu Hn. apply try_fold_use in Hu as (Ho & Hc & _). unfold mandatory_bytes, add64 in Hn. case_bool_decide; [|done]. injection Hn as <-.
  assert (∀ r, sumN (bytes_for r <$> visit) = sum_over (bytes_for r) kept) as Hr.
  { intros r. unfold sum_over. apply sumN_perm. by rewrite Hp. }
  rewrite sum_mandatory, Ho, Hc, !Hr. unfold no_use. cbn [own_bytes custody_bytes]. lia.
Qed.

#[export] Instance sumN_proper : Proper ((≡ₚ) ==> eq) sumN.
Proof. intros l k. apply sumN_perm. Qed.

Definition must_stay (e : KeptBlob) : bool := existsb (λ t, negb (bool_decide (t.1 = Cache))) (tags e).
Lemma must_stay_iff e : must_stay e = true ↔ ∃ t, t ∈ tags e ∧ stays t.
Proof.
  unfold must_stay. rewrite existsb_exists. setoid_rewrite <-list_elem_of_In. setoid_rewrite negb_true_iff. setoid_rewrite bool_decide_eq_false. done.
Qed.
Lemma mandatory_for_must b e : mandatory_for (b, e) = if must_stay e then kept_bytes e else 0%N.
Proof.
  unfold mandatory_for, bytes_for. cbn [snd]. destruct (must_stay e) eqn:Em.
  - apply must_stay_iff in Em as ([r i] & Hin & Hr). unfold stays in Hr. cbn [fst] in Hr. destruct (strongest_reason e) as [r'|] eqn:Es.
    + apply strongest_reason_some in Es as [_ Hmin]. specialize (Hmin r ltac:(apply list_elem_of_fmap; by exists (r, i))).
      destruct r'; [repeat case_bool_decide; simplify_eq; lia..|]. destruct r; [cbn in Hmin; lia..|done].
    + unfold strongest_reason in Es. destruct (tags e); [by apply not_elem_of_nil in Hin|done].
  - destruct (strongest_reason e) as [r|] eqn:Es; [|done]. apply strongest_reason_some in Es as [Hr _].
    apply list_elem_of_fmap in Hr as ([r' i] & -> & Hin). destruct r'; [exfalso|exfalso|done];
      (assert (must_stay e = true) by (apply must_stay_iff; eexists; split; [exact Hin|intros [=]]); congruence).
Qed.

(** It is a matter of the tags that stay. *)
Lemma describes_mandatory T T' size kept kept' :
  describes T size kept → describes T' size kept' → (∀ b x, stays x → T b x ↔ T' b x) →
  sum_over mandatory_for kept = sum_over mandatory_for kept'.
Proof.
  intros Hd Hd' Hsame. set (M := λ k : KeptBlobs, omap (λ e, if must_stay e then Some (kept_bytes e) else None) k).
  assert (∀ k, sum_over mandatory_for k = sumN (map_to_list (M k)).*2) as Hsum.
  { induction k as [|b e k Hb IH] using map_ind; [done|]. rewrite sum_over_insert, IH, mandatory_for_must by done. unfold M.
    rewrite omap_insert. destruct (must_stay e).
    - rewrite map_to_list_insert by (by rewrite lookup_omap, Hb). done.
    - by rewrite delete_id by (by rewrite lookup_omap, Hb). }
  rewrite !Hsum. assert (M kept = M kept') as ->; [|done]. apply map_eq. intros b. unfold M. rewrite !lookup_omap.
  assert (∀ T k e, describes T size k → k !! b = Some e → must_stay e = true ↔ ∃ t, T b t ∧ stays t) as Hm.
  { intros T0 k e H0 He. specialize (H0 b). rewrite He in H0. destruct H0 as (_ & _ & Ht). rewrite must_stay_iff. by setoid_rewrite Ht. }
  specialize (Hm T kept) as Hm1. specialize (Hm T' kept') as Hm2. pose proof (Hd b) as Hb. pose proof (Hd' b) as Hb'.
  destruct (kept !! b) as [e|] eqn:E, (kept' !! b) as [e'|] eqn:E'; cbn; [| | |done].
  - destruct Hb as [-> _], Hb' as [-> _]. assert (must_stay e = true ↔ must_stay e' = true) as Hiff; [|destruct (must_stay e), (must_stay e'); naive_solver].
    rewrite (Hm1 e Hd eq_refl), (Hm2 e' Hd' eq_refl). naive_solver.
  - destruct (must_stay e) eqn:Em; [|done]. apply (Hm1 e Hd eq_refl) in Em as (t & Ht & Hs). apply (Hsame b t Hs) in Ht. by destruct (Hb' t).
  - destruct (must_stay e') eqn:Em; [|done]. apply (Hm2 e' Hd' eq_refl) in Em as (t & Ht & Hs). apply (Hsame b t Hs) in Ht. by destruct (Hb t).
Qed.

(** ** Keeping the files *)

Section adding.
Context `{Crypto, Hex, !HexLaws, IdText MemberId, IdText BookmarkId, IdText WishId, IdText UploadId, CommunityJson, Documents}.
Context (lowercase : string → string) (total_u64 : list N → N).
Context (order : Tags → list (string * ContentHash)) (visit : KeptBlobs → list (ContentHash * KeptBlob)).
Context (Horder : ∀ t, order t ≡ₚ map_to_list t) (Hvisit : ∀ k, visit k ≡ₚ map_to_list k).
Context (u : Uploads) (me : MemberId) (a : Adds).

(** The tags that stay, with some blobs of an item kept as own besides. *)
Definition kept_besides (t t' : Tags) (id : ItemId) (blobs : list ContentHash) : Prop :=
  ∀ b x, stays x → has_tag t' b x ↔ has_tag t b x ∨ x = (Own, id) ∧ b ∈ blobs.

Definition stays_same (t t' : Tags) : Prop := ∀ b x, stays x → has_tag t' b x ↔ has_tag t b x.

Lemma keep_has_tag w id h t t' :
  keep w Own id h t = (t', Ok tt) → ∀ b x, has_tag t' b x ↔ has_tag t b x ∨ x = (Own, id) ∧ b = h.
Proof.
  unfold keep. destruct (sets_tag w _); [|done]. intros [= <-] b [r i]. unfold has_tag. cbn [fst snd].
  rewrite dom_insert, elem_of_union, elem_of_singleton. split; [|naive_solver].
  intros [Heq|?]; [right|by left]. apply tag_inj in Heq as (-> & -> & ->). done.
Qed.

Lemma kept_besides_same t t' id : stays_same t t' → kept_besides t t' id [].
Proof. intros Hs b x Hx. rewrite (Hs b x Hx). set_solver. Qed.

(** *** What others do meanwhile *)

(** They name tags as this build does; from the check of room on they keep and
    let go of nothing that has to stay; they let go of nothing the item has as
    own. *)
Definition others_name_well : Prop := ∀ m l, canonical (lib_tags l) → canonical (lib_tags (others a m l)).
Definition undisturbed : Prop := ∀ m l, m ≠ CheckingRoom → stays_same (lib_tags l) (lib_tags (others a m l)).
Definition spares (id : ItemId) : Prop := ∀ m l b, has_tag (lib_tags l) b (Own, id) → has_tag (lib_tags (others a m l)) b (Own, id).
Definition left_by (ms : list AddMoment) (l : Library) : Library := foldl (λ l m, others a m l) l ms.

Context (Hwell : others_name_well).

Lemma kept_besides_trans t t1 t' id bs cs :
  kept_besides t t1 id bs → kept_besides t1 t' id cs → kept_besides t t' id (bs ++ cs).
Proof. intros Hb Hk b x Hx. rewrite (Hk b x Hx), (Hb b x Hx), elem_of_app. tauto. Qed.

Lemma keep_each_ok n id im l l' r :
  keep_each a n id im l = (l', r) → canonical (lib_tags l) → canonical (lib_tags l') ∧
  (undisturbed → ∃ k, kept_besides (lib_tags l) (lib_tags l') id (imported_hash <$> take k im) ∧ (is_ok r = true → k = length im)) ∧
  (is_ok r = true → spares id → ∀ b, has_tag (lib_tags l) b (Own, id) ∨ b ∈ imported_hash <$> im → has_tag (lib_tags l') b (Own, id)) ∧
  match r with Ok _ => True | Err e => ∃ hash tag why, e = KeepError hash tag why end.
Proof.
  revert n l. induction im as [|f im IH]; intros n l; cbn [keep_each].
  { intros [= <- <-] Hc. split_and!; [done| | |done].
    - intros _. exists 0. split; [|done]. by apply kept_besides_same.
    - intros _ _ b [?|[]%elem_of_nil]; done. }
  set (l1 := others a (KeepingFile n) l).
  destruct (keep (keeping_store a) Own id (imported_hash f) (lib_tags l1)) as [t1 [[]|e]] eqn:Ek; intros Hr Hc.
  - assert (canonical t1) as Hc1 by (by eapply keep_canonical; [apply Hwell|]). pose proof (keep_has_tag _ _ _ _ _ Ek) as Hone.
    destruct (IH _ _ Hr Hc1) as (Hc' & Hk & Hall & He). split_and!; [done| | |done].
    + intros Hu. destruct (Hk Hu) as (k & Hb & Hlen). exists (S k). split; [|intros Hok; cbn; f_equal; by apply Hlen].
      apply (kept_besides_trans _ (lib_tags (with_tags t1 l1)) _ id [imported_hash f]); [|exact Hb]. intros b x Hx. cbn [lib_tags with_tags with_storage lib_storage storage_tags].
      pose proof (Hu (KeepingFile n) l ltac:(done) b x Hx) as Hux. fold l1 in Hux. rewrite Hone, Hux. set_solver.
    + intros Hok Hs b Hb. apply (Hall Hok Hs). cbn [lib_tags with_tags with_storage lib_storage storage_tags]. rewrite Hone, fmap_cons, elem_of_cons in *.
      destruct Hb as [Hb|[->|Hb]]; [left; left; by apply Hs|by left; right|by right].
  - injection Hr as <- <-. unfold keep in Ek. destruct (sets_tag _ _); [done|]. injection Ek as <- <-.
    split_and!; [by apply Hwell| |done|by eexists _, _, _].
    intros Hu. exists 0. split; [|done]. apply kept_besides_same. exact (Hu (KeepingFile n) l ltac:(done)).
Qed.

Lemma evict_for_stays w limit now id fs short uses s s' r :
  canonical (storage_tags s) → evict_for order visit w limit now id fs short uses s = Some (s', r) →
  canonical (storage_tags s') ∧ ∀ b x, stays x → has_tag (storage_tags s') b x ↔ has_tag (storage_tags s) b x.
Proof.
  intros Hc He. unfold evict_for in He. destruct limit as [limit|]; [|by injection He as <- <-].
  destruct (kept_blobs _ _ _); [|by injection He as <- <-]. destruct uses; [|by injection He as <- <-].
  apply bind_Some in He as (needed & _ & He). apply bind_Some in He as (plan & _ & He).
  destruct (_ && _); [by injection He as <- <-|]. injection He as He. unfold fbind in He.
  destruct (evict_each order w now (evicted plan) s) as [s1 r1] eqn:Ee. apply evict_each_spec in Ee as [(Hcan & Hsub & Hkept) _]; [|done..].
  assert (s' = s1) as -> by (destruct r1; by injection He). split; [auto|]. intros b x Hx. split; [apply Hsub|].
  intros Ht. apply Hkept; [done|]. intros [Hc' _]. by apply Hx.
Qed.

Lemma recheck_holdings_tags id c s : storage_tags (recheck_holdings order a id c s) = storage_tags s.
Proof. unfold recheck_holdings. by destruct (Catalogue.item _ id c) as [[i|]|]. Qed.

Lemma room_after_add id im s s' :
  canonical (storage_tags s) → make_room_for_add order visit a id im s = Some s' →
  canonical (storage_tags s') ∧ stays_same (storage_tags s) (storage_tags s').
Proof.
  intros Hc Hm. unfold make_room_for_add in Hm. apply bind_Some in Hm as ([s1 r] & Hm & Hs). injection Hs as <-. by eapply evict_for_stays.
Qed.

(** Once an add is written. *)
Lemma keep_added_ok id im answer l l' r :
  keep_added order visit a id im answer l = Some (l', r) → canonical (lib_tags l) → canonical (lib_tags l') ∧
  (undisturbed → ∃ k, kept_besides (lib_tags l) (lib_tags l') id (imported_hash <$> take k im) ∧ (is_ok r = true → k = length im)) ∧
  (is_ok r = true → spares id → ∀ b, b ∈ imported_hash <$> im → has_tag (lib_tags l') b (Own, id)) ∧
  match r with Ok answer' => answer' = answer | Err e => ∃ hash tag why, e = Refused (ByNet (KeepError hash tag why)) end.
Proof.
  unfold keep_added. destruct (keep_each a 0 id im l) as [l1 kr] eqn:Ek. intros Hr Hc.
  destruct (keep_each_ok _ _ _ _ _ _ Ek Hc) as (Hc1 & Hk & Hall & He). destruct kr as [[]|e]; cycle 1.
  { injection Hr as <- <-. destruct He as (hash & tag & why & ->). split_and!; [done|done|done|by eexists _, _, _]. }
  set (l2 := others a Rechecking l1) in *.
  set (l3 := with_storage (recheck_holdings order a id (lib_catalogue l2) (lib_storage l2)) l2) in *.
  assert (lib_tags l3 = lib_tags l2) as Ht3 by (unfold lib_tags, l3; cbn [with_storage lib_storage]; apply recheck_holdings_tags).
  set (l4 := others a MakingRoom l3) in *. cbn zeta in Hr. apply bind_Some in Hr as (s & Hm & Hr). injection Hr as <- <-.
  assert (canonical (lib_tags l4)) as Hc4 by (apply Hwell; rewrite Ht3; by apply Hwell).
  apply room_after_add in Hm as [Hc5 Hst]; [|exact Hc4]. split_and!; [exact Hc5| | |done].
  - intros Hu. destruct (Hk Hu) as (k & Hb & Hlen). exists k. split; [|done]. intros b x Hx. rewrite <-(Hb b x Hx).
    change (lib_tags (with_storage s l4)) with (storage_tags s). rewrite (Hst b x Hx).
    etrans; [apply (Hu MakingRoom l3 ltac:(done) b x Hx)|]. rewrite Ht3. by apply (Hu Rechecking l1).
  - intros _ Hs b Hb. change (lib_tags (with_storage s l4)) with (storage_tags s). apply Hst; [done|]. apply Hs. rewrite Ht3. apply Hs.
    apply Hall; [done..|by right].
Qed.

(** ** The limit *)

Lemma keep_own_describes T size id blobs k :
  describes T size k → (∀ b n, (b, n) ∈ blobs → size b = n) →
  describes (λ b x, T b x ∨ x = (Own, id) ∧ b ∈ blobs.*1) size (keep_own id blobs k).
Proof.
  revert T k. induction blobs as [|[b n] blobs IH]; intros T k Hd Hs.
  - eapply describes_iff; [|exact Hd]. intros b x. cbn. set_solver.
  - change (keep_own id ((b, n) :: blobs) k) with (keep_own id blobs (Keeping.add Own id b n k)).
    rewrite <-(Hs b n) by by left. eapply describes_iff; [|apply IH; [by apply describes_add|intros; apply Hs; by right]].
    intros b' x. cbn. rewrite elem_of_cons. naive_solver.
Qed.

(** What [check_room_for] lets through. *)
Lemma room_checked limit i t k :
  add_limit a = Some limit → check_room_for order visit a i t = Some (Ok tt) → kept_blobs order (checked_store a) t = Ok k →
  ∃ growth, mandatory_growth k (sizes_of_files i) = Some growth ∧
    (growth = 0 ∨ sum_over mandatory_for k + growth ≤ limit)%N.
Proof.
  intros Hl Hc Hk. unfold check_room_for in Hc. rewrite Hl, Hk in Hc.
  apply bind_Some in Hc as (growth & Hg & Hc). apply bind_Some in Hc as (use & Hu & Hc). apply bind_Some in Hc as (before & Hb & Hc).
  apply bind_Some in Hc as (m & Hm & Hc). apply add64_inv in Hm as ->.
  exists growth. split; [done|]. rewrite <-(mandatory_sum k _ _ _ (Hvisit k) Hu Hb).
  destruct (bool_decide (0 < growth)%N) eqn:E1; cbn in Hc; [|apply bool_decide_eq_false in E1; left; lia].
  destruct (bool_decide (limit < _)%N) eqn:E2; cbn in Hc; [done|]. apply bool_decide_eq_false in E2. right. lia.
Qed.

(** An add's tags, and what has to stay by the store then. *)
Lemma added_within_limit limit i id im t t' k k' :
  canonical t → canonical t' →
  (∀ b, size_of (keeping_store a) b = size_of (checked_store a) b) →
  (∀ f, f ∈ im → size_of (checked_store a) (imported_hash f) = imported_size f) →
  (∀ h, is_Some (files i !! h) ↔ h ∈ imported_hash <$> im) →
  (∀ h r, files i !! h = Some r → ∃ f, f ∈ im ∧ imported_hash f = h ∧ imported_size f = file_size r) →
  kept_besides t t' id (imported_hash <$> im) →
  add_limit a = Some limit → check_room_for order visit a i t = Some (Ok tt) →
  kept_blobs order (checked_store a) t = Ok k → kept_blobs order (keeping_store a) t' = Ok k' →
  (sum_over mandatory_for k' ≤ N.max limit (sum_over mandatory_for k))%N.
Proof.
  intros Hc Hc' Hsame Hsize Hkeys Hfiles Hb Hl Hcheck Hk Hk'. destruct (room_checked _ _ _ _ Hl Hcheck Hk) as (growth & Hg & Hle).
  pose proof (kept_blobs_describes order Horder (checked_store a) _ _ Hc Hk) as Hd.
  pose proof (kept_blobs_describes order Horder (keeping_store a) _ _ Hc' Hk') as Hd'.
  set (size := size_of (checked_store a)) in *.
  assert (describes (has_tag t') size k') as Hd2 by (intros b; specialize (Hd' b); destruct (k' !! b); [by rewrite <-(Hsame b)|done]).
  assert (∀ b n, (b, n) ∈ sizes_of_files i → size b = n) as Hn.
  { intros b n ([h r] & [= -> ->] & Hin%elem_of_map_entries)%list_elem_of_fmap. destruct (Hfiles _ _ Hin) as (f & Hf & <- & <-). by apply Hsize. }
  assert ((sizes_of_files i).*1 = map_keys (files i)) as Hkeys1 by (unfold sizes_of_files, map_keys; by rewrite <-list_fmap_compose).
  assert (sum_over mandatory_for k' = sum_over mandatory_for (keep_own id (sizes_of_files i) k)) as ->.
  { eapply describes_mandatory; [exact Hd2|by apply keep_own_describes|]. intros b x Hx. rewrite (Hb b x Hx), Hkeys1, elem_of_map_keys, Hkeys. done. }
  rewrite keep_own_growth; [|rewrite Hkeys1; apply NoDup_map_keys|].
  - unfold mandatory_growth in Hg. apply sum64_sum in Hg. rewrite <-Hg. lia.
  - intros b n e Hin He. specialize (Hd b). rewrite He in Hd. destruct Hd as [-> _]. by apply Hn.
Qed.

(** ** The whole request *)

Lemma drop_all_gone ids d id :
  clears_upload a id = true → id ∈ ids → drop_all a ids d !! show_id id = None.
Proof.
  intros Hc. assert (∀ ids d, d !! show_id id = None → drop_all a ids d !! show_id id = None) as Hstay.
  { induction ids0 as [|x l IH]; intros d0 Hd; [done|]. apply IH. unfold drop_staged. destruct (clears_upload a x); [|done].
    rewrite lookup_delete_None. by right. }
  revert d. induction ids as [|x l IH]; intros d; [by intros ?%elem_of_nil|]. intros [->|Hin]%elem_of_cons; [|by apply IH].
  apply (Hstay l). unfold drop_staged. rewrite Hc. apply lookup_delete_eq.
Qed.

Lemma imported_each ps i imported f :
  item_from_files lowercase (imap (λ n path, (path, imports a n)) ps) = Some (Ok (i, imported)) → f ∈ imported → ∃ n, imports a n = Ok f.
Proof.
  intros [Him _ _ _ _]%item_from_files_ok Hf. assert (Ok f ∈ (imap (λ n path, (path, imports a n)) ps).*2) as Hin.
  { rewrite <-Him. apply list_elem_of_fmap. by exists f. }
  apply list_elem_of_fmap in Hin as ([path res] & -> & Hin). apply elem_of_lookup_imap in Hin as (n & y & [= -> ->] & _). by exists n.
Qed.

Lemma write_ends p i existing c c' r :
  match existing with Some existing => add_missing_files me a i existing | None => write_new_item me a p i end c = (c', r) →
  match r with Ok answer => added_item answer = item_id i | Err e => ∃ why, e = Refused (BySync why) end.
Proof.
  destruct existing as [existing|].
  - unfold add_missing_files, fbind, fret. case_bool_decide; [by intros [= _ <-]|].
    destruct (Catalogue.write _ _ _ c) as [c1 [[]|e]]; cbn; intros [= _ <-]; [done|by eexists].
  - unfold write_new_item. destruct (Catalogue.write _ _ _ c) as [c1 [[]|e]]; cbn; intros [= _ <-]; [done|by eexists].
Qed.

Lemma standing_far req pledge required :
  under_pledged req = Some (pledge, required) → standing req ≠ FarUnder → (required ≤ saturating_mul64 pledge FAR_UNDER_FACTOR)%N.
Proof.
  unfold under_pledged, standing, standing_of. destruct (bool_decide (_ < required_bytes req)%N) eqn:E; [done|].
  apply bool_decide_eq_false in E. case_bool_decide; [|done]. intros [= <- <-] _. lia.
Qed.

Lemma may_add_ok i membership tables c existing needs :
  may_add total_u64 me a i membership tables c = Ok (existing, needs) →
  Catalogue.item (contents a) (item_id i) c = Ok existing ∧
  ∀ pledge required, under_pledged needs = Some (pledge, required) →
    (added_growth i existing = 0 ∨ required ≤ saturating_mul64 pledge FAR_UNDER_FACTOR)%N.
Proof.
  unfold may_add. destruct (Catalogue.item _ _ c) as [ex|e]; [|done]. cbn [map_err result_bind].
  destruct (requirement _ _ _ _ _ _) as [n|e]; [|done]. cbn [result_bind]. cbn zeta.
  destruct (bool_decide (0 < _)%N && _) eqn:Ef; [done|]. intros [= <- <-]. split; [done|]. intros pledge required Hu.
  apply andb_false_iff in Ef as [Ef|Ef]; [apply bool_decide_eq_false in Ef; left; lia|]. right. apply (standing_far n); [done|]. by destruct (standing n).
Qed.

(** What an add of an item answered, or refused: it is as others left it when
    refused, but for a write or a keeping that failed. *)
Definition add_outcome (i : Item) (imported : list ImportedFile) (l l' : Library) (r : result ApiError Added) : Prop :=
  match r with
  | Ok answer => ∃ existing, added_item answer = item_id i ∧ canonical (lib_tags l') ∧
      check_room_for order visit a i (lib_tags (left_by [CheckingRoom] l)) = Some (Ok tt) ∧
      (spares (item_id i) → ∀ h, h ∈ imported_hash <$> imported → has_tag (lib_tags l') h (Own, item_id i)) ∧
      (undisturbed → kept_besides (lib_tags (left_by [CheckingRoom] l)) (lib_tags l') (item_id i) (imported_hash <$> imported)) ∧
      Catalogue.item (contents a) (item_id i) (lib_catalogue (left_by [CheckingRoom; ReadingItem] l)) = Ok existing ∧
      (∀ pledge required, added_under_pledged answer = Some (pledge, required) →
         (added_growth i existing = 0 ∨ required ≤ saturating_mul64 pledge FAR_UNDER_FACTOR)%N)
  | Err e =>
      (∃ ms, lib_storage l' = lib_storage (left_by ms l) ∧
         (lib_catalogue l' = lib_catalogue (left_by ms l) ∨ ∃ why, e = Refused (BySync why))) ∨
      ∃ hash tag why, e = Refused (ByNet (KeepError hash tag why)) ∧
        (undisturbed → ∃ k, kept_besides (lib_tags (left_by [CheckingRoom] l)) (lib_tags l') (item_id i) (imported_hash <$> take k imported))
  end.

Lemma add_item_outcome p i imported membership tables l l' r :
  canonical (lib_tags l) →
  add_item total_u64 order visit me a p i imported membership tables l = Some (l', r) → add_outcome i imported l l' r.
Proof.
  intros Hc. unfold add_item. cbn zeta. set (l1 := others a CheckingRoom l). set (l2 := others a ReadingItem l1). set (l3 := others a WritingItem l2).
  intros (room & Hroom & Hr)%bind_Some. destruct room as [[]|e]; [|injection Hr as <- <-; left; exists [CheckingRoom]; split; [done|by left]].
  destruct (may_add _ _ _ _ _ _ _) as [[existing needs]|e] eqn:Em;
    [|injection Hr as <- <-; left; exists [CheckingRoom; ReadingItem]; split; [done|by left]].
  apply may_add_ok in Em as [Hex Hfar].
  destruct (match existing with Some existing => add_missing_files me a i existing | None => write_new_item me a p i end (lib_catalogue l3))
    as [c1 [answer|e]] eqn:Ew; apply write_ends in Ew.
  2: { injection Hr as <- <-. left. exists [CheckingRoom; ReadingItem; WritingItem]. split; [done|by right]. }
  assert (canonical (lib_tags (with_catalogue c1 l3))) as Hc3 by (apply (Hwell WritingItem), (Hwell ReadingItem), (Hwell CheckingRoom), Hc).
  apply keep_added_ok in Hr as (Hc' & Hk & Hs & He); [|exact Hc3].
  assert (undisturbed → stays_same (lib_tags l1) (lib_tags (with_catalogue c1 l3))) as Hsame.
  { intros Hu b x Hx. etrans; [apply (Hu WritingItem l2 ltac:(done) b x Hx)|apply (Hu ReadingItem l1 ltac:(done) b x Hx)]. }
  assert (undisturbed → ∃ k, kept_besides (lib_tags l1) (lib_tags l') (item_id i) (imported_hash <$> take k imported) ∧ (is_ok r = true → k = length imported)) as Hkept.
  { intros Hu. destruct (Hk Hu) as (k & Hb & Hlen). exists k. split; [|done]. intros b x Hx. rewrite (Hb b x Hx). by rewrite (Hsame Hu b x Hx). }
  destruct r as [answer'|e]; [subst answer'|destruct He as (hash & tag & why & ->); right; exists hash, tag, why; split; [done|]].
  - exists existing. split_and!; [done|done|done| | |done|done].
    + intros Hsp. by apply Hs.
    + intros Hu. destruct (Hkept Hu) as (k & Hb & Hlen). rewrite (Hlen eq_refl), firstn_all in Hb. exact Hb.
  - intros Hu. destruct (Hkept Hu) as (k & Hb & _). by exists k.
Qed.

End adding.
