(* ===== verification/Requests.v ===== *)
(** * The requests about the group

    The [group.*] methods of [crates/distlib-api/src/methods.rs], and
    [evidence_reason] of [distlib-custody/src/suspects.rs]. A proposal's
    committing is [Proposing]'s, given as a function of the event; the texts of
    a socket address, a time and a shortened id are arguments, as iroh and
    chrono write two of them. *)

From Stdlib Require Import Ascii.
From stdpp Require Import strings pretty.
From S2P Require Import Prelude Keeping Failures Statements Texts Items Blobs Community ReadModel Uploads Api Ids GroupSettings Events Membership MembershipSpec MembershipInv Fixtures MembershipProps.

Section requests.
Context `{IdText MemberId}.
Context (show_addr : SocketAddr → string) (fmt_short : MemberId → string) (when_text : N → string).

(** ** A proposal, said to whoever decides *)

(** [named]. *)
Definition named (m : MemberId) (s : MembershipState) : string :=
  match members s !! m with
  | Some record => if bool_decide (display_name record = "") then show_id m else display_name record +:+ " (" +:+ show_id m +:+ ")"
  | None => show_id m
  end.

Fixpoint joined_by (sep : string) (l : list string) : string :=
  match l with [] => "" | [s] => s | s :: l => s +:+ sep +:+ joined_by sep l end.

(** What a proposed core group changes. *)
Inductive CoreChange : Type :=
| Drops (m : MemberId)
| Adds (m : MemberId)
| Moves (m : MemberId) (to : NodeAddr).
Definition core_changes (proposed : list (MemberId * NodeAddr)) (s : MembershipState) : list CoreChange :=
  let wanted := collect_map proposed in
  (Drops <$> filter (λ m, wanted !! m = None) (map_keys (core s))) ++
  omap (λ e, match core s !! e.1 with
             | None => Some (Adds e.1)
             | Some was => if bool_decide (was = e.2) then None else Some (Moves e.1 e.2)
             end) (map_entries wanted).
Context (addresses : NodeAddr → list SocketAddr).
Definition say_change (s : MembershipState) (c : CoreChange) : string :=
  match c with
  | Drops m => "drop " +:+ named m s +:+ " from the core group"
  | Adds m => "add " +:+ named m s +:+ " to the core group"
  | Moves m to => "move " +:+ named m s +:+ " to " +:+
      joined_by ", " ((show_addr <$> addresses to) ++ match relay to with Some r => [r] | None => [] end)
  end.
(** [describe_core]. *)
Definition describe_core (proposed : list (MemberId * NodeAddr)) (s : MembershipState) : string :=
  match core_changes proposed s with
  | [] => "leave the core group at its " +:+ pretty (N.of_nat (size (core s))) +:+ " members"
  | changes => joined_by ", " (say_change s <$> changes)
  end.

(** [describe]. *)
Definition describe (show_group : GroupId → string) (ev : MembershipEvent) (s : MembershipState) : string :=
  match ev with
  | MemberAdded m => "admit " +:+ profile_name m +:+ " (" +:+ show_id (profile_id m) +:+ ")"
  | MemberExpelled m reason => "expel " +:+ named m s +:+ ": " +:+ reason
  | CoreGroupChanged proposed => describe_core proposed s
  | PledgeChanged m bytes => "set the pledge of " +:+ named m s +:+ " to " +:+ pretty bytes +:+ " bytes"
  | ProtocolRaised to => "raise the group protocol from " +:+ pretty (protocol s) +:+ " to " +:+ pretty to
  | ProtocolSupported m max => "say that " +:+ named m s +:+ " speaks protocols up to " +:+ pretty max
  | GroupFounded g _ _ => "found group " +:+ show_group g
  | Approved p => "approve " +:+ pretty p
  | Withdrawn p => "withdraw " +:+ pretty p
  end.

(** A row of [group.pending]. *)
Record PendingRow : Type := MkPendingRow {
  row_proposal : N;
  row_proposer : MemberId;
  row_what : string;
  approved_by_you : bool;
  row_approvals : list MemberId;
  row_needed : nat;
  expires_after_changes : N;
}.
Definition pending_row (show_group : GroupId → string) (me : MemberId) (s : MembershipState) (e : N * Proposal) : PendingRow :=
  let approvals := set_entries (counting s (proposal_approvals e.2)) in
  MkPendingRow e.1 (proposal_proposer e.2) (describe show_group (proposal_event e.2) s) (bool_decide (me ∈ approvals)) approvals
    (approvals_needed s (proposal_event e.2)) (expires_after s e.1).
Definition pending_rows (show_group : GroupId → string) (me : MemberId) (s : MembershipState) : list PendingRow :=
  pending_row show_group me s <$> map_entries (pending s).

(** ** The reason of an expulsion *)

(** [days_or_hours], of nanoseconds. *)
Definition days_or_hours (window : N) : string :=
  let secs := (window / 1000000000)%N in
  if bool_decide (secs mod 86400 = 0)%N then pretty (secs / 86400)%N +:+ " days" else pretty ((secs + 3599) / 3600)%N +:+ " hours".

(** A byte of UTF-8 that begins a character. *)
Definition begins_char (b : ascii) : bool := let n := N_of_ascii b in negb (bool_decide (128 ≤ n)%N && bool_decide (n < 192)%N).
Definition is_char_boundary (s : string) (i : nat) : bool :=
  match String.list_ascii_of_string s !! i with
  | Some b => begins_char b
  | None => bool_decide (i = String.length s)
  end || bool_decide (i = 0).
(** The loop of [within_bytes]. *)
Fixpoint boundary_below (s : string) (i : nat) : nat :=
  if is_char_boundary s i then i else match i with 0 => 0 | S i => boundary_below s i end.
Definition ellipsis : string := String "226" (String "128" (String "166" "")).
(** [within_bytes]: [None] where a [max] shorter than the ellipsis underflows. *)
Definition within_bytes (text : string) (max : nat) : option string :=
  if bool_decide (String.length text ≤ max) then Some text
  else if bool_decide (max < String.length ellipsis) then None
  else Some (String.substring 0 (boundary_below text (max - String.length ellipsis)) text +:+ ellipsis).

(** [str::trim]. *)
Fixpoint strip (fuel : nat) (codes : list (list N)) (b : list N) : list N :=
  match fuel with
  | 0 => b
  | S fuel => match List.find (λ c, starts_with c b) codes with Some c => strip fuel codes (drop (length c) b) | None => b end
  end.
Definition trim_bytes (b : list N) : list N :=
  let b := strip (length b) spaces b in rev (strip (length b) ((λ c, rev c) <$> spaces) (rev b)).
Definition trim (s : string) : string := String.string_of_list_ascii (ascii_of_N <$> trim_bytes (bytes_of s)).

Definition one_failure `{IdText ItemId} (r : RecordedFailure) : string :=
  let item := show_id (failure_item (failure r)) in
  "by " +:+ fmt_short (prober r) +:+ " at " +:+ when_text (written r) +:+ ": item " +:+
  (if bool_decide (10 ≤ String.length item) && is_char_boundary item 10 then String.substring 0 10 item else item) +:+
  " chunk " +:+ pretty (failure_chunk (failure r)) +:+ ", " +:+ pretty (failure_in_a_row (failure r)) +:+ " in a row".
Definition dash : string := " " +:+ String "226" (String "128" (String "148" " ")).

(** [evidence_reason], before and after it is cut to fit. *)
Definition evidence_text `{IdText ItemId} (reason : option string) (suspect : Suspect) (s : MembershipState) : string :=
  let probers := length (failures suspect) in
  let evidence := "failed probes by " +:+ pretty (N.of_nat probers) +:+ " member" +:+ (if bool_decide (probers = 1) then "" else "s") +:+
    " within " +:+ days_or_hours (failure_window s) +:+ ": " +:+ joined_by "; " (one_failure <$> failures suspect) in
  match trim <$> reason with
  | None | Some "" => evidence
  | Some given => given +:+ dash +:+ evidence
  end.
Definition evidence_reason `{IdText ItemId} (reason : option string) (suspect : Suspect) (s : MembershipState) : option string :=
  within_bytes (evidence_text reason suspect s) (N.to_nat MAX_REASON).
End requests.

(** ** Proposing *)

Section proposing.
Context {Failed : Type} (commits : MembershipEvent → result Failed N) (told : Failed → ApiError) (after : MembershipState).

(** Where a proposal stands: what it waits for, or nothing. *)
Record Stands : Type := MkStands { stands_changed_at : N; stands_proposal : N; stands_waiting : option (nat * nat) }.
(** [outcome], of the membership then. *)
Definition outcome (proposal : N) (s : MembershipState) : Stands :=
  MkStands (changed_at s) proposal
    ((λ entry, (size (counting s (proposal_approvals entry)), approvals_needed s (proposal_event entry))) <$> pending s !! proposal).
Definition is_applied (o : Stands) : bool := match stands_waiting o with None => true | Some _ => false end.

(** [Api::commit]. *)
Definition commit_event (ev : MembershipEvent) : result ApiError N := map_err told (commits ev).
(** [Api::propose]. *)
Definition propose_event (ev : MembershipEvent) : result ApiError Stands :=
  proposal ←? commit_event ev ;; Ok (outcome proposal after).

(** [Api::approve], with whether this member had approved. *)
Definition approve_proposal (me : MemberId) (s : MembershipState) (proposal : N) : result ApiError (Stands * bool) :=
  let already := match pending s !! proposal with
                 | Some entry => bool_decide (me ∈ counting s (proposal_approvals entry))
                 | None => false
                 end in
  _ ←? commit_event (Approved proposal) ;; Ok (outcome proposal after, already).

(** [Api::withdraw]. *)
Definition withdraw_proposal (proposal : N) : result ApiError (N * N) :=
  _ ←? commit_event (Withdrawn proposal) ;; Ok (changed_at after, proposal).

(** [Api::raise_protocol]; a [u32] wraps in a release build. *)
Definition raise_protocol (s : MembershipState) : result ApiError (Stands * N) :=
  let to := next_protocol s in
  match core_not_speaking s to with
  | m :: _ => Err (Refused (ByConsensus (CoreLacksProtocol m to)))
  | [] => stands ←? propose_event (ProtocolRaised to) ;; Ok (stands, to)
  end.

(** [Api::propose_add]. *)
Definition propose_add (m : MemberId) (name : option string) : result ApiError Stands :=
  propose_event (MemberAdded {| profile_id := m; profile_name := default "" name |}).

(** [Api::propose_expel]: [None] where [within_bytes] is. *)
Definition propose_expel (suspects_now : result ApiError (list Suspect)) (reason_of : Suspect → option string)
    (m : MemberId) (reason : option string) (with_evidence : bool) : option (result ApiError (Stands * string)) :=
  let propose reason := stands ←? propose_event (MemberExpelled m reason) ;; Ok (stands, reason) in
  if with_evidence then
    match suspects_now with
    | Err e => Some (Err e)
    | Ok suspects =>
        match List.find (λ s, bool_decide (suspect_member s = m)) suspects with
        | None => Some (Err (InvalidParams (NoEvidence m)))
        | Some suspect => reason ← reason_of suspect; Some (propose reason)
        end
    end
  else match reason with
       | Some reason => Some (propose reason)
       | None => Some (Err (InvalidParams ExpulsionNeedsReason))
       end.

(** [ProposeCore]. *)
Inductive ProposeCore : Type :=
| SetCore (m : MemberId) (addr : NodeAddr)
| RemoveCore (m : MemberId).
(** The map asked for, from the core group read. *)
Definition core_asked (p : ProposeCore) (core : gmap MemberId NodeAddr) : result ApiError (gmap MemberId NodeAddr) :=
  match p with
  | SetCore m addr =>
      if bool_decide (core !! m = Some addr) then Err (InvalidParams (AlreadyThere m)) else Ok (<[m := addr]> core)
  | RemoveCore m =>
      match core !! m with None => Err (InvalidParams (NotACoreNode m)) | Some _ => Ok (delete m core) end
  end.
(** [Api::propose_core], of the membership it read. *)
Definition propose_core (p : ProposeCore) (read : MembershipState) : result ApiError Stands :=
  core ←? core_asked p (core read) ;; propose_event (CoreGroupChanged (map_entries core)).

(** [Api::pledge_set], of the membership it read and what is required. *)
Definition pledge_set (me : MemberId) (limit : option N) (requirement : result ApiError Requirement) (bytes : N) (s : MembershipState)
  : result ApiError (Stands * option (N * N)) :=
  (match limit with Some limit => if bool_decide (limit ≤ bytes)%N then Err (InvalidParams (PledgeNotBelowLimit bytes limit)) else Ok tt | None => Ok tt end) ;?
  map_err (λ e, InvalidParams (ByConsensus e)) (check_pledge s bytes) ;?
  required ←? requirement ;;
  let required := MkRequirement bytes (required_bytes required) in
  match standing required with
  | FarUnder => Err (InvalidParams (far_under "this pledge" required))
  | _ => stands ←? propose_event (PledgeChanged me bytes) ;; Ok (stands, under_pledged required)
  end.
End proposing.

(** ** What the requests about the group come to

    What is told of a proposal is what the fold made of it, a core proposal
    changes one member, a reason with its evidence fits the log; and the two
    moments in which these are read too late or too early. *)

Section facts.
Context `{Crypto}.
Implicit Types (s : MembershipState) (m : MemberId) (ev : MembershipEvent).

Lemma not_left_behind_now s index : not_left_behind s index index = true.
Proof. unfold not_left_behind. apply bool_decide_eq_true. lia. Qed.

(** A decision made and one that waits, apart. *)
Lemma submitted_outcome index signed s s' :
  apply index signed s = (s', Ok tt) → submitted (signed_event signed) → pending s !! index = None →
  (decided s (signed_event signed) (own_approval s (signed_proposer signed) (signed_event signed)) = true ∧
   pending s' !! index = None ∧
   ∃ s1, changes s (signed_event signed) s1 ∧ s' = close index (drop_superseded (signed_event signed) (core s) s1)) ∨
  (decided s (signed_event signed) (own_approval s (signed_proposer signed) (signed_event signed)) = false ∧
   let entry := {| proposal_event := signed_event signed; proposal_proposer := signed_proposer signed;
                   proposal_approvals := own_approval s (signed_proposer signed) (signed_event signed) |} in
   pending s' !! index = Some entry ∧ s' = close index (set_pending <[index := entry]> s)).
Proof.
  intros (_ & _ & s1 & Hf & ->)%apply_spec Hsub Hfresh. destruct Hf as [g fs fo|ev s1 Hsp Hs Hd Hc|ev Hsp Hs Hd Hw|p e|p e s1|p e]; try done.
  - left. split; [done|]. split; [|by exists s1]. unfold close, drop_superseded. cbn [pending set_pending set_changed_at].
    rewrite !map_lookup_filter_None. left. left. by destruct (changes_keep _ _ _ Hc) as (_ & _ & _ & ->).
  - right. split; [done|]. cbn zeta. split; [|done]. unfold close. cbn [pending set_pending set_changed_at]. apply map_lookup_filter_Some. split; [by rewrite lookup_insert_eq|].
    cbn. by rewrite not_left_behind_now.
Qed.

(** C15: What is told of a proposal is so. Of whatever a member puts to the
    group and the group takes up at an index, a member that has just applied it
    is told that it is applied exactly when the change is made; else it waits
    under that index, for more approvals than the core members of now gave it,
    and nothing else is changed. *)
Theorem what_is_told_is_so index signed s s' :
  apply index signed s = (s', Ok tt) → submitted (signed_event signed) → pending s !! index = None →
  let told := outcome index s' in
  stands_proposal told = index ∧ stands_changed_at told = index ∧
  if is_applied told
  then ∃ s1, changes s (signed_event signed) s1 ∧ s' = close index (drop_superseded (signed_event signed) (core s) s1)
  else (members s' = members s ∧ core s' = core s ∧ protocol s' = protocol s) ∧
    ∃ approvals needed, stands_waiting told = Some (approvals, needed) ∧ approvals < needed ∧
      needed = approvals_needed s (signed_event signed) ∧
      approvals = size (counting s (own_approval s (signed_proposer signed) (signed_event signed))).
Proof.
  intros Ha Hsub Hfresh. cbn zeta. destruct (submitted_outcome _ _ _ _ Ha Hsub Hfresh) as [(Hd & Hp & s1 & Hc & Hs')|(Hd & Hp & Hs')].
  - unfold outcome, is_applied. cbn [stands_proposal stands_changed_at stands_waiting]. rewrite Hp. split_and!; [done|by rewrite Hs'|]. by exists s1.
  - unfold outcome, is_applied. cbn [stands_proposal stands_changed_at stands_waiting]. rewrite Hp. cbn. split_and!; [done|by rewrite Hs'..|].
    eexists _, _. split; [done|]. assert (core s' = core s) as Hcore by by rewrite Hs'.
    assert (∀ A, counting s' A = counting s A) as Hcount by (intros A; unfold counting, is_core; by rewrite Hcore).
    assert (∀ ev, approvals_needed s' ev = approvals_needed s ev) as Hneed by (intros ev; unfold approvals_needed, changes_the_voters, is_core; by rewrite Hcore).
    rewrite Hcount, Hneed. split_and!; try done. unfold decided in Hd. apply bool_decide_eq_false in Hd. lia.
Qed.

(** ** The core group *)

Lemma collect_map_entries (c : gmap MemberId NodeAddr) : collect_map (map_entries c) = c.
Proof.
  apply map_eq. intros k. destruct (c !! k) as [a|] eqn:E.
  - apply collect_map_nodup; [apply NoDup_map_keys|]. by apply elem_of_map_entries.
  - apply eq_None_not_Some. rewrite collect_map_is_Some. intros Hk. change (k ∈ map_keys c) in Hk. apply elem_of_map_keys in Hk. rewrite E in Hk. by destruct Hk.
Qed.

Definition asked_member (p : ProposeCore) : MemberId := match p with SetCore m _ | RemoveCore m => m end.
Definition asked_place (p : ProposeCore) : option NodeAddr := match p with SetCore _ addr => Some addr | RemoveCore _ => None end.

Lemma core_asked_ok p core asked :
  core_asked p core = Ok asked →
  asked ≠ core ∧ asked !! asked_member p = asked_place p ∧ ∀ m, m ≠ asked_member p → asked !! m = core !! m.
Proof.
  destruct p as [m addr|m]; cbn.
  - case_bool_decide as Hb; [done|]. intros [= <-]. split_and!.
    + intros Heq. apply Hb. by rewrite <-Heq, lookup_insert_eq.
    + apply lookup_insert_eq.
    + intros m' Hm. by rewrite lookup_insert_ne.
  - destruct (core !! m) eqn:E; [|done]. intros [= <-]. split_and!.
    + intros Heq. by rewrite <-Heq, lookup_delete_eq in E.
    + apply lookup_delete_eq.
    + intros m' Hm. by rewrite lookup_delete_ne.
Qed.

(** C16: A core proposal changes one member. Made against the membership its map
    was read from, it asks for a change, and taken up by the group it makes that
    one or waits: no other core member moves, comes or goes, and no member is
    admitted or expelled. *)
Theorem core_proposal_changes_one_member p asked index signed s s' :
  core_asked p (core s) = Ok asked → signed_event signed = CoreGroupChanged (map_entries asked) →
  apply index signed s = (s', Ok tt) → pending s !! index = None →
  asked ≠ core s ∧ members s' = members s ∧
  (∀ m, m ≠ asked_member p → core s' !! m = core s !! m) ∧
  if is_applied (outcome index s') then core s' !! asked_member p = asked_place p else core s' = core s.
Proof.
  intros Hasked Hev Ha Hfresh. destruct (core_asked_ok _ _ _ Hasked) as (Hne & Hplace & Hothers). split; [done|].
  destruct (submitted_outcome _ _ _ _ Ha) as [(_ & Hp & s1 & Hc & ->)|(_ & Hp & ->)]; [by rewrite Hev|done| |].
  - rewrite Hev in Hc. inversion Hc; subst. unfold is_applied, outcome. cbn [stands_waiting]. rewrite Hp.
    cbn [members core set_core set_pending set_changed_at close drop_superseded fmap option_fmap option_map]. rewrite collect_map_entries. by split_and!.
  - unfold is_applied, outcome. cbn [stands_waiting]. by rewrite Hp.
Qed.

(** C39: A core change that lands between the reading of the map and its signing
    is undone. Asked to move one core member, a node that read the core group
    before another was moved, and signs after, is not refused as stale: the
    proposal takes effect at once and puts the other back where it was. *)
Theorem core_change_between_is_undone m addr asked index signed read s other old :
  core_asked (SetCore m addr) (core read) = Ok asked → signed_event signed = CoreGroupChanged (map_entries asked) →
  dom (core s) = dom (core read) → is_Some (core read !! m) →
  other ≠ m → core read !! other = Some old → core s !! other ≠ Some old →
  wf s → is_Some (group s) → is_Some (core s !! signed_proposer signed) →
  verify signed = Ok tt → signed_changed_at signed = changed_at s →
  ∃ s', apply index signed s = (s', Ok tt) ∧ core s' !! m = Some addr ∧ core s' !! other = Some old.
Proof.
  intros Hasked Hev Hdom [was Hm] Hom Hold Hmoved Hwf [g Hg] Hcore Hver Hat.
  pose proof (core_asked_ok _ _ _ Hasked) as (_ & Hplace & Hothers). cbn in Hplace, Hothers.
  assert (dom asked = dom (core s)) as Hda.
  { rewrite Hdom. cbn in Hasked. case_bool_decide; [done|]. injection Hasked as <-. rewrite dom_insert_L. assert (m ∈ dom (core read)) by by apply elem_of_dom. set_solver. }
  unfold wf in Hwf. rewrite Hg in Hwf. destruct (wf_roster_ok _ Hwf) as [Hroster Hsome _ _].
  assert (∀ x, x ∈ (map_entries asked).*1 → is_Some (core s !! x)) as Hin.
  { intros x Hx. change (x ∈ map_keys asked) in Hx. apply elem_of_map_keys in Hx. apply elem_of_dom. rewrite <-Hda. by apply elem_of_dom. }
  assert (length (map_entries asked) = size (core s)) as Hlen by by rewrite length_map_entries, <-!size_dom, Hda.
  set (ev := CoreGroupChanged (map_entries asked)) in *.
  exists (close index (drop_superseded ev (core s) (set_core (λ _, collect_map (map_entries asked)) s))). split.
  - apply apply_spec. split; [done|]. split; [done|]. eexists. split; [|done]. rewrite Hev. apply Decides.
    + destruct (Hroster _ Hcore) as (r & Hr & _). split; [by exists g|]. split; [by exists r|]. cbn. by rewrite (proj2 (is_core_true _ _) Hcore).
    + done.
    + unfold decided. apply bool_decide_eq_true.
      assert (changes_the_voters s ev = false) as Hcv.
      { cbn. rewrite Hlen, bool_decide_false by (by intros []). cbn. apply not_true_is_false. intros (e & He & Hno)%List.existsb_exists.
        apply list_elem_of_In in He. rewrite (proj2 (is_core_true s e.1)) in Hno; [done|]. apply Hin. apply list_elem_of_fmap. by exists e. }
      assert (own_approval s (signed_proposer signed) ev = {[signed_proposer signed]}) as -> by (unfold own_approval; by rewrite (proj2 (is_core_true _ _) Hcore)).
      unfold approvals_needed. cbn -[changes_the_voters]. fold ev. rewrite Hcv.
      assert (counting s {[signed_proposer signed]} = {[signed_proposer signed]}) as ->; [|by rewrite size_singleton].
      apply set_eq. intros x. rewrite elem_of_counting. set_solver.
    + apply Recores; [| apply NoDup_map_keys| |].
      * intros Hnil. apply (f_equal length) in Hnil. cbn in Hnil. rewrite Hlen in Hnil. by apply map_size_empty_iff in Hnil.
      * intros x Hx%Hin. destruct (Hroster _ Hx) as (r & Hr & _). by exists r.
      * intros x Hx%Hin. destruct (Hroster _ Hx) as (r & Hr & Hp). unfold speaks. rewrite Hr. by apply bool_decide_eq_true.
  - cbn [core set_core set_pending set_changed_at close drop_superseded]. rewrite collect_map_entries. split; [done|]. by rewrite Hothers.
Qed.

(** A proposal withdrawn meanwhile is told as applied. Between an approval's
    being applied and the answer to it the proposer may withdraw: nothing waits
    under the index then, so whoever approved is told it is applied, though the
    members and the core group are what they were. *)
Theorem withdrawn_is_told_applied {Failed} (commits : MembershipEvent → result Failed N) told me p i approval s s1 j withdrawal s2 :
  signed_event approval = Approved p → apply i approval s = (s1, Ok tt) → is_Some (pending s1 !! p) →
  signed_event withdrawal = Withdrawn p → apply j withdrawal s1 = (s2, Ok tt) →
  commits (Approved p) = Ok i →
  ∃ stands already, approve_proposal commits told s2 me s p = Ok (stands, already) ∧ is_applied stands = true ∧
    members s2 = members s ∧ core s2 = core s.
Proof.
  intros Hea Ha [e He] Hew Hw Hc. unfold approve_proposal, commit_event. rewrite Hc. cbn [map_err result_bind].
  eexists _, _. split; [done|]. apply apply_spec in Ha as (_ & _ & s1' & Hf & ->), Hw as (_ & _ & s2' & Hg & ->).
  rewrite Hea in Hf. rewrite Hew in Hg. inversion Hg; subst; try done.
  unfold is_applied, outcome, close. cbn [stands_waiting pending set_pending set_changed_at members core].
  match goal with |- context [filter ?P ?m !! p] => assert (filter P m !! p = None) as -> by (apply map_lookup_filter_None; left; apply lookup_delete_eq) end.
  split; [done|]. inversion Hf; subst; try done. exfalso. unfold close, drop_superseded in He. cbn [pending set_pending set_changed_at] in He.
  apply map_lookup_filter_Some in He as [He _]. apply map_lookup_filter_Some in He as [He _].
  match goal with Hch : changes _ _ _ |- _ => destruct (changes_keep _ _ _ Hch) as (_ & _ & _ & Hp) end. rewrite Hp in He. cbn in He. by rewrite lookup_delete_eq in He.
Qed.

(** A pledge that is let through goes through. The node proposes only a
    pledge below its storage limit, and at least half of what is required of
    it; signed against the membership it looked at by a member, the group takes
    it up at once and the member's record has it, and nothing else changes. *)
Theorem pledge_set_goes_through {Failed} (commits : MembershipEvent → result Failed N) told after me limit required bytes index signed s stands under g :
  pledge_set commits told after me limit required bytes s = Ok (stands, under) →
  group s = Some g → is_Some (members s !! me) →
  verify signed = Ok tt → signed_event signed = PledgeChanged me bytes → signed_proposer signed = me → signed_changed_at signed = changed_at s →
  (∀ n, limit = Some n → (bytes < n)%N) ∧
  (∀ r, required = Ok r → (required_bytes r ≤ saturating_mul64 bytes FAR_UNDER_FACTOR)%N) ∧
  ∃ s' record, apply index signed s = (s', Ok tt) ∧ members s !! me = Some record ∧
    members s' = <[me := with_pledge bytes record]> (members s) ∧ core s' = core s ∧ (min_pledge_bytes (settings s) ≤ bytes)%N.
Proof.
  intros Hset Hg [record Hm] Hver Hev Hme Hat. unfold pledge_set in Hset.
  destruct (match limit with Some _ => _ | None => _ end) as [[]|e] eqn:El; [|done]. cbn [result_bind] in Hset.
  destruct (check_pledge s bytes) as [[]|e] eqn:Ec; [|done]. cbn [map_err result_bind] in Hset.
  destruct required as [r|e]; [|done]. cbn [result_bind] in Hset. cbn zeta in Hset.
  split. { intros n ->. by case_bool_decide; [|lia]. }
  split.
  { intros r' [= <-]. destruct (standing (MkRequirement bytes (required_bytes r))) eqn:Es; [..|done];
      unfold standing, standing_of in Es; cbn in Es; repeat case_bool_decide; try done; lia. }
  exists (close index (drop_superseded (PledgeChanged me bytes) (core s) (set_members <[me := with_pledge bytes record]> s))), record.
  assert ((min_pledge_bytes (settings s) ≤ bytes)%N) as Hmin by (unfold check_pledge in Ec; case_bool_decide; [done|lia]).
  split_and!; [|done|done|done|done]. apply apply_spec. split; [done|]. split; [done|]. eexists. split; [|done]. rewrite Hev, Hme. apply Decides.
  - split; [by exists g|]. split; [by exists record|]. cbn. by rewrite bool_decide_false by (by intros []).
  - done.
  - unfold decided. cbn. apply bool_decide_eq_true. lia.
  - by apply Pledges.
Qed.
End facts.

(** ** Evidence *)

Section evidence.
Context `{IdText MemberId, IdText ItemId} (fmt_short : MemberId → string) (when_text : N → string).

Lemma boundary_below_ok s i : boundary_below s i ≤ i ∧ is_char_boundary s (boundary_below s i) = true.
Proof.
  induction i as [|i [IHl IHb]]; cbn [boundary_below].
  - destruct (is_char_boundary s 0) eqn:E; [done|]. unfold is_char_boundary in E. by rewrite orb_true_r in E.
  - destruct (is_char_boundary s (S i)) eqn:E; [done|]. split; [lia|done].
Qed.
Lemma substring_prefix s n : n ≤ String.length s → ∃ rest, s = String.substring 0 n s +:+ rest ∧ String.length (String.substring 0 n s) = n.
Proof.
  revert n. induction s as [|c s IH]; intros [|n] Hn; cbn in *; try lia; [by exists ""|by exists (String c s)|].
  destruct (IH n) as (rest & Hs & Hl); [lia|]. exists rest. split; [|by rewrite Hl]. change (String c (String.substring 0 n s) +:+ rest) with (String c (String.substring 0 n s +:+ rest)).
  by rewrite <-Hs.
Qed.

(** Cut to fit, where a character begins, and marked. *)
Lemma within_bytes_ok text max :
  String.length ellipsis ≤ max →
  ∃ r, within_bytes text max = Some r ∧ String.length r ≤ max ∧
    (r = text ∨ ∃ n rest, text = String.substring 0 n text +:+ rest ∧ r = String.substring 0 n text +:+ ellipsis ∧ is_char_boundary text n = true).
Proof.
  intros Hmax. unfold within_bytes. case_bool_decide as Hl; [exists text; split_and!; [done|done|by left]|].
  rewrite bool_decide_false by lia. destruct (boundary_below_ok text (max - String.length ellipsis)) as [Hle Hb].
  destruct (substring_prefix text (boundary_below text (max - String.length ellipsis))) as (rest & Hr & Hlen); [lia|].
  eexists. split; [done|]. rewrite length_append, Hlen. split; [lia|]. right. by eexists _, rest.
Qed.

(** An expulsion's evidence fits the log. Whatever reason is given, however
    many probers there are and whatever their items are called, the reason with
    its evidence is made, within the log's limit in bytes; it is the text
    itself, or the start of it up to where a character begins, marked as cut. *)
Theorem evidence_fits reason suspect s m :
  let text := evidence_text fmt_short when_text reason suspect s in
  ∃ r, evidence_reason fmt_short when_text reason suspect s = Some r ∧ within_limits (MemberExpelled m r) = Ok tt ∧
    (r = text ∨ ∃ n rest, text = String.substring 0 n text +:+ rest ∧ r = String.substring 0 n text +:+ ellipsis ∧ is_char_boundary text n = true).
Proof.
  cbn zeta. destruct (within_bytes_ok (evidence_text fmt_short when_text reason suspect s) (N.to_nat MAX_REASON)) as (r & Hr & Hl & Ht); [vm_compute; lia|].
  exists r. split; [exact Hr|]. split; [|exact Ht]. cbn. unfold within, str_len. rewrite bool_decide_false by lia. done.
Qed.
End evidence.

(** ** At concrete inputs *)

Definition three : MembershipState := fold_log (base_log [1; 2; 3]%N).
Definition asks (n seen : N) (ev : MembershipEvent) (index : N) (s : MembershipState) : MembershipState := (apply index (signed_by n seen ev) s).1.
Lemma asks_ok n seen ev index s : is_ok (apply index (signed_by n seen ev) s).2 = true → apply index (signed_by n seen ev) s = (asks n seen ev index s, Ok tt).
Proof. unfold asks. destruct (apply _ _ _) as [s' [[]|e]]; [done|discriminate]. Qed.
Lemma core_asked_set m a co : bool_decide (co !! m = Some a) = false → core_asked (SetCore m a) co = Ok (<[m := a]> co).
Proof. intros H. cbn. by rewrite H. Qed.

(** A pledge is at once; expelling one of three waits for another. *)
Definition a_pledge : MembershipEvent := PledgeChanged (member 1) (300 * GB).
Definition spam : MembershipEvent := MemberExpelled (member 2) "spam".
Lemma what_is_told_is_so_witness :
  (is_applied (outcome 2 (asks 1 1 a_pledge 2 three)) = true ∧ ∃ s1, changes three a_pledge s1) ∧
  is_applied (outcome 2 (asks 1 1 spam 2 three)) = false ∧ members (asks 1 1 spam 2 three) = members three.
Proof.
  split.
  - assert (is_applied (outcome 2 (asks 1 1 a_pledge 2 three)) = true) as E by (vm_compute; reflexivity). split; [exact E|].
    pose proof (what_is_told_is_so 2 (signed_by 1 1 a_pledge) three (asks 1 1 a_pledge 2 three)) as Hw. cbv zeta in Hw. rewrite E in Hw.
    destruct Hw as (_ & _ & s1 & Hc & _); [apply asks_ok; vm_compute; reflexivity|exact I|vm_compute; reflexivity|].
    exists s1. exact Hc.
  - assert (is_applied (outcome 2 (asks 1 1 spam 2 three)) = false) as E by (vm_compute; reflexivity). split; [exact E|].
    pose proof (what_is_told_is_so 2 (signed_by 1 1 spam) three (asks 1 1 spam 2 three)) as Hw. cbv zeta in Hw. rewrite E in Hw.
    destruct Hw as (_ & _ & (Hm & _) & _); [apply asks_ok; vm_compute; reflexivity|exact I|vm_compute; reflexivity|].
    exact Hm.
Defined.

(** 1 moves 2 to another relay. *)
Definition addr' : NodeAddr := {| relay := Some "https://other.example"; direct := ∅ |}.
Definition moved (n : N) (s : MembershipState) : MembershipEvent := CoreGroupChanged (map_entries (<[member n := addr']> (core s))).
Lemma core_proposal_changes_one_member_witness :
  core (asks 1 1 (moved 2 three) 2 three) !! member 2 = Some addr' ∧
  core (asks 1 1 (moved 2 three) 2 three) !! member 3 = core three !! member 3.
Proof.
  assert (is_applied (outcome 2 (asks 1 1 (moved 2 three) 2 three)) = true) as E by (vm_compute; reflexivity).
  pose proof (core_proposal_changes_one_member (SetCore (member 2) addr') (<[member 2 := addr']> (core three)) 2
    (signed_by 1 1 (moved 2 three)) three (asks 1 1 (moved 2 three) 2 three)) as Hc. rewrite E in Hc.
  destruct Hc as (_ & _ & Hothers & Hthere).
  - apply core_asked_set. vm_compute. reflexivity.
  - reflexivity.
  - apply asks_ok. vm_compute. reflexivity.
  - vm_compute. reflexivity.
  - split; [exact Hthere|]. apply Hothers. apply (bool_decide_unpack _). vm_compute. exact I.
Defined.

(** 1 reads the core group; 3 is moved; 1's move of 2 puts 3 back. *)
Definition three_moved : MembershipState := asks 3 1 (moved 3 three) 2 three.
Lemma core_change_between_is_undone_witness :
  core three_moved !! member 3 = Some addr' ∧
  ∃ s', apply 3 (signed_by 1 2 (moved 2 three)) three_moved = (s', Ok tt) ∧
    core s' !! member 2 = Some addr' ∧ core s' !! member 3 = Some addr.
Proof.
  assert (core three_moved !! member 3 = Some addr') as E by (apply (bool_decide_unpack _); vm_compute; exact I). split; [exact E|].
  apply (core_change_between_is_undone (member 2) addr' (<[member 2 := addr']> (core three)) 3 (signed_by 1 2 (moved 2 three)) three three_moved).
  - apply core_asked_set. vm_compute. reflexivity.
  - reflexivity.
  - apply (bool_decide_unpack _). vm_compute. exact I.
  - apply (bool_decide_unpack _). vm_compute. exact I.
  - apply (bool_decide_unpack _). vm_compute. exact I.
  - apply (bool_decide_unpack _). vm_compute. exact I.
  - rewrite E. intros [=].
  - eapply (accepts_wf 2 (signed_by 3 1 (moved 3 three)) three); [|right; vm_compute; reflexivity|apply apply_spec, asks_ok; vm_compute; reflexivity].
    apply fold_log_wf. unfold indexed. cbn. repeat constructor.
  - exists the_group. vm_compute. reflexivity.
  - apply (bool_decide_unpack _). vm_compute. exact I.
  - vm_compute. reflexivity.
  - vm_compute. reflexivity.
Defined.

(** 1, of five, proposes to expel 2; 3 approves; 1 withdraws before 3 is told. *)
Definition five : MembershipState := fold_log (base_log [1; 2; 3; 4; 5]%N).
Definition five_spam : MembershipState := asks 1 1 spam 2 five.
Definition five_approved : MembershipState := asks 3 2 (Approved 2) 3 five_spam.
Definition five_withdrawn : MembershipState := asks 1 3 (Withdrawn 2) 4 five_approved.
Lemma withdrawn_is_told_applied_witness :
  ∃ stands already, approve_proposal (λ _, @Ok string N 3%N) (λ e, Refused (Otherwise e)) five_withdrawn (member 3) five_spam 2 = Ok (stands, already) ∧
    is_applied stands = true ∧ members five_withdrawn = members five_spam ∧ core five_withdrawn = core five_spam.
Proof.
  apply (withdrawn_is_told_applied (λ _, @Ok string N 3%N) (λ e, Refused (Otherwise e)) (member 3) 2 3 (signed_by 3 2 (Approved 2)) five_spam five_approved
    4 (signed_by 1 3 (Withdrawn 2)) five_withdrawn).
  - reflexivity.
  - apply asks_ok. vm_compute. reflexivity.
  - apply (bool_decide_unpack _). vm_compute. exact I.
  - reflexivity.
  - apply asks_ok. vm_compute. reflexivity.
  - reflexivity.
Defined.

(** 1 pledges 300 GB, of 500 GB of room, where 400 GB are required. *)
Definition gb_required : Requirement := MkRequirement 0 (400 * GB).
Lemma pledge_set_goes_through_witness :
  ∃ s', apply 2 (signed_by 1 1 a_pledge) three = (s', Ok tt) ∧ bool_decide (with_pledge (300 * GB) <$> members three !! member 1 = members s' !! member 1) = true.
Proof.
  destruct (pledge_set (λ _, @Ok string N 2%N) (λ e, Refused (Otherwise e)) (asks 1 1 a_pledge 2 three) (member 1) (Some (500 * GB)%N) (Ok gb_required) (300 * GB) three)
    as [[stands under]|e] eqn:E; [|vm_compute in E; discriminate].
  destruct (pledge_set_goes_through (λ _, @Ok string N 2%N) (λ e, Refused (Otherwise e)) (asks 1 1 a_pledge 2 three) (member 1) (Some (500 * GB)%N) (Ok gb_required)
    (300 * GB) 2 (signed_by 1 1 a_pledge) three stands under the_group E) as (_ & _ & s' & record & Ha & Hm & Hm' & _).
  - vm_compute. reflexivity.
  - apply (bool_decide_unpack _). vm_compute. exact I.
  - vm_compute. reflexivity.
  - reflexivity.
  - reflexivity.
  - vm_compute. reflexivity.
  - exists s'. split; [exact Ha|]. apply bool_decide_eq_true. rewrite Hm, Hm', lookup_insert_eq. reflexivity.
Defined.
