(* ===== verification/Saying.v ===== *)
(** * What a member asks to be said

    The [community.*] methods of [crates/distlib-api/src/methods.rs] that write,
    and [library.edit_metadata]. A method reads the document before it writes;
    as others' entries arrive between the two, what it reads is an argument and
    what it writes to the state. *)

From Stdlib Require Import Ascii.
From Stdlib Require Import SpecFloat.
From stdpp Require Import strings.
From S2P Require Import Prelude Requests Ids Events Heartbeats Keeping Failures Statements Blobs Api Texts Items ItemsProps Community Catalogue CatalogueProps.

#[local] Instance float_eq_dec : EqDecision spec_float.
Proof. solve_decision. Defined.
#[local] Instance series_eq_dec : EqDecision Series.
Proof. solve_decision. Defined.
#[export] Instance Item_eq_dec : EqDecision Item.
Proof. solve_decision. Defined.

Section saying.
Context `{IdText ItemId, IdText ContentHash, IdText MemberId, IdText BookmarkId, IdText WishId}.
Context `{CommunityJson, Documents}.
(** This node's member, and what the blob store answers as a method reads. *)
Context (me : MemberId) (w : ContentWorld).

Notation Catalogue := (option Doc).

(** ** What may be written about *)

(** [refuse_unknown_item]. *)
Definition refuse_unknown_item (id : ItemId) (c : Catalogue) : result ApiError unit :=
  found ←? map_err sync_error (item w id c) ;;
  match found with Some _ => Ok tt | None => Err (Refused (NoSuchItem id)) end.

(** [known_wish_entries]. *)
Definition known_wish_entries (id : WishId) (c : Catalogue) : result ApiError (gmap MemberId Wish) :=
  entries ←? map_err sync_error (wishes w id c) ;;
  match resolve entries with Some _ => Ok entries | None => Err (Refused (NoSuchWish id)) end.

(** [own_bookmark]. *)
Definition is_own (id : BookmarkId) (read : ReadBookmark) : bool :=
  bool_decide (bookmark_member read = me) && bool_decide (bookmark_id read = id).
Definition own_bookmark (item : ItemId) (id : BookmarkId) (c : Catalogue) : result ApiError Bookmark :=
  read ←? map_err sync_error (read_bookmarks w item c) ;;
  match List.find (is_own id) read.1 with
  | Some read => Ok (read_mark read)
  | None => Err (Refused (NoBookmarkOfYours item id))
  end.

(** ** The methods *)

(** The clock, an entry's time and the ids a method draws. *)
Record Moment : Type := MkMoment {
  clock : Z;
  entry_time : N;
  random_bookmark : result string BookmarkId;
  random_wish : result string WishId;
}.
Context (a : Moment).

(** A write, its error the API's. *)
Definition writes (act : fallible Catalogue SyncError unit) : fallible Catalogue ApiError unit := on id (λ c _, c) sync_error act.

(** [Api::rate]. *)
Definition rate_item (id : ItemId) (rating : option Rating) (asked : Catalogue) : fallible Catalogue ApiError unit :=
  given (refuse_unknown_item id asked) ;!
  writes (match rating with
          | Some rating => rate me (entry_time a) id rating
          | None => clear_rating me (entry_time a) id
          end).

(** [Api::review]. *)
Definition review_item (id : ItemId) (text : option Review) (asked : Catalogue) : fallible Catalogue ApiError unit :=
  given (refuse_unknown_item id asked) ;!
  writes (match text with
          | Some text => review me (entry_time a) id text
          | None => clear_review me (entry_time a) id
          end).

(** [Api::bookmark], of the document asked for the item and, later, for the
    bookmark edited. *)
Definition bookmark_item (id : ItemId) (edited : option BookmarkId) (at_ text : string) (asked looked : Catalogue)
  : fallible Catalogue ApiError BookmarkId :=
  given (refuse_unknown_item id asked) ;!
  made ←! given (match edited with
                 | Some edited => old ←? own_bookmark id edited looked ;; Ok (edited, created_at old)
                 | None => drawn ←? map_err (λ e, Refused (Otherwise e)) (random_bookmark a) ;; Ok (drawn, micros_since_epoch (clock a))
                 end) ;;
  mark ←! given (map_err (λ e, InvalidParams (ByCore e)) (new_bookmark at_ text made.2)) ;;
  writes (bookmark me (entry_time a) id made.1 mark) ;!
  fret made.1.

(** [Api::bookmark_delete]. *)
Definition bookmark_delete (id : ItemId) (mark : BookmarkId) (looked : Catalogue) : fallible Catalogue ApiError unit :=
  given (own_bookmark id mark looked) ;!
  writes (delete_bookmark me (entry_time a) id mark).

(** [Api::wish_create]. *)
Definition wish_create (kind : option ItemKind) (title : string) (authors : list string) (description : option string)
  : fallible Catalogue ApiError WishId :=
  given (if bool_decide (trim title = "") then Err (InvalidParams NeedsATitle) else Ok tt) ;!
  drawn ←! given (map_err (λ e, Refused (Otherwise e)) (random_wish a)) ;;
  entry ←! given (map_err (λ e, InvalidParams (ByCore e)) (new_wish
    (MkWishFields kind (Some title) (match authors with [] => None | _ => Some authors end) description
       (Some (micros_since_epoch (clock a))) Open))) ;;
  writes (wish me (entry_time a) drawn entry) ;!
  fret drawn.

(** [Api::wish_comment]. *)
Definition comment_on_wish (id : WishId) (text : option Comment) (asked : Catalogue) : fallible Catalogue ApiError unit :=
  given (known_wish_entries id asked) ;!
  writes (match text with
          | Some text => wish_comment me (entry_time a) id text
          | None => clear_wish_comment me (entry_time a) id
          end).

(** [Api::wish_fulfill]: what this member's entry is to say. *)
Definition with_status (status : WishStatus) (f : WishFields) : WishFields :=
  MkWishFields (wish_kind f) (wish_title f) (wish_authors f) (wish_description f) (wish_created_at f) status.
Definition mine_of (entries : gmap MemberId Wish) : WishFields :=
  match entries !! me with
  | Some entry => wish_fields entry
  | None => MkWishFields None None None None (Some (micros_since_epoch (clock a))) Open
  end.
Definition wish_fulfill (id : WishId) (item : ItemId) (looked asked : Catalogue) : fallible Catalogue ApiError unit :=
  entries ←! given (known_wish_entries id looked) ;;
  given (refuse_unknown_item item asked) ;!
  entry ←! given (map_err (λ e, InvalidParams (ByCore e)) (new_wish (with_status (Fulfilled item) (mine_of entries)))) ;;
  writes (wish me (entry_time a) id entry).

(** [Api::edit_metadata]. *)
Definition edit_metadata (id : ItemId) (fields : ItemFields) (asked : Catalogue) : fallible Catalogue ApiError unit :=
  let edit := set_fields fields (new_item id) in
  given (if bool_decide (edit = new_item id) then Err (InvalidParams NeedsAField) else Ok tt) ;!
  given (refuse_unknown_item id asked) ;!
  writes (Catalogue.write me (entry_time a) edit).

(** ** One request *)

Inductive Say : Type :=
| Rates (id : ItemId) (rating : option Rating)
| Reviews (id : ItemId) (text : option Review)
| Marks (id : ItemId) (edited : option BookmarkId) (at_ text : string)
| Unmarks (id : ItemId) (mark : BookmarkId)
| Wishes (kind : option ItemKind) (title : string) (authors : list string) (description : option string)
| Comments (id : WishId) (text : option Comment)
| Fulfills (id : WishId) (item : ItemId).

(** The arms of [Api::call], with the key each writes at. *)
Definition say (q : Say) (asked looked : Catalogue) : fallible Catalogue ApiError CommunityKey :=
  match q with
  | Rates id rating => rate_item id rating asked ;! fret (RatingKey id me)
  | Reviews id text => review_item id text asked ;! fret (ReviewKey id me)
  | Marks id edited at_ text => mark ←! bookmark_item id edited at_ text asked looked ;; fret (BookmarkKey id me mark)
  | Unmarks id mark => bookmark_delete id mark looked ;! fret (BookmarkKey id me mark)
  | Wishes kind title authors description => drawn ←! wish_create kind title authors description ;; fret (WishKey drawn me)
  | Comments id text => comment_on_wish id text asked ;! fret (WishCommentKey id me)
  | Fulfills id item => wish_fulfill id item looked asked ;! fret (WishKey id me)
  end.
End saying.

(** ** What members say, as a map

    What each key says, whoever's it is: what its author wrote there, once its
    content is here and if it can be read. *)

Inductive Value : Type :=
| VRating (r : Rating)
| VReview (r : Review)
| VMark (b : Bookmark)
| VWish (entry : Wish)
| VComment (c : Comment)
| VFailure (f : ProbeFailure).

Section view.
Context `{IdText ItemId, IdText ContentHash, IdText MemberId, IdText BookmarkId, IdText WishId}.
Context `{CommunityJson} `{Crypto} `{DD : Documents} `{DL : !DocumentsLaws}.

Definition encode_value (v : Value) : list N :=
  match v with
  | VRating r => encode_rating r | VReview r => encode_review r | VMark b => encode_bookmark b
  | VWish entry => encode_wish entry | VComment c => encode_comment c | VFailure f => encode_failure f
  end.
Definition decode_at (k : CommunityKey) (bytes : list N) : option Value :=
  match k with
  | RatingKey _ _ => VRating <$> decode_rating bytes
  | ReviewKey _ _ => VReview <$> decode_review bytes
  | BookmarkKey _ _ _ => VMark <$> decode_bookmark bytes
  | WishKey _ _ => VWish <$> decode_wish bytes
  | WishCommentKey _ _ => VComment <$> decode_comment bytes
  | ProbeFailureKey _ _ => VFailure <$> decode_failure bytes
  end.
Definition view (w : ContentWorld) (d : Doc) (k : CommunityKey) : option Value :=
  e ← held d !! (member_id32 (key_member k), encode_community k);
  match content w e with Ok (Some bytes) => decode_at k bytes | _ => None end.

(** What is said is within its type, and the blob store has it. *)
Definition within_type (v : Value) : Prop :=
  match v with
  | VRating r => rating_ok r | VReview r => review_ok r | VMark b => bookmark_ok b ∧ bookmark_holds b
  | VWish entry => wish_ok entry ∧ wish_holds (wish_fields entry) | VComment c => comment_ok c | VFailure f => failure_holds f
  end.
Definition lands (w : ContentWorld) (v : Value) : Prop :=
  let bytes := encode_value v in
  has_content w (MkContentHash (blake3 bytes)) = Ok (Complete (N.of_nat (length bytes))) ∧
  reads_content w (MkContentHash (blake3 bytes)) = Ok bytes.

(** ** What a request is to say *)

(** Of what was said where it looked. *)
Definition said_value (me : MemberId) (now : N) (looked : CommunityKey → option Value) (q : Say) : option Value :=
  match q with
  | Rates _ rating => VRating <$> rating
  | Reviews _ text => VReview <$> text
  | Marks id edited at_ text =>
      Some (VMark (MkBookmark at_ text
        (match edited with
         | Some mark => match looked (BookmarkKey id me mark) with Some (VMark old) => created_at old | _ => now end
         | None => now
         end)))
  | Unmarks _ _ => None
  | Wishes kind title authors description =>
      Some (VWish (MkWish (MkWishFields kind (Some title) (match authors with [] => None | _ => Some authors end) description (Some now) Open)))
  | Comments _ text => VComment <$> text
  | Fulfills id item =>
      Some (VWish (MkWish (with_status (Fulfilled item)
        (match looked (WishKey id me) with
         | Some (VWish mine) => wish_fields mine
         | _ => MkWishFields None None None None (Some now) Open
         end))))
  end.

(** At which keys it may say it. *)
Definition names_key (me : MemberId) (q : Say) (k : CommunityKey) : Prop :=
  match q with
  | Rates id _ => k = RatingKey id me
  | Reviews id _ => k = ReviewKey id me
  | Marks id (Some mark) _ _ | Unmarks id mark => k = BookmarkKey id me mark
  | Marks id None _ _ => ∃ mark, k = BookmarkKey id me mark
  | Wishes _ _ _ _ => ∃ id, k = WishKey id me
  | Comments id _ => k = WishCommentKey id me
  | Fulfills id _ => k = WishKey id me
  end.

(** What is there to speak of. *)
Definition item_known (w : ContentWorld) (id : ItemId) (c : option Doc) : Prop := ∃ i, item w id c = Ok (Some i).
Definition wish_known (w : ContentWorld) (id : WishId) (c : option Doc) : Prop :=
  ∃ es r, wishes w id c = Ok es ∧ resolve es = Some r.
Definition mark_said (me : MemberId) (id : ItemId) (mark : BookmarkId) (looked : CommunityKey → option Value) : Prop :=
  ∃ b, looked (BookmarkKey id me mark) = Some (VMark b).
Definition spoken_of (me : MemberId) (w : ContentWorld) (q : Say) (asked looked : option Doc) (seen : CommunityKey → option Value) : Prop :=
  match q with
  | Rates id _ | Reviews id _ | Marks id None _ _ => item_known w id asked
  | Marks id (Some mark) _ _ => item_known w id asked ∧ mark_said me id mark seen
  | Unmarks id mark => mark_said me id mark seen
  | Wishes _ title _ _ => trim title ≠ ""
  | Comments id _ => wish_known w id asked
  | Fulfills id item => wish_known w id looked ∧ item_known w item asked
  end.
Definition seen_in (w : ContentWorld) (c : option Doc) (k : CommunityKey) : option Value :=
  match c with Some d => view w d k | None => None end.
End view.

Section updates.
Context `{IdTextLaws ItemId 64} `{IdTextLaws ContentHash 64} `{IdTextLaws MemberId 64}.
Context `{IdTextLaws BookmarkId 32} `{IdTextLaws WishId 64}.
Context `{CommunityJson} `{!CommunityJsonLaws} `{Crypto} `{DD : Documents} `{DL : !DocumentsLaws}.
Context (me : MemberId) (w0 w : ContentWorld) (a : Moment).

(** What is said reads back as itself, at a key of its kind. *)
Definition suits (k : CommunityKey) (v : Value) : bool :=
  match v, k with
  | VRating _, RatingKey _ _ | VReview _, ReviewKey _ _ | VMark _, BookmarkKey _ _ _ | VWish _, WishKey _ _
  | VComment _, WishCommentKey _ _ | VFailure _, ProbeFailureKey _ _ => true
  | _, _ => false
  end.
Lemma decode_value k v : suits k v = true → within_type v → decode_at k (encode_value v) = Some v.
Proof.
  destruct values_keep_their_limits as (_ & _ & _ & _ & _ & Hr & Hv & Hc & Hb & Hw & Hf).
  intros Hs Hv'. destruct v, k; try done; cbn [decode_at encode_value within_type] in *.
  - by rewrite Hr.
  - by rewrite Hv.
  - by rewrite Hb by tauto.
  - by rewrite Hw by tauto.
  - by rewrite Hc.
  - by rewrite Hf.
Qed.

Lemma encode_community_inj k k' : encode_community k = encode_community k' → k = k'.
Proof. intros Heq%(f_equal parse_community). rewrite !parse_encode_community in Heq. congruence. Qed.

(** A write of one's own changes what one's own key says. *)
Lemma view_put k v now d c' :
  key_member k = me → suits k v = true → within_type v → lands w v →
  put me now (encode_community k) (encode_value v) (Some d) = (c', Ok tt) →
  ∃ d', c' = Some d' ∧ ∀ k', view w d' k' = if decide (k' = k) then Some v else view w d k'.
Proof.
  intros Hme Hs Hv [Hhas Hreads]. unfold put. cbn [document].
  destruct (set_bytes _ _ _ _ _) as [d'|] eqn:Hset; [|done]. intros [= <-]. exists d'. split; [done|]. intros k'.
  unfold view. rewrite (set_held _ _ _ _ _ _ _ _ Hset). destruct (decide (k' = k)) as [->|Hk].
  - rewrite Hme, decide_True by done. cbn [mbind option_bind]. unfold content. cbn [content_hash]. rewrite Hhas, Hreads. by apply decode_value.
  - rewrite decide_False by (intros [_ ?%encode_community_inj]; done). by rewrite decide_False by (intros [_ ?%begins_own]; congruence).
Qed.
Lemma view_delete k now d c' :
  key_member k = me → delete_entry me now (encode_community k) (Some d) = (c', Ok tt) →
  ∃ d', c' = Some d' ∧ ∀ k', view w d' k' = if decide (k' = k) then None else view w d k'.
Proof.
  intros Hme. unfold delete_entry. cbn [document].
  destruct (del _ _ _ _) as [d'|] eqn:Hset; [|done]. intros [= <-]. exists d'. split; [done|]. intros k'.
  unfold view. rewrite (del_held _ _ _ _ _ _ _ Hset). destruct (decide (k' = k)) as [->|Hk].
  - rewrite Hme, decide_True by (split; [done|apply begins_refl]). done.
  - by rewrite decide_False by (intros [_ ?%begins_own]; congruence).
Qed.

(** ** What the methods look at *)

Lemma own_bookmark_seen item id c b : own_bookmark me w0 item id c = Ok b → seen_in w0 c (BookmarkKey item me id) = Some (VMark b).
Proof.
  unfold own_bookmark, read_bookmarks. destruct c as [d|]; [|done].
  destruct (read_community_entries _ _ _ _) as [r|] eqn:Hr; [|done]. cbn [result_bind map_err fst].
  destruct (List.find _ _) as [read|] eqn:Hf; [|done]. intros [= <-].
  apply List.find_some in Hf as [Hin Hown]. unfold is_own in Hown. apply andb_true_iff in Hown as [Hm%bool_decide_eq_true Hi%bool_decide_eq_true].
  apply list_elem_of_In in Hin. rewrite merge_sort_Permutation in Hin. apply list_elem_of_omap in Hin as (x & Hx & Hread).
  unfold read_bookmark in Hread. apply (counted_exact _ _ _ _ _ _ Hr) in Hx as (Hb & e & bytes & He & _ & Hc & Hd).
  apply in_bookmarks_of in Hb as (m & mark & Hk). rewrite Hk in Hread, He. injection Hread as <-. cbn in Hm, Hi. subst m mark.
  cbn [seen_in]. unfold view. rewrite He. cbn [mbind option_bind]. rewrite Hc. cbn [decode_at]. by rewrite Hd.
Qed.

Lemma wishes_seen w' id d es m : wishes w' id (Some d) = Ok es → VWish <$> es !! m = view w' d (WishKey id m).
Proof.
  intros Hes. pose proof (λ v, by_member_exact w' _ _ (WishKey id) d es m v (in_wish_entries_of id) (λ _, eq_refl) Hes) as Hx.
  unfold view. cbn [key_member decode_at]. destruct (es !! m) as [v|] eqn:E.
  - destruct (proj1 (Hx v) eq_refl) as (e & bytes & -> & Hc & Hd). cbn [mbind option_bind]. by rewrite Hc, Hd.
  - destruct (held d !! _) as [e|] eqn:He; [|done]. cbn [mbind option_bind]. destruct (content w' e) as [[bytes|]|] eqn:Hc; [|done..].
    destruct (decode_wish bytes) as [v|] eqn:Hd; [|done]. assert (None = Some v) by (apply Hx; eauto). done.
Qed.

Lemma known_wish_seen id c es :
  known_wish_entries w0 id c = Ok es → wish_known w0 id c ∧ VWish <$> es !! me = seen_in w0 c (WishKey id me).
Proof.
  unfold known_wish_entries. destruct (wishes w0 id c) as [es'|] eqn:Hes; [|done]. cbn [map_err result_bind].
  destruct (resolve es') as [r|] eqn:Hr; [|done]. intros [= <-]. split; [by exists es', r|].
  destruct c as [d|]; [|done]. by apply wishes_seen.
Qed.

Lemma item_asked id c : refuse_unknown_item w0 id c = Ok tt → item_known w0 id c.
Proof. unfold refuse_unknown_item. destruct (item w0 id c) as [[i|]|] eqn:E; [|done..]. intros _. by exists i. Qed.

(** ** A request is one update *)

(** What a request that ends in one write comes to. *)
Definition updates (d : Doc) (v : option Value) (k : CommunityKey) (out : option Doc * result ApiError unit) : Prop :=
  match out with
  | (c', Err _) => c' = Some d
  | (c', Ok _) => (∀ x, v = Some x → within_type x ∧ lands w x) →
      ∃ d', c' = Some d' ∧ ∀ k', view w d' k' = if decide (k' = k) then v else view w d k'
  end.

Lemma put_updates d k v now :
  key_member k = me → suits k v = true → updates d (Some v) k (writes (put me now (encode_community k) (encode_value v)) (Some d)).
Proof.
  intros Hme Hs. unfold writes, on. cbn [id]. destruct (put _ _ _ _ _) as [c' [[]|e]] eqn:Hp; cbn [map_err].
  - intros Hx. destruct (Hx v eq_refl). by eapply view_put.
  - unfold put in Hp. cbn [document] in Hp. destruct (set_bytes _ _ _ _ _); congruence.
Qed.
Lemma delete_updates d k now :
  key_member k = me → updates d None k (writes (delete_entry me now (encode_community k)) (Some d)).
Proof.
  intros Hme. unfold writes, on. cbn [id]. destruct (delete_entry _ _ _ _) as [c' [[]|e]] eqn:Hp; cbn [map_err].
  - intros _. by eapply view_delete.
  - unfold delete_entry in Hp. cbn [document] in Hp. destruct (del _ _ _ _); congruence.
Qed.
Lemma optional_updates {A} d k (said : option A) (make : A → Value) act clears now :
  key_member k = me → (∀ x, suits k (make x) = true) →
  (∀ x, act x = put me now (encode_community k) (encode_value (make x))) → clears = delete_entry me now (encode_community k) →
  updates d (make <$> said) k (writes (match said with Some x => act x | None => clears end) (Some d)).
Proof. intros Hme Hs Hact ->. destruct said as [x|]; [rewrite Hact; by apply put_updates|by apply delete_updates]. Qed.

(** What [say] comes to, said once for all requests. *)
Definition came_to (q : Say) (asked looked : option Doc) (d : Doc) (out : option Doc * result ApiError CommunityKey) : Prop :=
  match out with
  | (c', Err _) => c' = Some d
  | (c', Ok k) =>
      let v := said_value me (micros_since_epoch (clock a)) (seen_in w0 looked) q in
      key_member k = me ∧ names_key me q k ∧ spoken_of me w0 q asked looked (seen_in w0 looked) ∧
      ((∀ x, v = Some x → within_type x ∧ lands w x) →
       ∃ d', c' = Some d' ∧ ∀ k', view w d' k' = if decide (k' = k) then v else view w d k')
  end.

Lemma updates_came_to q asked looked d k act :
  key_member k = me → names_key me q k → spoken_of me w0 q asked looked (seen_in w0 looked) →
  updates d (said_value me (micros_since_epoch (clock a)) (seen_in w0 looked) q) k (act (Some d)) →
  came_to q asked looked d ((act ;! fret k) (Some d)).
Proof.
  intros Hme Hk Hs Hu. unfold fbind. destruct (act (Some d)) as [c' [[]|e]]; [|done]. by split_and!.
Qed.

Lemma came_to_given {A B} q asked looked d (r : result ApiError A) (f : A → fallible (option Doc) ApiError B) g :
  (∀ x, r = Ok x → came_to q asked looked d (fbind (f x) g (Some d))) → came_to q asked looked d (fbind (fbind (given r) f) g (Some d)).
Proof. intros Hf. unfold fbind at 2, given. destruct r as [x|e]; [by apply Hf|done]. Qed.

Lemma came_to_drawn {A} q asked looked d (act : fallible (option Doc) ApiError unit) (x : A) (K : A → CommunityKey) :
  came_to q asked looked d ((act ;! fret (K x)) (Some d)) → came_to q asked looked d (fbind (act ;! fret x) (λ y, fret (K y)) (Some d)).
Proof. unfold fbind. by destruct (act (Some d)) as [c' [[]|e]]. Qed.

Lemma marks_come_to id edited at_ text asked looked d : came_to (Marks id edited at_ text) asked looked d (say me w0 a (Marks id edited at_ text) asked looked (Some d)).
Proof.
  cbn [say]. unfold bookmark_item. apply came_to_given. intros [] Hi%item_asked. apply came_to_given. intros [mark made] Hmade.
  apply came_to_given. intros b Hb. cbn [fst snd] in Hb |- *. destruct (new_bookmark at_ text made) as [b'|] eqn:Hn; [|done]. injection Hb as <-.
  apply new_bookmark_ok in Hn as [-> _].
  assert (names_key me (Marks id edited at_ text) (BookmarkKey id me mark) ∧
    spoken_of me w0 (Marks id edited at_ text) asked looked (seen_in w0 looked) ∧
    said_value me (micros_since_epoch (clock a)) (seen_in w0 looked) (Marks id edited at_ text) = Some (VMark (MkBookmark at_ text made))) as (Hk & Hs & Hv).
  { destruct edited as [edited|]; cbn [names_key spoken_of said_value].
    - destruct (own_bookmark _ _ _ _ _) as [old|] eqn:Ho; [|done]. apply own_bookmark_seen in Ho. injection Hmade as <- <-.
      rewrite Ho. split_and!; [done|done|by exists old|done].
    - destruct (random_bookmark a); [|done]. injection Hmade as <- <-. split_and!; [by eexists|done|done]. }
  apply (came_to_drawn _ _ _ _ _ mark (λ mark, BookmarkKey id me mark)).
  apply (updates_came_to _ _ _ _ (BookmarkKey id me mark) (writes (bookmark me (entry_time a) id mark (MkBookmark at_ text made)))); [done..|].
  rewrite Hv. by apply (put_updates d (BookmarkKey id me mark) (VMark _)).
Qed.

Lemma fulfills_come_to id item asked looked d : came_to (Fulfills id item) asked looked d (say me w0 a (Fulfills id item) asked looked (Some d)).
Proof.
  cbn [say]. unfold wish_fulfill. apply came_to_given. intros es [Hw Hmine]%known_wish_seen. apply came_to_given. intros [] Hi%item_asked.
  apply came_to_given. intros entry He. destruct (new_wish _) as [entry'|] eqn:Hn; [|done]. injection He as <-.
  unfold new_wish in Hn. case_bool_decide; [done|]. injection Hn as <-.
  apply updates_came_to; [done..|]. cbn [said_value]. rewrite <-Hmine. unfold mine_of. 
  destruct (es !! me) as [[mine]|]; by apply (put_updates d (WishKey id me) (VWish _)).
Qed.

(** C23: A request says one thing. Whatever a member asks to be said and
    whatever has arrived meanwhile, the document is as it was if the request is
    refused; if it is answered, the item, wish or bookmark it speaks of is in the
    document as it was read, and of all that anybody says just one key of this
    member's own has changed, the one the request is about: it says what was
    asked, read back as it was given, or nothing, if that was cleared. A bookmark
    edited keeps when it was made, and a wish fulfilled what was wished for. *)
Theorem saying_is_an_update q asked looked d :
  came_to q asked looked d (say me w0 a q asked looked (Some d)).
Proof.
  destruct q as [id rating|id text|id edited at_ text|id mark|kind title authors description|id text|id item];
    [| |apply marks_come_to| | | |apply fulfills_come_to]; cbn [say].
  - apply came_to_given. intros [] Hi%item_asked. apply updates_came_to; [done..|]. by apply (optional_updates d (RatingKey id me) rating VRating _ _ (entry_time a)).
  - apply came_to_given. intros [] Hi%item_asked. apply updates_came_to; [done..|]. by apply (optional_updates d (ReviewKey id me) text VReview _ _ (entry_time a)).
  - apply came_to_given. intros b Hb%own_bookmark_seen. apply updates_came_to; [done|done|by exists b|]. by apply (delete_updates d (BookmarkKey id me mark)).
  - unfold wish_create. apply came_to_given. intros [] Ht. apply came_to_given. intros drawn _. apply came_to_given. intros entry He.
    destruct (new_wish _) as [entry'|] eqn:Hn; [|done]. injection He as <-. unfold new_wish in Hn. case_bool_decide; [done|]. injection Hn as <-.
    case_bool_decide as Htitle; [done|].
    apply (came_to_drawn _ _ _ _ _ drawn (λ drawn, WishKey drawn me)).
    apply (updates_came_to _ _ _ _ (WishKey drawn me) (writes (wish me (entry_time a) drawn _))); [done|by eexists|done|].
    by apply (put_updates d (WishKey drawn me) (VWish _)).
  - apply came_to_given. intros es [Hw _]%known_wish_seen. apply updates_came_to; [done..|]. by apply (optional_updates d (WishCommentKey id me) text VComment _ _ (entry_time a)).
Qed.

(** ** Fulfilling a wish *)

(** This member's entry, saying also that the wish is fulfilled. *)
Definition fulfilled_entry (item : ItemId) (es : gmap MemberId Wish) : Wish := MkWish (with_status (Fulfilled item) (mine_of me a es)).

Lemma titled_alike item es m :
  (∀ x, es !! m = Some x → has_title x = true → ∃ y, <[me := fulfilled_entry item es]> es !! m = Some y ∧ has_title y = true ∧
     with_status Open (wish_fields y) = with_status Open (wish_fields x)) ∧
  (∀ y, <[me := fulfilled_entry item es]> es !! m = Some y → has_title y = true → ∃ x, es !! m = Some x ∧ has_title x = true ∧
     with_status Open (wish_fields y) = with_status Open (wish_fields x)).
Proof.
  destruct (decide (m = me)) as [->|Hm]; [|rewrite lookup_insert_ne by done; split; intros x ? ?; by exists x].
  rewrite lookup_insert_eq. unfold fulfilled_entry, mine_of. split.
  - intros x -> Ht. eexists. split; [done|]. by destruct x.
  - intros y [= <-] Ht. destruct (es !! me) as [x|]; [|done]. exists x. split; [done|]. by destruct x.
Qed.
Lemma made_alike (m : MemberId) (x y : Wish) : with_status Open (wish_fields y) = with_status Open (wish_fields x) → made_at (m, y) = made_at (m, x).
Proof. intros [= _ _ _ _ Ht]. unfold made_at. cbn. by rewrite Ht. Qed.

Lemma resolve_fulfilled item es r :
  resolve es = Some r → ∃ r', resolve (<[me := fulfilled_entry item es]> es) = Some r' ∧ creator r' = creator r ∧
    with_status Open (wished r') = with_status Open (wished r) ∧ fulfilled_by r' = <[me := item]> (fulfilled_by r).
Proof.
  intros Hr. pose proof (titled_alike item es) as Halike. set (es' := <[me := _]> es) in *.
  destruct (proj2 (earliest_title_creates es) r Hr) as [(x & Hx & Htx & Hwx & Hfirst) Hby].
  destruct (earliest_title_creates es') as [Hnone Hsome]. destruct (proj1 (Halike (creator r)) x Hx Htx) as (x' & Hx' & Htx' & Hsx).
  destruct (resolve es') as [r'|]; [|by rewrite (proj1 Hnone eq_refl _ _ Hx') in Htx'].
  destruct (Hsome r' eq_refl) as [(y' & Hy' & Hty' & Hwy & Hfirst') Hby']. destruct (proj2 (Halike (creator r')) y' Hy' Hty') as (y & Hy & Hty & Hsy).
  assert (creator r' = creator r) as Hc.
  { pose proof (Hfirst _ _ Hy Hty) as H1'. pose proof (Hfirst' _ _ Hx' Htx') as H2'. unfold as_early in H1', H2'.
    rewrite (made_alike _ _ _ Hsy), (made_alike _ _ _ Hsx) in H2'. cbn [fst] in *. apply (inj ord_num). lia. }
  exists r'. split_and!; [done|done| |].
  - rewrite Hwy, Hwx, Hsy. rewrite Hc in Hy. congruence.
  - apply map_eq. intros m. apply option_eq. intros i. rewrite Hby'. unfold es'. destruct (decide (m = me)) as [->|Hm].
    + rewrite !lookup_insert_eq. split; [by intros (e & [= <-] & [= <-])|]. intros [= <-]. by eexists.
    + rewrite !lookup_insert_ne by done. symmetry. apply Hby.
Qed.

(** C24: Fulfilling keeps the wish. When nothing is written between its reading
    and its writing, a wish that is said to be fulfilled has the creator it had
    and wishes for what it wished for, whoever says it, the creator among them;
    and it is fulfilled by those it was and by this member, with the item named. *)
Theorem fulfilling_keeps_the_wish id item asked d c' es es' :
  wish_fulfill me w0 a id item (Some d) asked (Some d) = (c', Ok tt) →
  wishes w0 id (Some d) = Ok es → wishes w id (Some d) = Ok es → wishes w id c' = Ok es' →
  within_type (VWish (fulfilled_entry item es)) → lands w (VWish (fulfilled_entry item es)) →
  ∃ r r', resolve es = Some r ∧ resolve es' = Some r' ∧ creator r' = creator r ∧
    with_status Open (wished r') = with_status Open (wished r) ∧ fulfilled_by r' = <[me := item]> (fulfilled_by r).
Proof.
  intros Hf Hw0 Hw Hw' Ht Hl.
  assert (∃ r, resolve es = Some r) as [r Hr].
  { unfold wish_fulfill, fbind, given, known_wish_entries in Hf. rewrite Hw0 in Hf. cbn [map_err result_bind] in Hf.
    destruct (resolve es) as [r|]; [by exists r|done]. }
  destruct (resolve_fulfilled item es r Hr) as (r' & Hr' & Hrest). exists r, r'. split; [done|]. split; [|done].
  enough (es' = <[me := fulfilled_entry item es]> es) as -> by done.
  pose proof (fulfills_come_to id item asked (Some d) d) as Hc. cbn [say] in Hc. unfold fbind in Hc at 1. rewrite Hf in Hc.
  destruct Hc as (_ & _ & _ & Hc). cbn [said_value seen_in] in Hc. rewrite <-(wishes_seen w0 id d es me Hw0) in Hc.
  assert (Some (VWish (fulfilled_entry item es)) = said_value me (micros_since_epoch (clock a)) (seen_in w0 (Some d)) (Fulfills id item)) as Hv.
  { cbn [said_value seen_in]. rewrite <-(wishes_seen w0 id d es me Hw0). unfold fulfilled_entry, mine_of. by destruct (es !! me) as [[f]|]. }
  cbn [said_value seen_in] in Hv. rewrite <-(wishes_seen w0 id d es me Hw0) in Hv. rewrite <-Hv in Hc.
  destruct Hc as (d' & -> & Hview); [by intros x [= <-]|].
  assert (∀ x y : option Wish, VWish <$> x = VWish <$> y → x = y) as Hinj by (intros [x|] [y|] [=]; congruence).
  apply map_eq. intros m. apply Hinj. rewrite (wishes_seen w id d' es' m Hw'), Hview.
  destruct (decide (m = me)) as [->|Hm]; [by rewrite decide_True, lookup_insert_eq by done|].
  rewrite decide_False, lookup_insert_ne by congruence. symmetry. by apply wishes_seen.
Qed.

(** ** Editing *)

Lemma encode_any_inj k k' : encode_any k = encode_any k' → k = k'.
Proof. intros Heq. apply no_key_begins_another. rewrite Heq. apply begins_refl. Qed.

Lemma put_all_held now ks es d c' :
  es.*1 = encode_any <$> ks → NoDup ks → put_all me now es (Some d) = (c', Ok tt) →
  ∃ d', c' = Some d' ∧ ∀ author k, held d' !! (author, encode_any k) =
    if decide (author = member_id32 me) then
      match (list_to_map es : gmap string (list N)) !! encode_any k with
      | Some v => Some (MkEntry (encode_any k) author (MkContentHash (blake3 v)) (N.of_nat (length v)) now)
      | None => held d !! (author, encode_any k)
      end
    else held d !! (author, encode_any k).
Proof.
  revert ks d. induction es as [|[key v] es IH]; intros [|k0 ks] d Hks Hnd Hput; try discriminate Hks.
  { injection Hput as <-. exists d. split; [done|]. intros author k. by case_decide. }
  cbn [put_all] in Hput. unfold fbind, put at 1 in Hput. cbn [document] in Hput.
  destruct (set_bytes _ _ _ _ _) as [d1|] eqn:Hset; [|done]. injection Hks as -> Hks. change (es.*1 = encode_any <$> ks) in Hks. apply NoDup_cons in Hnd as [Hnew Hnd].
  destruct (IH ks d1 Hks Hnd Hput) as (d' & -> & Hd'). exists d'. split; [done|]. intros author k. rewrite Hd', (set_held _ _ _ _ _ _ _ _ Hset).
  assert (∀ k, begins (encode_any k0) (encode_any k) ↔ k0 = k) as Hb by (intros k'; split; [apply no_key_begins_another|intros ->; apply begins_refl]).
  cbn [list_to_map foldr]. change (foldr _ ∅ es) with (list_to_map es : gmap string (list N)).
  case_decide as Ha; [|by rewrite !decide_False by tauto]. destruct (decide (k = k0)) as [->|Hk].
  - rewrite lookup_insert_eq, (decide_True) by done. assert (encode_any k0 ∉ es.*1) as Hno.
    { rewrite Hks. intros (k & Heq%encode_any_inj & Hin)%list_elem_of_fmap. by subst. }
    apply not_elem_of_list_to_map in Hno. rewrite Hno. by rewrite Ha.
  - rewrite lookup_insert_ne by (intros ?%encode_any_inj; congruence).
    destruct (list_to_map es !! encode_any k); [done|]. rewrite decide_False by (intros [_ ?%encode_any_inj]; congruence).
    by rewrite decide_False by (intros [_ ?%Hb]; congruence).
Qed.

(** The value of a field. *)
Definition field_value (i : Item) (f : Field) : option (list N) :=
  match f with
  | FKind => to_json <$> kind i | FTitle => to_json <$> title i | FAuthors => to_json <$> authors i | FGenres => to_json <$> genres i
  | FSeries => to_json <$> series i | FYear => to_json <$> year i | FLang => to_json <$> lang i | FDescription => to_json <$> description i
  end.
Lemma field_entries_values i :
  field_entries i = omap (λ f, (λ v, (encode_key (FieldKey (item_id i) f), v)) <$> field_value i f) all_fields.
Proof.
  unfold field_entries, field_entry, all_fields. cbn [omap list_omap field_value].
  destruct (kind i), (title i), (authors i), (genres i), (series i), (year i), (lang i), (description i); reflexivity.
Qed.
Lemma field_entries_keys i :
  ∃ fs, (field_entries i).*1 = encode_any <$> ((λ f, inl (FieldKey (item_id i) f)) <$> fs) ∧ NoDup fs.
Proof.
  rewrite field_entries_values. exists (filter (λ f, is_Some (field_value i f)) all_fields). split.
  - induction all_fields as [|f fs IH]; [done|]. rewrite filter_cons. cbn [omap list_omap]. destruct (field_value i f) as [v|].
    + rewrite decide_True by by eexists. cbn. f_equal. exact IH.
    + rewrite decide_False by by intros []. exact IH.
  - apply NoDup_filter. apply (bool_decide_unpack _). by vm_compute.
Qed.

Lemma elem_of_all_fields f : f ∈ all_fields.
Proof. destruct f; apply (bool_decide_unpack _); by vm_compute. Qed.
Lemma field_entries_lookup i k :
  (list_to_map (field_entries i) : gmap string (list N)) !! encode_any k =
  match k with inl (FieldKey item f) => if decide (item = item_id i) then field_value i f else None | _ => None end.
Proof.
  destruct (field_entries_keys i) as (fs & Hks & Hnd). apply option_eq. intros v. rewrite <-elem_of_list_to_map.
  2: { rewrite Hks. apply NoDup_fmap_2; [exact encode_any_inj|]. apply NoDup_fmap_2; [|done]. by intros ? ? [=]. }
  rewrite field_entries_values, list_elem_of_omap. split.
  - intros (f & _ & (v' & Hv & [= Hk <-])%fmap_Some). change (encode_any k = encode_any (inl (FieldKey (item_id i) f))) in Hk.
    apply encode_any_inj in Hk as ->. by rewrite decide_True.
  - destruct k as [[item f|]|]; [|done..]. case_decide as Hi; [|done]. intros Hv. exists f. split; [apply elem_of_all_fields|]. by rewrite Hv, Hi.
Qed.

(** An edit writes the fields given. When it is answered, at least one was
    given and the item is in the document as it was read; of every key an item's
    or a member's entry may have, those of the fields given say what was given,
    by this member, and the others, every file's among them, are as they were,
    whoever wrote them. *)
Theorem edits_write_what_is_given id fields asked d c' :
  edit_metadata me w0 a id fields asked (Some d) = (c', Ok tt) →
  let value := field_value (set_fields fields (new_item id)) in
  (∃ f, is_Some (value f)) ∧ item_known w0 id asked ∧ ∃ d', c' = Some d' ∧
  ∀ author k, held d' !! (author, encode_any k) =
    match k with
    | inl (FieldKey item f) =>
        if decide (author = member_id32 me ∧ item = id) then
          match value f with
          | Some v => Some (MkEntry (encode_any k) author (MkContentHash (blake3 v)) (N.of_nat (length v)) (entry_time a))
          | None => held d !! (author, encode_any k)
          end
        else held d !! (author, encode_any k)
    | _ => held d !! (author, encode_any k)
    end.
Proof.
  intros He value. unfold edit_metadata in He. unfold fbind at 1, given at 1 in He. case_bool_decide as Hne; [done|].
  unfold fbind, given in He. destruct (refuse_unknown_item w0 id asked) as [[]|] eqn:Hi; [|done]. apply item_asked in Hi.
  unfold writes, on, Catalogue.write in He. cbn [Datatypes.id] in He.
  assert (entries (set_fields fields (new_item id)) = field_entries (set_fields fields (new_item id))) as Hes by (unfold entries; cbn; by rewrite app_nil_r).
  rewrite Hes in He. destruct (put_all _ _ _ _) as [c1 [[]|]] eqn:Hput; [|done]. injection He as <-.
  split_and!; [|done|].
  - destruct (field_entries (set_fields fields (new_item id))) as [|e l] eqn:Hfe.
    + destruct Hne. destruct fields as [[] [] [] [] [] [] [] []]; try discriminate Hfe. reflexivity.
    + rewrite field_entries_values in Hfe. assert (e ∈ e :: l) as Hin by left. rewrite <-Hfe in Hin.
      apply list_elem_of_omap in Hin as (f & _ & (v & Hv & _)%fmap_Some). exists f. by exists v.
  - destruct (field_entries_keys (set_fields fields (new_item id))) as (fs & Hks & Hnd).
    destruct (put_all_held _ _ _ _ _ Hks ltac:(apply NoDup_fmap_2; [by intros ? ? [=]|exact Hnd]) Hput) as (d' & -> & Hd').
    exists d'. split; [done|]. intros author k. rewrite Hd', field_entries_lookup. change (item_id (set_fields fields (new_item id))) with id.
    destruct k as [[item f|]|]; [|by case_decide..]. unfold value. destruct (decide (author = member_id32 me)) as [->|].
    + destruct (decide (item = id)) as [->|]; [by rewrite decide_True by done|]. by rewrite decide_False by (intros []; done).
    + by rewrite decide_False by (intros []; done).
Qed.
End updates.
