(* ===== verification/ApiFixtures.v ===== *)
(** * The API's uploads and downloads, run

    The theorems of [Uploads], [Downloading], [Adding] and [Saying] at concrete
    inputs. *)

From Stdlib Require Import Ascii.
From stdpp Require Import strings.
From S2P Require Import Prelude Requests Saying Ids GroupSettings Events Membership Heartbeats Keeping KeepingProps KeepingFixtures Failures Statements Held Blobs Storage StorageProps Texts Items Fixtures TextFixtures Community Catalogue CatalogueProps CatalogueFixtures Uploads ReadModel Tasks Api Downloading Adding AddingProps.

(** ** Uploads *)

Lemma UploadId_eq (a b : UploadId) : upload_num a = upload_num b → a = b.
Proof. destruct a as [a Ha], b as [b Hb]. simpl. intros ->. f_equal. apply proof_irrel. Qed.

Definition upload_of_num (n : N) : option UploadId :=
  match decide (bool_decide (n < 2 ^ 128)%N) with left H => Some (MkUploadId n H) | right _ => None end.
Lemma upload_of_num_id u : upload_of_num (upload_num u) = Some u.
Proof.
  unfold upload_of_num. destruct (decide _) as [Hd|Hn]; [f_equal; by apply UploadId_eq|].
  destruct Hn. apply upload_bound.
Qed.
#[export] Instance test_upload_text : IdText UploadId := {|
  show_id u := hex_text 32 (upload_num u);
  read_id s := upload_of_num (hex_value s);
|}.
#[export] Instance test_upload_text_laws : IdTextLaws UploadId 32.
Proof.
  split; intros u; cbn [show_id read_id test_upload_text]; try apply hex_text_laws.
  rewrite hex_value_text; [apply upload_of_num_id|].
  change (16 ^ N.of_nat 32)%N with (2 ^ 128)%N. exact (bool_decide_unpack _ (upload_bound u)).
Qed.

(** The names of [is_plain]'s own test. *)
Example plain_names : Forall (λ n, is_plain n = true) ["mloky.epub"; "Krákatit.epub"; "a b.epub"; "x.tar.gz"].
Proof. apply (bool_decide_unpack _). by vm_compute. Qed.
Example not_plain_names : Forall (λ n, is_plain n = false)
  [""; "."; ".."; "mloky"; "mloky."; ".epub"; "/etc/passwd.epub"; "../mloky.epub"; "a/b.epub"; "a\b.epub"; "c:mloky.epub"; " mloky.epub"; "mloky.epub "].
Proof. apply (bool_decide_unpack _). by vm_compute. Qed.

(** A body of two pieces, and where it breaks off instead. *)
Definition two_pieces (last : Sent) : Meets :=
  MkMeets (Ok (MkUploadId 5 I)) Goes Goes [Piece [1; 2]%N Goes; last] Goes true false false.
Definition small_uploads : Uploads := MkUploads "/up" 4.

(** The client goes away while the directory is made. *)
Definition gone_early : Meets := MkMeets (Ok (MkUploadId 5 I)) Gone Goes [] Goes true true false.


Lemma plain_names_stay_put_witness :
  is_plain "mloky.epub" = true ∧ components (join "/home/karel/knihy" "mloky.epub") = ["home"; "karel"; "knihy"; "mloky.epub"] ∧
  extension (join "/home/karel/knihy" "mloky.epub") = Some "epub".
Proof.
  split; [by vm_compute|]. destruct (plain_names_stay_put "/home/karel/knihy" "mloky.epub") as (-> & _ & ext & _ & -> & He); [by vm_compute|].
  split; [by vm_compute|]. rewrite <-He. by vm_compute.
Defined.

(** ** Downloads *)

Definition epub (size : N) (name : string) : FileRecord := MkFileRecord ContentFile "epub" size name None None None None.
Definition blob (n : N) : ContentHash := MkContentHash (id32 n).
Definition reads_well (_ : string) : option string := None.
Definition none_here : StoreWorld := MkStoreWorld (λ _, Ok NotFound) (λ _, Ok tt) (λ _, Ok tt) (λ _, Ok tt).

(** One file there already, one fetched at the second try. *)
Definition a_disk : Disk := <["/dl" := DirNode]> (<["/dl/b.epub" := FileNode [6]%N]> ∅).
Definition two_wanted : list (ContentHash * FileRecord) := [(blob 6, epub 1 "b.epub"); (blob 5, epub 2 "a.epub")].
Definition two_targets : list Target :=
  [MkTarget (blob 6) (epub 1 "b.epub") "/dl/b.epub" true; MkTarget (blob 5) (epub 2 "a.epub") "/dl/a.epub" false].
Definition fetched_late : Trip :=
  MkTrip none_here (Ok [Blobs.Progress 1; Blobs.DownloadError]) true (Ok [Blobs.Progress 1; Blobs.Progress 2]) (MkExporting (Ok [2; 3]%N) (Ok tt) None).
Definition never_made : Trip := MkTrip none_here (Err "not asked") false (Err "not asked") (MkExporting (Err "not asked") (Ok tt) None).
Definition two_trips : list (Target * Trip) := zip two_targets [never_made; fetched_late].
Definition fetched_both := fetch_all (MkItemId (id32 1)) (two_trips) 0 (MkLocal ∅ a_disk false 0 []).

Lemma two_targets_apart : apart two_trips.*1.
Proof.
  assert (Forall (λ t, Forall (λ u, target_path t ≠ partial_of (target_path u)) two_targets) two_targets) as Hall
    by (apply (bool_decide_unpack _); by vm_compute).
  intros t u Ht Hu. rewrite Forall_forall in Hall. specialize (Hall t Ht). rewrite Forall_forall in Hall. by apply Hall.
Qed.
Lemma two_trips_verified : Forall verified two_trips.
Proof.
  constructor; [done|]. constructor; [|constructor]. intros b [= <-]. apply (bool_decide_unpack _). by vm_compute.
Qed.


(** Two items' files of one name, both here. *)
Definition exported (bytes : list N) : Trip := MkTrip ten_bytes_each (Err "here") false (Err "here") (MkExporting (Ok bytes) (Ok tt) None).
Definition an_empty_directory : Disk := {["/dl" := DirNode]}.

Lemma concurrent_downloads_overwrite_witness :
  blob 5 ≠ blob 7 ∧
  ∃ t1 t2, targets_in reads_well "/dl" [(blob 5, epub 2 "a.epub")] an_empty_directory = Ok [t1] ∧
    targets_in reads_well "/dl" [(blob 7, epub 2 "a.epub")] an_empty_directory = Ok [t2] ∧
    let first := fetch_all (MkItemId (id32 1)) [(t1, exported [2; 3]%N)] 0 (MkLocal ∅ an_empty_directory false 0 []) in
    let second := fetch_all (MkItemId (id32 2)) [(t2, exported [3; 4]%N)] 0 (MkLocal ∅ (local_disk first.1) false 0 []) in
    first.2 = Ok (Some [downloaded t1 FromStore]) ∧ second.2 = Ok (Some [downloaded t2 FromStore]) ∧
    local_disk second.1 !! "/dl/a.epub" = Some (FileNode [3; 4]%N).
Proof.
  split; [apply (bool_decide_unpack _); vm_compute; exact I|].
  destruct (concurrent_downloads_overwrite reads_well "/dl" (blob 5) (epub 2 "a.epub") (blob 7) (epub 2 "a.epub") "a.epub" an_empty_directory
    (MkItemId (id32 1)) (MkItemId (id32 2)) (exported [2; 3]%N) (exported [3; 4]%N) ∅ ∅ [2; 3]%N [3; 4]%N) as (t1 & t2 & Ht1 & Ht2 & H12).
  1, 2, 3, 5: vm_compute; reflexivity.
  1, 2: apply (bool_decide_unpack _); vm_compute; exact I.
  1, 2: apply (bool_decide_unpack _); vm_compute; exact I.
  1, 4: intros tags; reflexivity.
  1, 2, 3, 4: reflexivity.
  exists t1, t2. split; [done|]. split; [done|]. cbn zeta.
  destruct (fetch_all _ [(t1, _)] _ _) as [l1 e1]. cbn [fst snd] in *. destruct (fetch_all _ [(t2, _)] _ _) as [l2 e2]. cbn [fst snd] in *.
  destruct H12 as (He1 & He2 & _ & Hd & _). split; [exact He1|]. split; [exact He2|exact Hd].
Defined.

(** A file is there named as the part of what is fetched is. *)
Definition a_hidden_file : Disk := <["/dl" := DirNode]> (<["/dl/.a.epub.partial" := FileNode [9]%N]> ∅).
Lemma file_named_as_a_part_is_lost_witness :
  (match a_hidden_file !! "/dl/.a.epub.partial" with Some (FileNode [9%N]) => true | _ => false end) = true ∧
  ∃ t l, targets_in reads_well "/dl" [(blob 5, epub 2 "a.epub")] a_hidden_file = Ok [t] ∧
    fetch_all (MkItemId (id32 1)) [(t, exported [2; 3]%N)] 0 (MkLocal ∅ a_hidden_file false 0 []) = (l, Ok (Some [downloaded t FromStore])) ∧
    local_disk l !! partial_of (join "/dl" "a.epub") = None.
Proof.
  split; [vm_compute; reflexivity|].
  refine (file_named_as_a_part_is_lost reads_well "/dl" (blob 5) (epub 2 "a.epub") "a.epub" a_hidden_file (MkItemId (id32 1))
    (exported [2; 3]%N) ∅ [2; 3]%N (FileNode [9]%N) _ _ _ _ _ _ _ _).
  1, 2, 4: vm_compute; reflexivity.
  1, 2: apply (bool_decide_unpack _); vm_compute; exact I.
  1: intros tags; reflexivity.
  1, 2: reflexivity.
Defined.

(** ** Adds *)

Definition a_and_b : Imports := [("/x/a.epub", Ok (MkImported (blob 5) 2)); ("/y/b.epub", Ok (MkImported (blob 6) 1))].
Lemma item_is_its_contents_witness :
  a_and_b ≠ [] ∧
  ∃ i imported, item_from_files id a_and_b = Some (Ok (i, imported)) ∧
    ∀ paths' i' imported', item_from_files id paths' = Some (Ok (i', imported')) →
      (∀ h, h ∈ imported_hash <$> imported ↔ h ∈ imported_hash <$> imported') → item_id i = item_id i'.
Proof.
  split; [intros [=]|].
  destruct (item_is_its_contents id a_and_b) as (r & Hr & Hall); [intros [=]|].
  assert (match item_from_files id a_and_b with Some (Ok _) => true | _ => false end = true) as Hb by (vm_compute; reflexivity).
  rewrite Hr in Hb. destruct r as [[i imported]|e]; [|discriminate]. exists i, imported. split; [exact Hr|]. apply Hall.
Defined.

Lemma same_name_slips_through_witness :
  file_name "/x/a.epub" = Some "a.epub" ∧ file_name "/x/b.epub" = Some "b.epub" ∧ file_name "/y/b.epub" = Some "b.epub" ∧
  item_from_files id [("/x/b.epub", Ok (MkImported (blob 6) 1)); ("/y/b.epub", Ok (MkImported (blob 5) 2))] =
    Some (Err (InvalidParams (SameName "/x/b.epub" "/y/b.epub" "b.epub"))).
Proof.
  split_and!; [vm_compute; reflexivity..|].
  refine (proj2 (same_name_slips_through id "/x/a.epub" "/x/b.epub" "/y/b.epub" "a.epub" "b.epub" (blob 5) (blob 6) 2 1 _ _ _ _ _ _ _ _)).
  1, 2, 3: vm_compute; reflexivity.
  1: intros [=].
  1, 2, 3: eexists; vm_compute; reflexivity.
  apply (bool_decide_unpack _). vm_compute. exact I.
Defined.

(** Two files added where the second item of [two_items] is kept. *)
Definition here_already : StoreWorld :=
  MkStoreWorld (λ h, Ok (Complete (if bool_decide (h = blob 5) then 2 else 1))) (λ _, Ok tt) (λ _, Ok tt) (λ _, Ok tt).
Definition all_goes : Adds :=
  MkAdds (λ _, true) (λ _, true) (λ n, Ok (match n with O => MkImported (blob 5) 2 | _ => MkImported (blob 6) 1 end))
    here_already here_already (Some 100%N) world world Runs 7 8 (Ok (λ _, None)) (λ _ l, l).
Definition adding_two : AddParams := MkAdd Ebook ["/x/a.epub"; "/y/b.epub"] [] (Some "Dune") [] [] None None None None.
Definition pledged : MembershipState := Build_MembershipState None {[member 1 := record_of (profile 1) (2 ^ 40) 0]} ∅ ∅ 0 default_settings 0.
Definition library : Library := MkLibrary ∅ (Some empty_doc) (MkStorage ∅ (MkHeldSet ∅ 0)).
Definition two_added := add id sumN any_order any_visit (MkUploads "/up" 100) (member 1) all_goes adding_two pledged no_tables library.
Definition added_well : bool := match two_added with Some (_, Ok _) => true | _ => false end.

Lemma sizes_agree n f : imports all_goes n = Ok f → size_of (checked_store all_goes) (imported_hash f) = imported_size f.
Proof. destruct n; cbn; intros [= <-]; vm_compute; reflexivity. Qed.
Lemma added_well_true : added_well = true.
Proof. vm_compute. reflexivity. Qed.

Lemma nothing_kept : kept_blobs any_order (checked_store all_goes) (storage_tags (lib_storage library)) = Ok ∅.
Proof.
  assert (∀ r, kept any_order (checked_store all_goes) r ∅ = Ok []) as Hk.
  { intros r. unfold kept, kept_under. cbn [lists_tags checked_store all_goes here_already]. unfold any_order. by rewrite map_to_list_empty. }
  change (storage_tags (lib_storage library)) with (∅ : Tags). unfold kept_blobs, all_reasons. cbn [add_reasons]. rewrite !Hk. cbn [result_bind add_kept]. reflexivity.
Qed.


(** Another add keeps 2 bytes after the check of 3 within 4: both are
    answered, and 5 bytes have to stay. *)
Definition another_keeps (l : Library) : Library :=
  let t := (keep here_already Own (MkItemId (id32 9)) (blob 7) (lib_tags l)).1 in
  with_tags (keep here_already Own (MkItemId (id32 9)) (blob 8) t).1 l.
Definition crowded : Adds :=
  MkAdds (λ _, true) (λ _, true) (imports all_goes) here_already here_already (Some 4%N) world world Runs 7 8 (Ok (λ _, None))
    (λ m l, match m with WritingItem => another_keeps l | _ => l end).
Definition has_to_stay (l : Library) : option N :=
  match kept_blobs any_order here_already (lib_tags l) with Ok k => Some (sum_over mandatory_for k) | Err _ => None end.
Lemma concurrent_adds_pass_the_limit :
  match add id sumN any_order any_visit (MkUploads "/up" 100) (member 1) crowded adding_two pledged no_tables library with
  | Some (l', Ok _) => bool_decide (has_to_stay l' = Some 5%N)
  | _ => false
  end = true.
Proof. vm_compute. reflexivity. Qed.

(** ** What is said *)

(** Two contents, each at its hash. *)
Definition two_contents (a b : list N) : ContentWorld := {|
  has_content h := Ok (Complete (N.of_nat (length (if bool_decide (h = MkContentHash (blake3 a)) then a else b))));
  reads_content h := Ok (if bool_decide (h = MkContentHash (blake3 a)) then a else b);
  is_public_key _ := true;
|}.
Definition asking : Moment := MkMoment 5000 30 (Ok (MkBookmarkId 6 I)) (Ok (MkWishId (id32 4))).
Definition said_in (q : Say) (w : ContentWorld) (m : N) (d : FiledDoc) : option FiledDoc * result ApiError CommunityKey :=
  say (member m) w asking q (Some d) (Some d) (Some d).

(** Member 1 has a bookmark on the book, made at 7, and edits it. *)
Definition old_mark : Bookmark := MkBookmark "p. 4" "read on" 7.
Definition new_mark : Bookmark := MkBookmark "p. 5" "read again" 7.
Definition mark5 : BookmarkId := MkBookmarkId 5 I.
Definition with_mark : FiledDoc :=
  after retitled (set_bytes (member_id32 (member 1)) (encode_community (BookmarkKey book (member 1) mark5)) (encode_bookmark old_mark) 10 retitled).
Definition old_world : ContentWorld := all_here (encode_bookmark old_mark).
Definition new_world : ContentWorld := all_here (encode_bookmark new_mark).
Definition edit_mark : Say := Marks book (Some mark5) "p. 5" "read again".

Lemma saying_is_an_update_witness :
  (∃ d', said_in edit_mark old_world 1 with_mark = (Some d', Ok (BookmarkKey book (member 1) mark5)) ∧
     view new_world d' (BookmarkKey book (member 1) mark5) = Some (VMark new_mark)) ∧
  (said_in edit_mark old_world 2 with_mark).1 = Some with_mark.
Proof.
  split.
  - assert (is_ok (said_in edit_mark old_world 1 with_mark).2 = true) as Hok by (vm_compute; reflexivity).
    pose proof (saying_is_an_update (member 1) old_world new_world asking edit_mark (Some with_mark) (Some with_mark) with_mark
      : came_to (DD := test_documents) _ _ _ _ _ _ _ _ (said_in edit_mark old_world 1 with_mark)) as Hu.
    destruct (said_in edit_mark old_world 1 with_mark) as [c' [k|e]]; [|discriminate Hok]. destruct Hu as (_ & Hk & _ & Hd). cbn [names_key edit_mark] in Hk. subst k.
    assert (said_value (member 1) (micros_since_epoch (Saying.clock asking)) (seen_in old_world (Some with_mark)) edit_mark = Some (VMark new_mark)) as Hv
      by (vm_compute; reflexivity).
    rewrite Hv in Hd. destruct Hd as (d' & -> & Hd'); [intros x [= <-]; split; [split; [split|]; vm_compute; discriminate|split; vm_compute; reflexivity]|].
    exists d'. split; [reflexivity|]. rewrite Hd', decide_True by reflexivity. exact Hv.
  - assert (is_ok (said_in edit_mark old_world 2 with_mark).2 = false) as Hno by (vm_compute; reflexivity).
    pose proof (saying_is_an_update (member 2) old_world new_world asking edit_mark (Some with_mark) (Some with_mark) with_mark
      : came_to (DD := test_documents) _ _ _ _ _ _ _ _ (said_in edit_mark old_world 2 with_mark)) as Hu.
    destruct (said_in edit_mark old_world 2 with_mark) as [c' [k|e]]; [discriminate Hno|exact Hu].
Defined.

(** Member 1 wishes for "a"; member 2 says the book answers it. *)
Definition a_wish : WishId := MkWishId (id32 3).
Definition wished_for : Wish := MkWish (MkWishFields None (Some "a") None None (Some 1%N) Open).
Definition answering : Wish := MkWish (MkWishFields None None None None (Some 5%N) (Fulfilled book)).
Definition with_wish : FiledDoc :=
  after retitled (set_bytes (member_id32 (member 1)) (encode_community (WishKey a_wish (member 1))) (encode_wish wished_for) 10 retitled).
Definition both_wishes : ContentWorld := two_contents (encode_wish wished_for) (encode_wish answering).
Definition wishes_in (c : option FiledDoc) : gmap MemberId Wish := ok_or ∅ (wishes both_wishes a_wish c).
Definition fulfilled_doc : option FiledDoc * result ApiError unit :=
  wish_fulfill (member 2) both_wishes asking a_wish book (Some with_wish) (Some with_wish) (Some with_wish).

Lemma fulfilling_keeps_the_wish_witness :
  ∃ r r', resolve (wishes_in (Some with_wish)) = Some r ∧ resolve (wishes_in fulfilled_doc.1) = Some r' ∧
    creator r' = creator r ∧ with_status Open (wished r') = with_status Open (wished r) ∧ fulfilled_by r' = <[member 2 := book]> (fulfilled_by r).
Proof.
  refine (fulfilling_keeps_the_wish (member 2) both_wishes both_wishes asking a_wish book (Some with_wish) with_wish fulfilled_doc.1
    (wishes_in (Some with_wish)) (wishes_in fulfilled_doc.1) _ _ _ _ _ _).
  - assert (is_ok fulfilled_doc.2 = true) as Hok by (vm_compute; reflexivity). change (fulfilled_doc = (fulfilled_doc.1, Ok tt)).
    destruct fulfilled_doc as [c' [[]|e]]; [reflexivity|discriminate Hok].
  - apply is_ok_eq. vm_compute. reflexivity.
  - apply is_ok_eq. vm_compute. reflexivity.
  - apply is_ok_eq. vm_compute. reflexivity.
  - split; vm_compute; discriminate.
  - split; vm_compute; reflexivity.
Defined.

(** An edit of the year alone. *)
Definition edited (fields : ItemFields) : option FiledDoc * result ApiError unit :=
  edit_metadata (member 1) world asking book fields (Some retitled) (Some retitled).
Definition year_alone : ItemFields := MkItemFields None None None None None (Some 1965%Z) None None.
Lemma edits_write_what_is_given_witness :
  ∃ d', (edited year_alone).1 = Some d' ∧
    ∀ author, held d' !! (author, encode_any (inl (FieldKey book FTitle))) = held retitled !! (author, encode_any (inl (FieldKey book FTitle))).
Proof.
  destruct (edited year_alone) as [c' r] eqn:E.
  assert (r = Ok tt) as -> by (assert (is_ok (edited year_alone).2 = true) as Hok
    by (vm_compute; reflexivity); rewrite E in Hok; destruct r as [[]|]; [reflexivity|discriminate Hok]).
  unfold edited in E. destruct (edits_write_what_is_given (DD := test_documents) (DL := test_documents_laws) _ _ _ _ _ _ _ _ E) as (_ & _ & d' & -> & Hd').
  exists d'. split; [reflexivity|]. intros author. rewrite Hd'. destruct (decide _); reflexivity.
Defined.
